(* ===== verification/_CoqProject ===== *)
-Q . S2P
Prelude.v
Event.v
Scheduler.v
Machine.v
State.v
WellFormed.v
StateSpecs.v
Integrity.v
Runtime.v
Sample.v
Seccomp.v
Linking.v
Memory.v
Fuzzer.v
Api.v
Atomics.v
Contracts.v
Elf.v
Preload.v
LlvmPass.v
Discipline.v
Conduct.v
Interposition.v
Starting.v
System.v
Exclusion.v
Safety.v
Termination.v
Progress.v
Typed.v
