(* ===== verification/Prelude.v ===== *)
(** rsched: a verification of the deterministic thread scheduler.

    * The program

    rsched runs a multi-threaded C or Rust program so that one thread runs at a time
    and a seed decides which.  Its parts (all under src/rsched):
    - src/event.rs: the events a thread announces before an operation;
    - src/scheduler.rs: the choice of the next thread (a random walk over a xorshift
      generator, and a wrapper that logs);
    - src/lib.rs: the state of the threads, mutexes, condition variables and barriers;
      the global mutex and the hand-over between threads; the exported
      rsched_pthread_* functions; the atomics; the seccomp tripwire; the fuzzer entry;
    - preload/src/lib.rs: the LD_PRELOAD interceptors, the sleeps, the recognition of
      the thread sanitizer's own thread (with a reader of ELF symbols);
    - llvm-pass/src/lib.rs: the compiler pass that calls the hooks.

    * How it is modelled

    A function that can panic returns [result] (this file); an index, an unwrap or an
    overflow check of the source is a [Panic] with the message of the source.
    Operations that only compute on the state are functions on [State].  Code that
    suspends (takes the global mutex, sleeps on a condition variable, joins) is a
    program of the monad of Machine.v: an action on the shared [World], a suspension,
    a loop.  [eval] runs such a program up to its next suspension; the fuel bounds the
    depth of the evaluation, more fuel never changes an outcome ([eval_mono]), and
    Termination.v proves that for every call there is enough.

    The C library, the sanitizer runtime, the dynamic linker, the file system, the
    environment, inkwell and the user's code are parameters: records of answers
    ([Libc], [Linker]) that may depend on everything asked before.  Undefined
    behaviour of the source (a freed box, a mutex the thread does not hold, memory
    that is not there) is a panic whose message starts with UB.

    * The files, in order

    - Prelude.v: results, u32 and u64, vectors, the tactics and the hint base.
    - Event.v: event.rs.
    - Scheduler.v: scheduler.rs.  The trait is the class [Scheduler], its laws are
      [SchedulerLaws], [RandomWalk] and [LoggingScheduler] are instances, and
      [BoxScheduler] is the boxed choice of [State::new].
    - Machine.v: the program monad, its evaluation, the rely-guarantee logic [wp] and
      [triple], program equality [prog_eq] with its [Proper] instance, and
      [productive] programs.
    - State.v: the records of lib.rs and every operation on them (Module StateOps).
      A HashMap is a [gmap], a Vec a list; the condition variable of a thread is named
      by the thread.
    - WellFormed.v: the invariant [wf] of the state and that every update keeps it.
    - StateSpecs.v: what the operations do, branch by branch.
    - Integrity.v: [sane], the invariant with live waiters and joiners, and what one
      thread's operations do to the records and places of the others ([moves]).
    - Runtime.v: the world, the call depth, the global mutex and the condition
      variables, and the operations of State that suspend (drain_pending_child, wake,
      context_switch, mutex_lock), initialisation and reset.
    - Sample.v: concrete surroundings for the witnesses.
    - Seccomp.v: the BPF program, the system-call stub as instructions, the SIGSYS
      handler; the machine that runs BPF is the class [BpfMachine], with an executable
      instance.
    - Linking.v: the table of the C library's functions (rpt).
    - Memory.v: bytes, little-endian words, loads, stores and read-modify-writes.
    - Fuzzer.v: the fuzz target.
    - Api.v: the exported functions, trampoline and thread exit.
    - Atomics.v: the exported atomics, and C11's operations as their specification.
    - Contracts.v: what a mutex call has done when it returns, through its suspensions.
    - Elf.v, Preload.v: the preload shim.
    - LlvmPass.v: the compiler pass on modules of instructions.
    - Discipline.v, Starting.v: one triple per function: the hand-over discipline of a
      thread, and that of a thread that is being started.
    - Conduct.v: a second triple per function: what it does to the scheduler state.
    - Interposition.v: both for the interceptors.
    - System.v: the process: threads in their own code, suspended in the library,
      starting, or dead; the step relation and [reachable].
    - Exclusion.v: the invariant of the process and its consequences.
    - Safety.v: the state invariant of the process, and which panics are possible.
    - Termination.v: every segment ends.
    - Progress.v: enabled threads go on, and no wake-up is lost.
    - Typed.v: every field keeps its type.

    * What is proved

    - The process (a build without the sanitizer feature, no spurious wake-ups; the
      calls are those of the library and of the interceptors).  Exclusion.v: at most
      one thread is active; a thread in its own code is outside the library; the marks
      the scheduler relies on are right.  Safety.v: the scheduler state is sane in
      every reachable state, so that no lookup, index or unwrap of the library fails:
      what panics is undefined behaviour of the caller, an overflow of the recursion
      count, or a failed installation of the filter.  Progress.v: what a thread may do
      it does; when nobody has the turn, or a blocked thread keeps it in
      [pthread_join], every thread that waits in a call is blocked.
    - The limits, as examples (concrete runs): one spurious wake-up lets two threads run
      at once; a new thread whose creator exits while nobody else is left never runs.
    - Termination: every segment of every call ends, from every reachable state.
    - Contracts.v: a mutex call that returns 0 owns the mutex, whatever happened at its
      suspensions.
    - Typed.v, in every build and with spurious wake-ups: machine integers stay in
      their width, the generator never degenerates, tables and boxes stay well formed,
      atomics return values of their C types.
    - The state (WellFormed.v, StateSpecs.v): the invariant; unlock, signal, broadcast
      and barrier on every branch; nested locking is undone by as many unlocks; the
      recursion count is bounded by its width.
    - The schedule (Scheduler.v): the choice is total and is the first runnable thread
      from a random start; how biased it is; logging does not change it; the
      generator is injective.
    - Atomics refine C11; the BPF program equals a decision table and the handler's
      own calls pass; the table of C functions is filled once; nested calls of
      interceptors only forward; the parsed background mode and the decision; sleeps
      and their bounds; the ELF lookup is sound and total; the fuzzer runs each
      schedule with a seed of its own; the compiler pass hooks every atomic access,
      redirects exactly the direct pthread calls and wraps the fuzz target once.

    * What is not modelled

    The return address (an LLVM intrinsic), the diagnostics of the preload library
    (they print what the dynamic linker answers), the build script,
    libc_start_main.rs (part of no build), tests, benches and C examples.  Memory is
    sequentially consistent: the threads run one at a time.  The theorems about the
    process, except those of Typed.v, do not cover the sanitizer build, where threads
    run freely.

    * Next

    Contracts for the calls that do not take a mutex: a join returns after its thread
    has ended, a barrier wait after the last thread has come, in every run of the
    process; that a thread of its own code that owns a mutex has a positive recursion
    count, so that only the counter's width limits nesting; what exclusion is left
    under spurious wake-ups. *)
From stdpp Require Export base gmap strings list fin_maps pretty.
From Stdlib Require Export ZArith Lia.

Open Scope Z_scope.

(** * Fallible computations

    Rust code that indexes, unwraps or checks arithmetic can panic; an
    [extern "C"] function that panics aborts the process.  [Panic] carries the
    message of the panic. *)
Inductive result (A : Type) : Type :=
| Ok (a : A)
| Panic (msg : string).
Arguments Ok {A} a.
Arguments Panic {A} msg.

Declare Scope result_scope.
Delimit Scope result_scope with result.

Definition rbind {A B} (m : result A) (k : A -> result B) : result B :=
  match m with Ok a => k a | Panic e => Panic e end.

Notation "'let?' x := m 'in' k" := (rbind m (fun x => k))
  (at level 10, x pattern, m at level 100, k at level 200)
  : result_scope.

Open Scope result_scope.

Definition is_ok {A} (m : result A) : bool :=
  match m with Ok _ => true | Panic _ => false end.

(** [opt.expect(msg)] *)
Definition expect {A} (o : option A) (msg : string) : result A :=
  match o with Some a => Ok a | None => Panic msg end.

(** [iter().map(f).collect()] for a fallible [f]. *)
Fixpoint rmap {A B} (f : A -> result B) (l : list A) : result (list B) :=
  match l with
  | [] => Ok []
  | x :: l' => let? y := f x in let? ys := rmap f l' in Ok (y :: ys)
  end.

(** [for x in l { s = f(s, x) }] for a fallible body. *)
Fixpoint rfold {A S} (f : S -> A -> result S) (s : S) (l : list A) : result S :=
  match l with
  | [] => Ok s
  | x :: l' => let? s' := f s x in rfold f s' l'
  end.

Lemma rbind_Ok {A B} (m : result A) (k : A -> result B) b :
  rbind m k = Ok b <-> exists a, m = Ok a /\ k a = Ok b.
Proof. destruct m; simpl; naive_solver. Qed.

Lemma expect_Ok {A} (o : option A) msg a : expect o msg = Ok a <-> o = Some a.
Proof. destruct o; simpl; naive_solver. Qed.

Lemma rmap_Ok {A B} (f : A -> result B) (g : A -> B) l :
  (forall x, x ∈ l -> f x = Ok (g x)) -> rmap f l = Ok (g <$> l).
Proof.
  induction l as [|x l IH]; intros H; simpl; [done|].
  rewrite H by set_solver. simpl. rewrite IH; [done|]. set_solver.
Qed.

Lemma rmap_Ok_inv {A B} (f : A -> result B) l ys :
  rmap f l = Ok ys -> Forall2 (fun x y => f x = Ok y) l ys.
Proof.
  revert ys. induction l as [|x l IH]; intros ys H; simpl in H.
  - simplify_eq. constructor.
  - apply rbind_Ok in H as (y & Hy & H). apply rbind_Ok in H as (ys' & Hys & H).
    simplify_eq. constructor; auto.
Qed.

Lemma rfold_app {A S} (f : S -> A -> result S) s l1 l2 :
  rfold f s (l1 ++ l2) = let? s' := rfold f s l1 in rfold f s' l2.
Proof.
  revert s. induction l1 as [|x l1 IH]; intros s; simpl; [done|].
  destruct (f s x) as [s'|e]; simpl; [apply IH|done].
Qed.

(** * Machine integers *)

Definition u64_mod : Z := 2 ^ 64.
Definition u32_mod : Z := 2 ^ 32.
Definition wrap64 (x : Z) : Z := x mod u64_mod.
Definition wrap32 (x : Z) : Z := x mod u32_mod.
Definition in_u64 (x : Z) : Prop := 0 <= x < u64_mod.
Definition in_u32 (x : Z) : Prop := 0 <= x < u32_mod.

Definition U64_MAX : Z := u64_mod - 1.
Definition U32_MAX : Z := u32_mod - 1.

(** [a + b] and [a - b] on [u32]: checked when the crate is built with overflow
    checks (the dev and test profiles), wrapping otherwise (release). *)
Definition add_u32 (checks : bool) (a b : Z) : result Z :=
  if a + b <? u32_mod then Ok (a + b)
  else if checks then Panic "attempt to add with overflow" else Ok (wrap32 (a + b)).

Definition sub_u32 (checks : bool) (a b : Z) : result Z :=
  if b <=? a then Ok (a - b)
  else if checks then Panic "attempt to subtract with overflow" else Ok (wrap32 (a - b)).

(** [saturating_add] / [saturating_mul] / [saturating_sub] on [u64]. *)
Definition sat_add64 (a b : Z) : Z := Z.min (a + b) U64_MAX.
Definition sat_mul64 (a b : Z) : Z := Z.min (a * b) U64_MAX.
Definition sat_sub64 (a b : Z) : Z := Z.max (a - b) 0.

Lemma wrap64_range x : in_u64 (wrap64 x).
Proof. apply Z.mod_pos_bound. reflexivity. Qed.

Lemma wrap64_small x : in_u64 x -> wrap64 x = x.
Proof. intros H. apply Z.mod_small. exact H. Qed.

Lemma wrap32_range x : in_u32 (wrap32 x).
Proof. apply Z.mod_pos_bound. reflexivity. Qed.

Lemma wrap32_small x : in_u32 x -> wrap32 x = x.
Proof. intros H. apply Z.mod_small. exact H. Qed.

Lemma testbit_above x n i : 0 <= n -> 0 <= x < 2 ^ n -> n <= i -> Z.testbit x i = false.
Proof.
  intros Hn Hx Hi. rewrite <- (Z.mod_small x (2 ^ n)) by done.
  apply Z.mod_pow2_bits_high. lia.
Qed.

Lemma lxor_range x y n :
  0 <= n -> 0 <= x < 2 ^ n -> 0 <= y < 2 ^ n -> 0 <= Z.lxor x y < 2 ^ n.
Proof.
  intros Hn Hx Hy.
  assert (Z.lxor x y = (Z.lxor x y) mod 2 ^ n) as ->; [|apply Z.mod_pos_bound; lia].
  apply Z.bits_inj'. intros i Hi. destruct (Z.lt_ge_cases i n).
  - by rewrite Z.mod_pow2_bits_low.
  - rewrite Z.mod_pow2_bits_high by lia. rewrite Z.lxor_spec.
    by rewrite !(testbit_above _ n) by lia.
Qed.

Lemma bits_inj_below x y n :
  0 <= n -> 0 <= x < 2 ^ n -> 0 <= y < 2 ^ n ->
  (forall i, 0 <= i < n -> Z.testbit x i = Z.testbit y i) -> x = y.
Proof.
  intros Hn Hx Hy H. apply Z.bits_inj'. intros i Hi.
  destruct (Z.lt_ge_cases i n); [by apply H|].
  by rewrite !(testbit_above _ n) by lia.
Qed.

(** * Reading environment variables

    [s.parse::<u64>()] (and [usize], 64 bits wide): an optional [+], then decimal
    digits; empty input, another character or a value of more than 64 bits is an
    error. *)
Module ParseU64.
Definition digit (c : Ascii.ascii) : option Z :=
  let n := Z.of_N (Ascii.N_of_ascii c) in
  if (48 <=? n) && (n <=? 57) then Some (n - 48) else None.

Fixpoint digits (s : string) (acc : Z) : option Z :=
  match s with
  | EmptyString => Some acc
  | String c s' =>
      match digit c with
      | Some d => if acc * 10 + d <? u64_mod then digits s' (acc * 10 + d) else None
      | None => None
      end
  end.

Definition parse (s : string) : option Z :=
  match s with
  | EmptyString => None
  | String c s' =>
      if bool_decide (c = Ascii.ascii_of_nat 43) (* '+' *)
      then match s' with EmptyString => None | _ => digits s' 0 end
      else digits s 0
  end.

(** A number that is read fits its type. *)
Lemma digits_range v acc n : 0 <= acc < u64_mod -> digits v acc = Some n -> in_u64 n.
Proof.
  revert acc. induction v as [|c v IH]; intros acc Ha E; simpl in E; [by simplify_eq|].
  destruct (digit c) as [d|] eqn:Ed; [|done]. destruct (Z.ltb_spec (acc * 10 + d) u64_mod); [|done].
  eapply IH, E. unfold digit in Ed. case_match eqn:Hd; [|done]. apply andb_true_iff in Hd as [Hd _].
  apply Z.leb_le in Hd. simplify_eq. lia.
Qed.

Lemma parse_range v n : parse v = Some n -> in_u64 n.
Proof.
  assert (H0 : 0 <= 0 < u64_mod) by done. intros E. unfold parse in E.
  destruct v as [|c v]; [done|]. case_bool_decide; [destruct v; [done|]|]; by eapply digits_range.
Qed.
End ParseU64.

(** * Vectors *)

(** [v.retain(|x| x != y)] *)
Definition retain_ne (y : Z) (l : list Z) : list Z := filter (fun x => x <> y) l.

(** [v.contains(x)] *)
Definition contains (x : Z) (l : list Z) : bool := bool_decide (x ∈ l).

(** [v.remove(i)]: the element and the vector without it; panics out of range. *)
Definition vec_remove (l : list Z) (i : nat) : result (Z * list Z) :=
  match l !! i with
  | Some x => Ok (x, delete i l)
  | None => Panic "removal index should be < len"
  end.

Lemma elem_of_retain_ne x y l : x ∈ retain_ne y l <-> x <> y /\ x ∈ l.
Proof. unfold retain_ne. by rewrite list_elem_of_filter. Qed.

Lemma contains_spec x l : contains x l = true <-> x ∈ l.
Proof. unfold contains. apply bool_decide_eq_true. Qed.

Lemma contains_false x l : contains x l = false <-> x ∉ l.
Proof. unfold contains. apply bool_decide_eq_false. Qed.

Lemma vec_remove_Ok l i x l' :
  vec_remove l i = Ok (x, l') -> l !! i = Some x /\ l' = delete i l.
Proof. unfold vec_remove. case_match; naive_solver. Qed.

Lemma vec_remove_lt l i : (i < length l)%nat -> exists x, l !! i = Some x /\ vec_remove l i = Ok (x, delete i l).
Proof.
  intros [x Hx]%lookup_lt_is_Some_2. exists x. unfold vec_remove. by rewrite Hx.
Qed.

(** * Proof automation *)

(** Split every conjunction and existential of the context. *)
Ltac destruct_all :=
  repeat match goal with
  | H : _ /\ _ |- _ => destruct H
  | H : exists _, _ |- _ => destruct H
  end.

(** Invert a successful [result] computation. *)
Ltac invert_ok :=
  repeat match goal with
  | H : Ok _ = Ok _ |- _ => injection H as H; subst
  | H : Panic _ = Ok _ |- _ => discriminate H
  | H : Ok _ = Panic _ |- _ => discriminate H
  | H : rbind _ _ = Ok _ |- _ => apply rbind_Ok in H; destruct H as (? & ? & H)
  | H : expect _ _ = Ok _ |- _ => apply expect_Ok in H
  end.

Create HintDb rsched discriminated.
#[export] Hint Resolve wrap64_range wrap32_range : rsched.
