(* ===== verification/Event.v ===== *)
(** Events: what a thread is about to execute at a scheduling point
    ([src/rsched/src/event.rs]).  Addresses are [Z]. *)
From S2P Require Import Prelude.

Inductive AccessKind : Set :=
| Read
| Write
| ReadWrite.

Inductive EventKind : Set :=
| MemOp (mem_addr : Z) (size : Z) (access : AccessKind)
| SchedYield
| ThreadCreate
| LockAcq (lock : Z)
| LockRel (lock : Z).

Record Event : Set := mkEvent {
  instr_addr : Z;
  kind : EventKind
}.

#[export] Instance AccessKind_eq_dec : EqDecision AccessKind.
Proof. solve_decision. Defined.
#[export] Instance EventKind_eq_dec : EqDecision EventKind.
Proof. solve_decision. Defined.
#[export] Instance Event_eq_dec : EqDecision Event.
Proof. solve_decision. Defined.
