(* ===== verification/Scheduler.v ===== *)
(** The scheduling algorithms ([src/rsched/src/scheduler.rs]): the [Scheduler]
    trait as a class with its laws, the xorshift64 generator, [RandomWalk] and
    the [LoggingScheduler] wrapper, and the trait object the state holds. *)
From S2P Require Import Prelude Event.

(** * The trait

    [choose] may panic in principle (it indexes a slice); [on_event] returns the
    lines it prints to stderr. *)
Class Scheduler (S : Type) := {
  choose : S -> list bool -> result (option nat * S);
  on_event : S -> option Event -> S * list string
}.

(** What the trait's doc comment promises to the runtime: the index returned is
    that of a thread that is not blocking, and [None] means that every thread is
    blocked. *)
Class SchedulerLaws (S : Type) `{Scheduler S} : Prop := {
  choose_total s bl : exists o s', choose s bl = Ok (o, s');
  choose_sound s bl i s' : choose s bl = Ok (Some i, s') -> bl !! i = Some false;
  choose_complete s bl s' : choose s bl = Ok (None, s') -> Forall (eq true) bl
}.

(** * PRNG (xorshift64) *)
Module Rng.

Record t : Set := mk { state : Z }.

Definition new (seed : Z) : t := mk (if seed =? 0 then 1 else seed).

Definition shl_xor (k x : Z) : Z := Z.lxor x (wrap64 (Z.shiftl x k)).
Definition shr_xor (k x : Z) : Z := Z.lxor x (Z.shiftr x k).

(** The new state; [next] also returns it. *)
Definition step (x : Z) : Z := shl_xor 17 (shr_xor 7 (shl_xor 13 x)).

Definition next (r : t) : Z * t := let x := step (state r) in (x, mk x).

(** [(self.next() as usize) % n]; [usize] is 64 bits wide. *)
Definition usize_less_than (r : t) (n : nat) : result (nat * t) :=
  let (x, r') := next r in
  if (n =? 0)%nat
  then Panic "attempt to calculate the remainder with a divisor of zero"
  else Ok (Z.to_nat (x mod Z.of_nat n), r').

Lemma shl_xor_range k x : 0 <= k -> in_u64 x -> in_u64 (shl_xor k x).
Proof. intros. apply lxor_range; [lia|done|apply wrap64_range]. Qed.

Lemma shr_xor_range k x : 0 <= k -> in_u64 x -> in_u64 (shr_xor k x).
Proof.
  intros Hk [H0 H1]. apply lxor_range; [lia|done|].
  rewrite Z.shiftr_div_pow2 by done. split; [apply Z.div_pos; lia|].
  assert (0 < 2 ^ k) by lia. apply Z.div_lt_upper_bound; [done|].
  eapply Z.lt_le_trans; [exact H1|]. change (2 ^ 64) with u64_mod.
  assert (0 <= u64_mod) by done. nia.
Qed.

Lemma step_range x : in_u64 x -> in_u64 (step x).
Proof.
  intros. unfold step. apply shl_xor_range; [lia|]. apply shr_xor_range; [lia|].
  by apply shl_xor_range.
Qed.

Lemma shl_xor_bit k x i :
  0 <= k -> 0 <= i < 64 ->
  Z.testbit (shl_xor k x) i = xorb (Z.testbit x i) (if i <? k then false else Z.testbit x (i - k)).
Proof.
  intros Hk Hi. unfold shl_xor, wrap64, u64_mod.
  rewrite Z.lxor_spec, Z.mod_pow2_bits_low, Z.shiftl_spec by lia. f_equal.
  destruct (Z.ltb_spec i k); [|done]. by rewrite Z.testbit_neg_r by lia.
Qed.

Lemma shr_xor_bit k x i :
  0 <= i -> Z.testbit (shr_xor k x) i = xorb (Z.testbit x i) (Z.testbit x (i + k)).
Proof. intros Hi. unfold shr_xor. by rewrite Z.lxor_spec, Z.shiftr_spec. Qed.

(** A left xorshift is injective: bit [i] is recovered from bits below it. *)
Lemma shl_xor_inj k x y :
  0 < k -> in_u64 x -> in_u64 y -> shl_xor k x = shl_xor k y -> x = y.
Proof.
  intros Hk Hx Hy E. apply (bits_inj_below _ _ 64); [lia|done|done|].
  intros i Hi. induction i as [i IH] using (well_founded_induction (Z.lt_wf 0)).
  assert (Hb := f_equal (fun z => Z.testbit z i) E). cbv beta in Hb.
  rewrite !shl_xor_bit in Hb by lia. destruct (Z.ltb_spec i k).
  - by rewrite !xorb_false_r in Hb.
  - rewrite (IH (i - k)) in Hb by lia.
    destruct (Z.testbit x i), (Z.testbit y i), (Z.testbit y (i - k)); done.
Qed.

(** A right xorshift is injective: bit [i] is recovered from bits above it. *)
Lemma shr_xor_inj k x y :
  0 < k -> in_u64 x -> in_u64 y -> shr_xor k x = shr_xor k y -> x = y.
Proof.
  intros Hk Hx Hy E.
  assert (HB : forall j i, 0 <= j -> i = 64 - j -> 0 <= i -> Z.testbit x i = Z.testbit y i).
  { intros j. induction j as [j IH] using (well_founded_induction (Z.lt_wf 0)).
    intros i Hj -> Hi.
    assert (Hb := f_equal (fun z => Z.testbit z (64 - j)) E). cbv beta in Hb.
    rewrite !shr_xor_bit in Hb by lia.
    assert (Z.testbit x (64 - j + k) = Z.testbit y (64 - j + k)) as Hs.
    { destruct (Z.le_gt_cases 64 (64 - j + k)).
      - by rewrite !(testbit_above _ 64) by (lia || done).
      - apply (IH (j - k)); lia. }
    rewrite Hs in Hb.
    destruct (Z.testbit x (64 - j)), (Z.testbit y (64 - j)), (Z.testbit y (64 - j + k)); done. }
  apply (bits_inj_below _ _ 64); [lia|done|done|].
  intros i Hi. apply (HB (64 - i)); lia.
Qed.

Lemma step_inj x y : in_u64 x -> in_u64 y -> step x = step y -> x = y.
Proof.
  intros Hx Hy E. unfold step in E.
  assert (R13 : forall z, in_u64 z -> in_u64 (shl_xor 13 z))
    by (intros; apply shl_xor_range; [lia|assumption]).
  assert (R7 : forall z, in_u64 z -> in_u64 (shr_xor 7 z))
    by (intros; apply shr_xor_range; [lia|assumption]).
  apply (shl_xor_inj 17) in E; [|lia|auto|auto].
  apply (shr_xor_inj 7) in E; [|lia|auto|auto].
  apply (shl_xor_inj 13) in E; [assumption|lia|assumption|assumption].
Qed.

(** C23. The generator never degenerates: from any non-zero 64-bit state,
    [next] yields a non-zero 64-bit state, and distinct states stay distinct
    (the update is injective on the 64-bit words and maps only 0 to 0), which
    is why [new] maps the seed 0 to 1. *)
Theorem next_nonzero_injective (r1 r2 : t) :
  in_u64 (state r1) -> in_u64 (state r2) -> state r1 <> 0 ->
  let '(x1, r1') := next r1 in
  let '(x2, r2') := next r2 in
  in_u64 x1 /\ x1 <> 0 /\ state r1' = x1 /\ (x1 = x2 -> state r1 = state r2) /\
  state (new 0) <> 0.
Proof.
  intros H1 H2 N. unfold next. simpl.
  split; [by apply step_range|]. split; [|split; [done|split]].
  - intros E. apply N. apply step_inj; [done|done|]. by rewrite E.
  - by apply step_inj.
  - done.
Qed.

Lemma next_nonzero_injective_witness :
  let '(x1, r1') := next (new 42) in
  let '(x2, r2') := next (new 7) in
  in_u64 x1 /\ x1 <> 0 /\ state r1' = x1 /\ (x1 = x2 -> state (new 42) = state (new 7)) /\
  state (new 0) <> 0.
Proof.
  apply (next_nonzero_injective (new 42) (new 7)); vm_compute; intuition discriminate.
Defined.

End Rng.

(** * Random-walk scheduler *)
Module RandomWalk.

Record t : Set := mk { rng : Rng.t }.

Definition new (seed : Z) : t := mk (Rng.new seed).

(** [is_blocking[i]] *)
Definition index (bl : list bool) (i : nat) : result bool :=
  expect (bl !! i) "index out of bounds".

(** [for i in rest { let idx = (start + i) % n; if !is_blocking[idx] { return Some(idx) } } None] *)
Fixpoint scan (bl : list bool) (start : nat) (rest : list nat) : result (option nat) :=
  match rest with
  | [] => Ok None
  | i :: rest' =>
      let idx := ((start + i) mod length bl)%nat in
      let? b := index bl idx in
      if negb b then Ok (Some idx) else scan bl start rest'
  end.

Definition choose (s : t) (bl : list bool) : result (option nat * t) :=
  let n := length bl in
  if (n =? 0)%nat then Ok (None, s)
  else
    let? (start, rng') := Rng.usize_less_than (rng s) n in
    let s' := mk rng' in
    let? b := index bl start in
    if negb b then Ok (Some start, s')
    else let? o := scan bl start (seq 1 (n - 1)) in Ok (o, s').

(** The algorithm, stated without the generator: the first index of the cyclic
    order [start, start + 1, ...] that is not blocking. *)
Definition pick (bl : list bool) (start : nat) : option nat :=
  snd <$> list_find (fun idx => bl !! idx = Some false)
    ((fun i => (start + i) mod length bl)%nat <$> seq 0 (length bl)).

Definition start_of (s : t) (n : nat) : nat := Z.to_nat (fst (Rng.next (rng s)) mod Z.of_nat n).

Lemma start_of_lt s n : (0 < n)%nat -> (start_of s n < n)%nat.
Proof.
  intros Hn. unfold start_of.
  pose proof (Z.mod_pos_bound (fst (Rng.next (rng s))) (Z.of_nat n)). lia.
Qed.

Lemma mod_lookup (bl : list bool) i :
  (0 < length bl)%nat -> exists b, bl !! (i mod length bl)%nat = Some b.
Proof. intros H. apply lookup_lt_is_Some_2. apply Nat.mod_upper_bound. lia. Qed.

Lemma scan_find bl start rest :
  (0 < length bl)%nat ->
  scan bl start rest =
  Ok (snd <$> list_find (fun idx => bl !! idx = Some false)
               ((fun i => (start + i) mod length bl)%nat <$> rest)).
Proof.
  intros Hn. induction rest as [|i rest IH]; [done|]. cbn [scan fmap list_fmap list_find].
  destruct (mod_lookup bl (start + i) Hn) as [b Hb]. unfold index. rewrite Hb. simpl.
  destruct b; simpl.
  - rewrite IH. by destruct (list_find _ _) as [[]|].
  - done.
Qed.

Lemma choose_pick (s : t) (bl : list bool) :
  choose s bl =
  Ok (pick bl (start_of s (length bl)),
      if (length bl =? 0)%nat then s else mk (snd (Rng.next (rng s)))).
Proof.
  unfold choose. destruct (Nat.eqb_spec (length bl) 0) as [H0|Hn].
  - unfold pick. by rewrite H0.
  - assert (Hn' : (0 < length bl)%nat) by lia.
    unfold Rng.usize_less_than. simpl. destruct (Nat.eqb_spec (length bl) 0) as [|_]; [lia|].
    simpl. unfold pick, start_of. simpl fst.
    set (start := Z.to_nat (Rng.step (Rng.state (rng s)) mod Z.of_nat (length bl))).
    assert (Hs : (start < length bl)%nat) by exact (start_of_lt s _ Hn').
    replace (seq 0 (length bl)) with (0%nat :: seq 1 (length bl - 1)).
    2: { destruct (length bl); [lia|]. simpl. by rewrite Nat.sub_0_r. }
    cbn [fmap list_fmap list_find]. rewrite Nat.add_0_r, Nat.mod_small by done.
    unfold index. destruct (lookup_lt_is_Some_2 bl start Hs) as [b Hb]. rewrite Hb. simpl.
    destruct b; simpl; [|done].
    rewrite scan_find by done. simpl. by destruct (list_find _ _) as [[]|].
Qed.

Lemma pick_spec bl start idx :
  pick bl start = Some idx <->
  exists d, (d < length bl)%nat /\ idx = ((start + d) mod length bl)%nat /\
    bl !! idx = Some false /\
    forall j, (j < d)%nat -> bl !! ((start + j) mod length bl)%nat = Some true.
Proof.
  unfold pick. rewrite fmap_Some. split.
  - intros ([d x] & (Hl & Hx & Hbefore)%list_find_Some & ->). simpl in *.
    rewrite list_lookup_fmap in Hl. apply fmap_Some in Hl as (i & Hi & ->).
    apply lookup_seq in Hi as [-> Hd]. exists d. split; [done|]. split; [done|].
    split; [done|]. intros j Hj.
    assert (bl !! ((start + j) mod length bl)%nat <> Some false) as N.
    { apply (Hbefore j); [|done]. rewrite list_lookup_fmap, lookup_seq_lt by lia. done. }
    destruct (mod_lookup bl (start + j)) as [[] Hb]; [lia|done|done].
  - intros (d & Hd & -> & Hx & Hbefore). exists (d, ((start + d) mod length bl)%nat).
    split; [|done]. apply list_find_Some. split; [|split; [done|]].
    + rewrite list_lookup_fmap, lookup_seq_lt by done. done.
    + intros j y Hj Hlt. rewrite list_lookup_fmap, lookup_seq_lt in Hj by lia.
      simplify_eq/=. rewrite Hbefore by done. done.
Qed.

Lemma pick_None bl start :
  (start < length bl)%nat -> pick bl start = None -> Forall (eq true) bl.
Proof.
  intros Hs H. unfold pick in H. apply fmap_None in H.
  apply list_find_None in H. apply Forall_lookup_2. intros i x Hi.
  assert (Hlt := lookup_lt_Some _ _ _ Hi).
  rewrite Forall_fmap, Forall_forall in H.
  set (d := ((length bl + i - start) mod length bl)%nat).
  assert (Hd : d ∈ seq 0 (length bl)).
  { apply elem_of_seq. split; [lia|]. apply Nat.mod_upper_bound. lia. }
  specialize (H d Hd). simpl in H.
  assert (E : ((start + d) mod length bl = i)%nat).
  { unfold d. rewrite Nat.Div0.add_mod_idemp_r.
    replace (start + (length bl + i - start))%nat with (i + 1 * length bl)%nat by lia.
    rewrite Nat.Div0.mod_add, Nat.mod_small; lia. }
  rewrite E, Hi in H. destruct x; [done|]. by destruct H.
Qed.

#[global] Instance scheduler : Scheduler t := {
  choose := choose;
  on_event s _ := (s, [])
}.

#[global] Instance laws : SchedulerLaws t.
Proof.
  split.
  - intros s bl. simpl. rewrite choose_pick. eauto.
  - intros s bl i s'. simpl. rewrite choose_pick. intros [= Hp _].
    apply pick_spec in Hp as (d & _ & _ & Hi & _). done.
  - intros s bl s'. simpl. rewrite choose_pick. intros [= Hp _].
    destruct bl as [|b bl]; [constructor|]. eapply pick_None; [|exact Hp].
    apply start_of_lt. simpl. lia.
Qed.

(** C14. [RandomWalk::choose] is total (no index is ever out of bounds and the
    remainder never divides by zero) and returns exactly the first non-blocking
    index in the cyclic order that begins at the random start; it returns
    [None] only when every thread is blocking, and always when that is so. *)
Theorem choose_spec (s : t) (bl : list bool) :
  exists o s', choose s bl = Ok (o, s') /\
    match o with
    | Some idx =>
        exists d, (d < length bl)%nat /\
          idx = ((start_of s (length bl) + d) mod length bl)%nat /\
          bl !! idx = Some false /\
          forall j, (j < d)%nat ->
            bl !! ((start_of s (length bl) + j) mod length bl)%nat = Some true
    | None => Forall (eq true) bl
    end /\
    (Forall (eq true) bl -> o = None).
Proof.
  rewrite choose_pick. do 2 eexists. split; [done|]. split.
  - destruct (pick _ _) as [idx|] eqn:E; [by apply pick_spec|].
    destruct bl as [|b bl]; [constructor|]. eapply pick_None; [|exact E].
    apply start_of_lt. simpl. lia.
  - intros Hall. destruct (pick _ _) as [idx|] eqn:E; [|done].
    apply pick_spec in E as (d & _ & _ & Hi & _).
    rewrite Forall_lookup in Hall. by specialize (Hall _ _ Hi).
Qed.

(** * How uniform is the choice?

    The start is drawn uniformly from the indices, so the probability that a
    thread is chosen is proportional to the number of starts that lead to it. *)

(** The index [d] places before [idx] in the cyclic order. *)
Definition before (bl : list bool) (idx d : nat) : nat := ((idx + (length bl - d)) mod length bl)%nat.

(** The number of consecutive blocking threads just before [idx]. *)
Fixpoint blocked_run (bl : list bool) (idx d fuel : nat) : nat :=
  match fuel with
  | O => O
  | S fuel' =>
      if decide (bl !! before bl idx d = Some true)
      then S (blocked_run bl idx (S d) fuel') else O
  end.

Lemma blocked_run_spec bl idx fuel d k :
  (k <= blocked_run bl idx d fuel)%nat <->
  (k <= fuel)%nat /\ forall i, (i < k)%nat -> bl !! before bl idx (d + i) = Some true.
Proof.
  revert d k. induction fuel as [|fuel IH]; intros d k; simpl.
  - split; [intros; split; [lia|lia]|lia].
  - case_decide as Hd.
    + destruct k as [|k]; [split; intros; [split; lia|lia]|].
      rewrite <- Nat.succ_le_mono, IH, <- Nat.succ_le_mono.
      split; intros [Hk H]; (split; [done|]); intros i Hi.
      * destruct i as [|i]; [by rewrite Nat.add_0_r|].
        replace (d + S i)%nat with (S d + i)%nat by lia. apply H. lia.
      * replace (S d + i)%nat with (d + S i)%nat by lia. apply H. lia.
    + split; [intros; split; lia|]. intros [_ H].
      destruct k as [|k]; [lia|]. exfalso. apply Hd.
      specialize (H 0%nat). rewrite Nat.add_0_r in H. apply H. lia.
Qed.

Lemma before_lt bl idx d : (0 < length bl)%nat -> (before bl idx d < length bl)%nat.
Proof. intros. apply Nat.mod_upper_bound. lia. Qed.

Lemma before_case bl idx d :
  (idx < length bl)%nat -> (d < length bl)%nat ->
  before bl idx d = if (d <=? idx)%nat then (idx - d)%nat else (idx + length bl - d)%nat.
Proof.
  intros Hi Hd. unfold before. destruct (Nat.leb_spec d idx).
  - replace (idx + (length bl - d))%nat with (idx - d + 1 * length bl)%nat by lia.
    rewrite Nat.Div0.mod_add. apply Nat.mod_small. lia.
  - rewrite Nat.mod_small; lia.
Qed.

(** Walking forward [j <= d] places from [d] places before [idx]. *)
Lemma before_forward bl idx d j :
  (idx < length bl)%nat -> (d < length bl)%nat -> (j <= d)%nat ->
  ((before bl idx d + j) mod length bl)%nat = before bl idx (d - j).
Proof.
  intros Hi Hd Hj. unfold before. rewrite Nat.Div0.add_mod_idemp_l.
  f_equal. lia.
Qed.

Lemma pick_before bl idx d :
  bl !! idx = Some false -> (d < length bl)%nat ->
  pick bl (before bl idx d) = Some idx <->
  (d <= blocked_run bl idx 1 (length bl - 1))%nat.
Proof.
  intros Hidx Hd. assert (Hlt := lookup_lt_Some _ _ _ Hidx).
  assert (B0 : before bl idx 0 = idx).
  { rewrite before_case by lia. simpl. lia. }
  rewrite pick_spec, blocked_run_spec. split.
  - intros (d' & Hd' & E & _ & Hb).
    assert (d <= d')%nat as Hle.
    { destruct (Nat.le_gt_cases d d') as [|Hgt]; [done|]. exfalso.
      rewrite before_forward in E by lia.
      rewrite before_case in E by lia.
      destruct (Nat.leb_spec (d - d') idx); lia. }
    split; [lia|]. intros i Hi. specialize (Hb (d - S i)%nat).
    rewrite before_forward in Hb by lia.
    replace (d - (d - S i))%nat with (1 + i)%nat in Hb by lia. apply Hb. lia.
  - intros [_ Hb]. exists d. split; [done|]. rewrite before_forward by lia.
    rewrite Nat.sub_diag, B0. split; [done|]. split; [done|]. intros j Hj.
    rewrite before_forward by lia.
    replace (d - j)%nat with (1 + (d - j - 1))%nat by lia. apply Hb. lia.
Qed.

(** The index itself and those of the run of blocking threads just before it. *)
Definition favouring_starts (bl : list bool) (idx : nat) : list nat :=
  before bl idx <$> seq 0 (S (blocked_run bl idx 1 (length bl - 1))).

Lemma pick_favoured bl idx start :
  bl !! idx = Some false -> (start < length bl)%nat ->
  pick bl start = Some idx <-> start ∈ favouring_starts bl idx.
Proof.
  intros Hidx Hs. assert (Hlt := lookup_lt_Some _ _ _ Hidx).
  assert (Hrun : (blocked_run bl idx 1 (length bl - 1) <= length bl - 1)%nat).
  { by apply (blocked_run_spec bl idx (length bl - 1) 1). }
  unfold favouring_starts. rewrite list_elem_of_fmap. split.
  - intros Hp. assert (exists d, (d < length bl)%nat /\ start = before bl idx d) as (d & Hd & ->).
    { exists (if (start <=? idx)%nat then (idx - start)%nat else (idx + length bl - start)%nat).
      destruct (Nat.leb_spec start idx); (split; [lia|]); rewrite before_case by lia;
        case_match eqn:Hc; (apply Nat.leb_le in Hc || apply Nat.leb_gt in Hc); lia. }
    exists d. split; [done|]. apply elem_of_seq. apply pick_before in Hp; [|done|done]. lia.
  - intros (d & -> & [_ Hd]%elem_of_seq). apply pick_before; [done|lia|lia].
Qed.

(** C24. The choice is not uniform among the non-blocking threads.  Whatever the others
    do, a non-blocking index is chosen exactly when the start drawn from the generator
    is the index itself or that of a thread of the run of blocking threads just before
    it in the cyclic order; these starts are pairwise different, one more than the run
    is long.  A thread that follows a run of blocked ones is favoured in proportion to
    the run. *)
Theorem selection_weight (bl : list bool) (idx : nat) :
  bl !! idx = Some false ->
  NoDup (favouring_starts bl idx) /\
  length (favouring_starts bl idx) = S (blocked_run bl idx 1 (length bl - 1)) /\
  forall s start rng', Rng.usize_less_than (rng s) (length bl) = Ok (start, rng') ->
    (exists s', choose s bl = Ok (Some idx, s')) <-> start ∈ favouring_starts bl idx.
Proof.
  intros Hidx. assert (Hlt := lookup_lt_Some _ _ _ Hidx).
  assert (Hrun : (blocked_run bl idx 1 (length bl - 1) <= length bl - 1)%nat).
  { by apply (blocked_run_spec bl idx (length bl - 1) 1). }
  split; [|split].
  - apply NoDup_fmap_2_strong; [|apply NoDup_seq]. intros x y [_ Hx]%elem_of_seq [_ Hy]%elem_of_seq.
    rewrite !before_case by lia. destruct (Nat.leb_spec x idx), (Nat.leb_spec y idx); lia.
  - unfold favouring_starts. by rewrite length_fmap, length_seq.
  - intros s start rng' E.
    assert (Hstart : start = start_of s (length bl)).
    { unfold Rng.usize_less_than in E. destruct (Rng.next (rng s)) as [x r'] eqn:En.
      destruct (Nat.eqb_spec (length bl) 0); [lia|]. injection E as <- _. unfold start_of. by rewrite En. }
    rewrite choose_pick, Hstart, <- pick_favoured by (try done; apply start_of_lt; lia).
    split; [by intros (s' & [= H _])|]. intros ->. by eexists.
Qed.

Lemma selection_weight_witness :
  length (favouring_starts [true; true; false; false] 2) = 3%nat /\
  favouring_starts [true; true; false; false] 2 = [2; 1; 0]%nat.
Proof.
  destruct (selection_weight [true; true; false; false] 2 eq_refl) as (_ & H & _).
  split; [exact H|reflexivity].
Defined.
End RandomWalk.

(** * Logging scheduler *)

(** [{:x}] of an unsigned integer of at most 64 bits: 16 digits are enough. *)
Module Hex.
Definition digit (d : Z) : Ascii.ascii :=
  Ascii.ascii_of_N (Z.to_N (if d <? 10 then 48 + d else 87 + d)).

Fixpoint go (fuel : nat) (n : Z) (acc : string) : string :=
  let acc' := String (digit (n mod 16)) acc in
  match fuel with
  | O => acc'
  | S fuel' => if n / 16 =? 0 then acc' else go fuel' (n / 16) acc'
  end.

Definition show (n : Z) : string := go 15 n EmptyString.

(** The reader of such a string, for the round trip. *)
Definition value (c : Ascii.ascii) : Z :=
  let n := Z.of_N (Ascii.N_of_ascii c) in if n <? 58 then n - 48 else n - 87.

Fixpoint read (s : string) (acc : Z) : Z :=
  match s with
  | EmptyString => acc
  | String c s' => read s' (acc * 16 + value c)
  end.

Lemma value_digit d : 0 <= d < 16 -> value (digit d) = d.
Proof.
  intros Hd.
  assert (d = 0 \/ d = 1 \/ d = 2 \/ d = 3 \/ d = 4 \/ d = 5 \/ d = 6 \/ d = 7 \/ d = 8 \/
          d = 9 \/ d = 10 \/ d = 11 \/ d = 12 \/ d = 13 \/ d = 14 \/ d = 15) as C by lia.
  repeat destruct C as [-> | C]; try reflexivity. by subst.
Qed.

Lemma read_go fuel n acc :
  0 <= n < 16 ^ (Z.of_nat fuel + 1) ->
  read (go fuel n acc) 0 = read acc n.
Proof.
  intros Hn. revert n acc Hn.
  induction fuel as [|fuel IH]; intros n acc Hn; cbn [go].
  - simpl in Hn. cbn [read]. rewrite value_digit by (apply Z.mod_pos_bound; lia).
    rewrite Z.mod_small by lia. f_equal.
  - assert (E : forall m, read (String (digit (n mod 16)) acc) m = read acc (m * 16 + n mod 16)).
    { intros m. cbn [read]. by rewrite value_digit by (apply Z.mod_pos_bound; lia). }
    destruct (Z.eqb_spec (n / 16) 0) as [Z0|_].
    + rewrite E. f_equal. rewrite (Z.div_mod n 16) at 2 by lia. lia.
    + rewrite IH.
      * rewrite E. f_equal. rewrite (Z.div_mod n 16) at 3 by lia. lia.
      * rewrite Nat2Z.inj_succ in Hn. split; [apply Z.div_pos; lia|].
        apply Z.div_lt_upper_bound; [lia|].
        replace (Z.succ (Z.of_nat fuel) + 1) with (Z.succ (Z.of_nat fuel + 1)) in Hn by lia.
        rewrite Z.pow_succ_r in Hn by lia. lia.
Qed.

Lemma read_show n : in_u64 n -> read (show n) 0 = n.
Proof. intros [H0 H1]. unfold show. apply (read_go 15 n EmptyString). split; [done|]. exact H1. Qed.
End Hex.

Module LoggingScheduler.

Record t (S : Type) : Type := mk { inner : S }.
Arguments mk {S} inner.
Arguments inner {S} _.

Definition new {S} (inner : S) : t S := mk inner.

Definition access_letter (a : AccessKind) : string :=
  match a with Read => "R" | Write => "W" | ReadWrite => "RW" end.

(** The line printed for an event. *)
Definition line (ev : Event) : string :=
  let at_ := (" @ 0x" +:+ Hex.show (instr_addr ev))%string in
  match kind ev with
  | ThreadCreate => "[rsched] ThreadCreate" +:+ at_
  | LockAcq lock => "[rsched] LockAcq(lock=0x" +:+ Hex.show lock +:+ ")" +:+ at_
  | LockRel lock => "[rsched] LockRel(lock=0x" +:+ Hex.show lock +:+ ")" +:+ at_
  | SchedYield => "[rsched] SchedYield" +:+ at_
  | MemOp mem_addr size access =>
      "[rsched] MemOp(" +:+ access_letter access +:+ ", mem=0x" +:+ Hex.show mem_addr +:+
      ", size=" +:+ pretty (Z.to_N size) +:+ ")" +:+ at_
  end.

Section Wrapper.
Context {S : Type} `{Scheduler S}.

Definition choose (s : t S) (bl : list bool) : result (option nat * t S) :=
  let? (o, i) := Scheduler.choose (inner s) bl in Ok (o, mk i).

Definition on_event (s : t S) (event : option Event) : t S * list string :=
  let printed := match event with Some ev => [line ev] | None => [] end in
  let (i, out) := Scheduler.on_event (inner s) event in
  (mk i, printed ++ out).

#[global] Instance scheduler : Scheduler (t S) := {
  choose := choose;
  on_event := on_event
}.

#[global] Instance laws `{!SchedulerLaws S} : SchedulerLaws (t S).
Proof.
  split; intros s bl; simpl; unfold choose.
  - destruct (choose_total (inner s) bl) as (o & s' & ->). simpl. eauto.
  - intros i s' Hc. apply rbind_Ok in Hc as ([o i'] & E & Hc). simplify_eq.
    by apply choose_sound in E.
  - intros s' Hc. apply rbind_Ok in Hc as ([o i'] & E & Hc). simplify_eq.
    by apply choose_complete in E.
Qed.
End Wrapper.
End LoggingScheduler.

(** * Running a scheduler on a script of calls *)
Inductive SchedulerCall : Type :=
| Choose (is_blocking : list bool)
| OnEvent (event : option Event).

Section Script.
Context {S : Type} `{Scheduler S}.

(** The decisions taken, in order. *)
Fixpoint decisions (s : S) (script : list SchedulerCall) : result (list (option nat)) :=
  match script with
  | [] => Ok []
  | Choose bl :: rest =>
      let? (o, s') := choose s bl in let? os := decisions s' rest in Ok (o :: os)
  | OnEvent ev :: rest => decisions (fst (on_event s ev)) rest
  end.

Fixpoint printed (s : S) (script : list SchedulerCall) : result (list string) :=
  match script with
  | [] => Ok []
  | Choose bl :: rest => let? (_, s') := choose s bl in printed s' rest
  | OnEvent ev :: rest =>
      let (s', out) := on_event s ev in let? outs := printed s' rest in Ok (out ++ outs)
  end.
End Script.

(** C22. Logging is transparent: on every script of [choose] and [on_event] calls
    the wrapped scheduler takes exactly the decisions (or the panic) of the inner
    one, so [RSCHED_LOG=1] never changes the schedule of a seed. *)
Theorem logging_transparent {S : Type} `{Scheduler S} (script : list SchedulerCall) (s : S) :
  decisions (LoggingScheduler.new s) script = decisions s script.
Proof.
  unfold LoggingScheduler.new. revert s.
  induction script as [|[bl|ev] script IH]; intros s; [done| |]; simpl.
  - unfold LoggingScheduler.choose. simpl. destruct (choose s bl) as [[o s']|e]; simpl; [|done].
    by rewrite IH.
  - unfold LoggingScheduler.on_event. simpl. destruct (on_event s ev) as [s' out]. simpl. apply IH.
Qed.

(** What a logged random walk prints for a script: one line per event. *)
Fixpoint event_lines (script : list SchedulerCall) : list string :=
  match script with
  | [] => []
  | OnEvent (Some ev) :: rest => LoggingScheduler.line ev :: event_lines rest
  | _ :: rest => event_lines rest
  end.

Lemma logging_prints (script : list SchedulerCall) (s : RandomWalk.t) :
  printed (LoggingScheduler.new s) script = Ok (event_lines script).
Proof.
  unfold LoggingScheduler.new. revert s.
  induction script as [|[bl|[ev|]] script IH]; intros s; [done| | |]; simpl.
  - unfold LoggingScheduler.choose. simpl. destruct (choose_total s bl) as (o & s' & E).
    simpl in E. rewrite E. simpl. apply IH.
  - rewrite IH. done.
  - rewrite IH. done.
Qed.

(** * The trait object

    [State] holds a [Box<dyn Scheduler>], built by [State::new] from one of the
    two implementations. *)
Inductive BoxScheduler : Type :=
| BoxRandomWalk (s : RandomWalk.t)
| BoxLogging (s : LoggingScheduler.t RandomWalk.t).

Definition box_choose (b : BoxScheduler) (bl : list bool) : result (option nat * BoxScheduler) :=
  match b with
  | BoxRandomWalk s => let? (o, s') := choose s bl in Ok (o, BoxRandomWalk s')
  | BoxLogging s => let? (o, s') := choose s bl in Ok (o, BoxLogging s')
  end.

Definition box_on_event (b : BoxScheduler) (ev : option Event) : BoxScheduler * list string :=
  match b with
  | BoxRandomWalk s => let (s', out) := on_event s ev in (BoxRandomWalk s', out)
  | BoxLogging s => let (s', out) := on_event s ev in (BoxLogging s', out)
  end.

#[export] Instance box_scheduler : Scheduler BoxScheduler := {
  choose := box_choose;
  on_event := box_on_event
}.

#[export] Instance box_laws : SchedulerLaws BoxScheduler.
Proof.
  split; intros [s|s] bl; simpl.
  - destruct (choose_total s bl) as (o & s' & E). simpl in E. rewrite E. simpl. eauto.
  - destruct (choose_total s bl) as (o & s' & E). simpl in E. rewrite E. simpl. eauto.
  - intros i s' Hc. apply rbind_Ok in Hc as ([o i'] & E & Hc). simplify_eq.
    by eapply (choose_sound (S := RandomWalk.t)).
  - intros i s' Hc. apply rbind_Ok in Hc as ([o i'] & E & Hc). simplify_eq.
    by eapply (choose_sound (S := LoggingScheduler.t RandomWalk.t)).
  - intros s' Hc. apply rbind_Ok in Hc as ([o i'] & E & Hc). simplify_eq.
    by eapply (choose_complete (S := RandomWalk.t)).
  - intros s' Hc. apply rbind_Ok in Hc as ([o i'] & E & Hc). simplify_eq.
    by eapply (choose_complete (S := LoggingScheduler.t RandomWalk.t)).
Qed.
