(* ===== verification/Machine.v ===== *)
(** The monad of the runtime's code.

    Every entry point of the library runs on some OS thread, reads and writes
    shared state, and blocks at a few places: when it takes the global mutex,
    when it sleeps on a condition variable, when it joins an OS thread.  A
    program of type [prog A] is such a piece of code: [Act] is a step on the
    shared world that may panic, [Suspend b] gives the processor away until the
    blocker [b] lets the thread go on, and [Iter] is a loop.  Running a program
    ([eval]) goes to its result, to a panic, or to the next suspension, where it
    hands back the rest of the program.

    The unary logic [wp] states what holds at each suspension (a guarantee) and
    what the other threads may do meanwhile (a rely); [productive] programs reach
    the end of every segment. *)
From S2P Require Import Prelude.

Section Machine.
Context (W B : Type).

Inductive prog : Type -> Type :=
| Ret {A} (a : A) : prog A
| Bind {A A'} (m : prog A) (k : A -> prog A') : prog A'
| Act {A} (f : W -> result (A * W)) : prog A
| Suspend (b : B) : prog unit
| Iter {I A} (body : I -> prog (I + A)) (i : I) : prog A.

(** How a segment ends. *)
Inductive outcome (A : Type) : Type :=
| Done (a : A) (w : W)
| Blocked (w : W) (b : B) (rest : prog A)
| Panicked (msg : string)
| OutOfFuel.
Arguments Done {A} a w.
Arguments Blocked {A} w b rest.
Arguments Panicked {A} msg.
Arguments OutOfFuel {A}.

(** Run a program up to the end of its segment; the fuel bounds the depth of
    the evaluation. *)
Fixpoint eval (fuel : nat) {A} (p : prog A) {struct fuel} : W -> outcome A :=
  match fuel with
  | O => fun _ => OutOfFuel
  | S n =>
      match p in prog A return W -> outcome A with
      | Ret a => fun w => Done a w
      | Bind m k => fun w =>
          match eval n m w with
          | Done a w' => eval n (k a) w'
          | Blocked w' b rest => Blocked w' b (Bind rest k)
          | Panicked e => Panicked e
          | OutOfFuel => OutOfFuel
          end
      | Act f => fun w =>
          match f w with Ok (a, w') => Done a w' | Panic e => Panicked e end
      | Suspend b => fun w => Blocked w b (Ret tt)
      | Iter body i => fun w =>
          eval n (Bind (body i) (fun r => match r with inl i' => Iter body i' | inr a => Ret a end)) w
      end
  end.

(** More fuel never changes an outcome that was reached. *)
Lemma eval_mono n A (p : prog A) w :
  eval n p w <> OutOfFuel -> forall n', (n <= n')%nat -> eval n' p w = eval n p w.
Proof.
  revert A p w. induction n as [|n IH]; intros A p w; [done|].
  intros Hne [|n'] Hle; [lia|]. apply le_S_n in Hle.
  destruct p as [A a|A A' m k|A f|b|I A body i]; simpl in *; try done.
  - destruct (eval n m w) as [a w'|w' b rest|e|] eqn:E;
      rewrite (IH _ m w) by (rewrite ?E; done); rewrite E; try done. by apply IH.
  - by apply IH.
Qed.

(** * The logic

    Assertions relate the world [w0] at the start of the running segment to the
    current world [w].
    [G b w0 w]: the guarantee given when the program blocks on [b].
    [R b w w']: the rely, what the thread may find ([w']) when it resumes.
    [E]: the panics that are allowed. *)
Section Logic.
Context (G : B -> W -> W -> Prop) (R : B -> W -> W -> Prop) (E : string -> Prop).

Fixpoint wp {A} (p : prog A) {struct p} : (A -> W -> W -> Prop) -> W -> W -> Prop :=
  match p in prog A return (A -> W -> W -> Prop) -> W -> W -> Prop with
  | Ret a => fun Q w0 w => Q a w0 w
  | Bind m k => fun Q w0 w => wp m (fun a v0 v => wp (k a) Q v0 v) w0 w
  | Act f => fun Q w0 w =>
      match f w with Ok (a, w') => Q a w0 w' | Panic e => E e end
  | Suspend b => fun Q w0 w => G b w0 w /\ forall w', R b w w' -> Q tt w' w'
  | Iter body i => fun Q w0 w =>
      exists Inv : _ -> W -> W -> Prop, Inv i w0 w /\
        forall j v0 v, Inv j v0 v ->
          wp (body j)
            (fun r v0' v' => match r with inl j' => Inv j' v0' v' | inr a => Q a v0' v' end) v0 v
  end.

Lemma wp_mono A (p : prog A) (Q Q' : A -> W -> W -> Prop) w0 w :
  (forall a v0 v, Q a v0 v -> Q' a v0 v) -> wp p Q w0 w -> wp p Q' w0 w.
Proof.
  revert Q Q' w0 w. induction p as [A a|A A' m IHm k IHk|A f|b|I A body IHb i];
    intros Q Q' w0 w HQ; simpl.
  - auto.
  - apply IHm. intros a v0 v. by apply IHk.
  - destruct (f w) as [[a w']|e]; auto.
  - intros [HG HR]. split; auto.
  - intros (Inv & H0 & Hstep). exists Inv. split; [done|]. intros j v0 v Hj.
    eapply IHb; [|by apply Hstep]. intros [j'|a] v0' v'; auto.
Qed.

(** What [wp] promises of the outcome of a segment that began in [w0]. *)
Definition promised {A} (Q : A -> W -> W -> Prop) (w0 : W) (o : outcome A) : Prop :=
  match o with
  | Done a w => Q a w0 w
  | Blocked w b rest => G b w0 w /\ forall w', R b w w' -> wp rest Q w' w'
  | Panicked e => E e
  | OutOfFuel => True
  end.

Lemma wp_sound n A (p : prog A) (Q : A -> W -> W -> Prop) w0 w :
  wp p Q w0 w -> promised Q w0 (eval n p w).
Proof.
  revert A p Q w0 w. induction n as [|n IH]; intros A p Q w0 w H; [done|].
  destruct p as [A a|A A' m k|A f|b|I A body i]; simpl in *.
  - done.
  - pose proof (IH _ m _ w0 w H) as Pm.
    destruct (eval n m w) as [a w'|w' b rest|e|]; simpl in *; [by apply IH| |done|done].
    destruct Pm as [HG HR]. split; [done|]. intros v Hv. simpl. by apply HR.
  - by destruct (f w) as [[a w']|e].
  - destruct H as [HG HR]. split; [done|]. intros v Hv. simpl. by apply HR.
  - apply IH. simpl. destruct H as (Inv & H0 & Hstep). eapply wp_mono; [|by apply Hstep].
    intros [j|a] v0 v Hv; simpl; [|done]. exists Inv. auto.
Qed.

(** Hoare triples: the precondition [P], the postcondition [Q]. *)
Definition triple {A} (P : W -> W -> Prop) (p : prog A) (Q : A -> W -> W -> Prop) : Prop :=
  forall w0 w, P w0 w -> wp p Q w0 w.

Lemma triple_ret A (a : A) (Q : A -> W -> W -> Prop) : triple (Q a) (Ret a) Q.
Proof. by intros w0 w H. Qed.

Lemma triple_bind A A' (m : prog A) (k : A -> prog A') P M Q :
  triple P m M -> (forall a, triple (M a) (k a) Q) -> triple P (Bind m k) Q.
Proof. intros Hm Hk w0 w Hw. simpl. eapply wp_mono; [|by apply Hm]. intros a v0 v. apply Hk. Qed.

Lemma triple_assoc A B' C (m : prog A) (k : A -> prog B') (k' : B' -> prog C) P Q :
  triple P (Bind m (fun a => Bind (k a) k')) Q -> triple P (Bind (Bind m k) k') Q.
Proof. intros H. exact H. Qed.

Lemma triple_weaken A (p : prog A) (P P' : W -> W -> Prop) (Q Q' : A -> W -> W -> Prop) :
  (forall w0 w, P' w0 w -> P w0 w) -> (forall a w0 w, Q a w0 w -> Q' a w0 w) ->
  triple P p Q -> triple P' p Q'.
Proof. intros HP HQ H w0 w Hw. eapply wp_mono; [apply HQ|]. apply H, HP, Hw. Qed.

Lemma triple_pre A (p : prog A) (P P' : W -> W -> Prop) (Q : A -> W -> W -> Prop) :
  triple P p Q -> (forall w0 w, P' w0 w -> P w0 w) -> triple P' p Q.
Proof. intros H HP. by eapply triple_weaken. Qed.

Lemma triple_act A (f : W -> result (A * W)) (P : W -> W -> Prop) (Q : A -> W -> W -> Prop) :
  (forall e, E e) ->
  (forall w0 w a w', P w0 w -> f w = Ok (a, w') -> Q a w0 w') -> triple P (Act f) Q.
Proof. intros HE H w0 w Hw. simpl. destruct (f w) as [[a w']|e] eqn:Ef; eauto. Qed.

Lemma triple_iter I A (body : I -> prog (I + A)) i (Inv : I -> W -> W -> Prop) Q :
  (forall j, triple (Inv j) (body j)
     (fun r v0 v => match r with inl j' => Inv j' v0 v | inr a => Q a v0 v end)) ->
  triple (Inv i) (Iter body i) Q.
Proof. intros H w0 w Hw. exists Inv. split; [done|]. intros j v0 v Hj. by apply H. Qed.
End Logic.

(** * Equivalence

    Two programs are equivalent when they satisfy the same specifications, for
    every guarantee and rely. *)
Definition prog_eq {A} (p q : prog A) : Prop :=
  forall G R E (Q : A -> W -> W -> Prop) w0 w, wp G R E p Q w0 w <-> wp G R E q Q w0 w.

#[export] Instance prog_eq_equivalence A : Equivalence (@prog_eq A).
Proof.
  split; [by intros p G R E Q w0 w|by intros p q H G R E Q w0 w; rewrite (H G R E Q w0 w)|].
  intros p q r H1 H2 G R E Q w0 w. by rewrite (H1 G R E Q w0 w), (H2 G R E Q w0 w).
Qed.

#[export] Instance bind_proper A A' :
  Proper (prog_eq ==> pointwise_relation A prog_eq ==> prog_eq) (@Bind A A').
Proof.
  intros m m' Hm k k' Hk G R E Q w0 w. simpl. rewrite (Hm G R E _ w0 w).
  split; apply wp_mono; intros a v0 v; by apply Hk.
Qed.

Lemma bind_assoc A A' A'' (m : prog A) (k : A -> prog A') (k' : A' -> prog A'') :
  prog_eq (Bind (Bind m k) k') (Bind m (fun a => Bind (k a) k')).
Proof. by intros G R E Q w0 w. Qed.

Lemma ret_bind A A' (a : A) (k : A -> prog A') : prog_eq (Bind (Ret a) k) (k a).
Proof. by intros G R E Q w0 w. Qed.

(** A loop is its body followed by the rest of the loop. *)
Lemma iter_unfold I A (body : I -> prog (I + A)) i :
  prog_eq (Iter body i)
    (Bind (body i) (fun r => match r with inl j => Iter body j | inr a => Ret a end)).
Proof.
  assert (H : forall G R E Q j w0 w, wp G R E (Iter body j) Q w0 w ->
    wp G R E (body j) (fun r v0 v => wp G R E (match r with inl j' => Iter body j' | inr a => Ret a end) Q v0 v) w0 w).
  { intros G R E Q j w0 w (Inv & H0 & Hs). eapply wp_mono; [|by apply Hs].
    intros [j'|a] v0 v Hv; [by exists Inv|done]. }
  intros G R E Q w0 w. split; [apply H|]. intros Hw. simpl in Hw.
  exists (fun j v0 v => wp G R E (body j)
    (fun r u0 u => wp G R E (match r with inl j' => Iter body j' | inr a => Ret a end) Q u0 u) v0 v).
  split; [exact Hw|]. intros j v0 v Hj. eapply wp_mono; [|exact Hj].
  intros [j'|a] u0 u Hu; [by apply H|exact Hu].
Qed.

(** Programs that never give the processor away: their triples hold whatever is
    guaranteed and relied upon. *)
Fixpoint no_suspend {A} (p : prog A) : Prop :=
  match p with
  | Ret _ | Act _ => True
  | Suspend _ => False
  | Bind m k => no_suspend m /\ forall a, no_suspend (k a)
  | Iter body _ => forall i, no_suspend (body i)
  end.

Lemma wp_no_suspend G R G' R' E A (p : prog A) Q w0 w :
  no_suspend p -> wp G R E p Q w0 w -> wp G' R' E p Q w0 w.
Proof.
  revert Q w0 w. induction p as [A a|A A' m IHm k IHk|A f|b|I A body IHb i];
    intros Q w0 w Hn; simpl in *; try done.
  - destruct Hn as [Hm Hk]. intros H. apply IHm; [done|]. eapply wp_mono, H. auto.
  - intros (Inv & H0 & Hstep). exists Inv. eauto.
Qed.

Lemma triple_no_suspend G R G' R' E A (p : prog A) P Q :
  no_suspend p -> triple G R E P p Q -> triple G' R' E P p Q.
Proof. intros Hn H w0 w HP. by eapply wp_no_suspend, H. Qed.

(** Such a program stays in its segment. *)
Lemma triple_start G R E A (p : prog A) (X : W -> Prop) P Q :
  no_suspend p -> triple G R E P p Q ->
  triple G R E (fun w0 w => X w0 /\ P w0 w) p (fun a w0 w => X w0 /\ Q a w0 w).
Proof.
  intros Hn H w0 w [HX HP]. specialize (H w0 w HP). clear HP P.
  revert w0 w Q HX H. induction p as [A a|A A' m IHm k IHk|A f|b|I A body IHb i];
    intros w0 w Q HX H; simpl in *; try done.
  - destruct Hn as [Hm Hk]. eapply wp_mono, (IHm Hm _ _ _ HX H).
    intros a v0 v [Hv0 Hv]. by apply IHk.
  - by destruct (f w) as [[a w']|e].
  - destruct H as (Inv & H0 & Hstep). exists (fun j v0 v => X v0 /\ Inv j v0 v). split; [done|].
    intros j v0 v [HX' Hj]. eapply wp_mono, (IHb _ (Hn j) _ _ _ HX' (Hstep j v0 v Hj)).
    intros [j'|a] u0 u [??]; done.
Qed.

(** What every step of a program does to the world. *)
Fixpoint acts (I : W -> W -> Prop) {A} (p : prog A) : Prop :=
  match p with
  | Ret _ | Suspend _ => True
  | Act f => forall w a w', f w = Ok (a, w') -> I w w'
  | Bind m k => acts I m /\ forall a, acts I (k a)
  | Iter body _ => forall i, acts I (body i)
  end.

(** If every step respects a preorder, every segment does, whatever the other
    threads do in between. *)
Lemma acts_triple (I : W -> W -> Prop) `{!PreOrder I} A (p : prog A) :
  acts I p ->
  triple (fun _ => I) (fun _ _ _ => True) (fun _ => True) I p (fun _ => I).
Proof.
  intros Ha w0 w. revert w0 w. induction p as [A a|A A' m IHm k IHk|A f|b|J A body IHb i];
    intros w0 w HI; simpl in *; try done.
  - destruct Ha as [Hm Hk]. eapply wp_mono; [|by apply IHm]. auto.
  - destruct (f w) as [[a w']|e] eqn:Ef; [|done]. etrans; [exact HI|by eapply Ha].
  - exists (fun _ => I). split; [done|]. intros j v0 v Hj. eapply wp_mono; [|by apply IHb].
    by intros [].
Qed.

(** A property of the world that every step keeps, alongside a triple. *)
Lemma triple_keeps G R E A (p : prog A) (X : W -> Prop) P Q :
  no_suspend p -> acts (fun w w' => X w -> X w') p -> triple G R E P p Q ->
  triple G R E (fun w0 w => X w /\ P w0 w) p (fun a w0 w => X w /\ Q a w0 w).
Proof.
  intros Hn Ha H w0 w [HX HP]. specialize (H w0 w HP). clear HP P.
  revert w0 w Q HX H. induction p as [A a|A A' m IHm k IHk|A f|b|I A body IHb i];
    intros w0 w Q HX H; simpl in *; try done.
  - destruct Hn as [Hm Hk], Ha as [Ham Hak]. eapply wp_mono, (IHm Hm Ham _ _ _ HX H).
    intros a v0 v [Hv0 Hv]. by apply IHk.
  - destruct (f w) as [[a w']|e] eqn:Ef; [|done]. split; [by eapply Ha|done].
  - destruct H as (Inv & H0 & Hstep). exists (fun j v0 v => X v /\ Inv j v0 v). split; [done|].
    intros j v0 v [HX' Hj]. eapply wp_mono, (IHb _ (Hn j) (Ha j) _ _ _ HX' (Hstep j v0 v Hj)).
    intros [j'|a] u0 u [??]; done.
Qed.

(** * Productive programs

    A loop is productive when no iteration comes back to its head without
    having given the processor away: then every segment of the program ends. *)
Definition no_spin {I A} (p : prog (I + A)) : Prop :=
  forall w, wp (fun _ _ _ => True) (fun _ _ _ => False) (fun _ => True) p
              (fun r _ _ => match r with inl _ => False | inr _ => True end) w w.

Fixpoint productive {A} (p : prog A) : Prop :=
  match p with
  | Ret _ | Act _ | Suspend _ => True
  | Bind m k => productive m /\ forall a, productive (k a)
  | Iter body _ => (forall i, productive (body i)) /\ (forall i, no_spin (body i))
  end.

(** A property every step keeps holds to the end, if the other threads keep it, too. *)
Lemma acts_kept (R : B -> W -> W -> Prop) A (p : prog A) (X : W -> Prop) :
  (forall b w w', R b w w' -> X w') -> acts (fun w w' => X w -> X w') p ->
  triple (fun _ _ _ => True) R (fun _ => True) (fun _ w => X w) p (fun _ _ w => X w).
Proof.
  intros HR Ha w0 w HX. revert w0 w HX. induction p as [A a|A A' m IHm k IHk|A f|b|I A body IHb i];
    intros w0 w HX; simpl in *; try done.
  - destruct Ha as [Hm Hk]. eapply wp_mono; [|by apply IHm]. auto.
  - destruct (f w) as [[a w']|e] eqn:Ef; [by eapply Ha|done].
  - split; [done|]. intros w' Hw. by eapply HR.
  - exists (fun _ _ v => X v). split; [done|]. intros j v0 v Hj. eapply wp_mono; [|by apply IHb].
    by intros [].
Qed.

(** A property every step keeps holds as long as the segment goes on. *)
Lemma acts_keep A (p : prog A) (X : W -> Prop) :
  acts (fun w w' => X w -> X w') p ->
  triple (fun _ _ _ => True) (fun _ _ _ => False) (fun _ => True)
    (fun _ w => X w) p (fun _ _ w => X w).
Proof. by apply acts_kept. Qed.

(** Programs that suspend or panic, but do not return in the segment they began. *)
Definition never_returns {A} (P : W -> Prop) (p : prog A) : Prop :=
  triple (fun _ _ _ => True) (fun _ _ _ => False) (fun _ => True)
    (fun _ w => P w) p (fun _ _ _ => False).

Lemma never_returns_suspend P b : never_returns P (Suspend b).
Proof. by intros w0 w _. Qed.

Lemma never_returns_bind_l A A' P (m : prog A) (k : A -> prog A') :
  never_returns P m -> never_returns P (Bind m k).
Proof. intros H w0 w HP. simpl. eapply wp_mono; [|by apply (H w0 w)]. by intros. Qed.

Lemma acts_nothing A (p : prog A) : acts (fun _ _ => True -> True) p.
Proof. induction p; simpl; auto. Qed.

Lemma never_returns_bind_r A A' P (m : prog A) (k : A -> prog A') :
  (forall a, never_returns (fun _ => True) (k a)) -> never_returns P (Bind m k).
Proof.
  intros H w0 w _. simpl. eapply wp_mono; [|exact (acts_keep _ m (fun _ => True) (acts_nothing _ m) w0 w I)].
  intros a v0 v _. by apply H.
Qed.

(** The residual of a productive program is productive. *)
Lemma productive_rest n A (p : prog A) w w' b rest :
  productive p -> eval n p w = Blocked w' b rest -> productive rest.
Proof.
  revert A p w w' b rest. induction n as [|n IH]; intros A p w w' b rest Hp E; [done|].
  destruct p as [A a|A A' m k|A f|b'|I A body i]; simpl in *; try done.
  - destruct Hp as [Hm Hk]. destruct (eval n m w) as [a v|v b' rest'|e|] eqn:Em; try done.
    + by eapply IH, E.
    + simplify_eq. simpl. split; [by eapply IH, Em|done].
  - by destruct (f w) as [[]|].
  - by simplify_eq.
  - eapply IH, E. simpl. destruct Hp as [Hb Hs]. split; [done|].
    intros [j|a]; simpl; auto.
Qed.

(** What is left of a program after some of its segments, whatever the worlds they
    were run in. *)
Inductive residual {A} (p : prog A) : prog A -> Prop :=
| residual_start : residual p p
| residual_next q n w w' b rest : residual p q -> eval n q w = Blocked w' b rest -> residual p rest.

Lemma productive_residual A (p q : prog A) : productive p -> residual p q -> productive q.
Proof. intros Hp. induction 1; [done|]. by eapply productive_rest. Qed.

(** Every segment of a productive program ends. *)
Theorem productive_ends A (p : prog A) w :
  productive p -> exists n, eval n p w <> OutOfFuel.
Proof.
  revert w. induction p as [A a|A A' m IHm k IHk|A f|b|I A body IHb i]; intros w Hp; simpl in Hp.
  - by exists 1%nat.
  - destruct Hp as [Hm Hk]. destruct (IHm w Hm) as [n1 H1].
    destruct (eval n1 m w) as [a v|v b rest|e|] eqn:Em; [| | |done].
    + destruct (IHk a v (Hk a)) as [n2 H2]. exists (S (n1 + n2)). simpl.
      rewrite (eval_mono n1 _ m w) by (rewrite ?Em; done || lia). rewrite Em.
      rewrite (eval_mono n2 _ (k a) v) by (done || lia). done.
    + exists (S n1). simpl. by rewrite Em.
    + exists (S n1). simpl. by rewrite Em.
  - exists 1%nat. simpl. by destruct (f w) as [[]|].
  - by exists 1%nat.
  - destruct Hp as [Hb Hs]. destruct (IHb i w (Hb i)) as [n Hn].
    exists (S (S (S n))). simpl.
    pose proof (wp_sound _ _ _ (S n) _ (body i) _ w w (Hs i w)) as Hsp.
    rewrite (eval_mono n _ (body i) w Hn) in Hsp by lia.
    assert (E1 : eval (S n) (body i) w = eval n (body i) w) by (apply eval_mono; [done|lia]).
    simpl in E1. simpl. rewrite E1.
    destruct (eval n (body i) w) as [[j|a] v|v b rest|e|]; done.
Qed.
End Machine.

Arguments Ret {W B A} a.
Arguments Bind {W B A A'} m k.
Arguments Act {W B A} f.
Arguments Suspend {W B} b.
Arguments Iter {W B I A} body i.
Arguments Done {W B A} a w.
Arguments Blocked {W B A} w b rest.
Arguments Panicked {W B A} msg.
Arguments OutOfFuel {W B A}.
Arguments eval {W B} fuel {A} p w.
Arguments wp {W B} G R E {A} p Q w0 w.
Arguments promised {W B} G R E {A} Q w0 o.
Arguments triple {W B} G R E {A} P p Q.
Arguments residual {W B A} p _.
Arguments residual_start {W B A} p.
Arguments residual_next {W B A} p q n w w' b rest _ _.
Arguments productive {W B A} p.
Arguments no_spin {W B I A} p.
Arguments no_suspend {W B A} p.
Arguments acts {W B} I {A} p.
Arguments never_returns {W B A} P p.
Arguments prog_eq {W B A} p q.

Declare Scope prog_scope.
Delimit Scope prog_scope with prog.

Notation "'let!' x := m 'in' k" := (Bind m (fun x => k))
  (at level 10, x pattern, m at level 100, k at level 200) : prog_scope.
Notation "m ;; k" := (Bind m (fun _ => k))
  (at level 100, right associativity) : prog_scope.
Open Scope prog_scope.

(** [if c { p }] *)
Definition when {W B} (c : bool) (p : prog W B unit) : prog W B unit :=
  if c then p else Ret tt.

(** [for _ in 0..n { p }] *)
Fixpoint times {W B} (n : nat) (p : prog W B unit) : prog W B unit :=
  match n with O => Ret tt | S n' => p ;; times n' p end.
