(* ===== verification/State.v ===== *)
(** The scheduler state and its operations that do not suspend
    ([src/rsched/src/lib.rs], the types [Thread], [SMutex], [SCond], [SBarrier]
    and [State]).

    A thread is named by its [pthread_t], a mutex, condition variable, barrier or
    attribute by its address; both are [Z].  The [suspend_cond] of a [Thread] is
    not a field here: a condition variable is its address, and the box of the
    thread [pt] in [info] is what that address names (see [CondId] in
    Runtime.v).  The state is generic in the scheduler it holds. *)
From S2P Require Import Prelude Event Scheduler.

Abbreviation PthreadT := Z (only parsing).
Abbreviation PidT := Z (only parsing).

(** [libc] constants (Linux x86-64). *)
Definition EPERM : Z := 1.
Definition EBUSY : Z := 16.
Definition EINVAL : Z := 22.
Definition PTHREAD_MUTEX_RECURSIVE : Z := 1.
Definition PTHREAD_BARRIER_SERIAL_THREAD : Z := -1.

(** * Thread descriptor *)
Record Thread : Type := mkThread {
  tid : PidT;
  pthread : PthreadT;
  is_blocking : bool;
  startup_done : bool;
  is_in_rsched_wait : bool;
  joiner : option PthreadT;
  is_exited : bool;
  next_event : option Event
}.

Module Thread.
Definition new_with_tid (pt : PthreadT) (tid : PidT) : Thread :=
  {| tid := tid; pthread := pt; is_blocking := false; startup_done := false;
     is_in_rsched_wait := false; joiner := None; is_exited := false; next_event := None |}.

(** Field assignments. *)
Definition set_tid x (t : Thread) : Thread :=
  mkThread x (pthread t) (is_blocking t) (startup_done t) (is_in_rsched_wait t) (joiner t) (is_exited t) (next_event t).
Definition set_blocking x (t : Thread) : Thread :=
  mkThread (tid t) (pthread t) x (startup_done t) (is_in_rsched_wait t) (joiner t) (is_exited t) (next_event t).
Definition set_startup_done x (t : Thread) : Thread :=
  mkThread (tid t) (pthread t) (is_blocking t) x (is_in_rsched_wait t) (joiner t) (is_exited t) (next_event t).
Definition set_in_wait x (t : Thread) : Thread :=
  mkThread (tid t) (pthread t) (is_blocking t) (startup_done t) x (joiner t) (is_exited t) (next_event t).
Definition set_joiner x (t : Thread) : Thread :=
  mkThread (tid t) (pthread t) (is_blocking t) (startup_done t) (is_in_rsched_wait t) x (is_exited t) (next_event t).
Definition set_next_event x (t : Thread) : Thread :=
  mkThread (tid t) (pthread t) (is_blocking t) (startup_done t) (is_in_rsched_wait t) (joiner t) (is_exited t) x.
(** [t.is_blocking = true; t.is_exited = true] *)
Definition set_exited (t : Thread) : Thread :=
  mkThread (tid t) (pthread t) true (startup_done t) (is_in_rsched_wait t) (joiner t) true (next_event t).

(** The negation of the flag [State::choose] computes: the thread may be woken. *)
Definition eligible (t : Thread) : bool :=
  negb (is_blocking t || negb (startup_done t) || negb (is_in_rsched_wait t)).
End Thread.

(** * Mutex, condition variable and barrier state *)
Module SMutex.
Record t : Type := mk { owner_tid : PidT; recursive_count : Z; waiters : list PthreadT }.
Definition set_owner x (m : t) : t := mk x (recursive_count m) (waiters m).
Definition set_count x (m : t) : t := mk (owner_tid m) x (waiters m).
Definition set_waiters x (m : t) : t := mk (owner_tid m) (recursive_count m) x.
End SMutex.

Module SCond.
Record t : Type := mk { waiters : list PthreadT }.
End SCond.

Module SBarrier.
Record t : Type := mk { count : Z; waiters : list PthreadT }.
Definition set_waiters x (b : t) : t := mk (count b) x.
End SBarrier.

(** * Scheduler state *)
Record State (Sch : Type) : Type := mkState {
  scheduler : Sch;
  threads : list PthreadT;
  info : gmap PthreadT Thread;
  mutexes : gmap Z SMutex.t;
  recursive_mutexes : gset Z;
  recursive_mutex_attrs : gset Z;
  conds : gmap Z SCond.t;
  barriers : gmap Z SBarrier.t;
  pending_child : option (Z * PthreadT)
}.
Arguments mkState {Sch}.
Arguments scheduler {Sch}.
Arguments threads {Sch}.
Arguments info {Sch}.
Arguments mutexes {Sch}.
Arguments recursive_mutexes {Sch}.
Arguments recursive_mutex_attrs {Sch}.
Arguments conds {Sch}.
Arguments barriers {Sch}.
Arguments pending_child {Sch}.

Section Setters.
Context {Sch : Type}.
Implicit Types s : State Sch.

Definition set_scheduler x s : State Sch :=
  mkState x (threads s) (info s) (mutexes s) (recursive_mutexes s) (recursive_mutex_attrs s) (conds s) (barriers s) (pending_child s).
Definition set_threads x s : State Sch :=
  mkState (scheduler s) x (info s) (mutexes s) (recursive_mutexes s) (recursive_mutex_attrs s) (conds s) (barriers s) (pending_child s).
Definition set_info x s : State Sch :=
  mkState (scheduler s) (threads s) x (mutexes s) (recursive_mutexes s) (recursive_mutex_attrs s) (conds s) (barriers s) (pending_child s).
Definition set_mutexes x s : State Sch :=
  mkState (scheduler s) (threads s) (info s) x (recursive_mutexes s) (recursive_mutex_attrs s) (conds s) (barriers s) (pending_child s).
Definition set_recursive_mutexes x s : State Sch :=
  mkState (scheduler s) (threads s) (info s) (mutexes s) x (recursive_mutex_attrs s) (conds s) (barriers s) (pending_child s).
Definition set_recursive_mutex_attrs x s : State Sch :=
  mkState (scheduler s) (threads s) (info s) (mutexes s) (recursive_mutexes s) x (conds s) (barriers s) (pending_child s).
Definition set_conds x s : State Sch :=
  mkState (scheduler s) (threads s) (info s) (mutexes s) (recursive_mutexes s) (recursive_mutex_attrs s) x (barriers s) (pending_child s).
Definition set_barriers x s : State Sch :=
  mkState (scheduler s) (threads s) (info s) (mutexes s) (recursive_mutexes s) (recursive_mutex_attrs s) (conds s) x (pending_child s).
Definition set_pending_child x s : State Sch :=
  mkState (scheduler s) (threads s) (info s) (mutexes s) (recursive_mutexes s) (recursive_mutex_attrs s) (conds s) (barriers s) x.
End Setters.

Module StateOps.
Section StateOps.
Context {Sch : Type} `{Scheduler Sch}.
Implicit Types s : State Sch.

(** The fields [State::new] gives besides the scheduler it builds. *)
Definition empty (sch : Sch) : State Sch := mkState sch [] ∅ ∅ ∅ ∅ ∅ ∅ None.

Definition add (t : Thread) s : State Sch :=
  set_info (<[pthread t := t]> (info s)) (set_threads (threads s ++ [pthread t]) s).

Definition remove (pt : PthreadT) s : State Sch :=
  let s1 := set_threads (retain_ne pt (threads s)) s in
  match info s1 !! pt with
  | Some t => set_info (<[pt := Thread.set_exited t]> (info s1)) s1
  | None => s1
  end.

(** [self.info[&pt]] *)
Definition index (pt : PthreadT) s : result Thread :=
  expect (info s !! pt) "no entry found for key".

(** [self.t(pt)] as a reader, and an assignment through the [&mut Thread]. *)
Definition t (pt : PthreadT) s : result Thread :=
  expect (info s !! pt) "rsched: unknown thread".
Definition modify (pt : PthreadT) (f : Thread -> Thread) s : result (State Sch) :=
  let? th := t pt s in Ok (set_info (<[pt := f th]> (info s)) s).

(** The same through [self.info.get_mut(&pt).unwrap()]. *)
Definition modify_unwrap (pt : PthreadT) (f : Thread -> Thread) s : result (State Sch) :=
  let? th := expect (info s !! pt) "called `Option::unwrap()` on a `None` value" in
  Ok (set_info (<[pt := f th]> (info s)) s).

Definition choose s : result (option nat * State Sch) :=
  let? blocking :=
    rmap (fun pt =>
      let? th := index pt s in
      Ok (is_blocking th || negb (startup_done th) || negb (is_in_rsched_wait th)))
    (threads s) in
  let? (o, sch) := Scheduler.choose (scheduler s) blocking in
  Ok (o, set_scheduler sch s).

Definition set_event (pt : PthreadT) (ev : Event) s : result (State Sch) :=
  modify pt (Thread.set_next_event (Some ev)) s.
Definition clear_event (pt : PthreadT) s : result (State Sch) :=
  modify pt (Thread.set_next_event None) s.

Definition will_block (key : Z) (tid : PidT) s : bool :=
  match mutexes s !! key with
  | Some m => negb (SMutex.owner_tid m =? 0) && negb (SMutex.owner_tid m =? tid)
  | None => false
  end.

Definition is_recursive_mutex (key : Z) s : bool := bool_decide (key ∈ recursive_mutexes s).

(** One round of the loop of [State::mutex_lock] before its scheduling point:
    [true] when the mutex is taken (the [return]), otherwise the caller is
    enqueued and marked blocking. *)
Definition mutex_acquire (checks : bool) (key : Z) (caller : PthreadT) (tid : PidT) s
  : result (bool * State Sch) :=
  let e := default (SMutex.mk tid 0 []) (mutexes s !! key) in
  if SMutex.owner_tid e =? tid then
    let? c := add_u32 checks (SMutex.recursive_count e) 1 in
    Ok (true, set_mutexes (<[key := SMutex.set_count c e]> (mutexes s)) s)
  else
    let e' := if contains caller (SMutex.waiters e) then e
              else SMutex.set_waiters (SMutex.waiters e ++ [caller]) e in
    let? s' := modify caller (Thread.set_blocking true)
                 (set_mutexes (<[key := e']> (mutexes s)) s) in
    Ok (false, s').

(** Pick an element of a non-empty vector of waiters with the scheduler. *)
Definition pick_waiter (msg : string) (ws : list PthreadT) s
  : result (PthreadT * list PthreadT * State Sch) :=
  let blocking := replicate (length ws) false in
  let? (o, sch) := Scheduler.choose (scheduler s) blocking in
  let? idx := expect o msg in
  let? (w, ws') := vec_remove ws idx in
  Ok (w, ws', set_scheduler sch s).

Definition mutex_unlock (checks : bool) (key : Z) (caller : PthreadT) s
  : result (Z * State Sch) :=
  let? th := index caller s in
  match mutexes s !! key with
  | None => Ok (EINVAL, s)
  | Some m =>
      if negb (SMutex.owner_tid m =? tid th) then Ok (EPERM, s)
      else
        let? c := sub_u32 checks (SMutex.recursive_count m) 1 in
        let m1 := SMutex.set_count c m in
        let s1 := set_mutexes (<[key := m1]> (mutexes s)) s in
        if 0 <? c then Ok (0, s1)
        else if (length (SMutex.waiters m1) =? 0)%nat
        then Ok (0, set_mutexes (delete key (mutexes s1)) s1)
        else
          let? (waiter, ws, s2) :=
            pick_waiter "rsched: non-empty waiter list" (SMutex.waiters m1) s1 in
          let? wt := index waiter s2 in
          let m2 := SMutex.set_owner (tid wt) (SMutex.set_waiters ws m1) in
          let? s3 := modify waiter (Thread.set_blocking false)
                       (set_mutexes (<[key := m2]> (mutexes s2)) s2) in
          Ok (0, s3)
  end.

(** * State updates of the exported functions *)

Definition note_mutexattr_init (attr : Z) s : State Sch :=
  set_recursive_mutex_attrs (recursive_mutex_attrs s ∖ {[attr]}) s.
Definition note_mutexattr_settype (attr kind : Z) s : State Sch :=
  if kind =? PTHREAD_MUTEX_RECURSIVE
  then set_recursive_mutex_attrs ({[attr]} ∪ recursive_mutex_attrs s) s
  else set_recursive_mutex_attrs (recursive_mutex_attrs s ∖ {[attr]}) s.
Definition note_mutexattr_destroy (attr : Z) s : State Sch :=
  set_recursive_mutex_attrs (recursive_mutex_attrs s ∖ {[attr]}) s.
(** The null pointer is 0. *)
Definition note_mutex_init (lock attr : Z) s : State Sch :=
  if negb (attr =? 0) && bool_decide (attr ∈ recursive_mutex_attrs s)
  then set_recursive_mutexes ({[lock]} ∪ recursive_mutexes s) s
  else set_recursive_mutexes (recursive_mutexes s ∖ {[lock]}) s.
Definition note_mutex_destroy (lock : Z) s : State Sch :=
  set_mutexes (delete lock (mutexes s))
    (set_recursive_mutexes (recursive_mutexes s ∖ {[lock]}) s).

(** Enqueue the caller on a condition variable and mark it blocking. *)
Definition cond_enqueue (ckey : Z) (caller : PthreadT) s : result (State Sch) :=
  let c := default (SCond.mk []) (conds s !! ckey) in
  modify caller (Thread.set_blocking true)
    (set_conds (<[ckey := SCond.mk (SCond.waiters c ++ [caller])]> (conds s)) s).

(** Release one waiter of a condition variable. *)
Definition cond_release_one (key : Z) s : result (State Sch) :=
  match conds s !! key with
  | Some c =>
      if (0 <? length (SCond.waiters c))%nat then
        let? (w, ws, s1) :=
          pick_waiter "rsched: non-empty cond waiter list" (SCond.waiters c) s in
        modify w (Thread.set_blocking false)
          (set_conds (<[key := SCond.mk ws]> (conds s1)) s1)
      else Ok s
  | None => Ok s
  end.

(** [for w in ws { st().t(w).is_blocking = false; }] *)
Definition unblock_all (ws : list PthreadT) s : result (State Sch) :=
  rfold (fun s w => modify w (Thread.set_blocking false) s) s ws.

Definition cond_release_all (key : Z) s : result (State Sch) :=
  match conds s !! key with
  | Some c => unblock_all (SCond.waiters c) (set_conds (delete key (conds s)) s)
  | None => Ok s
  end.

(** The registration block of [rsched_pthread_barrier_wait] ([None]: the early
    [return EINVAL]) and its release block ([true]: the caller released). *)
Definition barrier_register (key : Z) (caller : PthreadT) s : result (option (State Sch)) :=
  match barriers s !! key with
  | None => Ok None
  | Some b =>
      let ws := if contains caller (SBarrier.waiters b) then SBarrier.waiters b
                else SBarrier.waiters b ++ [caller] in
      let s1 := set_barriers (<[key := SBarrier.set_waiters ws b]> (barriers s)) s in
      if Z.of_nat (length ws) <? SBarrier.count b
      then let? s2 := modify caller (Thread.set_blocking true) s1 in Ok (Some s2)
      else Ok (Some s1)
  end.

Definition barrier_release (key : Z) s : result (bool * State Sch) :=
  let? b := expect (barriers s !! key) "called `Option::unwrap()` on a `None` value" in
  if SBarrier.count b <=? Z.of_nat (length (SBarrier.waiters b))
  then
    let? s' := unblock_all (SBarrier.waiters b)
                 (set_barriers (<[key := SBarrier.set_waiters [] b]> (barriers s)) s) in
    Ok (true, s')
  else Ok (false, s).

(** What [rsched_pthread_barrier_wait] does to the state between two suspensions:
    the registration and the release. *)
Definition barrier_arrive (key : Z) (caller : PthreadT) s : result (option (bool * State Sch)) :=
  let? o := barrier_register key caller s in
  match o with
  | Some s1 => let? r := barrier_release key s1 in Ok (Some r)
  | None => Ok None
  end.

(** The effect of [do_thread_exit] on the state, before it chooses a thread. *)
Definition exit_thread (pt : PthreadT) s : result (State Sch) :=
  let? s1 := match info s !! pt ≫= joiner with
             | Some j => modify j (Thread.set_blocking false) s
             | None => Ok s
             end in
  Ok (remove pt s1).

(** The marks of [rsched_pthread_join]. *)
Definition join_mark (target caller : PthreadT) s : result (State Sch) :=
  let? s1 := modify target (Thread.set_joiner (Some caller)) s in
  modify caller (Thread.set_blocking true) s1.
End StateOps.
End StateOps.

(** * What the operations leave alone

    Only the suspension points of the runtime write [is_in_rsched_wait]; every
    other operation is [quiet]. *)
Section Quiet.
Context {Sch : Type} `{Scheduler Sch}.
Implicit Types s : State Sch.
Import StateOps.

Definition flag_of s (u : PthreadT) : bool :=
  match info s !! u with Some t => is_in_rsched_wait t | None => false end.

Definition quiet s s' : Prop := forall u, flag_of s' u = flag_of s u.

#[export] Instance quiet_preorder : PreOrder quiet.
Proof. split; [by intros s u|]. intros s1 s2 s3 H1 H2 u. by rewrite (H2 u), (H1 u). Qed.

Lemma quiet_info s s' : info s' = info s -> quiet s s'.
Proof. intros E u. unfold flag_of. by rewrite E. Qed.

Lemma quiet_update pt th th' s s' :
  info s !! pt = Some th -> is_in_rsched_wait th' = is_in_rsched_wait th ->
  info s' = <[pt := th']> (info s) -> quiet s s'.
Proof.
  intros Hs Hw E u. unfold flag_of. rewrite E. destruct (decide (u = pt)) as [->|Hne].
  - rewrite lookup_insert_eq, Hs. done.
  - by rewrite lookup_insert_ne by done.
Qed.

Lemma quiet_modify pt f s s' :
  (forall th, is_in_rsched_wait (f th) = is_in_rsched_wait th) ->
  modify pt f s = Ok s' -> quiet s s'.
Proof.
  intros Hf E. unfold modify, t in E. invert_ok. eapply quiet_update; [eassumption|apply Hf|done].
Qed.

Lemma quiet_remove pt s : quiet s (remove pt s).
Proof.
  unfold remove. simpl. destruct (info s !! pt) as [th|] eqn:E; [|by apply quiet_info].
  eapply (quiet_update pt th (Thread.set_exited th)); [exact E|done|done].
Qed.

Lemma quiet_choose s o s' : choose s = Ok (o, s') -> quiet s s'.
Proof.
  unfold choose. intros E. apply rbind_Ok in E as (bl & _ & E).
  apply rbind_Ok in E as ([o' sch] & _ & E). simplify_eq. by apply quiet_info.
Qed.

Lemma quiet_pick_waiter msg ws s w ws' s' :
  pick_waiter msg ws s = Ok (w, ws', s') -> quiet s s'.
Proof.
  unfold pick_waiter. intros E. apply rbind_Ok in E as ([o sch] & _ & E).
  apply rbind_Ok in E as (idx & _ & E). apply rbind_Ok in E as ([w' l] & _ & E).
  simplify_eq. by apply quiet_info.
Qed.

Lemma quiet_modify_blocking pt b s s' :
  modify pt (Thread.set_blocking b) s = Ok s' -> quiet s s'.
Proof. by apply quiet_modify. Qed.

Lemma quiet_mutex_acquire checks key caller tid s b s' :
  mutex_acquire checks key caller tid s = Ok (b, s') -> quiet s s'.
Proof.
  unfold mutex_acquire. case_match.
  - intros E. apply rbind_Ok in E as (c & _ & E). simplify_eq. by apply quiet_info.
  - intros E. apply rbind_Ok in E as (s1 & Hm & E). simplify_eq.
    etrans; [|by eapply quiet_modify_blocking]. by apply quiet_info.
Qed.

Lemma quiet_mutex_unlock checks key caller s r s' :
  mutex_unlock checks key caller s = Ok (r, s') -> quiet s s'.
Proof.
  unfold mutex_unlock. intros E. apply rbind_Ok in E as (th & _ & E).
  destruct (mutexes s !! key) as [m|]; [|by simplify_eq].
  case_match; [by simplify_eq|]. apply rbind_Ok in E as (c & _ & E).
  case_match; [simplify_eq; by apply quiet_info|].
  case_match; [simplify_eq; by apply quiet_info|].
  apply rbind_Ok in E as ([[w ws] s2] & Hp & E). apply rbind_Ok in E as (wt & _ & E).
  apply rbind_Ok in E as (s3 & Hm & E). simplify_eq.
  apply quiet_pick_waiter in Hp. apply quiet_modify_blocking in Hm.
  etrans; [|exact Hm]. etrans; [|by apply quiet_info].
  etrans; [|exact Hp]. by apply quiet_info.
Qed.

Lemma quiet_cond_enqueue ckey caller s s' :
  cond_enqueue ckey caller s = Ok s' -> quiet s s'.
Proof.
  unfold cond_enqueue. intros E%quiet_modify_blocking. etrans; [|exact E]. by apply quiet_info.
Qed.

Lemma quiet_cond_release_one key s s' : cond_release_one key s = Ok s' -> quiet s s'.
Proof.
  unfold cond_release_one. destruct (conds s !! key) as [c|]; [|by intros; simplify_eq].
  case_match; [|by intros; simplify_eq]. intros E.
  apply rbind_Ok in E as ([[w ws] s1] & Hp & E). apply quiet_pick_waiter in Hp.
  apply quiet_modify_blocking in E. etrans; [|exact E]. etrans; [exact Hp|]. by apply quiet_info.
Qed.

Lemma quiet_unblock_all ws s s' : unblock_all ws s = Ok s' -> quiet s s'.
Proof.
  unfold unblock_all. revert s. induction ws as [|w ws IH]; intros s E; simpl in E.
  - by simplify_eq.
  - apply rbind_Ok in E as (s1 & Hm & E). apply quiet_modify_blocking in Hm.
    etrans; [exact Hm|]. by apply IH.
Qed.

Lemma quiet_cond_release_all key s s' : cond_release_all key s = Ok s' -> quiet s s'.
Proof.
  unfold cond_release_all. destruct (conds s !! key) as [c|]; [|by intros; simplify_eq].
  intros E%quiet_unblock_all. etrans; [|exact E]. by apply quiet_info.
Qed.

Lemma quiet_barrier_register key caller s s' :
  barrier_register key caller s = Ok (Some s') -> quiet s s'.
Proof.
  unfold barrier_register. destruct (barriers s !! key) as [b|]; [|done].
  case_match; intros E.
  - apply rbind_Ok in E as (s1 & Hm & E). simplify_eq. apply quiet_modify_blocking in Hm.
    etrans; [|exact Hm]. by apply quiet_info.
  - simplify_eq. by apply quiet_info.
Qed.

Lemma quiet_barrier_release key s b s' : barrier_release key s = Ok (b, s') -> quiet s s'.
Proof.
  unfold barrier_release. intros E. apply rbind_Ok in E as (br & _ & E). case_match.
  - apply rbind_Ok in E as (s1 & Hu & E). simplify_eq. apply quiet_unblock_all in Hu.
    etrans; [|exact Hu]. by apply quiet_info.
  - by simplify_eq.
Qed.

Lemma quiet_barrier_arrive key caller s b s' :
  barrier_arrive key caller s = Ok (Some (b, s')) -> quiet s s'.
Proof.
  unfold barrier_arrive. intros E. apply rbind_Ok in E as ([s1|] & Hr & E); [|done].
  apply rbind_Ok in E as ([b' s2] & Hl & E). simplify_eq.
  etrans; [by eapply quiet_barrier_register|by eapply quiet_barrier_release].
Qed.

Lemma quiet_exit_thread pt s s' : exit_thread pt s = Ok s' -> quiet s s'.
Proof.
  unfold exit_thread. intros E. apply rbind_Ok in E as (s1 & E1 & E). simplify_eq.
  etrans; [|apply quiet_remove]. destruct (info s !! pt ≫= joiner); [|by simplify_eq].
  by eapply quiet_modify_blocking.
Qed.

Lemma quiet_join_mark target caller s s' : join_mark target caller s = Ok s' -> quiet s s'.
Proof.
  unfold join_mark. intros E. apply rbind_Ok in E as (s1 & E1 & E).
  etrans; [|by eapply quiet_modify_blocking]. by eapply quiet_modify, E1.
Qed.
End Quiet.

#[export] Hint Resolve quiet_info quiet_remove quiet_choose quiet_mutex_acquire
  quiet_mutex_unlock quiet_cond_enqueue quiet_cond_release_one quiet_cond_release_all
  quiet_barrier_register quiet_barrier_release quiet_modify_blocking quiet_barrier_arrive
  quiet_exit_thread quiet_join_mark : rsched.
