(* ===== verification/WellFormed.v ===== *)
(** The invariant of the scheduler state: the registered threads are known and
    distinct, a waiting queue holds known threads that are marked blocking, and no
    thread waits in two places.  Every operation of [State] keeps it, and none of
    the lookups it justifies can panic. *)
From S2P Require Import Prelude Event Scheduler State.
Import StateOps.

(** Where a thread can wait. *)
Inductive Place : Set :=
| AtMutex (key : Z)
| AtCond (key : Z)
| AtBarrier (key : Z).
#[export] Instance Place_eq_dec : EqDecision Place.
Proof. solve_decision. Defined.

Section WellFormed.
Context {Sch : Type} `{Scheduler Sch}.
Implicit Types s : State Sch.

Definition queue s (p : Place) : list PthreadT :=
  match p with
  | AtMutex k => from_option SMutex.waiters [] (mutexes s !! k)
  | AtCond k => from_option SCond.waiters [] (conds s !! k)
  | AtBarrier k => from_option SBarrier.waiters [] (barriers s !! k)
  end.

#[local] Arguments queue : simpl never.

(** The thread [j] waits for the exit of another thread. *)
Definition joining s (j : PthreadT) : Prop :=
  exists pt th, info s !! pt = Some th /\ joiner th = Some j /\ is_exited th = false.

Record wf s : Prop := mkWf {
  wf_nodup : NoDup (threads s);
  wf_known pt : pt ∈ threads s -> is_Some (info s !! pt);
  wf_exited pt th : info s !! pt = Some th -> is_exited th = true -> pt ∉ threads s;
  wf_queue p : NoDup (queue s p);
  wf_waiting p w : w ∈ queue s p -> exists th, info s !! w = Some th /\ is_blocking th = true;
  wf_one_place p q w : w ∈ queue s p -> w ∈ queue s q -> p = q;
  wf_joining j p : joining s j -> j ∉ queue s p
}.

Definition waits_nowhere s (pt : PthreadT) : Prop := forall p, pt ∉ queue s p.
Definition waits_only_at s (pt : PthreadT) (p : Place) : Prop := forall q, pt ∈ queue s q -> q = p.

Lemma empty_wf (sch : Sch) : wf (empty sch).
Proof.
  assert (Hq : forall p, queue (empty sch) p = []) by (by intros []).
  split; intros *; rewrite ?Hq; simpl; try by constructor.
  - intros Hpt. by apply elem_of_nil in Hpt.
  - done.
  - intros Hw. by apply elem_of_nil in Hw.
  - intros Hw. by apply elem_of_nil in Hw.
  - intros _ Hw. by apply elem_of_nil in Hw.
Qed.

(** * Kinds of updates *)

(** One thread record changes, in a way the invariant does not see. *)
Lemma wf_touch s s' pt th th' :
  info s !! pt = Some th -> info s' = <[pt := th']> (info s) -> threads s' = threads s ->
  (forall p, queue s' p = queue s p) ->
  is_exited th' = is_exited th -> (joiner th' = joiner th \/ is_exited th = true) ->
  (is_blocking th = true -> is_blocking th' = true \/ waits_nowhere s pt) ->
  wf s -> wf s'.
Proof.
  intros Hpt Ei Et Eq Ee Ej Eb [W1 W2 W3 W4 W5 W6 W7].
  split.
  - by rewrite Et.
  - intros x. rewrite Et, Ei. intros Hx%W2. destruct (decide (x = pt)) as [->|Hne].
    + rewrite lookup_insert_eq. done.
    + by rewrite lookup_insert_ne.
  - intros x t. rewrite Et, Ei. destruct (decide (x = pt)) as [->|Hne].
    + rewrite lookup_insert_eq. intros [= <-] He. apply (W3 pt th Hpt). congruence.
    + rewrite lookup_insert_ne by done. apply W3.
  - intros p. by rewrite Eq.
  - intros p w. rewrite Eq, Ei. intros Hw. destruct (W5 p w Hw) as (t & Ht & Hb).
    destruct (decide (w = pt)) as [->|Hne].
    + rewrite lookup_insert_eq. exists th'. split; [done|]. rewrite Hpt in Ht. injection Ht as ->.
      destruct (Eb Hb) as [|Hno]; [done|]. by destruct (Hno p).
    + rewrite lookup_insert_ne by done. eauto.
  - intros p q w. rewrite !Eq. apply W6.
  - intros j p (x & t & Hx & Hj & He). rewrite Eq. apply W7. rewrite Ei in Hx.
    destruct (decide (x = pt)) as [->|Hne].
    + rewrite lookup_insert_eq in Hx. injection Hx as <-. exists pt, th.
      destruct Ej as [Ej|Ej]; [|congruence]. split; [done|]. split; congruence.
    + rewrite lookup_insert_ne in Hx by done. by exists x, t.
Qed.

(** Only the queues change, and only by losing waiters. *)
Lemma wf_shrink s s' :
  info s' = info s -> threads s' = threads s ->
  (forall p, sublist (queue s' p) (queue s p)) -> wf s -> wf s'.
Proof.
  intros Ei Et Hs [W1 W2 W3 W4 W5 W6 W7].
  assert (Hin : forall p w, w ∈ queue s' p -> w ∈ queue s p).
  { intros p w. by apply sublist_subseteq, Hs. }
  split; rewrite ?Et, ?Ei; eauto.
  - intros p. by eapply sublist_NoDup; [apply W4|apply Hs].
  - intros j p (x & t & Hx & Hj & He) Hw%Hin. rewrite Ei in Hx. apply (W7 j p); [|done].
    by exists x, t.
Qed.

(** The same queues and records. *)
Lemma wf_same s s' :
  info s' = info s -> threads s' = threads s -> (forall p, queue s' p = queue s p) ->
  wf s -> wf s'.
Proof. intros Ei Et Eq. apply wf_shrink; [done|done|]. intros p. by rewrite Eq. Qed.

(** [pt] enters the queue [p], unless it is there, and is marked blocking. *)
Lemma wf_enter s s' pt th p :
  info s !! pt = Some th -> info s' = <[pt := Thread.set_blocking true th]> (info s) ->
  threads s' = threads s ->
  queue s' p = (if contains pt (queue s p) then queue s p else queue s p ++ [pt]) ->
  (forall q, q <> p -> queue s' q = queue s q) ->
  waits_only_at s pt p -> ~ joining s pt ->
  wf s -> wf s'.
Proof.
  intros Hpt Ei Et Ep Eq Honly Hj [W1 W2 W3 W4 W5 W6 W7].
  assert (Hin : forall q w, w ∈ queue s' q <-> w ∈ queue s q \/ q = p /\ w = pt).
  { intros q w. destruct (decide (q = p)) as [->|Hne]; [|rewrite Eq by done; naive_solver].
    rewrite Ep. destruct (contains pt (queue s p)) eqn:Hc.
    - apply contains_spec in Hc. naive_solver.
    - rewrite elem_of_app, list_elem_of_singleton. naive_solver. }
  assert (Hinfo : forall x t, info s' !! x = Some t ->
    exists t0, info s !! x = Some t0 /\ joiner t = joiner t0 /\ is_exited t = is_exited t0).
  { intros x t. rewrite Ei. destruct (decide (x = pt)) as [->|Hne].
    - rewrite lookup_insert_eq. intros [= <-]. by exists th.
    - rewrite lookup_insert_ne by done. eauto. }
  split.
  - by rewrite Et.
  - intros x. rewrite Et, Ei. intros Hx%W2. rewrite lookup_insert. by case_decide.
  - intros x t Hx He. rewrite Et. destruct (Hinfo x t Hx) as (t0 & H0 & _ & E0).
    apply (W3 x t0); congruence.
  - intros q. destruct (decide (q = p)) as [->|Hne]; [|by rewrite Eq].
    rewrite Ep. destruct (contains pt (queue s p)) eqn:Hc; [done|]. apply contains_false in Hc.
    apply NoDup_app. split; [done|]. split; [|by apply NoDup_singleton].
    intros x Hx. rewrite list_elem_of_singleton. congruence.
  - intros q w Hw. rewrite Ei. destruct (decide (w = pt)) as [->|Hne].
    + rewrite lookup_insert_eq. by eexists.
    + rewrite lookup_insert_ne by done. apply Hin in Hw as [Hw|[_ ?]]; [|done]. eauto.
  - intros q q' w [Hw|[-> ->]]%Hin [Hw'|[-> E]]%Hin; eauto.
    + subst w. eauto.
    + symmetry. eauto.
  - intros j q (x & t & Hx & Ej & He) [Hw|[-> ->]]%Hin.
    + destruct (Hinfo x t Hx) as (t0 & H0 & E1 & E2). apply (W7 j q); [|done].
      exists x, t0. split; [done|]. split; congruence.
    + apply Hj. destruct (Hinfo x t Hx) as (t0 & H0 & E1 & E2). exists x, t0.
      split; [done|]. split; congruence.
Qed.

(** * The operations *)

Lemma wf_modify pt f s s' :
  (forall th, is_exited (f th) = is_exited th /\ (joiner (f th) = joiner th) /\
              (is_blocking th = true -> is_blocking (f th) = true \/ waits_nowhere s pt)) ->
  modify pt f s = Ok s' -> wf s -> wf s'.
Proof.
  intros Hf E. unfold modify, t in E. invert_ok. destruct (Hf x) as (H1 & H2 & H3).
  eapply wf_touch; eauto; by intros [].
Qed.

Lemma wf_unblock pt s s' :
  waits_nowhere s pt -> modify pt (Thread.set_blocking false) s = Ok s' -> wf s -> wf s'.
Proof. intros Hn. apply wf_modify. intros th. repeat split. by right. Qed.

Lemma queue_modify pt f s s' p : modify pt f s = Ok s' -> queue s' p = queue s p.
Proof. intros E. unfold modify, t in E. invert_ok. by destruct p. Qed.

Lemma wf_unblock_all ws s s' :
  (forall w, w ∈ ws -> waits_nowhere s w) -> unblock_all ws s = Ok s' -> wf s -> wf s'.
Proof.
  unfold unblock_all. revert s. induction ws as [|w ws IH]; intros s Hn E Hwf; simpl in E.
  - by simplify_eq.
  - apply rbind_Ok in E as (s1 & Hm & E). apply (IH s1); [|done|].
    + intros x Hx p. rewrite (queue_modify _ _ _ _ p Hm). apply Hn. set_solver.
    + eapply wf_unblock; [|exact Hm|done]. apply Hn. set_solver.
Qed.

Lemma wf_add th s :
  pthread th ∉ threads s -> waits_nowhere s (pthread th) -> is_exited th = false ->
  joiner th = None -> wf s -> wf (add th s).
Proof.
  intros Hnew Hno He Hj [W1 W2 W3 W4 W5 W6 W7].
  assert (Eq : forall p, queue (add th s) p = queue s p) by (by intros []).
  split; change (threads (add th s)) with (threads s ++ [pthread th]);
    change (info (add th s)) with (<[pthread th := th]> (info s)).
  - apply NoDup_app. split; [done|]. split; [|by apply NoDup_singleton].
    intros x Hx. rewrite list_elem_of_singleton. congruence.
  - intros x. rewrite lookup_insert. case_decide; [done|].
    rewrite elem_of_app, list_elem_of_singleton. intros [Hx|Hx]; [auto|congruence].
  - intros x t. rewrite lookup_insert. case_decide as Hx; [intros [= <-]; congruence|].
    intros Ht Het. rewrite elem_of_app, list_elem_of_singleton.
    intros [Hin|Hin]; [by eapply W3|congruence].
  - intros p. rewrite (Eq p). apply W4.
  - intros p w Hw. rewrite (Eq p) in Hw. rewrite lookup_insert.
    case_decide as Hx; [|by eauto]. subst w. by destruct (Hno p).
  - intros p q w. rewrite (Eq p), (Eq q). apply W6.
  - intros j p (x & t & Hx & Ej & Hex). rewrite (Eq p). apply W7. simpl in Hx.
    rewrite lookup_insert in Hx. case_decide as E; [injection Hx as <-; congruence|].
    by exists x, t.
Qed.

Lemma wf_remove pt s : waits_nowhere s pt -> wf s -> wf (remove pt s).
Proof.
  intros Hno [W1 W2 W3 W4 W5 W6 W7].
  assert (Hth : forall x, x ∈ retain_ne pt (threads s) -> x <> pt /\ x ∈ threads s)
    by (intros x; apply elem_of_retain_ne).
  assert (Hnd : NoDup (retain_ne pt (threads s))) by by apply NoDup_filter.
  unfold remove. simpl. destruct (info s !! pt) as [th|] eqn:Hpt.
  - assert (Eq : forall p, queue (set_info (<[pt := Thread.set_exited th]> (info s))
                 (set_threads (retain_ne pt (threads s)) s)) p = queue s p) by (by intros []).
    split; simpl; try done.
    + intros x [Hne Hx]%Hth. rewrite lookup_insert_ne by done. auto.
    + intros x t. rewrite lookup_insert. case_decide as E.
      * intros _ _ [Hne _]%Hth. congruence.
      * intros Hx He [_ Hin]%Hth. by eapply W3.
    + intros p w Hw. rewrite (Eq p) in Hw. rewrite lookup_insert.
      case_decide as E; [|by eauto]. subst w. by destruct (Hno p).
    + intros j p (x & t & Hx & Ej & Hex). rewrite (Eq p). apply W7. simpl in Hx.
      rewrite lookup_insert in Hx. case_decide as E; [injection Hx as <-; done|].
      by exists x, t.
  - assert (Eq : forall p, queue (set_threads (retain_ne pt (threads s)) s) p = queue s p) by (by intros []).
    split; simpl; try done.
    + intros x [_ Hx]%Hth. auto.
    + intros x t Hx He [_ Hin]%Hth. by eapply W3.
Qed.

Lemma wf_exit_thread pt s s' :
  waits_nowhere s pt -> (forall th, info s !! pt = Some th -> is_exited th = false) ->
  exit_thread pt s = Ok s' -> wf s -> wf s'.
Proof.
  intros Hno Hlive E Hwf. unfold exit_thread in E. apply rbind_Ok in E as (s1 & E1 & E).
  injection E as <-. destruct (info s !! pt ≫= joiner) as [j|] eqn:Hj.
  - destruct (info s !! pt) as [th|] eqn:Hpt; [|done]. simpl in Hj.
    apply wf_remove.
    + intros p. rewrite (queue_modify _ _ _ _ p E1). apply Hno.
    + eapply wf_unblock, Hwf; [|exact E1]. intros p. apply (wf_joining _ Hwf j p).
      exists pt, th. eauto.
  - simplify_eq. by apply wf_remove.
Qed.

Lemma wf_join_mark target caller s s' :
  waits_nowhere s caller -> join_mark target caller s = Ok s' -> wf s -> wf s'.
Proof.
  intros Hno E Hwf. unfold join_mark in E. apply rbind_Ok in E as (s1 & E1 & E).
  eapply wf_modify; [|exact E|]; [intros th; repeat split; by left|].
  unfold modify, t in E1. invert_ok. destruct Hwf as [W1 W2 W3 W4 W5 W6 W7].
  assert (Eq : forall p, queue (set_info (<[target := Thread.set_joiner (Some caller) x]> (info s)) s) p
                 = queue s p) by (by intros []).
  split; simpl; try done.
  - intros y Hy%W2. rewrite lookup_insert. by case_decide.
  - intros y th. rewrite lookup_insert. case_decide as Ey; [|apply W3].
    intros [= <-]. subst y. by apply (W3 _ x).
  - intros p w. rewrite (Eq p). intros Hw. destruct (W5 p w Hw) as (th & Hth & Hb).
    rewrite lookup_insert. case_decide as Ew; [|eauto]. subst w. eexists. split; [done|].
    simpl. congruence.
  - intros j p (y & th & Hy & Ej & Hex). rewrite (Eq p). simpl in Hy. rewrite lookup_insert in Hy.
    case_decide as Ey.
    + injection Hy as <-. simpl in Ej. injection Ej as <-. apply Hno.
    + apply W7. by exists y, th.
Qed.

Lemma wf_choose o s s' : choose s = Ok (o, s') -> wf s -> wf s'.
Proof.
  unfold choose. intros E. apply rbind_Ok in E as (bl & _ & E).
  apply rbind_Ok in E as ([o' sch] & _ & E). simplify_eq. by apply wf_same; [| |intros []].
Qed.

Lemma pick_waiter_Ok msg ws s w ws' s' :
  pick_waiter msg ws s = Ok (w, ws', s') ->
  exists idx sch, ws !! idx = Some w /\ ws' = delete idx ws /\ s' = set_scheduler sch s.
Proof.
  unfold pick_waiter. intros E. apply rbind_Ok in E as ([o sch] & _ & E).
  apply rbind_Ok in E as (idx & _ & E). apply rbind_Ok in E as ([w' l] & Hv & E).
  apply vec_remove_Ok in Hv as [Hv ->]. simplify_eq. eauto.
Qed.

Lemma delete_not_elem (ws : list PthreadT) idx w :
  NoDup ws -> ws !! idx = Some w -> w ∉ delete idx ws.
Proof.
  intros Hnd Hw Hin. apply list_elem_of_lookup in Hin as [j Hj]. rewrite list_lookup_delete in Hj.
  apply (NoDup_lookup ws) with (j := idx) in Hj; [|done|done]. case_decide; lia.
Qed.

(** A waiter leaves its queue and is unblocked. *)
Lemma wf_leave s s1 s' p w :
  w ∈ queue s p -> info s1 = info s -> threads s1 = threads s ->
  (forall q, q <> p -> queue s1 q = queue s q) ->
  sublist (queue s1 p) (queue s p) -> w ∉ queue s1 p ->
  modify w (Thread.set_blocking false) s1 = Ok s' -> wf s -> wf s'.
Proof.
  intros Hw Ei Et Eq Hs Hno E Hwf.
  eapply wf_unblock; [|exact E|].
  - intros q Hq. destruct (decide (q = p)) as [->|Hne]; [done|].
    rewrite Eq in Hq by done. by apply Hne, (wf_one_place _ Hwf q p w).
  - eapply wf_shrink, Hwf; [done|done|]. intros q. destruct (decide (q = p)) as [->|Hne]; [done|].
    by rewrite Eq.
Qed.

Lemma queue_set_mutexes_ne key m s p :
  p <> AtMutex key -> queue (set_mutexes (<[key := m]> (mutexes s)) s) p = queue s p.
Proof.
  destruct p as [k|k|k]; try done. intros Hne. unfold queue. simpl.
  rewrite lookup_insert_ne; [done|congruence].
Qed.

Lemma queue_set_mutexes_eq key m s :
  queue (set_mutexes (<[key := m]> (mutexes s)) s) (AtMutex key) = SMutex.waiters m.
Proof. unfold queue. simpl. by rewrite lookup_insert_eq. Qed.

Lemma queue_set_mutexes_same key m s :
  SMutex.waiters m = queue s (AtMutex key) ->
  forall p, queue (set_mutexes (<[key := m]> (mutexes s)) s) p = queue s p.
Proof.
  intros E p. destruct (decide (p = AtMutex key)) as [->|Hne].
  - by rewrite queue_set_mutexes_eq.
  - by apply queue_set_mutexes_ne.
Qed.

Lemma wf_mutex_acquire checks key caller tid s b s' :
  waits_only_at s caller (AtMutex key) -> ~ joining s caller ->
  mutex_acquire checks key caller tid s = Ok (b, s') -> wf s -> wf s'.
Proof.
  intros Honly Hj E Hwf. unfold mutex_acquire in E.
  set (e := default (SMutex.mk tid 0 []) (mutexes s !! key)) in *.
  assert (Ee : SMutex.waiters e = queue s (AtMutex key)).
  { unfold e, queue. by destruct (mutexes s !! key). }
  case_match.
  - apply rbind_Ok in E as (c & _ & E). simplify_eq.
    eapply wf_same, Hwf; [done|done|]. by apply queue_set_mutexes_same.
  - apply rbind_Ok in E as (s1 & Hm & E). simplify_eq.
    unfold modify, t in Hm. invert_ok. rename x into th. simpl in H1.
    eapply (wf_enter s _ caller th (AtMutex key)); try done.
    + rewrite <- Ee. unfold queue. simpl. rewrite lookup_insert_eq. simpl. by case_match.
    + intros q Hq. etrans; [|by apply (queue_set_mutexes_ne key
        (if contains caller (SMutex.waiters e) then e
         else SMutex.set_waiters (SMutex.waiters e ++ [caller]) e) s q)]. by destruct q.
Qed.

Lemma wf_mutex_unlock checks key caller s r s' :
  mutex_unlock checks key caller s = Ok (r, s') -> wf s -> wf s'.
Proof.
  intros E Hwf. unfold mutex_unlock in E. apply rbind_Ok in E as (th & _ & E).
  destruct (mutexes s !! key) as [m|] eqn:Hm; [|by simplify_eq].
  assert (Em : SMutex.waiters m = queue s (AtMutex key)) by (unfold queue; by rewrite Hm).
  case_match; [by simplify_eq|]. apply rbind_Ok in E as (c & _ & E).
  assert (H1 : forall p, queue (set_mutexes (<[key := SMutex.set_count c m]> (mutexes s)) s) p = queue s p)
    by (by apply queue_set_mutexes_same).
  case_match; [simplify_eq; by eapply wf_same, Hwf|].
  case_match.
  { simplify_eq. eapply wf_shrink, Hwf; [done|done|]. intros p.
    destruct p as [k|k|k]; try done. unfold queue at 1. simpl.
    destruct (decide (k = key)) as [->|Hne].
    - rewrite lookup_delete_eq. simpl. apply sublist_nil_l.
    - by rewrite lookup_delete_ne, lookup_insert_ne by done. }
  apply rbind_Ok in E as ([[w ws] s2] & Hp & E). apply rbind_Ok in E as (wt & _ & E).
  apply rbind_Ok in E as (s3 & E & E3). injection E3 as _ <-.
  apply pick_waiter_Ok in Hp as (idx & sch & Hw & -> & ->). simpl in Hw. rewrite Em in Hw.
  eapply (wf_leave s _ s3 (AtMutex key) w); [by eapply list_elem_of_lookup_2| | | | | |exact E|exact Hwf].
  - done.
  - done.
  - intros q Hq. destruct q as [k|k|k]; try done. unfold queue. simpl.
    by rewrite !lookup_insert_ne by congruence.
  - unfold queue at 1. simpl. rewrite lookup_insert_eq. simpl. rewrite Em. apply sublist_delete.
  - unfold queue at 1. simpl. rewrite lookup_insert_eq. simpl. rewrite Em.
    eapply delete_not_elem; [apply (wf_queue _ Hwf)|exact Hw].
Qed.

Lemma wf_cond_enqueue key caller s s' :
  waits_nowhere s caller -> ~ joining s caller ->
  cond_enqueue key caller s = Ok s' -> wf s -> wf s'.
Proof.
  intros Hno Hj E Hwf. unfold cond_enqueue, modify, t in E. invert_ok. rename x into th. simpl in H0.
  assert (Ec : SCond.waiters (default (SCond.mk []) (conds s !! key)) = queue s (AtCond key)).
  { unfold queue. by destruct (conds s !! key). }
  eapply (wf_enter s _ caller th (AtCond key)); try done.
  - unfold queue at 1. simpl. rewrite lookup_insert_eq. simpl. rewrite Ec.
    destruct (contains caller (queue s (AtCond key))) eqn:Hc; [|done].
    apply contains_spec in Hc. by destruct (Hno (AtCond key)).
  - intros q Hq. destruct q as [k|k|k]; try done. unfold queue. simpl.
    rewrite lookup_insert_ne; [done|congruence].
  - intros q Hq. by destruct (Hno q).
Qed.

Lemma wf_cond_release_one key s s' : cond_release_one key s = Ok s' -> wf s -> wf s'.
Proof.
  unfold cond_release_one. destruct (conds s !! key) as [c|] eqn:Hc; [|by intros; simplify_eq].
  case_match; [|by intros; simplify_eq]. intros E Hwf.
  assert (Ec : SCond.waiters c = queue s (AtCond key)) by (unfold queue; by rewrite Hc).
  apply rbind_Ok in E as ([[w ws] s1] & Hp & E).
  apply pick_waiter_Ok in Hp as (idx & sch & Hw & -> & ->). rewrite Ec in Hw.
  eapply (wf_leave s _ s' (AtCond key) w); [by eapply list_elem_of_lookup_2| | | | | |exact E|exact Hwf].
  - done.
  - done.
  - intros q Hq. destruct q as [k|k|k]; try done. unfold queue. simpl.
    by rewrite lookup_insert_ne by congruence.
  - unfold queue at 1. simpl. rewrite lookup_insert_eq. simpl. rewrite Ec. apply sublist_delete.
  - unfold queue at 1. simpl. rewrite lookup_insert_eq. simpl. rewrite Ec.
    eapply delete_not_elem; [apply (wf_queue _ Hwf)|exact Hw].
Qed.

(** A whole queue is released. *)
Lemma wf_release s s1 s' p :
  info s1 = info s -> threads s1 = threads s ->
  (forall q, q <> p -> queue s1 q = queue s q) -> queue s1 p = [] ->
  unblock_all (queue s p) s1 = Ok s' -> wf s -> wf s'.
Proof.
  intros Ei Et Eq Ep E Hwf. eapply wf_unblock_all; [|exact E|].
  - intros w Hw q Hq. destruct (decide (q = p)) as [->|Hne].
    + rewrite Ep in Hq. by apply elem_of_nil in Hq.
    + rewrite Eq in Hq by done. by apply Hne, (wf_one_place _ Hwf q p w).
  - eapply wf_shrink, Hwf; [done|done|]. intros q. destruct (decide (q = p)) as [->|Hne].
    + rewrite Ep. apply sublist_nil_l.
    + by rewrite Eq.
Qed.

Lemma wf_cond_release_all key s s' : cond_release_all key s = Ok s' -> wf s -> wf s'.
Proof.
  unfold cond_release_all. destruct (conds s !! key) as [c|] eqn:Hc; [|by intros; simplify_eq].
  intros E Hwf. eapply (wf_release s _ s' (AtCond key)); [| | | | |exact Hwf].
  5: { unfold queue. rewrite Hc. exact E. }
  - done.
  - done.
  - intros q Hq. destruct q as [k|k|k]; try done. unfold queue. simpl.
    by rewrite lookup_delete_ne by congruence.
  - unfold queue. simpl. by rewrite lookup_delete_eq.
Qed.

(** The two cases of an arrival: the caller waits, or it is the last. *)
Lemma barrier_arrive_Ok key caller s b s' :
  barrier_arrive key caller s = Ok (Some (b, s')) ->
  exists br, barriers s !! key = Some br /\
    let ws := if contains caller (SBarrier.waiters br) then SBarrier.waiters br
              else SBarrier.waiters br ++ [caller] in
    if Z.of_nat (length ws) <? SBarrier.count br
    then b = false /\
         modify caller (Thread.set_blocking true)
           (set_barriers (<[key := SBarrier.set_waiters ws br]> (barriers s)) s) = Ok s'
    else b = true /\
         unblock_all ws (set_barriers (<[key := SBarrier.set_waiters [] br]> (barriers s)) s) = Ok s'.
Proof.
  unfold barrier_arrive, barrier_register. intros E. apply rbind_Ok in E as (o & Er & E).
  destruct (barriers s !! key) as [br|] eqn:Hb; [|by simplify_eq].
  exists br. split; [done|]. cbv zeta in *.
  set (ws := if contains _ _ then _ else _) in *.
  destruct (Z.of_nat (length ws) <? SBarrier.count br) eqn:Hc.
  - apply rbind_Ok in Er as (s1 & Hm & Er). simplify_eq.
    apply rbind_Ok in E as ([b' s2] & El & E). simplify_eq. rewrite Hm.
    assert (Hbr : barriers s1 !! key = Some (SBarrier.set_waiters ws br)).
    { unfold modify, t in Hm. invert_ok. simpl. by rewrite lookup_insert_eq. }
    unfold barrier_release in El. rewrite Hbr in El. simpl in El.
    rewrite (proj2 (Z.leb_gt _ _)) in El by lia. by simplify_eq.
  - simplify_eq. apply rbind_Ok in E as ([b' s2] & El & E). simplify_eq.
    unfold barrier_release in El. simpl in El. rewrite lookup_insert_eq in El. simpl in El.
    rewrite (proj2 (Z.leb_le _ _)) in El by lia. apply rbind_Ok in El as (s3 & Eu & El).
    simplify_eq. split; [done|]. by rewrite insert_insert_eq in Eu.
Qed.

Lemma queue_unblock_all ws s s' p : unblock_all ws s = Ok s' -> queue s' p = queue s p.
Proof.
  unfold unblock_all. revert s. induction ws as [|w ws IH]; intros s E; simpl in E; [by simplify_eq|].
  apply rbind_Ok in E as (s1 & Hm & E). rewrite (IH s1 E). by eapply queue_modify.
Qed.

Lemma unblock_all_app l1 l2 s :
  unblock_all (l1 ++ l2) s = let? s' := unblock_all l1 s in unblock_all l2 s'.
Proof. apply rfold_app. Qed.

Lemma unblock_all_single w s : unblock_all [w] s = modify w (Thread.set_blocking false) s.
Proof. unfold unblock_all. simpl. by destruct (modify _ _ _). Qed.

Lemma queue_set_barriers_ne key br s p :
  p <> AtBarrier key -> queue (set_barriers (<[key := br]> (barriers s)) s) p = queue s p.
Proof.
  destruct p as [k|k|k]; try done. intros Hne. unfold queue. simpl.
  rewrite lookup_insert_ne; [done|congruence].
Qed.

Lemma queue_set_barriers_eq key br s :
  queue (set_barriers (<[key := br]> (barriers s)) s) (AtBarrier key) = SBarrier.waiters br.
Proof. unfold queue. simpl. by rewrite lookup_insert_eq. Qed.

Lemma wf_barrier_arrive key caller s b s' :
  waits_nowhere s caller -> ~ joining s caller ->
  barrier_arrive key caller s = Ok (Some (b, s')) -> wf s -> wf s'.
Proof.
  intros Hno Hj E Hwf. apply barrier_arrive_Ok in E as (br & Hb & E). cbv zeta in E.
  assert (Eb : SBarrier.waiters br = queue s (AtBarrier key)) by (unfold queue; by rewrite Hb).
  assert (Hnc : contains caller (SBarrier.waiters br) = false).
  { apply contains_false. rewrite Eb. apply Hno. }
  rewrite Hnc in E. case_match; destruct E as [-> E].
  - unfold modify, t in E. invert_ok. rename x into th.
    eapply (wf_enter s _ caller th (AtBarrier key)); try done.
    + etrans; [apply queue_set_barriers_eq|]. simpl. by rewrite <- Eb, Hnc.
    + intros q Hq. etrans; [|by apply queue_set_barriers_ne]. by destruct q.
    + intros q Hq. by destruct (Hno q).
  - rewrite unblock_all_app in E. apply rbind_Ok in E as (s3 & E3 & E4).
    rewrite unblock_all_single in E4. rewrite Eb in E3.
    eapply wf_unblock; [|exact E4|].
    + intros q. rewrite (queue_unblock_all _ _ _ q E3).
      destruct (decide (q = AtBarrier key)) as [->|Hne].
      * rewrite queue_set_barriers_eq. by intros ?%elem_of_nil.
      * rewrite queue_set_barriers_ne by done. apply Hno.
    + eapply (wf_release s (set_barriers (<[key := SBarrier.set_waiters [] br]> (barriers s)) s) s3
              (AtBarrier key)); [done|done| | |exact E3|exact Hwf].
      * intros q Hq. by apply queue_set_barriers_ne.
      * apply queue_set_barriers_eq.
Qed.

Lemma wf_note_mutexattr_init attr s : wf s -> wf (note_mutexattr_init attr s).
Proof. by apply wf_same; [| |intros []]. Qed.
Lemma wf_note_mutexattr_settype attr kind s : wf s -> wf (note_mutexattr_settype attr kind s).
Proof. unfold note_mutexattr_settype. case_match; by apply wf_same; [| |intros []]. Qed.
Lemma wf_note_mutexattr_destroy attr s : wf s -> wf (note_mutexattr_destroy attr s).
Proof. by apply wf_same; [| |intros []]. Qed.
Lemma wf_note_mutex_init lock attr s : wf s -> wf (note_mutex_init lock attr s).
Proof. unfold note_mutex_init. case_match; by apply wf_same; [| |intros []]. Qed.
Lemma wf_note_mutex_destroy lock s : wf s -> wf (note_mutex_destroy lock s).
Proof.
  apply wf_shrink; [done|done|]. intros [k|k|k]; try done. unfold queue. simpl.
  destruct (decide (k = lock)) as [->|Hne].
  - rewrite lookup_delete_eq. apply sublist_nil_l.
  - by rewrite lookup_delete_ne.
Qed.

(** * All updates together *)

(** What the exported functions do to the state between two suspensions. *)
Inductive Update : Type :=
| Register (th : Thread)
| ExitThread (pt : PthreadT)
| JoinMark (target caller : PthreadT)
| Choose
| SetEvent (pt : PthreadT) (ev : Event)
| ClearEvent (pt : PthreadT)
| SetTid (pt : PthreadT) (tid : PidT)
| SetInWait (pt : PthreadT) (b : bool)
| StartupDone (pt : PthreadT)
| MutexAcquire (key : Z) (caller : PthreadT) (tid : PidT)
| MutexUnlockBy (key : Z) (caller : PthreadT)
| CondEnqueue (key : Z) (caller : PthreadT)
| CondReleaseOne (key : Z)
| CondReleaseAll (key : Z)
| BarrierNew (key count : Z)
| BarrierArrive (key : Z) (caller : PthreadT)
| NoteAttrInit (attr : Z)
| NoteAttrSettype (attr kind : Z)
| NoteAttrDestroy (attr : Z)
| NoteMutexIni (lock attr : Z)
| NoteMutexDestr (lock : Z)
| TakePending.

Definition apply_update (checks : bool) (u : Update) s : result (State Sch) :=
  match u with
  | Register th => Ok (add th s)
  | ExitThread pt => exit_thread pt s
  | JoinMark target caller => join_mark target caller s
  | Choose => let? r := choose s in Ok (snd r)
  | SetEvent pt ev => set_event pt ev s
  | ClearEvent pt => clear_event pt s
  | SetTid pt tid => modify pt (Thread.set_tid tid) s
  | SetInWait pt b => modify pt (Thread.set_in_wait b) s
  | StartupDone pt => modify pt (Thread.set_startup_done true) s
  | MutexAcquire key caller tid => let? r := mutex_acquire checks key caller tid s in Ok (snd r)
  | MutexUnlockBy key caller => let? r := mutex_unlock checks key caller s in Ok (snd r)
  | CondEnqueue key caller => cond_enqueue key caller s
  | CondReleaseOne key => cond_release_one key s
  | CondReleaseAll key => cond_release_all key s
  | BarrierNew key count => Ok (set_barriers (<[key := SBarrier.mk count []]> (barriers s)) s)
  | BarrierArrive key caller =>
      let? o := barrier_arrive key caller s in
      Ok (match o with Some r => snd r | None => s end)
  | NoteAttrInit attr => Ok (note_mutexattr_init attr s)
  | NoteAttrSettype attr kind => Ok (note_mutexattr_settype attr kind s)
  | NoteAttrDestroy attr => Ok (note_mutexattr_destroy attr s)
  | NoteMutexIni lock attr => Ok (note_mutex_init lock attr s)
  | NoteMutexDestr lock => Ok (note_mutex_destroy lock s)
  | TakePending => Ok (set_pending_child None s)
  end.

(** What the thread that makes the update guarantees: it is not waiting itself
    (a thread that retries a mutex may still be in its queue), a new thread has a
    fresh id, and a thread exits once. *)
Definition may_update (u : Update) s : Prop :=
  match u with
  | Register th =>
      pthread th ∉ threads s /\ waits_nowhere s (pthread th) /\ is_exited th = false /\ joiner th = None
  | ExitThread pt =>
      waits_nowhere s pt /\ forall th, info s !! pt = Some th -> is_exited th = false
  | JoinMark _ caller => waits_nowhere s caller
  | MutexAcquire key caller _ => waits_only_at s caller (AtMutex key) /\ ~ joining s caller
  | CondEnqueue _ caller | BarrierArrive _ caller => waits_nowhere s caller /\ ~ joining s caller
  | _ => True
  end.

(** C6. Every update keeps the invariant when it is made the way the runtime makes it: a
    thread is registered, not exited and without joiner, under an id that is not
    registered and waits nowhere; a thread that exits waits nowhere and exits once; the
    caller that marks a join waits nowhere; one that waits on a condition variable or
    arrives at a barrier waits nowhere and is not the recorded joiner of a live thread;
    one that acquires a mutex waits at most for that mutex and is no such joiner. *)
Theorem update_wf checks u s s' :
  wf s -> may_update u s -> apply_update checks u s = Ok s' -> wf s'.
Proof.
  intros Hwf Hmay E.
  assert (Htouch : forall pt f, (forall th, is_exited (f th) = is_exited th /\ joiner (f th) = joiner th /\
              (is_blocking th = true -> is_blocking (f th) = true \/ waits_nowhere s pt)) ->
            modify pt f s = Ok s' -> wf s') by (intros; by eapply wf_modify).
  destruct u; simpl in Hmay, E;
    try (eapply Htouch; [|exact E]; intros t0; repeat split; by left);
    try (injection E as <-).
  - destruct Hmay as (? & ? & ? & ?). by apply wf_add.
  - destruct Hmay. by eapply wf_exit_thread.
  - by eapply wf_join_mark.
  - apply rbind_Ok in E as ([o s1] & E & E1). simplify_eq. by eapply wf_choose.
  - destruct Hmay. apply rbind_Ok in E as ([b s1] & E & E1). simplify_eq. by eapply wf_mutex_acquire.
  - apply rbind_Ok in E as ([r s1] & E & E1). simplify_eq. by eapply wf_mutex_unlock.
  - destruct Hmay. by eapply wf_cond_enqueue.
  - by eapply wf_cond_release_one.
  - by eapply wf_cond_release_all.
  - eapply wf_shrink, Hwf; [done|done|]. intros q. destruct (decide (q = AtBarrier key)) as [->|Hne].
    + rewrite queue_set_barriers_eq. apply sublist_nil_l.
    + by rewrite queue_set_barriers_ne.
  - destruct Hmay. apply rbind_Ok in E as (o & E & E1). simplify_eq. destruct o as [[b s1]|]; [|done].
    by eapply wf_barrier_arrive.
  - by apply wf_note_mutexattr_init.
  - by apply wf_note_mutexattr_settype.
  - by apply wf_note_mutexattr_destroy.
  - by apply wf_note_mutex_init.
  - by apply wf_note_mutex_destroy.
  - by eapply wf_same, Hwf; [| |intros []].
Qed.
End WellFormed.
