(* ===== verification/StateSpecs.v ===== *)
(** What the operations of [State] do, on every branch: the choice of a thread,
    mutexes, condition variables, barriers.  In a well-formed state none of them
    panics. *)
From S2P Require Import Prelude Event Scheduler State WellFormed.
Import StateOps.

Section Specs.
Context {Sch : Type} `{SchedulerLaws Sch}.
Implicit Types s : State Sch.

Lemma modify_spec pt f s th :
  info s !! pt = Some th -> modify pt f s = Ok (set_info (<[pt := f th]> (info s)) s).
Proof. intros E. unfold modify, t. by rewrite E. Qed.

Lemma set_mutexes_twice x y s : set_mutexes x (set_mutexes y s) = set_mutexes x s.
Proof. done. Qed.

(** * Choosing a thread *)

(** The choice, by the laws of the scheduler. *)
Lemma choose_cases s :
  wf s ->
  exists o s', StateOps.choose s = Ok (o, s') /\ info s' = info s /\ threads s' = threads s /\
    match o with
    | Some i => exists pt th, threads s !! i = Some pt /\ info s !! pt = Some th /\
                              Thread.eligible th = true
    | None => forall pt th, pt ∈ threads s -> info s !! pt = Some th -> Thread.eligible th = false
    end.
Proof.
  intros Hwf. set (flag := fun pt => match info s !! pt with
    | Some th => is_blocking th || negb (startup_done th) || negb (is_in_rsched_wait th)
    | None => true end).
  assert (E : rmap (fun pt => let? th := index pt s in
      Ok (is_blocking th || negb (startup_done th) || negb (is_in_rsched_wait th))) (threads s)
      = Ok (flag <$> threads s)).
  { apply rmap_Ok. intros pt Hpt. destruct (wf_known _ Hwf pt Hpt) as [th Hth].
    unfold index, flag. by rewrite Hth. }
  unfold StateOps.choose. rewrite E. cbn [rbind].
  destruct (choose_total (scheduler s) (flag <$> threads s)) as (o & sch & Ec). rewrite Ec.
  exists o, (set_scheduler sch s). repeat (split; [done|]). destruct o as [i|].
  - apply choose_sound in Ec. rewrite list_lookup_fmap in Ec.
    destruct (threads s !! i) as [pt|] eqn:Hpt; simpl in Ec; [|done]. injection Ec as Ec.
    destruct (wf_known _ Hwf pt) as [th Hth]; [by eapply list_elem_of_lookup_2|].
    exists pt, th. split; [done|]. split; [done|]. unfold flag in Ec. rewrite Hth in Ec.
    unfold Thread.eligible. by rewrite Ec.
  - apply choose_complete in Ec. intros pt th Hpt Hth.
    rewrite Forall_forall in Ec. assert (Hf : true = flag pt).
    { apply Ec. apply list_elem_of_fmap. eauto. }
    unfold flag in Hf. rewrite Hth in Hf. unfold Thread.eligible. by rewrite <- Hf.
Qed.

(** C13. The choice never panics; it is an eligible thread, if there is one. *)
Theorem state_choose_spec s :
  wf s ->
  exists o s', StateOps.choose s = Ok (o, s') /\ info s' = info s /\ threads s' = threads s /\
    match o with
    | Some i => exists pt th, threads s !! i = Some pt /\ info s !! pt = Some th /\
                              Thread.eligible th = true
    | None => forall pt th, pt ∈ threads s -> info s !! pt = Some th -> Thread.eligible th = false
    end.
Proof. apply choose_cases. Qed.

(** Picking among waiters never panics. *)
Lemma pick_waiter_total msg ws s :
  ws <> [] -> exists idx w sch, ws !! idx = Some w /\
    pick_waiter msg ws s = Ok (w, delete idx ws, set_scheduler sch s).
Proof.
  intros Hne. unfold pick_waiter.
  destruct (choose_total (scheduler s) (replicate (length ws) false)) as (o & sch & Ec).
  rewrite Ec. simpl. destruct o as [idx|].
  - apply choose_sound, lookup_replicate in Ec as [_ Hlt].
    destruct (vec_remove_lt ws idx Hlt) as (w & Hw & Ev). exists idx, w, sch. split; [done|].
    simpl. by rewrite Ev.
  - apply choose_complete in Ec. destruct ws as [|x ws]; [done|]. simpl in Ec.
    by apply Forall_cons_1 in Ec as [? _].
Qed.

(** * Unlocking a mutex *)

(** The outcomes of [State::mutex_unlock], with the new state. *)
Inductive unlocked (key : Z) (th : Thread) (s : State Sch) : Z -> State Sch -> Prop :=
| unlocked_unknown :
    mutexes s !! key = None -> unlocked key th s EINVAL s
| unlocked_not_owner m :
    mutexes s !! key = Some m -> SMutex.owner_tid m <> tid th -> unlocked key th s EPERM s
| unlocked_nested m :
    mutexes s !! key = Some m -> SMutex.owner_tid m = tid th -> 1 < SMutex.recursive_count m ->
    unlocked key th s 0
      (set_mutexes (<[key := SMutex.set_count (SMutex.recursive_count m - 1) m]> (mutexes s)) s)
| unlocked_free m :
    mutexes s !! key = Some m -> SMutex.owner_tid m = tid th -> SMutex.recursive_count m = 1 ->
    SMutex.waiters m = [] -> unlocked key th s 0 (set_mutexes (delete key (mutexes s)) s)
| unlocked_handover m idx w wt sch :
    mutexes s !! key = Some m -> SMutex.owner_tid m = tid th -> SMutex.recursive_count m = 1 ->
    SMutex.waiters m !! idx = Some w -> info s !! w = Some wt ->
    unlocked key th s 0
      (set_info (<[w := Thread.set_blocking false wt]> (info s))
        (set_mutexes (<[key := SMutex.mk (tid wt) 0 (delete idx (SMutex.waiters m))]> (mutexes s))
          (set_scheduler sch s))).

(** C9. [State::mutex_unlock] does one of these, and does not panic as long as an
    owned mutex has been counted. *)
Theorem mutex_unlock_spec checks key caller s th :
  wf s -> info s !! caller = Some th ->
  (forall m, mutexes s !! key = Some m -> SMutex.owner_tid m = tid th -> 1 <= SMutex.recursive_count m) ->
  exists r s', mutex_unlock checks key caller s = Ok (r, s') /\ unlocked key th s r s'.
Proof.
  intros Hwf Hth Hcount. unfold mutex_unlock, index. rewrite Hth. simpl.
  destruct (mutexes s !! key) as [m|] eqn:Hm; [|by eexists _, _; split; [|constructor]].
  destruct (Z.eqb_spec (SMutex.owner_tid m) (tid th)) as [Ho|Ho]; simpl;
    [|by eexists _, _; split; [|by econstructor]].
  specialize (Hcount m eq_refl Ho). unfold sub_u32. rewrite (proj2 (Z.leb_le _ _)) by done. simpl.
  destruct (Z.ltb_spec 0 (SMutex.recursive_count m - 1)) as [Hc|Hc].
  { eexists _, _. split; [done|]. eapply unlocked_nested; [done|done|lia]. }
  assert (E1 : SMutex.recursive_count m = 1) by lia.
  replace (SMutex.recursive_count m - 1) with 0 by lia.
  destruct (SMutex.waiters m) as [|x ws] eqn:Hws.
  { eexists _, _. split; [done|]. simpl.
    rewrite set_mutexes_twice, delete_insert_eq. by eapply unlocked_free. }
  simpl length. cbn [Nat.eqb].
  destruct (pick_waiter_total "rsched: non-empty waiter list" (x :: ws)
    (set_mutexes (<[key := SMutex.set_count 0 m]> (mutexes s)) s))
    as (idx & w & sch & Hw & Ep); [done|]. rewrite Ep. cbn [rbind].
  assert (Hq : w ∈ queue s (AtMutex key)).
  { unfold queue. rewrite Hm. simpl. rewrite Hws. by eapply list_elem_of_lookup_2. }
  destruct (wf_waiting _ Hwf _ _ Hq) as (wt & Hwt & _). simpl. rewrite Hwt. simpl.
  rewrite (modify_spec w _ _ wt) by done. eexists _, _. split; [done|]. simpl.
  rewrite insert_insert_eq. rewrite <- Hws in Hw |- *.
  exact (unlocked_handover key th s m idx w wt sch Hm Ho E1 Hw Hwt).
Qed.

(** * Locking *)

(** A free mutex, or one the caller owns, is taken at once. *)
Lemma mutex_acquire_own checks key caller tid s m :
  default (SMutex.mk tid 0 []) (mutexes s !! key) = m -> SMutex.owner_tid m = tid ->
  0 <= SMutex.recursive_count m < U32_MAX ->
  mutex_acquire checks key caller tid s =
    Ok (true, set_mutexes (<[key := SMutex.set_count (SMutex.recursive_count m + 1) m]> (mutexes s)) s).
Proof.
  intros <- Ho Hc. unfold mutex_acquire. rewrite Ho, Z.eqb_refl. unfold add_u32.
  rewrite (proj2 (Z.ltb_lt _ _)); [done|]. unfold U32_MAX in Hc. lia.
Qed.

Fixpoint lock_times (checks : bool) (n : nat) (key : Z) (caller : PthreadT) (tid : PidT) s
  : result (State Sch) :=
  match n with
  | O => Ok s
  | S n' => let? (taken, s1) := mutex_acquire checks key caller tid s in
            if taken : bool then lock_times checks n' key caller tid s1 else Panic "blocked"
  end.

Fixpoint unlock_times (checks : bool) (n : nat) (key : Z) (caller : PthreadT) s
  : result (list Z * State Sch) :=
  match n with
  | O => Ok ([], s)
  | S n' => let? (r, s1) := mutex_unlock checks key caller s in
            let? (rs, s2) := unlock_times checks n' key caller s1 in Ok (r :: rs, s2)
  end.

Lemma lock_times_owned checks n key caller tid s c :
  mutexes s !! key = Some (SMutex.mk tid c []) -> 0 <= c -> c + Z.of_nat n <= U32_MAX ->
  lock_times checks n key caller tid s =
    Ok (set_mutexes (<[key := SMutex.mk tid (c + Z.of_nat n) []]> (mutexes s)) s).
Proof.
  revert s c. induction n as [|n IH]; intros s c Hm Hc Hn; cbn [lock_times].
  - rewrite Z.add_0_r, insert_id by done. by destruct s.
  - rewrite (mutex_acquire_own _ _ _ _ _ (SMutex.mk tid c [])); [|by rewrite Hm|done|simpl; lia].
    cbn [rbind]. rewrite (IH _ (c + 1)); [|simpl; by rewrite lookup_insert_eq|lia|lia].
    simpl. rewrite set_mutexes_twice, insert_insert_eq. do 4 f_equal. lia.
Qed.

Lemma unlock_times_S checks n key caller s :
  unlock_times checks (S n) key caller s =
  let? (r, s1) := mutex_unlock checks key caller s in
  let? (rs, s2) := unlock_times checks n key caller s1 in Ok (r :: rs, s2).
Proof. done. Qed.

Lemma unlock_times_owned checks n key caller th s :
  info s !! caller = Some th ->
  mutexes s !! key = Some (SMutex.mk (tid th) (Z.of_nat (S n)) []) ->
  unlock_times checks (S n) key caller s =
    Ok (replicate (S n) 0, set_mutexes (delete key (mutexes s)) s).
Proof.
  revert s. induction n as [|n IH]; intros s Hth Hm; rewrite unlock_times_S.
  - unfold mutex_unlock, index. rewrite Hth, Hm. simpl. rewrite Z.eqb_refl. simpl.
    by rewrite delete_insert_eq.
  - unfold mutex_unlock at 1, index. rewrite Hth, Hm. cbn [rbind expect]. simpl SMutex.owner_tid.
    rewrite Z.eqb_refl. cbn [negb]. unfold sub_u32.
    rewrite (proj2 (Z.leb_le _ _)) by (simpl SMutex.recursive_count; lia). cbn [rbind].
    rewrite (proj2 (Z.ltb_lt _ _)) by (simpl SMutex.recursive_count; lia). cbn [rbind].
    rewrite (IH (set_mutexes _ s)); [|done|].
    + simpl. by rewrite delete_insert_eq.
    + simpl. rewrite lookup_insert_eq. unfold SMutex.set_count. simpl. do 2 f_equal. lia.
Qed.

(** C17. A thread that takes a free mutex [n] times and unlocks it [n] times succeeds
    each time, owns it in between, and leaves the state as it was. *)
Theorem nested_locking checks n key caller th s :
  info s !! caller = Some th -> mutexes s !! key = None -> Z.of_nat (S n) <= U32_MAX ->
  exists s1, lock_times checks (S n) key caller (tid th) s = Ok s1 /\
    mutexes s1 !! key = Some (SMutex.mk (tid th) (Z.of_nat (S n)) []) /\
    unlock_times checks (S n) key caller s1 = Ok (replicate (S n) 0, s).
Proof.
  intros Hth Hm Hn. exists (set_mutexes (<[key := SMutex.mk (tid th) (Z.of_nat (S n)) []]> (mutexes s)) s).
  split; [|split].
  - cbn [lock_times]. rewrite (mutex_acquire_own _ _ _ _ _ (SMutex.mk (tid th) 0 []));
      [|by rewrite Hm|done|simpl; unfold U32_MAX in *; lia].
    cbn [rbind]. rewrite (lock_times_owned _ _ _ _ _ _ 1); [|simpl; by rewrite lookup_insert_eq|lia|lia].
    simpl. rewrite set_mutexes_twice, insert_insert_eq. do 4 f_equal. lia.
  - simpl. by rewrite lookup_insert_eq.
  - rewrite (unlock_times_owned _ _ _ _ th); [|done|simpl; by rewrite lookup_insert_eq].
    simpl. rewrite set_mutexes_twice, delete_insert_id by done. by destruct s.
Qed.

(** C38. The recursion count is a [u32]: the 2^32nd acquisition panics in a build with
    overflow checks; without them the count wraps to 0, and the next unlock wraps
    it back instead of releasing the mutex. *)
Theorem recursion_limit (checks : bool) key caller s th :
  info s !! caller = Some th ->
  mutexes s !! key = Some (SMutex.mk (tid th) U32_MAX []) ->
  if checks then mutex_acquire checks key caller (tid th) s = Panic "attempt to add with overflow"
  else exists s1, mutex_acquire checks key caller (tid th) s = Ok (true, s1) /\
         mutexes s1 !! key = Some (SMutex.mk (tid th) 0 []) /\
         mutex_unlock checks key caller s1 = Ok (0, s).
Proof.
  intros Hth Hm. unfold mutex_acquire. rewrite Hm. simpl default.
  simpl SMutex.owner_tid. rewrite Z.eqb_refl. destruct checks; [done|].
  eexists. split; [done|]. simpl. rewrite lookup_insert_eq. split; [done|].
  unfold mutex_unlock, index. simpl. rewrite Hth, lookup_insert_eq. simpl.
  rewrite Z.eqb_refl. simpl. rewrite set_mutexes_twice, insert_insert_eq.
  do 2 f_equal. unfold SMutex.set_count. simpl.
  change (wrap32 (wrap32 (U32_MAX + 1) - 1)) with U32_MAX. rewrite insert_id by done. by destruct s.
Qed.

(** * Releasing waiters *)

(** [s'] is [s] with the threads of [ws] unblocked. *)
Definition unblocked_in (ws : list PthreadT) s s' : Prop :=
  s' = set_info (info s') s /\
  forall u, info s' !! u = if decide (u ∈ ws) then Thread.set_blocking false <$> info s !! u
                          else info s !! u.

Lemma unblock_all_spec ws s :
  (forall w, w ∈ ws -> is_Some (info s !! w)) ->
  exists s', unblock_all ws s = Ok s' /\ unblocked_in ws s s'.
Proof.
  unfold unblock_all. revert s. induction ws as [|w ws IH]; intros s Hk; simpl.
  - exists s. split; [done|]. split; [by destruct s|]. done.
  - destruct (Hk w) as [th Hth]; [by left|]. rewrite (modify_spec w _ _ th) by done. simpl.
    destruct (IH (set_info (<[w := Thread.set_blocking false th]> (info s)) s)) as (s' & E & Es & Hi).
    { intros x Hx. simpl. rewrite lookup_insert. case_decide; [done|]. apply Hk. by right. }
    exists s'. split; [exact E|]. split; [exact Es|]. intros u. rewrite Hi. simpl.
    rewrite lookup_insert. repeat case_decide; subst; try set_solver.
    + by rewrite Hth.
    + by rewrite Hth.
Qed.

Lemma cond_signal_spec key s :
  wf s ->
  exists s', cond_release_one key s = Ok s' /\
    (queue s (AtCond key) = [] /\ s' = s \/
     exists idx w sch, queue s (AtCond key) !! idx = Some w /\
       unblocked_in [w] (set_conds (<[key := SCond.mk (delete idx (queue s (AtCond key)))]> (conds s))
                          (set_scheduler sch s)) s').
Proof.
  intros Hwf. unfold cond_release_one, queue. destruct (conds s !! key) as [c|] eqn:Hc; simpl; [|eauto].
  destruct (SCond.waiters c) as [|x ws] eqn:Hw; [eauto|].
  destruct (pick_waiter_total "rsched: non-empty cond waiter list" (x :: ws) s)
    as (idx & w & sch & Hi & Ep); [done|].
  rewrite (proj2 (Nat.ltb_lt _ _)) by (simpl; lia). rewrite Ep. cbn [rbind].
  destruct (unblock_all_spec [w] (set_conds (<[key := SCond.mk (delete idx (x :: ws))]> (conds s))
    (set_scheduler sch s))) as (s' & E & Hs).
  { intros y ->%list_elem_of_singleton. destruct (wf_waiting _ Hwf (AtCond key) w) as (th & Hth & _).
    - unfold queue. rewrite Hc. simpl. rewrite Hw. by eapply list_elem_of_lookup_2.
    - simpl. by rewrite Hth. }
  rewrite unblock_all_single in E. exists s'. split; [exact E|]. right. by exists idx, w, sch.
Qed.

Lemma cond_broadcast_spec key s :
  wf s ->
  exists s', cond_release_all key s = Ok s' /\
    unblocked_in (queue s (AtCond key)) (set_conds (delete key (conds s)) s) s'.
Proof.
  intros Hwf. unfold cond_release_all. destruct (conds s !! key) as [c|] eqn:Hc.
  - assert (Eq : queue s (AtCond key) = SCond.waiters c) by (unfold queue; by rewrite Hc). rewrite Eq.
    apply unblock_all_spec. intros w Hw. simpl. rewrite <- Eq in Hw.
    destruct (wf_waiting _ Hwf _ _ Hw) as (th & Hth & _). by rewrite Hth.
  - exists s. split; [done|]. unfold queue. rewrite Hc. simpl. rewrite delete_id by done.
    split; [by destruct s|done].
Qed.

(** C16. Releasing the waiters of a condition variable never fails.  [pthread_cond_signal]:
    exactly one waiter is unblocked and leaves the queue, or there is none and nothing
    happens.  [pthread_cond_broadcast]: every waiter is unblocked, nobody else, and
    the queue is gone. *)
Theorem cond_release_spec key s :
  wf s ->
  (exists s', cond_release_one key s = Ok s' /\
    (queue s (AtCond key) = [] /\ s' = s \/
     exists idx w sch, queue s (AtCond key) !! idx = Some w /\
       unblocked_in [w] (set_conds (<[key := SCond.mk (delete idx (queue s (AtCond key)))]> (conds s))
                          (set_scheduler sch s)) s')) /\
  (exists s', cond_release_all key s = Ok s' /\
    unblocked_in (queue s (AtCond key)) (set_conds (delete key (conds s)) s) s').
Proof. intros Hwf. split; [by apply cond_signal_spec|by apply cond_broadcast_spec]. Qed.

(** * Barriers *)

(** Threads arrive one after the other at a barrier that exists. *)
Fixpoint arrive_all (key : Z) (cs : list PthreadT) s : result (list bool * State Sch) :=
  match cs with
  | [] => Ok ([], s)
  | c :: cs' =>
      let? o := barrier_arrive key c s in
      let? (b, s1) := expect o "unknown barrier" in
      let? (bs, s2) := arrive_all key cs' s1 in Ok (b :: bs, s2)
  end.

(** An arrival, in the two cases. *)
Lemma barrier_arrive_waits key c s n ws th :
  barriers s !! key = Some (SBarrier.mk n ws) -> c ∉ ws -> info s !! c = Some th ->
  Z.of_nat (length ws) + 1 < n ->
  barrier_arrive key c s =
    Ok (Some (false, set_info (<[c := Thread.set_blocking true th]> (info s))
                       (set_barriers (<[key := SBarrier.mk n (ws ++ [c])]> (barriers s)) s))).
Proof.
  intros Hb Hc Hth Hn. unfold barrier_arrive, barrier_register. rewrite Hb. simpl.
  rewrite (proj2 (contains_false c ws)) by done.
  assert (El : Z.of_nat (length (ws ++ [c])) = Z.of_nat (length ws) + 1)
    by (rewrite length_app; simpl; lia).
  rewrite El, (proj2 (Z.ltb_lt _ _)) by lia. rewrite (modify_spec c _ _ th) by done. simpl.
  unfold barrier_release. simpl. rewrite lookup_insert_eq. simpl.
  by rewrite El, (proj2 (Z.leb_gt _ _)) by lia.
Qed.

Lemma barrier_arrive_last key c s n ws :
  barriers s !! key = Some (SBarrier.mk n ws) -> c ∉ ws ->
  (forall w, w ∈ ws ++ [c] -> is_Some (info s !! w)) -> Z.of_nat (length ws) + 1 = n ->
  exists s', barrier_arrive key c s = Ok (Some (true, s')) /\
    unblocked_in (ws ++ [c]) (set_barriers (<[key := SBarrier.mk n []]> (barriers s)) s) s'.
Proof.
  intros Hb Hc Hk Hn. unfold barrier_arrive, barrier_register. rewrite Hb. simpl.
  rewrite (proj2 (contains_false c ws)) by done.
  assert (El : Z.of_nat (length (ws ++ [c])) = n) by (rewrite length_app; simpl; lia).
  rewrite El, Z.ltb_irrefl. simpl. unfold barrier_release. simpl. rewrite lookup_insert_eq. simpl.
  rewrite El, Z.leb_refl. rewrite insert_insert_eq.
  destruct (unblock_all_spec (ws ++ [c]) (set_barriers (<[key := SBarrier.mk n []]> (barriers s)) s))
    as (s' & E & Hs); [exact Hk|].
  exists s'. split; [|exact Hs]. unfold SBarrier.set_waiters. simpl.
  change (set_barriers ?x (set_barriers ?y s)) with (set_barriers x s). by rewrite E.
Qed.

Lemma arrive_all_from key cs s n ws :
  barriers s !! key = Some (SBarrier.mk n ws) -> NoDup (ws ++ cs) -> cs <> [] ->
  Z.of_nat (length (ws ++ cs)) = n -> (forall w, w ∈ ws ++ cs -> is_Some (info s !! w)) ->
  exists s', arrive_all key cs s = Ok (replicate (length cs - 1) false ++ [true], s') /\
    barriers s' = <[key := SBarrier.mk n []]> (barriers s) /\
    forall u, info s' !! u = if decide (u ∈ ws ++ cs) then Thread.set_blocking false <$> info s !! u
                            else info s !! u.
Proof.
  revert s ws. induction cs as [|c cs IH]; intros s ws Hb Hnd Hne Hn Hk; [done|].
  assert (Hc : c ∉ ws).
  { apply NoDup_app in Hnd as (_ & Hd & _). intros Hin. apply (Hd c Hin). by left. }
  assert (Eapp : ws ++ c :: cs = (ws ++ [c]) ++ cs) by by rewrite <- app_assoc.
  rewrite Eapp in *. destruct cs as [|c' cs].
  - rewrite app_nil_r in *. rewrite length_app in Hn. simpl in Hn.
    destruct (barrier_arrive_last key c s n ws Hb Hc Hk) as (s' & E & Es & Hi); [lia|].
    exists s'. cbn [arrive_all]. rewrite E. simpl. split; [done|]. split; [by rewrite Es|exact Hi].
  - destruct (Hk c) as [th Hth]; [rewrite !elem_of_app, list_elem_of_singleton; auto|].
    cbn [arrive_all]. rewrite length_app in Hn. simpl in Hn. rewrite length_app in Hn. simpl in Hn.
    rewrite (barrier_arrive_waits key c s n ws th) by (done || lia). cbn [expect rbind].
    set (s1 := set_info _ _).
    destruct (IH s1 (ws ++ [c])) as (s' & E & Eb & Hi).
    + subst s1. simpl. by rewrite lookup_insert_eq.
    + exact Hnd.
    + done.
    + rewrite !length_app. simpl. lia.
    + intros w Hw. subst s1. simpl. rewrite lookup_insert. case_decide; [done|]. by apply Hk.
    + exists s'. cbn [arrive_all] in E. rewrite E. cbn [rbind].
      replace (length (c :: c' :: cs) - 1)%nat with (S (length (c' :: cs) - 1))%nat by (simpl; lia).
      split; [done|]. split.
      * rewrite Eb. subst s1. simpl. by rewrite insert_insert_eq.
      * intros u. rewrite Hi. subst s1. simpl. rewrite lookup_insert.
        destruct (decide (c = u)) as [->|Hne']; [|done].
        rewrite !decide_True by (rewrite !elem_of_app, list_elem_of_singleton; auto).
        by rewrite Hth.
Qed.

(** As long as the barrier is not full every arrival waits. *)
Lemma arrivals_wait key pre s n ws :
  barriers s !! key = Some (SBarrier.mk n ws) -> NoDup (ws ++ pre) ->
  Z.of_nat (length (ws ++ pre)) < n -> (forall w, w ∈ pre -> is_Some (info s !! w)) ->
  exists s1, arrive_all key pre s = Ok (replicate (length pre) false, s1) /\
    barriers s1 = <[key := SBarrier.mk n (ws ++ pre)]> (barriers s) /\
    forall u, info s1 !! u = if decide (u ∈ pre) then Thread.set_blocking true <$> info s !! u else info s !! u.
Proof.
  revert s ws. induction pre as [|c pre IH]; intros s ws Hb Hnd Hn Hk.
  - exists s. rewrite app_nil_r, insert_id by done. repeat (split; [done|]). done.
  - assert (Hc : c ∉ ws ++ pre).
    { rewrite Permutation_app_comm in Hnd. simpl in Hnd. apply NoDup_cons in Hnd as [Hc _].
      intros Hin. apply Hc. rewrite elem_of_app in *. tauto. }
    assert (Eapp : ws ++ c :: pre = (ws ++ [c]) ++ pre) by by rewrite <- app_assoc.
    rewrite Eapp in *. destruct (Hk c) as [th Hth]; [by left|]. cbn [arrive_all].
    rewrite (barrier_arrive_waits key c s n ws th);
      [|done|intros ?; apply Hc, elem_of_app; by left|done|rewrite !length_app in Hn; simpl in Hn; lia].
    cbn [expect rbind]. set (s0 := set_info _ _).
    destruct (IH s0 (ws ++ [c])) as (s1 & E & Eb & Hi).
    + subst s0. simpl. by rewrite lookup_insert_eq.
    + done.
    + done.
    + intros w Hw. subst s0. simpl. rewrite lookup_insert. case_decide; [done|]. apply Hk. by right.
    + exists s1. rewrite E. split; [done|]. split.
      * rewrite Eb. subst s0. simpl. by rewrite insert_insert_eq.
      * intros u. rewrite Hi. subst s0. simpl. rewrite lookup_insert.
        destruct (decide (c = u)) as [->|Hne].
        -- rewrite (decide_True (P := u ∈ u :: pre)) by by left.
           rewrite decide_False by (intros ?; apply Hc, elem_of_app; by right). by rewrite Hth.
        -- destruct (decide (u ∈ pre)); [by rewrite decide_True by (by right)|].
           rewrite decide_False; [done|]. rewrite elem_of_cons. by intros [?|?].
Qed.

(** C15. A round of a barrier for [n] threads.  Every arrival but the last returns false and
    leaves the barrier with the threads that arrived so far in its queue, each of them
    marked blocking, nobody else changed; the last one (and no other) is the serial
    thread; then every one of them is unblocked, nobody else changed, and the barrier
    is as it was before. *)
Theorem barrier_round key cs s n :
  barriers s !! key = Some (SBarrier.mk n []) -> NoDup cs -> cs <> [] ->
  Z.of_nat (length cs) = n -> (forall c, c ∈ cs -> is_Some (info s !! c)) ->
  (forall pre post, cs = pre ++ post -> post <> [] ->
    exists s1, arrive_all key pre s = Ok (replicate (length pre) false, s1) /\
      barriers s1 = <[key := SBarrier.mk n pre]> (barriers s) /\
      forall u, info s1 !! u = if decide (u ∈ pre) then Thread.set_blocking true <$> info s !! u
                              else info s !! u) /\
  exists s', arrive_all key cs s = Ok (replicate (length cs - 1) false ++ [true], s') /\
    barriers s' = barriers s /\
    forall u, info s' !! u = if decide (u ∈ cs) then Thread.set_blocking false <$> info s !! u
                            else info s !! u.
Proof.
  intros Hb Hnd Hne Hn Hk. split.
  - intros pre post -> Hpost. apply (arrivals_wait key pre s n []); simpl; [done| | |].
    + by apply NoDup_app in Hnd as (? & _).
    + rewrite length_app in Hn. destruct post; [done|]. simpl in Hn. lia.
    + intros w Hw. apply Hk, elem_of_app. by left.
  - destruct (arrive_all_from key cs s n [] Hb Hnd Hne Hn Hk) as (s' & E & Eb & Hi).
    exists s'. split; [exact E|]. split; [by rewrite Eb, insert_id|exact Hi].
Qed.
End Specs.

(** * A concrete state

    Two threads; thread 1 holds the mutex 5, for which thread 2 waits. *)
Definition thread_1 : Thread := Thread.set_startup_done true (Thread.new_with_tid 1 11).
Definition thread_2 : Thread := Thread.set_in_wait true (Thread.set_startup_done true (Thread.new_with_tid 2 12)).
Definition two_threads : State RandomWalk.t := add thread_2 (add thread_1 (empty (RandomWalk.new 7))).

Lemma two_threads_wf : wf two_threads.
Proof.
  apply wf_add; try done; [set_solver|by intros [] []%elem_of_nil|].
  apply wf_add; try done; [set_solver|by intros [] []%elem_of_nil|apply empty_wf].
Qed.

Lemma two_threads_waits_nowhere pt : waits_nowhere two_threads pt.
Proof. by intros [] []%elem_of_nil. Qed.

Lemma two_threads_joining pt : ~ joining two_threads pt.
Proof.
  intros (x & th & Hx & Hj & _). revert Hx. unfold two_threads, add. simpl.
  rewrite !lookup_insert, lookup_empty. repeat case_decide; intros; simplify_eq.
Qed.

Definition after (r : result (bool * State RandomWalk.t)) : State RandomWalk.t :=
  match r with Ok (_, s) => s | Panic _ => two_threads end.
Definition contended : State RandomWalk.t :=
  after (mutex_acquire true 5 2 12 (after (mutex_acquire true 5 1 11 two_threads))).
Definition enqueued : State RandomWalk.t :=
  match cond_enqueue 6 2 two_threads with Ok s => s | Panic _ => two_threads end.

Lemma contended_wf : wf contended.
Proof.
  assert (E1 : mutex_acquire true 5 1 11 two_threads
               = Ok (true, after (mutex_acquire true 5 1 11 two_threads))) by (vm_compute; reflexivity).
  assert (E2 : mutex_acquire true 5 2 12 (after (mutex_acquire true 5 1 11 two_threads))
               = Ok (false, contended)) by (vm_compute; reflexivity).
  assert (W1 : wf (after (mutex_acquire true 5 1 11 two_threads))).
  { eapply wf_mutex_acquire; [| |exact E1|exact two_threads_wf].
    - intros q Hq. by apply two_threads_waits_nowhere in Hq.
    - apply two_threads_joining. }
  eapply wf_mutex_acquire; [| |exact E2|exact W1].
  - assert (Es : after (mutex_acquire true 5 1 11 two_threads)
                 = set_mutexes {[5 := SMutex.mk 11 1 []]} two_threads) by (vm_compute; reflexivity).
    rewrite Es. intros [k|k|k] Hq; unfold queue in Hq; simpl in Hq.
    + destruct (decide (k = 5)) as [->|Hne]; [done|].
      rewrite lookup_singleton_ne in Hq by done. by apply elem_of_nil in Hq.
    + by apply elem_of_nil in Hq.
    + by apply elem_of_nil in Hq.
  - apply two_threads_joining.
Qed.

Lemma enqueued_wf : wf enqueued.
Proof.
  assert (E : cond_enqueue 6 2 two_threads = Ok enqueued) by (vm_compute; reflexivity).
  eapply wf_cond_enqueue; [| |exact E|exact two_threads_wf].
  - apply two_threads_waits_nowhere.
  - apply two_threads_joining.
Qed.

Lemma update_wf_witness :
  exists s', apply_update true (MutexUnlockBy 5 1) contended = Ok s' /\ wf s'.
Proof.
  eexists. split; [vm_compute; reflexivity|].
  eapply (update_wf true (MutexUnlockBy 5 1) contended _ contended_wf I). vm_compute. reflexivity.
Defined.

Lemma state_choose_spec_witness :
  exists o s', StateOps.choose two_threads = Ok (o, s') /\ threads s' = [1; 2].
Proof.
  destruct (state_choose_spec two_threads two_threads_wf) as (o & s' & E & _ & Et & _).
  exists o, s'. split; [exact E|rewrite Et; reflexivity].
Defined.

Lemma mutex_unlock_spec_witness :
  exists r s', mutex_unlock true 5 1 contended = Ok (r, s') /\ unlocked 5 thread_1 contended r s'.
Proof.
  apply (mutex_unlock_spec true 5 1 contended thread_1 contended_wf); [vm_compute; reflexivity|].
  intros m Hm _. vm_compute in Hm. injection Hm as <-. vm_compute. discriminate.
Defined.

Lemma nested_locking_witness :
  exists s1, lock_times true 3 5 1 11 two_threads = Ok s1 /\
    unlock_times true 3 5 1 s1 = Ok ([0; 0; 0], two_threads).
Proof.
  destruct (nested_locking true 2 5 1 thread_1 two_threads) as (s1 & E & _ & E');
    [vm_compute; reflexivity|vm_compute; reflexivity|vm_compute; discriminate|].
  exists s1. split; [exact E|exact E'].
Defined.

Lemma recursion_limit_witness :
  mutex_acquire true 5 1 11 (set_mutexes {[5 := SMutex.mk 11 U32_MAX []]} two_threads)
  = Panic "attempt to add with overflow".
Proof.
  apply (recursion_limit true 5 1 (set_mutexes {[5 := SMutex.mk 11 U32_MAX []]} two_threads) thread_1);
    vm_compute; reflexivity.
Defined.

Lemma cond_release_spec_witness :
  (exists s' idx w sch, cond_release_one 6 enqueued = Ok s' /\ queue enqueued (AtCond 6) !! idx = Some w /\
    unblocked_in [w] (set_conds (<[6 := SCond.mk (delete idx (queue enqueued (AtCond 6)))]> (conds enqueued))
                        (set_scheduler sch enqueued)) s') /\
  exists s', cond_release_all 6 enqueued = Ok s' /\
    unblocked_in [2] (set_conds (delete 6 (conds enqueued)) enqueued) s'.
Proof.
  destruct (cond_release_spec 6 enqueued enqueued_wf) as [(s' & E & [[Hq _]|(idx & w & sch & H)]) Hall].
  - vm_compute in Hq. discriminate Hq.
  - split; [by exists s', idx, w, sch|exact Hall].
Defined.

Lemma barrier_round_witness :
  exists s', arrive_all 9 [1; 2] (set_barriers {[9 := SBarrier.mk 2 []]} two_threads) = Ok ([false; true], s') /\
    barriers s' = {[9 := SBarrier.mk 2 []]}.
Proof.
  destruct (barrier_round 9 [1; 2] (set_barriers {[9 := SBarrier.mk 2 []]} two_threads) 2)
    as (_ & s' & E & Eb & _).
  - vm_compute; reflexivity.
  - repeat constructor; set_solver.
  - discriminate.
  - reflexivity.
  - intros c Hc. assert (c = 1 \/ c = 2) as [-> | ->] by set_solver; vm_compute; eauto.
  - exists s'. split; [exact E|exact Eb].
Defined.
