(* ===== verification/Integrity.v ===== *)
(** The state invariant a running process keeps, and what one thread may do to the
    others through the state.

    [sane] adds to [wf] that every waiter and every joiner is a live thread.
    [moves] bounds what an operation of [self] does to the records and places of
    the other threads.  Each operation of [State] is shown to keep the first, to
    respect the second, and not to panic. *)
From S2P Require Import Prelude Event Scheduler State WellFormed StateSpecs.
Import StateOps.

(** * Panics that remain

    Undefined behaviour of the caller, arithmetic overflow, the assertions of the
    installation of the seccomp filter, and a symbol the linker does not have. *)
Definition expected_panic (e : string) : bool :=
  String.prefix "UB: " e ||
  bool_decide (e ∈ ["attempt to add with overflow"; "attempt to subtract with overflow";
    "rsched: sigaction(SIGSYS) failed"; "rsched: prctl(PR_SET_NO_NEW_PRIVS) failed";
    "rsched: prctl(PR_SET_SECCOMP) failed"; "rsched preload: dlsym(RTLD_NEXT) returned null"]).

Definition outcome_ok {A} (r : result A) (Q : A -> Prop) : Prop :=
  match r with Ok a => Q a | Panic e => expected_panic e = true end.

Lemma outcome_bind {A B} (m : result A) (k : A -> result B) Q :
  outcome_ok m (fun a => outcome_ok (k a) Q) -> outcome_ok (rbind m k) Q.
Proof. by destruct m. Qed.

Lemma outcome_mono {A} (r : result A) (Q Q' : A -> Prop) :
  outcome_ok r Q -> (forall a, r = Ok a -> Q a -> Q' a) -> outcome_ok r Q'.
Proof. destruct r; simpl; auto. Qed.

Lemma outcome_expect {A} (o : option A) msg (Q : A -> Prop) a :
  o = Some a -> Q a -> outcome_ok (expect o msg) Q.
Proof. by intros ->. Qed.

Lemma outcome_add checks a b (Q : Z -> Prop) : (forall c, Q c) -> outcome_ok (add_u32 checks a b) Q.
Proof. intros HQ. unfold add_u32. repeat case_match; simpl; auto. Qed.

Lemma outcome_sub checks a b (Q : Z -> Prop) : (forall c, Q c) -> outcome_ok (sub_u32 checks a b) Q.
Proof. intros HQ. unfold sub_u32. repeat case_match; simpl; auto. Qed.

Section Integrity.
Context {Sch : Type} {HSch : Scheduler Sch} {HLaws : SchedulerLaws Sch}.
Implicit Types s : State Sch.

#[local] Arguments queue : simpl never.

(** * Definitions *)
Definition live s (v : PthreadT) : Prop :=
  exists th, info s !! v = Some th /\ is_exited th = false.

(** [v] waits for the exit of the live thread [pt]. *)
Definition joined_by s (pt v : PthreadT) : Prop :=
  exists th, info s !! pt = Some th /\ joiner th = Some v /\ is_exited th = false.

Definition blocked_in s (v : PthreadT) : bool :=
  match info s !! v with Some th => is_blocking th | None => false end.

(** Something can release [v]: it waits in a queue, or for the exit of a live thread. *)
Definition waits s (v : PthreadT) : Prop := (exists p, v ∈ queue s p) \/ exists pt, joined_by s pt v.

(** A round of a barrier that is complete has been released. *)
Definition rounds_open s : Prop := forall k b, barriers s !! k = Some b ->
  SBarrier.waiters b = [] \/ Z.of_nat (length (SBarrier.waiters b)) < SBarrier.count b.

(** Whoever is blocked waits for something. *)
Definition tidy s : Prop :=
  (forall v, live s v -> blocked_in s v = true -> waits s v) /\ rounds_open s.
Definition tidies s s' : Prop := tidy s -> tidy s'.

(** The start-up of [v] is over: its creator waited for it. *)
Definition started s (v : PthreadT) : bool :=
  match info s !! v with Some th => startup_done th | None => false end.

(** [State::choose] may pick [v]. *)
Definition runnable s (v : PthreadT) : Prop :=
  v ∈ threads s /\ exists th, info s !! v = Some th /\ Thread.eligible th = true.

Record sane s : Prop := mkSane {
  sane_wf : wf s;
  sane_listed v : live s v -> v ∈ threads s;
  sane_queue p v : v ∈ queue s p -> live s v;
  sane_joiner pt v : joined_by s pt v -> live s v
}.

(** What [self] does to the others: it makes nobody else wait or join, it exits
    for nobody else, it blocks nobody else, it forgets nobody; and nobody goes back
    to the start-up. *)
Record moves (self : PthreadT) s s' : Prop := mkMoves {
  moves_queue v p : v ∈ queue s' p -> v ∈ queue s p \/ v = self;
  moves_info v th' : v <> self -> info s' !! v = Some th' ->
    exists th, info s !! v = Some th /\ is_exited th' = is_exited th /\
      (is_blocking th' = true -> is_blocking th = true);
  moves_joiner pt v : joined_by s' pt v -> joined_by s pt v \/ v = self;
  moves_known v : is_Some (info s !! v) -> is_Some (info s' !! v);
  moves_born v : live s' v -> live s v;
  moves_listed v : v ∈ threads s -> live s' v -> v ∈ threads s';
  moves_started v : started s v = true -> started s' v = true
}.

#[export] Instance moves_preorder self : PreOrder (moves self).
Proof.
  split.
  - intros s. split; eauto.
  - intros s1 s2 s3 [Q1 I1 J1 K1 B1 L1 S1] [Q2 I2 J2 K2 B2 L2 S2]. split.
    + intros v p Hv. destruct (Q2 v p Hv) as [Hv'|]; [by apply Q1|by right].
    + intros v th3 Hne H3. destruct (I2 v th3 Hne H3) as (th2 & H2 & E2 & Hb2).
      destruct (I1 v th2 Hne H2) as (th1 & H1 & E1 & Hb1). exists th1.
      split; [done|]. split; [congruence|auto].
    + intros pt v Hv. destruct (J2 pt v Hv) as [Hv'|]; [by apply J1|by right].
    + auto.
    + auto.
    + auto.
    + auto.
Qed.

(** What [self] itself may be: live or not, in which queue, waiting for whom. *)
Record at_place (self : PthreadT) (alive : bool) (q : option Place) (j : option PthreadT) s : Prop := mkAt {
  at_live : live s self <-> alive = true;
  at_queue p : self ∈ queue s p -> q = Some p;
  at_join pt : joined_by s pt self -> j = Some pt
}.

Lemma at_place_weaken self a q j q' j' s :
  (forall p, q = Some p -> q' = Some p) -> (forall x, j = Some x -> j' = Some x) ->
  at_place self a q j s -> at_place self a q' j' s.
Proof. intros Hq Hj [H1 H2 H3]. split; eauto. Qed.

Lemma at_known self q j s : at_place self true q j s -> exists th, info s !! self = Some th /\ is_exited th = false.
Proof. intros [Hl _ _]. by apply Hl. Qed.

Lemma at_place_queue self q j s : at_place self true q j s -> q = None -> waits_nowhere s self.
Proof. intros [_ Hq _] -> p Hp. by apply Hq in Hp. Qed.

Lemma idle_waits_nowhere self j s : at_place self true None j s -> waits_nowhere s self.
Proof. intros Ha. by eapply at_place_queue. Qed.

Lemma idle_joining self q s : at_place self true q None s -> ~ joining s self.
Proof. intros [_ _ Hj] [pt Hpt]. by apply Hj in Hpt. Qed.

Lemma moves_live self s s' v : moves self s s' -> v <> self -> live s' v <-> live s v.
Proof.
  intros [_ I _ K _ _ _] Hne. split.
  - intros (th' & H' & E'). destruct (I v th' Hne H') as (th & Hth & E & _). exists th. split; congruence.
  - intros (th & Hth & E). destruct (K v) as [th' H']; [by eexists|].
    destruct (I v th' Hne H') as (th0 & H0 & E0 & _). exists th'. split; congruence.
Qed.

(** The invariant after a move, once [wf] is known: [self] is still live, or it
    waits nowhere. *)
Lemma sane_moves self s s' :
  sane s -> wf s' -> moves self s s' ->
  live s' self \/ waits_nowhere s' self /\ ~ joining s' self -> sane s'.
Proof.
  intros [_ S0 S2 S3] Hwf M Hself.
  assert (Hlive : forall v, v <> self -> live s v -> live s' v) by (intros; by eapply moves_live).
  split; [done| | |].
  - intros v Hv. apply (moves_listed _ _ _ M); [|done]. by apply S0, (moves_born _ _ _ M).
  - intros p v Hv. destruct (decide (v = self)) as [->|Hne].
    + destruct Hself as [|[Hno _]]; [done|]. by destruct (Hno p).
    + destruct (moves_queue _ _ _ M v p Hv); [eauto|done].
  - intros pt v Hv. destruct (decide (v = self)) as [->|Hne].
    + destruct Hself as [|[_ Hno]]; [done|]. destruct Hno. by exists pt.
    + destruct (moves_joiner _ _ _ M pt v Hv); [eauto|done].
Qed.

(** * Kinds of operations *)

(** An operation keeps the invariant and respects the others. *)
Definition fair (self : PthreadT) s s' : Prop := sane s' /\ moves self s s'.

(** It also forgets no blocked thread. *)
Definition lawful (self : PthreadT) s s' : Prop := fair self s s' /\ tidies s s'.

#[export] Instance tidies_preorder : PreOrder tidies.
Proof. split; [by intros s H|]. intros s1 s2 s3 H1 H2 H. by apply H2, H1. Qed.

(** Everybody who is still blocked still waits. *)
Lemma tidies_kept s s' :
  (rounds_open s -> rounds_open s') ->
  (forall v, live s' v -> blocked_in s' v = true -> live s v /\ blocked_in s v = true) ->
  (forall v, live s' v -> blocked_in s' v = true -> waits s v -> waits s' v) -> tidies s s'.
Proof.
  intros H0 H1 H2 [Ht Ho]. split; [|by apply H0]. intros v Hl Hb. apply H2; [done|done|].
  destruct (H1 v Hl Hb). by apply Ht.
Qed.

Lemma rounds_same s s' : barriers s' = barriers s -> rounds_open s -> rounds_open s'.
Proof. intros E Ho. unfold rounds_open. by rewrite E. Qed.

Lemma waits_same s s' v :
  info s' = info s -> (forall p, queue s' p = queue s p) -> waits s v -> waits s' v.
Proof.
  intros Ei Eq [[p Hp]|[pt Hp]]; [left; exists p; by rewrite Eq|right; exists pt]. unfold joined_by. by rewrite Ei.
Qed.

Lemma tidies_same s s' :
  info s' = info s -> (forall p, queue s' p = queue s p) -> barriers s' = barriers s -> tidies s s'.
Proof.
  intros Ei Eq Eb. apply tidies_kept; [by apply rounds_same| |]; unfold live, blocked_in; rewrite Ei; [done|]. intros v _ _. by apply waits_same.
Qed.

Lemma tidy_blank s : sane s -> (forall v, ~ live s v) -> tidy s.
Proof.
  intros Hs Hn. split; [intros v Hl; by destruct (Hn v)|]. intros k b Hb. left. apply elem_of_nil_inv. intros v Hv.
  apply (Hn v), (sane_queue _ Hs (AtBarrier k)). unfold queue. by rewrite Hb.
Qed.

(** An operation that respects everybody. *)
Definition gentle s s' : Prop := forall u, moves u s s'.

#[export] Instance gentle_preorder : PreOrder gentle.
Proof. split; [intros s u; reflexivity|]. intros s1 s2 s3 H1 H2 u. transitivity s2; auto. Qed.

Lemma gentle_live s s' v : gentle s s' -> live s' v <-> live s v.
Proof. intros G. exact (moves_live (v + 1) s s' v (G (v + 1)) ltac:(lia)). Qed.

Lemma gentle_queue s s' v p : gentle s s' -> v ∈ queue s' p -> v ∈ queue s p.
Proof. intros G Hv. destruct (moves_queue _ _ _ (G (v + 1)) v p Hv); [done|lia]. Qed.

Lemma gentle_joined s s' pt v : gentle s s' -> joined_by s' pt v -> joined_by s pt v.
Proof. intros G Hv. destruct (moves_joiner _ _ _ (G (v + 1)) pt v Hv); [done|lia]. Qed.

Lemma gentle_place self a q j s s' : gentle s s' -> at_place self a q j s -> at_place self a q j s'.
Proof.
  intros G [H1 H2 H3]. split.
  - by rewrite (gentle_live s s').
  - intros p Hp. by eapply H2, gentle_queue.
  - intros pt Hp. by eapply H3, gentle_joined.
Qed.

Lemma gentle_sane s s' : sane s -> wf s' -> gentle s s' -> sane s'.
Proof.
  intros [_ S0 S2 S3] Hwf G. split; [done| | |].
  - intros v Hv. apply (moves_listed _ _ _ (G v)); [|done]. by apply S0, (moves_born _ _ _ (G v)).
  - intros p v Hv. eapply gentle_live; [done|]. by eapply S2, gentle_queue.
  - intros pt v Hv. eapply gentle_live; [done|]. by eapply S3, gentle_joined.
Qed.

(** One record changes, in a way the others do not see. *)
Lemma moves_touch self v s s' th th' :
  info s !! v = Some th -> info s' = <[v := th']> (info s) -> threads s' = threads s ->
  (forall x p, x ∈ queue s' p -> x ∈ queue s p \/ x = self) ->
  (startup_done th = true -> startup_done th' = true) -> is_exited th' = is_exited th -> (joiner th' = joiner th \/ joiner th' = Some self) ->
  (is_blocking th' = true -> is_blocking th = true \/ v = self) -> moves self s s'.
Proof.
  intros Hv Ei Et Hq Es Ee Ej Eb. split.
  - auto.
  - intros x t Hne. rewrite Ei, lookup_insert. case_decide as Hx; [intros [= <-]; subst x|eauto].
    exists th. split; [done|]. split; [done|]. intros Hb. by destruct (Eb Hb).
  - intros pt x (t & Ht & Hj & He). rewrite Ei, lookup_insert in Ht. case_decide as Hx.
    + injection Ht as <-. subst pt. destruct Ej as [Ej|Ej]; [left; exists th|right]; [|congruence].
      split; [done|]. split; congruence.
    + left. by exists t.
  - intros x Hx. rewrite Ei, lookup_insert. by case_decide.
  - intros x (t & Ht & He). rewrite Ei, lookup_insert in Ht. case_decide as Hx; [|by exists t].
    injection Ht as <-. subst x. exists th. split; congruence.
  - intros x Hx _. by rewrite Et.
  - intros x. unfold started. rewrite Ei, lookup_insert. case_decide as Hx; [|done]. subst x. by rewrite Hv.
Qed.

(** One record changes: its thread is not blocked more than before, its joiner stays. *)
Lemma tidies_touch v s s' th th' :
  info s !! v = Some th -> info s' = <[v := th']> (info s) -> (forall p, queue s' p = queue s p) ->
  is_exited th' = is_exited th -> joiner th' = joiner th ->
  (is_blocking th' = true -> is_blocking th = true) -> barriers s' = barriers s -> tidies s s'.
Proof.
  intros Hv Ei Eq Ee Ej Eb Er.
  assert (Hj : forall pt x, joined_by s pt x -> joined_by s' pt x).
  { intros pt x (t0 & H0 & H1 & H2). unfold joined_by. rewrite Ei, lookup_insert. case_decide; [|by exists t0].
    subst pt. exists th'. split; [done|]. split; congruence. }
  apply tidies_kept; [by apply rounds_same| |].
  - intros x (t0 & H0 & He). unfold blocked_in, live. rewrite Ei, lookup_insert in H0 |- *. case_decide; [|eauto].
    injection H0 as <-. subst x. rewrite Hv. intros Hb. split; [exists th; split; congruence|auto].
  - intros x _ _ [[p Hp]|[pt Hp]]; [left; exists p; by rewrite Eq|right; exists pt; auto].
Qed.

(** Only the queues change, by losing waiters. *)
Lemma gentle_shrink s s' :
  info s' = info s -> threads s' = threads s -> (forall p, sublist (queue s' p) (queue s p)) -> gentle s s'.
Proof.
  intros Ei Et Hq u. split; unfold joined_by, live, started; rewrite ?Ei, ?Et; eauto.
  intros v p Hv. left. by eapply sublist_subseteq in Hv; [|apply Hq].
Qed.

Lemma gentle_same s s' :
  info s' = info s -> threads s' = threads s -> (forall p, queue s' p = queue s p) -> gentle s s'.
Proof. intros Ei Et Hq. apply gentle_shrink; [done|done|]. intros p. by rewrite Hq. Qed.

(** An update of a record that is invisible, but may unblock. *)
Definition mild (f : Thread -> Thread) : Prop :=
  forall th, is_exited (f th) = is_exited th /\ joiner (f th) = joiner th /\
             (startup_done th = true -> startup_done (f th) = true) /\
             (is_blocking (f th) = true -> is_blocking th = true).

Lemma modify_outcome v f s th (Q : State Sch -> Prop) :
  info s !! v = Some th -> Q (set_info (<[v := f th]> (info s)) s) -> outcome_ok (modify v f s) Q.
Proof. intros E HQ. unfold modify, t. by rewrite E. Qed.

Lemma gentle_modify v f s s' : mild f -> modify v f s = Ok s' -> gentle s s'.
Proof.
  intros Hf E u. assert (Hq := fun p => queue_modify v f s s' p E). unfold modify, t in E.
  invert_ok. destruct (Hf x) as (H1 & H2 & H3 & H4).
  eapply (moves_touch u v s _ x (f x)); [done|done|done| |done|done|by left|by left; auto].
  intros y p. rewrite Hq. by left.
Qed.

Lemma tidies_modify v f s s' : mild f -> modify v f s = Ok s' -> tidies s s'.
Proof.
  intros Hf E. assert (Hq := fun p => queue_modify v f s s' p E). unfold modify, t in E. invert_ok.
  destruct (Hf x) as (H1 & H2 & _ & H4). by eapply tidies_touch.
Qed.

(** Some waiters leave their queues, and are unblocked. *)
Lemma tidies_release ws s s1 s' :
  info s1 = info s -> (forall x p, x ∈ queue s p -> x ∈ queue s1 p \/ x ∈ ws) ->
  (rounds_open s -> rounds_open s1) -> unblock_all ws s1 = Ok s' -> tidies s s'.
Proof.
  intros Ei Hq Ho E.
  assert (H : barriers s' = barriers s1 /\ (forall p, queue s' p = queue s1 p) /\ (forall v, live s' v -> live s1 v) /\
    (forall pt v, joined_by s1 pt v -> joined_by s' pt v) /\
    forall v, blocked_in s' v = true -> v ∉ ws /\ blocked_in s1 v = true).
  { clear Ei Hq Ho. unfold unblock_all in E. revert s1 E. induction ws as [|w ws IH]; intros s1 E; simpl in E.
    - simplify_eq. repeat split; try done. apply not_elem_of_nil.
    - apply rbind_Ok in E as (s2 & Hm & E). destruct (IH _ E) as (I0 & I1 & I2 & I3 & I4).
      assert (Hqm := fun p => queue_modify w _ s1 s2 p Hm). unfold modify, t in Hm. invert_ok.
      split; [by rewrite I0|]. split; [intros p; by rewrite I1|]. split; [|split].
      + intros v Hv. destruct (I2 v Hv) as (t0 & H0 & He). simpl in H0. rewrite lookup_insert in H0.
        case_decide; [|by exists t0]. injection H0 as <-. subst v. by exists x.
      + intros pt v (t0 & H0 & Hj & He). apply I3. unfold joined_by. simpl. rewrite lookup_insert.
        case_decide; [|by exists t0]. subst pt. simplify_eq. by eexists.
      + intros v Hv. destruct (I4 v Hv) as [Hn Hb]. unfold blocked_in in Hb. simpl in Hb.
        rewrite lookup_insert in Hb. case_decide; [done|]. split; [set_solver|done]. }
  destruct H as (H0 & H1 & H2 & H3 & H4). apply tidies_kept.
  - intros Hs. apply (rounds_same s1); auto.
  - intros v Hl Hb. apply H2 in Hl. destruct (H4 v Hb) as [_ Hb1]. unfold live, blocked_in in *. by rewrite Ei in *.
  - intros v _ Hb [[p Hp]|[pt Hp]].
    + destruct (H4 v Hb) as [Hn _]. left. exists p. rewrite H1. by destruct (Hq v p Hp).
    + right. exists pt. apply H3. unfold joined_by in *. by rewrite Ei.
Qed.

Lemma gentle_unblock_all ws s s' : unblock_all ws s = Ok s' -> gentle s s'.
Proof.
  unfold unblock_all. revert s. induction ws as [|w ws IH]; intros s E; simpl in E; [by simplify_eq|].
  apply rbind_Ok in E as (s1 & Hm & E). etrans; [|by apply IH]. by eapply gentle_modify, Hm.
Qed.

Lemma unblock_all_outcome ws s :
  (forall w, w ∈ ws -> is_Some (info s !! w)) -> outcome_ok (unblock_all ws s) (fun _ => True).
Proof.
  unfold unblock_all. revert s. induction ws as [|w ws IH]; intros s Hk; simpl; [done|].
  apply outcome_bind. destruct (Hk w) as [th Hth]; [by left|].
  eapply modify_outcome; [exact Hth|]. apply IH. intros x Hx. simpl. rewrite lookup_insert.
  case_decide; [done|]. apply Hk. by right.
Qed.

Lemma live_known s v : live s v -> is_Some (info s !! v).
Proof. intros (th & Hth & _). by eexists. Qed.

(** What an operation shows: it does not panic, it is lawful, and afterwards [Q]. *)
Definition does {A} (self : PthreadT) s (r : result (A * State Sch)) (Q : A -> State Sch -> Prop) : Prop :=
  outcome_ok r (fun p => lawful self s (snd p) /\ Q (fst p) (snd p)).
Definition updates (self : PthreadT) s (r : result (State Sch)) (Q : State Sch -> Prop) : Prop :=
  outcome_ok r (fun s' => lawful self s s' /\ Q s').

Lemma updates_intro self s (r : result (State Sch)) Q :
  outcome_ok r (fun _ => True) -> (forall s', r = Ok s' -> lawful self s s' /\ Q s') ->
  updates self s r Q.
Proof. intros Ho Hq. unfold updates. eapply outcome_mono; [exact Ho|]. auto. Qed.

Lemma does_intro {A} self s (r : result (A * State Sch)) Q :
  outcome_ok r (fun _ => True) -> (forall a s', r = Ok (a, s') -> lawful self s s' /\ Q a s') ->
  does self s r Q.
Proof. intros Ho Hq. unfold does. eapply outcome_mono; [exact Ho|]. intros [a s'] E _. by apply Hq. Qed.

(** What else is known of the result. *)
Lemma updates_and self s (r : result (State Sch)) (Q Q' : State Sch -> Prop) :
  updates self s r Q -> (forall s', r = Ok s' -> Q s' -> Q' s') -> updates self s r (fun s' => Q s' /\ Q' s').
Proof.
  intros H HQ. unfold updates in *. eapply outcome_mono; [exact H|]. intros s' E [Hl Hq]. auto.
Qed.

Lemma does_and {A} self s (r : result (A * State Sch)) (Q Q' : A -> State Sch -> Prop) :
  does self s r Q -> (forall a s', r = Ok (a, s') -> Q a s' -> Q' a s') ->
  does self s r (fun a s' => Q a s' /\ Q' a s').
Proof.
  intros H HQ. unfold does in *. eapply outcome_mono; [exact H|]. intros [a s'] E [Hl Hq]. auto.
Qed.

(** A gentle operation that forgets nobody. *)
Lemma gentle_does {A} self s (r : result (A * State Sch)) a q j :
  sane s -> at_place self a q j s -> outcome_ok r (fun _ => True) ->
  (forall x s', r = Ok (x, s') -> wf s' /\ gentle s s' /\ tidies s s') ->
  does self s r (fun _ => at_place self a q j).
Proof.
  intros Hs Ha Ho Hq. apply does_intro; [done|]. intros x s' E. destruct (Hq x s' E) as (Hwf & G & T).
  split; [split; [split; [by eapply gentle_sane|apply G]|done]|by eapply gentle_place].
Qed.

Lemma gentle_updates self s (r : result (State Sch)) a q j :
  sane s -> at_place self a q j s -> outcome_ok r (fun _ => True) ->
  (forall s', r = Ok s' -> wf s' /\ gentle s s' /\ tidies s s') ->
  updates self s r (at_place self a q j).
Proof.
  intros Hs Ha Ho Hq. apply updates_intro; [done|]. intros s' E. destruct (Hq s' E) as (Hwf & G & T).
  split; [split; [split; [by eapply gentle_sane|apply G]|done]|by eapply gentle_place].
Qed.
(** * The operations *)

Definition neutral (f : Thread -> Thread) : Prop :=
  forall th, is_exited (f th) = is_exited th /\ joiner (f th) = joiner th /\
             (startup_done th = true -> startup_done (f th) = true) /\
             is_blocking (f th) = is_blocking th.

Lemma neutral_mild f : neutral f -> mild f.
Proof. intros Hf th. destruct (Hf th) as (? & ? & ? & ->). auto. Qed.

Lemma neutral_updates self v f s a q j :
  neutral f -> sane s -> at_place self a q j s -> is_Some (info s !! v) ->
  updates self s (modify v f s) (at_place self a q j).
Proof.
  intros Hf Hs Ha [th Hth]. apply gentle_updates; [done|done|by eapply modify_outcome|].
  intros s' E. apply neutral_mild in Hf as Hm.
  split; [|split; [by eapply gentle_modify, E|by eapply tidies_modify, E]].
  eapply wf_modify; [|exact E|apply Hs]. intros t0. destruct (Hf t0) as (? & ? & ? & ->). auto.
Qed.

Lemma modify_unwrap_modify v f s th :
  info s !! v = Some th -> modify_unwrap v f s = modify v f s.
Proof. unfold modify_unwrap, modify, t. by intros ->. Qed.

Lemma same_updates self s s' a q j :
  info s' = info s -> threads s' = threads s -> (forall p, queue s' p = queue s p) -> barriers s' = barriers s ->
  sane s -> at_place self a q j s -> updates self s (Ok s') (at_place self a q j).
Proof.
  intros Ei Et Hq Eb Hs Ha. apply gentle_updates; [done|done|done|]. intros s1 [= <-].
  split; [by eapply wf_same, Hs|]. split; [by apply gentle_same|by apply tidies_same].
Qed.

(** A queue is dropped: its waiters, if there are any, are forgotten. *)
Lemma drop_fair self s s' a q j p :
  info s' = info s -> threads s' = threads s -> queue s' p = [] -> (forall p', p' <> p -> queue s' p' = queue s p') ->
  (rounds_open s -> rounds_open s') -> sane s -> at_place self a q j s ->
  (fair self s s' /\ at_place self a q j s') /\ (queue s p = [] -> tidies s s').
Proof.
  intros Ei Et Hp Hq Ho Hs Ha. assert (Hsub : forall p', sublist (queue s' p') (queue s p')).
  { intros p'. destruct (decide (p' = p)) as [->|Hne]; [rewrite Hp; apply sublist_nil_l|by rewrite Hq]. }
  assert (G : gentle s s') by by apply gentle_shrink. split; [split|].
  - split; [|apply G]. eapply gentle_sane; [done| |done]. by eapply wf_shrink, Hs.
  - by eapply gentle_place.
  - intros E. apply tidies_kept; [done| |]; unfold live, blocked_in; rewrite Ei; [done|]. intros v _ _.
    apply waits_same; [done|]. intros p'. destruct (decide (p' = p)) as [->|Hne]; [congruence|auto].
Qed.

Lemma choose_does self s a q j :
  sane s -> at_place self a q j s ->
  does self s (StateOps.choose s) (fun o s' => at_place self a q j s' /\
    match o with
    | Some i => exists pt, threads s' !! i = Some pt /\ runnable s' pt
    | None => forall v, ~ runnable s' v
    end).
Proof.
  intros Hs Ha. destruct (choose_cases s (sane_wf _ Hs)) as (o & s' & E & Ei & Et & Ho).
  assert (Hq : (forall p, queue s' p = queue s p) /\ barriers s' = barriers s).
  { unfold StateOps.choose in E. apply rbind_Ok in E as (bl & _ & E).
    apply rbind_Ok in E as ([o' sch] & _ & E). simplify_eq. split; [by intros []|done]. }
  destruct Hq as [Hq Eb].
  destruct (same_updates self s s' a q j Ei Et Hq Eb Hs Ha) as [Hl Ha'].
  rewrite E. split; [done|]. split; [done|]. unfold runnable. simpl. rewrite Et, Ei. destruct o as [i|].
  - destruct Ho as (pt & th & Hpt & Hth & He). exists pt. split; [done|].
    split; [by eapply list_elem_of_lookup_2|by exists th].
  - intros v [Hv (th & Hth & He)]. by rewrite (Ho v th Hv Hth) in He.
Qed.

(** ** Mutexes *)
Lemma pick_waiter_outcome msg ws s (Q : PthreadT * list PthreadT * State Sch -> Prop) :
  ws <> [] ->
  (forall idx w sch, ws !! idx = Some w -> Q (w, delete idx ws, set_scheduler sch s)) ->
  outcome_ok (pick_waiter msg ws s) Q.
Proof.
  intros Hne HQ. destruct (pick_waiter_total msg ws s Hne) as (idx & w & sch & Hw & ->).
  by apply HQ.
Qed.

Lemma mutex_unlock_outcome checks key caller s :
  wf s -> is_Some (info s !! caller) -> outcome_ok (mutex_unlock checks key caller s) (fun _ => True).
Proof.
  intros Hwf [th Hth]. unfold mutex_unlock, index. rewrite Hth. simpl.
  destruct (mutexes s !! key) as [m|] eqn:Hm; [|done]. case_match; [done|].
  apply outcome_bind, outcome_sub. intros c. case_match; [done|]. case_match; [done|].
  apply outcome_bind, pick_waiter_outcome.
  { intros E. simpl in *. by rewrite E in *. }
  intros idx w sch Hw. apply outcome_bind. simpl in *.
  destruct (wf_waiting _ Hwf (AtMutex key) w) as (wt & Hwt & _).
  { unfold queue. rewrite Hm. by eapply list_elem_of_lookup_2. }
  eapply outcome_expect; [exact Hwt|]. apply outcome_bind. by eapply modify_outcome.
Qed.

(** The queue [p] loses its entry [idx]. *)
Lemma delete_release s s1 p idx w :
  queue s p !! idx = Some w -> queue s1 p = delete idx (queue s p) -> (forall p', p' <> p -> queue s1 p' = queue s p') ->
  forall x p', x ∈ queue s p' -> x ∈ queue s1 p' \/ x ∈ [w].
Proof.
  intros Hw E1 E2 x p' Hx. destruct (decide (p' = p)) as [->|Hne]; [|left; by rewrite E2].
  rewrite E1, list_elem_of_singleton. apply list_elem_of_lookup in Hx as [i Hi].
  destruct (decide (i = idx)) as [->|Hi']; [right; congruence|left].
  apply list_elem_of_lookup. destruct (decide (i < idx)%nat) as [Hlt|Hge].
  - exists i. by rewrite list_lookup_delete_lt.
  - exists (i - 1)%nat. rewrite list_lookup_delete_ge by lia. by replace (S (i - 1)) with i by lia.
Qed.

Lemma mutex_unlock_tidies checks key caller s r s' :
  mutex_unlock checks key caller s = Ok (r, s') -> tidies s s'.
Proof.
  intros E. unfold mutex_unlock in E. apply rbind_Ok in E as (th & _ & E).
  destruct (mutexes s !! key) as [m|] eqn:Hm; [|by simplify_eq].
  assert (Em : SMutex.waiters m = queue s (AtMutex key)) by (unfold queue; by rewrite Hm).
  case_match; [by simplify_eq|]. apply rbind_Ok in E as (c & _ & E).
  case_match; [simplify_eq; by apply tidies_same; [|apply queue_set_mutexes_same|]|].
  case_match eqn:Hlen.
  { simplify_eq. apply tidies_same; [done| |done]. intros [k|k|k]; try done. unfold queue at 1. simpl.
    destruct (decide (k = key)) as [->|Hne].
    - rewrite lookup_delete_eq. rewrite <- Em. apply Nat.eqb_eq in Hlen. simpl in Hlen.
      by destruct (SMutex.waiters m).
    - by rewrite lookup_delete_ne, lookup_insert_ne by done. }
  apply rbind_Ok in E as ([[w ws] s2] & Hp & E). apply rbind_Ok in E as (wt & _ & E).
  apply rbind_Ok in E as (s3 & E & E3). injection E3 as _ <-.
  apply pick_waiter_Ok in Hp as (idx & sch & Hw & -> & ->). simpl in Hw. rewrite Em in Hw.
  rewrite <- unblock_all_single in E. eapply tidies_release, E; [done| |done].
  eapply delete_release; [exact Hw| |].
  - rewrite queue_set_mutexes_eq. simpl. by rewrite Em.
  - intros [k|k|k] Hne; try done. unfold queue. simpl. by rewrite !lookup_insert_ne by congruence.
Qed.

Lemma mutex_unlock_gentle checks key caller s r s' :
  mutex_unlock checks key caller s = Ok (r, s') -> gentle s s'.
Proof.
  intros E. unfold mutex_unlock in E. apply rbind_Ok in E as (th & _ & E).
  destruct (mutexes s !! key) as [m|] eqn:Hm; [|by simplify_eq].
  assert (Em : SMutex.waiters m = queue s (AtMutex key)) by (unfold queue; by rewrite Hm).
  case_match; [by simplify_eq|]. apply rbind_Ok in E as (c & _ & E).
  case_match; [simplify_eq; by apply gentle_same; [..|apply queue_set_mutexes_same]|].
  case_match.
  { simplify_eq. apply gentle_shrink; [done|done|]. intros [k|k|k]; try done. unfold queue at 1. simpl.
    destruct (decide (k = key)) as [->|Hne].
    - rewrite lookup_delete_eq. apply sublist_nil_l.
    - by rewrite lookup_delete_ne, lookup_insert_ne by done. }
  apply rbind_Ok in E as ([[w ws] s2] & Hp & E). apply rbind_Ok in E as (wt & _ & E).
  apply rbind_Ok in E as (s3 & E & E3). injection E3 as _ <-.
  apply pick_waiter_Ok in Hp as (idx & sch & Hw & -> & ->).
  etrans; [|by eapply gentle_modify, E]. apply gentle_shrink; [done|done|].
  intros p. destruct (decide (p = AtMutex key)) as [->|Hne].
  - rewrite queue_set_mutexes_eq. simpl. rewrite Em. apply sublist_delete.
  - destruct p as [k|k|k]; try done. unfold queue. simpl. by rewrite !lookup_insert_ne by congruence.
Qed.

Lemma mutex_unlock_does checks key self s q j :
  sane s -> at_place self true q j s ->
  does self s (mutex_unlock checks key self s) (fun _ => at_place self true q j).
Proof.
  intros Hs Ha. apply gentle_does; [done|done| |].
  - destruct (at_known _ _ _ _ Ha) as (th & Hth & _). apply mutex_unlock_outcome; [apply Hs|eauto].
  - intros x s' E. split; [by eapply wf_mutex_unlock, Hs|].
    split; [by eapply mutex_unlock_gentle|by eapply mutex_unlock_tidies].
Qed.
(** [self] enters a queue and is marked blocking. *)
Lemma enter_lawful self s s' p :
  sane s -> at_place self true None None s -> wf s' ->
  (exists th, info s !! self = Some th /\ info s' = <[self := Thread.set_blocking true th]> (info s)) ->
  (forall x q, x ∈ queue s' q <-> x ∈ queue s q \/ x = self /\ q = p) ->
  (rounds_open s -> rounds_open s') -> threads s' = threads s -> lawful self s s' /\ at_place self true (Some p) None s'.
Proof.
  intros Hs Ha Hwf (th & Hth & Ei) Hq Ho Et.
  assert (M : moves self s s').
  { eapply (moves_touch self self s s' th); [done|exact Ei|done| |done|done|by left|by right].
    intros x q Hx. destruct (proj1 (Hq x q) Hx) as [|[? _]]; auto. }
  assert (Hj : forall pt, ~ joined_by s' pt self).
  { intros pt (t0 & Ht & Ej & Ee). rewrite Ei, lookup_insert in Ht.
    assert (joining s self) by (exists pt; case_decide; [|by exists t0]; subst pt; injection Ht as <-; by exists th).
    by eapply idle_joining. }
  destruct (at_known _ _ _ _ Ha) as (t0 & Ht0 & He). rewrite Hth in Ht0. injection Ht0 as <-.
  assert (Hl : live s' self).
  { eexists. split; [rewrite Ei; apply lookup_insert_eq|done]. }
  split; [split; [split; [|done]|]|].
  - eapply sane_moves; eauto.
  - intros [Ht Hr]. split; [|by apply Ho]. intros v Hlv Hb. destruct (decide (v = self)) as [->|Hne].
    { left. exists p. apply Hq. by right. }
    destruct Hlv as (t0 & H0 & E0). unfold blocked_in in Hb. rewrite Ei, lookup_insert_ne in * by done.
    destruct (Ht v) as [[q Hv]|[pt (t1 & H1 & Ej & Ee)]]; [by exists t0|done| |].
    + left. exists q. apply Hq. by left.
    + right. exists pt. unfold joined_by. rewrite Ei, lookup_insert. case_decide; [|by exists t1].
      subst pt. simplify_eq. by eexists.
  - split; [done| |].
    + intros q Hx. destruct (proj1 (Hq self q) Hx) as [Hx'|[_ ->]]; [|done].
      by destruct (idle_waits_nowhere _ _ _ Ha q).
    + intros pt Hx. by destruct (Hj pt).
Qed.

Lemma modify_self_Ok v f s s' :
  modify v f s = Ok s' -> exists th, info s !! v = Some th /\ s' = set_info (<[v := f th]> (info s)) s.
Proof. intros E. unfold modify, t in E. invert_ok. eauto. Qed.

Lemma mutex_acquire_does checks key self tid s :
  sane s -> at_place self true None None s ->
  does self s (mutex_acquire checks key self tid s)
    (fun taken => at_place self true (if taken then None else Some (AtMutex key)) None).
Proof.
  intros Hs Ha. destruct (at_known _ _ _ _ Ha) as (th & Hth & _).
  apply does_intro.
  - unfold mutex_acquire. case_match.
    + apply outcome_bind. by apply outcome_add.
    + apply outcome_bind. by eapply modify_outcome.
  - intros taken s' E.
    assert (Hwf : wf s').
    { eapply wf_mutex_acquire, Hs; [|by eapply idle_joining|exact E].
      intros q Hq. by destruct (idle_waits_nowhere _ _ _ Ha q). }
    unfold mutex_acquire in E.
    set (e := default (SMutex.mk tid 0 []) (mutexes s !! key)) in *.
    assert (Ee : SMutex.waiters e = queue s (AtMutex key)).
    { unfold e, queue. by destruct (mutexes s !! key). }
    case_match.
    + apply rbind_Ok in E as (c & _ & E). simplify_eq.
      destruct (same_updates self s (set_mutexes (<[key := SMutex.set_count c e]> (mutexes s)) s) true None None);
        [done|done|by apply queue_set_mutexes_same|done|done|done|done].
    + apply rbind_Ok in E as (s1 & E & E1). injection E1 as <- <-.
      apply modify_self_Ok in E as (x & Hx & ->). eapply enter_lawful; [done|done|done|by exists x| |done|done].
      intros y q. set (e' := if contains _ _ then _ else _) in *.
      change (queue (set_info _ ?s1) q) with (queue s1 q).
      destruct (decide (q = AtMutex key)) as [->|Hne].
      * rewrite queue_set_mutexes_eq. unfold e'. destruct (contains self (SMutex.waiters e)) eqn:Hc.
        -- rewrite Ee. apply contains_spec in Hc. rewrite Ee in Hc. naive_solver.
        -- simpl. rewrite Ee, elem_of_app, list_elem_of_singleton. naive_solver.
      * rewrite queue_set_mutexes_ne by done. naive_solver.
Qed.

(** ** Condition variables *)
Lemma cond_enqueue_updates key self s :
  sane s -> at_place self true None None s ->
  updates self s (cond_enqueue key self s) (at_place self true (Some (AtCond key)) None).
Proof.
  intros Hs Ha. destruct (at_known _ _ _ _ Ha) as (th & Hth & _).
  apply updates_intro; [by eapply modify_outcome|]. intros s' E.
  assert (Hwf : wf s').
  { eapply wf_cond_enqueue, Hs; [by eapply idle_waits_nowhere|by eapply idle_joining|exact E]. }
  unfold cond_enqueue in E. apply modify_self_Ok in E as (x & Hx & ->).
  eapply enter_lawful; [done|done|done|by exists x| |done|done]. intros y q.
  change (queue (set_info _ ?s1) q) with (queue s1 q).
  destruct q as [k|k|k]; try (split; [by left|by intros [|[_ ?]]]). unfold queue. simpl.
  destruct (decide (k = key)) as [->|Hne].
  - rewrite lookup_insert_eq. simpl. rewrite elem_of_app, list_elem_of_singleton.
    destruct (conds s !! key); simpl; naive_solver.
  - rewrite lookup_insert_ne by done. naive_solver.
Qed.

Lemma cond_release_one_updates key self s a q j :
  sane s -> at_place self a q j s -> updates self s (cond_release_one key s) (at_place self a q j).
Proof.
  intros Hs Ha. unfold cond_release_one.
  destruct (conds s !! key) as [c|] eqn:Hc; [|by apply same_updates].
  case_match eqn:Hlen; [|by apply same_updates].
  assert (Ec : SCond.waiters c = queue s (AtCond key)) by (unfold queue; by rewrite Hc).
  apply gentle_updates; [done|done| |].
  - apply outcome_bind, pick_waiter_outcome; [by intros E; rewrite E in *|].
    intros idx w sch Hw. destruct (sane_queue _ Hs (AtCond key) w) as (wt & Hwt & _).
    { rewrite <- Ec. by eapply list_elem_of_lookup_2. }
    by eapply modify_outcome.
  - intros s' E. split.
    + eapply (wf_cond_release_one key s); [|apply Hs]. unfold cond_release_one. by rewrite Hc, Hlen.
    + apply rbind_Ok in E as ([[w ws] s1] & Hp & E).
      apply pick_waiter_Ok in Hp as (idx & sch & Hw & -> & ->).
      split.
      * etrans; [|by eapply gentle_modify, E]. apply gentle_shrink; [done|done|].
        intros [k|k|k]; try done. unfold queue. simpl. destruct (decide (k = key)) as [->|Hne].
        -- rewrite lookup_insert_eq, Hc. simpl. apply sublist_delete.
        -- by rewrite lookup_insert_ne.
      * rewrite <- unblock_all_single in E. eapply tidies_release, E; [done| |done].
        rewrite Ec in Hw. eapply delete_release; [exact Hw| |].
        -- unfold queue at 1. simpl. by rewrite lookup_insert_eq, <- Ec.
        -- intros [k|k|k] Hne; try done. unfold queue. simpl. by rewrite lookup_insert_ne by congruence.
Qed.

Lemma cond_release_all_updates key self s a q j :
  sane s -> at_place self a q j s -> updates self s (cond_release_all key s) (at_place self a q j).
Proof.
  intros Hs Ha. unfold cond_release_all.
  destruct (conds s !! key) as [c|] eqn:Hc; [|by apply same_updates].
  assert (Ec : SCond.waiters c = queue s (AtCond key)) by (unfold queue; by rewrite Hc).
  apply gentle_updates; [done|done| |].
  - apply unblock_all_outcome. intros w Hw. rewrite Ec in Hw. by apply live_known, (sane_queue _ Hs (AtCond key)).
  - intros s' E. split.
    + eapply (wf_cond_release_all key s); [|apply Hs]. unfold cond_release_all. by rewrite Hc.
    + split.
      * etrans; [|by eapply gentle_unblock_all, E]. apply gentle_shrink; [done|done|].
        intros [k|k|k]; try done. unfold queue. simpl. destruct (decide (k = key)) as [->|Hne].
        -- rewrite lookup_delete_eq. apply sublist_nil_l.
        -- by rewrite lookup_delete_ne.
      * eapply tidies_release, E; [done| |done]. intros x [k|k|k]; try by left.
        destruct (decide (k = key)) as [->|Hne]; [rewrite Ec; by right|left].
        unfold queue in *. simpl. by rewrite lookup_delete_ne.
Qed.
(** ** Barriers *)
Lemma barrier_register_known key self s s1 :
  barrier_register key self s = Ok (Some s1) ->
  exists b, barriers s1 !! key = Some b /\ (forall v, is_Some (info s !! v) -> is_Some (info s1 !! v)) /\
    forall w, w ∈ SBarrier.waiters b -> w ∈ queue s (AtBarrier key) \/ w = self.
Proof.
  unfold barrier_register. destruct (barriers s !! key) as [b|] eqn:Hb; [|done].
  set (ws := if contains _ _ then _ else _).
  assert (Hws : forall w, w ∈ ws -> w ∈ queue s (AtBarrier key) \/ w = self).
  { intros w. unfold ws, queue. rewrite Hb. case_match; [by left|].
    rewrite elem_of_app, list_elem_of_singleton. tauto. }
  case_match; intros E.
  - apply rbind_Ok in E as (s2 & E & E1). simplify_eq. apply modify_self_Ok in E as (th & Hth & ->).
    exists (SBarrier.set_waiters ws b). simpl. rewrite lookup_insert_eq. split; [done|].
    split; [|done]. intros v Hv. rewrite lookup_insert. by case_decide.
  - simplify_eq. exists (SBarrier.set_waiters ws b). simpl. by rewrite lookup_insert_eq.
Qed.

Lemma barrier_arrive_outcome key self s :
  sane s -> live s self -> outcome_ok (barrier_arrive key self s) (fun _ => True).
Proof.
  intros Hs Hl. unfold barrier_arrive. apply outcome_bind.
  assert (Hr : outcome_ok (barrier_register key self s) (fun _ => True)).
  { unfold barrier_register. destruct (barriers s !! key); [|done]. case_match; [|done].
    apply outcome_bind. destruct Hl as (th & Hth & _). by eapply modify_outcome. }
  eapply outcome_mono; [exact Hr|]. intros [s1|] E _; [|done]. apply outcome_bind.
  apply barrier_register_known in E as (b & Hb & Hk & Hw). unfold barrier_release. rewrite Hb. simpl.
  case_match; [|done]. apply outcome_bind. eapply outcome_mono; [apply unblock_all_outcome|done].
  intros w [Hq| ->]%Hw; simpl; apply Hk, live_known; [by eapply sane_queue|done].
Qed.

Lemma barrier_arrive_lawful key self s b s' :
  sane s -> at_place self true None None s -> barrier_arrive key self s = Ok (Some (b, s')) ->
  lawful self s s' /\ at_place self true (if b then None else Some (AtBarrier key)) None s'.
Proof.
  intros Hs Ha E.
  assert (Hwf : wf s').
  { eapply wf_barrier_arrive, Hs; [by eapply idle_waits_nowhere|by eapply idle_joining|exact E]. }
  apply barrier_arrive_Ok in E as (br & Hb & E). cbv zeta in E.
  set (ws := if contains _ _ then _ else _) in *.
  assert (Hrounds : forall ws', (ws' = [] \/ Z.of_nat (length ws') < SBarrier.count br) -> rounds_open s ->
    rounds_open (set_barriers (<[key := SBarrier.set_waiters ws' br]> (barriers s)) s)).
  { intros ws' Hw Ho k b0. simpl. rewrite lookup_insert. case_decide; [intros [= <-]; exact Hw|apply Ho]. }
  case_match eqn:Hlt; destruct E as [-> E].
  - apply modify_self_Ok in E as (x & Hx & ->).
    eapply enter_lawful; [done|done|done|by exists x| |apply Hrounds; right; lia|done]. intros y q.
    change (queue (set_info _ ?s1) q) with (queue s1 q).
    destruct (decide (q = AtBarrier key)) as [->|Hne].
    + rewrite queue_set_barriers_eq. unfold ws, queue. rewrite Hb. simpl.
      case_match eqn:Hc; [apply contains_spec in Hc; naive_solver|].
      rewrite elem_of_app, list_elem_of_singleton. naive_solver.
    + rewrite queue_set_barriers_ne by done. naive_solver.
  - assert (G : gentle s s').
    { etrans; [|by eapply gentle_unblock_all, E]. apply gentle_shrink; [done|done|]. intros q.
      destruct (decide (q = AtBarrier key)) as [->|Hne].
      - rewrite queue_set_barriers_eq. apply sublist_nil_l.
      - by rewrite queue_set_barriers_ne. }
    split; [split; [split; [by eapply gentle_sane|apply G]|]|by eapply gentle_place].
    eapply tidies_release, E; [done| |by apply Hrounds; left]. intros x q Hx. destruct (decide (q = AtBarrier key)) as [->|Hne].
    + right. unfold queue in Hx. rewrite Hb in Hx. unfold ws. case_match; [done|]. set_solver.
    + left. by rewrite queue_set_barriers_ne.
Qed.

(** ** Exit and join *)
Lemma remove_lawful self s :
  sane s -> at_place self true None None s -> (forall j, joined_by s self j -> blocked_in s j = false) ->
  lawful self s (remove self s) /\ at_place self false None None (remove self s).
Proof.
  intros Hs Ha Hfree. assert (Hwf : wf (remove self s)).
  { apply wf_remove; [by eapply idle_waits_nowhere|apply Hs]. }
  destruct (at_known _ _ _ _ Ha) as (th & Hth & He). unfold remove in *. simpl in *. rewrite Hth in *.
  set (s' := set_info _ _) in *.
  assert (Hq : forall p, queue s' p = queue s p) by (by intros []).
  assert (Hj : forall pt v, joined_by s' pt v -> joined_by s pt v).
  { intros pt v (t0 & Ht & Ej & Ee). simpl in Ht. rewrite lookup_insert in Ht. case_decide.
    - by injection Ht as <-.
    - by exists t0. }
  assert (Hno : waits_nowhere s' self) by (intros p; rewrite Hq; by eapply idle_waits_nowhere).
  assert (Hnj : ~ joining s' self).
  { intros [pt Hp]. eapply idle_joining; [exact Ha|]. exists pt. by apply Hj. }
  assert (M : moves self s s').
  { split.
    - intros v p. rewrite Hq. by left.
    - intros v t0 Hne. simpl. rewrite lookup_insert_ne by done. eauto.
    - intros pt v Hp. left. by apply Hj.
    - intros v Hv. simpl. rewrite lookup_insert. by case_decide.
    - intros v (t0 & Ht & Ee). simpl in Ht. rewrite lookup_insert in Ht. case_decide; [|by exists t0].
      by injection Ht as <-.
    - intros v Hv (t0 & Ht & Ee). apply list_elem_of_filter. split; [|done]. intros ->. simpl in Ht.
      rewrite lookup_insert_eq in Ht. by injection Ht as <-.
    - intros v. unfold started. simpl. rewrite lookup_insert. case_decide as Hv; [|done]. subst v. by rewrite Hth. }
  split; [split; [split; [|done]|]|].
  - eapply sane_moves; [exact Hs|done|done|by right].
  - apply tidies_kept; [done| |].
    + intros v (t0 & Ht & Ee) Hb. unfold blocked_in in *. simpl in Ht, Hb. rewrite lookup_insert in Ht, Hb.
      case_decide; [by injection Ht as <-|]. split; [by exists t0|done].
    + intros v (t0 & Ht & Ee) Hb [[p Hp]|[pt Hp]]; [left; exists p; by rewrite Hq|right; exists pt].
      assert (Hne : pt <> self).
      { intros ->. apply Hfree in Hp. unfold blocked_in in *. simpl in Hb, Ht. rewrite lookup_insert in Hb, Ht.
        case_decide; [by injection Ht as <-|congruence]. }
      destruct Hp as (t1 & H1 & ?). exists t1. simpl. by rewrite lookup_insert_ne.
  - split.
    + split; [|done]. intros (t0 & Ht & Ee). simpl in Ht. rewrite lookup_insert_eq in Ht.
      by injection Ht as <-.
    + intros p Hp. by destruct (Hno p).
    + intros pt Hp. destruct Hnj. by exists pt.
Qed.

Lemma exit_thread_updates self s :
  sane s -> at_place self true None None s ->
  updates self s (exit_thread self s) (at_place self false None None).
Proof.
  intros Hs Ha. unfold exit_thread. destruct (at_known _ _ _ _ Ha) as (th & Hth & He).
  rewrite Hth. simpl. unfold updates.
  destruct (joiner th) as [j|] eqn:Hj; cbn [rbind].
  2: { apply remove_lawful; [done|done|]. intros j (t0 & H0 & Hj0 & _). congruence. }
  assert (Hjb : joined_by s self j) by (by exists th).
  destruct (sane_joiner _ Hs self j Hjb) as (jt & Hjt & _).
  apply outcome_bind. eapply modify_outcome; [exact Hjt|]. set (s1 := set_info _ s).
  assert (E : modify j (Thread.set_blocking false) s = Ok s1) by (unfold modify, t; by rewrite Hjt).
  assert (G : gentle s s1) by (by eapply gentle_modify, E).
  assert (Hwf : wf s1).
  { eapply wf_unblock; [|exact E|apply Hs]. intros p. apply (wf_joining _ (sane_wf _ Hs)).
    by exists self. }
  assert (Hs1 : sane s1) by (by eapply gentle_sane).
  destruct (remove_lawful self s1 Hs1) as [Hl Ha1]; [by eapply gentle_place| |].
  { intros j' Hj'. apply (gentle_joined _ _ _ _ G) in Hj' as (t0 & H0 & Hj0 & _). assert (j' = j) as -> by congruence.
    unfold blocked_in. simpl. by rewrite lookup_insert_eq. }
  split; [|exact Ha1]. destruct Hl as [[Hs2 M2] T2].
  split; [split; [done|transitivity s1; [apply G|done]]|].
  transitivity s1; [|done]. eapply tidies_modify, E. by intros [].
Qed.

Lemma join_mark_tidies self target s s' :
  wf s -> target ∈ threads s -> (forall v, joined_by s target v -> v = self) ->
  join_mark target self s = Ok s' -> tidies s s'.
Proof.
  intros Hs Ht Hno E. unfold join_mark in E. apply rbind_Ok in E as (s1 & E1 & E2).
  apply modify_self_Ok in E1 as (x & Hx & ->), E2 as (y & Hy & ->). simpl in Hy.
  assert (Ex : is_exited x = false).
  { destruct (is_exited x) eqn:Ee; [|done]. by destruct (wf_exited _ Hs _ _ Hx Ee). }
  assert (Hj : forall t0 pt, info s !! pt = Some t0 -> pt <> target ->
    exists t1, <[self := Thread.set_blocking true y]> (<[target := Thread.set_joiner (Some self) x]> (info s)) !! pt = Some t1 /\
      joiner t1 = joiner t0 /\ is_exited t1 = is_exited t0).
  { intros t0 pt H0 Hne. rewrite lookup_insert. case_decide as Hd; [subst pt|by rewrite lookup_insert_ne; eauto].
    rewrite lookup_insert_ne in Hy by done. simplify_eq. by eexists. }
  intros [Htd Ho]. split; [|exact Ho]. intros v (t0 & H0 & E0) Hb. unfold blocked_in in Hb. simpl in H0, Hb.
  destruct (decide (v = self)) as [->|Hne].
  - right. exists target. unfold joined_by. simpl. rewrite lookup_insert. case_decide as Hd.
    + subst target. rewrite lookup_insert_eq in Hy. injection Hy as <-. by eexists.
    + rewrite lookup_insert_eq. by eexists.
  - rewrite lookup_insert_ne in H0, Hb by done.
    assert (Hv : live s v /\ blocked_in s v = true).
    { unfold live, blocked_in. rewrite lookup_insert in H0, Hb. case_decide; [|eauto].
      injection H0 as <-. subst v. rewrite Hx. split; [by exists x|done]. }
    destruct (Htd v) as [[p Hp]|[pt Hp]]; [apply Hv|apply Hv|left; exists p; by destruct p|right; exists pt].
    assert (Hpt : pt <> target) by (intros ->; by apply Hno in Hp).
    destruct Hp as (t1 & H1 & Hj1 & He1). destruct (Hj t1 pt H1 Hpt) as (t2 & H2 & E2 & E3).
    exists t2. split; [done|]. split; congruence.
Qed.

(** The joiner that was recorded, if there was one, is forgotten. *)
Lemma join_mark_fair self target s :
  sane s -> at_place self true None None s -> target ∈ threads s ->
  outcome_ok (join_mark target self s) (fun s' =>
    (fair self s s' /\ at_place self true None (Some target) s') /\
    ((forall v, joined_by s target v -> v = self) -> tidies s s')).
Proof.
  intros Hs Ha Ht. destruct (wf_known _ (sane_wf _ Hs) _ Ht) as [tt' Htt].
  destruct (at_known _ _ _ _ Ha) as (th & Hth & He).
  eapply outcome_mono with (Q := fun _ => True).
  - unfold join_mark. apply outcome_bind. eapply modify_outcome; [exact Htt|].
    destruct (decide (target = self)) as [->|Hne]; (eapply modify_outcome; [|done]); simpl.
    + apply lookup_insert_eq.
    + by rewrite lookup_insert_ne.
  - intros s' E _. assert (Hwf : wf s').
    { eapply wf_join_mark, Hs; [by eapply idle_waits_nowhere|exact E]. }
    assert (Htd := fun Hno => join_mark_tidies self target s s' (sane_wf _ Hs) Ht Hno E).
    unfold join_mark in E. apply rbind_Ok in E as (s1 & E1 & E2).
    apply modify_self_Ok in E1 as (x & Hx & ->), E2 as (y & Hy & ->). simpl in Hy.
    set (s1 := set_info (<[target := _]> _) s) in *.
    assert (Hq1 : forall p, queue s1 p = queue s p) by (by intros []).
    assert (M1 : moves self s s1).
    { eapply (moves_touch self target s s1); [exact Hx|done|done| |done|done|by right|by left].
      intros v p. rewrite Hq1. by left. }
    set (s2 := set_info (<[self := _]> _) s1).
    assert (Hq2 : forall p, queue s2 p = queue s p) by (by intros []).
    assert (M2 : moves self s1 s2).
    { eapply (moves_touch self self s1 s2); [exact Hy|done|done| |done|done|by left|by right].
      intros v p. rewrite Hq2, Hq1. by left. }
    assert (Ey : is_exited y = false).
    { rewrite lookup_insert in Hy. case_decide as Ed; [|congruence]. subst target.
      injection Hy as <-. simpl. congruence. }
    assert (Hl : live s2 self) by (eexists; split; [apply lookup_insert_eq|done]).
    assert (M : moves self s s2) by (by transitivity s1).
    split; [split; [split; [eapply sane_moves; eauto|done]|]|].
    2: { exact Htd. }
    split.
    + done.
    + intros p Hp. rewrite Hq2 in Hp. by destruct (idle_waits_nowhere _ _ _ Ha p).
    + intros pt (t0 & Ht0 & Ej & Ee). f_equal. simpl in Ht0.
      destruct (decide (pt = target)) as [->|Hne]; [done|].
      assert (joining s self); [|by destruct (idle_joining _ _ _ Ha)]. exists pt.
      rewrite lookup_insert in Ht0. case_decide as Ed.
      * subst pt. injection Ht0 as <-. rewrite lookup_insert_ne in Hy by done.
        exists y. done.
      * rewrite lookup_insert_ne in Ht0 by done. by exists t0.
Qed.

(** ** Registration *)
Lemma add_sane th s :
  sane s -> ~ live s (pthread th) -> is_exited th = false -> joiner th = None -> sane (add th s).
Proof.
  intros Hs Hnew He Hj. assert (Hno : waits_nowhere s (pthread th)).
  { intros p Hp. by apply Hnew, (sane_queue _ Hs p). }
  assert (Hlive : forall v, live s v -> live (add th s) v).
  { intros v (t0 & Ht & E). unfold live. simpl. rewrite lookup_insert. case_decide; [by exists th|by exists t0]. }
  split.
  - apply wf_add; [|done|done|done|apply Hs]. intros Hin. apply Hnew.
    destruct (wf_known _ (sane_wf _ Hs) _ Hin) as [t0 Ht]. exists t0. split; [done|].
    destruct (is_exited t0) eqn:E; [|done]. by destruct (wf_exited _ (sane_wf _ Hs) _ _ Ht E).
  - intros v (t0 & Ht & E). simpl in Ht |- *. rewrite elem_of_app, list_elem_of_singleton.
    rewrite lookup_insert in Ht. case_decide; [by right|left]. apply (sane_listed _ Hs). by exists t0.
  - intros p v Hv. apply Hlive, (sane_queue _ Hs p). by destruct p.
  - intros pt v (t0 & Ht & Ej & Ee). apply Hlive, (sane_joiner _ Hs pt). simpl in Ht.
    rewrite lookup_insert in Ht. case_decide as Ed; [|by exists t0]. subst. congruence.
Qed.

Lemma add_tidies th s : ~ live s (pthread th) -> is_blocking th = false -> joiner th = None -> tidies s (add th s).
Proof.
  intros Hnew Hb Hj. apply tidies_kept; [done| |].
  - intros v (t0 & Ht & E) Hv. unfold live, blocked_in in *. simpl in Ht, Hv. rewrite lookup_insert in Ht, Hv.
    case_decide; [congruence|]. split; [by exists t0|done].
  - intros v _ _ [[p Hp]|[pt (t0 & Ht & Ej & E)]]; [left; exists p; by destruct p|right].
    exists pt, t0. simpl. rewrite lookup_insert_ne; [done|]. intros <-. apply Hnew. by exists t0.
Qed.
End Integrity.

(** In its own code, or about to begin: live, in no queue, waiting for nobody. *)
Abbreviation idle self := (at_place self true None None).
