(* ===== verification/Runtime.v ===== *)
(** The runtime: the shared world, the global mutex, the call depth, and the
    operations of [State] that suspend ([src/rsched/src/lib.rs]).

    What the library gets from outside is a parameter: the C library and the
    thread-sanitizer runtime ([Libc]) and the environment variables ([env]).
    Accesses that are undefined behaviour in the source (a freed box, a mutex
    unlocked by a thread that does not hold it) are panics here, with a message
    that starts with "UB". *)
From S2P Require Import Prelude Event Scheduler Machine State.
Import StateOps.

(** How the crate is built: the features and the overflow checks. *)
Record Cfg : Type := mkCfg { tsan : bool; asan : bool; overflow_checks : bool }.

(** The condition variables of the library, by address: the [suspend_cond] in the
    box of a thread and the [ready_cond] in a [StartArg]. *)
Inductive CondId : Set :=
| SuspendCond (pt : PthreadT)
| ReadyCond (sa : Z).
#[export] Instance CondId_eq_dec : EqDecision CondId.
Proof. solve_decision. Defined.

(** What a thread can be blocked on. *)
Inductive Blocker : Set :=
| OnGmtx
| OnCond (c : CondId)
| OnJoin (pt : PthreadT).
#[export] Instance Blocker_eq_dec : EqDecision Blocker.
Proof. solve_decision. Defined.

(** Calls that leave the library. *)
Inductive RealCall : Set :=
| PtMutexLock (lock : Z)
| PtMutexUnlock (lock : Z)
| PtCreate (via_plt : bool) (attr sa : Z)
| PtJoin (thread : PthreadT)
| PtBarrierInit (barrier attr count : Z)
| TsanAcquire (addr : Z)
| TsanRelease (addr : Z)
| TsanIgnoreBegin
| TsanIgnoreEnd
| SigactionSigsys
| PrctlNoNewPrivs
| PrctlSeccomp
(** a function of the next library in the search order, by its address *)
| CallAt (f : Z) (args : list Z).
#[export] Instance RealCall_eq_dec : EqDecision RealCall.
Proof. solve_decision. Defined.

Abbreviation History := (list (PthreadT * RealCall)) (only parsing).

(** The C library, as far as the code observes it.  Its answers may depend on
    everything it was asked before (newest first). *)
Record Libc : Type := mkLibc {
  (** return code of a call *)
  ret : History -> PthreadT -> RealCall -> Z;
  (** the [pthread_t] a successful creation stores *)
  new_pthread : History -> PthreadT;
  (** the waiters a signal wakes, among those given *)
  signal_wakes : History -> CondId -> list PthreadT -> list PthreadT;
  (** [gettid()]: a [pthread_t] may be given to a later thread, with another id *)
  gettid : History -> PthreadT -> PidT;
  (** whether the weak sanitizer symbols are bound *)
  tsan_runtime : bool
}.

(** What POSIX documents of [pthread_cond_signal]: at least one of the waiters is
    unblocked, if there is one. *)
Class SignalLaw (L : Libc) : Prop := {
  signal_wakes_some h c ws : ws <> [] -> exists t, t ∈ signal_wakes L h c ws /\ t ∈ ws
}.

Record StartArg : Type := mkStartArg { routine : Z; arg : Z; ready : bool }.

(** The statics of the preload shim: the resolved [NEXT_*] slots by symbol, and the
    thread-creation statics of its sanitizer build. *)
Record Statics : Type := mkStatics {
  NEXT : gmap string Z;
  TSAN_PTHREAD_CREATE_COUNT : Z;
  TSAN_BACKGROUND_MODE : Z
}.
Definition statics0 : Statics := mkStatics ∅ 0 U64_MAX.

Record World : Type := mkWorld {
  STATE : option (State BoxScheduler);
  INITED : bool;
  (** the thread that holds the global mutex *)
  GMTX : option PthreadT;
  (** the thread-locals, by OS thread *)
  MY_PT : gmap PthreadT PthreadT;
  CALL_DEPTH : gmap PthreadT Z;
  (** the live [StartArg] boxes *)
  boxes : gmap Z StartArg;
  (** the live [TSanGateArg] boxes: routine and argument *)
  gates : gmap Z (Z * Z);
  next_box : Z;
  (** user memory, by byte (see Memory.v) *)
  mem : gmap Z Z;
  stderr : list string;
  history : list (PthreadT * RealCall);
  (** OS threads asleep in [pthread_cond_wait] and not woken yet *)
  parked : gmap PthreadT CondId;
  (** OS threads created whose start routine has not begun *)
  spawned : list (PthreadT * Z);
  (** the statics of the preload shim (see Preload.v) *)
  statics : Statics
}.

Definition set_STATE x (w : World) : World :=
  mkWorld x (INITED w) (GMTX w) (MY_PT w) (CALL_DEPTH w) (boxes w) (gates w) (next_box w) (mem w) (stderr w) (history w) (parked w) (spawned w) (statics w).
Definition set_INITED x (w : World) : World :=
  mkWorld (STATE w) x (GMTX w) (MY_PT w) (CALL_DEPTH w) (boxes w) (gates w) (next_box w) (mem w) (stderr w) (history w) (parked w) (spawned w) (statics w).
Definition set_GMTX x (w : World) : World :=
  mkWorld (STATE w) (INITED w) x (MY_PT w) (CALL_DEPTH w) (boxes w) (gates w) (next_box w) (mem w) (stderr w) (history w) (parked w) (spawned w) (statics w).
Definition set_MY_PT x (w : World) : World :=
  mkWorld (STATE w) (INITED w) (GMTX w) x (CALL_DEPTH w) (boxes w) (gates w) (next_box w) (mem w) (stderr w) (history w) (parked w) (spawned w) (statics w).
Definition set_CALL_DEPTH x (w : World) : World :=
  mkWorld (STATE w) (INITED w) (GMTX w) (MY_PT w) x (boxes w) (gates w) (next_box w) (mem w) (stderr w) (history w) (parked w) (spawned w) (statics w).
Definition set_boxes x (w : World) : World :=
  mkWorld (STATE w) (INITED w) (GMTX w) (MY_PT w) (CALL_DEPTH w) x (gates w) (next_box w) (mem w) (stderr w) (history w) (parked w) (spawned w) (statics w).
Definition set_gates x (w : World) : World :=
  mkWorld (STATE w) (INITED w) (GMTX w) (MY_PT w) (CALL_DEPTH w) (boxes w) x (next_box w) (mem w) (stderr w) (history w) (parked w) (spawned w) (statics w).
Definition set_next_box x (w : World) : World :=
  mkWorld (STATE w) (INITED w) (GMTX w) (MY_PT w) (CALL_DEPTH w) (boxes w) (gates w) x (mem w) (stderr w) (history w) (parked w) (spawned w) (statics w).
Definition set_mem x (w : World) : World :=
  mkWorld (STATE w) (INITED w) (GMTX w) (MY_PT w) (CALL_DEPTH w) (boxes w) (gates w) (next_box w) x (stderr w) (history w) (parked w) (spawned w) (statics w).
Definition set_stderr x (w : World) : World :=
  mkWorld (STATE w) (INITED w) (GMTX w) (MY_PT w) (CALL_DEPTH w) (boxes w) (gates w) (next_box w) (mem w) x (history w) (parked w) (spawned w) (statics w).
Definition set_history x (w : World) : World :=
  mkWorld (STATE w) (INITED w) (GMTX w) (MY_PT w) (CALL_DEPTH w) (boxes w) (gates w) (next_box w) (mem w) (stderr w) x (parked w) (spawned w) (statics w).
Definition set_parked x (w : World) : World :=
  mkWorld (STATE w) (INITED w) (GMTX w) (MY_PT w) (CALL_DEPTH w) (boxes w) (gates w) (next_box w) (mem w) (stderr w) (history w) x (spawned w) (statics w).
Definition set_statics x (w : World) : World :=
  mkWorld (STATE w) (INITED w) (GMTX w) (MY_PT w) (CALL_DEPTH w) (boxes w) (gates w) (next_box w) (mem w) (stderr w) (history w) (parked w) (spawned w) x.
Definition set_spawned x (w : World) : World :=
  mkWorld (STATE w) (INITED w) (GMTX w) (MY_PT w) (CALL_DEPTH w) (boxes w) (gates w) (next_box w) (mem w) (stderr w) (history w) (parked w) x (statics w).

(** The world when the process starts. *)
Definition world0 : World := mkWorld None false None ∅ ∅ ∅ ∅ 1 ∅ [] [] ∅ [] statics0.

Abbreviation P A := (prog World Blocker A) (only parsing).

(** * Steps on the world *)

(** [st()] used as a reader, and as a writer. *)
Definition read_state {A} (f : State BoxScheduler -> result A) : P A :=
  Act (fun w => let? s := expect (STATE w) "rsched not initialised" in
                let? a := f s in Ok (a, w)).
Definition with_state {A} (f : State BoxScheduler -> result (A * State BoxScheduler)) : P A :=
  Act (fun w => let? s := expect (STATE w) "rsched not initialised" in
                let? (a, s') := f s in Ok (a, set_STATE (Some s') w)).
Definition update_state (f : State BoxScheduler -> result (State BoxScheduler)) : P unit :=
  with_state (fun s => let? s' := f s in Ok (tt, s')).

Definition read_world {A} (f : World -> A) : P A := Act (fun w => Ok (f w, w)).
Definition modify_world (f : World -> World) : P unit := Act (fun w => Ok (tt, f w)).

Section Runtime.
Context (cfg : Cfg) (L : Libc) (env : string -> option string).
(** The OS thread that runs the code: [libc::pthread_self()]. *)
Context (self : PthreadT).

(** A call into the C library or the sanitizer runtime. *)
Definition real_call (c : RealCall) : P Z :=
  Act (fun w => Ok (ret L (history w) self c, set_history ((self, c) :: history w) w)).

(** [libc::syscall(libc::SYS_gettid)] *)
Definition own_tid : P PidT := read_world (fun w => gettid L (history w) self).

(** * Reentrancy depth *)
Definition depth (w : World) (t : PthreadT) : Z := default 0 (CALL_DEPTH w !! t).

Definition depth_enter : P unit :=
  modify_world (fun w => set_CALL_DEPTH (<[self := wrap32 (depth w self + 1)]> (CALL_DEPTH w)) w).
Definition depth_exit : P unit :=
  modify_world (fun w => set_CALL_DEPTH (<[self := wrap32 (depth w self - 1)]> (CALL_DEPTH w)) w).
Definition is_in_rsched : P bool := read_world (fun w => 0 <? depth w self).
Definition rsched_try_enter : P bool :=
  Act (fun w => Ok (depth w self =? 0,
    set_CALL_DEPTH (<[self := wrap32 (depth w self + 1)]> (CALL_DEPTH w)) w)).
Definition rsched_exit : P unit := depth_exit.
Definition with_internal_depth {A} (f : P A) : P A :=
  depth_enter ;; let! r := f in depth_exit ;; Ret r.

(** * Sanitizer annotations *)
Definition tsan_call (c : RealCall) : P unit :=
  when (tsan cfg && tsan_runtime L) (real_call c ;; Ret tt).
Definition tsan_ignore_begin : P unit := tsan_call TsanIgnoreBegin.
Definition tsan_ignore_end : P unit := tsan_call TsanIgnoreEnd.
Definition sync_acquire : P unit := tsan_ignore_begin.
Definition sync_release : P unit := tsan_ignore_end.
Definition tsan_user_acquire (addr : Z) : P unit :=
  tsan_ignore_end ;; tsan_call (TsanAcquire addr) ;; tsan_ignore_begin.
Definition tsan_user_release (addr : Z) : P unit :=
  tsan_ignore_end ;; tsan_call (TsanRelease addr) ;; tsan_ignore_begin.

(** * The global mutex and the condition variables *)

(** [pthread_mutex_lock(GMTX)]: wait until it is free, then hold it. *)
Definition gmtx_lock : P unit :=
  Suspend OnGmtx ;; modify_world (set_GMTX (Some self)).
Definition gmtx_unlock : P unit :=
  Act (fun w => if bool_decide (GMTX w = Some self) then Ok (tt, set_GMTX None w)
                else Panic "UB: unlock of a mutex the thread does not hold").

Definition glock : P unit := with_internal_depth gmtx_lock.
Definition gunlock : P unit := with_internal_depth gmtx_unlock.
Definition rsched_glock : P unit := glock ;; sync_acquire.
Definition rsched_gunlock : P unit := sync_release ;; gunlock.

(** [pthread_cond_wait(cond, GMTX)]: release the mutex and sleep in one step,
    hold the mutex again after the wake-up. *)
Definition pt_cond_wait (c : CondId) : P unit :=
  Act (fun w => if bool_decide (GMTX w = Some self)
                then Ok (tt, set_parked (<[self := c]> (parked w)) (set_GMTX None w))
                else Panic "UB: wait with a mutex the thread does not hold") ;;
  Suspend (OnCond c) ;;
  modify_world (set_GMTX (Some self)).

(** The sleepers of a condition variable. *)
Definition waiters_on (c : CondId) (w : World) : list PthreadT :=
  fst <$> filter (fun p => snd p = c) (map_to_list (parked w)).

Definition pt_cond_signal (c : CondId) : P unit :=
  modify_world (fun w =>
    let woken := signal_wakes L (history w) c (waiters_on c w) in
    set_parked (filter (fun p => ~ (snd p = c /\ fst p ∈ woken)) (parked w)) w).

Definition rsched_cond_wait (c : CondId) : P unit :=
  sync_release ;; with_internal_depth (pt_cond_wait c) ;; sync_acquire.

(** [with_internal_depth(|| (rpt().cond_signal)(c))] *)
Definition rpt_cond_signal (c : CondId) : P unit := with_internal_depth (pt_cond_signal c).

(** * The boxes of [rsched_pthread_create] *)
Definition read_box {A} (sa : Z) (f : StartArg -> A) : P A :=
  Act (fun w => let? b := expect (boxes w !! sa) "UB: access to a freed box" in Ok (f b, w)).
Definition box_new (b : StartArg) : P Z :=
  Act (fun w => Ok (next_box w, set_next_box (next_box w + 1) (set_boxes (<[next_box w := b]> (boxes w)) w))).
Definition box_free (sa : Z) : P unit :=
  Act (fun w => let? _ := expect (boxes w !! sa) "UB: double free of a box" in
                Ok (tt, set_boxes (delete sa (boxes w)) w)).
Definition box_set_ready (sa : Z) : P unit :=
  Act (fun w => let? b := expect (boxes w !! sa) "UB: access to a freed box" in
                Ok (tt, set_boxes (<[sa := mkStartArg (routine b) (arg b) true]> (boxes w)) w)).

Definition my_pt : P PthreadT := read_world (fun w => default 0 (MY_PT w !! self)).
Definition set_my_pt (pt : PthreadT) : P unit :=
  modify_world (fun w => set_MY_PT (<[self := pt]> (MY_PT w)) w).

(** * [State], the operations that suspend *)

(** [while !sa.ready { rsched_cond_wait(...) }] *)
Definition wait_ready (sa : Z) : P unit :=
  Iter (fun _ : unit =>
    let! r := read_box sa ready in
    if r then Ret (inr tt)
    else rsched_cond_wait (ReadyCond sa) ;; Ret (inl tt)) tt.

Definition drain_pending_child : P unit :=
  let! p := with_state (fun s => Ok (pending_child s, set_pending_child None s)) in
  match p with
  | None => Ret tt
  | Some (sa, child_pt) =>
      wait_ready sa ;;
      box_free sa ;;
      update_state (fun s =>
        if bool_decide (is_Some (info s !! child_pt))
        then modify child_pt (Thread.set_startup_done true) s else Ok s)
  end.

Definition wake (next : PthreadT) (suspend_caller : bool) (caller : PthreadT) : P unit :=
  when (negb (next =? caller)) (
    read_state (fun s => expect (info s !! next) "called `Option::unwrap()` on a `None` value") ;;
    rpt_cond_signal (SuspendCond next) ;;
    when suspend_caller (
      update_state (modify_unwrap caller (Thread.set_in_wait true)) ;;
      rsched_cond_wait (SuspendCond caller) ;;
      update_state (modify_unwrap caller (Thread.set_in_wait false)))).

(** [self.scheduler.on_event(event)], whose lines go to stderr. *)
Definition deliver_event (ev : option Event) : P unit :=
  let! out := with_state (fun s =>
    let (sch, out) := on_event (scheduler s) ev in Ok (out, set_scheduler sch s)) in
  modify_world (fun w => set_stderr (stderr w ++ out) w).

(** [self.threads[idx]] *)
Definition thread_at (idx : nat) : P PthreadT :=
  read_state (fun s => expect (threads s !! idx) "index out of bounds").

Definition context_switch (caller : PthreadT) : P unit :=
  drain_pending_child ;;
  let! known := read_state (fun s => Ok (contains caller (threads s))) in
  if negb known then Ret tt else
  let! n := read_state (fun s => Ok (length (threads s))) in
  if (n <=? 1)%nat then Ret tt else
  update_state (fun s =>
    let? th := index caller s in
    if negb (startup_done th) then modify caller (Thread.set_startup_done true) s else Ok s) ;;
  let! o := with_state StateOps.choose in
  match o with
  | Some idx =>
      let! next := thread_at idx in
      wake next true caller ;;
      let! event := read_state (fun s => Ok (info s !! caller ≫= next_event)) in
      deliver_event event
  | None => Ret tt
  end.

(** [if self.t(caller).is_blocking { ...in_rsched_wait...; cond_wait; ... }] *)
Definition wait_while_blocking (caller : PthreadT) : P unit :=
  let! b := read_state (fun s => let? th := t caller s in Ok (is_blocking th)) in
  when b (
    update_state (modify caller (Thread.set_in_wait true)) ;;
    rsched_cond_wait (SuspendCond caller) ;;
    update_state (modify caller (Thread.set_in_wait false))).

Definition mutex_lock (key : Z) (caller : PthreadT) : P unit :=
  let! my_tid := read_state (fun s => let? th := index caller s in Ok (tid th)) in
  Iter (fun _ : unit =>
    let! taken := with_state (mutex_acquire (overflow_checks cfg) key caller my_tid) in
    if taken then Ret (inr tt)
    else
      context_switch caller ;;
      wait_while_blocking caller ;;
      Ret (inl tt)) tt.

(** * Initialisation *)
Definition State_new (seed : Z) : State BoxScheduler :=
  let logging := bool_decide (env "RSCHED_LOG" = Some "1"%string) in
  empty (if logging then BoxLogging (LoggingScheduler.new (RandomWalk.new seed))
         else BoxRandomWalk (RandomWalk.new seed)).

Definition default_seed : Z := 0x12345678abcd.
Definition seed_from_env : Z :=
  match env "RANDOM_SEED" with
  | Some v => default default_seed (ParseU64.parse v)
  | None => default_seed
  end.

(** Register the calling thread as the main thread. *)
Definition register_main : P unit :=
  set_my_pt self ;;
  rsched_glock ;;
  let! my_tid := own_tid in
  update_state (fun s => Ok (add (Thread.set_startup_done true (Thread.new_with_tid self my_tid)) s)) ;;
  rsched_gunlock.

(** [RSCHED_SECCOMP=1]: install the handler, then the filter (its program is in
    Seccomp.v); each call is asserted to return 0. *)
Definition asserted_call (c : RealCall) (msg : string) : P unit :=
  let! r := real_call c in
  Act (fun w => if r =? 0 then Ok (tt, w) else Panic msg).
Definition install_sigsys_handler : P unit :=
  asserted_call SigactionSigsys "rsched: sigaction(SIGSYS) failed".
Definition install_seccomp_filter : P unit :=
  asserted_call PrctlNoNewPrivs "rsched: prctl(PR_SET_NO_NEW_PRIVS) failed" ;;
  asserted_call PrctlSeccomp "rsched: prctl(PR_SET_SECCOMP) failed".
Definition install_seccomp_tripwire_if_requested : P unit :=
  when (bool_decide (env "RSCHED_SECCOMP" = Some "1"%string)) (
    install_sigsys_handler ;; install_seccomp_filter).

Definition rsched_init : P unit :=
  let! was := Act (fun w => Ok (INITED w, set_INITED true w)) in
  if was then Ret tt
  else
    modify_world (set_STATE (Some (State_new seed_from_env))) ;;
    register_main ;;
    install_seccomp_tripwire_if_requested.

Definition ensure_init : P unit :=
  let! i := read_world INITED in
  when (negb i) rsched_init.

Definition rsched_reinit (seed : Z) : P unit :=
  modify_world (set_STATE (Some (State_new seed))) ;;
  modify_world (set_INITED true) ;;
  register_main.
End Runtime.

Lemma triple_own_tid G R E Pre L self : triple G R E Pre (own_tid L self) (fun _ => Pre).
Proof. by intros w0 w H. Qed.

(** * Walking through a program

    [acts I p] asks that every step of [p] respects [I].  [acts_walk leaf] goes through a
    program down to its steps, opening the small functions of this file; [leaf] closes a
    step, or a function of which a lemma is known. *)
Ltac acts_open := progress unfold rsched_glock, rsched_gunlock, glock, gunlock, sync_acquire, sync_release,
  tsan_ignore_begin, tsan_ignore_end, tsan_user_acquire, tsan_call, real_call, with_internal_depth, depth_enter,
  depth_exit, gmtx_lock, gmtx_unlock, pt_cond_wait, pt_cond_signal, rsched_cond_wait, rpt_cond_signal, read_box,
  box_free, box_set_ready, own_tid, my_pt, set_my_pt, wait_ready, thread_at.

Ltac acts_walk leaf :=
  repeat first
    [ leaf
    | match goal with
      | |- forall _, acts _ _ => intros
      | |- _ /\ _ => split
      | |- True => exact I
      | |- acts _ (Ret _) => exact I
      | |- acts _ (Suspend _) => exact I
      | |- acts _ (when ?b _) => unfold when; destruct b
      | |- acts _ (if ?b then _ else _) => destruct b
      | |- acts _ (match ?o with Some _ => _ | None => _ end) => destruct o
      | |- acts _ (let (_, _) := ?x in _) => destruct x
      | |- acts _ (Bind _ _) => split
      | |- acts _ (Iter _ _) => intros ?
      | |- acts _ (Act _) => intros ? ? ? ?
      | H : (if ?b then _ else _) = Ok _ |- _ => destruct b; [|discriminate H]
      | H : rbind _ _ = Ok _ |- _ => apply rbind_Ok in H; destruct H as (? & ? & H)
      | H : Ok _ = Ok _ |- _ -> _ => injection H as _ <-; intros ?; assumption
      | H : Ok _ = Ok _ |- _ => injection H as _ <-; reflexivity
      | |- acts _ _ => acts_open
      end ].
