(* ===== verification/Sample.v ===== *)
(** Concrete surroundings for the witnesses: a C library whose calls succeed and
    whose signals wake every waiter, an empty environment, a plain build, and the
    signal law. *)
From S2P Require Import Prelude Machine State Runtime.

Definition creations (h : list (PthreadT * RealCall)) : nat :=
  length (List.filter (fun p => match snd p with PtCreate _ _ _ => true | _ => false end) h).
Definition plain_libc : Libc :=
  mkLibc (fun _ _ _ => 0) (fun h => 100 + Z.of_nat (creations h)) (fun _ _ ws => ws) (fun _ pt => 1000 + pt) false.
Definition plain_cfg : Cfg := mkCfg false false true.
Definition no_env (_ : string) : option string := None.
Definition no_code (_ : Z) (_ : nat) : list Z := [].

#[export] Instance plain_signal_law : SignalLaw plain_libc.
Proof. split. intros h c [|w ws] Hne; [done|]. exists w. split; simpl; set_solver. Defined.
