(* ===== verification/Seccomp.v ===== *)
(** The optional seccomp tripwire ([src/rsched/src/lib.rs], from
    [seccomp_sigsys_handler] to [install_seccomp_filter]): the filter program that
    traps futex (and clone) system calls made outside the library's own system-call
    stub, and the handler of the trap.

    The kernel's interpreter of filters is a parameter; the class [BpfMachine]
    states its documented behaviour on the instructions the filter uses. *)
From S2P Require Import Prelude Event Scheduler Machine State Runtime.

(** * Classic BPF *)
Record sock_filter : Set := mkFilter { code : Z; jt : Z; jf : Z; k : Z }.

(** [libc] constants. *)
Definition BPF_LD : Z := 0x00.
Definition BPF_JMP : Z := 0x05.
Definition BPF_RET : Z := 0x06.
Definition BPF_W : Z := 0x00.
Definition BPF_ABS : Z := 0x20.
Definition BPF_JEQ : Z := 0x10.
Definition BPF_K : Z := 0x00.
Definition SYS_futex : Z := 202.
Definition SYS_clone : Z := 56.

Definition LD_W_ABS : Z := Z.lor BPF_LD (Z.lor BPF_W BPF_ABS).
Definition JMP_JEQ_K : Z := Z.lor BPF_JMP (Z.lor BPF_JEQ BPF_K).
Definition RET_K : Z := Z.lor BPF_RET BPF_K.

(** The data a filter sees: the 32-bit word at an offset of [struct seccomp_data]. *)
Abbreviation SeccompData := (Z -> Z) (only parsing).

(** [exec prog data pc acc]: the value a program returns from [pc] on. *)
Class BpfMachine (exec : list sock_filter -> SeccompData -> nat -> Z -> option Z) : Prop := {
  exec_ld prog data pc acc off :
    prog !! pc = Some (mkFilter LD_W_ABS 0 0 off) ->
    exec prog data pc acc = exec prog data (S pc) (data off);
  exec_jeq prog data pc acc c t f :
    prog !! pc = Some (mkFilter JMP_JEQ_K t f c) ->
    exec prog data pc acc = exec prog data (S pc + Z.to_nat (if (acc =? c)%Z then t else f))%nat acc;
  exec_ret prog data pc acc c :
    prog !! pc = Some (mkFilter RET_K 0 0 c) -> exec prog data pc acc = Some c
}.

(** * The filter *)
Definition SECCOMP_RET_KILL_PROCESS : Z := 0x80000000.
Definition SECCOMP_RET_TRAP : Z := 0x00030000.
Definition SECCOMP_RET_ALLOW : Z := 0x7fff0000.
Definition AUDIT_ARCH_X86_64 : Z := 0xc000003e.
Definition SECCOMP_DATA_NR : Z := 0.
Definition SECCOMP_DATA_ARCH : Z := 4.
Definition SECCOMP_DATA_IP_LO : Z := 8.
Definition SECCOMP_DATA_IP_HI : Z := 12.
Definition SYS_CLONE3_X86_64 : Z := 435.

Definition stmt (c x : Z) : sock_filter := mkFilter c 0 0 x.
Definition jump (c x t f : Z) : sock_filter := mkFilter c t f x.

Definition clone_syscall (trap_clone : bool) : Z := if trap_clone then SYS_clone else U32_MAX.
Definition clone3_syscall (trap_clone : bool) : Z :=
  if trap_clone then SYS_CLONE3_X86_64 else U32_MAX - 1.

(** The instruction pointer of a system call made by the stub at [insn]: the
    address after the two bytes of [syscall]. *)
Definition syscall_ip (insn : Z) : Z := insn + 2.

Definition filter (trap_clone : bool) (insn : Z) : list sock_filter :=
  [stmt LD_W_ABS SECCOMP_DATA_ARCH;
   jump JMP_JEQ_K AUDIT_ARCH_X86_64 1 0;
   stmt RET_K SECCOMP_RET_KILL_PROCESS;
   stmt LD_W_ABS SECCOMP_DATA_NR;
   jump JMP_JEQ_K SYS_futex 3 0;
   jump JMP_JEQ_K (clone_syscall trap_clone) 2 0;
   jump JMP_JEQ_K (clone3_syscall trap_clone) 1 0;
   stmt RET_K SECCOMP_RET_ALLOW;
   stmt LD_W_ABS SECCOMP_DATA_IP_LO;
   jump JMP_JEQ_K (wrap32 (syscall_ip insn)) 0 2;
   stmt LD_W_ABS SECCOMP_DATA_IP_HI;
   jump JMP_JEQ_K (wrap32 (Z.shiftr (syscall_ip insn) 32)) 1 0;
   stmt RET_K SECCOMP_RET_TRAP;
   stmt RET_K SECCOMP_RET_ALLOW].

Definition trap_clone_requested (env : string -> option string) : bool :=
  bool_decide (env "RSCHED_SECCOMP_TRAP_CLONE" = Some "1"%string).

(** * What the filter decides *)
Definition data_ip (data : SeccompData) : Z :=
  data SECCOMP_DATA_IP_LO + 2 ^ 32 * data SECCOMP_DATA_IP_HI.

Definition guarded (trap_clone : bool) (nr : Z) : bool :=
  (nr =? SYS_futex) || (nr =? clone_syscall trap_clone) || (nr =? clone3_syscall trap_clone).

Definition decision (trap_clone : bool) (insn : Z) (data : SeccompData) : Z :=
  if negb (data SECCOMP_DATA_ARCH =? AUDIT_ARCH_X86_64) then SECCOMP_RET_KILL_PROCESS
  else if guarded trap_clone (data SECCOMP_DATA_NR) && negb (data_ip data =? syscall_ip insn)
       then SECCOMP_RET_TRAP
       else SECCOMP_RET_ALLOW.

Lemma split_ip insn data :
  in_u64 (syscall_ip insn) -> in_u32 (data SECCOMP_DATA_IP_LO) -> in_u32 (data SECCOMP_DATA_IP_HI) ->
  (data_ip data =? syscall_ip insn) =
  (data SECCOMP_DATA_IP_LO =? wrap32 (syscall_ip insn)) &&
  (data SECCOMP_DATA_IP_HI =? wrap32 (Z.shiftr (syscall_ip insn) 32)).
Proof.
  intros Hip Hlo Hhi. unfold data_ip. set (ip := syscall_ip insn) in *.
  rewrite Z.shiftr_div_pow2 by lia. unfold wrap32, in_u32, in_u64, u32_mod, u64_mod in *.
  assert (Hq : 0 <= ip / 2 ^ 32 < 2 ^ 32).
  { split; [apply Z.div_pos; lia|]. apply Z.div_lt_upper_bound; lia. }
  rewrite (Z.mod_small (ip / 2 ^ 32)) by done.
  pose proof (Z.div_mod ip (2 ^ 32) ltac:(lia)). pose proof (Z.mod_pos_bound ip (2 ^ 32) ltac:(lia)).
  destruct (Z.eqb_spec (data SECCOMP_DATA_IP_LO) (ip mod 2 ^ 32)) as [El|El],
    (Z.eqb_spec (data SECCOMP_DATA_IP_HI) (ip / 2 ^ 32)) as [Eh|Eh]; simpl;
    destruct (Z.eqb_spec (data SECCOMP_DATA_IP_LO + 2 ^ 32 * data SECCOMP_DATA_IP_HI) ip) as [E|E];
    try reflexivity; exfalso; nia.
Qed.

Section Filter.
Context (exec : list sock_filter -> SeccompData -> nat -> Z -> option Z) `{!BpfMachine exec}.

Ltac ld := erewrite exec_ld by reflexivity.
Ltac jeq := erewrite exec_jeq by reflexivity.
Ltac ret := erewrite exec_ret by reflexivity.

(** The tail of the filter, from the comparison of the instruction pointer on. *)
Lemma filter_tail trap_clone insn data acc :
  in_u64 (syscall_ip insn) -> in_u32 (data SECCOMP_DATA_IP_LO) -> in_u32 (data SECCOMP_DATA_IP_HI) ->
  exec (filter trap_clone insn) data 8 acc =
    Some (if data_ip data =? syscall_ip insn then SECCOMP_RET_ALLOW else SECCOMP_RET_TRAP).
Proof.
  intros Hip Hlo Hhi. rewrite split_ip by done. ld. jeq.
  destruct (data SECCOMP_DATA_IP_LO =? _); simpl Z.to_nat; cbn [Nat.add]; [|by ret].
  ld. jeq. destruct (data SECCOMP_DATA_IP_HI =? _); simpl Z.to_nat; cbn [Nat.add]; by ret.
Qed.

Lemma filter_exec trap_clone insn data :
  in_u64 (syscall_ip insn) -> in_u32 (data SECCOMP_DATA_IP_LO) -> in_u32 (data SECCOMP_DATA_IP_HI) ->
  exec (filter trap_clone insn) data 0 0 = Some (decision trap_clone insn data).
Proof.
  intros Hip Hlo Hhi. pose proof (fun acc => filter_tail trap_clone insn data acc Hip Hlo Hhi) as Ht.
  unfold decision, guarded. ld. jeq.
  destruct (data SECCOMP_DATA_ARCH =? AUDIT_ARCH_X86_64); simpl Z.to_nat; cbn [Nat.add negb]; [|by ret].
  ld. jeq. destruct (data SECCOMP_DATA_NR =? SYS_futex); simpl Z.to_nat; cbn [Nat.add orb andb].
  { rewrite Ht. by destruct (_ =? _). }
  jeq. destruct (data SECCOMP_DATA_NR =? clone_syscall trap_clone); simpl Z.to_nat; cbn [Nat.add orb andb].
  { rewrite Ht. by destruct (_ =? _). }
  jeq. destruct (data SECCOMP_DATA_NR =? clone3_syscall trap_clone); simpl Z.to_nat; cbn [Nat.add orb andb].
  { rewrite Ht. by destruct (_ =? _). }
  by ret.
Qed.

(** The system calls trapped outside the stub: futex, and with clone trapping clone and
    clone3; without it the two numbers that the filter has in their place. *)
Definition trapped_numbers (trap_clone : bool) : list Z :=
  if trap_clone then [202; 56; 435] else [202; 4294967295; 4294967294].

Lemma guarded_spec trap_clone n : guarded trap_clone n = bool_decide (n ∈ trapped_numbers trap_clone).
Proof.
  apply eq_bool_prop_intro. rewrite bool_decide_spec, Is_true_true. unfold guarded, trapped_numbers, clone_syscall, clone3_syscall.
  rewrite !orb_true_iff, !Z.eqb_eq. destruct trap_clone; rewrite !elem_of_cons, elem_of_nil;
    unfold SYS_futex, SYS_clone, SYS_CLONE3_X86_64, U32_MAX, u32_mod; lia.
Qed.

(** C19. On a system call with the architecture, the number and the instruction pointer of
    the seccomp data, the filter kills the process when the architecture is not x86-64;
    it traps futex, clone and clone3 with clone trapping, futex and the numbers
    [u32::MAX] and [u32::MAX - 1] without it, unless the call was made by the stub; it
    allows everything else. *)
Theorem filter_decides trap_clone insn data :
  in_u64 (insn + 2) -> in_u32 (data 8) -> in_u32 (data 12) ->
  exec (filter trap_clone insn) data 0 0 =
    Some (if decide (data 4 <> 0xc000003e) then 0x80000000
          else if decide (data 0 ∈ trapped_numbers trap_clone /\ data 8 + 2 ^ 32 * data 12 <> insn + 2) then 0x30000
          else 0x7fff0000).
Proof.
  intros Hip Hlo Hhi. rewrite filter_exec by done. f_equal. unfold decision. rewrite guarded_spec.
  unfold SECCOMP_DATA_ARCH, SECCOMP_DATA_NR, AUDIT_ARCH_X86_64.
  change (data_ip data) with (data 8 + 2 ^ 32 * data 12). change (syscall_ip insn) with (insn + 2).
  destruct (Z.eqb_spec (data 4) 0xc000003e), (Z.eqb_spec (data 8 + 2 ^ 32 * data 12) (insn + 2)); cbn [negb andb];
    rewrite ?andb_true_r, ?andb_false_r; repeat case_decide; repeat case_bool_decide; try done; tauto.
Qed.
End Filter.

(** An interpreter of the three instructions. *)
Fixpoint exec_fuel (fuel : nat) (prog : list sock_filter) (data : SeccompData) (pc : nat) (acc : Z) : option Z :=
  match fuel with
  | O => None
  | S n =>
      match prog !! pc with
      | Some i =>
          if code i =? LD_W_ABS then exec_fuel n prog data (S pc) (data (k i))
          else if code i =? JMP_JEQ_K
               then exec_fuel n prog data (S pc + Z.to_nat (if (acc =? k i)%Z then jt i else jf i))%nat acc
               else if code i =? RET_K then Some (k i) else None
      | None => None
      end
  end.
(** Every instruction goes forward: what is left of the program is fuel enough. *)
Definition exec_bpf (prog : list sock_filter) (data : SeccompData) (pc : nat) (acc : Z) : option Z :=
  exec_fuel (S (length prog - pc))%nat prog data pc acc.

Lemma exec_fuel_enough prog data n pc acc :
  (length prog - pc < n)%nat -> exec_fuel n prog data pc acc = exec_bpf prog data pc acc.
Proof.
  unfold exec_bpf. remember (length prog - pc)%nat as l eqn:Hl. revert n pc acc Hl.
  induction l as [l IH] using lt_wf_ind; intros n pc acc Hl Hn. destruct n as [|n]; [lia|]. simpl.
  destruct (prog !! pc) as [i|] eqn:Hi; [|done]. apply lookup_lt_Some in Hi.
  assert (Hstep : forall pc' acc', (pc < pc')%nat ->
            exec_fuel n prog data pc' acc' = exec_fuel l prog data pc' acc').
  { intros pc' acc' Hpc. rewrite (IH (length prog - pc')%nat) by lia.
    symmetry. apply IH; lia. }
  destruct (code i =? LD_W_ABS); [apply Hstep; lia|].
  destruct (code i =? JMP_JEQ_K); [apply Hstep; lia|done].
Qed.

#[export] Instance exec_bpf_machine : BpfMachine exec_bpf.
Proof.
  split; intros * Hp; pose proof (lookup_lt_Some _ _ _ Hp); unfold exec_bpf at 1; cbn [exec_fuel];
    rewrite Hp; simpl.
  - by apply exec_fuel_enough; lia.
  - by apply exec_fuel_enough; lia.
  - done.
Qed.

Lemma filter_decides_witness :
  exec_bpf (filter false 4096) (fun off => if off =? 4 then AUDIT_ARCH_X86_64 else if off =? 0 then SYS_futex else 0) 0 0
  = Some SECCOMP_RET_TRAP.
Proof.
  rewrite (filter_decides exec_bpf false 4096 _); [reflexivity|..]; split; simpl; (reflexivity || discriminate).
Defined.

(** * The library's own system calls

    The stub is assembly; the machine below runs the instructions it has.  The caller
    follows the System V convention: six arguments in registers, the seventh on the
    stack above the return address.  The kernel is a function from the call to its
    answer; it leaves the address after the [syscall] in [rcx]. *)

(** A system call: its number and six arguments, and the instruction pointer it is
    made from. *)
Record syscall : Set := mkSyscall { nr : Z; args : list Z; ip : Z }.

Inductive Reg : Set := RAX | RCX | RDX | RSI | RDI | RSP | R8 | R9 | R10.
#[export] Instance Reg_eq_dec : EqDecision Reg.
Proof. solve_decision. Defined.

Inductive Instr : Set :=
| MovReg (dst src : Reg)
| MovLoad (dst base : Reg) (disp : Z)
| Syscall
| RetInstr.

Record Cpu : Type := mkCpu { regs : Reg -> Z; stack : Z -> Z; made : list syscall }.

Definition set_reg (r : Reg) (v : Z) (m : Cpu) : Cpu :=
  mkCpu (fun r' => if decide (r' = r) then v else regs m r') (stack m) (made m).

Section Handler.
(** The address of the stub's instruction, the stack pointer at its entry, the address of
    the message and its length. *)
Context (insn sp msg msg_len : Z).
(** The kernel. *)
Context (kernel : syscall -> Z).

(** What the kernel is asked: the number in [rax], the arguments in the registers of
    its convention. *)
Definition requested (m : Cpu) : syscall :=
  mkSyscall (regs m RAX) [regs m RDI; regs m RSI; regs m RDX; regs m R10; regs m R8; regs m R9] (syscall_ip insn).

Fixpoint run_code (code : list Instr) (m : Cpu) : Cpu :=
  match code with
  | [] | RetInstr :: _ => m
  | MovReg dst src :: code' => run_code code' (set_reg dst (regs m src) m)
  | MovLoad dst base disp :: code' => run_code code' (set_reg dst (stack m (regs m base + disp)) m)
  | Syscall :: code' =>
      let s := requested m in
      let m' := set_reg RCX (syscall_ip insn) (set_reg RAX (kernel s) m) in
      run_code code' (mkCpu (regs m') (stack m') (made m' ++ [s]))
  end.

Definition rsched_internal_syscall6 : list Instr :=
  [MovReg RAX RDI;
   MovReg RDI RSI;
   MovReg RSI RDX;
   MovReg RDX RCX;
   MovReg R10 R8;
   MovReg R8 R9;
   MovLoad R9 RSP 8;
   Syscall;
   RetInstr].

(** A call of a C function with seven arguments. *)
Definition entered (n a0 a1 a2 a3 a4 a5 : Z) : Cpu :=
  mkCpu (fun r => match r with
                  | RDI => n | RSI => a0 | RDX => a1 | RCX => a2 | R8 => a3 | R9 => a4 | RSP => sp
                  | RAX | R10 => 0
                  end)
        (fun a => if a =? sp + 8 then a5 else 0) [].

(** The system calls it makes, and its result in [rax]. *)
Definition raw_syscall6 (n a0 a1 a2 a3 a4 a5 : Z) : list syscall * Z :=
  let m := run_code rsched_internal_syscall6 (entered n a0 a1 a2 a3 a4 a5) in (made m, regs m RAX).

(** Exactly the call asked for, and its answer; the stack pointer is as before. *)
Lemma stub_makes_the_call n a0 a1 a2 a3 a4 a5 :
  let m := run_code rsched_internal_syscall6 (entered n a0 a1 a2 a3 a4 a5) in
  let s := mkSyscall n [a0; a1; a2; a3; a4; a5] (syscall_ip insn) in
  made m = [s] /\ regs m RAX = kernel s /\ regs m RSP = sp.
Proof. simpl. by rewrite Z.eqb_refl. Qed.

Lemma raw_syscall6_calls n a0 a1 a2 a3 a4 a5 :
  let s := mkSyscall n [a0; a1; a2; a3; a4; a5] (syscall_ip insn) in
  raw_syscall6 n a0 a1 a2 a3 a4 a5 = ([s], kernel s).
Proof.
  destruct (stub_makes_the_call n a0 a1 a2 a3 a4 a5) as (E1 & E2 & _). unfold raw_syscall6. by rewrite E1, E2.
Qed.

(** * The handler of the trap *)
Definition SYS_write : Z := 1.
Definition SYS_getpid : Z := 39.
Definition SYS_exit_group : Z := 231.
Definition STDERR_FILENO : Z := 2.

(** The registers it reads and writes. *)
Record gregs : Set := mkGregs { rax : Z; rdi : Z; rsi : Z; rdx : Z; r10 : Z; r8 : Z; r9 : Z }.

(** What the handler does: the system calls it makes, in order, and, when it returns,
    the registers it leaves. *)
Definition seccomp_sigsys_handler (inside : bool) (regs : gregs) : list syscall * option gregs :=
  if inside then
    let (calls, ret) := raw_syscall6 (rax regs) (rdi regs) (rsi regs) (rdx regs) (r10 regs) (r8 regs) (r9 regs) in
    (calls, Some (mkGregs ret (rdi regs) (rsi regs) (rdx regs) (r10 regs) (r8 regs) (r9 regs)))
  else
    let (c1, _) := raw_syscall6 SYS_write STDERR_FILENO msg msg_len 0 0 0 in
    let (c2, _) := raw_syscall6 SYS_getpid 0 0 0 0 0 0 in
    let (c3, _) := raw_syscall6 SYS_exit_group 101 0 0 0 0 0 in
    (c1 ++ c2 ++ c3, None).

(** What the filter sees of a system call. *)
Definition data_of (s : syscall) : SeccompData := fun off =>
  if off =? SECCOMP_DATA_NR then wrap32 (nr s)
  else if off =? SECCOMP_DATA_ARCH then AUDIT_ARCH_X86_64
  else if off =? SECCOMP_DATA_IP_LO then wrap32 (ip s)
  else if off =? SECCOMP_DATA_IP_HI then wrap32 (Z.shiftr (ip s) 32)
  else 0.

(** C20. The handler is not trapped itself, whatever call it repeats: all its calls are
    made by the stub, whose instruction the filter lets pass.  Inside the library it
    makes exactly the call that was trapped, puts the kernel's answer in [rax] and
    leaves the other registers; outside it ends the process. *)
Theorem handler_calls_pass exec `{!BpfMachine exec} trap_clone inside g :
  in_u64 (syscall_ip insn) ->
  let (calls, resumed) := seccomp_sigsys_handler inside g in
  Forall (fun s => exec (filter trap_clone insn) (data_of s) 0%nat 0 = Some SECCOMP_RET_ALLOW) calls /\
  (inside = true -> exists s, calls = [s] /\ nr s = rax g /\
     args s = [rdi g; rsi g; rdx g; r10 g; r8 g; r9 g] /\
     resumed = Some (mkGregs (kernel s) (rdi g) (rsi g) (rdx g) (r10 g) (r8 g) (r9 g))) /\
  (inside = false -> resumed = None /\ last (nr <$> calls) = Some SYS_exit_group).
Proof.
  intros Hip.
  assert (Hpass : forall s, ip s = syscall_ip insn ->
            exec (filter trap_clone insn) (data_of s) 0%nat 0 = Some SECCOMP_RET_ALLOW).
  { intros s Es. rewrite (filter_exec exec trap_clone insn (data_of s)) by (done || apply wrap32_range).
    unfold decision. change (data_of s SECCOMP_DATA_ARCH) with AUDIT_ARCH_X86_64.
    rewrite Z.eqb_refl. cbn [negb]. rewrite split_ip by (done || apply wrap32_range).
    change (data_of s SECCOMP_DATA_IP_LO) with (wrap32 (ip s)).
    change (data_of s SECCOMP_DATA_IP_HI) with (wrap32 (Z.shiftr (ip s) 32)).
    rewrite Es, !Z.eqb_refl. simpl. by rewrite andb_false_r. }
  unfold seccomp_sigsys_handler. rewrite !raw_syscall6_calls. destruct inside.
  - split; [repeat constructor; by apply Hpass|]. split; [|done]. intros _. by eexists.
  - split; [repeat constructor; by apply Hpass|]. by split.
Qed.
End Handler.

Lemma handler_calls_pass_witness :
  Forall (fun s => exec_bpf (filter true 4096) (data_of s) 0 0 = Some SECCOMP_RET_ALLOW)
    (fst (seccomp_sigsys_handler 4096 8192 0 59 (fun _ => 0) true (mkGregs SYS_futex 1 2 3 4 5 6))).
Proof.
  apply (handler_calls_pass 4096 8192 0 59 (fun _ => 0) exec_bpf true true (mkGregs SYS_futex 1 2 3 4 5 6)).
  split; (reflexivity || discriminate).
Defined.
