(* ===== verification/Linking.v ===== *)
(** The C library's own functions ([src/rsched/src/lib.rs], [RealPt] and [rpt]).

    The runtime reaches the real pthread functions through a table of pointers that
    it fills on first use, from the handle of the threads library or, failing that, of
    the C library, never through the interposed names.  The dynamic linker is a
    parameter. *)
From S2P Require Import Prelude Machine State Runtime.

(** [dlopen(name, RTLD_LAZY | RTLD_NOLOAD)] and [dlsym(handle, name)]; 0 is the null
    pointer. *)
Record Loader : Type := mkLoader { dlopen : string -> Z; dlsym : Z -> string -> Z }.

Module RealPt.
Record t : Set := mk {
  mutex_lock : Z;
  mutex_unlock : Z;
  cond_wait : Z;
  cond_signal : Z;
  create : Z;
  join : Z;
  barrier_init : Z
}.

(** The functions, in the order of the table. *)
Definition pointers (x : t) : list Z :=
  [mutex_lock x; mutex_unlock x; cond_wait x; cond_signal x; create x; join x; barrier_init x].
End RealPt.
Abbreviation RealPt := RealPt.t.

Section Linking.
Context (D : Loader).

Definition sym (lib : Z) (name : string) : result Z :=
  let p := dlsym D lib name in
  if p =? 0 then Panic "rsched: dlsym returned null" else Ok p.

Definition open_libc : result Z :=
  let lib := dlopen D "libpthread.so.0" in
  let lib := if lib =? 0 then dlopen D "libc.so.6" else lib in
  if lib =? 0 then Panic "rsched: cannot resolve libpthread/libc via dlopen" else Ok lib.

Definition resolve : result RealPt :=
  let? lib := open_libc in
  let? lock := sym lib "pthread_mutex_lock" in
  let? unlock := sym lib "pthread_mutex_unlock" in
  let? wait := sym lib "pthread_cond_wait" in
  let? signal := sym lib "pthread_cond_signal" in
  let? create := sym lib "pthread_create" in
  let? join := sym lib "pthread_join" in
  let? barrier := sym lib "pthread_barrier_init" in
  Ok (RealPt.mk lock unlock wait signal create join barrier).

(** [REAL_PT.get_or_init(..)]: the table, and the cell after it. *)
Definition rpt (REAL_PT : option RealPt) : result (RealPt * option RealPt) :=
  match REAL_PT with
  | Some t => Ok (t, Some t)
  | None => let? t := resolve in Ok (t, Some t)
  end.

(** Their names. *)
Definition names : list string :=
  ["pthread_mutex_lock"; "pthread_mutex_unlock"; "pthread_cond_wait"; "pthread_cond_signal";
   "pthread_create"; "pthread_join"; "pthread_barrier_init"]%string.

(** The library that is looked into: the first of the two that is loaded. *)
Definition library : option Z :=
  List.find (fun lib => negb (lib =? 0)) (dlopen D <$> ["libpthread.so.0"; "libc.so.6"]%string).

(** The table of one use after another, from a cell. *)
Fixpoint uses (n : nat) (cell : option RealPt) : result (list RealPt * option RealPt) :=
  match n with
  | O => Ok ([], cell)
  | S n' => let? (t, cell1) := rpt cell in let? (ts, cell2) := uses n' cell1 in Ok (t :: ts, cell2)
  end.

Lemma open_libc_library :
  open_libc = match library with
              | Some lib => Ok lib
              | None => Panic "rsched: cannot resolve libpthread/libc via dlopen"
              end.
Proof.
  unfold open_libc, library. cbn [fmap list_fmap List.find].
  destruct (dlopen D "libpthread.so.0" =? 0) eqn:E1; simpl; [|by rewrite E1].
  by destruct (dlopen D "libc.so.6" =? 0).
Qed.

Lemma sym_Ok lib name p : sym lib name = Ok p <-> dlsym D lib name = p /\ p <> 0.
Proof. unfold sym. destruct (Z.eqb_spec (dlsym D lib name) 0); naive_solver. Qed.

Lemma resolve_Ok t :
  resolve = Ok t <->
  exists lib, library = Some lib /\ (dlsym D lib <$> names) = RealPt.pointers t /\ Forall (fun p => p <> 0) (RealPt.pointers t).
Proof.
  unfold resolve. rewrite open_libc_library. destruct library as [lib|]; simpl; [|split; [done|naive_solver]].
  split.
  - intros E. repeat (apply rbind_Ok in E as (? & ?%sym_Ok & E)). simplify_eq. exists lib. split; [done|].
    destruct_and!. simplify_eq. split; [done|]. by repeat constructor.
  - intros (lib' & [= <-] & E & Hf). destruct t as [p1 p2 p3 p4 p5 p6 p7]. unfold RealPt.pointers in *. simpl in E, Hf.
    injection E as E1 E2 E3 E4 E5 E6 E7. rewrite !Forall_cons in Hf. destruct Hf as (F1 & F2 & F3 & F4 & F5 & F6 & F7 & _).
    assert (Hs : forall name p, dlsym D lib name = p -> p <> 0 -> sym lib name = Ok p) by (intros; by apply sym_Ok).
    by repeat (erewrite Hs by eassumption; simpl).
Qed.

Lemma resolve_Panic e :
  resolve = Panic e ->
  library = None \/ exists lib name, library = Some lib /\ name ∈ names /\ dlsym D lib name = 0.
Proof.
  unfold resolve, sym. rewrite open_libc_library. destruct library as [lib|]; [|by left]. simpl. intros E. right.
  repeat match type of E with
  | context [dlsym D lib ?n =? 0] =>
      destruct (Z.eqb_spec (dlsym D lib n) 0); [exists lib, n; split; [done|]; split; [unfold names; set_solver|done]|]; simpl in E
  end. discriminate E.
Qed.

Lemma uses_cached n t : uses n (Some t) = Ok (replicate n t, Some t).
Proof. induction n as [|n IH]; simpl; [done|]. by rewrite IH. Qed.

(** C34. However often the table is used, it is filled once: every use gets the same table,
    whose pointers are those of the seven functions in the first of the two libraries
    that is loaded, none of them null.  The first use panics exactly when neither
    library is loaded or one of the functions is missing from it. *)
Theorem rpt_resolves_once n :
  match uses n None with
  | Ok (ts, cell) =>
      length ts = n /\ cell = head ts /\
      exists t, Forall (eq t) ts /\
        (ts <> [] -> exists lib, library = Some lib /\
           RealPt.pointers t = (dlsym D lib <$> names) /\ Forall (fun p => p <> 0) (RealPt.pointers t))
  | Panic _ => library = None \/ exists lib name, library = Some lib /\ name ∈ names /\ dlsym D lib name = 0
  end.
Proof.
  destruct n as [|n]; simpl.
  { split; [done|]. split; [done|]. exists (RealPt.mk 0 0 0 0 0 0 0). by split. }
  destruct resolve as [t|e] eqn:E; simpl; [|by apply resolve_Panic in E]. rewrite uses_cached. simpl.
  split; [by rewrite length_replicate|]. split; [done|]. exists t. split.
  - constructor; [done|]. by apply Forall_replicate.
  - intros _. apply resolve_Ok in E as (lib & El & Ep & Hn). by exists lib.
Qed.
End Linking.
