(* ===== verification/Memory.v ===== *)
(** User memory as the library reads and writes it: bytes, little-endian words
    (x86-64), and the machine integers of the exported atomics. *)
From S2P Require Import Prelude Machine State Runtime.

(** * Words as bytes *)
Fixpoint le_bytes (n : nat) (v : Z) : list Z :=
  match n with
  | O => []
  | S n' => v mod 256 :: le_bytes n' (v / 256)
  end.

Fixpoint le_value (bs : list Z) : Z :=
  match bs with
  | [] => 0
  | b :: bs' => b + 256 * le_value bs'
  end.

(** A 32-bit word as an [i32]. *)
Definition as_i32 (v : Z) : Z := if v <? 2 ^ 31 then v else v - u32_mod.
(** A 64-bit word as an [i64]. *)
Definition as_i64 (v : Z) : Z := if v <? 2 ^ 63 then v else v - u64_mod.
Definition in_i32 (v : Z) : Prop := - 2 ^ 31 <= v < 2 ^ 31.

Lemma le_value_bytes n v : le_value (le_bytes n v) = v mod 2 ^ (8 * Z.of_nat n).
Proof.
  revert v. induction n as [|n IH]; intros v; simpl le_bytes; simpl le_value.
  - symmetry. apply Z.mod_1_r.
  - rewrite IH. replace (8 * Z.of_nat (S n)) with (8 + 8 * Z.of_nat n) by lia.
    rewrite Z.pow_add_r by lia. change (2 ^ 8) with 256.
    rewrite Z.rem_mul_r; [done|lia|]. apply Z.pow_pos_nonneg; lia.
Qed.

Lemma le_value_range bs : Forall (fun b => 0 <= b < 256) bs -> 0 <= le_value bs < 256 ^ Z.of_nat (length bs).
Proof.
  induction 1 as [|b bs Hb _ IH]; [done|]. cbn [le_value length]. rewrite Nat2Z.inj_succ, Z.pow_succ_r by lia. lia.
Qed.

Lemma le_value_bytes4 v : in_u32 v -> le_value (le_bytes 4 v) = v.
Proof. intros H. rewrite le_value_bytes. by apply wrap32_small. Qed.

Lemma le_value_bytes8 v : in_u64 v -> le_value (le_bytes 8 v) = v.
Proof. intros H. rewrite le_value_bytes. by apply wrap64_small. Qed.

Lemma le_bytes_length n v : length (le_bytes n v) = n.
Proof. revert v. induction n; intros; simpl; congruence. Qed.

Lemma as_i32_wrap32 v : in_i32 v -> as_i32 (wrap32 v) = v.
Proof.
  unfold in_i32, as_i32, wrap32, u32_mod. intros H.
  destruct (Z.ltb_spec v 0).
  - rewrite <- (Z.mod_unique v (2 ^ 32) (-1) (v + 2 ^ 32)) by lia.
    destruct (Z.ltb_spec (v + 2 ^ 32) (2 ^ 31)); lia.
  - rewrite Z.mod_small by lia. destruct (Z.ltb_spec v (2 ^ 31)); lia.
Qed.

Lemma as_i32_range v : in_u32 v -> in_i32 (as_i32 v).
Proof.
  unfold in_u32, in_i32, as_i32, u32_mod. intros H. destruct (Z.ltb_spec v (2 ^ 31)); lia.
Qed.

Lemma wrap32_as_i32 v : in_u32 v -> wrap32 (as_i32 v) = v.
Proof.
  unfold as_i32. intros H. destruct (v <? 2 ^ 31); [by apply wrap32_small|].
  unfold wrap32. replace (v - u32_mod) with (v + (-1) * u32_mod) by lia.
  rewrite Z.mod_add by done. by apply Z.mod_small.
Qed.

(** * Reading and writing memory *)
Fixpoint read_bytes (a : Z) (n : nat) (m : gmap Z Z) : option (list Z) :=
  match n with
  | O => Some []
  | S n' => b ← m !! a; bs ← read_bytes (a + 1) n' m; Some (b :: bs)
  end.

Fixpoint write_bytes (a : Z) (bs : list Z) (m : gmap Z Z) : gmap Z Z :=
  match bs with
  | [] => m
  | b :: bs' => <[a := b]> (write_bytes (a + 1) bs' m)
  end.

Definition read_word (a : Z) (n : nat) (m : gmap Z Z) : option Z := le_value <$> read_bytes a n m.
Definition write_word (a : Z) (n : nat) (v : Z) (m : gmap Z Z) : gmap Z Z :=
  write_bytes a (le_bytes n v) m.

Lemma write_bytes_outside a bs m x :
  x < a \/ a + Z.of_nat (length bs) <= x -> write_bytes a bs m !! x = m !! x.
Proof.
  revert a. induction bs as [|b bs IH]; intros a Hx; simpl in *; [done|].
  rewrite lookup_insert_ne by lia. apply IH. lia.
Qed.

Lemma read_write_bytes a bs m : read_bytes a (length bs) (write_bytes a bs m) = Some bs.
Proof.
  revert a m. induction bs as [|b bs IH]; intros a m; simpl; [done|].
  rewrite lookup_insert_eq. simpl.
  assert (E : forall n a' m', a < a' -> read_bytes a' n (<[a := b]> m') = read_bytes a' n m').
  { clear. induction n as [|n IH]; intros a' m' Ha; simpl; [done|].
    rewrite lookup_insert_ne by lia. rewrite IH by lia. done. }
  rewrite E by lia. by rewrite IH.
Qed.

Lemma read_bytes_ext a n m m' :
  (forall x, a <= x < a + Z.of_nat n -> m' !! x = m !! x) -> read_bytes a n m' = read_bytes a n m.
Proof.
  revert a. induction n as [|n IH]; intros a H; simpl; [done|].
  rewrite H by lia. rewrite (IH (a + 1)); [done|]. intros x Hx. apply H. lia.
Qed.

Lemma read_write_word a n v m :
  read_word a n (write_word a n v m) = Some (v mod 2 ^ (8 * Z.of_nat n)).
Proof.
  unfold read_word, write_word. rewrite <- (le_bytes_length n v) at 1.
  rewrite read_write_bytes. simpl. by rewrite le_value_bytes.
Qed.

Lemma read_write_disjoint a n v m b k :
  b + Z.of_nat k <= a \/ a + Z.of_nat n <= b -> read_word b k (write_word a n v m) = read_word b k m.
Proof.
  intros H. unfold read_word. f_equal. apply read_bytes_ext. intros x Hx.
  apply write_bytes_outside. rewrite le_bytes_length. lia.
Qed.

(** Memory holds bytes. *)
Definition bytes_ok (m : gmap Z Z) : Prop := map_Forall (fun _ b => 0 <= b < 256) m.

Lemma read_word_range a n m v :
  bytes_ok m -> read_word a n m = Some v -> 0 <= v < 2 ^ (8 * Z.of_nat n).
Proof.
  intros Hm. unfold read_word. destruct (read_bytes a n m) as [bs|] eqn:E; [|done].
  intros [= <-]. revert a bs E. induction n as [|n IH]; intros a bs E; simpl in E.
  - simplify_eq. simpl. lia.
  - destruct (m !! a) as [b|] eqn:Hb; simpl in E; [|done].
    destruct (read_bytes (a + 1) n m) as [bs'|] eqn:E'; simpl in E; [|done]. simplify_eq.
    apply IH in E'. apply Hm in Hb. cbn [le_value].
    replace (8 * Z.of_nat (S n)) with (8 + 8 * Z.of_nat n) by lia.
    rewrite Z.pow_add_r by lia. change (2 ^ 8) with 256. lia.
Qed.

(** * Accesses of a thread

    A word that is not in memory cannot be accessed. *)
Definition UB_access : string := "UB: access to invalid memory".

Definition load (n : nat) (a : Z) : P Z :=
  Act (fun w => let? v := expect (read_word a n (mem w)) UB_access in Ok (v, w)).

Definition store (n : nat) (a v : Z) : P unit :=
  Act (fun w => let? _ := expect (read_word a n (mem w)) UB_access in
                Ok (tt, set_mem (write_word a n v (mem w)) w)).

(** An atomic read-modify-write: [f] gives the result and the word to write, if
    any. *)
Definition rmw {A} (n : nat) (a : Z) (f : Z -> A * option Z) : P A :=
  Act (fun w =>
    let? v := expect (read_word a n (mem w)) UB_access in
    match f v with
    | (r, Some v') => Ok (r, set_mem (write_word a n v' (mem w)) w)
    | (r, None) => Ok (r, w)
    end).
