(* ===== verification/Fuzzer.v ===== *)
(** The fuzzer entry point ([src/rsched/src/lib.rs], from [FuzzerTestOneInput] to
    [rsched_fuzzer_test_one_input]): the input is hashed into a seed, and the
    target runs under several schedules, one seed each. *)
From S2P Require Import Prelude Event Scheduler Machine State Runtime Memory.

(** * The hash of an input (FNV-1a, then the size) *)
Definition FNV_OFFSET : Z := 0xcbf29ce484222325.
Definition FNV_PRIME : Z := 0x100000001b3.

Definition hash_byte (hash byte : Z) : Z := wrap64 (Z.lxor hash byte * FNV_PRIME).
Definition hash_bytes (bs : list Z) : Z := foldl hash_byte FNV_OFFSET bs.

(** [data] is the address of the input, 0 for none. *)
Definition fuzzer_input_hash (data size : Z) (m : gmap Z Z) : result Z :=
  let? hash :=
    if data =? 0 then Ok FNV_OFFSET
    else let? bs := expect (read_bytes data (Z.to_nat size) m) UB_access in Ok (hash_bytes bs) in
  Ok (Z.lxor hash (wrap64 (size * FNV_PRIME))).

Section Fuzzer.
Context (cfg : Cfg) (L : Libc) (env : string -> option string).
Context (self : PthreadT).

Definition fuzzer_schedule_count : Z :=
  default 5 (env "RSCHED_FUZZ_SCHEDULES" ≫= ParseU64.parse).

Definition seed_of (base_seed schedule : Z) : Z := wrap64 (base_seed + schedule).

Definition rsched_fuzzer_test_one_input (data size : Z) (test_one_input : Z -> Z -> P Z) : P Z :=
  let! base_seed := Act (fun w => let? h := fuzzer_input_hash data size (mem w) in Ok (h, w)) in
  Iter (fun st : Z * Z =>
    let (schedule, result) := st in
    if schedule <? fuzzer_schedule_count then
      rsched_reinit cfg L env self (seed_of base_seed schedule) ;;
      let! result' := test_one_input data size in
      Ret (inl (schedule + 1, result'))
    else Ret (inr result)) (0, 0).

(** The same as a sequence: [n] schedules from number [k] on. *)
Fixpoint schedules (base_seed k : Z) (n : nat) (run : P Z) (result : Z) : P Z :=
  match n with
  | O => Ret result
  | S n' =>
      rsched_reinit cfg L env self (seed_of base_seed k) ;;
      let! result' := run in
      schedules base_seed (k + 1) n' run result'
  end.

Lemma schedule_loop base_seed (run : P Z) n k result :
  0 <= k -> Z.to_nat (fuzzer_schedule_count - k) = n ->
  prog_eq
    (Iter (fun st : Z * Z =>
      let (schedule, result) := st in
      if schedule <? fuzzer_schedule_count then
        rsched_reinit cfg L env self (seed_of base_seed schedule) ;;
        let! result' := run in Ret (inl (schedule + 1, result'))
      else Ret (inr result)) (k, result))
    (schedules base_seed k n run result).
Proof.
  intros Hk. revert k result Hk. induction n as [|n IH]; intros k result Hk Hn; rewrite iter_unfold; simpl.
  - rewrite (proj2 (Z.ltb_ge _ _)) by lia. by rewrite ret_bind.
  - rewrite (proj2 (Z.ltb_lt _ _)) by lia. rewrite bind_assoc. f_equiv. intros ?.
    rewrite bind_assoc. f_equiv. intros result'. rewrite ret_bind. apply IH; lia.
Qed.

Lemma seeds_differ base_seed i j :
  0 <= i < j -> j < u64_mod -> seed_of base_seed i <> seed_of base_seed j.
Proof.
  unfold seed_of, wrap64. intros Hi Hj E.
  assert (H : (base_seed + j - (base_seed + i)) mod u64_mod = 0).
  { rewrite Zminus_mod, E, Z.sub_diag. by apply Z.mod_0_l. }
  replace (base_seed + j - (base_seed + i)) with (j - i) in H by lia.
  rewrite Z.mod_small in H by lia. lia.
Qed.

Lemma schedule_count_range : in_u64 fuzzer_schedule_count.
Proof.
  unfold fuzzer_schedule_count. destruct (env "RSCHED_FUZZ_SCHEDULES") as [v|]; simpl; [|done].
  destruct (ParseU64.parse v) as [n|] eqn:E; simpl; [|done]. by eapply ParseU64.parse_range.
Qed.

(** C25. The target runs exactly [fuzzer_schedule_count] times, each time after a reset
    with the next seed; the result is the last one (0 when there was no run); the
    seeds of the schedules are pairwise different. *)
Theorem fuzzer_runs_each_schedule data size test_one_input :
  prog_eq (rsched_fuzzer_test_one_input data size test_one_input)
    (let! base_seed := Act (fun w => let? h := fuzzer_input_hash data size (mem w) in Ok (h, w)) in
     schedules base_seed 0 (Z.to_nat fuzzer_schedule_count) (test_one_input data size) 0) /\
  forall base_seed, NoDup (seed_of base_seed <$> seqZ 0 fuzzer_schedule_count).
Proof.
  split.
  - unfold rsched_fuzzer_test_one_input. f_equiv. intros base_seed.
    apply schedule_loop; [done|]. by rewrite Z.sub_0_r.
  - intros base_seed. assert (Hc := schedule_count_range). unfold in_u64 in Hc.
    apply NoDup_fmap_2_strong; [|apply NoDup_seqZ]. intros i j Hi Hj E.
    apply elem_of_seqZ in Hi, Hj. destruct (Z.lt_trichotomy i j) as [Hlt|[?|Hlt]]; [|done|]; exfalso.
    + by apply (seeds_differ base_seed i j); [lia..|].
    + by apply (seeds_differ base_seed j i); [lia..|].
Qed.
End Fuzzer.

(** * The hash tells inputs apart that differ in one byte *)
Lemma hash_byte_range h b : in_u64 (hash_byte h b).
Proof. apply wrap64_range. Qed.

(** [FNV_PRIME] is odd: it has an inverse. *)
Lemma FNV_PRIME_cancel x y :
  in_u64 x -> in_u64 y -> wrap64 (x * FNV_PRIME) = wrap64 (y * FNV_PRIME) -> x = y.
Proof.
  intros Hx Hy E.
  set (inv := 14886173955864302971).
  assert (H : forall z, in_u64 z -> wrap64 (wrap64 (z * FNV_PRIME) * inv) = z).
  { intros z Hz. unfold wrap64. rewrite Zmult_mod_idemp_l, <- Z.mul_assoc.
    rewrite Z.mul_mod by done. replace ((FNV_PRIME * inv) mod u64_mod) with 1 by (vm_compute; reflexivity).
    rewrite Z.mul_1_r, Z.mod_mod by done. by apply Z.mod_small. }
  rewrite <- (H x Hx), <- (H y Hy). by rewrite E.
Qed.

Lemma lxor_cancel_r x y b : Z.lxor x b = Z.lxor y b -> x = y.
Proof.
  intros E. apply (f_equal (fun z => Z.lxor z b)) in E.
  by rewrite !Z.lxor_assoc, Z.lxor_nilpotent, !Z.lxor_0_r in E.
Qed.

Lemma hash_byte_inj_state h h' b :
  in_u64 h -> in_u64 h' -> 0 <= b < 256 -> hash_byte h b = hash_byte h' b -> h = h'.
Proof.
  intros Hh Hh' Hb E. apply lxor_cancel_r with b. apply FNV_PRIME_cancel; [| |exact E].
  - apply lxor_range; [lia|exact Hh|]. change (2 ^ 64) with u64_mod.
    assert (256 < u64_mod) by reflexivity. lia.
  - apply lxor_range; [lia|exact Hh'|]. change (2 ^ 64) with u64_mod.
    assert (256 < u64_mod) by reflexivity. lia.
Qed.

Lemma hash_byte_inj_byte h b b' :
  in_u64 h -> 0 <= b < 256 -> 0 <= b' < 256 -> hash_byte h b = hash_byte h b' -> b = b'.
Proof.
  intros Hh Hb Hb' E. apply (lxor_cancel_r _ _ h). rewrite (Z.lxor_comm b), (Z.lxor_comm b').
  assert (256 < u64_mod) by reflexivity.
  apply FNV_PRIME_cancel; [| |exact E]; (apply lxor_range; [lia|exact Hh|]);
    change (2 ^ 64) with u64_mod; lia.
Qed.

Definition is_bytes (bs : list Z) : Prop := Forall (fun b => 0 <= b < 256) bs.

Lemma hash_from_inj h h' bs :
  in_u64 h -> in_u64 h' -> is_bytes bs -> h <> h' -> foldl hash_byte h bs <> foldl hash_byte h' bs.
Proof.
  intros Hh Hh' Hbs. revert h h' Hh Hh'. induction Hbs as [|b bs Hb _ IH]; intros h h' Hh Hh' Hne; simpl; [done|].
  apply IH; [apply hash_byte_range..|]. intros E. by apply Hne, (hash_byte_inj_state h h' b).
Qed.

Lemma foldl_range h bs : in_u64 h -> in_u64 (foldl hash_byte h bs).
Proof.
  revert h. induction bs as [|b bs IH]; intros h Hh; simpl; [done|]. apply IH, hash_byte_range.
Qed.

(** C26. Two inputs that differ in exactly one byte get different base seeds. *)
Theorem one_byte_changes_seed (pre post : list Z) (b b' data data' : Z) (m m' : gmap Z Z) :
  is_bytes (pre ++ b :: post) -> is_bytes (pre ++ b' :: post) -> b <> b' ->
  data <> 0 -> data' <> 0 ->
  read_bytes data (length (pre ++ b :: post)) m = Some (pre ++ b :: post) ->
  read_bytes data' (length (pre ++ b' :: post)) m' = Some (pre ++ b' :: post) ->
  exists h h',
    fuzzer_input_hash data (Z.of_nat (length (pre ++ b :: post))) m = Ok h /\
    fuzzer_input_hash data' (Z.of_nat (length (pre ++ b' :: post))) m' = Ok h' /\ h <> h'.
Proof.
  intros Hb Hb' Hne Hd Hd' Hr Hr'. unfold fuzzer_input_hash.
  rewrite (proj2 (Z.eqb_neq data 0) Hd), (proj2 (Z.eqb_neq data' 0) Hd'), !Nat2Z.id, Hr, Hr'. simpl.
  eexists _, _. split; [done|]. split; [done|].
  replace (length (pre ++ b' :: post)) with (length (pre ++ b :: post)) by (rewrite !length_app; done).
  intros E%lxor_cancel_r. revert E. unfold hash_bytes. rewrite !foldl_app. simpl.
  unfold is_bytes in Hb, Hb'. rewrite Forall_app, Forall_cons in Hb. rewrite Forall_app, Forall_cons in Hb'.
  destruct Hb as (_ & Hb & Hpost), Hb' as (_ & Hb' & _).
  apply hash_from_inj; [apply hash_byte_range..|exact Hpost|]. intros E.
  apply Hne. apply (hash_byte_inj_byte (foldl hash_byte FNV_OFFSET pre)); [|done..|exact E].
  apply foldl_range. by vm_compute.
Qed.

Lemma one_byte_changes_seed_witness :
  exists h h',
    fuzzer_input_hash 100 2 (write_bytes 100 [65; 66] ∅) = Ok h /\
    fuzzer_input_hash 100 2 (write_bytes 100 [65; 67] ∅) = Ok h' /\ h <> h'.
Proof.
  apply (one_byte_changes_seed [65] [] 66 67 100 100 (write_bytes 100 [65; 66] ∅) (write_bytes 100 [65; 67] ∅)).
  1, 2: repeat constructor; lia.
  1, 2, 3: discriminate.
  1, 2: vm_compute; reflexivity.
Defined.
