(* ===== verification/Api.v ===== *)
(** The exported functions ([src/rsched/src/lib.rs], from [do_thread_exit] to
    [rsched_sched_yield], and the mutex metadata notes).

    [ra] is the return address of the exported function.  The boxes and the
    [pthread_t] written through [thread] are explicit: [rsched_pthread_create]
    returns the code and, on success, the new [pthread_t]. *)
From S2P Require Import Prelude Event Scheduler Machine State Runtime Memory.
Import StateOps.

Section Api.
Context (cfg : Cfg) (L : Libc) (env : string -> option string).
(** The machine code at an address, as read by the thread-sanitizer probes, and
    the address of [tsan_user_start_gate]. *)
Context (code_bytes : Z -> nat -> list Z) (gate_address : Z).
Context (self : PthreadT).

Abbreviation rsched_glock := (rsched_glock cfg L self).
Abbreviation rsched_gunlock := (rsched_gunlock cfg L self).
Abbreviation rsched_cond_wait := (rsched_cond_wait cfg L self).
Abbreviation context_switch := (context_switch cfg L self).
Abbreviation ensure_init := (ensure_init cfg L env self).
Abbreviation with_internal_depth := (with_internal_depth self).
Abbreviation my_pt := (my_pt self).

(** * Mutex metadata *)
Definition note (f : State BoxScheduler -> State BoxScheduler) : P unit :=
  ensure_init ;; rsched_glock ;; update_state (fun s => Ok (f s)) ;; rsched_gunlock.

Definition rsched_note_pthread_mutexattr_init (attr : Z) : P unit := note (note_mutexattr_init attr).
Definition rsched_note_pthread_mutexattr_settype (attr kind : Z) : P unit :=
  note (note_mutexattr_settype attr kind).
Definition rsched_note_pthread_mutexattr_destroy (attr : Z) : P unit :=
  note (note_mutexattr_destroy attr).
Definition rsched_note_pthread_mutex_init (lock attr : Z) : P unit := note (note_mutex_init lock attr).
Definition rsched_note_pthread_mutex_destroy (lock : Z) : P unit := note (note_mutex_destroy lock).

(** * Thread exit and start *)
Definition do_thread_exit (caller : PthreadT) : P unit :=
  depth_enter self ;;
  rsched_glock ;;
  update_state (exit_thread caller) ;;
  let! idle := read_state (fun s => Ok (bool_decide (threads s = []))) in
  let! o := if idle then Ret None else with_state StateOps.choose in
  match o with
  | Some idx =>
      let! next := thread_at idx in
      read_state (t next) ;;
      rpt_cond_signal L self (SuspendCond next)
  | None => Ret tt
  end ;;
  rsched_gunlock ;;
  depth_exit self.

(** [trampoline] up to the call of the user's routine, which it returns with its
    argument; the rest of [trampoline] is [do_thread_exit self]. *)
Definition trampoline_start (sa : Z) : P (Z * Z) :=
  let! start := read_box sa (fun b => (routine b, arg b)) in
  set_my_pt self self ;;
  depth_enter self ;;
  glock self ;;
  let! my_tid := own_tid L self in
  update_state (modify self (Thread.set_tid my_tid)) ;;
  box_set_ready sa ;;
  rpt_cond_signal L self (ReadyCond sa) ;;
  when (negb (tsan cfg)) (
    update_state (modify self (Thread.set_in_wait true)) ;;
    rsched_cond_wait (SuspendCond self) ;;
    update_state (modify self (Thread.set_in_wait false))) ;;
  gunlock self ;;
  depth_exit self ;;
  Ret start.

Definition trampoline_end : P unit := do_thread_exit self.

(** * The thread-sanitizer start gate *)
Definition TSAN_THREAD_START_PREFIX : list Z :=
  [0x55; 0x41; 0x57; 0x41; 0x56; 0x41; 0x55; 0x41; 0x54; 0x53; 0x50; 0x49; 0x89; 0xfe; 0x4c; 0x8b;
   0x27; 0x48; 0x8b; 0x5f; 0x08].
Definition TSAN_BACKGROUND_START_PREFIX : list Z :=
  [0x64; 0x48; 0x8b; 0x04; 0x25; 0xe8; 0xf8; 0xff; 0xff; 0x48; 0x85; 0xc0; 0x0f; 0x84; 0x8d; 0x03;
   0x00; 0x00; 0x55; 0x41; 0x57; 0x41; 0x56; 0x41; 0x55; 0x41; 0x54; 0x53; 0x48; 0x83; 0xec; 0x18].

Definition rsched_is_tsan_thread_start (start a : Z) : bool :=
  if a =? 0 then false
  else bool_decide (code_bytes start (length TSAN_THREAD_START_PREFIX) = TSAN_THREAD_START_PREFIX).
Definition rsched_is_tsan_background_start (start a : Z) : bool :=
  if negb (a =? 0) then false
  else bool_decide (code_bytes start (length TSAN_BACKGROUND_START_PREFIX) = TSAN_BACKGROUND_START_PREFIX).

(** The two fields at [a] are the routine and its argument. *)
Definition prepare_tsan_start_gate (a : Z) : P Z :=
  let! r := load 8 a in
  let! user_arg := load 8 (a + 8) in
  let! gate := Act (fun w => Ok (next_box w,
    set_next_box (next_box w + 1) (set_gates (<[next_box w := (r, user_arg)]> (gates w)) w))) in
  store 8 a gate_address ;;
  store 8 (a + 8) gate ;;
  Ret gate.

Definition take_gate (gate : Z) : P (Z * Z) :=
  Act (fun w => let? g := expect (gates w !! gate) "UB: double free of a box" in
                Ok (g, set_gates (delete gate (gates w)) w)).

Definition restore_tsan_start_gate (a gate : Z) : P unit :=
  let! (r, user_arg) := take_gate gate in
  store 8 a r ;; store 8 (a + 8) user_arg.

(** Up to the call [routine(arg)], which it returns. *)
Definition tsan_user_start_gate (raw : Z) : P (Z * Z) :=
  let! g := take_gate raw in
  let! self_pt := my_pt in
  depth_enter self ;;
  rsched_glock ;;
  let! known := read_state (fun s => Ok (bool_decide (is_Some (info s !! self_pt)))) in
  when known (
    update_state (modify self_pt (Thread.set_in_wait true)) ;;
    rsched_cond_wait (SuspendCond self_pt) ;;
    update_state (modify self_pt (Thread.set_in_wait false))) ;;
  rsched_gunlock ;;
  depth_exit self ;;
  Ret g.

(** * rsched_pthread_create *)

(** The id belongs to a thread that is registered and has not exited, or that was
    created and has not begun. *)
Definition id_in_use (w : World) (pt : PthreadT) : bool :=
  bool_decide (pt ∈ fst <$> spawned w) ||
  match STATE w with
  | Some s => match info s !! pt with Some th => negb (is_exited th) | None => false end
  | None => false
  end.

(** The real [pthread_create]: on success the new OS thread exists and will run
    [trampoline(sa)].  Ids of live threads are distinct (POSIX). *)
Definition real_create (via_plt : bool) (attr sa : Z) : P (Z * PthreadT) :=
  Act (fun w =>
    let r := ret L (history w) self (PtCreate via_plt attr sa) in
    let child := new_pthread L (history w) in
    let w1 := set_history ((self, PtCreate via_plt attr sa) :: history w) w in
    if r =? 0
    then if id_in_use w child then Panic "UB: two live threads with the same id"
         else Ok ((r, child), set_spawned (spawned w1 ++ [(child, sa)]) w1)
    else Ok ((r, 0), w1)).

Definition rsched_pthread_create (ra attr start_routine a : Z) : P (Z * option PthreadT) :=
  ensure_init ;;
  let! tsan_gate :=
    if tsan cfg && rsched_is_tsan_thread_start start_routine a
    then let! g := prepare_tsan_start_gate a in Ret (Some g)
    else Ret None in
  let! sa := box_new (mkStartArg start_routine a false) in
  rsched_glock ;;
  drain_pending_child cfg L self ;;
  let! (r, child) := with_internal_depth (real_create (asan cfg) attr sa) in
  if negb (r =? 0) then
    box_free sa ;;
    match tsan_gate with Some g => restore_tsan_start_gate a g | None => Ret tt end ;;
    rsched_gunlock ;;
    Ret (r, None)
  else
    update_state (fun s => Ok (add (Thread.new_with_tid child 0) s)) ;;
    let! me := my_pt in
    update_state (set_event me (mkEvent ra ThreadCreate)) ;;
    update_state (fun s => Ok (set_pending_child (Some (sa, child)) s)) ;;
    rsched_gunlock ;;
    Ret (r, Some child).

(** * rsched_pthread_join, rsched_pthread_exit *)

(** The real [pthread_join] blocks until the OS thread has terminated. *)
Definition real_join (thread : PthreadT) : P Z :=
  Suspend (OnJoin thread) ;; real_call L self (PtJoin thread).

Definition rsched_pthread_join (thread : PthreadT) : P Z :=
  ensure_init ;;
  rsched_glock ;;
  let! caller := my_pt in
  context_switch caller ;;
  let! live := read_state (fun s => Ok (contains thread (threads s))) in
  when live (update_state (join_mark thread caller) ;; context_switch caller) ;;
  rsched_gunlock ;;
  with_internal_depth (real_join thread).

(** The thread ends with the raw [exit] system call that follows. *)
Definition rsched_pthread_exit : P unit :=
  ensure_init ;;
  let! me := my_pt in
  do_thread_exit me.

(** * Mutexes *)

(** Common ending of the functions that recorded an event. *)
Definition finish (caller : PthreadT) (r : Z) : P Z :=
  update_state (clear_event caller) ;; rsched_gunlock ;; Ret r.

(** Take the real mutex after the virtual one, annotate, and return. *)
Definition lock_real (lock caller : Z) : P Z :=
  let! r := with_internal_depth (real_call L self (PtMutexLock lock)) in
  if negb (r =? 0) then finish caller r
  else tsan_user_acquire cfg L self lock ;; finish caller 0.

Definition caller_tid (caller : PthreadT) : P PidT :=
  read_state (fun s => let? th := index caller s in Ok (tid th)).

Definition rsched_pthread_mutex_lock (ra lock : Z) : P Z :=
  ensure_init ;;
  rsched_glock ;;
  let! caller := my_pt in
  update_state (set_event caller (mkEvent ra (LockAcq lock))) ;;
  let! my_tid := caller_tid caller in
  let! blocks := read_state (fun s => Ok (will_block lock my_tid s)) in
  when (negb blocks) (context_switch caller) ;;
  mutex_lock cfg L self lock caller ;;
  lock_real lock caller.

Definition rsched_pthread_mutex_trylock (ra lock : Z) : P Z :=
  ensure_init ;;
  rsched_glock ;;
  let! caller := my_pt in
  update_state (set_event caller (mkEvent ra (LockAcq lock))) ;;
  context_switch caller ;;
  let! my_tid := caller_tid caller in
  let! mine := read_state (fun s =>
    Ok (match mutexes s !! lock with Some m => SMutex.owner_tid m =? my_tid | None => false end)) in
  if mine then
    let! recursive := read_state (fun s => Ok (is_recursive_mutex lock s)) in
    if recursive then
      mutex_lock cfg L self lock caller ;; lock_real lock caller
    else finish caller EBUSY
  else
    let! blocks := read_state (fun s => Ok (will_block lock my_tid s)) in
    if blocks then finish caller EBUSY
    else mutex_lock cfg L self lock caller ;; lock_real lock caller.

Definition rsched_pthread_mutex_unlock (ra lock : Z) : P Z :=
  ensure_init ;;
  rsched_glock ;;
  let! caller := my_pt in
  update_state (set_event caller (mkEvent ra (LockRel lock))) ;;
  tsan_user_release cfg L self lock ;;
  let! r := with_state (mutex_unlock (overflow_checks cfg) lock caller) in
  let! real_r := if r =? 0 then with_internal_depth (real_call L self (PtMutexUnlock lock)) else Ret 0 in
  if negb (real_r =? 0) then finish caller real_r
  else context_switch caller ;; finish caller r.

(** * Condition variables *)
Definition rsched_pthread_cond_wait (cond lock : Z) : P Z :=
  ensure_init ;;
  rsched_glock ;;
  let! caller := my_pt in
  let! my_tid := caller_tid caller in
  let! blocks := read_state (fun s => Ok (will_block lock my_tid s)) in
  when (negb blocks) (context_switch caller) ;;
  let! r := with_state (mutex_unlock (overflow_checks cfg) lock caller) in
  if negb (r =? 0) then rsched_gunlock ;; Ret r
  else
    let! real_unlock := with_internal_depth (real_call L self (PtMutexUnlock lock)) in
    if negb (real_unlock =? 0) then rsched_gunlock ;; Ret real_unlock
    else
      update_state (cond_enqueue cond caller) ;;
      context_switch caller ;;
      wait_while_blocking cfg L self caller ;;
      mutex_lock cfg L self lock caller ;;
      let! real_lock := with_internal_depth (real_call L self (PtMutexLock lock)) in
      if negb (real_lock =? 0) then rsched_gunlock ;; Ret real_lock
      else rsched_gunlock ;; Ret 0.

Definition rsched_pthread_cond_signal (cond : Z) : P Z :=
  ensure_init ;;
  rsched_glock ;;
  let! caller := my_pt in
  update_state (cond_release_one cond) ;;
  context_switch caller ;;
  rsched_gunlock ;;
  Ret 0.

Definition rsched_pthread_cond_broadcast (cond : Z) : P Z :=
  ensure_init ;;
  rsched_glock ;;
  let! caller := my_pt in
  update_state (cond_release_all cond) ;;
  context_switch caller ;;
  rsched_gunlock ;;
  Ret 0.

(** * Barriers *)
Definition rsched_pthread_barrier_init (barrier attr count : Z) : P Z :=
  ensure_init ;;
  rsched_glock ;;
  let! caller := my_pt in
  context_switch caller ;;
  let! r := with_internal_depth (real_call L self (PtBarrierInit barrier attr count)) in
  when (r =? 0) (
    update_state (fun s => Ok (set_barriers (<[barrier := SBarrier.mk count []]> (barriers s)) s))) ;;
  rsched_gunlock ;;
  Ret r.

Definition rsched_pthread_barrier_wait (barrier : Z) : P Z :=
  ensure_init ;;
  rsched_glock ;;
  let! caller := my_pt in
  drain_pending_child cfg L self ;;
  let! arrived := with_state (fun s =>
    let? o := barrier_arrive barrier caller s in
    Ok (match o with Some (released, s') => (Some released, s') | None => (None, s) end)) in
  match arrived with
  | None => rsched_gunlock ;; Ret EINVAL
  | Some released =>
      context_switch caller ;;
      wait_while_blocking cfg L self caller ;;
      rsched_gunlock ;;
      Ret (if released : bool then PTHREAD_BARRIER_SERIAL_THREAD else 0)
  end.

(** * Yield *)
Definition rsched_sched_yield (ra : Z) : P Z :=
  ensure_init ;;
  rsched_glock ;;
  let! caller := my_pt in
  update_state (set_event caller (mkEvent ra SchedYield)) ;;
  context_switch caller ;;
  finish caller 0.
End Api.
