(* ===== verification/Atomics.v ===== *)
(** The exported atomic operations ([src/rsched/src/lib.rs], from
    [schedule_memop] to the end): a scheduling point, then the access.

    [instr_addr] is the return address of the exported function.  An [i32] or
    [u32] is passed and returned as its value, a pointer as its address. *)
From S2P Require Import Prelude Event Scheduler Machine State Runtime Memory.
Import StateOps.

Section Atomics.
Context (cfg : Cfg) (L : Libc) (env : string -> option string).
Context (self : PthreadT).

Definition schedule_memop (instr_addr mem_addr size : Z) (access : AccessKind) : P unit :=
  let! inside := is_in_rsched self in
  if inside : bool then Ret tt else
  ensure_init cfg L env self ;;
  rsched_glock cfg L self ;;
  let! caller := my_pt self in
  update_state (set_event caller (mkEvent instr_addr (MemOp mem_addr size access))) ;;
  context_switch cfg L self caller ;;
  update_state (clear_event caller) ;;
  rsched_gunlock cfg L self.

Definition access_of (access : Z) : AccessKind :=
  if access =? 0 then Read else if access =? 1 then Write else ReadWrite.

Definition rsched_atomic_instrument_ra (instr_addr ptr size access : Z) : P unit :=
  schedule_memop instr_addr ptr size (access_of access).
Definition rsched_atomic_instrument (ra ptr size access : Z) : P unit :=
  schedule_memop ra ptr size (access_of access).

(** * Loads and stores *)
Definition rsched_atomic_load_i32 (ra ptr : Z) : P Z :=
  schedule_memop ra ptr 4 Read ;; let! v := load 4 ptr in Ret (as_i32 v).
Definition rsched_atomic_store_i32 (ra ptr val : Z) : P unit :=
  schedule_memop ra ptr 4 Write ;; store 4 ptr val.
Definition rsched_atomic_load_u32 (ra ptr : Z) : P Z :=
  schedule_memop ra ptr 4 Read ;; load 4 ptr.
Definition rsched_atomic_store_u32 (ra ptr val : Z) : P unit :=
  schedule_memop ra ptr 4 Write ;; store 4 ptr val.
Definition rsched_atomic_load_ptr (ra ptr : Z) : P Z :=
  schedule_memop ra ptr 8 Read ;; load 8 ptr.
Definition rsched_atomic_store_ptr (ra ptr val : Z) : P unit :=
  schedule_memop ra ptr 8 Write ;; store 8 ptr val.

(** * Compare and exchange

    [*expected] is read before the exchange and written after a failure. *)
Definition compare_exchange (ptr expected desired : Z) : P bool :=
  let! e := load 4 expected in
  let! r := rmw 4 ptr (fun current =>
    if current =? e then (None, Some desired) else (Some current, None)) in
  match r with
  | None => Ret true
  | Some current => store 4 expected current ;; Ret false
  end.

Definition rsched_atomic_compare_exchange_i32 (ra ptr expected desired : Z) : P bool :=
  schedule_memop ra ptr 4 ReadWrite ;; compare_exchange ptr expected desired.
Definition rsched_atomic_compare_exchange_u32 (ra ptr expected desired : Z) : P bool :=
  schedule_memop ra ptr 4 ReadWrite ;; compare_exchange ptr expected desired.

(** * Fetch and modify *)
Definition rsched_atomic_fetch_add_i32 (ra ptr val : Z) : P Z :=
  schedule_memop ra ptr 4 ReadWrite ;;
  rmw 4 ptr (fun v => (as_i32 v, Some (wrap32 (v + val)))).
Definition rsched_atomic_fetch_add_u32 (ra ptr val : Z) : P Z :=
  schedule_memop ra ptr 4 ReadWrite ;;
  rmw 4 ptr (fun v => (v, Some (wrap32 (v + val)))).
Definition rsched_atomic_fetch_xor_i32 (ra ptr val : Z) : P Z :=
  schedule_memop ra ptr 4 ReadWrite ;;
  rmw 4 ptr (fun v => (as_i32 v, Some (Z.lxor v (wrap32 val)))).
Definition rsched_atomic_fetch_xor_u32 (ra ptr val : Z) : P Z :=
  schedule_memop ra ptr 4 ReadWrite ;;
  rmw 4 ptr (fun v => (v, Some (Z.lxor v val))).

(** * The operations as requests, on a variable at [ptr] *)
Inductive AtomicOp : Set :=
| InstrumentRa (instr_addr size access : Z)
| Instrument (size access : Z)
| LoadI32
| StoreI32 (val : Z)
| LoadU32
| StoreU32 (val : Z)
| LoadPtr
| StorePtr (val : Z)
| CompareExchangeI32 (expected desired : Z)
| CompareExchangeU32 (expected desired : Z)
| FetchAddI32 (val : Z)
| FetchAddU32 (val : Z)
| FetchXorI32 (val : Z)
| FetchXorU32 (val : Z).

(** The result as a word: 0 for none, 0 or 1 for a [bool]. *)
Definition run_atomic (op : AtomicOp) (ra ptr : Z) : P Z :=
  let unit_ (p : P unit) : P Z := (p ;; Ret 0) in
  let bool_ (p : P bool) : P Z := (let! b := p in Ret (Z.b2z b)) in
  match op with
  | InstrumentRa i size access => unit_ (rsched_atomic_instrument_ra i ptr size access)
  | Instrument size access => unit_ (rsched_atomic_instrument ra ptr size access)
  | LoadI32 => rsched_atomic_load_i32 ra ptr
  | StoreI32 val => unit_ (rsched_atomic_store_i32 ra ptr val)
  | LoadU32 => rsched_atomic_load_u32 ra ptr
  | StoreU32 val => unit_ (rsched_atomic_store_u32 ra ptr val)
  | LoadPtr => rsched_atomic_load_ptr ra ptr
  | StorePtr val => unit_ (rsched_atomic_store_ptr ra ptr val)
  | CompareExchangeI32 e d => bool_ (rsched_atomic_compare_exchange_i32 ra ptr e d)
  | CompareExchangeU32 e d => bool_ (rsched_atomic_compare_exchange_u32 ra ptr e d)
  | FetchAddI32 val => rsched_atomic_fetch_add_i32 ra ptr val
  | FetchAddU32 val => rsched_atomic_fetch_add_u32 ra ptr val
  | FetchXorI32 val => rsched_atomic_fetch_xor_i32 ra ptr val
  | FetchXorU32 val => rsched_atomic_fetch_xor_u32 ra ptr val
  end.
End Atomics.

(** * What the operations mean

    The C11 operation on the variable at [ptr], on memory alone: its result and
    the new memory. *)
Definition fetch_modify (n : nat) (out : Z -> Z) (f : Z -> Z) (ptr : Z) (m : gmap Z Z)
  : option (Z * gmap Z Z) :=
  v ← read_word ptr n m; Some (out v, write_word ptr n (f v) m).

Definition c11_exchange (ptr expected desired : Z) (m : gmap Z Z) : option (Z * gmap Z Z) :=
  e ← read_word expected 4 m;
  v ← read_word ptr 4 m;
  if v =? e then Some (1, write_word ptr 4 desired m)
  else Some (0, write_word expected 4 v m).

Definition c11 (op : AtomicOp) (ptr : Z) (m : gmap Z Z) : option (Z * gmap Z Z) :=
  match op with
  | InstrumentRa _ _ _ | Instrument _ _ => Some (0, m)
  | LoadI32 => v ← read_word ptr 4 m; Some (as_i32 v, m)
  | LoadU32 => v ← read_word ptr 4 m; Some (v, m)
  | LoadPtr => v ← read_word ptr 8 m; Some (v, m)
  | StoreI32 val | StoreU32 val => fetch_modify 4 (fun _ => 0) (fun _ => val) ptr m
  | StorePtr val => fetch_modify 8 (fun _ => 0) (fun _ => val) ptr m
  | CompareExchangeI32 e d | CompareExchangeU32 e d => c11_exchange ptr e d m
  | FetchAddI32 val => fetch_modify 4 as_i32 (fun v => wrap32 (v + val)) ptr m
  | FetchAddU32 val => fetch_modify 4 id (fun v => wrap32 (v + val)) ptr m
  | FetchXorI32 val => fetch_modify 4 as_i32 (fun v => Z.lxor v (wrap32 val)) ptr m
  | FetchXorU32 val => fetch_modify 4 id (fun v => Z.lxor v val) ptr m
  end.

(** * Scheduling points do not touch user memory *)
Definition same_mem (w w' : World) : Prop := mem w' = mem w.

#[export] Instance same_mem_preorder : PreOrder same_mem.
Proof. split; [done|]. intros w1 w2 w3 H1 H2. unfold same_mem in *. congruence. Qed.

Section KeepsMem.
Context (cfg : Cfg) (L : Libc) (env : string -> option string) (self : PthreadT).

Lemma keeps_with_state A (f : State BoxScheduler -> result (A * State BoxScheduler)) :
  acts same_mem (with_state f : P A).
Proof.
  intros w x w' E. apply rbind_Ok in E as (s & _ & E). apply rbind_Ok in E as ([y s'] & _ & E).
  by simplify_eq.
Qed.
Lemma keeps_update_state f : acts same_mem (update_state f).
Proof. apply keeps_with_state. Qed.
Lemma keeps_read_state A (f : State BoxScheduler -> result A) : acts same_mem (read_state f : P A).
Proof.
  intros w x w' E. apply rbind_Ok in E as (s & _ & E). apply rbind_Ok in E as (y & _ & E).
  by simplify_eq.
Qed.
Lemma keeps_modify_world f :
  (forall w, mem (f w) = mem w) -> acts same_mem (modify_world f).
Proof. intros Hf w x w' E. injection E as _ <-. apply Hf. Qed.
Lemma keeps_read_world A (f : World -> A) : acts same_mem (read_world f : P A).
Proof. intros w x w' E. by simplify_eq. Qed.

(** The steps of a program one by one; each leaves [mem] alone. *)
Ltac keeps := acts_walk ltac:(idtac; match goal with
  | |- acts _ (with_state _) => apply keeps_with_state
  | |- acts _ (update_state _) => apply keeps_update_state
  | |- acts _ (read_state _) => apply keeps_read_state
  | |- acts _ (modify_world _) => apply keeps_modify_world; reflexivity
  | |- acts _ (read_world _) => apply keeps_read_world
  end).

Lemma keeps_context_switch caller : acts same_mem (context_switch cfg L self caller).
Proof. unfold context_switch, drain_pending_child, deliver_event, wake. keeps. Qed.

Lemma keeps_ensure_init : acts same_mem (ensure_init cfg L env self).
Proof.
  unfold ensure_init, rsched_init, register_main, install_seccomp_tripwire_if_requested, install_sigsys_handler, install_seccomp_filter, asserted_call.
  keeps.
Qed.

Lemma keeps_schedule_memop i a n k : acts same_mem (schedule_memop cfg L env self i a n k).
Proof.
  split; [apply keeps_read_world|]. intros []; [exact I|].
  split; [apply keeps_ensure_init|]. keeps; apply keeps_context_switch.
Qed.

(** * Refinement *)

(** Whatever the other threads do at the suspensions ([True] as rely): the access
    is made on the memory found when the last segment began, as one step of the
    C11 operation; no other segment of the call changes the memory. *)
Abbreviation atomically op ptr p :=
  (triple (fun _ => same_mem) (fun _ _ _ => True) (fun _ => True) same_mem p
     (fun r w0 w => c11 op ptr (mem w0) = Some (r, mem w))).

Lemma after_scheduling A i a n k (rest : P A) Q :
  triple (fun _ => same_mem) (fun _ _ _ => True) (fun _ => True) same_mem rest Q ->
  triple (fun _ => same_mem) (fun _ _ _ => True) (fun _ => True) same_mem
    (schedule_memop cfg L env self i a n k ;; rest) Q.
Proof.
  intros H. eapply triple_bind; [apply acts_triple; [apply _|apply keeps_schedule_memop]|].
  intros ?. exact H.
Qed.


Lemma exchange_refines ptr expected desired :
  triple (fun _ => same_mem) (fun _ _ _ => True) (fun _ => True) same_mem
    (let! b := compare_exchange ptr expected desired in Ret (Z.b2z b))
    (fun r w0 w => c11_exchange ptr expected desired (mem w0) = Some (r, mem w)).
Proof.
  intros w0 w Hm. unfold same_mem in Hm. simpl.
  destruct (read_word expected 4 (mem w)) as [e|] eqn:He; simpl; [|done].
  destruct (read_word ptr 4 (mem w)) as [v|] eqn:Hv; simpl; [|done].
  assert (E : c11_exchange ptr expected desired (mem w0) =
    if v =? e then Some (1, write_word ptr 4 desired (mem w0))
    else Some (0, write_word expected 4 v (mem w0))).
  { unfold c11_exchange. by rewrite <- Hm, He, Hv. }
  destruct (v =? e); simpl; [by rewrite E, Hm|]. rewrite He. simpl. by rewrite E, Hm.
Qed.

(** C18. Every exported atomic operation is its C11 operation, executed at once on the
    memory that the scheduling point left. *)
Theorem atomics_refine op ra ptr :
  triple (fun _ => same_mem) (fun _ _ _ => True) (fun _ => True) same_mem
    (run_atomic cfg L env self op ra ptr)
    (fun r w0 w => c11 op ptr (mem w0) = Some (r, mem w)).
Proof.
  destruct op; unfold run_atomic, rsched_atomic_instrument_ra, rsched_atomic_instrument,
    rsched_atomic_load_i32, rsched_atomic_load_u32, rsched_atomic_load_ptr, rsched_atomic_store_i32,
    rsched_atomic_store_u32, rsched_atomic_store_ptr, rsched_atomic_compare_exchange_i32,
    rsched_atomic_compare_exchange_u32, rsched_atomic_fetch_add_i32, rsched_atomic_fetch_add_u32,
    rsched_atomic_fetch_xor_i32, rsched_atomic_fetch_xor_u32;
    try apply triple_assoc; apply after_scheduling; try apply exchange_refines;
    intros w0 w Hm; unfold same_mem in Hm; simpl; unfold fetch_modify; rewrite <- ?Hm;
    try match goal with
    | |- context [expect (read_word ?p ?n ?m)] => destruct (read_word p n m) eqn:Hr; simpl; [|done]
    end; by rewrite <- ?Hm, ?Hr.
Qed.
End KeepsMem.

(** * Properties of the operations *)
Lemma wrap32_add_as_i32 v x : wrap32 (as_i32 v + x) = wrap32 (v + x).
Proof.
  unfold as_i32. destruct (v <? 2 ^ 31); [done|]. unfold wrap32.
  replace (v - u32_mod + x) with (v + x + (-1) * u32_mod) by lia. by rewrite Z.mod_add.
Qed.

(** [fetch_add] on an [_Atomic int] returns the old value and leaves the sum, as
    long as the sum is an [int]. *)
Theorem fetch_add_then_load ptr val m old m' :
  c11 (FetchAddI32 val) ptr m = Some (old, m') -> in_i32 (old + val) ->
  c11 LoadI32 ptr m = Some (old, m) /\ c11 LoadI32 ptr m' = Some (old + val, m').
Proof.
  simpl. unfold fetch_modify. destruct (read_word ptr 4 m) as [v|] eqn:Hv; simpl; [|done].
  intros E Hr. injection E as <- <-. split; [done|]. rewrite read_write_word. simpl.
  change (2 ^ (8 * Z.of_nat 4)) with u32_mod. fold (wrap32 (wrap32 (v + val))).
  rewrite wrap32_small by apply wrap32_range.
  by rewrite <- wrap32_add_as_i32, as_i32_wrap32.
Qed.

(** A failed compare-and-exchange stores what it found in [*expected], so that the
    retry succeeds: the loop idiom makes progress when nobody interferes. *)
Theorem failed_exchange_retries ptr expected desired m m1 :
  bytes_ok m -> expected + 4 <= ptr \/ ptr + 4 <= expected ->
  c11 (CompareExchangeI32 expected desired) ptr m = Some (0, m1) ->
  exists m2, c11 (CompareExchangeI32 expected desired) ptr m1 = Some (1, m2) /\
    read_word ptr 4 m1 = read_word ptr 4 m /\
    read_word ptr 4 m2 = Some (wrap32 desired).
Proof.
  intros Hb Hd. simpl. unfold c11_exchange.
  destruct (read_word expected 4 m) as [e|] eqn:He; simpl; [|done].
  destruct (read_word ptr 4 m) as [v|] eqn:Hv; simpl; [|done].
  destruct (v =? e); intros E; simplify_eq.
  rewrite read_write_word, read_write_disjoint by lia. rewrite Hv. simpl.
  pose proof (read_word_range _ _ _ _ Hb Hv) as Hr.
  rewrite Z.mod_small, Z.eqb_refl by exact Hr.
  eexists. split; [done|]. split; [done|]. by rewrite read_write_word.
Qed.
