(* ===== verification/Contracts.v ===== *)
(** What a call has done when it returns, whatever the other threads did meanwhile.

    A call is followed through its suspensions: at each of them the world may become
    any world in which the thread-local of the caller still names it.  [settled]
    says what the functions that take a mutex promise when they return 0. *)
From S2P Require Import Prelude Event Scheduler Machine State WellFormed StateSpecs Integrity Runtime Sample Memory Api.
Import StateOps.

(** * Runs through suspensions *)

(** Run a program to its end; at each suspension the next of the worlds is found. *)
Fixpoint replay {A} (fuel : nat) (p : P A) (w : World) (found : list World) : outcome World Blocker A :=
  match eval fuel p w with
  | Blocked w' b rest =>
      match found with
      | [] => Blocked w' b rest
      | v :: found' => replay fuel rest v found'
      end
  | o => o
  end.

(** A run through suspensions obeys what is proved of the program with its worlds as rely. *)
Lemma replay_sound G (X : World -> Prop) n A (p : P A) (Q : A -> World -> Prop) w0 w found a w' :
  wp G (fun _ _ v => X v) (fun _ => True) p (fun a _ v => Q a v) w0 w ->
  Forall X found -> replay n p w found = Done a w' -> Q a w'.
Proof.
  revert w0 w p. induction found as [|v found IH]; intros w0 w p Hp Hf E; simpl in E;
    apply (wp_sound _ _ _ _ _ n) in Hp; destruct (eval n p w) as [a1 w1|w1 b rest|e|]; try done;
    try by simplify_eq.
  apply Forall_cons in Hf as [Hv Hf]. eapply (IH v v rest); [by apply Hp|done|done].
Qed.

Section Contracts.
Context (cfg : Cfg) (L : Libc) (env : string -> option string).
Context (self : PthreadT).
Implicit Types (w : World) (s : State BoxScheduler) (φ ψ : State BoxScheduler -> Prop).

(** The kernel's id of the caller, which [trampoline] or the initialisation recorded. *)
Context (me : PidT).

(** * What the other threads leave alone *)
Definition named s : Prop := forall th, info s !! self = Some th -> tid th = me.

(** The library is initialised, the thread-local of the caller is its own. *)
Definition inside φ w : Prop :=
  INITED w = true /\ MY_PT w !! self = Some self /\ exists s, STATE w = Some s /\ φ s.

(** Before a call: the same, once the library is initialised; until then the kernel
    would give the id. *)
Definition before_call w : Prop :=
  (INITED w = true -> inside named w) /\ (INITED w = false -> forall h, gettid L h self = me).

Abbreviation TC Pre p Q := (triple (fun _ _ _ => True) (fun _ _ w => inside named w) (fun _ => True)
  (fun _ w => Pre w) p (fun a _ w => Q a w)).

(** * Ownership *)

(** The virtual mutex is the caller's. *)
Definition owns (lock : Z) s : Prop :=
  exists m, mutexes s !! lock = Some m /\ SMutex.owner_tid m = me.

(** It is another thread's, or the caller's and not recursive. *)
Definition taken (lock : Z) s : Prop :=
  exists m, mutexes s !! lock = Some m /\
    (SMutex.owner_tid m <> 0 /\ SMutex.owner_tid m <> me \/
     SMutex.owner_tid m = me /\ is_recursive_mutex lock s = false).

(** * Steps that touch no mutex *)
Record same_locks s s' : Prop := mkSameLocks {
  same_mutexes : mutexes s' = mutexes s;
  same_recursive : recursive_mutexes s' = recursive_mutexes s;
  same_names : named s -> named s'
}.

#[export] Instance same_locks_preorder : PreOrder same_locks.
Proof. split; [by split|]. intros s1 s2 s3 [A1 A2 A3] [B1 B2 B3]. split; [congruence..|auto]. Qed.

(** What is said of the names and the mutexes only. *)
Definition on_locks φ : Prop := forall s s', same_locks s s' -> φ s -> φ s'.

Lemma on_locks_named : on_locks named.
Proof. intros s s' H. apply H. Qed.
Lemma on_locks_owns lock : on_locks (fun s => named s /\ owns lock s).
Proof. intros s s' [E1 E2 E3] [Hn (m & Hm & Ho)]. split; [auto|]. exists m. by rewrite E1. Qed.
Lemma on_locks_taken lock : on_locks (fun s => named s /\ taken lock s).
Proof.
  intros s s' [E1 E2 E3] [Hn (m & Hm & Ho)]. split; [auto|]. exists m. unfold is_recursive_mutex.
  by rewrite E1, E2.
Qed.

Lemma same_locks_info s s' :
  mutexes s' = mutexes s -> recursive_mutexes s' = recursive_mutexes s -> info s' = info s -> same_locks s s'.
Proof. intros E1 E2 E3. split; [done..|]. unfold named. by rewrite E3. Qed.

Lemma same_locks_modify pt f s s' :
  (forall th, tid (f th) = tid th) -> modify pt f s = Ok s' -> same_locks s s'.
Proof.
  intros Hf E. unfold modify, t in E. invert_ok. split; [done..|]. intros Hn th Hth. simpl in Hth.
  rewrite lookup_insert in Hth. case_decide; [|by apply Hn]. subst. injection Hth as <-. rewrite Hf. by apply Hn.
Qed.

Lemma same_locks_modify_unwrap pt f s s' :
  (forall th, tid (f th) = tid th) -> modify_unwrap pt f s = Ok s' -> same_locks s s'.
Proof.
  intros Hf E. unfold modify_unwrap in E. invert_ok. apply (same_locks_modify pt f); [done|].
  unfold modify, t. by rewrite H.
Qed.

Section Keeps.
Context (φ : State BoxScheduler -> Prop) (Hφ : on_locks φ).

Abbreviation keeps p := (acts (fun w w' => inside φ w -> inside φ w') p).

Lemma keeps_with A (f : State BoxScheduler -> result (A * State BoxScheduler)) :
  (forall s a s', f s = Ok (a, s') -> same_locks s s') -> keeps (with_state f : P A).
Proof.
  intros Hf w a w' E (Hi & Hm & s & Hs & H). rewrite Hs in E. simpl in E.
  apply rbind_Ok in E as ([x s'] & Ef & E). simplify_eq. split; [done|]. split; [done|].
  exists s'. split; [done|]. eapply Hφ, H. by eapply Hf.
Qed.

Lemma keeps_update f : (forall s s', f s = Ok s' -> same_locks s s') -> keeps (update_state f).
Proof.
  intros Hf. apply keeps_with. intros s a s' E. apply rbind_Ok in E as (s1 & Ef & E). simplify_eq. by apply Hf.
Qed.

Lemma keeps_modify pt f : (forall th, tid (f th) = tid th) -> keeps (update_state (modify pt f)).
Proof. intros Hf. apply keeps_update. intros s s' E. by eapply same_locks_modify. Qed.

Lemma keeps_modify_unwrap pt f : (forall th, tid (f th) = tid th) -> keeps (update_state (modify_unwrap pt f)).
Proof. intros Hf. apply keeps_update. intros s s' E. by eapply same_locks_modify_unwrap. Qed.

Lemma keeps_read A (f : State BoxScheduler -> result A) : keeps (read_state f : P A).
Proof.
  intros w a w' E H. apply rbind_Ok in E as (s & _ & E). apply rbind_Ok in E as (y & _ & E). by simplify_eq.
Qed.

Lemma keeps_world f :
  (forall w, STATE (f w) = STATE w /\ MY_PT (f w) = MY_PT w /\ INITED (f w) = INITED w) -> keeps (modify_world f).
Proof. intros Hf w a w' [= _ <-]. destruct (Hf w) as (E1 & E2 & E3). unfold inside. by rewrite E1, E2, E3. Qed.

(** Go through the steps of a program. *)
Ltac keep := acts_walk ltac:(idtac; match goal with
  | |- acts _ (read_state _) => apply keeps_read
  | |- acts _ (modify_world _) => apply keeps_world; intros ?; repeat split; reflexivity
  | |- acts _ (update_state (modify _ _)) => apply keeps_modify; intros ?; reflexivity
  | |- acts _ (update_state (modify_unwrap _ _)) => apply keeps_modify_unwrap; intros ?; reflexivity
  end).

Lemma keeps_gunlock : keeps (rsched_gunlock cfg L self).
Proof. keep. Qed.

Lemma context_switch_kept caller : keeps (context_switch cfg L self caller).
Proof.
  unfold context_switch, drain_pending_child, deliver_event, wake. keep.
  all: lazymatch goal with |- acts _ (update_state _) => apply keeps_update | _ => apply keeps_with end.
  - intros s a s' [= <- <-]. by apply same_locks_info.
  - intros s s' E. case_bool_decide; [by eapply same_locks_modify, E|]. simplify_eq. reflexivity.
  - intros s s' E. apply rbind_Ok in E as (th & _ & E). case_match; [by eapply same_locks_modify, E|].
    simplify_eq. reflexivity.
  - intros s x s' E. unfold choose in E. apply rbind_Ok in E as (bl & _ & E).
    apply rbind_Ok in E as ([o sch] & _ & E). simplify_eq. by apply same_locks_info.
  - intros s x s' E. destruct (on_event _ _) as [sch out]. simplify_eq. by apply same_locks_info.
Qed.

Lemma keeps_wait caller : keeps (wait_while_blocking cfg L self caller).
Proof. unfold wait_while_blocking. keep. Qed.

Lemma keeps_internal_call c : keeps (with_internal_depth self (real_call L self c)).
Proof. keep. Qed.

Lemma keeps_asserted c msg : keeps (asserted_call L self c msg).
Proof.
  split; [keep|]. intros r w x w' E H. destruct (r =? 0); [|done]. by injection E as _ <-.
Qed.

Lemma keeps_annotate c : keeps (tsan_user_acquire cfg L self c).
Proof. keep. Qed.

Lemma keeps_set_event pt ev : keeps (update_state (set_event pt ev)).
Proof. by apply keeps_modify. Qed.
Lemma keeps_clear_event pt : keeps (update_state (clear_event pt)).
Proof. by apply keeps_modify. Qed.
End Keeps.

(** * Triples *)
#[local] Hint Resolve on_locks_named on_locks_owns on_locks_taken : core.

(** A program that may suspend keeps what the others keep; one that does not keeps more. *)
Lemma kept A (p : P A) :
  acts (fun w w' => inside named w -> inside named w') p -> TC (inside named) p (fun _ => inside named).
Proof. intros Ha. apply (acts_kept _ _ _ _ _ (inside named)); [by intros|exact Ha]. Qed.

Lemma steady φ A (p : P A) :
  no_suspend p -> acts (fun w w' => inside φ w -> inside φ w') p -> TC (inside φ) p (fun _ => inside φ).
Proof. intros Hn Ha. eapply triple_no_suspend; [done|]. exact (acts_keep _ _ _ _ (inside φ) Ha). Qed.

Lemma any_kept A (p : P A) Pre : TC Pre p (fun _ _ => True).
Proof.
  eapply triple_pre; [apply (acts_kept _ _ _ _ p (fun _ => True)); [done|apply acts_nothing]|done].
Qed.

Lemma locked Pre : TC Pre (rsched_glock cfg L self) (fun _ => inside named).
Proof.
  eapply triple_bind with (M := fun _ _ => inside named).
  - eapply triple_bind; [apply any_kept|intros ?].
    eapply triple_bind with (M := fun _ _ => inside named).
    + eapply triple_bind with (M := fun _ _ => inside named); [by intros w0 w _|intros ?].
      apply kept, keeps_world. by intros.
    + intros ?. apply kept. split; [|done]. apply keeps_world. by intros.
  - intros ?. apply kept. unfold sync_acquire, tsan_ignore_begin, tsan_call, when. destruct (_ && _); [|done].
    split; [|done]. intros w a' w' E H. by simplify_eq.
Qed.

Lemma unlocked φ :
  on_locks φ -> TC (inside φ) (rsched_gunlock cfg L self) (fun _ w => inside φ w /\ GMTX w = None).
Proof.
  intros Hφ w0 w H. unfold rsched_gunlock, sync_release, tsan_ignore_end, tsan_call, when.
  destruct (_ && _); simpl; case_bool_decide; done.
Qed.

Lemma initialised : TC before_call (ensure_init cfg L env self) (fun _ => inside named).
Proof.
  intros w0 w [Hb Hg]. simpl. destruct (INITED w) eqn:Hi; simpl; [by apply Hb|]. rewrite Hi. simpl. specialize (Hg eq_refl).
  assert (Ht : TC (fun _ => True) (register_main cfg L self ;; install_seccomp_tripwire_if_requested L env self)
    (fun _ => inside named)); [|by apply Ht].
  eapply triple_bind with (M := fun _ _ => inside named).
  - eapply triple_bind; [apply any_kept|intros ?]. eapply triple_bind; [apply locked|intros ?].
    eapply triple_bind with (M := fun my_tid _ v => inside named v /\ my_tid = me).
    { apply triple_act; [done|]. intros v0 v x v' Hv [= <- <-]. split; [done|apply Hg]. }
    intros my_tid w1 v1 [Hv1 ->]. refine (kept _ _ _ w1 v1 Hv1). split; [|intros ?; by apply keeps_gunlock].
    intros v x v' E (Hv & Hm & s & Es & Hn). rewrite Es in E. simpl in E. injection E as _ <-. split; [done|]. split; [done|].
    eexists. split; [reflexivity|]. intros th Hth. simpl in Hth. rewrite lookup_insert in Hth. case_decide; [|by apply Hn].
    by injection Hth as <-.
  - intros ?. apply kept. unfold install_seccomp_tripwire_if_requested, install_sigsys_handler, install_seccomp_filter, when. case_match; [|done].
    split; [apply keeps_asserted|intros ?]. split; [apply keeps_asserted|intros ?]. apply keeps_asserted.
Qed.

Lemma bind_name A (k : PthreadT -> P A) Q :
  TC (inside named) (k self) Q -> TC (inside named) (Bind (my_pt self) k) Q.
Proof. intros Hk w0 w H. simpl. replace (default 0 (MY_PT w !! self)) with self; [by apply Hk|]. destruct H as (_ & -> & _). done. Qed.

Lemma bind_tid A (k : PidT -> P A) Q :
  TC (inside named) (k me) Q -> TC (inside named) (Bind (caller_tid self) k) Q.
Proof.
  intros Hk w0 w H. assert (Hk' := Hk w0 w H). destruct H as (_ & _ & s & E & Hn). simpl. rewrite E. simpl.
  unfold index. destruct (info s !! self) as [th|] eqn:Hth; simpl; [|done]. by rewrite (Hn th Hth).
Qed.

(** The loop ends when the mutex is the caller's. *)
Lemma mutex_lock_owns lock :
  TC (inside named) (mutex_lock cfg L self lock self) (fun _ => inside (fun s => named s /\ owns lock s)).
Proof.
  apply (bind_tid unit (fun my_tid => Iter _ tt)).
  apply (triple_iter _ _ _ _ _ _ _ _ tt (fun _ _ => inside named)). intros [].
  eapply triple_bind with (M := fun taken _ =>
    inside (if taken : bool then fun s => named s /\ owns lock s else named)).
  - apply triple_act; [done|]. intros w0 w taken w' (Hi & Hm & s & Es & Hn) E. rewrite Es in E. simpl in E.
    apply rbind_Ok in E as ([b s'] & Ea & E). simplify_eq. split; [done|]. split; [done|]. exists s'.
    split; [done|]. unfold mutex_acquire in Ea. case_match eqn:Ho.
    + apply Z.eqb_eq in Ho. apply rbind_Ok in Ea as (c & _ & Ea). simplify_eq. split; [done|].
      eexists. simpl. rewrite lookup_insert_eq. done.
    + apply rbind_Ok in Ea as (s1 & Ea & E1). injection E1 as <- <-.
      destruct (modify_self_Ok _ _ _ _ Ea) as (th & Hth & ->). intros th' Hth'. simpl in Hth'.
      rewrite lookup_insert_eq in Hth'. injection Hth' as <-. exact (Hn th Hth).
  - intros []; [by intros w0 w H|].
    eapply triple_bind; [apply kept; by apply context_switch_kept|intros ?].
    eapply triple_bind; [apply kept; by apply keeps_wait|intros ?]. by intros w0 w H.
Qed.

Lemma finished φ caller r :
  on_locks φ -> TC (inside φ) (finish cfg L self caller r) (fun r' w => r' = r /\ inside φ w /\ GMTX w = None).
Proof.
  intros Hφ. eapply triple_bind; [apply steady; [done|by apply keeps_clear_event]|intros ?].
  eapply triple_bind; [by apply unlocked|intros ?]. by intros w0 w H.
Qed.

(** Past the virtual mutex, whatever the real one says. *)
Lemma lock_real_owns lock caller :
  TC (inside (fun s => named s /\ owns lock s)) (lock_real cfg L self lock caller)
    (fun _ w => inside (fun s => named s /\ owns lock s) w /\ GMTX w = None).
Proof.
  eapply triple_bind; [apply steady; [by repeat split|by apply keeps_internal_call]|intros r].
  assert (Hf : forall x, TC (inside (fun s => named s /\ owns lock s)) (finish cfg L self caller x)
    (fun _ w => inside (fun s => named s /\ owns lock s) w /\ GMTX w = None)).
  { intros x. eapply triple_weaken; [| |exact (finished _ caller x (on_locks_owns lock))]; [done|]. by intros r' w0 w [_ H]. }
  destruct (negb (r =? 0)); [apply Hf|]. eapply triple_bind; [|intros ?; apply Hf].
  apply steady; [|by apply keeps_annotate].
  unfold tsan_user_acquire, tsan_ignore_end, tsan_ignore_begin, tsan_call, when. destruct (_ && _); by repeat split.
Qed.

(** * The functions that take a mutex *)
Lemma named_with A (f : State BoxScheduler -> result (A * State BoxScheduler)) :
  (forall s x s', f s = Ok (x, s') -> named s -> named s') ->
  TC (inside named) (with_state f) (fun _ => inside named).
Proof.
  intros Hf. apply triple_act; [done|]. intros w0 w x w' (Hi & Hm & s & Es & Hn) E. rewrite Es in E. simpl in E.
  apply rbind_Ok in E as ([y s'] & Ea & E). simplify_eq. split; [done|]. split; [done|].
  exists s'. split; [done|]. by eapply Hf.
Qed.

Lemma named_modify pt f s s' :
  (forall th, tid (f th) = tid th) -> modify pt f s = Ok s' -> named s -> named s'.
Proof. intros Hf E. by apply (same_locks_modify pt f). Qed.

Lemma named_unlock checks key caller s r s' :
  mutex_unlock checks key caller s = Ok (r, s') -> named s -> named s'.
Proof.
  unfold mutex_unlock. intros E Hn. apply rbind_Ok in E as (th & _ & E).
  destruct (mutexes s !! key) as [m|]; [|by simplify_eq]. case_match; [by simplify_eq|].
  apply rbind_Ok in E as (c & _ & E). cbv zeta in E. case_match; [by simplify_eq|].
  case_match; [by simplify_eq|]. apply rbind_Ok in E as ([[waiter ws] s2] & Hp & E).
  apply pick_waiter_Ok in Hp as (idx & sch & _ & _ & ->).
  apply rbind_Ok in E as (wt & _ & E). apply rbind_Ok in E as (s3 & Hm & E). simplify_eq.
  exact (named_modify _ (Thread.set_blocking false) _ _ (fun _ => eq_refl) Hm Hn).
Qed.

Inductive Acquire : Set :=
| ALock (ra : Z)
| ATrylock (ra : Z)
| ACondWait (cond : Z).

Definition run_acquire (c : Acquire) (lock : Z) : P Z :=
  match c with
  | ALock ra => rsched_pthread_mutex_lock cfg L env self ra lock
  | ATrylock ra => rsched_pthread_mutex_trylock cfg L env self ra lock
  | ACondWait cond => rsched_pthread_cond_wait cfg L env self cond lock
  end.

(** What the result says of the mutex. *)
Definition settled (c : Acquire) (lock r : Z) w : Prop :=
  GMTX w = None /\ (r = 0 -> inside (owns lock) w) /\
  match c with
  | ALock _ => inside (owns lock) w
  | ATrylock _ => r <> 0 -> inside (owns lock) w \/ r = EBUSY /\ inside (taken lock) w
  | ACondWait _ => True
  end.

Lemma inside_weaken φ ψ w : (forall s, φ s -> ψ s) -> inside φ w -> inside ψ w.
Proof. intros H (Hi & Hm & s & E & Hs). repeat (split; [done|]). exists s. auto. Qed.

Lemma owned_settles c lock r w :
  inside (fun s => named s /\ owns lock s) w /\ GMTX w = None -> settled c lock r w.
Proof.
  intros [Hs Hg]. assert (Ho : inside (owns lock) w) by (eapply inside_weaken, Hs; by intros s [_ ?]).
  split; [done|]. split; [done|]. destruct c; auto.
Qed.

Lemma locked_settles c lock :
  TC (inside named) (mutex_lock cfg L self lock self ;; lock_real cfg L self lock self) (settled c lock).
Proof.
  eapply triple_bind; [apply mutex_lock_owns|intros ?].
  eapply triple_weaken; [| |exact (lock_real_owns lock self)]; [done|]. intros r w0 w H. by apply owned_settles.
Qed.

Lemma maybe_switch b : TC (inside named) (when b (context_switch cfg L self self)) (fun _ => inside named).
Proof. destruct b; [apply kept; by apply context_switch_kept|by intros w0 w H]. Qed.

Lemma looked A (f : State BoxScheduler -> result A) :
  TC (inside named) (read_state f) (fun a w => inside named w /\ forall s, STATE w = Some s -> f s = Ok a).
Proof.
  apply triple_act; [done|]. intros w0 w a w' H E. assert (H' := H). destruct H' as (_ & _ & s & Es & _).
  rewrite Es in E. simpl in E. apply rbind_Ok in E as (y & Ef & E). simplify_eq. split; [done|].
  intros s' Es'. congruence.
Qed.

Lemma begun A (p : P A) Q : TC (inside named) p Q -> TC before_call (ensure_init cfg L env self ;; rsched_glock cfg L self ;; p) Q.
Proof.
  intros Hp. eapply triple_bind; [apply initialised|intros ?]. eapply triple_bind; [apply locked|intros ?]. exact Hp.
Qed.

Lemma mutex_lock_settles ra lock :
  TC before_call (rsched_pthread_mutex_lock cfg L env self ra lock) (settled (ALock ra) lock).
Proof.
  apply begun, bind_name. eapply triple_bind; [apply kept; by apply keeps_set_event|intros ?].
  apply bind_tid. eapply triple_bind; [apply kept, keeps_read|intros blocks].
  eapply triple_bind; [apply maybe_switch|intros ?]. apply locked_settles.
Qed.

Lemma busy_settles ra lock :
  TC (fun w => inside (fun s => named s /\ taken lock s) w) (finish cfg L self self EBUSY) (settled (ATrylock ra) lock).
Proof.
  eapply triple_weaken; [| |exact (finished _ self EBUSY (on_locks_taken lock))]; [done|].
  intros r w0 w (-> & Hs & Hg). split; [done|]. split; [done|]. intros _. right. split; [done|].
  eapply inside_weaken, Hs. by intros s [_ ?].
Qed.

Lemma mutex_trylock_settles ra lock :
  TC before_call (rsched_pthread_mutex_trylock cfg L env self ra lock) (settled (ATrylock ra) lock).
Proof.
  apply begun, bind_name. eapply triple_bind; [apply kept; by apply keeps_set_event|intros ?].
  eapply triple_bind; [apply kept; by apply context_switch_kept|intros ?]. apply bind_tid.
  eapply triple_bind; [apply looked|intros mine]. intros w0 w [H Hf].
  assert (Hs := H). destruct Hs as (Hi & Hm & s & Es & Hn). specialize (Hf s Es). injection Hf as Hf.
  assert (Htaken : taken lock s -> inside (fun s => named s /\ taken lock s) w).
  { intros Ht. repeat (split; [done|]). by exists s. }
  destruct mine; simpl; rewrite Es; simpl.
  - destruct (mutexes s !! lock) as [m|] eqn:Hl; [|done]. apply Z.eqb_eq in Hf.
    destruct (is_recursive_mutex lock s) eqn:Hrec; [by apply locked_settles|].
    apply (busy_settles ra lock w0 w), Htaken. exists m. auto.
  - destruct (will_block lock me s) eqn:Hb; [|by apply locked_settles].
    apply (busy_settles ra lock w0 w), Htaken. unfold will_block in Hb.
    destruct (mutexes s !! lock) as [m|] eqn:Hl; [|done]. exists m. split; [done|]. left.
    apply andb_true_iff in Hb as [H0 H1]. split; by apply Z.eqb_neq, negb_true_iff.
Qed.

Lemma failed_settles c lock r :
  r <> 0 -> TC (inside named) (rsched_gunlock cfg L self ;; Ret r) (settled (ACondWait c) lock).
Proof.
  intros Hr. eapply triple_bind; [by apply unlocked|intros ?]. by intros w0 w [_ Hg].
Qed.

Lemma cond_wait_settles cond lock :
  TC before_call (rsched_pthread_cond_wait cfg L env self cond lock) (settled (ACondWait cond) lock).
Proof.
  apply begun, bind_name, bind_tid. eapply triple_bind; [apply kept, keeps_read|intros blocks].
  eapply triple_bind; [apply maybe_switch|intros ?].
  eapply triple_bind; [apply named_with; intros s x s' E; by eapply named_unlock|intros r].
  destruct (Z.eqb_spec r 0) as [->|Hr]; [|by apply failed_settles]. simpl negb. cbv iota.
  eapply triple_bind; [apply kept; by apply keeps_internal_call|intros r1].
  destruct (Z.eqb_spec r1 0) as [->|Hr1]; [|by apply failed_settles]. simpl negb. cbv iota.
  eapply triple_bind.
  { apply named_with. intros s x s' E. apply rbind_Ok in E as (s1 & E & E1). simplify_eq.
    intros Hn. unfold cond_enqueue in E. exact (named_modify _ (Thread.set_blocking true) _ _ (fun _ => eq_refl) E Hn). }
  intros ?. eapply triple_bind; [apply kept; by apply context_switch_kept|intros ?].
  eapply triple_bind; [apply kept; by apply keeps_wait|intros ?].
  eapply triple_bind; [apply mutex_lock_owns|intros ?].
  eapply triple_bind; [apply steady; [by repeat split|by apply keeps_internal_call]|intros r2].
  destruct (negb (r2 =? 0)).
  all: eapply triple_bind; [by apply unlocked|intros ?]; intros w0 w H; by apply owned_settles.
Qed.

Lemma acquire_settles c lock : TC before_call (run_acquire c lock) (settled c lock).
Proof. destruct c; [apply mutex_lock_settles|apply mutex_trylock_settles|apply cond_wait_settles]. Qed.

(** C8. When a call of [pthread_mutex_lock], [pthread_mutex_trylock] or [pthread_cond_wait]
    returns, however often it was suspended and whatever the other threads did
    meanwhile to anything but the caller's name: the global mutex is free again;
    after 0 the caller owns the virtual mutex; [pthread_mutex_lock] owns it even when
    the real lock then fails; a failed trylock either owns it, too (the real lock
    failed), or says EBUSY while another thread owns it, or the caller does and it is
    not recursive. *)
Theorem acquired_on_return c lock n w found r w' :
  before_call w -> Forall (inside named) found ->
  replay n (run_acquire c lock) w found = Done r w' -> settled c lock r w'.
Proof. intros Hw Hf E. eapply (replay_sound _ (inside named) n Z _ (settled c lock) w w); [by apply acquire_settles|done|done]. Qed.
End Contracts.

(** * Witness

    The main thread locks a mutex; it is suspended when it takes the global mutex,
    and finds the worlds it left. *)
Fixpoint undisturbed {A} (n fuel : nat) (p : P A) (w : World) : list World :=
  match n, eval fuel p w with
  | S n', Blocked w' _ rest => w' :: undisturbed n' fuel rest w'
  | _, _ => []
  end.

Definition locking : P Z := run_acquire plain_cfg plain_libc no_env 1 (ALock 5) 9.

Lemma inside_named_decides w :
  match STATE w with
  | Some s => INITED w && bool_decide (MY_PT w !! 1 = Some 1) &&
              match info s !! 1 with Some th => tid th =? 1001 | None => true end
  | None => false
  end = true -> inside 1 (named 1 1001) w.
Proof.
  destruct (STATE w) as [s|] eqn:E; [|done]. intros H. apply andb_true_iff in H as [H Ht].
  apply andb_true_iff in H as [Hi Hm]. apply bool_decide_eq_true in Hm. split; [done|]. split; [done|].
  exists s. split; [done|]. intros th Hth. rewrite Hth in Ht. by apply Z.eqb_eq.
Qed.

Lemma acquired_on_return_witness :
  match replay 60 locking world0 (undisturbed 2 60 locking world0) with
  | Done 0 w' => inside 1 (owns 1001 9) w'
  | _ => False
  end.
Proof.
  assert (H : match replay 60 locking world0 (undisturbed 2 60 locking world0) with
              | Done 0 _ => True | _ => False end) by (vm_compute; exact I).
  destruct (replay 60 locking world0 (undisturbed 2 60 locking world0)) as [[|r|r] w'|w' b rest|e|] eqn:E;
    try destruct H.
  destruct (acquired_on_return plain_cfg plain_libc no_env 1 1001 (ALock 5) 9 60 world0
              (undisturbed 2 60 locking world0) 0 w') as (_ & Ho & _); [|..|exact E|].
  - split; [intros Hi; discriminate Hi|done].
  - assert (Hl : length (undisturbed 2 60 locking world0) = 2%nat) by (vm_compute; reflexivity).
    apply Forall_lookup. intros i v Hv.
    assert (Hi : (i < 2)%nat) by (rewrite <- Hl; by eapply lookup_lt_Some).
    apply inside_named_decides. destruct i as [|[|i]]; [| |lia]; revert Hv; vm_compute; by intros [= <-].
  - by apply Ho.
Defined.
