(* ===== verification/Elf.v ===== *)
(** The symbol lookup of the preload shim's sanitizer build
    ([src/rsched/preload/src/lib.rs], from [read_u16] to [elf_symbol_contains]): is
    the function symbol that covers an offset of a 64-bit little-endian ELF file
    named as expected?

    A file is the list of its bytes.  Arithmetic on [usize] (64 bits) panics on
    overflow in a build with overflow checks and wraps without; a division panics on
    0 in both; every access goes through a checked slice. *)
From S2P Require Import Prelude Event Scheduler Machine State Runtime Memory.

Definition add_usize (checks : bool) (a b : Z) : result Z :=
  if a + b <? u64_mod then Ok (a + b)
  else if checks then Panic "attempt to add with overflow" else Ok (wrap64 (a + b)).
Definition mul_usize (checks : bool) (a b : Z) : result Z :=
  if a * b <? u64_mod then Ok (a * b)
  else if checks then Panic "attempt to multiply with overflow" else Ok (wrap64 (a * b)).

Definition div_usize (a b : Z) : result Z :=
  if b =? 0 then Panic "attempt to divide by zero" else Ok (a / b).

(** [data.get(a..b)] and [data.get(i)]. *)
Definition get_range (data : list Z) (a b : Z) : option (list Z) :=
  if (a <=? b) && (b <=? Z.of_nat (length data))
  then Some (take (Z.to_nat (b - a)) (drop (Z.to_nat a) data)) else None.
Definition get_byte (data : list Z) (i : Z) : option Z :=
  if i <? Z.of_nat (length data) then data !! Z.to_nat i else None.

(** [match x { Some(v) => k(v), None => return false }] *)
Definition or_false {A} (m : result (option A)) (k : A -> result bool) : result bool :=
  let? o := m in match o with Some a => k a | None => Ok false end.

Section Elf.
Context (checks : bool).

Definition read_uint (n : Z) (data : list Z) (off : Z) : result (option Z) :=
  let? e := add_usize checks off n in Ok (le_value <$> get_range data off e).
Definition read_u16 := read_uint 2.
Definition read_u32 := read_uint 4.
Definition read_u64 := read_uint 8.

(** The bytes before the first 0. *)
Fixpoint until_nul (bs : list Z) : option (list Z) :=
  match bs with
  | [] => None
  | b :: bs' => if b =? 0 then Some [] else l ← until_nul bs'; Some (b :: l)
  end.
Definition cstr_at (data : list Z) (off : Z) : option (list Z) :=
  if off <=? Z.of_nat (length data) then until_nul (drop (Z.to_nat off) data) else None.

Definition SHT_SYMTAB : Z := 2.
Definition STT_FUNC : Z := 2.

(** The loop over the symbols of a table: [n] are left, from number [idx] on;
    [None] when none of them covers the offset. *)
Fixpoint scan_symbols (data strtab : list Z) (sym_off sym_entsize offset : Z) (expected : list Z)
    (n : nat) (idx : Z) (done : result bool) : result bool :=
  match n with
  | O => done
  | S n' =>
      let next := scan_symbols data strtab sym_off sym_entsize offset expected n' (idx + 1) done in
      let? rel := mul_usize checks idx sym_entsize in
      let? sym := add_usize checks sym_off rel in
      or_false (read_u32 data sym) (fun name_off =>
      let? sym4 := add_usize checks sym 4 in
      or_false (Ok (get_byte data sym4)) (fun info =>
      if negb (Z.land info 0x0f =? STT_FUNC) then next else
      let? sym8 := add_usize checks sym 8 in
      or_false (read_u64 data sym8) (fun value =>
      let? sym16 := add_usize checks sym 16 in
      or_false (read_u64 data sym16) (fun size =>
      if size =? 0 then next
      else if offset <? value then next
      else
        let? stop := add_usize checks value size in
        if stop <=? offset then next
        else Ok (bool_decide (cstr_at strtab name_off = Some expected))))))
  end.

(** The loop over the section headers. *)
Fixpoint scan_sections (data : list Z) (shoff shentsize shnum offset : Z) (expected : list Z)
    (n : nat) (idx : Z) : result bool :=
  match n with
  | O => Ok false
  | S n' =>
      let next := scan_sections data shoff shentsize shnum offset expected n' (idx + 1) in
      let? rel := mul_usize checks idx shentsize in
      let? sh := add_usize checks shoff rel in
      let? sh4 := add_usize checks sh 4 in
      or_false (read_u32 data sh4) (fun sh_type =>
      if negb (sh_type =? SHT_SYMTAB) then next else
      let? a := add_usize checks sh 0x18 in
      or_false (read_u64 data a) (fun sym_off =>
      let? a := add_usize checks sh 0x20 in
      or_false (read_u64 data a) (fun sym_size =>
      let? a := add_usize checks sh 0x38 in
      or_false (read_u64 data a) (fun sym_entsize =>
      let? a := add_usize checks sh 0x28 in
      or_false (read_u32 data a) (fun str_idx =>
      if (sym_entsize <? 24) || (shnum <=? str_idx) then Ok false else
      let? rel := mul_usize checks str_idx shentsize in
      let? str_sh := add_usize checks shoff rel in
      let? a := add_usize checks str_sh 0x18 in
      or_false (read_u64 data a) (fun str_off =>
      let? a := add_usize checks str_sh 0x20 in
      or_false (read_u64 data a) (fun str_size =>
      let? str_end := add_usize checks str_off str_size in
      or_false (Ok (get_range data str_off str_end)) (fun strtab =>
      let? sym_count := div_usize sym_size sym_entsize in
      scan_symbols data strtab sym_off sym_entsize offset expected (Z.to_nat sym_count) 0 next))))))))
  end.

(** [file]: the content of the file, when it can be read. *)
Definition elf_symbol_contains (file : option (list Z)) (offset : Z) (expected : list Z) : result bool :=
  match file with
  | None => Ok false
  | Some data =>
      if negb (bool_decide (get_range data 0 4 = Some [0x7f; 0x45; 0x4c; 0x46])) ||
         negb (bool_decide (get_byte data 4 = Some 2)) || negb (bool_decide (get_byte data 5 = Some 1))
      then Ok false
      else
        or_false (read_u64 data 0x28) (fun shoff =>
        or_false (read_u16 data 0x3a) (fun shentsize =>
        or_false (read_u16 data 0x3c) (fun shnum =>
        if shentsize <? 64 then Ok false
        else scan_sections data shoff shentsize shnum offset expected (Z.to_nat shnum) 0)))
  end.

(** * What an answer means *)

(** The number on the [n] bytes from [off] on is [v]. *)
Definition field (data : list Z) (n off v : Z) : Prop :=
  0 <= off /\ off + n <= Z.of_nat (length data) /\
  le_value (take (Z.to_nat n) (drop (Z.to_nat off) data)) = v.

(** Why the answer is yes: in a little-endian 64-bit file, section [i] is a symbol table,
    symbol [j] of it is a function that covers the offset, and the string at its name
    in the section the table links to is [name].  Sums are taken modulo 2^64. *)
Inductive justified (data : list Z) (offset : Z) (name : list Z) : Prop :=
| Justified shoff shentsize shnum i sh sym_off sym_size entsize str_idx strh str_off str_size
    j sym name_off info value size rest :
    take 6 data = [0x7f; 0x45; 0x4c; 0x46; 2; 1] ->
    field data 8 40 shoff -> field data 2 58 shentsize -> field data 2 60 shnum -> 64 <= shentsize ->
    (* the symbol table *)
    0 <= i < shnum -> sh = wrap64 (shoff + i * shentsize) ->
    field data 4 (wrap64 (sh + 4)) 2 -> field data 8 (wrap64 (sh + 24)) sym_off ->
    field data 8 (wrap64 (sh + 32)) sym_size -> field data 8 (wrap64 (sh + 56)) entsize -> 24 <= entsize ->
    (* its string table *)
    field data 4 (wrap64 (sh + 40)) str_idx -> str_idx < shnum -> strh = wrap64 (shoff + str_idx * shentsize) ->
    field data 8 (wrap64 (strh + 24)) str_off -> field data 8 (wrap64 (strh + 32)) str_size ->
    str_off + str_size <= Z.of_nat (length data) ->
    (* the symbol *)
    0 <= j -> (j + 1) * entsize <= sym_size -> sym = wrap64 (sym_off + j * entsize) ->
    field data 4 sym name_off -> field data 1 (wrap64 (sym + 4)) info -> info mod 16 = 2 ->
    field data 8 (wrap64 (sym + 8)) value -> field data 8 (wrap64 (sym + 16)) size ->
    size <> 0 -> value <= offset -> offset < wrap64 (value + size) ->
    (* its name *)
    drop (Z.to_nat name_off) (take (Z.to_nat str_size) (drop (Z.to_nat str_off) data)) = name ++ 0 :: rest ->
    0 ∉ name ->
    justified data offset name.

Lemma or_false_true {A} (m : result (option A)) (k : A -> result bool) :
  or_false m k = Ok true <-> exists a, m = Ok (Some a) /\ k a = Ok true.
Proof.
  unfold or_false. rewrite rbind_Ok. split.
  - intros ([a|] & -> & E); [eauto|discriminate E].
  - intros (a & -> & E). eauto.
Qed.

Lemma add_usize_Ok a b c : 0 <= a -> 0 <= b -> add_usize checks a b = Ok c -> c = wrap64 (a + b).
Proof.
  intros Ha Hb. unfold add_usize. destruct (Z.ltb_spec (a + b) u64_mod); [|destruct checks; [done|]]; intros [= <-]; [|done].
  unfold wrap64. rewrite Z.mod_small; lia.
Qed.
Lemma mul_usize_Ok a b c : 0 <= a -> 0 <= b -> mul_usize checks a b = Ok c -> c = wrap64 (a * b).
Proof.
  intros Ha Hb. unfold mul_usize. destruct (Z.ltb_spec (a * b) u64_mod); [|destruct checks; [done|]]; intros [= <-]; [|done].
  unfold wrap64. rewrite Z.mod_small; nia.
Qed.

Lemma wrap64_lt z : 0 <= wrap64 z < u64_mod.
Proof. exact (wrap64_range z). Qed.
Lemma wrap64_add_r a b : wrap64 (a + wrap64 b) = wrap64 (a + b).
Proof. unfold wrap64. apply Zplus_mod_idemp_r. Qed.

Lemma get_range_Some data a b l :
  get_range data a b = Some l ->
  a <= b /\ b <= Z.of_nat (length data) /\ l = take (Z.to_nat (b - a)) (drop (Z.to_nat a) data).
Proof.
  unfold get_range. destruct (Z.leb_spec a b); [|done]. destruct (Z.leb_spec b (Z.of_nat (length data))); [|done].
  by intros [= <-].
Qed.

(** A read that succeeds reads a field: a wrapped end is before the start. *)
Lemma read_field n data off v :
  0 <= n < u64_mod -> 0 <= off < u64_mod -> read_uint n data off = Ok (Some v) -> field data n off v.
Proof.
  intros Hn Ho. unfold read_uint. rewrite rbind_Ok. intros (e & He & E). injection E as E.
  apply fmap_Some in E as (l & Hl & ->). apply get_range_Some in Hl as (H1 & H2 & ->).
  apply add_usize_Ok in He; [|lia..]. unfold wrap64 in He.
  assert (He' : e = off + n).
  { destruct (Z.lt_ge_cases (off + n) u64_mod) as [Hs|Hs]; [rewrite Z.mod_small in He; lia|].
    rewrite (Z.mod_eq (off + n)) in He by done.
    assert ((off + n) / u64_mod = 1) as E1; [|lia]. symmetry. apply Z.div_unique with (r := off + n - u64_mod); lia. }
  split; [lia|]. split; [lia|]. do 2 f_equal. lia.
Qed.

Lemma field_range data n off v :
  Forall (fun b => 0 <= b < 256) data -> 0 <= n -> field data n off v -> 0 <= v < 256 ^ n.
Proof.
  intros Hd Hn (H1 & H2 & <-).
  assert (Hl : Z.of_nat (length (take (Z.to_nat n) (drop (Z.to_nat off) data))) = n)
    by (rewrite length_take, length_drop; lia).
  pose proof (le_value_range (take (Z.to_nat n) (drop (Z.to_nat off) data))) as H. rewrite Hl in H.
  apply H. by apply Forall_take, Forall_drop.
Qed.

Lemma until_nul_Some bs l : until_nul bs = Some l -> exists rest, bs = l ++ 0 :: rest /\ 0 ∉ l.
Proof.
  revert l. induction bs as [|b bs IH]; intros l; simpl; [done|].
  destruct (Z.eqb_spec b 0) as [->|Hb]; [intros [= <-]; exists bs; split; [done|apply not_elem_of_nil]|].
  destruct (until_nul bs) as [l'|]; [|done]. simpl. intros [= <-]. destruct (IH l' eq_refl) as (rest & -> & Hn).
  exists rest. split; [done|]. rewrite not_elem_of_cons. split; [congruence|done].
Qed.

(** The symbol number [j] of a table, and the one that is found. *)
Definition covering (data strtab : list Z) (sym offset : Z) (name : list Z) : Prop :=
  exists name_off info value size,
    read_u32 data sym = Ok (Some name_off) /\ get_byte data (wrap64 (sym + 4)) = Some info /\
    Z.land info 15 = 2 /\ read_u64 data (wrap64 (sym + 8)) = Ok (Some value) /\
    read_u64 data (wrap64 (sym + 16)) = Ok (Some size) /\ size <> 0 /\ value <= offset /\
    (0 <= value -> 0 <= size -> offset < wrap64 (value + size)) /\ cstr_at strtab name_off = Some name.

Lemma scan_symbols_sound data strtab sym_off entsize offset expected n idx done :
  0 <= sym_off -> 0 <= entsize -> 0 <= idx ->
  scan_symbols data strtab sym_off entsize offset expected n idx done = Ok true ->
  done = Ok true \/
  exists j, idx <= j < idx + Z.of_nat n /\
    covering data strtab (wrap64 (sym_off + j * entsize)) offset expected.
Proof.
  intros Ho He. revert idx. induction n as [|n IH]; intros idx Hi; cbn [scan_symbols]; [auto|].
  assert (IH' : scan_symbols data strtab sym_off entsize offset expected n (idx + 1) done = Ok true ->
    done = Ok true \/ exists j, idx <= j < idx + Z.of_nat (S n) /\
      covering data strtab (wrap64 (sym_off + j * entsize)) offset expected).
  { intros E. apply IH in E as [E|(j & Hj & E)]; [auto|right; exists j; split; [lia|done]|lia]. }
  clear IH. intros E. apply rbind_Ok in E as (rel & Hrel & E). apply rbind_Ok in E as (sym & Hsym & E).
  apply mul_usize_Ok in Hrel; [|lia..]. pose proof (wrap64_lt (idx * entsize)) as Hr. rewrite <- Hrel in Hr.
  apply add_usize_Ok in Hsym; [|lia..]. pose proof (wrap64_lt (sym_off + rel)) as Hs. rewrite <- Hsym in Hs.
  rewrite Hrel, wrap64_add_r in Hsym.
  apply or_false_true in E as (name_off & Hname & E). apply rbind_Ok in E as (sym4 & H4 & E).
  apply add_usize_Ok in H4; [|lia..].
  apply or_false_true in E as (info & Hinfo & E). injection Hinfo as Hinfo.
  destruct (Z.eqb_spec (Z.land info 15) STT_FUNC) as [Hf|Hf]; cbn [negb] in E; [|by apply IH'].
  apply rbind_Ok in E as (sym8 & H8 & E). apply or_false_true in E as (value & Hvalue & E).
  apply rbind_Ok in E as (sym16 & H16 & E). apply or_false_true in E as (size & Hsize & E).
  apply add_usize_Ok in H8; [|lia..]. apply add_usize_Ok in H16; [|lia..].
  destruct (Z.eqb_spec size 0) as [Hz|Hz]; [by apply IH'|].
  destruct (Z.ltb_spec offset value) as [Hv|Hv]; [by apply IH'|].
  apply rbind_Ok in E as (stop & Hstop & E).
  destruct (Z.leb_spec stop offset) as [Ht|Ht]; [by apply IH'|].
  injection E as E. apply bool_decide_eq_true in E. right. exists idx. split; [lia|]. rewrite <- Hsym.
  exists name_off, info, value, size. subst. repeat (split; [done|]). split; [|done].
  intros ? ?. apply add_usize_Ok in Hstop; [|done..]. congruence.
Qed.

Lemma take_first_six data :
  get_range data 0 4 = Some [0x7f; 0x45; 0x4c; 0x46] -> get_byte data 4 = Some 2 -> get_byte data 5 = Some 1 ->
  take 6 data = [0x7f; 0x45; 0x4c; 0x46; 2; 1].
Proof.
  intros H. apply get_range_Some in H as (_ & _ & H). unfold get_byte.
  do 6 (destruct data as [|? data]; [simpl in *; try discriminate H; by intros|]).
  injection H as <- <- <- <-. repeat case_match; try done. intros [= ->] [= ->]. done.
Qed.

Lemma byte_field data off b : 0 <= off -> get_byte data off = Some b -> field data 1 off b.
Proof.
  unfold get_byte. destruct (Z.ltb_spec off (Z.of_nat (length data))); [|done]. intros Ho Hb.
  split; [done|]. split; [lia|]. change (Z.to_nat 1) with 1%nat.
  rewrite (drop_S _ _ _ Hb). simpl. lia.
Qed.

Lemma covering_justified data offset name shoff shentsize shnum i sh sym_off sym_size entsize str_idx strh
    str_off str_size str_end strtab j :
  Forall (fun b => 0 <= b < 256) data ->
  take 6 data = [0x7f; 0x45; 0x4c; 0x46; 2; 1] ->
  field data 8 40 shoff -> field data 2 58 shentsize -> field data 2 60 shnum -> 64 <= shentsize ->
  0 <= i < shnum -> sh = wrap64 (shoff + i * shentsize) ->
  field data 4 (wrap64 (sh + 4)) 2 -> field data 8 (wrap64 (sh + 24)) sym_off ->
  field data 8 (wrap64 (sh + 32)) sym_size -> field data 8 (wrap64 (sh + 56)) entsize -> 24 <= entsize ->
  field data 4 (wrap64 (sh + 40)) str_idx -> str_idx < shnum -> strh = wrap64 (shoff + str_idx * shentsize) ->
  field data 8 (wrap64 (strh + 24)) str_off -> field data 8 (wrap64 (strh + 32)) str_size ->
  str_end = wrap64 (str_off + str_size) -> get_range data str_off str_end = Some strtab ->
  0 <= j < sym_size / entsize ->
  covering data strtab (wrap64 (sym_off + j * entsize)) offset name ->
  justified data offset name.
Proof.
  intros Hd F1 F2 F3 F4 F5 Hi Hsh S1 S2 S3 S4 S5 S6 S7 S8 S9 S10 He Hst Hj
    (name_off & info & value & size & Hn & Hinfo & Hf & Hv & Hs & Hz & Hlo & Hhi & Hc).
  pose proof (field_range data 8 _ _ Hd ltac:(lia) S9) as R1.
  pose proof (field_range data 8 _ _ Hd ltac:(lia) S10) as R2.
  apply read_field in Hn; [|done|apply wrap64_lt]. apply read_field in Hv; [|done|apply wrap64_lt].
  apply read_field in Hs; [|done|apply wrap64_lt]. apply byte_field in Hinfo; [|apply wrap64_lt].
  pose proof (field_range data 8 _ _ Hd ltac:(lia) Hv) as R3.
  pose proof (field_range data 8 _ _ Hd ltac:(lia) Hs) as R4.
  apply get_range_Some in Hst as (L1 & L2 & ->).
  assert (He' : str_end = str_off + str_size).
  { change (256 ^ 8) with u64_mod in R1, R2. unfold wrap64 in He.
    destruct (Z.lt_ge_cases (str_off + str_size) u64_mod) as [?|?]; [rewrite Z.mod_small in He; lia|].
    rewrite (Z.mod_eq (str_off + str_size)) in He by done.
    assert ((str_off + str_size) / u64_mod = 1) as E1; [|lia].
    symmetry. apply Z.div_unique with (r := str_off + str_size - u64_mod); lia. }
  unfold cstr_at in Hc. destruct (name_off <=? _); [|done]. apply until_nul_Some in Hc as (rest & Hc & H0).
  rewrite He' in Hc. replace (str_off + str_size - str_off) with str_size in Hc by lia.
  eapply (Justified data offset name shoff shentsize shnum i sh sym_off sym_size entsize str_idx strh str_off
    str_size j _ name_off info value size rest); try done; try lia.
  - pose proof (Z.mul_div_le sym_size entsize ltac:(lia)). nia.
  - rewrite <- Hf. symmetry. apply (Z.land_ones info 4). lia.
Qed.

Lemma scan_sections_sound data shoff shentsize shnum offset expected n idx :
  Forall (fun b => 0 <= b < 256) data ->
  take 6 data = [0x7f; 0x45; 0x4c; 0x46; 2; 1] ->
  field data 8 40 shoff -> field data 2 58 shentsize -> field data 2 60 shnum -> 64 <= shentsize ->
  0 <= idx -> idx + Z.of_nat n <= shnum ->
  scan_sections data shoff shentsize shnum offset expected n idx = Ok true -> justified data offset expected.
Proof.
  intros Hd F1 F2 F3 F4 F5. revert idx. induction n as [|n IH]; intros idx Hi Hn; cbn [scan_sections]; [done|].
  specialize (IH (idx + 1) ltac:(lia) ltac:(lia)).
  pose proof (field_range data 8 _ _ Hd ltac:(lia) F2) as R1. change (256 ^ 8) with u64_mod in R1.
  assert (Hread : forall k w a v c, add_usize checks a k = Ok c -> read_uint w data c = Ok (Some v) ->
    0 <= a < u64_mod -> 0 <= k < 64 -> 0 <= w < u64_mod -> field data w (wrap64 (a + k)) v).
  { intros k w a v c E1 E2 Ha Hk Hw. apply add_usize_Ok in E1; [|lia..]. subst c.
    apply read_field in E2; [done|done|apply wrap64_lt]. }
  assert (Hhead : forall i rel sh, 0 <= i -> mul_usize checks i shentsize = Ok rel -> add_usize checks shoff rel = Ok sh ->
    sh = wrap64 (shoff + i * shentsize)).
  { intros i rel sh Hi' E1 E2. apply mul_usize_Ok in E1; [|lia..].
    pose proof (wrap64_lt (i * shentsize)) as Hr. rewrite <- E1 in Hr. destruct Hr as [Hr _].
    apply add_usize_Ok in E2; [|lia..]. by rewrite E2, E1, wrap64_add_r. }
  intros E. apply rbind_Ok in E as (rel & Hrel & E). apply rbind_Ok in E as (sh & Hsh & E).
  apply (Hhead idx) in Hsh; [|done..]. pose proof (wrap64_lt (shoff + idx * shentsize)) as Rsh. rewrite <- Hsh in Rsh.
  apply rbind_Ok in E as (sh4 & Hsh4 & E). apply or_false_true in E as (ty & Hty & E).
  apply (Hread _ _ _ _ _ Hsh4) in Hty; [|done..].
  destruct (Z.eqb_spec ty SHT_SYMTAB) as [->|_]; cbn [negb] in E; [|by apply IH].
  apply rbind_Ok in E as (a1 & Ha1 & E). apply or_false_true in E as (sym_off & Hso & E).
  apply rbind_Ok in E as (a2 & Ha2 & E). apply or_false_true in E as (sym_size & Hss & E).
  apply rbind_Ok in E as (a3 & Ha3 & E). apply or_false_true in E as (entsize & Hes & E).
  apply rbind_Ok in E as (a4 & Ha4 & E). apply or_false_true in E as (str_idx & Hsi & E).
  apply (Hread _ _ _ _ _ Ha1) in Hso; [|done..]. apply (Hread _ _ _ _ _ Ha2) in Hss; [|done..].
  apply (Hread _ _ _ _ _ Ha3) in Hes; [|done..]. apply (Hread _ _ _ _ _ Ha4) in Hsi; [|done..].
  destruct (Z.ltb_spec entsize 24); [done|]. destruct (Z.leb_spec shnum str_idx); [done|]. cbn [orb] in E.
  pose proof (field_range data 4 _ _ Hd ltac:(lia) Hsi) as R2.
  pose proof (field_range data 8 _ _ Hd ltac:(lia) Hso) as R3.
  apply rbind_Ok in E as (rel' & Hrel' & E). apply rbind_Ok in E as (strh & Hstrh & E).
  apply (Hhead str_idx) in Hstrh; [|lia|done]. pose proof (wrap64_lt (shoff + str_idx * shentsize)) as Rst.
  rewrite <- Hstrh in Rst.
  apply rbind_Ok in E as (a5 & Ha5 & E). apply or_false_true in E as (str_off & Hst & E).
  apply rbind_Ok in E as (a6 & Ha6 & E). apply or_false_true in E as (str_size & Hsz & E).
  apply (Hread _ _ _ _ _ Ha5) in Hst; [|done..]. apply (Hread _ _ _ _ _ Ha6) in Hsz; [|done..].
  pose proof (field_range data 8 _ _ Hd ltac:(lia) Hst) as R4.
  pose proof (field_range data 8 _ _ Hd ltac:(lia) Hsz) as R5.
  apply rbind_Ok in E as (str_end & Hend & E). apply add_usize_Ok in Hend; [|lia..].
  apply or_false_true in E as (strtab & Hs & E). injection Hs as Hs.
  apply rbind_Ok in E as (count & Hcount & E). unfold div_usize in Hcount.
  destruct (Z.eqb_spec entsize 0); [done|]. injection Hcount as <-.
  apply scan_symbols_sound in E as [E|(j & Hj & Hc)]; [by apply IH| |lia..].
  eapply (covering_justified data offset expected shoff shentsize shnum idx sh sym_off sym_size entsize str_idx strh
    str_off str_size str_end strtab j); try done; lia.
Qed.

(** C32. A positive answer is justified by the file: one of its sections is a symbol
    table, one of the table's entries is a function that covers the offset, and its
    name in the table's string section is the expected one. *)
Theorem elf_symbol_sound data offset expected :
  Forall (fun b => 0 <= b < 256) data ->
  elf_symbol_contains (Some data) offset expected = Ok true -> justified data offset expected.
Proof.
  intros Hd. unfold elf_symbol_contains.
  destruct (_ || _) eqn:Eg; [done|]. repeat rewrite orb_false_iff in Eg. rewrite !negb_false_iff, !bool_decide_eq_true in Eg.
  destruct Eg as [[G1 G2] G3]. intros E.
  apply or_false_true in E as (shoff & H1 & E). apply or_false_true in E as (shentsize & H2 & E).
  apply or_false_true in E as (shnum & H3 & E). destruct (Z.ltb_spec shentsize 64); [done|].
  apply read_field in H1; [|done..]. apply read_field in H2; [|done..]. apply read_field in H3; [|done..].
  pose proof (field_range data 2 _ _ Hd ltac:(lia) H3) as R.
  apply (scan_sections_sound data shoff shentsize shnum offset expected (Z.to_nat shnum) 0); [done|by apply take_first_six|done..|lia|exact E].
Qed.
End Elf.

(** * No access out of bounds *)

(** It answers; in a build with overflow checks it may stop with an overflow. *)
Definition returns {A} (checks : bool) (m : result A) : Prop :=
  (exists a, m = Ok a) \/
  checks = true /\ (m = Panic "attempt to add with overflow" \/ m = Panic "attempt to multiply with overflow").

Lemma returns_Ok {A} checks (a : A) : returns checks (Ok a).
Proof. left. by eexists. Qed.
Lemma add_usize_returns checks a b : returns checks (add_usize checks a b).
Proof. unfold add_usize, returns. destruct (_ <? _); [|destruct checks]; eauto. Qed.
Lemma mul_usize_returns checks a b : returns checks (mul_usize checks a b).
Proof. unfold mul_usize, returns. destruct (_ <? _); [|destruct checks]; eauto. Qed.
Lemma div_usize_returns checks a b : b <> 0 -> returns checks (div_usize a b).
Proof. intros Hb. unfold div_usize. destruct (Z.eqb_spec b 0); [done|apply returns_Ok]. Qed.

Lemma returns_bind {A B} checks (m : result A) (k : A -> result B) :
  returns checks m -> (forall a, returns checks (k a)) -> returns checks (rbind m k).
Proof. intros [[a ->]|(Hc & [-> | ->])] Hk; [apply Hk|right; auto..]. Qed.

Lemma returns_or_false {A} checks (m : result (option A)) k :
  returns checks m -> (forall a, returns checks (k a)) -> returns checks (or_false m k).
Proof. intros Hm Hk. apply returns_bind; [done|]. intros [a|]; [apply Hk|apply returns_Ok]. Qed.

Lemma read_uint_returns checks n data off : returns checks (read_uint checks n data off).
Proof. apply returns_bind; [apply add_usize_returns|]. intros e. apply returns_Ok. Qed.

Ltac total :=
  repeat first
    [ assumption
    | apply add_usize_returns | apply mul_usize_returns | apply read_uint_returns
    | apply div_usize_returns; lia
    | apply returns_Ok
    | apply returns_or_false; [|intros ?]
    | apply returns_bind; [|intros ?]
    | match goal with
      | |- returns _ (if (?a <? ?b) || _ then _ else _) => destruct (Z.ltb_spec a b); cbn [orb]
      | |- returns _ (if ?b then _ else _) => destruct b
      end ].

Lemma scan_symbols_returns checks data strtab sym_off entsize offset expected n idx done :
  returns checks done -> returns checks (scan_symbols checks data strtab sym_off entsize offset expected n idx done).
Proof.
  intros Hd. revert idx. induction n as [|n IH]; intros idx; cbn [scan_symbols]; [done|].
  specialize (IH (idx + 1)). total.
Qed.

Lemma scan_sections_returns checks data shoff shentsize shnum offset expected n idx :
  returns checks (scan_sections checks data shoff shentsize shnum offset expected n idx).
Proof.
  revert idx. induction n as [|n IH]; intros idx; cbn [scan_sections]; [apply returns_Ok|].
  specialize (IH (idx + 1)). total. by apply scan_symbols_returns.
Qed.

(** C33. On every file, however malformed, the lookup answers: no access is out of bounds
    and no division is by 0.  The one exception is a build with overflow checks, which
    may stop with an addition or a multiplication that overflows. *)
Theorem elf_lookup_total (checks : bool) (file : option (list Z)) (offset : Z) (expected : list Z) :
  (exists answer, elf_symbol_contains checks file offset expected = Ok answer) \/
  checks = true /\
    (elf_symbol_contains checks file offset expected = Panic "attempt to add with overflow" \/
     elf_symbol_contains checks file offset expected = Panic "attempt to multiply with overflow").
Proof.
  change (returns checks (elf_symbol_contains checks file offset expected)). unfold elf_symbol_contains.
  destruct file as [data|]; [|apply returns_Ok]. destruct (_ || _); [apply returns_Ok|].
  unfold read_u64, read_u16. total. apply scan_sections_returns.
Qed.

(** A file with one function symbol, [f], at 100..110. *)
Definition zeros (n : nat) : list Z := replicate n 0.
Definition tiny_elf : list Z :=
  [0x7f; 0x45; 0x4c; 0x46; 2; 1] ++ zeros 34 ++ le_bytes 8 64 ++ zeros 10 ++ le_bytes 2 64 ++ le_bytes 2 2 ++ zeros 2 ++
  zeros 4 ++ le_bytes 4 2 ++ zeros 16 ++ le_bytes 8 192 ++ le_bytes 8 24 ++ le_bytes 4 1 ++ zeros 12 ++ le_bytes 8 24 ++
  zeros 24 ++ le_bytes 8 216 ++ le_bytes 8 3 ++ zeros 24 ++
  le_bytes 4 1 ++ [2] ++ zeros 3 ++ le_bytes 8 100 ++ le_bytes 8 10 ++
  [0; 102; 0].

Lemma elf_symbol_sound_witness :
  elf_symbol_contains true (Some tiny_elf) 105 [102] = Ok true /\ justified tiny_elf 105 [102].
Proof.
  assert (E : elf_symbol_contains true (Some tiny_elf) 105 [102] = Ok true) by (vm_compute; reflexivity).
  assert (Hb : Forall (fun b => 0 <= b < 256) tiny_elf) by (apply (bool_decide_unpack _); by vm_compute).
  split; [exact E|]. exact (elf_symbol_sound true tiny_elf 105 [102] Hb E).
Defined.
