(* ===== verification/Preload.v ===== *)
(** The LD_PRELOAD shim ([src/rsched/preload/src/lib.rs]): the interceptors of the
    pthread functions and of the sleeps, the lazy resolution of the next symbols,
    and the recognition of the sanitizer's background thread.

    The dynamic linker ([dlsym], [dladdr]), the file system and [backtrace] are
    parameters.  A forwarded call is a call to the address the linker gave. *)
From S2P Require Import Prelude Event Scheduler Machine State Runtime Sample Memory Api Elf.
Import StateOps.

(** * Sleeps *)

(** The number of yields of a sleep of [n] milliseconds. *)
Definition virtual_sleep_count (n : Z) : Z := Z.min (Z.max (sat_mul64 n 100) 1) 100000.

(** [struct timespec]; the null pointer is [None]. *)
Record timespec : Set := mkTimespec { tv_sec : Z; tv_nsec : Z }.

Definition timespec_yields (req : option timespec) : Z :=
  match req with
  | None => 1
  | Some t =>
      let sec := Z.max (tv_sec t) 0 in
      let nsec := Z.max (tv_nsec t) 0 in
      Z.max (sat_add64 (sat_mul64 sec 1000) (sat_add64 nsec 999999 / 1000000)) 1
  end.

(** What [req] points to: two 64-bit fields. *)
Definition timespec_at (req : Z) : P (option timespec) :=
  if req =? 0 then Ret None
  else
    let! sec := load 8 req in
    let! nsec := load 8 (req + 8) in
    Ret (Some (mkTimespec (as_i64 sec) (as_i64 nsec))).

(** * The sanitizer's background thread *)
Definition TSAN_BG_FIRST : Z := 1.
Definition TSAN_BG_RETURN_ADDRESS : Z := 2.
Definition TSAN_BG_START_ARG : Z := 4.

(** A [str] as its [char]s: the code points of a UTF-8 string. *)
Fixpoint code_points (bs : list Z) : list Z :=
  match bs with
  | [] => []
  | b0 :: r0 =>
      if b0 <? 0x80 then b0 :: code_points r0
      else match r0 with
      | [] => []
      | b1 :: r1 =>
          if b0 <? 0xe0 then (Z.shiftl (Z.land b0 0x1f) 6 + Z.land b1 0x3f) :: code_points r1
          else match r1 with
          | [] => []
          | b2 :: r2 =>
              if b0 <? 0xf0
              then (Z.shiftl (Z.land b0 0x0f) 12 + Z.shiftl (Z.land b1 0x3f) 6 + Z.land b2 0x3f) :: code_points r2
              else match r2 with
              | [] => []
              | b3 :: r3 =>
                  (Z.shiftl (Z.land b0 0x07) 18 + Z.shiftl (Z.land b1 0x3f) 12 +
                   Z.shiftl (Z.land b2 0x3f) 6 + Z.land b3 0x3f) :: code_points r3
              end
          end
      end
  end.
Definition bytes_of (s : string) : list Z :=
  (fun c => Z.of_N (Ascii.N_of_ascii c)) <$> String.list_ascii_of_string s.
Definition chars (s : string) : list Z := code_points (bytes_of s).

(** [char::is_whitespace]: the Unicode property White_Space. *)
Definition is_whitespace (c : Z) : bool :=
  bool_decide (c ∈ [0x20; 0x85; 0xa0; 0x1680; 0x2028; 0x2029; 0x202f; 0x205f; 0x3000]) ||
  (0x09 <=? c) && (c <=? 0x0d) || (0x2000 <=? c) && (c <=? 0x200a).

Definition is_separator (c : Z) : bool :=
  (c =? 38) || (c =? 44) || (c =? 43) || (c =? 58) || is_whitespace c.

(** [raw.split(separator)] *)
Fixpoint split_tokens (raw : list Z) : list (list Z) :=
  match raw with
  | [] => [[]]
  | c :: raw' =>
      if is_separator c then [] :: split_tokens raw'
      else match split_tokens raw' with
           | t :: ts => (c :: t) :: ts
           | [] => [[c]]
           end
  end.

Definition criterion (token : list Z) : option Z :=
  if bool_decide (token ∈ chars <$> ["first"; "first-thread"]%string) then Some TSAN_BG_FIRST
  else if bool_decide (token ∈ chars <$> ["return-address"; "return_address"; "return"; "ra"]%string)
       then Some TSAN_BG_RETURN_ADDRESS
  else if bool_decide (token ∈ chars <$> ["start-arg"; "start_arg"; "start"; "bytes"]%string)
       then Some TSAN_BG_START_ARG
  else None.

Fixpoint parse_tokens (tokens : list (list Z)) (mode : Z) : result Z :=
  match tokens with
  | [] => Ok (if mode =? 0 then TSAN_BG_FIRST else mode)
  | token :: tokens' =>
      if bool_decide (token = []) then parse_tokens tokens' mode
      else if bool_decide (token = chars "none") then
        if negb (mode =? 0)
        then Panic "rsched preload: RSCHED_TSAN_BACKGROUND_THREAD=none cannot be combined with other criteria"
        else Ok 0
      else match criterion token with
           | Some bit => parse_tokens tokens' (Z.lor mode bit)
           | None => Panic "rsched preload: unknown RSCHED_TSAN_BACKGROUND_THREAD criterion"
           end
  end.

Definition parse_tsan_background_mode (raw : string) : result Z := parse_tokens (split_tokens (chars raw)) 0.

(** The loop over the selected criteria: any, all. *)
Definition select_step (mode : Z) (acc : bool * bool) (c : Z * bool) : bool * bool :=
  if Z.land mode (fst c) =? 0 then acc else (fst acc || snd c, snd acc && snd c).
Definition selected_matches (mode : Z) (first_match return_match start_arg_match : bool) : bool * bool :=
  foldl (select_step mode) (false, true)
    [(TSAN_BG_FIRST, first_match); (TSAN_BG_RETURN_ADDRESS, return_match); (TSAN_BG_START_ARG, start_arg_match)].

Definition decide_background (mode : Z) (first_match return_match start_arg_match : bool) : result bool :=
  let (any_selected_match, all_selected_match) := selected_matches mode first_match return_match start_arg_match in
  if any_selected_match && negb all_selected_match
  then Panic "rsched preload: partial TSAN background thread match"
  else Ok all_selected_match.

(** The dynamic linker, the file system, the unwinder. *)
Record Linker : Type := mkLinker {
  (** the next definition of a symbol, 0 for none *)
  dlsym_next : string -> Z;
  (** the object that holds a code address: its file name, unless it has none or is
      not UTF-8, and its base *)
  dladdr : Z -> option (option string * Z);
  (** the content of a file *)
  read_file : string -> option (list Z);
  (** the frames of the caller, at most 12 *)
  backtrace : list (PthreadT * RealCall) -> list Z
}.

(** ** The number of yields of a sleep *)

(** A sleep of [d] nanoseconds yields 100 times per started millisecond, at least 100
    and at most 100000 times. *)
Definition sleep_budget (d : Z) : Z := Z.min 100000 (100 * Z.max 1 ((d + 999999) / 1000000)).

(** The saturating arithmetic never shows. *)
Lemma usleep_budget usec :
  in_u32 usec -> virtual_sleep_count (sat_add64 usec 999 / 1000) =
    (if usec =? 0 then 1 else sleep_budget (usec * 1000)).
Proof.
  unfold in_u32, u32_mod, sleep_budget, sat_add64. intros Hu.
  rewrite Z.min_l by (unfold U64_MAX, u64_mod; lia).
  unfold virtual_sleep_count, sat_mul64.
  replace (usec * 1000 + 999999) with ((usec + 999) * 1000 + 999) by lia.
  change 1000000 with (1000 * 1000) at 1. rewrite <- Z.div_div by lia.
  rewrite Z.div_add_l by lia. rewrite (Z.div_small 999 1000) by lia. rewrite Z.add_0_r.
  destruct (Z.eqb_spec usec 0) as [->|Hne]; [done|].
  assert (H1 : 1 <= (usec + 999) / 1000) by (apply Z.div_le_lower_bound; lia).
  assert (H2 : (usec + 999) / 1000 <= usec + 999) by (apply Z.div_le_upper_bound; lia).
  generalize dependent ((usec + 999) / 1000). intros q H1 H2. unfold U64_MAX, u64_mod. lia.
Qed.

Lemma seconds_budget secs :
  in_u32 secs -> virtual_sleep_count (sat_mul64 secs 1000) =
    (if secs =? 0 then 1 else sleep_budget (secs * 1000000000)).
Proof.
  unfold in_u32, u32_mod, sleep_budget. intros Hc. destruct (Z.eqb_spec secs 0) as [->|Hne]; [done|].
  replace (secs * 1000000000 + 999999) with (secs * 1000 * 1000000 + 999999) by lia.
  rewrite Z.div_add_l by lia. rewrite (Z.div_small 999999) by lia.
  unfold virtual_sleep_count, sat_mul64, U64_MAX, u64_mod. lia.
Qed.

(** The nanoseconds a timespec asks for; nothing, when there is none. *)
Definition nanoseconds (req : option timespec) : Z :=
  match req with
  | None => 0
  | Some t => Z.max (tv_sec t) 0 * 1000000000 + Z.max (tv_nsec t) 0
  end.

Lemma timespec_budget req : virtual_sleep_count (timespec_yields req) = sleep_budget (nanoseconds req).
Proof.
  destruct req as [[sec nsec]|]; [|done]. unfold timespec_yields, nanoseconds. cbn [tv_sec tv_nsec].
  pose proof (Z.le_max_r sec 0) as Hs. pose proof (Z.le_max_r nsec 0) as Hn.
  generalize dependent (Z.max sec 0). generalize dependent (Z.max nsec 0). clear sec nsec. intros nsec Hn sec Hs.
  unfold sleep_budget, sat_add64.
  replace (sec * 1000000000 + nsec + 999999) with (sec * 1000 * 1000000 + (nsec + 999999)) by lia.
  rewrite Z.div_add_l by lia.
  destruct (Z.le_gt_cases (nsec + 999999) U64_MAX) as [Hl|Hl].
  - rewrite (Z.min_l (nsec + 999999)) by done.
    pose proof (Z.div_pos (nsec + 999999) 1000000 ltac:(lia) ltac:(lia)) as Hq.
    generalize dependent ((nsec + 999999) / 1000000). intros q Hq.
    unfold virtual_sleep_count, sat_mul64, U64_MAX, u64_mod. lia.
  - rewrite (Z.min_r (nsec + 999999)) by lia.
    assert (H1 : 1000000 <= (nsec + 999999) / 1000000) by (apply Z.div_le_lower_bound; unfold U64_MAX, u64_mod in Hl; lia).
    generalize dependent ((nsec + 999999) / 1000000). intros q Hq.
    assert (H2 : 1000000 <= U64_MAX / 1000000) by (by vm_compute).
    generalize dependent (U64_MAX / 1000000). intros q' Hq'.
    unfold virtual_sleep_count, sat_mul64, U64_MAX, u64_mod. lia.
Qed.

(** ** The mode and the decision *)

(** Unicode white space, by ranges, and the four other separators. *)
Definition separates (c : Z) : Prop :=
  0x09 <= c <= 0x0d \/ c = 0x20 \/ c = 0x85 \/ c = 0xa0 \/ c = 0x1680 \/ 0x2000 <= c <= 0x200a \/
  0x2028 <= c <= 0x2029 \/ c = 0x202f \/ c = 0x205f \/ c = 0x3000 \/
  c = 38 \/ c = 44 \/ c = 43 \/ c = 58.

(** The words of a text: its maximal runs of characters that separate nothing. *)
Inductive words_of : list Z -> list (list Z) -> Prop :=
| words_none text : Forall separates text -> words_of text []
| words_next before word after words :
    Forall separates before -> word <> [] -> Forall (fun c => ~ separates c) word ->
    (forall c, head after = Some c -> separates c) -> words_of after words ->
    words_of (before ++ word ++ after) (word :: words).

(** The words that name a criterion, with its bit. *)
Definition criteria : list (list Z * Z) :=
  (fun p => (chars (fst p), snd p)) <$>
    [("first", 1); ("first-thread", 1);
     ("return-address", 2); ("return_address", 2); ("return", 2); ("ra", 2);
     ("start-arg", 4); ("start_arg", 4); ("start", 4); ("bytes", 4)]%string.

(** What a parse result says of the words. *)
Definition mode_of_words (words : list (list Z)) (r : result Z) : Prop :=
  match r with
  | Ok m =>
      (exists bits, Forall2 (fun w b => (w, b) ∈ criteria) words bits /\
        m = if bool_decide (words = []) then 1 else foldl Z.lor 0 bits) \/
      (exists rest, words = chars "none" :: rest /\ m = 0)
  | Panic _ =>
      exists pre bad rest, words = pre ++ bad :: rest /\ Forall (fun w => w ∈ criteria.*1) pre /\
        (bad = chars "none" /\ pre <> [] \/ bad <> chars "none" /\ bad ∉ criteria.*1)
  end.

Lemma is_separator_iff c : is_separator c = true <-> separates c.
Proof.
  unfold is_separator, is_whitespace, separates.
  rewrite !orb_true_iff, !andb_true_iff, !Z.eqb_eq, !Z.leb_le, bool_decide_eq_true, !elem_of_cons, elem_of_nil. lia.
Qed.
Lemma is_separator_false c : is_separator c = false <-> ~ separates c.
Proof. rewrite <- is_separator_iff. by destruct (is_separator c). Qed.

Lemma words_skip c text words : separates c -> words_of text words -> words_of (c :: text) words.
Proof.
  intros Hc Hw. inversion Hw as [? Ht|before word after ws Hb Hn Hf Ha Hr]; subst.
  - by apply words_none, Forall_cons.
  - apply (words_next (c :: before)); [by apply Forall_cons|done..].
Qed.

Definition nonempty (tokens : list (list Z)) : list (list Z) := filter (fun t => t <> []) tokens.

(** The first token and the rest of the text. *)
Lemma split_tokens_head text :
  exists token tokens rest, split_tokens text = token :: tokens /\ text = token ++ rest /\
    Forall (fun c => ~ separates c) token /\ (forall c, head rest = Some c -> separates c) /\
    words_of rest (nonempty tokens).
Proof.
  induction text as [|c text (token & tokens & rest & E & -> & Ht & Hr & Hw)].
  { exists [], [], []. repeat (split; [done|]). by apply words_none. }
  cbn [split_tokens]. destruct (is_separator c) eqn:Ec.
  - apply is_separator_iff in Ec. exists [], (token :: tokens), (c :: token ++ rest).
    rewrite E. repeat (split; [done|]). split; [by intros ? [= <-]|].
    apply words_skip; [done|]. unfold nonempty. rewrite filter_cons.
    destruct (decide (token <> [])) as [Hn|Hn]; [by apply (words_next [])|].
    destruct token; [done|]. by destruct Hn.
  - apply is_separator_false in Ec. exists (c :: token), tokens, rest. rewrite E.
    repeat (split; [done|]). split; [by apply Forall_cons|done].
Qed.

Lemma split_words text : words_of text (nonempty (split_tokens text)).
Proof.
  destruct (split_tokens_head text) as (token & tokens & rest & -> & -> & Ht & Hr & Hw).
  unfold nonempty. rewrite filter_cons. destruct (decide (token <> [])) as [Hn|Hn]; [by apply (words_next [])|].
  destruct token; [done|]. by destruct Hn.
Qed.

Lemma criterion_iff t b : criterion t = Some b <-> (t, b) ∈ criteria.
Proof.
  unfold criterion, criteria, TSAN_BG_FIRST, TSAN_BG_RETURN_ADDRESS, TSAN_BG_START_ARG. simpl. split.
  - repeat case_bool_decide; intros ?; simplify_eq; set_solver.
  - intros Hin. repeat (apply elem_of_cons in Hin as [[= -> ->]|Hin]; [by vm_compute|]). by apply elem_of_nil in Hin.
Qed.
Lemma criterion_None t : criterion t = None <-> t ∉ criteria.*1.
Proof.
  rewrite list_elem_of_fmap. split.
  - intros E ([t' b] & -> & Hin). simpl in E. apply criterion_iff in Hin. congruence.
  - intros H. destruct (criterion t) as [b|] eqn:E; [|done]. destruct H. exists (t, b). split; [done|].
    by apply criterion_iff.
Qed.

Lemma criterion_bits t b : criterion t = Some b -> (b = 1 \/ b = 2 \/ b = 4) /\ t <> chars "none".
Proof.
  intros Hc. split; [|intros ->; by vm_compute in Hc]. revert Hc.
  unfold criterion, TSAN_BG_FIRST, TSAN_BG_RETURN_ADDRESS, TSAN_BG_START_ARG.
  repeat case_bool_decide; intros ?; simplify_eq; tauto.
Qed.

Lemma lor_bit_pos mode b : 0 <= mode -> 0 < b -> 0 < Z.lor mode b.
Proof.
  intros Hm Hb. assert (0 <= Z.lor mode b) by (apply Z.lor_nonneg; lia).
  assert (Z.lor mode b <> 0); [|lia]. intros E. apply Z.lor_eq_0_iff in E. lia.
Qed.

Lemma named_criteria ws bits :
  Forall2 (fun w b => (w, b) ∈ criteria) ws bits -> Forall (fun w => w ∈ criteria.*1) ws.
Proof.
  induction 1 as [|w b ws bs Hw _ IH]; [constructor|]. apply Forall_cons. split; [|done].
  exact (list_elem_of_fmap_2 fst criteria (w, b) Hw).
Qed.

(** What the parser makes of the words after [pre], which named the criteria in [mode]. *)
Lemma parse_tokens_after tokens pre bits mode :
  Forall2 (fun w b => (w, b) ∈ criteria) pre bits -> mode = foldl Z.lor 0 bits ->
  0 <= mode -> (mode = 0 <-> pre = []) ->
  mode_of_words (pre ++ nonempty tokens) (parse_tokens tokens mode).
Proof.
  revert pre bits mode. induction tokens as [|token tokens IH]; intros pre bits mode Hpre Hmode Hpos Hz.
  - change (nonempty []) with (@nil (list Z)). rewrite app_nil_r. left. exists bits. split; [done|]. destruct (Z.eqb_spec mode 0).
    + by rewrite bool_decide_true by tauto.
    + by rewrite bool_decide_false by tauto.
  - cbn [parse_tokens]. unfold nonempty. rewrite filter_cons. case_bool_decide as He.
    { destruct (decide (token <> [])); [done|]. by eapply IH. }
    destruct (decide (token <> [])); [|done]. fold (nonempty tokens). case_bool_decide as Hn.
    + destruct (Z.eqb_spec mode 0) as [E0|Hne]; simpl.
      * right. exists (nonempty tokens). by rewrite (proj1 Hz E0), Hn.
      * exists pre, token, (nonempty tokens). split; [done|]. split; [|left; tauto].
        by eapply named_criteria.
    + destruct (criterion token) as [bit|] eqn:Hc.
      * destruct (criterion_bits _ _ Hc) as [Hb _].
        pose proof (lor_bit_pos mode bit Hpos ltac:(lia)) as Hp.
        change (token :: nonempty tokens) with ([token] ++ nonempty tokens). rewrite app_assoc.
        apply (IH (pre ++ [token]) (bits ++ [bit])); [|by rewrite foldl_app, Hmode|lia|].
        -- apply Forall2_app; [done|]. constructor; [by apply criterion_iff|constructor].
        -- split; [lia|]. intros E. by destruct pre.
      * exists pre, token, (nonempty tokens). split; [done|]. split; [by eapply named_criteria|].
        right. split; [done|by apply criterion_None].
Qed.

(** C36. The text is a sequence of words between separators, Unicode white space among
    them.  When every word names a criterion the mode is the union of the criteria, the
    first-thread criterion when there is no word; it is 0 when the first word is none
    (whatever follows); otherwise the parse panics, at a word that names nothing or at
    a none after a criterion. *)
Theorem background_mode_parse raw :
  exists words, words_of (chars raw) words /\ mode_of_words words (parse_tsan_background_mode raw).
Proof.
  exists (nonempty (split_tokens (chars raw))). split; [apply split_words|].
  by apply (parse_tokens_after _ [] []); [constructor|..].
Qed.

(** A no-break space separates two criteria. *)
Example no_break_space :
  parse_tsan_background_mode
    ("first" +:+ String (Ascii.ascii_of_nat 0xc2) (String (Ascii.ascii_of_nat 0xa0) "bytes")) = Ok 5.
Proof. vm_compute. reflexivity. Qed.

(** The criteria a mode selects, with their outcome. *)
Definition selected (mode : Z) (first_match return_match start_arg_match : bool) : list bool :=
  snd <$> filter (fun c => Z.land mode (fst c) <> 0)
    [(TSAN_BG_FIRST, first_match); (TSAN_BG_RETURN_ADDRESS, return_match); (TSAN_BG_START_ARG, start_arg_match)].

(** C35. With a mode of the three bits, not 0: a thread is the sanitizer's when all the
    selected criteria match, the program's when none does, and the process stops when
    they disagree. *)
Theorem background_decision mode first_match return_match start_arg_match :
  0 < mode < 8 ->
  let sel := selected mode first_match return_match start_arg_match in
  sel <> [] /\
  match decide_background mode first_match return_match start_arg_match with
  | Ok true => Forall (fun b => b = true) sel
  | Ok false => Forall (fun b => b = false) sel
  | Panic _ => true ∈ sel /\ false ∈ sel
  end.
Proof.
  intros H.
  assert (Hc : mode = 1 \/ mode = 2 \/ mode = 3 \/ mode = 4 \/ mode = 5 \/ mode = 6 \/ mode = 7) by lia.
  destruct Hc as [->|[->|[->|[->|[->|[->| ->]]]]]];
    destruct first_match, return_match, start_arg_match; vm_compute;
    (split; [done|]); first [ repeat constructor; done | split; repeat constructor ].
Qed.

Lemma background_decision_witness :
  decide_background 3 true false true = Panic "rsched preload: partial TSAN background thread match" /\
  true ∈ selected 3 true false true /\ decide_background 5 true false true = Ok true.
Proof.
  split; [by vm_compute|]. split; [|by vm_compute].
  destruct (background_decision 3 true false true) as [_ H]; [lia|]. exact (proj1 H).
Defined.

Section Preload.
Context (cfg : Cfg) (L : Libc) (env : string -> option string).
Context (code_bytes : Z -> nat -> list Z) (gate_address : Z) (D : Linker).
Context (self : PthreadT).

(** * Forwarding *)
Definition NEXT_slot (name : string) (w : World) : Z := default 0 (NEXT (statics w) !! name).

Definition load_next (name : string) : P Z :=
  Act (fun w =>
    let p := NEXT_slot name w in
    if negb (p =? 0) then Ok (p, w)
    else
      let p' := dlsym_next D name in
      if p' =? 0 then Panic "rsched preload: dlsym(RTLD_NEXT) returned null"
      else Ok (p', set_statics (mkStatics (<[name := p']> (NEXT (statics w)))
             (TSAN_PTHREAD_CREATE_COUNT (statics w)) (TSAN_BACKGROUND_MODE (statics w))) w)).

Definition forward (name : string) (args : list Z) : P Z :=
  let! f := load_next name in real_call L self (CallAt f args).

(** An interceptor: the outermost call goes to the library, a nested one to the
    next library. *)
Definition intercept (name : string) (args : list Z) (ours : P Z) : P Z :=
  let! outermost := rsched_try_enter self in
  let! r := if outermost : bool then ours else forward name args in
  rsched_exit self ;; Ret r.

(** One that always forwards, and lets the library know of a success. *)
Definition intercept_note (name : string) (args : list Z) (note : P unit) : P Z :=
  let! outermost := rsched_try_enter self in
  let! r := forward name args in
  when ((outermost : bool) && (r =? 0)) note ;;
  rsched_exit self ;; Ret r.

(** * Recognising the background thread *)
Definition tsan_background_mode : P Z :=
  let! cached := read_world (fun w => TSAN_BACKGROUND_MODE (statics w)) in
  if negb (cached =? U64_MAX) then Ret cached
  else
    Act (fun w =>
      let raw := default "first"%string (env "RSCHED_TSAN_BACKGROUND_THREAD") in
      let? mode := parse_tsan_background_mode raw in
      Ok (mode, set_statics (mkStatics (NEXT (statics w))
            (TSAN_PTHREAD_CREATE_COUNT (statics w)) mode) w)).

Definition caller_is_symbol (caller : Z) (expected : list Z) : result bool :=
  match dladdr D caller with
  | Some (Some file, base) =>
      elf_symbol_contains (overflow_checks cfg) (read_file D file) (sat_sub64 caller base) expected
  | _ => Ok false
  end.

(** [_ZN11__sanitizer21internal_start_threadEPFPvS0_ES0_] *)
Definition internal_start_thread : list Z :=
  bytes_of "_ZN11__sanitizer21internal_start_threadEPFPvS0_ES0_".

Fixpoint any_caller (callers : list Z) : result bool :=
  match callers with
  | [] => Ok false
  | c :: callers' =>
      let? m := caller_is_symbol c internal_start_thread in
      if m : bool then Ok true else any_caller callers'
  end.

Definition caller_is_tsan_internal_start_thread : P bool :=
  Act (fun w =>
    let frames := backtrace D (history w) in
    let? b := if (length frames <=? 2)%nat then Ok false else any_caller (drop 2 frames) in Ok (b, w)).

(** [fetch_add(1) + 1] *)
Definition next_ordinal : P Z :=
  Act (fun w =>
    let n := TSAN_PTHREAD_CREATE_COUNT (statics w) in
    let? ordinal := add_usize (overflow_checks cfg) n 1 in
    Ok (ordinal, set_statics (mkStatics (NEXT (statics w)) (wrap64 (n + 1))
          (TSAN_BACKGROUND_MODE (statics w))) w)).

Definition is_tsan_background_thread_create (start a : Z) : P bool :=
  let! mode := tsan_background_mode in
  if mode =? 0 then Ret false
  else
    let! ordinal := next_ordinal in
    let! return_match := caller_is_tsan_internal_start_thread in
    let start_arg_match := rsched_is_tsan_background_start code_bytes start a in
    Act (fun w => let? b := decide_background mode (ordinal =? 1) return_match start_arg_match in Ok (b, w)).

(** * Threads

    The new [pthread_t] is written through [thread]: by the next library's function,
    or by the real creation inside [rsched_pthread_create], whose result carries it. *)
Definition pthread_create (ra thread attr start a : Z) : P Z :=
  let forwarded := forward "pthread_create" [thread; attr; start; a] in
  intercept "pthread_create" [thread; attr; start; a] (
    let ours :=
      let! (r, child) := rsched_pthread_create cfg L env code_bytes gate_address self ra attr start a in
      match child with Some c => store 8 thread c | None => Ret tt end ;;
      Ret r in
    if tsan cfg then
      let! background := is_tsan_background_thread_create start a in
      if background : bool then forwarded
      else if negb (rsched_is_tsan_thread_start code_bytes start a) then forwarded
      else ours
    else ours).

Definition pthread_join (thread retval : Z) : P Z :=
  intercept "pthread_join" [thread; retval] (rsched_pthread_join cfg L env self thread).

(** Never returns. *)
Definition pthread_exit : P unit :=
  rsched_try_enter self ;; rsched_pthread_exit cfg L env self.

(** * Mutexes *)
Definition pthread_mutexattr_init (attr : Z) : P Z :=
  intercept_note "pthread_mutexattr_init" [attr] (rsched_note_pthread_mutexattr_init cfg L env self attr).
Definition pthread_mutexattr_settype (attr kind : Z) : P Z :=
  intercept_note "pthread_mutexattr_settype" [attr; kind]
    (rsched_note_pthread_mutexattr_settype cfg L env self attr kind).
Definition pthread_mutexattr_destroy (attr : Z) : P Z :=
  intercept_note "pthread_mutexattr_destroy" [attr] (rsched_note_pthread_mutexattr_destroy cfg L env self attr).
Definition pthread_mutex_init (m attr : Z) : P Z :=
  intercept_note "pthread_mutex_init" [m; attr] (rsched_note_pthread_mutex_init cfg L env self m attr).
Definition pthread_mutex_destroy (m : Z) : P Z :=
  intercept_note "pthread_mutex_destroy" [m] (rsched_note_pthread_mutex_destroy cfg L env self m).
Definition pthread_mutex_lock (ra m : Z) : P Z :=
  intercept "pthread_mutex_lock" [m] (rsched_pthread_mutex_lock cfg L env self ra m).
Definition pthread_mutex_trylock (ra m : Z) : P Z :=
  intercept "pthread_mutex_trylock" [m] (rsched_pthread_mutex_trylock cfg L env self ra m).
Definition pthread_mutex_unlock (ra m : Z) : P Z :=
  intercept "pthread_mutex_unlock" [m] (rsched_pthread_mutex_unlock cfg L env self ra m).

(** * Condition variables, barriers, yield *)
Definition pthread_cond_wait (cond mutex : Z) : P Z :=
  intercept "pthread_cond_wait" [cond; mutex] (rsched_pthread_cond_wait cfg L env self cond mutex).
Definition pthread_cond_signal (cond : Z) : P Z :=
  intercept "pthread_cond_signal" [cond] (rsched_pthread_cond_signal cfg L env self cond).
Definition pthread_cond_broadcast (cond : Z) : P Z :=
  intercept "pthread_cond_broadcast" [cond] (rsched_pthread_cond_broadcast cfg L env self cond).
Definition pthread_barrier_init (barrier attr count : Z) : P Z :=
  intercept "pthread_barrier_init" [barrier; attr; count]
    (rsched_pthread_barrier_init cfg L env self barrier attr count).
Definition pthread_barrier_wait (barrier : Z) : P Z :=
  intercept "pthread_barrier_wait" [barrier] (rsched_pthread_barrier_wait cfg L env self barrier).
Definition sched_yield (ra : Z) : P Z :=
  intercept "sched_yield" [] (rsched_sched_yield cfg L env self ra).

(** * Sleeps *)
Definition virtual_sleep_yields (ra n : Z) : P unit :=
  times (Z.to_nat (virtual_sleep_count n)) (rsched_sched_yield cfg L env self ra ;; Ret tt).

Definition nanosleep (ra req rem : Z) : P Z :=
  intercept "nanosleep" [req; rem] (
    let! t := timespec_at req in virtual_sleep_yields ra (timespec_yields t) ;; Ret 0).
Definition clock_nanosleep (ra clockid flags req rem : Z) : P Z :=
  intercept "clock_nanosleep" [clockid; flags; req; rem] (
    let! t := timespec_at req in virtual_sleep_yields ra (timespec_yields t) ;; Ret 0).
Definition usleep (ra usec : Z) : P Z :=
  intercept "usleep" [usec] (virtual_sleep_yields ra (sat_add64 usec 999 / 1000) ;; Ret 0).
Definition sleep (ra secs : Z) : P Z :=
  intercept "sleep" [secs] (virtual_sleep_yields ra (sat_mul64 secs 1000) ;; Ret 0).

(** The four sleeps on the program's side: so many yields, then 0. *)
Definition yields (ra n : Z) : P Z :=
  times (Z.to_nat n) (rsched_sched_yield cfg L env self ra ;; Ret tt) ;; Ret 0.

#[export] Instance intercept_proper name args : Proper (prog_eq ==> prog_eq) (intercept name args).
Proof.
  intros p q H. unfold intercept. f_equiv. intros outermost. f_equiv. by destruct outermost.
Qed.

(** C37. A sleep is that many yields of the scheduler and returns 0: [usleep] and [sleep]
    as many as their duration in nanoseconds asks for, once for a duration of 0;
    [nanosleep] and [clock_nanosleep] as many as the timespec in memory asks for,
    negative fields counting as 0 and the null pointer as no time, and always the
    whole duration, whatever the clock and the flags.  A nested call is forwarded. *)
Theorem sleeps_yield_their_budget ra :
  (forall usec, in_u32 usec -> usleep ra usec =
     intercept "usleep" [usec] (yields ra (if usec =? 0 then 1 else sleep_budget (usec * 1000)))) /\
  (forall secs, in_u32 secs -> sleep ra secs =
     intercept "sleep" [secs] (yields ra (if secs =? 0 then 1 else sleep_budget (secs * 1000000000)))) /\
  (forall req rem, prog_eq (nanosleep ra req rem)
     (intercept "nanosleep" [req; rem]
       (let! t := timespec_at req in yields ra (sleep_budget (nanoseconds t))))) /\
  (forall clockid flags req rem, prog_eq (clock_nanosleep ra clockid flags req rem)
     (intercept "clock_nanosleep" [clockid; flags; req; rem]
       (let! t := timespec_at req in yields ra (sleep_budget (nanoseconds t))))).
Proof.
  assert (Ht : forall req, prog_eq (let! t := timespec_at req in virtual_sleep_yields ra (timespec_yields t) ;; Ret 0)
    (let! t := timespec_at req in yields ra (sleep_budget (nanoseconds t)))).
  { intros req. f_equiv. intros t. unfold virtual_sleep_yields, yields. by rewrite timespec_budget. }
  split; [|split; [|split]].
  - intros usec Hu. unfold usleep, virtual_sleep_yields, yields. by rewrite usleep_budget.
  - intros secs Hs. unfold sleep, virtual_sleep_yields, yields. by rewrite seconds_budget.
  - intros req rem. apply intercept_proper, Ht.
  - intros clockid flags req rem. apply intercept_proper, Ht.
Qed.

(** * The interceptors as requests

    [pthread_exit] is not among them: it returns nothing. *)
Inductive Intercepted : Set :=
| ICreate (ra thread attr start a : Z)
| IJoin (thread retval : Z)
| IMutexattrInit (attr : Z)
| IMutexattrSettype (attr kind : Z)
| IMutexattrDestroy (attr : Z)
| IMutexInit (m attr : Z)
| IMutexDestroy (m : Z)
| IMutexLock (ra m : Z)
| IMutexTrylock (ra m : Z)
| IMutexUnlock (ra m : Z)
| ICondWait (cond mutex : Z)
| ICondSignal (cond : Z)
| ICondBroadcast (cond : Z)
| IBarrierInit (barrier attr count : Z)
| IBarrierWait (barrier : Z)
| IYield (ra : Z)
| INanosleep (ra req rem : Z)
| IClockNanosleep (ra clockid flags req rem : Z)
| IUsleep (ra usec : Z)
| ISleep (ra secs : Z).

Definition run_intercepted (i : Intercepted) : P Z :=
  match i with
  | ICreate ra thread attr start a => pthread_create ra thread attr start a
  | IJoin thread retval => pthread_join thread retval
  | IMutexattrInit attr => pthread_mutexattr_init attr
  | IMutexattrSettype attr kind => pthread_mutexattr_settype attr kind
  | IMutexattrDestroy attr => pthread_mutexattr_destroy attr
  | IMutexInit m attr => pthread_mutex_init m attr
  | IMutexDestroy m => pthread_mutex_destroy m
  | IMutexLock ra m => pthread_mutex_lock ra m
  | IMutexTrylock ra m => pthread_mutex_trylock ra m
  | IMutexUnlock ra m => pthread_mutex_unlock ra m
  | ICondWait cond mutex => pthread_cond_wait cond mutex
  | ICondSignal cond => pthread_cond_signal cond
  | ICondBroadcast cond => pthread_cond_broadcast cond
  | IBarrierInit barrier attr count => pthread_barrier_init barrier attr count
  | IBarrierWait barrier => pthread_barrier_wait barrier
  | IYield ra => sched_yield ra
  | INanosleep ra req rem => nanosleep ra req rem
  | IClockNanosleep ra clockid flags req rem => clock_nanosleep ra clockid flags req rem
  | IUsleep ra usec => usleep ra usec
  | ISleep ra secs => sleep ra secs
  end.

(** The C function it replaces, with its arguments. *)
Definition c_function (i : Intercepted) : string * list Z :=
  match i with
  | ICreate _ thread attr start a => ("pthread_create", [thread; attr; start; a])
  | IJoin thread retval => ("pthread_join", [thread; retval])
  | IMutexattrInit attr => ("pthread_mutexattr_init", [attr])
  | IMutexattrSettype attr kind => ("pthread_mutexattr_settype", [attr; kind])
  | IMutexattrDestroy attr => ("pthread_mutexattr_destroy", [attr])
  | IMutexInit m attr => ("pthread_mutex_init", [m; attr])
  | IMutexDestroy m => ("pthread_mutex_destroy", [m])
  | IMutexLock _ m => ("pthread_mutex_lock", [m])
  | IMutexTrylock _ m => ("pthread_mutex_trylock", [m])
  | IMutexUnlock _ m => ("pthread_mutex_unlock", [m])
  | ICondWait cond mutex => ("pthread_cond_wait", [cond; mutex])
  | ICondSignal cond => ("pthread_cond_signal", [cond])
  | ICondBroadcast cond => ("pthread_cond_broadcast", [cond])
  | IBarrierInit barrier attr count => ("pthread_barrier_init", [barrier; attr; count])
  | IBarrierWait barrier => ("pthread_barrier_wait", [barrier])
  | IYield _ => ("sched_yield", [])
  | INanosleep _ req rem => ("nanosleep", [req; rem])
  | IClockNanosleep _ clockid flags req rem => ("clock_nanosleep", [clockid; flags; req; rem])
  | IUsleep _ usec => ("usleep", [usec])
  | ISleep _ secs => ("sleep", [secs])
  end%string.

(** * Nested calls *)

(** The address a forwarded call goes to. *)
Definition next_address (name : string) (w : World) : Z :=
  let p := NEXT_slot name w in if negb (p =? 0) then p else dlsym_next D name.

(** The world once the slot is filled. *)
Definition resolved (name : string) (w : World) : World :=
  if negb (NEXT_slot name w =? 0) then w
  else set_statics (mkStatics (<[name := dlsym_next D name]> (NEXT (statics w)))
         (TSAN_PTHREAD_CREATE_COUNT (statics w)) (TSAN_BACKGROUND_MODE (statics w))) w.

(** The world after a nested call: the slot is filled, the call recorded. *)
Definition after_nested (name : string) (args : list Z) (w : World) : World :=
  let w1 := resolved name w in
  set_history ((self, CallAt (next_address name w) args) :: history w1) w1.

Lemma load_next_resolved n name w :
  next_address name w <> 0 -> eval (S n) (load_next name) w = Done (next_address name w) (resolved name w).
Proof.
  unfold next_address, load_next, resolved. simpl.
  destruct (Z.eqb_spec (NEXT_slot name w) 0); simpl; [|done].
  by destruct (Z.eqb_spec (dlsym_next D name) 0).
Qed.

Lemma eval_bind_done A B n (m : P A) (k : A -> P B) w a w' o :
  eval n m w = Done a w' -> eval n (k a) w' = o -> eval (S n) (Bind m k) w = o.
Proof. intros E. simpl. by rewrite E. Qed.

Lemma forward_eval n name args w :
  next_address name w <> 0 ->
  eval (S (S n)) (forward name args) w =
    Done (ret L (history w) self (CallAt (next_address name w) args)) (after_nested name args w).
Proof.
  intros Ha. eapply eval_bind_done; [by apply load_next_resolved|].
  unfold after_nested, resolved, real_call. by destruct (negb _).
Qed.

(** The depth comes back to what it was. *)
Lemma bump_roundtrip d : in_u32 d -> wrap32 (wrap32 (d + 1) - 1) = d.
Proof.
  intros H. unfold wrap32, in_u32 in *. rewrite Zminus_mod, Z.mod_mod by done. rewrite <- Zminus_mod.
  replace (d + 1 - 1) with d by lia. by apply Z.mod_small.
Qed.

Definition bumped (w : World) : World :=
  set_CALL_DEPTH (<[self := wrap32 (depth w self + 1)]> (CALL_DEPTH w)) w.

Lemma nested_world name args w :
  in_u32 (depth w self) ->
  exists c, (forall n, eval (S n) (rsched_exit self) (after_nested name args (bumped w))
              = Done tt (set_CALL_DEPTH c (after_nested name args w))) /\
    forall u, default 0 (c !! u) = depth w u.
Proof.
  intros Hd. eexists. split.
  - intros n. unfold rsched_exit, depth_exit, modify_world, after_nested, resolved. simpl.
    unfold bumped, NEXT_slot, depth. simpl. destruct (negb _); simpl; reflexivity.
  - intros u. rewrite lookup_insert. case_decide as Hu.
    + subst u. simpl.
      replace (CALL_DEPTH (after_nested name args (bumped w))) with (CALL_DEPTH (bumped w))
        by (unfold after_nested, resolved; by destruct (negb _)).
      simpl. rewrite lookup_insert_eq. simpl. by apply bump_roundtrip.
    + simpl. by rewrite lookup_insert_ne by done.
Qed.

Lemma nested_intercept n name args ours w c :
  depth w self <> 0 -> next_address name w <> 0 ->
  (forall n, eval (S n) (rsched_exit self) (after_nested name args (bumped w))
     = Done tt (set_CALL_DEPTH c (after_nested name args w))) ->
  eval (5 + n) (intercept name args ours) w =
    Done (ret L (history w) self (CallAt (next_address name w) args))
         (set_CALL_DEPTH c (after_nested name args w)).
Proof.
  intros Hn Ha Hc. eapply eval_bind_done.
  { unfold rsched_try_enter. cbn. rewrite (proj2 (Z.eqb_neq _ _) Hn). reflexivity. }
  eapply eval_bind_done; [by apply forward_eval|].
  eapply eval_bind_done; [apply Hc|]. reflexivity.
Qed.

Lemma nested_intercept_note n name args note w c :
  depth w self <> 0 -> next_address name w <> 0 ->
  (forall n, eval (S n) (rsched_exit self) (after_nested name args (bumped w))
     = Done tt (set_CALL_DEPTH c (after_nested name args w))) ->
  eval (6 + n) (intercept_note name args note) w =
    Done (ret L (history w) self (CallAt (next_address name w) args))
         (set_CALL_DEPTH c (after_nested name args w)).
Proof.
  intros Hn Ha Hc. eapply eval_bind_done.
  { unfold rsched_try_enter. cbn. rewrite (proj2 (Z.eqb_neq _ _) Hn). reflexivity. }
  eapply eval_bind_done; [by apply forward_eval|].
  eapply eval_bind_done; [reflexivity|].
  eapply eval_bind_done; [apply Hc|]. reflexivity.
Qed.

(** C21. Inside the library an intercepted function other than [pthread_exit] is exactly
    one call to the next library: with the same arguments and its result, whatever the
    interceptor would do outside.  The slot of the symbol is filled, the depth comes
    back to what it was, nothing else changes.  A nested [pthread_exit] is not
    forwarded: it goes to the library, with the depth one higher. *)
Theorem nested_calls_forward w :
  in_u32 (depth w self) -> depth w self <> 0 ->
  (forall i : Intercepted,
    let (name, args) := c_function i in
    next_address name w <> 0 ->
    exists c,
      eval 6 (run_intercepted i) w =
        Done (ret L (history w) self (CallAt (next_address name w) args))
             (set_CALL_DEPTH c (after_nested name args w)) /\
      forall u, default 0 (c !! u) = depth w u) /\
  (forall n, eval (2 + n) pthread_exit w = eval (1 + n) (rsched_pthread_exit cfg L env self) (bumped w)).
Proof.
  intros Hd Hn. split.
  - intros i. destruct (c_function i) as [name args] eqn:Ei. intros Ha.
    destruct (nested_world name args w Hd) as (c & Hc & Hu). exists c. split; [|done].
    destruct i; simpl in Ei; injection Ei as <- <-; cbn [run_intercepted];
      first [ by apply (nested_intercept_note 0) | by apply (nested_intercept 1) ].
  - intros n. eapply eval_bind_done; [|reflexivity]. reflexivity.
Qed.
End Preload.

(** A linker that finds every symbol, and a world inside the library. *)
Definition plain_linker : Linker :=
  mkLinker (fun name => 4096 + Z.of_nat (String.length name)) (fun _ => None) (fun _ => None) (fun _ => []).
Definition inside : World := set_CALL_DEPTH {[ 1 := 1 ]} world0.

Lemma nested_calls_forward_witness :
  exists w', eval 6 (run_intercepted plain_cfg plain_libc no_env no_code 0 plain_linker 1 (IMutexLock 7 42)) inside
      = Done 0 w' /\ history w' = [(1, CallAt 4114 [42])].
Proof.
  destruct (nested_calls_forward plain_cfg plain_libc no_env no_code 0 plain_linker 1 inside) as [H _];
    [by vm_compute|by vm_compute|].
  destruct (H (IMutexLock 7 42)) as (c & E & _); [by vm_compute|].
  eexists. split; [exact E|]. by vm_compute.
Defined.
