(* ===== verification/LlvmPass.v ===== *)
(** The LLVM pass ([src/rsched/llvm-pass/src/lib.rs]): the wrapper of the fuzz
    target, the hook before every atomic access, and the redirection of direct
    pthread calls.

    A module is its list of functions, a function its list of blocks, a block its
    list of instructions, in the order of LLVM's iterators.  A function has an
    identity besides its name, as an LLVM value has, so that a renamed function is
    still the one its uses refer to.  The pass reaches LLVM through inkwell, which
    is not code of this repository: which opcodes are call sites, the pointer cast
    and what [get_called_fn_value] does on an indirect call are parameters.  The
    callee of a call site is its last operand. *)
From S2P Require Import Prelude Event Scheduler Machine State Runtime Memory Api Atomics.

(** * Modules *)

(** The size constant of a type that is no integer and no pointer: [None] when
    LLVM gives none or does not fold it. *)
Inductive BasicType : Set :=
| IntType (bits : Z)
| PointerType
| FloatType (size : option Z)
| ArrayType (size : option Z)
| StructType (size : option Z)
| VectorType (size : option Z).

Inductive AnyType : Set :=
| BasicAny (t : BasicType)
| VoidType
| FunctionType.

Record FnType : Set := mkFnType { return_type : AnyType; param_types : list BasicType }.

Inductive Def : Set :=
| FunctionDef (id : Z)
| Param (n : Z)
| Result (id : Z)
| ConstInt (n : Z)
| OtherDef (id : Z).
Record Value : Set := mkValue { value_type : BasicType; def : Def }.

Inductive Operand : Set :=
| OpValue (v : Value)
| OpBlock (id : Z).
#[export] Instance BasicType_eq_dec : EqDecision BasicType.
Proof. solve_decision. Defined.
#[export] Instance Def_eq_dec : EqDecision Def.
Proof. solve_decision. Defined.
#[export] Instance Value_eq_dec : EqDecision Value.
Proof. solve_decision. Defined.
#[export] Instance Operand_eq_dec : EqDecision Operand.
Proof. solve_decision. Defined.

Inductive Opcode : Set :=
| OpLoad | OpStore | OpAtomicRMW | OpAtomicCmpXchg | OpCall | OpInvoke | OpCallBr | OpReturn
| OpOther (code : Z).

Inductive AtomicOrdering : Set :=
| NotAtomic | Unordered | Monotonic | Acquire | Release | AcquireRelease | SequentiallyConsistent.
#[export] Instance AtomicOrdering_eq_dec : EqDecision AtomicOrdering.
Proof. solve_decision. Defined.

(** [ordering] is the answer of [get_atomic_ordering]. *)
Record Inst : Set := mkInst {
  inst_id : Z;
  opcode : Opcode;
  ordering : option AtomicOrdering;
  operands : list Operand;
  inst_type : AnyType
}.

Record Fn : Set := mkFn {
  fn_id : Z;
  fn_name : string;
  fn_type : FnType;
  linkage : Z;
  blocks : list (list Inst)
}.

Abbreviation LModule := (list Fn) (only parsing).

Definition fn_value (id : Z) : Value := mkValue PointerType (FunctionDef id).

Definition get_function (name : string) (m : LModule) : option Fn :=
  List.find (fun f => bool_decide (fn_name f = name)) m.

(** An id no function of the module has. *)
Definition fresh_id (m : LModule) : Z := 1 + foldr Z.max 0 (fn_id <$> m).

(** [module.add_function(name, ty, None)]: a declaration, last in the module; external linkage
    is 0. *)
Definition add_function (name : string) (ty : FnType) (m : LModule) : Fn * LModule :=
  let f := mkFn (fresh_id m) name ty 0 [] in (f, m ++ [f]).

(** [get_function(name).unwrap_or_else(add_function)] *)
Definition get_or_add (name : string) (ty : FnType) (m : LModule) : Fn * LModule :=
  match get_function name m with
  | Some f => (f, m)
  | None => add_function name ty m
  end.

Definition set_name (id : Z) (name : string) (f : Fn) : Fn :=
  if fn_id f =? id then mkFn (fn_id f) name (fn_type f) (linkage f) (blocks f) else f.
Definition define (id : Z) (l : Z) (bs : list (list Inst)) (f : Fn) : Fn :=
  if fn_id f =? id then mkFn (fn_id f) (fn_name f) (fn_type f) l bs else f.

(** * The three nested loops

    [step] takes an instruction and the flag [changed]; it gives what stands in its
    place.  Instructions put before it are not visited. *)
Fixpoint visit_block (step : Inst -> bool -> result (list Inst * bool)) (b : list Inst) (changed : bool)
  : result (list Inst * bool) :=
  match b with
  | [] => Ok ([], changed)
  | i :: b' =>
      let? (ys, c1) := step i changed in
      let? (rest, c2) := visit_block step b' c1 in
      Ok (ys ++ rest, c2)
  end.

Fixpoint visit_blocks (step : Inst -> bool -> result (list Inst * bool)) (bs : list (list Inst)) (changed : bool)
  : result (list (list Inst) * bool) :=
  match bs with
  | [] => Ok ([], changed)
  | b :: bs' =>
      let? (b1, c1) := visit_block step b changed in
      let? (rest, c2) := visit_blocks step bs' c1 in
      Ok (b1 :: rest, c2)
  end.

Fixpoint visit_module (step : Inst -> bool -> result (list Inst * bool)) (m : LModule) (changed : bool)
  : result (LModule * bool) :=
  match m with
  | [] => Ok ([], changed)
  | f :: m' =>
      let? (bs, c1) := visit_blocks step (blocks f) changed in
      let? (rest, c2) := visit_module step m' c1 in
      Ok (mkFn (fn_id f) (fn_name f) (fn_type f) (linkage f) bs :: rest, c2)
  end.

(** * Sizes *)
Definition bytes_for_bits (bits : Z) : Z := (bits + 7) / 8.

Definition basic_type_size (ty : BasicType) : option Z :=
  match ty with
  | IntType bits => Some (bytes_for_bits bits)
  | PointerType => Some 8
  | FloatType size | ArrayType size | StructType size | VectorType size => size
  end.

Definition any_type_size (ty : AnyType) : option Z :=
  match ty with
  | BasicAny t => basic_type_size t
  | VoidType | FunctionType => None
  end.

(** * Atomic accesses *)
Definition value_operand (i : Inst) (n : nat) : option Value :=
  match operands i !! n with Some (OpValue v) => Some v | _ => None end.

Definition atomic_pointer_operand (i : Inst) (n : nat) : option Value :=
  match value_operand i n with
  | Some v => match value_type v with PointerType => Some v | _ => None end
  | None => None
  end.

(** Whether the ordering lets the access be looked at. *)
Definition is_atomic (i : Inst) : bool :=
  match ordering i with Some o => bool_decide (o <> NotAtomic) | None => false end.

Definition access_info (access : Z) (ptr : option Value) (size : option Z) : option (Value * Z * Z) :=
  match ptr, size with Some p, Some s => Some (p, s, access) | _, _ => None end.

Definition value_size (i : Inst) (n : nat) : option Z :=
  match value_operand i n with Some v => basic_type_size (value_type v) | None => None end.

Definition atomic_info (i : Inst) : option (Value * Z * Z) :=
  match opcode i with
  | OpLoad =>
      if is_atomic i then access_info 0 (atomic_pointer_operand i 0) (any_type_size (inst_type i)) else None
  | OpStore =>
      if is_atomic i then access_info 1 (atomic_pointer_operand i 1) (value_size i 0) else None
  | OpAtomicRMW | OpAtomicCmpXchg => access_info 2 (atomic_pointer_operand i 0) (value_size i 1)
  | _ => None
  end.

(** * The pass *)
Record RschedAtomicsPass : Set := mkPass { direct_pthread : bool }.

Definition PASS_NAME : string := "rsched-atomics".

Definition parse_pass_name (name : string) : option RschedAtomicsPass :=
  if bool_decide (name = PASS_NAME) then Some (mkPass false)
  else if bool_decide (name = "rsched-atomics<direct-pthread>"%string) then Some (mkPass true)
  else None.

(** The callback of the plugin: it parses an element of a textual pipeline and adds the
    pass to the manager, here the list of its passes. *)
Inductive PipelineParsing : Set := Parsed | NotParsed.
Definition plugin_registrar (name : string) (manager : list RschedAtomicsPass)
  : PipelineParsing * list RschedAtomicsPass :=
  match parse_pass_name name with
  | None => (NotParsed, manager)
  | Some pass => (Parsed, manager ++ [pass])
  end.

(** The plugin takes exactly its two names, and leaves the pipeline alone otherwise. *)
Lemma registrar_spec name manager :
  match plugin_registrar name manager with
  | (Parsed, manager') =>
      exists pass, manager' = manager ++ [pass] /\
        name = (if direct_pthread pass then "rsched-atomics<direct-pthread>" else PASS_NAME)%string
  | (NotParsed, manager') =>
      manager' = manager /\ name <> PASS_NAME /\ name <> "rsched-atomics<direct-pthread>"%string
  end.
Proof.
  unfold plugin_registrar, parse_pass_name. repeat case_bool_decide; [by eexists (mkPass _)..|done].
Qed.

Definition FUZZER_ENTRY : string := "LLVMFuzzerTestOneInput".
Definition wrapper_name : string := "__rsched_original_LLVMFuzzerTestOneInput".
Definition fuzzer_ty : FnType := mkFnType (BasicAny (IntType 32)) [PointerType; IntType 64].
Definition helper_ty : FnType := mkFnType (BasicAny (IntType 32)) [PointerType; IntType 64; PointerType].
Definition hook_ty : FnType := mkFnType VoidType [PointerType; IntType 64; IntType 32].

(** A call: the arguments, then the callee. *)
Definition call_inst (id : Z) (callee : Fn) (args : list Value) : Inst :=
  mkInst id OpCall None (OpValue <$> args ++ [fn_value (fn_id callee)]) (return_type (fn_type callee)).

(** The result of the helper, as [into_int_value] takes it. *)
Definition int_result (t : AnyType) (id : Z) : result Value :=
  match t with
  | BasicAny (IntType bits) => Ok (mkValue (IntType bits) (Result id))
  | BasicAny _ => Panic "into_int_value"
  | VoidType | FunctionType => Panic "rsched fuzzer helper returns int"
  end.

(** Where a builder stands: nowhere at first, then where the pass puts it. *)
Inductive Builder : Set :=
| Unpositioned
| AtEnd (fn : Z)
| BeforeInst (inst : Z).

(** [get_nth_param(n).expect(msg)] *)
Definition nth_param (f : Fn) (n : nat) (msg : string) : result Value :=
  match param_types (fn_type f) !! n with
  | Some t => Ok (mkValue t (Param (Z.of_nat n)))
  | None => Panic msg
  end.

Section Wrap.
(** inkwell: whether the [build_] methods succeed where the builder stands.  They answer
    an error on a builder that was never positioned. *)
Context (builds : Builder -> bool).

(** [builder.build_x(..).expect(msg)] *)
Definition built {A} (builder : Builder) (x : A) (msg : string) : result A :=
  if builds builder then Ok x else Panic msg.

Definition wrapper_body (wrapper original helper : Fn) : result (list Inst) :=
  let builder := AtEnd (fn_id wrapper) in
  let? data := nth_param wrapper 0 "fuzzer wrapper data parameter" in
  let? size := nth_param wrapper 1 "fuzzer wrapper size parameter" in
  let? call := built builder (call_inst 0 helper [data; size; fn_value (fn_id original)])
    "build rsched fuzzer helper call" in
  let? r := int_result (return_type (fn_type helper)) 0 in
  let? ret := built builder (mkInst 1 OpReturn None [OpValue r] VoidType) "build fuzzer wrapper return" in
  Ok [call; ret].

Definition wrap_fuzzer_entrypoint (m : LModule) : result (LModule * bool) :=
  match get_function FUZZER_ENTRY m with
  | None => Ok (m, false)
  | Some original =>
      match get_function wrapper_name m with
      | Some _ => Ok (m, false)
      | None =>
          let m1 := set_name (fn_id original) wrapper_name <$> m in
          let (helper, m2) := get_or_add "rsched_fuzzer_test_one_input" helper_ty m1 in
          let (wrapper, m3) := add_function FUZZER_ENTRY fuzzer_ty m2 in
          let? body := wrapper_body wrapper original helper in
          Ok (define (fn_id wrapper) (linkage original) [body] <$> m3, true)
      end
  end.
End Wrap.

Definition PTHREAD_REWRITES : list (string * string) :=
  [("pthread_create", "rsched_pthread_create");
   ("pthread_join", "rsched_pthread_join");
   ("pthread_exit", "rsched_pthread_exit");
   ("pthread_mutex_lock", "rsched_pthread_mutex_lock");
   ("pthread_mutex_trylock", "rsched_pthread_mutex_trylock");
   ("pthread_mutex_unlock", "rsched_pthread_mutex_unlock");
   ("pthread_cond_wait", "rsched_pthread_cond_wait");
   ("pthread_cond_signal", "rsched_pthread_cond_signal");
   ("pthread_cond_broadcast", "rsched_pthread_cond_broadcast");
   ("pthread_barrier_init", "rsched_pthread_barrier_init");
   ("pthread_barrier_wait", "rsched_pthread_barrier_wait");
   ("sched_yield", "rsched_sched_yield")]%string.

(** The last operand. *)
Definition callee_operand (i : Inst) : option Operand := last (operands i).
Definition set_callee (id : Z) (i : Inst) : Inst :=
  mkInst (inst_id i) (opcode i) (ordering i)
    (take (length (operands i) - 1) (operands i) ++ [OpValue (fn_value id)]) (inst_type i).

Section Pass.
(** inkwell: [CallSiteValue::try_from] accepts the instruction; the [build_] methods
    succeed; the instructions and the value of [build_pointer_cast] when it does; [get_called_fn_value] on a callee that is no
    function (it panics, or gives a value that is no function of the module). *)
Context (is_call_site : Opcode -> bool).
Context (builds : Builder -> bool).
Context (build_pointer_cast : Value -> list Inst * Value).
Context (indirect_callee : Inst -> result unit).

Definition get_called_fn_value (i : Inst) : result (option Z) :=
  match callee_operand i with
  | Some (OpValue (mkValue PointerType (FunctionDef f))) => Ok (Some f)
  | _ => let? _ := indirect_callee i in Ok None
  end.

Definition instrument_inst (hook : Fn) (i : Inst) (changed : bool) : result (list Inst * bool) :=
  match atomic_info i with
  | None => Ok ([i], changed)
  | Some (ptr, size, access) =>
      let builder := BeforeInst (inst_id i) in
      let? (casts, p) := built builds builder (build_pointer_cast ptr) "build pointer cast for rsched atomic hook" in
      let? call := built builds builder
        (call_inst 0 hook [p; mkValue (IntType 64) (ConstInt size); mkValue (IntType 32) (ConstInt access)])
        "build rsched atomic hook call" in
      Ok (casts ++ [call; i], true)
  end.

Definition instrument_atomics (m : LModule) : result (LModule * bool) :=
  let (hook, m1) := get_or_add "rsched_atomic_instrument" hook_ty m in
  visit_module (instrument_inst hook) m1 false.

Definition rewrite_inst (from to : Z) (i : Inst) (changed : bool) : result (list Inst * bool) :=
  if negb (is_call_site (opcode i)) then Ok ([i], changed)
  else
    let? called := get_called_fn_value i in
    if bool_decide (called = Some from) then Ok ([set_callee to i], true) else Ok ([i], changed).

Definition rewrite_function_uses (from to : Z) (m : LModule) : result (LModule * bool) :=
  visit_module (rewrite_inst from to) m false.

Definition rewrite_step (acc : LModule * bool) (pair : string * string) : result (LModule * bool) :=
  let (m, changed) := acc in
  match get_function (fst pair) m with
  | None => Ok (m, changed)
  | Some old =>
      let (new, m1) := get_or_add (snd pair) (fn_type old) m in
      let? (m2, c) := rewrite_function_uses (fn_id old) (fn_id new) m1 in
      Ok (m2, changed || c)
  end.
Definition rewrite_pthread_calls (m : LModule) : result (LModule * bool) :=
  rfold rewrite_step (m, false) PTHREAD_REWRITES.

(** [true]: nothing is reported as preserved. *)
Definition run_pass (pass : RschedAtomicsPass) (m : LModule) : result (LModule * bool) :=
  let? (m1, c1) := wrap_fuzzer_entrypoint builds m in
  let? (m2, c2) := instrument_atomics m1 in
  if direct_pthread pass then
    let? (m3, c3) := rewrite_pthread_calls m2 in Ok (m3, c1 || c2 || c3)
  else Ok (m2, c1 || c2).
End Pass.

(** * The visit of a module *)
Definition with_blocks (f : Fn) (bs : list (list Inst)) : Fn :=
  mkFn (fn_id f) (fn_name f) (fn_type f) (linkage f) bs.
Definition map_insts (g : Inst -> list Inst) (m : LModule) : LModule :=
  (fun f => with_blocks f (flat_map g <$> blocks f)) <$> m.
Definition insts (m : LModule) : list Inst := concat (concat (blocks <$> m)).

(** A step that puts [g i] in the place of [i] and raises the flag where [hit i]. *)
Definition acts_as (step : Inst -> bool -> result (list Inst * bool)) (g : Inst -> list Inst)
    (hit : Inst -> bool) : Prop :=
  forall i c r, step i c = Ok r -> r = (g i, c || hit i).

Lemma visit_block_acts step g hit b c r :
  acts_as step g hit -> visit_block step b c = Ok r -> r = (flat_map g b, c || existsb hit b).
Proof.
  intros Hs. revert c r. induction b as [|i b IH]; intros c r E; simpl in *.
  - simplify_eq. by rewrite orb_false_r.
  - apply rbind_Ok in E as ([ys c1] & E1 & E). apply rbind_Ok in E as ([rest c2] & E2 & E).
    apply Hs in E1. apply IH in E2. simplify_eq. by rewrite orb_assoc.
Qed.

Lemma visit_blocks_acts step g hit bs c r :
  acts_as step g hit -> visit_blocks step bs c = Ok r -> r = (flat_map g <$> bs, c || existsb hit (concat bs)).
Proof.
  intros Hs. revert c r. induction bs as [|b bs IH]; intros c r E; simpl in *.
  - simplify_eq. by rewrite orb_false_r.
  - apply rbind_Ok in E as ([ys c1] & E1 & E). apply rbind_Ok in E as ([rest c2] & E2 & E).
    eapply visit_block_acts in E1; [|done]. apply IH in E2. simplify_eq.
    by rewrite existsb_app, orb_assoc.
Qed.

Lemma visit_module_acts step g hit m c r :
  acts_as step g hit -> visit_module step m c = Ok r -> r = (map_insts g m, c || existsb hit (insts m)).
Proof.
  intros Hs. revert c r. induction m as [|f m IH]; intros c r E; simpl in *.
  - simplify_eq. by rewrite orb_false_r.
  - apply rbind_Ok in E as ([ys c1] & E1 & E). apply rbind_Ok in E as ([rest c2] & E2 & E).
    eapply visit_blocks_acts in E1; [|done]. apply IH in E2. simplify_eq.
    unfold insts. simpl. rewrite concat_app, existsb_app, orb_assoc. done.
Qed.

Lemma elem_of_insts i m : i ∈ insts m <-> exists f b, f ∈ m /\ b ∈ blocks f /\ i ∈ b.
Proof.
  unfold insts. rewrite list_elem_of_In, in_concat. setoid_rewrite in_concat.
  setoid_rewrite <- list_elem_of_In. setoid_rewrite list_elem_of_fmap. naive_solver.
Qed.

(** * Identities and names *)
Record wf_module (m : LModule) : Prop := mkWfModule {
  wf_names : NoDup (fn_name <$> m);
  wf_ids : NoDup (fn_id <$> m);
  (** the callee of an instruction, when it is a function, is one of the module *)
  wf_callees i f : i ∈ insts m -> callee_operand i = Some (OpValue (fn_value f)) -> f ∈ fn_id <$> m
}.

Definition function_by_id (id : Z) (m : LModule) : option Fn :=
  List.find (fun f => bool_decide (fn_id f = id)) m.

Lemma find_unique {A B} `{EqDecision B} (key : A -> B) (l : list A) x :
  NoDup (key <$> l) -> x ∈ l -> List.find (fun y => bool_decide (key y = key x)) l = Some x.
Proof.
  intros Hn Hx. induction l as [|y l IH]; [by apply elem_of_nil in Hx|]. simpl in *.
  apply NoDup_cons in Hn as [Hy Hn]. apply elem_of_cons in Hx as [->|Hx].
  - by rewrite bool_decide_true.
  - rewrite bool_decide_false; [by apply IH|]. intros E. apply Hy. rewrite E. by apply list_elem_of_fmap_2.
Qed.

Lemma get_function_Some name m f : get_function name m = Some f -> f ∈ m /\ fn_name f = name.
Proof.
  intros E. apply List.find_some in E as [Hin E]. by apply bool_decide_eq_true in E; apply list_elem_of_In in Hin.
Qed.

Lemma get_function_None name m : get_function name m = None -> name ∉ fn_name <$> m.
Proof.
  intros E Hin. apply list_elem_of_fmap in Hin as (f & -> & Hf). apply list_elem_of_In in Hf.
  eapply List.find_none in E; [|exact Hf]. simpl in E. by rewrite bool_decide_true in E.
Qed.

Lemma fresh_id_spec m : fresh_id m ∉ fn_id <$> m.
Proof.
  assert (H : forall x, x ∈ fn_id <$> m -> x < fresh_id m).
  { unfold fresh_id. induction m as [|f m IH]; intros x Hx; [by apply elem_of_nil in Hx|].
    cbn [foldr fmap list_fmap] in *. apply elem_of_cons in Hx as [->|Hx]; [lia|].
    specialize (IH x Hx). lia. }
  intros Hin. specialize (H _ Hin). lia.
Qed.

Lemma map_insts_ids g m : fn_id <$> map_insts g m = fn_id <$> m.
Proof. unfold map_insts. rewrite <- list_fmap_compose. by apply list_fmap_ext. Qed.
Lemma map_insts_names g m : fn_name <$> map_insts g m = fn_name <$> m.
Proof. unfold map_insts. rewrite <- list_fmap_compose. by apply list_fmap_ext. Qed.

Lemma function_by_id_Some m f : wf_module m -> f ∈ m -> function_by_id (fn_id f) m = Some f.
Proof. intros Hw Hf. apply find_unique; [apply Hw|done]. Qed.

(** The name of the function an instruction calls directly. *)
Definition callee_name (call_site : Opcode -> bool) (m : LModule) (i : Inst) : option string :=
  if call_site (opcode i) then
    match callee_operand i with
    | Some (OpValue (mkValue PointerType (FunctionDef f))) => fn_name <$> function_by_id f m
    | _ => None
    end
  else None.

(** Two instructions that differ at most in their last operand. *)
Definition same_but_callee (i i' : Inst) : Prop :=
  inst_id i' = inst_id i /\ opcode i' = opcode i /\ ordering i' = ordering i /\ inst_type i' = inst_type i /\
  length (operands i') = length (operands i) /\
  take (length (operands i) - 1) (operands i') = take (length (operands i) - 1) (operands i).

Lemma same_but_callee_trans i j k : same_but_callee i j -> same_but_callee j k -> same_but_callee i k.
Proof.
  intros (?&?&?&?&El&E) (?&?&?&?&El'&E'). rewrite El in *. repeat split; congruence.
Qed.

Lemma set_callee_same id i : callee_operand i <> None -> same_but_callee i (set_callee id i).
Proof.
  unfold callee_operand. intros Hc. repeat split; simpl.
  - rewrite length_app, length_take. simpl.
    destruct (operands i); [done|]. simpl. lia.
  - rewrite take_app_le; [|rewrite length_take; lia]. rewrite take_take. f_equal. lia.
Qed.

Lemma set_callee_callee id i : callee_operand (set_callee id i) = Some (OpValue (fn_value id)).
Proof. unfold callee_operand, set_callee. simpl. apply last_snoc. Qed.

Lemma function_by_id_app_l id m l :
  id ∈ fn_id <$> m -> function_by_id id (m ++ l) = function_by_id id m.
Proof.
  intros Hid. unfold function_by_id. induction m as [|f m IH]; [by apply elem_of_nil in Hid|].
  simpl in *. case_bool_decide; [done|]. apply IH. apply elem_of_cons in Hid as [?|?]; [congruence|done].
Qed.

Lemma function_by_id_map g id m :
  fn_name <$> function_by_id id (map_insts g m) = fn_name <$> function_by_id id m.
Proof.
  unfold function_by_id. induction m as [|f m IH]; [done|]. simpl. by case_bool_decide.
Qed.

Lemma insts_map g m i : i ∈ insts (map_insts (fun i => [g i]) m) <-> exists j, i = g j /\ j ∈ insts m.
Proof.
  assert (Hb : forall b, flat_map (fun i => [g i]) b = g <$> b).
  { induction b as [|x b IH]; [done|]. simpl. by rewrite IH. }
  rewrite elem_of_insts. setoid_rewrite elem_of_insts. unfold map_insts.
  setoid_rewrite list_elem_of_fmap. split.
  - intros (f & b & (f0 & -> & Hf) & Hbb & Hi). simpl in Hbb. apply list_elem_of_fmap in Hbb as (b0 & -> & Hb0).
    rewrite Hb in Hi. apply list_elem_of_fmap in Hi as (j & -> & Hj). naive_solver.
  - intros (j & -> & f & b & Hf & Hbb & Hj). exists (with_blocks f (flat_map (fun i => [g i]) <$> blocks f)), (g <$> b).
    split; [by exists f|]. simpl. rewrite <- (Hb b). split; [by apply list_elem_of_fmap_2|].
    rewrite Hb. by apply list_elem_of_fmap_2.
Qed.

Lemma insts_app m1 m2 i : i ∈ insts (m1 ++ m2) <-> i ∈ insts m1 \/ i ∈ insts m2.
Proof. rewrite !elem_of_insts. setoid_rewrite elem_of_app. naive_solver. Qed.

Lemma insts_decls decls i : Forall (fun d => blocks d = []) decls -> i ∉ insts decls.
Proof.
  rewrite Forall_forall, elem_of_insts. intros Hd (f & b & Hf & Hb & _). rewrite (Hd f Hf) in Hb.
  by apply elem_of_nil in Hb.
Qed.

Lemma map_insts_decls g decls : Forall (fun d => blocks d = []) decls -> map_insts g decls = decls.
Proof.
  induction 1 as [|d l Hd _ IH]; [done|].
  change (map_insts g (d :: l)) with (with_blocks d (flat_map g <$> blocks d) :: map_insts g l).
  rewrite IH, Hd. destruct d. simpl in *. by subst.
Qed.

Lemma map_insts_app g m1 m2 : map_insts g (m1 ++ m2) = map_insts g m1 ++ map_insts g m2.
Proof. apply fmap_app. Qed.

Lemma map_insts_compose f g m :
  map_insts (fun i => [g i]) (map_insts (fun i => [f i]) m) = map_insts (fun i => [g (f i)]) m.
Proof.
  assert (Hb : forall (h : Inst -> Inst) b, flat_map (fun i => [h i]) b = h <$> b).
  { intros h. induction b as [|x b IH]; [done|]. simpl. by rewrite IH. }
  unfold map_insts. rewrite <- list_fmap_compose. apply list_fmap_ext. intros k x _. unfold compose, with_blocks.
  simpl. f_equal. rewrite <- list_fmap_compose. apply list_fmap_ext. intros k' b _. simpl.
  by rewrite !Hb, <- list_fmap_compose.
Qed.

Lemma map_insts_map_ids g m l : fn_id <$> (map_insts g m ++ l) = (fn_id <$> m) ++ (fn_id <$> l).
Proof. by rewrite fmap_app, map_insts_ids. Qed.

Lemma map_insts_map_names g m l : fn_name <$> (map_insts g m ++ l) = (fn_name <$> m) ++ (fn_name <$> l).
Proof. by rewrite fmap_app, map_insts_names. Qed.

Lemma NoDup_snoc {A} (l : list A) x : NoDup l -> x ∉ l -> NoDup (l ++ [x]).
Proof.
  intros Hl Hx. apply NoDup_app. split; [done|]. split; [|apply NoDup_singleton].
  intros y Hy Hy'. apply list_elem_of_singleton in Hy' as ->. done.
Qed.

Lemma get_or_add_spec name ty m new m1 :
  NoDup (fn_name <$> m) -> NoDup (fn_id <$> m) -> get_or_add name ty m = (new, m1) ->
  fn_name new = name /\ exists decls, m1 = m ++ decls /\ Forall (fun d => blocks d = []) decls /\
    NoDup (fn_name <$> m1) /\ NoDup (fn_id <$> m1) /\ new ∈ m1 /\
    (new ∈ m \/ fn_type new = ty /\ decls = [new]) /\
    forall n, n <> name -> n ∉ fn_name <$> m -> n ∉ fn_name <$> m1.
Proof.
  intros Hw1 Hw2. unfold get_or_add. destruct (get_function name m) as [f|] eqn:Hf; intros E.
  - injection E as <- <-. apply get_function_Some in Hf as [Hf En]. split; [done|].
    exists []. rewrite app_nil_r. repeat (split; [done|]). split; [by left|done].
  - unfold add_function in E. injection E as <- <-. split; [done|]. apply get_function_None in Hf.
    eexists. split; [done|]. split; [by repeat constructor|]. rewrite !fmap_app. simpl.
    split; [by apply NoDup_snoc|].
    split; [apply NoDup_snoc; [done|apply fresh_id_spec]|].
    split; [apply elem_of_app; right; by apply list_elem_of_singleton|].
    split; [by right|]. intros n Hn Hnm Hin. apply elem_of_app in Hin as [?|Hin]; [done|].
    by apply list_elem_of_singleton in Hin.
Qed.

Section Rewrite.
Context (is_call_site : Opcode -> bool) (indirect_callee : Inst -> result unit).
Abbreviation rewrite_step := (rewrite_step is_call_site indirect_callee).
Abbreviation callee_name := (callee_name is_call_site).

Definition hits (from : Z) (i : Inst) : bool :=
  is_call_site (opcode i) && bool_decide (callee_operand i = Some (OpValue (fn_value from))).
Definition redirect (from to : Z) (i : Inst) : Inst :=
  if hits from i then set_callee to i else i.

Lemma rewrite_inst_acts from to :
  acts_as (rewrite_inst is_call_site indirect_callee from to) (fun i => [redirect from to i]) (hits from).
Proof.
  intros i c r. unfold rewrite_inst, redirect, hits, get_called_fn_value, fn_value.
  destruct (is_call_site (opcode i)); simpl; [|intros; simplify_eq; by rewrite orb_false_r].
  intros E. apply rbind_Ok in E as (o & Eo & E).
  assert (Ho : bool_decide (o = Some from) =
    bool_decide (callee_operand i = Some (OpValue (mkValue PointerType (FunctionDef from))))).
  { destruct (callee_operand i) as [[[[] []]|]|]; simpl in Eo;
      try (apply rbind_Ok in Eo as (u & _ & Eo)); injection Eo as <-; apply bool_decide_ext;
      split; intros H; try discriminate H; by injection H as ->. }
  rewrite Ho in E. destruct (bool_decide (callee_operand i = _)); injection E as <-;
    by rewrite ?orb_true_r, ?orb_false_r.
Qed.

(** One entry of the table. *)
Definition rename1 (pair : string * string) (s : string) : string :=
  if bool_decide (s = fst pair) then snd pair else s.

(** What one redirection makes of a module: an instruction is kept as it is, or it calls
    directly a function of [froms]. *)
Definition redirected (froms : list string) (rename : string -> string) (m m' : LModule) : Prop :=
  exists f decls, m' = map_insts (fun i => [f i]) m ++ decls /\ Forall (fun d => blocks d = []) decls /\
    forall i, i ∈ insts m -> same_but_callee i (f i) /\
      callee_name m' (f i) = rename <$> callee_name m i /\
      (f i = i \/ exists s, callee_name m i = Some s /\ s ∈ froms).

Lemma redirected_trans l1 l2 r1 r2 m1 m2 m3 :
  (forall s, r1 s ∈ l2 -> s ∈ l1 \/ s ∈ l2) ->
  redirected l1 r1 m1 m2 -> redirected l2 r2 m2 m3 -> redirected (l1 ++ l2) (fun s => r2 (r1 s)) m1 m3.
Proof.
  intros Hl (f & d & -> & Hd & Hf) (g & e & -> & He & Hg).
  exists (fun i => g (f i)), (d ++ e). split; [|split].
  - by rewrite map_insts_app, map_insts_compose, (map_insts_decls _ d), <- app_assoc by done.
  - by apply Forall_app.
  - intros i Hi. destruct (Hf i Hi) as (H1 & H2 & H5).
    destruct (Hg (f i)) as (H3 & H4 & H6); [apply insts_app; left; apply insts_map; by exists i|].
    split; [by eapply same_but_callee_trans|]. split; [rewrite H4, H2; by destruct (callee_name m1 i)|].
    setoid_rewrite elem_of_app. destruct H5 as [H5|(s & Hs & Hin)]; [|by right; exists s; auto].
    destruct H6 as [H6|(s & Hs & Hin)]; [left; congruence|]. right. rewrite H2 in Hs.
    destruct (callee_name m1 i) as [s0|]; [|done]. injection Hs as <-. exists s0. auto.
Qed.

(** The redirection of the calls of [old] to [new], which may just have been
    declared. *)
Lemma redirect_step m decls old new :
  wf_module m -> Forall (fun d => blocks d = []) decls ->
  NoDup (fn_name <$> m ++ decls) -> NoDup (fn_id <$> m ++ decls) ->
  old ∈ m -> new ∈ m ++ decls ->
  let m' := map_insts (fun i => [redirect (fn_id old) (fn_id new) i]) (m ++ decls) in
  wf_module m' /\ redirected [fn_name old] (rename1 (fn_name old, fn_name new)) m m'.
Proof.
  intros Hw Hd Hn Hi Ho Hnew. cbv zeta.
  assert (Hcase : forall i, i ∈ insts m ->
    callee_operand (redirect (fn_id old) (fn_id new) i) = callee_operand i \/
    callee_operand (redirect (fn_id old) (fn_id new) i) = Some (OpValue (fn_value (fn_id new)))).
  { intros i _. unfold redirect. destruct (hits _ i); [right; apply set_callee_callee|by left]. }
  split.
  - split; rewrite ?map_insts_names, ?map_insts_ids; [done|done|].
    intros i f Hin E. apply insts_map in Hin as (j & -> & Hj).
    apply insts_app in Hj as [Hj|Hj]; [|by apply insts_decls in Hj].
    destruct (Hcase j Hj) as [E'|E']; rewrite E' in E.
    + rewrite fmap_app. apply elem_of_app. left. by eapply wf_callees.
    + injection E as <-. by apply list_elem_of_fmap_2.
  - exists (redirect (fn_id old) (fn_id new)), decls. split; [|split; [done|]].
    { by rewrite map_insts_app, (map_insts_decls _ decls). }
    intros i Hin. unfold redirect. destruct (hits (fn_id old) i) eqn:Hh.
    + unfold hits in Hh. apply andb_true_iff in Hh as [Hc Hh]. apply bool_decide_eq_true in Hh.
      split; [apply set_callee_same; congruence|].
      unfold LlvmPass.callee_name. simpl opcode. rewrite Hc, set_callee_callee, Hh. simpl.
      rewrite function_by_id_map. unfold function_by_id.
      rewrite (find_unique fn_id (m ++ decls) new Hi Hnew).
      rewrite (find_unique fn_id m old (wf_ids _ Hw) Ho). simpl. unfold rename1. simpl.
      rewrite bool_decide_true by done. split; [done|]. right. exists (fn_name old).
      split; [done|by apply list_elem_of_singleton].
    + split; [by repeat split|]. split; [|by left]. unfold LlvmPass.callee_name.
      destruct (is_call_site (opcode i)) eqn:Hc; [|done].
      destruct (callee_operand i) as [[[[] [f| | | |]]|]|] eqn:Hco; try done.
      assert (Hf : f ∈ fn_id <$> m) by (by eapply wf_callees).
      rewrite function_by_id_map, function_by_id_app_l by done.
      destruct (function_by_id f m) as [g|] eqn:Hg; [|done]. simpl. f_equal.
      unfold rename1. simpl. rewrite bool_decide_false; [done|]. intros En.
      apply List.find_some in Hg as [Hg Eg]. apply bool_decide_eq_true in Eg. apply list_elem_of_In in Hg.
      assert (g = old).
      { pose proof (find_unique fn_name m g (wf_names _ Hw) Hg) as F1.
        pose proof (find_unique fn_name m old (wf_names _ Hw) Ho) as F2. rewrite En in F1. congruence. }
      subst g f. unfold hits in Hh. rewrite Hc, Hco in Hh. by rewrite bool_decide_true in Hh.
Qed.

Lemma redirected_id l rename m :
  (forall i s, i ∈ insts m -> callee_name m i = Some s -> rename s = s) -> redirected l rename m m.
Proof.
  intros Hr. exists id, []. split; [|split; [constructor|]].
  - rewrite app_nil_r. unfold map_insts. rewrite <- (list_fmap_id m) at 1. apply list_fmap_ext.
    intros k f _. destruct f as [a b c d bs]. unfold with_blocks, id. simpl. f_equal.
    rewrite <- (list_fmap_id bs) at 1. apply list_fmap_ext. intros k' bl _. unfold id.
    induction bl as [|x bl IH]; [done|]. simpl. by rewrite <- IH.
  - intros i Hi. split; [by repeat split|]. split; [|by left]. unfold id.
    destruct (callee_name m i) as [s|] eqn:E; [|done]. simpl. by rewrite (Hr i s Hi E).
Qed.

Lemma rewrite_step_redirected m c pair m' c' :
  wf_module m -> rewrite_step (m, c) pair = Ok (m', c') ->
  wf_module m' /\ redirected [fst pair] (rename1 pair) m m'.
Proof.
  intros Hw. unfold LlvmPass.rewrite_step.
  destruct (get_function (fst pair) m) as [old|] eqn:Hold; intros E.
  - apply get_function_Some in Hold as [Hin Hname].
    destruct (get_or_add (snd pair) (fn_type old) m) as [new m1] eqn:Hnew.
    apply rbind_Ok in E as ([m2 c2] & E & E1). injection E1 as <- <-.
    destruct (get_or_add_spec _ _ _ _ _ (wf_names _ Hw) (wf_ids _ Hw) Hnew)
      as (En & decls & -> & Hd & Hn1 & Hn2 & Hnw & _).
    unfold rewrite_function_uses in E. eapply visit_module_acts in E; [|apply rewrite_inst_acts].
    injection E as -> _. destruct pair as [from to]. simpl in *. subst from to.
    by apply redirect_step.
  - injection E as <- <-. split; [done|]. apply redirected_id. intros i s Hi Hc.
    unfold rename1. rewrite bool_decide_false; [done|]. intros ->.
    apply get_function_None in Hold. apply Hold.
    unfold LlvmPass.callee_name in Hc. destruct (is_call_site _); [|done].
    destruct (callee_operand i) as [[[[] [f| | | |]]|]|]; try done.
    destruct (function_by_id f m) as [g|] eqn:Hg; [|done]. simpl in Hc. injection Hc as <-.
    apply List.find_some in Hg as [Hg _]. apply list_elem_of_In in Hg. by apply list_elem_of_fmap_2.
Qed.

(** What a table makes of a name. *)
Definition renamed_by (table : list (string * string)) (s : string) : string :=
  match List.find (fun p => bool_decide (s = fst p)) table with
  | Some p => snd p
  | None => s
  end.

Lemma rfold_redirected table m c m' c' :
  wf_module m -> Forall (fun p => snd p ∉ table.*1) table -> rfold rewrite_step (m, c) table = Ok (m', c') ->
  wf_module m' /\ redirected table.*1 (fun s => foldl (fun s p => rename1 p s) s table) m m'.
Proof.
  revert m c. induction table as [|p table IH]; intros m c Hw Ht E; cbn [rfold] in E.
  - injection E as <- <-. split; [done|]. by apply redirected_id.
  - apply rbind_Ok in E as ([m1 c1] & E1 & E). apply rewrite_step_redirected in E1 as [Hw1 H1]; [|done].
    apply Forall_cons in Ht as [Hp Ht]. simpl in Hp.
    destruct (IH m1 c1 Hw1) as [Hw2 H2]; [eapply Forall_impl; [exact Ht|]; intros q Hq; cbn in Hq; set_solver|done|].
    split; [done|]. simpl. apply (redirected_trans [fst p] table.*1 _ _ m m1 m') with (3 := H2) (2 := H1).
    intros s. unfold rename1. case_bool_decide; [set_solver|by right].
Qed.

(** The renamings do not interfere when no new name is an old one. *)
Lemma foldl_fixed table s : s ∉ table.*1 -> foldl (fun s p => rename1 p s) s table = s.
Proof.
  induction table as [|p table IH]; intros Hs; [done|]. simpl in *. unfold rename1 at 2.
  rewrite bool_decide_false by set_solver. apply IH. set_solver.
Qed.

Lemma foldl_renamed table s :
  Forall (fun p => snd p ∉ table.*1) table -> foldl (fun s p => rename1 p s) s table = renamed_by table s.
Proof.
  unfold renamed_by. revert s. induction table as [|p table IH]; intros s Ht; [done|]. simpl.
  apply Forall_cons in Ht as [Hp Ht]. unfold rename1 at 2. case_bool_decide as Hs; simpl.
  - apply foldl_fixed. simpl in Hp. set_solver.
  - apply IH. eapply Forall_impl; [exact Ht|]. simpl. set_solver.
Qed.

Lemma rewrites_disjoint : Forall (fun p => snd p ∉ PTHREAD_REWRITES.*1) PTHREAD_REWRITES.
Proof. apply (bool_decide_unpack _). by vm_compute. Qed.

Lemma table_redirected table m c m' c' :
  wf_module m -> Forall (fun p => snd p ∉ table.*1) table -> rfold rewrite_step (m, c) table = Ok (m', c') ->
  redirected table.*1 (renamed_by table) m m'.
Proof.
  intros Hw Ht E. destruct (rfold_redirected _ _ _ _ _ Hw Ht E) as [_ (f & d & E' & Hd & Hf)].
  exists f, d. split; [done|]. split; [done|]. intros i Hi. destruct (Hf i Hi) as (H1 & H2 & H3).
  split; [done|]. split; [|done]. rewrite H2. destruct (callee_name m i); [|done]. simpl.
  by rewrite foldl_renamed.
Qed.

(** The functions whose direct calls are redirected, and their new names. *)
Definition direct_functions : list string :=
  ["pthread_create"; "pthread_join"; "pthread_exit"; "pthread_mutex_lock"; "pthread_mutex_trylock";
   "pthread_mutex_unlock"; "pthread_cond_wait"; "pthread_cond_signal"; "pthread_cond_broadcast";
   "pthread_barrier_init"; "pthread_barrier_wait"; "sched_yield"]%string.
Definition renamed (s : string) : string := "rsched_" +:+ s.

Lemma table_functions : PTHREAD_REWRITES.*1 = direct_functions.
Proof. done. Qed.
Lemma renamed_table s :
  s ∈ direct_functions -> renamed_by PTHREAD_REWRITES s = renamed s.
Proof. intros Hs. repeat (apply elem_of_cons in Hs as [->|Hs]; [done|]). by apply elem_of_nil in Hs. Qed.

(** C29. The redirection keeps every function with its name and type, and replaces every
    instruction by one: a direct call of one of the twelve functions becomes the same
    call of the function named with the prefix [rsched_]; every other instruction is
    left exactly as it is.  What is added are declarations. *)
Theorem pthread_calls_redirected m m' changed :
  wf_module m -> rewrite_pthread_calls is_call_site indirect_callee m = Ok (m', changed) ->
  exists f decls,
    m' = map_insts (fun i => [f i]) m ++ decls /\ Forall (fun d => blocks d = []) decls /\
    forall i, i ∈ insts m ->
      (exists s, callee_name m i = Some s /\ s ∈ direct_functions /\
         same_but_callee i (f i) /\ callee_name m' (f i) = Some (renamed s)) \/
      (~ (exists s, callee_name m i = Some s /\ s ∈ direct_functions) /\ f i = i).
Proof.
  intros Hw E. apply table_redirected in E as (f & d & E & Hd & Hf); [|done|apply rewrites_disjoint].
  rewrite table_functions in Hf.
  exists f, d. split; [done|]. split; [done|]. intros i Hi. destruct (Hf i Hi) as (H1 & H2 & H3).
  destruct (callee_name m i) as [s|].
  - destruct (decide (s ∈ direct_functions)) as [Hs|Hs].
    + left. exists s. split; [done|]. split; [done|]. split; [done|]. by rewrite H2, <- renamed_table.
    + right. split; [naive_solver|]. destruct H3 as [H3|(s' & [= <-] & Hin)]; [done|]. by destruct Hs.
  - right. split; [naive_solver|]. destruct H3 as [H3|(s' & ? & _)]; done.
Qed.
End Rewrite.

(** * The hook *)
Section Instrument.
Context (builds : Builder -> bool) (build_pointer_cast : Value -> list Inst * Value).

(** What stands in the place of a block. *)
Inductive hooked (hook : Fn) : list Inst -> list Inst -> Prop :=
| hooked_nil : hooked hook [] []
| hooked_plain i b b' : atomic_info i = None -> hooked hook b b' -> hooked hook (i :: b) (i :: b')
| hooked_atomic i ptr size access b b' :
    atomic_info i = Some (ptr, size, access) -> hooked hook b b' ->
    hooked hook (i :: b)
      (fst (build_pointer_cast ptr) ++
       call_inst 0 hook [snd (build_pointer_cast ptr); mkValue (IntType 64) (ConstInt size);
                         mkValue (IntType 32) (ConstInt access)] :: i :: b').

Definition hook_before (hook : Fn) (i : Inst) : list Inst :=
  match atomic_info i with
  | None => [i]
  | Some (ptr, size, access) =>
      fst (build_pointer_cast ptr) ++
      [call_inst 0 hook [snd (build_pointer_cast ptr); mkValue (IntType 64) (ConstInt size);
                         mkValue (IntType 32) (ConstInt access)]; i]
  end.
Definition is_access (i : Inst) : bool := bool_decide (is_Some (atomic_info i)).

Lemma instrument_inst_acts hook :
  acts_as (instrument_inst builds build_pointer_cast hook) (hook_before hook) is_access.
Proof.
  intros i c r. unfold instrument_inst, hook_before, is_access, built.
  destruct (atomic_info i) as [[[ptr size] access]|].
  - destruct (builds _); [|done]. simpl. destruct (build_pointer_cast ptr) as [casts p]. simpl.
    intros [= <-]. by rewrite orb_true_r.
  - intros [= <-]. by rewrite orb_false_r.
Qed.

Lemma instrument_visit hook m c :
  (forall i, builds (BeforeInst i) = true) ->
  exists r, visit_module (instrument_inst builds build_pointer_cast hook) m c = Ok r.
Proof.
  intros Hbuilds.
  assert (Hi : forall i c, exists r, instrument_inst builds build_pointer_cast hook i c = Ok r).
  { intros i c'. unfold instrument_inst, built. destruct (atomic_info i) as [[[ptr size] access]|]; [|by eexists].
    rewrite Hbuilds. simpl. destruct (build_pointer_cast ptr). by eexists. }
  assert (Hb : forall b c, exists r, visit_block (instrument_inst builds build_pointer_cast hook) b c = Ok r).
  { induction b as [|i b IH]; intros c'; [by eexists|]. simpl. destruct (Hi i c') as [[ys c1] ->]. simpl.
    destruct (IH c1) as [[rest c2] ->]. by eexists. }
  assert (Hbs : forall bs c, exists r, visit_blocks (instrument_inst builds build_pointer_cast hook) bs c = Ok r).
  { induction bs as [|b bs IH]; intros c'; [by eexists|]. simpl. destruct (Hb b c') as [[ys c1] ->]. simpl.
    destruct (IH c1) as [[rest c2] ->]. by eexists. }
  revert c. induction m as [|f m IH]; intros c; [by eexists|]. simpl.
  destruct (Hbs (blocks f) c) as [[ys c1] ->]. simpl. destruct (IH c1) as [[rest c2] ->]. by eexists.
Qed.

Lemma hook_before_hooked hook b : hooked hook b (flat_map (hook_before hook) b).
Proof.
  induction b as [|i b IH]; [constructor|]. simpl. unfold hook_before at 1.
  destruct (atomic_info i) as [[[ptr size] access]|] eqn:E.
  - rewrite <- app_assoc. simpl. by eapply hooked_atomic.
  - simpl. by apply hooked_plain.
Qed.

(** C27. When inkwell's builder builds wherever it was positioned, the instrumentation
    does not panic; it declares the hook if need be, and puts one
    call of it, with the pointer, the size and the kind of the access, right before
    every atomic access; everything else is kept, in order.  It reports a change
    exactly when there is an access. *)
Theorem accesses_are_hooked m :
  (forall b, b <> Unpositioned -> builds b = true) ->
  let (hook, m1) := get_or_add "rsched_atomic_instrument" hook_ty m in
  exists m' changed, instrument_atomics builds build_pointer_cast m = Ok (m', changed) /\
    Forall2 (fun f f' => with_blocks f (blocks f') = f' /\ Forall2 (hooked hook) (blocks f) (blocks f')) m1 m' /\
    (changed = true <-> exists i, i ∈ insts m /\ is_Some (atomic_info i)).
Proof.
  intros Hbuilds. unfold instrument_atomics. destruct (get_or_add _ _ m) as [hook m1] eqn:Hg.
  assert (Hin : forall i, i ∈ insts m1 <-> i ∈ insts m).
  { intros i. unfold get_or_add, add_function in Hg. destruct (get_function _ m).
    - by injection Hg as _ <-.
    - injection Hg as _ <-. rewrite insts_app.
      assert (Hd : i ∉ insts [mkFn (fresh_id m) "rsched_atomic_instrument" hook_ty 0 []])
        by (apply insts_decls; by repeat constructor).
      split; [intros [?|?]; [done|by destruct Hd]|by left]. }
  destruct (instrument_visit hook m1 false) as [r E]; [intros i; by apply Hbuilds|]. rewrite E.
  apply (visit_module_acts _ (hook_before hook) is_access) in E; [|apply instrument_inst_acts]. subst r.
  eexists _, _. split; [done|]. split.
  - unfold map_insts. apply Forall2_fmap_r. apply Forall_Forall2_diag. apply Forall_forall. intros f _. split; [done|]. simpl.
    apply Forall2_fmap_r, Forall_Forall2_diag, Forall_forall. intros b _. apply hook_before_hooked.
  - simpl. rewrite existsb_exists. setoid_rewrite <- list_elem_of_In. setoid_rewrite Hin.
    unfold is_access. setoid_rewrite bool_decide_eq_true. done.
Qed.
End Instrument.

(** The smallest number of bytes that holds the bits. *)
Lemma bytes_for_bits_least bits n : 0 <= bits -> bits <= 8 * n <-> bytes_for_bits bits <= n.
Proof.
  intros Hb. unfold bytes_for_bits. split; intros H.
  - apply Z.lt_succ_r, Z.div_lt_upper_bound; lia.
  - pose proof (Z.div_mod (bits + 7) 8 ltac:(lia)). pose proof (Z.mod_pos_bound (bits + 7) 8 ltac:(lia)). lia.
Qed.

(** The bytes a value takes: for an integer the fewest that hold its bits, for a pointer
    8, for another type what LLVM folds its size to. *)
Inductive sized : BasicType -> Z -> Prop :=
| sized_int bits n : 8 * (n - 1) < bits -> bits <= 8 * n -> sized (IntType bits) n
| sized_pointer : sized PointerType 8
| sized_float n : sized (FloatType (Some n)) n
| sized_array n : sized (ArrayType (Some n)) n
| sized_struct n : sized (StructType (Some n)) n
| sized_vector n : sized (VectorType (Some n)) n.

Definition atomic_orderings : list AtomicOrdering :=
  [Unordered; Monotonic; Acquire; Release; AcquireRelease; SequentiallyConsistent].

(** The instruction accesses [n] bytes at [p], in the way [k]: an atomic load has its
    pointer first and gives the loaded value, an atomic store has the value first and
    the pointer second, a read-modify-write the pointer first and a value second. *)
Inductive access (i : Inst) (p : Value) (n : Z) : AccessKind -> Prop :=
| access_load o ty rest :
    opcode i = OpLoad -> ordering i = Some o -> o ∈ atomic_orderings ->
    operands i = OpValue p :: rest -> inst_type i = BasicAny ty -> sized ty n -> access i p n Read
| access_store o v rest :
    opcode i = OpStore -> ordering i = Some o -> o ∈ atomic_orderings ->
    operands i = OpValue v :: OpValue p :: rest -> sized (value_type v) n -> access i p n Write
| access_rmw v rest :
    opcode i = OpAtomicRMW \/ opcode i = OpAtomicCmpXchg ->
    operands i = OpValue p :: OpValue v :: rest -> sized (value_type v) n -> access i p n ReadWrite.

Lemma sized_iff t n : sized t n <-> basic_type_size t = Some n.
Proof.
  split; [intros []; simpl; try done; f_equal|].
  - pose proof (bytes_for_bits_least bits n) as H1. pose proof (bytes_for_bits_least bits (n - 1)) as H2.
    unfold bytes_for_bits in *. Z.div_mod_to_equations. lia.
  - destruct t as [bits| |[]|[]|[]|[]]; simpl; intros [= <-]; constructor;
      unfold bytes_for_bits; Z.div_mod_to_equations; lia.
Qed.

Lemma atomic_iff i : is_atomic i = true <-> exists o, ordering i = Some o /\ o ∈ atomic_orderings.
Proof.
  unfold is_atomic, atomic_orderings. destruct (ordering i) as [o|]; [|by split; [|intros (?&?&?)]].
  rewrite bool_decide_eq_true. split.
  - intros Ho. exists o. split; [done|]. destruct o; set_solver.
  - intros (? & [= <-] & Ho) ->. set_solver.
Qed.

Lemma value_operand_iff i n v : value_operand i n = Some v <-> operands i !! n = Some (OpValue v).
Proof. unfold value_operand. destruct (operands i !! n) as [[]|]; naive_solver. Qed.

(** C28. The pass describes an instruction exactly when it is an atomic access through a
    pointer whose size is known: by its pointer, by its number of bytes, and by the
    number the runtime decodes to its kind. *)
Theorem accesses_are_described i p s a :
  atomic_info i = Some (p, s, a) <->
  0 <= a <= 2 /\ value_type p = PointerType /\ access i p s (access_of a).
Proof.
  assert (Hp : forall n, atomic_pointer_operand i n = Some p <->
    operands i !! n = Some (OpValue p) /\ value_type p = PointerType).
  { intros n. rewrite <- value_operand_iff. unfold atomic_pointer_operand.
    destruct (value_operand i n) as [v|]; [|by split; [|intros [? _]]].
    destruct (value_type v) eqn:E; split; try done; try (intros [[= <-] ?]; congruence).
    by intros [= <-]. }
  assert (Ha : forall k n z, access_info k (atomic_pointer_operand i n) z = Some (p, s, a) <->
    k = a /\ z = Some s /\ operands i !! n = Some (OpValue p) /\ value_type p = PointerType).
  { intros k n z. unfold access_info. destruct (atomic_pointer_operand i n) as [v|] eqn:E.
    - destruct z; rewrite <- (Hp n); naive_solver.
    - rewrite <- (Hp n). naive_solver. }
  assert (Hv : forall n, value_size i n = Some s <-> exists v, operands i !! n = Some (OpValue v) /\ sized (value_type v) s).
  { intros n. setoid_rewrite sized_iff. setoid_rewrite <- value_operand_iff. unfold value_size.
    destruct (value_operand i n); naive_solver. }
  assert (Hs : any_type_size (inst_type i) = Some s <-> exists ty, inst_type i = BasicAny ty /\ sized ty s).
  { setoid_rewrite sized_iff. destruct (inst_type i); simpl; naive_solver. }
  split.
  - unfold atomic_info. destruct (opcode i) eqn:Eo; try done.
    + destruct (is_atomic i) eqn:Ei; [|done]. apply atomic_iff in Ei as (o & Hord & Hin).
      rewrite Ha, Hs. intros (<- & (ty & Ht & Hsz) & Hop & ?). split; [lia|]. split; [done|].
      destruct (operands i) as [|x rest] eqn:El; [done|]. injection Hop as ->. by eapply access_load.
    + destruct (is_atomic i) eqn:Ei; [|done]. apply atomic_iff in Ei as (o & Hord & Hin).
      rewrite Ha, Hv. intros (<- & (v & Hov & Hsz) & Hop & ?). split; [lia|]. split; [done|].
      destruct (operands i) as [|x [|y rest]] eqn:El; try done. injection Hop as ->. injection Hov as ->.
      by eapply access_store.
    + rewrite Ha, Hv. intros (<- & (v & Hov & Hsz) & Hop & ?). split; [lia|]. split; [done|].
      destruct (operands i) as [|x [|y rest]] eqn:El; try done. injection Hop as ->. injection Hov as ->.
      eapply access_rmw; [by left|done..].
    + rewrite Ha, Hv. intros (<- & (v & Hov & Hsz) & Hop & ?). split; [lia|]. split; [done|].
      destruct (operands i) as [|x [|y rest]] eqn:El; try done. injection Hop as ->. injection Hov as ->.
      eapply access_rmw; [by right|done..].
  - intros (Hr & Ht & H). unfold access_of in H. unfold atomic_info.
    destruct (Z.eqb_spec a 0) as [->|]; [|destruct (Z.eqb_spec a 1) as [->|]]; inversion H; subst.
    + assert (Ei : is_atomic i = true) by (apply atomic_iff; by eexists).
      rewrite Ei. match goal with E : opcode i = _ |- _ => rewrite E end. rewrite Ha, Hs.
      split; [done|]. split; [by eexists|]. match goal with E : operands i = _ |- _ => by rewrite E end.
    + assert (Ei : is_atomic i = true) by (apply atomic_iff; by eexists).
      rewrite Ei. match goal with E : opcode i = _ |- _ => rewrite E end. rewrite Ha, Hv.
      match goal with E : operands i = _ |- _ => rewrite E end. split; [done|]. split; [by eexists|done].
    + assert (a = 2) by lia. subst a.
      assert (Hg : access_info 2 (atomic_pointer_operand i 0) (value_size i 1) = Some (p, s, 2)).
      { rewrite Ha, Hv. match goal with E : operands i = _ |- _ => rewrite E end. split; [done|]. split; [by eexists|done]. }
      match goal with E : opcode i = _ \/ _ |- _ => destruct E as [E|E]; by rewrite E end.
Qed.

(** * The fuzz target *)
Lemma get_function_unique m f :
  NoDup (fn_name <$> m) -> f ∈ m -> get_function (fn_name f) m = Some f.
Proof. apply find_unique. Qed.

Lemma get_function_not_in name m : name ∉ fn_name <$> m -> get_function name m = None.
Proof.
  intros Hn. unfold get_function. destruct (List.find _ m) as [f|] eqn:E; [|done].
  apply get_function_Some in E as [Hf <-]. by destruct Hn; apply list_elem_of_fmap_2.
Qed.

(** The body of the wrapper: it hands its arguments and the original target to the
    helper, and returns its result. *)
Definition wrapper_of (original helper : Fn) (body : list Inst) : Prop :=
  exists bits,
    return_type (fn_type helper) = BasicAny (IntType bits) /\
    body = [call_inst 0 helper [mkValue PointerType (Param 0); mkValue (IntType 64) (Param 1); fn_value (fn_id original)];
            mkInst 1 OpReturn None [OpValue (mkValue (IntType bits) (Result 0))] VoidType].

Definition with_name (f : Fn) (name : string) : Fn :=
  mkFn (fn_id f) name (fn_type f) (linkage f) (blocks f).

Lemma renamed_module (m : LModule) f name :
  NoDup (fn_name <$> m) -> NoDup (fn_id <$> m) -> f ∈ m -> name ∉ fn_name <$> m ->
  let m1 := set_name (fn_id f) name <$> m in
  NoDup (fn_name <$> m1) /\ NoDup (fn_id <$> m1) /\ with_name f name ∈ m1 /\ fn_name f ∉ fn_name <$> m1.
Proof.
  intros Hn Hi Hf Hname. cbv zeta.
  assert (Hid : forall g, g ∈ m -> fn_id g = fn_id f -> g = f).
  { intros g Hg E. pose proof (find_unique fn_id m g Hi Hg) as F1.
    pose proof (find_unique fn_id m f Hi Hf) as F2. rewrite E in F1. congruence. }
  assert (Hnm : forall g h, g ∈ m -> h ∈ m -> fn_name g = fn_name h -> g = h).
  { intros g h Hg Hh E. pose proof (find_unique fn_name m g Hn Hg) as F1.
    pose proof (find_unique fn_name m h Hn Hh) as F2. rewrite E in F1. congruence. }
  assert (Hset : forall g, fn_name (set_name (fn_id f) name g) = if fn_id g =? fn_id f then name else fn_name g).
  { intros g. unfold set_name. by destruct (fn_id g =? fn_id f). }
  assert (Hids : fn_id <$> (set_name (fn_id f) name <$> m) = fn_id <$> m).
  { rewrite <- list_fmap_compose. apply list_fmap_ext. intros k g _. unfold compose, set_name.
    by destruct (fn_id g =? fn_id f). }
  split; [|split; [by rewrite Hids|split]].
  - rewrite <- list_fmap_compose. apply NoDup_fmap_2_strong; [|by eapply NoDup_fmap_1].
    intros g h Hg Hh. unfold compose. rewrite !Hset.
    destruct (Z.eqb_spec (fn_id g) (fn_id f)) as [Eg|Eg], (Z.eqb_spec (fn_id h) (fn_id f)) as [Eh|Eh].
    + intros _. by rewrite (Hid g Hg Eg), (Hid h Hh Eh).
    + intros E. destruct Hname. rewrite E. by apply list_elem_of_fmap_2.
    + intros E. destruct Hname. rewrite <- E. by apply list_elem_of_fmap_2.
    + by apply Hnm.
  - apply list_elem_of_fmap. exists f. split; [|done]. unfold set_name. by rewrite Z.eqb_refl.
  - intros Hin. rewrite <- list_fmap_compose in Hin. apply list_elem_of_fmap in Hin as (g & E & Hg).
    unfold compose in E. rewrite Hset in E. destruct (Z.eqb_spec (fn_id g) (fn_id f)) as [Eg|Eg].
    + destruct Hname. rewrite <- E. by apply list_elem_of_fmap_2.
    + destruct Eg. by rewrite (Hnm f g Hf Hg E).
Qed.

Lemma define_others (m : LModule) id l bs : id ∉ fn_id <$> m -> define id l bs <$> m = m.
Proof.
  intros Hid. rewrite <- (list_fmap_id m) at 2. apply list_fmap_ext. intros k f Hf. unfold define, Datatypes.id.
  destruct (Z.eqb_spec (fn_id f) id) as [E|]; [|done]. destruct Hid. rewrite <- E.
  apply list_elem_of_fmap_2. by eapply list_elem_of_lookup_2.
Qed.

(** C30. When the pass wraps the fuzz target, the entry point of the new module is a
    function of the linkage of the old one whose only block hands its arguments and
    the old target to the helper and returns the result; the old target is kept under
    another name, with its body; and a second run wraps nothing. *)
Theorem fuzz_target_wrapped builds m m' :
  wf_module m -> wrap_fuzzer_entrypoint builds m = Ok (m', true) ->
  exists original wrapper helper body,
    get_function FUZZER_ENTRY m = Some original /\
    get_function FUZZER_ENTRY m' = Some wrapper /\
    get_function "rsched_fuzzer_test_one_input" m' = Some helper /\
    get_function wrapper_name m' = Some (with_name original wrapper_name) /\
    linkage wrapper = linkage original /\ fn_type wrapper = fuzzer_ty /\
    blocks wrapper = [body] /\ wrapper_of original helper body /\
    wrap_fuzzer_entrypoint builds m' = Ok (m', false).
Proof.
  intros Hw. unfold wrap_fuzzer_entrypoint at 1.
  destruct (get_function FUZZER_ENTRY m) as [original|] eqn:Ho; [|done].
  destruct (get_function wrapper_name m) eqn:Hn; [done|].
  apply get_function_Some in Ho as [Hin Hname]. apply get_function_None in Hn.
  destruct (renamed_module m original wrapper_name (wf_names _ Hw) (wf_ids _ Hw) Hin Hn) as (N1 & I1 & In1 & Fr1).
  destruct (get_or_add _ helper_ty _) as [helper m2] eqn:Hh.
  destruct (get_or_add_spec _ _ _ _ _ N1 I1 Hh) as (Eh & d2 & E2 & _ & N2 & I2 & In2 & _ & Fr2).
  unfold add_function. intros E. apply rbind_Ok in E as (body & Hb & E). injection E as <-.
  set (w := mkFn (fresh_id m2) FUZZER_ENTRY fuzzer_ty (linkage original) [body]).
  assert (Em : define (fresh_id m2) (linkage original) [body] <$>
            m2 ++ [mkFn (fresh_id m2) FUZZER_ENTRY fuzzer_ty 0 []] = m2 ++ [w]).
  { rewrite fmap_app, define_others by apply fresh_id_spec. simpl. unfold define. simpl. by rewrite Z.eqb_refl. }
  cbn [fn_id]. rewrite Em. rewrite Hname in Fr1.
  assert (N3 : NoDup (fn_name <$> m2 ++ [w])).
  { rewrite fmap_app. apply NoDup_snoc; [done|]. by apply Fr2. }
  assert (G : forall g, g ∈ m2 ++ [w] -> get_function (fn_name g) (m2 ++ [w]) = Some g).
  { intros g Hg. by apply get_function_unique. }
  assert (Gw : get_function FUZZER_ENTRY (m2 ++ [w]) = Some w).
  { apply (G w). apply elem_of_app. right. by apply list_elem_of_singleton. }
  assert (Go : get_function wrapper_name (m2 ++ [w]) = Some (with_name original wrapper_name)).
  { apply (G (with_name original wrapper_name)). rewrite E2, !elem_of_app. by left; left. }
  exists original, w, helper, body. repeat (split; [done|]). split; [|split; [done|split; [done|split; [done|split; [done|split]]]]].
  - rewrite <- Eh. apply G. apply elem_of_app. by left.
  - unfold wrapper_body, int_result, nth_param, built in Hb. unfold wrapper_of. simpl in Hb.
    destruct (builds _); [|done]. simpl in Hb. destruct (return_type (fn_type helper)) as [[bits| | | | |]| |]; simpl in Hb; try done.
    injection Hb as <-. by exists bits.
  - unfold wrap_fuzzer_entrypoint. by rewrite Gw, Go.
Qed.

(** * The whole pass *)

Lemma map_insts_unhit g hit m :
  (forall i, hit i = false -> g i = [i]) -> existsb hit (insts m) = false -> map_insts g m = m.
Proof.
  intros Hg He.
  assert (Hi : forall i, i ∈ insts m -> g i = [i]).
  { intros i Hi. apply Hg. destruct (hit i) eqn:E; [|done].
    assert (existsb hit (insts m) = true); [|congruence]. apply existsb_exists.
    exists i. split; [by apply list_elem_of_In|done]. }
  clear He Hg hit. rewrite <- (list_fmap_id m) at 2. apply list_fmap_ext. intros k f Hf.
  apply list_elem_of_lookup_2 in Hf. unfold with_blocks, Datatypes.id. destruct f as [a b c d bs]. simpl. f_equal.
  rewrite <- (list_fmap_id bs) at 2. apply list_fmap_ext. intros k' bl Hb. apply list_elem_of_lookup_2 in Hb.
  assert (Hbl : forall i, i ∈ bl -> g i = [i]).
  { intros i Hin. apply Hi, elem_of_insts. by exists (mkFn a b c d bs), bl. }
  clear -Hbl. unfold Datatypes.id. induction bl as [|x bl IH]; [done|]. simpl.
  rewrite Hbl by by left. simpl. f_equal. apply IH. intros i Hin. apply Hbl. by right.
Qed.

(** Only body-less functions were added. *)
Definition only_declares (m m' : LModule) : Prop :=
  exists decls, m' = m ++ decls /\ Forall (fun d => blocks d = []) decls.

Lemma only_declares_refl m : only_declares m m.
Proof. exists []. split; [by rewrite app_nil_r|constructor]. Qed.
Lemma only_declares_trans m1 m2 m3 : only_declares m1 m2 -> only_declares m2 m3 -> only_declares m1 m3.
Proof.
  intros (d & -> & Hd) (e & -> & He). exists (d ++ e). split; [by rewrite app_assoc|]. by apply Forall_app.
Qed.
Lemma only_declares_get name ty m new m1 : get_or_add name ty m = (new, m1) -> only_declares m m1.
Proof.
  unfold get_or_add, add_function. destruct (get_function name m); intros [= <- <-];
    [apply only_declares_refl|]. eexists. split; [done|]. by repeat constructor.
Qed.

Lemma rewrite_step_flag is_call_site indirect_callee m c p m' :
  rewrite_step is_call_site indirect_callee (m, c) p = Ok (m', false) -> c = false /\ only_declares m m'.
Proof.
  unfold rewrite_step. destruct (get_function (fst p) m) as [old|]; [|intros [= <- ->]; split; [done|apply only_declares_refl]].
  destruct (get_or_add _ _ m) as [new m1] eqn:Hg. intros E. apply rbind_Ok in E as ([m2 c2] & E & E1).
  injection E1 as <- Hc. apply orb_false_iff in Hc as [-> ->]. split; [done|].
  unfold rewrite_function_uses in E. eapply visit_module_acts in E; [|apply rewrite_inst_acts].
  injection E as -> Hc. apply only_declares_get in Hg.
  rewrite (map_insts_unhit _ (hits is_call_site (fn_id old))); [done| |by rewrite <- Hc].
  intros i Hi. unfold redirect. by rewrite Hi.
Qed.

Lemma rewrites_flag is_call_site indirect_callee table m c m' :
  rfold (rewrite_step is_call_site indirect_callee) (m, c) table = Ok (m', false) -> c = false /\ only_declares m m'.
Proof.
  revert m c. induction table as [|p table IH]; intros m c E; cbn [rfold] in E.
  - injection E as <- ->. split; [done|apply only_declares_refl].
  - apply rbind_Ok in E as ([m1 c1] & E1 & E). apply IH in E as [-> H2].
    apply rewrite_step_flag in E1 as [-> H1]. split; [done|]. by eapply only_declares_trans.
Qed.

(** C31. When the pass reports that everything is preserved, it has at most declared
    functions: no body, no name and no linkage changed. *)
Theorem preserved_means_declarations is_call_site builds build_pointer_cast indirect_callee pass m m' :
  run_pass is_call_site builds build_pointer_cast indirect_callee pass m = Ok (m', false) -> only_declares m m'.
Proof.
  unfold run_pass. intros E. apply rbind_Ok in E as ([m1 c1] & E1 & E).
  apply rbind_Ok in E as ([m2 c2] & E2 & E).
  assert (H : c1 = false /\ c2 = false /\ only_declares m2 m').
  { destruct (direct_pthread pass).
    - apply rbind_Ok in E as ([m3 c3] & E3 & E). injection E as <- Hc.
      apply orb_false_iff in Hc as [Hc ->]. apply orb_false_iff in Hc as [-> ->].
      apply rewrites_flag in E3 as [_ H3]. done.
    - injection E as <- Hc. apply orb_false_iff in Hc as [-> ->]. repeat (split; [done|]). apply only_declares_refl. }
  destruct H as (-> & -> & H). clear E.
  assert (m1 = m).
  { unfold wrap_fuzzer_entrypoint in E1. repeat case_match; simplify_eq; try done.
    apply rbind_Ok in E1 as (b & _ & E1). done. }
  subst m1. eapply only_declares_trans, H. unfold instrument_atomics in E2.
  destruct (get_or_add _ _ m) as [hook mh] eqn:Hg. apply only_declares_get in Hg.
  eapply visit_module_acts in E2; [|apply instrument_inst_acts]. injection E2 as -> Hc.
  rewrite (map_insts_unhit _ is_access); [done| |by rewrite <- Hc].
  intros i Hi. unfold hook_before, is_access in *. apply bool_decide_eq_false in Hi.
  destruct (atomic_info i); [|done]. by destruct Hi.
Qed.

(** * A small module

    Two functions: the fuzz target, which loads an [_Atomic int] and locks a mutex, and
    the declaration of [pthread_mutex_lock]. *)
Definition call_opcodes (o : Opcode) : bool :=
  match o with OpCall | OpInvoke | OpCallBr => true | _ => false end.
(** A builder that builds wherever it was positioned. *)
Definition positioned (b : Builder) : bool := match b with Unpositioned => false | _ => true end.
Definition no_cast (v : Value) : list Inst * Value := ([], v).
Definition indirect_panics (_ : Inst) : result unit := Panic "not a function".

Definition lock_decl : Fn := mkFn 2 "pthread_mutex_lock" (mkFnType (BasicAny (IntType 32)) [PointerType]) 0 [].
Definition small_target : Fn :=
  mkFn 1 FUZZER_ENTRY fuzzer_ty 0
    [[mkInst 1 OpLoad (Some SequentiallyConsistent) [OpValue (mkValue PointerType (Param 0))] (BasicAny (IntType 32));
      call_inst 2 lock_decl [mkValue PointerType (OtherDef 7)];
      mkInst 3 OpReturn None [OpValue (mkValue (IntType 32) (Result 1))] VoidType]].
Definition small_module : LModule := [small_target; lock_decl].

Lemma small_module_wf : wf_module small_module.
Proof.
  split; [apply (bool_decide_unpack _); by vm_compute|apply (bool_decide_unpack _); by vm_compute|].
  intros i f Hi E. unfold small_module, insts in Hi. simpl in Hi.
  repeat (apply elem_of_cons in Hi as [->|Hi]; [vm_compute in E; try discriminate E|]);
    [|by apply elem_of_nil in Hi].
  injection E as <-. apply (bool_decide_unpack _). by vm_compute.
Qed.

(** The locks of the small module. *)
Definition locks_in (m : LModule) : list string := omap (callee_name call_opcodes m) (insts m).

Lemma pthread_calls_redirected_witness :
  exists m' changed, rewrite_pthread_calls call_opcodes indirect_panics small_module = Ok (m', changed) /\
    locks_in m' = ["rsched_pthread_mutex_lock"%string] /\
    exists f decls, m' = map_insts (fun i => [f i]) small_module ++ decls.
Proof.
  eexists _, _.
  assert (E : rewrite_pthread_calls call_opcodes indirect_panics small_module = Ok (_, _)) by (vm_compute; reflexivity).
  split; [exact E|]. split; [vm_compute; reflexivity|].
  destruct (pthread_calls_redirected call_opcodes indirect_panics small_module _ _ small_module_wf E) as (f & d & H & _).
  exists f, d. exact H.
Defined.

Lemma accesses_are_hooked_witness :
  exists m', instrument_atomics positioned no_cast small_module = Ok (m', true) /\
    length (insts m') = 4%nat /\
    exists m'' changed, instrument_atomics positioned no_cast small_module = Ok (m'', changed).
Proof.
  eexists. split; [vm_compute; reflexivity|]. split; [vm_compute; reflexivity|].
  pose proof (accesses_are_hooked positioned no_cast small_module) as H.
  destruct (get_or_add _ _ small_module) as [hook m1].
  destruct H as (m' & c & E & _); [by intros []|]. exists m', c. exact E.
Defined.

Lemma fuzz_target_wrapped_witness :
  exists m' wrapper, wrap_fuzzer_entrypoint positioned small_module = Ok (m', true) /\
    get_function FUZZER_ENTRY m' = Some wrapper /\ wrap_fuzzer_entrypoint positioned m' = Ok (m', false).
Proof.
  eexists. assert (E : wrap_fuzzer_entrypoint positioned small_module = Ok (_, true)) by (vm_compute; reflexivity).
  destruct (fuzz_target_wrapped positioned small_module _ small_module_wf E) as (o & w & h & b & _ & H1 & _ & _ & _ & _ & _ & _ & H2).
  exists w. split; [exact E|]. split; [exact H1|exact H2].
Defined.

Lemma preserved_means_declarations_witness :
  exists m', run_pass call_opcodes positioned no_cast indirect_panics (mkPass true) [lock_decl] = Ok (m', false) /\
    only_declares [lock_decl] m' /\ length m' = 3%nat.
Proof.
  eexists. assert (E : run_pass call_opcodes positioned no_cast indirect_panics (mkPass true) [lock_decl] = Ok (_, false))
    by (vm_compute; reflexivity).
  split; [exact E|]. split; [|reflexivity].
  exact (preserved_means_declarations call_opcodes positioned no_cast indirect_panics (mkPass true) [lock_decl] _ E).
Defined.
