(* ===== verification/Discipline.v ===== *)
(** The hand-over discipline, thread by thread.

    One triple per function of Runtime.v and Api.v, for a build without the
    thread-sanitizer feature.  While a thread runs library code it is the only one
    that may be awake; it gives the processor away only after it has woken at most
    one other thread, it never holds the global mutex while it is blocked, and it
    comes back with its call depth as it was.  System.v turns these triples into an
    invariant of the whole process. *)
From S2P Require Import Prelude Event Scheduler Machine State Runtime Memory Api Atomics.
Import StateOps.

(** * Assertions *)
Section Assertions.
Implicit Types w : World.

(** The thread is marked as asleep in the library. *)
Definition flagged w (u : PthreadT) : Prop :=
  match STATE w with Some s => flag_of s u = true | None => False end.

(** A [suspend_cond] is waited on by its own thread only. *)
Definition parked_ok w : Prop := forall u c, parked w !! u = Some (SuspendCond c) -> c = u.

(** Every marked thread, those of [ex] aside, really sleeps on its condition. *)
Definition flags_ok (ex : PthreadT -> Prop) w : Prop :=
  forall u, flagged w u -> ex u \/ parked w !! u = Some (SuspendCond u).

Definition spawned_in w (u : PthreadT) : Prop := exists sa, (u, sa) ∈ spawned w.

Definition nobody : PthreadT -> Prop := fun _ => False.

(** What a segment of [self] that began in [w0] leaves alone. *)
Record frame (self : PthreadT) w0 w : Prop := mkFrame {
  frame_tls u : u <> self ->
    MY_PT w !! u = MY_PT w0 !! u /\ CALL_DEPTH w !! u = CALL_DEPTH w0 !! u;
  frame_flag u : u <> self -> ~ spawned_in w u -> flagged w0 u -> flagged w u;
  frame_parked u : u <> self -> parked w !! u = parked w0 !! u \/ parked w !! u = None;
  frame_spawned u : spawned_in w0 u -> spawned_in w u;
  frame_unflag u : u <> self -> flagged w u -> flagged w0 u
}.

(** The assertion every triple uses: who holds the global mutex, whether [self]
    is parked, which other marked thread may be awake, the call depth. *)
Record mon (self : PthreadT) (g : option PthreadT) (pk : option CondId)
    (ex : PthreadT -> Prop) (d : Z) w0 w : Prop := mkMon {
  mon_gmtx : GMTX w = g;
  mon_self : parked w !! self = pk;
  mon_flags : flags_ok ex w;
  mon_parked : parked_ok w;
  mon_depth : depth w self = d;
  mon_my : MY_PT w !! self = Some self;
  mon_inited : INITED w = true;
  mon_frame : frame self w0 w
}.

Definition held self d := mon self (Some self) None nobody d.
Definition free self d := mon self None None nobody d.

(** The guarantee given at a suspension. *)
Definition Guar (self : PthreadT) (b : Blocker) w0 w : Prop :=
  exists d,
    match b with
    | OnGmtx | OnJoin _ => free self d w0 w
    | OnCond (ReadyCond sa) => mon self None (Some (ReadyCond sa)) nobody d w0 w
    | OnCond (SuspendCond c) =>
        c = self /\ flagged w self /\
        exists next, mon self None (Some (SuspendCond self)) (eq next) d w0 w
    end.

(** The state in which it resumes. *)
Definition Rely (self : PthreadT) (b : Blocker) w w' : Prop :=
  mon self None None
    (match b with OnCond (SuspendCond _) => eq self | _ => nobody end) (depth w self) w' w'.

Lemma frame_refl self w : frame self w w.
Proof. split; auto. Qed.

Lemma mon_restart self g pk ex d w0 w : mon self g pk ex d w0 w -> mon self g pk ex d w w.
Proof. intros []. split; auto using frame_refl. Qed.

Lemma mon_flags_weaken self g pk (ex ex' : PthreadT -> Prop) d w0 w :
  (forall u, ex u -> ex' u) -> mon self g pk ex d w0 w -> mon self g pk ex' d w0 w.
Proof.
  intros Hex []. split; auto. intros u Hu.
  destruct (mon_flags0 u Hu); [left; auto|by right].
Qed.
End Assertions.

Abbreviation T self P p Q := (triple (Guar self) (Rely self) (fun _ => True) P p Q).

Create HintDb triples.

(** Go through a sequence: bind, use a known triple for its head, introduce. *)
Ltac step_triple := eapply triple_bind; [eauto with triples|intros ?].
Ltac split_triple :=
  repeat match goal with
  | |- triple _ _ _ _ (if ?b then _ else _) _ => destruct b
  | |- triple _ _ _ _ (match ?o with Some _ => _ | None => _ end) _ => destruct o
  | |- triple _ _ _ _ (when ?b _) _ => unfold when; destruct b
  | |- triple _ _ _ _ (let (_, _) := ?x in _) _ => destruct x
  end.

Section Runtime.
Context (cfg : Cfg) (L : Libc) (env : string -> option string).
Context (self : PthreadT).
Hypothesis no_tsan : tsan cfg = false.

(** * Primitive steps *)

Lemma wrap32_depth d : in_u32 d -> wrap32 (wrap32 (d + 1) - 1) = d.
Proof.
  intros H. unfold wrap32. rewrite Zminus_mod_idemp_l.
  replace (d + 1 - 1) with d by lia. by apply Z.mod_small.
Qed.

Lemma triple_ret_any A (a : A) P : T self P (Ret a) (fun _ => P).
Proof. by intros w0 w H. Qed.

Lemma triple_pure A (C : Prop) (Pre : World -> World -> Prop) (p : P A) Q :
  (C -> T self Pre p Q) -> T self (fun w0 w => C /\ Pre w0 w) p Q.
Proof. intros H w0 w [HC HP]. by apply (H HC). Qed.

Lemma triple_ex A X (Pre : X -> World -> World -> Prop) (p : P A) Q :
  (forall x, T self (Pre x) p Q) -> T self (fun w0 w => exists x, Pre x w0 w) p Q.
Proof. intros H w0 w [x HP]. by apply (H x). Qed.

Lemma triple_read_state A (f : State BoxScheduler -> result A) P :
  T self P (read_state f) (fun _ => P).
Proof.
  apply triple_act; [done|]. intros w0 w a w' HP E. apply rbind_Ok in E as (s & _ & E).
  apply rbind_Ok in E as (x & _ & E). by simplify_eq.
Qed.

Lemma triple_read_world A (f : World -> A) P : T self P (read_world f) (fun _ => P).
Proof. apply triple_act; [done|]. intros w0 w a w' HP E. by simplify_eq. Qed.

Lemma triple_read_box A sa (f : StartArg -> A) P : T self P (read_box sa f) (fun _ => P).
Proof.
  apply triple_act; [done|]. intros w0 w a w' HP E. apply rbind_Ok in E as (b & _ & E).
  by simplify_eq.
Qed.

Lemma triple_my_pt g pk ex d :
  T self (mon self g pk ex d) (my_pt self) (fun c w0 w => c = self /\ mon self g pk ex d w0 w).
Proof.
  apply triple_act; [done|]. intros w0 w a w' HP E. simplify_eq. split; [|done].
  by rewrite (mon_my _ _ _ _ _ _ _ HP).
Qed.

(** A step that writes nothing the discipline speaks of. *)
Lemma mon_same g pk ex d w0 w w' :
  GMTX w' = GMTX w -> parked w' = parked w -> CALL_DEPTH w' = CALL_DEPTH w ->
  MY_PT w' = MY_PT w -> spawned w' = spawned w -> INITED w' = INITED w ->
  (forall u, flagged w' u <-> flagged w u) ->
  mon self g pk ex d w0 w -> mon self g pk ex d w0 w'.
Proof.
  intros Eg Ep Ed Em Es Ei Ef [H1 H2 H3 H4 H5 H6 Hin [F1 F2 F3 F4 F5]].
  assert (Hs : forall u, spawned_in w' u <-> spawned_in w u) by (intros u; unfold spawned_in; by rewrite Es).
  split; try congruence.
  - intros u Hu. rewrite Ep. apply H3. by apply Ef.
  - intros u c. rewrite Ep. apply H4.
  - unfold depth in *. by rewrite Ed.
  - split; intros u; rewrite ?Hs, ?Em, ?Ed, ?Ep, ?Ef; auto.
Qed.

Lemma triple_quiet A (f : State BoxScheduler -> result (A * State BoxScheduler)) g pk ex d :
  (forall s a s', f s = Ok (a, s') -> quiet s s') ->
  T self (mon self g pk ex d) (with_state f) (fun _ => mon self g pk ex d).
Proof.
  intros Hq. apply triple_act; [done|]. intros w0 w a w' HP E.
  apply rbind_Ok in E as (s & Hs & E). apply expect_Ok in Hs.
  apply rbind_Ok in E as ([x s'] & Hf & E). simplify_eq.
  eapply mon_same, HP; try done. intros u. unfold flagged. simpl. rewrite Hs.
  by rewrite (Hq _ _ _ Hf u).
Qed.

Lemma triple_update f g pk ex d :
  (forall s s', f s = Ok s' -> quiet s s') ->
  T self (mon self g pk ex d) (update_state f) (fun _ => mon self g pk ex d).
Proof.
  intros Hq. apply triple_quiet. intros s [] s' E. apply rbind_Ok in E as (s1 & Hf & E).
  simplify_eq. eauto.
Qed.

Lemma triple_real_call c g pk ex d :
  T self (mon self g pk ex d) (real_call L self c) (fun _ => mon self g pk ex d).
Proof.
  apply triple_act; [done|]. intros w0 w a w' HP E. simplify_eq. by eapply mon_same, HP.
Qed.

Lemma triple_box_new b g pk ex d :
  T self (mon self g pk ex d) (box_new b) (fun _ => mon self g pk ex d).
Proof. apply triple_act; [done|]. intros w0 w a w' HP E. simplify_eq. by eapply mon_same, HP. Qed.

Lemma triple_box_free sa g pk ex d :
  T self (mon self g pk ex d) (box_free sa) (fun _ => mon self g pk ex d).
Proof.
  apply triple_act; [done|]. intros w0 w a w' HP E. apply rbind_Ok in E as (b & _ & E).
  simplify_eq. by eapply mon_same, HP.
Qed.

Lemma triple_tsan_call c P : T self P (tsan_call cfg L self c) (fun _ => P).
Proof. unfold tsan_call. rewrite no_tsan. apply triple_ret_any. Qed.

(** * Depth *)
Lemma frame_own_tls w0 w w' :
  (forall u, u <> self -> MY_PT w' !! u = MY_PT w !! u) ->
  (forall u, u <> self -> CALL_DEPTH w' !! u = CALL_DEPTH w !! u) ->
  parked w' = parked w -> spawned w' = spawned w -> STATE w' = STATE w ->
  frame self w0 w -> frame self w0 w'.
Proof.
  intros Hm Hn Ep Es Et [F1 F2 F3 F4 F5].
  assert (Hs : forall u, spawned_in w' u <-> spawned_in w u) by (intros u; unfold spawned_in; by rewrite Es).
  assert (Hf : forall u, flagged w' u <-> flagged w u) by (intros u; unfold flagged; by rewrite Et).
  split; intros u; rewrite ?Hs, ?Hf, ?Ep; auto. intros Hu. rewrite Hm, Hn by done. auto.
Qed.

Lemma mon_depth_set g pk ex d d' w0 w :
  mon self g pk ex d w0 w ->
  mon self g pk ex d' w0 (set_CALL_DEPTH (<[self := d']> (CALL_DEPTH w)) w).
Proof.
  intros [H1 H2 H3 H4 H5 H6 Hin H7]. split; try done.
  - unfold depth. simpl. by rewrite lookup_insert_eq.
  - eapply frame_own_tls, H7; try done. intros u Hu. simpl. by rewrite lookup_insert_ne.
Qed.

Lemma triple_depth_enter g pk ex d :
  T self (mon self g pk ex d) (depth_enter self) (fun _ => mon self g pk ex (wrap32 (d + 1))).
Proof.
  apply triple_act; [done|]. intros w0 w a w' HP E. simplify_eq.
  rewrite (mon_depth _ _ _ _ _ _ _ HP). by eapply mon_depth_set.
Qed.

Lemma triple_depth_exit g pk ex d :
  T self (mon self g pk ex d) (depth_exit self) (fun _ => mon self g pk ex (wrap32 (d - 1))).
Proof.
  apply triple_act; [done|]. intros w0 w a w' HP E. simplify_eq.
  rewrite (mon_depth _ _ _ _ _ _ _ HP). by eapply mon_depth_set.
Qed.

(** Anything done at depth [d + 1] and bracketed ends at depth [d]. *)
Lemma triple_internal A (p : P A) g pk ex g' pk' ex' d :
  in_u32 d ->
  (forall d', in_u32 d' -> T self (mon self g pk ex d') p (fun _ => mon self g' pk' ex' d')) ->
  T self (mon self g pk ex d) (with_internal_depth self p) (fun _ => mon self g' pk' ex' d).
Proof.
  intros Hd Hp. unfold with_internal_depth.
  eapply triple_bind; [apply triple_depth_enter|intros ?].
  eapply triple_bind; [apply Hp, wrap32_range|intros ?].
  eapply triple_bind; [apply triple_depth_exit|intros ?].
  rewrite wrap32_depth by done. apply triple_ret_any.
Qed.

(** * The global mutex *)
Lemma mon_set_gmtx g g' pk ex d w0 w :
  mon self g pk ex d w0 w -> mon self g' pk ex d w0 (set_GMTX g' w).
Proof. intros [H1 H2 H3 H4 H5 H6 Hin [F1 F2 F3 F4 F5]]. split; done || by split. Qed.

Lemma triple_set_gmtx g pk ex d :
  T self (mon self g pk ex d) (modify_world (set_GMTX (Some self)))
    (fun _ => mon self (Some self) pk ex d).
Proof. apply triple_act; [done|]. intros w0 w a w' HP E. simplify_eq. by eapply mon_set_gmtx. Qed.

Lemma triple_suspend b ex d (P : World -> World -> Prop) :
  (forall w0 w, P w0 w -> Guar self b w0 w /\ depth w self = d) ->
  ex = match b with OnCond (SuspendCond _) => eq self | _ => nobody end ->
  T self P (Suspend b) (fun _ => mon self None None ex d).
Proof.
  intros HG -> w0 w HP. destruct (HG w0 w HP) as [HGuar Hd]. split; [done|].
  intros w' HR. unfold Rely in HR. by rewrite Hd in HR.
Qed.

Lemma triple_gmtx_lock d : T self (free self d) (gmtx_lock self) (fun _ => held self d).
Proof.
  eapply triple_bind; [apply (triple_suspend OnGmtx nobody d); [|done]|intros ?; apply triple_set_gmtx].
  intros w0 w H. split; [by exists d|]. by destruct H.
Qed.

Lemma triple_gmtx_unlock ex d :
  T self (mon self (Some self) None ex d) (gmtx_unlock self) (fun _ => mon self None None ex d).
Proof.
  apply triple_act; [done|]. intros w0 w a w' HP E. case_bool_decide; simplify_eq.
  by eapply mon_set_gmtx.
Qed.

Lemma triple_glock d : in_u32 d -> T self (free self d) (glock self) (fun _ => held self d).
Proof. intros Hd. apply triple_internal; [done|]. intros. apply triple_gmtx_lock. Qed.

Lemma triple_gunlock ex d :
  in_u32 d ->
  T self (mon self (Some self) None ex d) (gunlock self) (fun _ => mon self None None ex d).
Proof. intros Hd. apply triple_internal; [done|]. intros. apply triple_gmtx_unlock. Qed.

Lemma triple_rsched_glock d :
  in_u32 d -> T self (free self d) (rsched_glock cfg L self) (fun _ => held self d).
Proof.
  intros Hd. eapply triple_bind; [by apply triple_glock|intros ?]. by apply triple_tsan_call.
Qed.

Lemma triple_rsched_gunlock ex d :
  in_u32 d ->
  T self (mon self (Some self) None ex d) (rsched_gunlock cfg L self) (fun _ => mon self None None ex d).
Proof.
  intros Hd. eapply triple_bind; [by apply triple_tsan_call|intros ?]. by apply triple_gunlock.
Qed.

(** * Sleeping and waking *)
Lemma mon_park c ex ex' d w0 w :
  (forall x, c = SuspendCond x -> x = self) ->
  (forall u, ex u -> ex' u \/ u = self /\ c = SuspendCond self) ->
  mon self (Some self) None ex d w0 w ->
  mon self None (Some c) ex' d w0 (set_parked (<[self := c]> (parked w)) (set_GMTX None w)).
Proof.
  intros Hc Hex [H1 H2 H3 H4 H5 H6 Hin [F1 F2 F3 F4 F5]]. split; try done; simpl.
  - by rewrite lookup_insert_eq.
  - intros u Hu. simpl. destruct (H3 u Hu) as [He|Hp].
    + destruct (Hex u He) as [|[-> ->]]; [by left|]. right. by rewrite lookup_insert_eq.
    + right. rewrite lookup_insert_ne; [done|]. congruence.
  - intros u x. simpl. destruct (decide (u = self)) as [->|Hne].
    + rewrite lookup_insert_eq. intros [= ->]. by apply Hc.
    + rewrite lookup_insert_ne by done. apply H4.
  - split; try done. intros u Hu. simpl. rewrite lookup_insert_ne by done. by apply F3.
Qed.

Lemma triple_pt_cond_wait c ex ex' ex'' d (P : World -> World -> Prop) :
  (forall w0 w, P w0 w -> mon self (Some self) None ex d w0 w) ->
  (forall x, c = SuspendCond x -> x = self) ->
  (forall u, ex u -> ex' u \/ u = self /\ c = SuspendCond self) ->
  (forall w0 w, P w0 w ->
     let w' := set_parked (<[self := c]> (parked w)) (set_GMTX None w) in
     mon self None (Some c) ex' d w0 w' -> Guar self (OnCond c) w0 w') ->
  ex'' = match c with SuspendCond _ => eq self | _ => nobody end ->
  T self P (pt_cond_wait self c) (fun _ => mon self (Some self) None ex'' d).
Proof.
  intros HP Hc Hex HG ->.
  eapply triple_bind with (M := fun _ w0 w => Guar self (OnCond c) w0 w /\ depth w self = d).
  - apply triple_act; [done|]. intros w0 w a w' Hw E. case_bool_decide; simplify_eq.
    assert (M := mon_park c ex ex' d w0 w Hc Hex (HP _ _ Hw)).
    split; [by apply HG|]. by destruct M.
  - intros ?. eapply triple_bind; [|intros ?; apply triple_set_gmtx].
    apply (triple_suspend (OnCond c)); [done|]. by destruct c.
Qed.

Lemma triple_wait_ready_cond sa d :
  in_u32 d ->
  T self (held self d) (rsched_cond_wait cfg L self (ReadyCond sa)) (fun _ => held self d).
Proof.
  intros Hd. eapply triple_bind; [by apply triple_tsan_call|intros ?].
  eapply triple_bind; [|intros ?; by apply triple_tsan_call].
  apply triple_internal; [done|]. intros d' Hd'.
  apply (triple_pt_cond_wait _ nobody nobody).
  - done.
  - done.
  - by intros u [].
  - intros w0 w _ w' HM. by exists d'.
  - done.
Qed.

(** Before sleeping on its own condition, [self] is marked, and at most one other
    marked thread was woken. *)
Definition leaving (next : PthreadT) d w0 w : Prop :=
  flagged w self /\ mon self (Some self) None (fun u => u = self \/ u = next) d w0 w.

Lemma leaving_depth next d d' w0 w :
  leaving next d w0 w -> leaving next d' w0 (set_CALL_DEPTH (<[self := d']> (CALL_DEPTH w)) w).
Proof. intros [H1 H2]. split; [done|]. by eapply mon_depth_set. Qed.

Lemma triple_wait_suspend_cond next d :
  in_u32 d ->
  T self (leaving next d) (rsched_cond_wait cfg L self (SuspendCond self))
    (fun _ => mon self (Some self) None (eq self) d).
Proof.
  intros Hd. eapply triple_bind; [by apply triple_tsan_call|intros ?].
  eapply triple_bind; [|intros ?; by apply triple_tsan_call].
  unfold with_internal_depth.
  eapply triple_bind with (M := fun _ => leaving next (wrap32 (d + 1))).
  { apply triple_act; [done|]. intros w0 w x w' HP E. simplify_eq.
    rewrite (mon_depth _ _ _ _ _ _ _ (proj2 HP)). by eapply leaving_depth. }
  intros ?. eapply triple_bind.
  - eapply (triple_pt_cond_wait _ (fun u => u = self \/ u = next) (eq next) _ (wrap32 (d + 1))).
    + by intros w0 w [_ H].
    + by intros x [= ->].
    + intros u [->| ->]; auto.
    + intros w0 w [Hf _] w' HM. exists (wrap32 (d + 1)). split; [done|].
      split; [exact Hf|]. by exists next.
    + done.
  - intros ?. eapply triple_bind; [apply triple_depth_exit|intros ?].
    rewrite wrap32_depth by done. apply triple_ret_any.
Qed.

(** Marking and unmarking [self], through either accessor. *)
Definition marks (b : bool) (f : State BoxScheduler -> result (State BoxScheduler)) : Prop :=
  forall s s', f s = Ok s' -> forall u, flag_of s' u = if decide (u = self) then b else flag_of s u.

Lemma marks_modify b : marks b (modify self (Thread.set_in_wait b)).
Proof.
  intros s s' E u. unfold modify, t in E. invert_ok. unfold flag_of. simpl.
  case_decide as Hu; [subst; by rewrite lookup_insert_eq|]. by rewrite lookup_insert_ne.
Qed.

Lemma marks_modify_unwrap b : marks b (modify_unwrap self (Thread.set_in_wait b)).
Proof.
  intros s s' E u. unfold modify_unwrap in E. invert_ok. unfold flag_of. simpl.
  case_decide as Hu; [subst; by rewrite lookup_insert_eq|]. by rewrite lookup_insert_ne.
Qed.

Lemma mark_world b f w x w' :
  marks b f ->
  (let? s := expect (STATE w) "rsched not initialised" in
   let? (a, s') := (let? s' := f s in Ok (tt, s')) in Ok (a, set_STATE (Some s') w)) = Ok (x, w') ->
  exists s s', STATE w = Some s /\ w' = set_STATE (Some s') w /\
    forall u, flag_of s' u = if decide (u = self) then b else flag_of s u.
Proof.
  intros Hm E. apply rbind_Ok in E as (s & Hs & E). apply expect_Ok in Hs.
  apply rbind_Ok in E as ([] & Hf & E). apply rbind_Ok in Hf as (s1 & Hf & E1).
  simplify_eq. exists s. eexists. split; [done|]. split; [done|]. by apply Hm.
Qed.

Lemma mon_mark g pk ex d w0 w s s' :
  STATE w = Some s ->
  (forall u, flag_of s' u = if decide (u = self) then true else flag_of s u) ->
  mon self g pk ex d w0 w ->
  flagged (set_STATE (Some s') w) self /\
  mon self g pk (fun u => u = self \/ ex u) d w0 (set_STATE (Some s') w).
Proof.
  intros Hs Hf [H1 H2 H3 H4 H5 H6 Hin [F1 F2 F3 F4 F5]].
  assert (Hn : forall u, u <> self -> flagged (set_STATE (Some s') w) u <-> flagged w u).
  { intros u Hu. unfold flagged. simpl. by rewrite Hs, Hf, decide_False. }
  split; [unfold flagged; simpl; by rewrite Hf, decide_True|].
  split; try done.
  - intros u Hu. destruct (decide (u = self)) as [->|Hne]; [by left; left|].
    rewrite Hn in Hu by done. destruct (H3 u Hu); [by left; right|by right].
  - split; try done; [intros u Hu Hsp Hfl; apply Hn; auto|intros u Hu Hfl; apply F5, Hn; auto].
Qed.

Lemma triple_mark f ex d :
  marks true f ->
  T self (mon self (Some self) None ex d) (update_state f)
    (fun _ w0 w => flagged w self /\ mon self (Some self) None (fun u => u = self \/ ex u) d w0 w).
Proof.
  intros Hm. apply triple_act; [done|]. intros w0 w x w' HP E.
  apply (mark_world true) in E as (s & s' & Hs & -> & Hf); [|done]. by eapply mon_mark.
Qed.

Lemma triple_unmark f d :
  marks false f ->
  T self (mon self (Some self) None (eq self) d) (update_state f) (fun _ => held self d).
Proof.
  intros Hm. apply triple_act; [done|]. intros w0 w x w' HP E.
  apply (mark_world false) in E as (s & s' & Hs & -> & Hf); [|done].
  destruct HP as [H1 H2 H3 H4 H5 H6 Hin [F1 F2 F3 F4 F5]].
  assert (Hn : forall u, flagged (set_STATE (Some s') w) u <-> u <> self /\ flagged w u).
  { intros u. unfold flagged. simpl. rewrite Hs, Hf. case_decide; naive_solver. }
  split; try done.
  - intros u [Hu Hfl]%Hn. destruct (H3 u Hfl) as [<-|]; [done|by right].
  - split; try done; [intros u Hu Hsp Hfl; apply Hn; auto|intros u Hu [_ Hfl]%Hn; auto].
Qed.

(** Waking [next], which is marked: it is the one thread that may be awake. *)
Lemma signal_parked c w u :
  let w' := set_parked (filter (fun p => ~ (snd p = c /\ fst p ∈ signal_wakes L (history w) c (waiters_on c w)))
              (parked w)) w in
  parked w' !! u = parked w !! u \/ parked w !! u = Some c /\ parked w' !! u = None.
Proof.
  simpl. destruct (parked w !! u) as [c'|] eqn:E.
  - destruct (decide (c' = c /\ u ∈ signal_wakes L (history w) c (waiters_on c w))) as [[-> Hw]|Hn].
    + right. split; [done|]. apply map_lookup_filter_None. right. intros x Hx.
      simplify_eq. simpl. tauto.
    + left. apply map_lookup_filter_Some. split; [done|]. exact Hn.
  - left. apply map_lookup_filter_None. by left.
Qed.

Lemma mon_signal c ex ex' d w0 w g :
  (forall u, ex u -> ex' u) -> (forall u, c = SuspendCond u -> ex' u) ->
  mon self g None ex d w0 w ->
  mon self g None ex' d w0
    (set_parked (filter (fun p => ~ (snd p = c /\ fst p ∈ signal_wakes L (history w) c (waiters_on c w)))
              (parked w)) w).
Proof.
  intros Hex Hc [H1 H2 H3 H4 H5 H6 Hin [F1 F2 F3 F4 F5]].
  assert (S := signal_parked c w). cbv zeta in S.
  split; try done.
  - by destruct (S self) as [->|[_ ->]].
  - intros u Hu. destruct (H3 u Hu) as [He|Hp]; [left; auto|].
    destruct (S u) as [->|[Hpc _]]; [by right|]. left. apply Hc. congruence.
  - intros u x. destruct (S u) as [->|[_ ->]]; [apply H4|done].
  - split; try done. intros u Hu. destruct (S u) as [->|[_ ->]]; [auto|by right].
Qed.

Lemma triple_signal_suspend next d :
  in_u32 d ->
  T self (held self d) (rpt_cond_signal L self (SuspendCond next))
    (fun _ => mon self (Some self) None (eq next) d).
Proof.
  intros Hd. apply triple_internal; [done|]. intros d' _. apply triple_act; [done|].
  intros w0 w x w' HP E. simplify_eq. eapply mon_signal, HP.
  - by intros u [].
  - by intros u [= ->].
Qed.

Lemma triple_wait_ready sa d :
  in_u32 d -> T self (held self d) (wait_ready cfg L self sa) (fun _ => held self d).
Proof.
  intros Hd. apply (triple_iter _ _ _ _ _ _ _ _ tt (fun _ => held self d)). intros [].
  eapply triple_bind; [apply triple_read_box|intros []]; [by intros w0 w H|].
  eapply triple_bind; [by apply triple_wait_ready_cond|intros ?]. by intros w0 w H.
Qed.

Lemma triple_drain d :
  in_u32 d -> T self (held self d) (drain_pending_child cfg L self) (fun _ => held self d).
Proof.
  intros Hd. unfold drain_pending_child.
  eapply triple_bind; [apply triple_quiet; intros; simplify_eq; by apply quiet_info|].
  intros [[sa child]|]; [|apply triple_ret_any].
  eapply triple_bind; [by apply triple_wait_ready|intros ?].
  eapply triple_bind; [apply triple_box_free|intros ?].
  apply triple_update. intros s s' E. case_bool_decide; [|by simplify_eq].
  by eapply quiet_modify, E.
Qed.

(** Sleeping on [self]'s condition after [next] was woken (or nobody). *)
Lemma triple_sleep f1 f2 next d :
  in_u32 d -> marks true f1 -> marks false f2 ->
  T self (mon self (Some self) None (eq next) d)
    (update_state f1 ;; rsched_cond_wait cfg L self (SuspendCond self) ;; update_state f2)
    (fun _ => held self d).
Proof.
  intros Hd H1 H2. eapply triple_bind; [by apply triple_mark|intros ?].
  eapply triple_bind; [|intros ?; by apply triple_unmark].
  eapply triple_pre; [by apply (triple_wait_suspend_cond next)|].
  intros w0 w [Hf HM]. split; [done|]. eapply mon_flags_weaken, HM. simpl. naive_solver.
Qed.

Lemma triple_wake next d :
  in_u32 d -> T self (held self d) (wake cfg L self next true self) (fun _ => held self d).
Proof.
  intros Hd. unfold wake, when. destruct (negb (next =? self)); [|apply triple_ret_any].
  eapply triple_bind; [apply triple_read_state|intros ?].
  eapply triple_bind; [by apply triple_signal_suspend|intros ?].
  apply triple_sleep; auto using marks_modify_unwrap.
Qed.

Lemma triple_deliver_event ev d :
  T self (held self d) (deliver_event ev) (fun _ => held self d).
Proof.
  eapply triple_bind; [apply triple_quiet|intros ?].
  - intros s x s' E. destruct (on_event _ _) as [sch out]. simplify_eq. by apply quiet_info.
  - apply triple_act; [done|]. intros w0 w x w' HP E. simplify_eq. by eapply mon_same, HP.
Qed.

Lemma triple_context_switch d :
  in_u32 d -> T self (held self d) (context_switch cfg L self self) (fun _ => held self d).
Proof.
  intros Hd. unfold context_switch.
  eapply triple_bind; [by apply triple_drain|intros ?].
  eapply triple_bind; [apply triple_read_state|intros []]; simpl; [|apply triple_ret_any].
  eapply triple_bind; [apply triple_read_state|intros n]. destruct (n <=? 1)%nat; [apply triple_ret_any|].
  eapply triple_bind; [apply triple_update|intros ?].
  { intros s s' E. apply rbind_Ok in E as (th & _ & E). case_match; [|by simplify_eq].
    by eapply quiet_modify, E. }
  eapply triple_bind; [apply triple_quiet; eauto with rsched|].
  intros [idx|]; [|apply triple_ret_any].
  eapply triple_bind; [apply triple_read_state|intros next].
  eapply triple_bind; [by apply triple_wake|intros ?].
  eapply triple_bind; [apply triple_read_state|intros ev]. apply triple_deliver_event.
Qed.

Lemma held_awake next d w0 w : held self d w0 w -> mon self (Some self) None (eq next) d w0 w.
Proof. apply mon_flags_weaken. by intros u []. Qed.

Lemma triple_wait_while_blocking d :
  in_u32 d -> T self (held self d) (wait_while_blocking cfg L self self) (fun _ => held self d).
Proof.
  intros Hd. eapply triple_bind; [apply triple_read_state|intros []]; [|apply triple_ret_any].
  eapply triple_pre; [apply (triple_sleep _ _ self d Hd); apply marks_modify|].
  intros w0 w. apply held_awake.
Qed.

Lemma triple_mutex_lock key d :
  in_u32 d -> T self (held self d) (mutex_lock cfg L self key self) (fun _ => held self d).
Proof.
  intros Hd. eapply triple_bind; [apply triple_read_state|intros my_tid].
  apply (triple_iter _ _ _ _ _ _ _ _ tt (fun _ => held self d)). intros [].
  eapply triple_bind; [apply triple_quiet; eauto with rsched|intros []]; [by intros w0 w H|].
  eapply triple_bind; [by apply triple_context_switch|intros ?].
  eapply triple_bind; [by apply triple_wait_while_blocking|intros ?]. by intros w0 w H.
Qed.

(** * Initialisation *)

(** Worlds that agree on everything the discipline speaks of, the depth of [self]
    aside. *)
Definition alike w w' : Prop :=
  STATE w' = STATE w /\ GMTX w' = GMTX w /\ parked w' = parked w /\ spawned w' = spawned w /\
  INITED w' = INITED w /\ MY_PT w' = MY_PT w /\
  forall u, u <> self -> CALL_DEPTH w' !! u = CALL_DEPTH w !! u.

(** Before the library is initialised: no thread is marked and nothing happened in
    the segment. *)
Definition calm d w0 w : Prop :=
  INITED w = false /\ alike w0 w /\ GMTX w = None /\ parked w !! self = None /\ parked_ok w /\
  depth w self = d /\ forall u, ~ flagged w u.

(** A call begins. *)
Definition entry d w0 w : Prop := free self d w0 w \/ calm d w0 w.

(** The same for [rsched_reinit]: every other thread has been joined. *)
Definition alone d w0 w : Prop :=
  GMTX w = None /\ parked w !! self = None /\ parked_ok w /\ depth w self = d /\
  (forall u, ~ flagged w0 u) /\ (forall u, ~ flagged w u) /\ frame self w0 w.

Definition fresh d w0 w : Prop := INITED w = true /\ alone d w0 w.

Lemma triple_set_my_pt d :
  T self (fresh d) (set_my_pt self self) (fun _ => free self d).
Proof.
  apply triple_act; [done|].
  intros w0 w x w' (Hi & H1 & H2 & H3 & H4 & H5 & H6 & H7) E. simplify_eq. split; try done.
  - intros u Hu. by destruct (H6 u).
  - simpl. by rewrite lookup_insert_eq.
  - eapply frame_own_tls, H7; try done. intros u Hu. simpl. by rewrite lookup_insert_ne.
Qed.

(** Replacing records by fresh ones only clears marks: [self]'s, or a new thread's. *)
Lemma triple_add th d :
  is_in_rsched_wait th = false ->
  T self (fun w0 w => held self d w0 w /\ (pthread th = self \/ spawned_in w (pthread th)))
    (update_state (fun s => Ok (add th s))) (fun _ => held self d).
Proof.
  intros Hth. apply triple_act; [done|]. intros w0 w x w' [HP Hpt] E.
  apply rbind_Ok in E as (s & Hs & E). apply expect_Ok in Hs. simpl in E. simplify_eq.
  assert (Hf : forall u, flagged (set_STATE (Some (add th s)) w) u <-> u <> pthread th /\ flagged w u).
  { intros u. unfold flagged, flag_of, add. simpl. rewrite Hs.
    rewrite lookup_insert. case_decide as Hu; [rewrite Hth|]; naive_solver. }
  destruct HP as [H1 H2 H3 H4 H5 H6 Hin [F1 F2 F3 F4 F5]]. split; try done.
  - intros u [_ Hu]%Hf. by apply H3.
  - split; try done; [|by intros u Hu [_ Hfl]%Hf; auto].
    intros u Hu Hsp Hfl. apply Hf. split; [|by apply F2].
    intros E. destruct Hpt; [congruence|]. apply Hsp. by rewrite E.
Qed.

Lemma triple_register_main d :
  in_u32 d -> T self (fresh d) (register_main cfg L self) (fun _ => free self d).
Proof.
  intros Hd. eapply triple_bind; [apply triple_set_my_pt|intros ?].
  eapply triple_bind; [by apply triple_rsched_glock|intros ?].
  eapply triple_bind; [apply triple_own_tid|intros my_tid].
  eapply triple_bind; [|intros ?; by apply triple_rsched_gunlock].
  eapply triple_pre; [by apply triple_add|]. intros w0 w HP. split; [exact HP|by left].
Qed.

Lemma alone_reset d w0 w sch i :
  alone d w0 w -> alone d w0 (set_INITED i (set_STATE (Some (empty sch)) w)).
Proof.
  intros (H1 & H2 & H3 & H4 & H5 & H6 & [F1 F2 F3 F4 F5]).
  assert (N : forall u, ~ flagged (set_INITED i (set_STATE (Some (empty sch)) w)) u).
  { intros u. unfold flagged, flag_of. simpl. by rewrite lookup_empty. }
  repeat (split; [done|]). split; try done. intros u _ _ Hu. by destruct (H5 u).
Qed.

Lemma triple_reinit seed d :
  in_u32 d -> T self (alone d) (rsched_reinit cfg L env self seed) (fun _ => free self d).
Proof.
  intros Hd. eapply triple_bind with (M := fun _ => alone d).
  - apply triple_act; [done|]. intros w0 w x w' HP E. simplify_eq.
    exact (alone_reset d w0 w _ (INITED w) HP).
  - intros ?. eapply triple_bind with (M := fun _ => fresh d).
    + apply triple_act; [done|].
      intros w0 w x w' (H1 & H2 & H3 & H4 & H5 & H6 & [F1 F2 F3 F4]) E. simplify_eq.
      by repeat (split; [done|]).
    + intros ?. by apply triple_register_main.
Qed.

Lemma triple_install P :
  (forall c d, T self (free self d) (real_call L self c) (fun _ => free self d)) ->
  forall d, P = free self d ->
  T self P (install_seccomp_tripwire_if_requested L env self) (fun _ => P).
Proof.
  intros Hc d ->. unfold install_seccomp_tripwire_if_requested, install_sigsys_handler, install_seccomp_filter, when.
  case_bool_decide; [|apply triple_ret_any].
  assert (Ha : forall c m, T self (free self d) (asserted_call L self c m) (fun _ => free self d)).
  { intros c m. eapply triple_bind; [apply Hc|intros r]. apply triple_act; [done|].
    intros w0 w x w' HP E. case_match; by simplify_eq. }
  eapply triple_bind; [apply Ha|intros ?]. eapply triple_bind; [apply Ha|intros ?]. apply Ha.
Qed.

Lemma alike_refl w : alike w w.
Proof. by repeat split. Qed.

Lemma alike_trans w1 w2 w3 : alike w1 w2 -> alike w2 w3 -> alike w1 w3.
Proof.
  intros (A1 & A2 & A3 & A4 & A5 & A6 & A7) (B1 & B2 & B3 & B4 & B5 & B6 & B7).
  repeat (split; [congruence|]). intros u Hu. by rewrite B7, A7.
Qed.

Lemma alike_flagged w w' u : alike w w' -> flagged w' u <-> flagged w u.
Proof. intros (E & _). unfold flagged. by rewrite E. Qed.

Lemma alike_frame w w' : alike w w' -> frame self w w'.
Proof.
  intros H. assert (Hf := fun u => alike_flagged w w' u H).
  destruct H as (A1 & A2 & A3 & A4 & A5 & A6 & A7).
  split; intros u; rewrite ?Hf, ?A3, ?A6; auto.
  unfold spawned_in. by rewrite A4.
Qed.

Lemma calm_alone d w0 w : calm d w0 w -> alone d w0 w.
Proof.
  intros (Hi & Ha & H1 & H2 & H3 & H4 & H5). repeat (split; [done|]).
  split; [intros u Hu; apply (H5 u); by apply (alike_flagged w0 w)|]. split; [done|]. by apply alike_frame.
Qed.

Lemma triple_ensure_init d :
  in_u32 d -> T self (entry d) (ensure_init cfg L env self) (fun _ => free self d).
Proof.
  intros Hd w0 w [HF|HC]; simpl.
  - rewrite (mon_inited _ _ _ _ _ _ _ HF). simpl. exact HF.
  - assert (Hi := proj1 HC). rewrite Hi. simpl. rewrite Hi.
    eapply (triple_bind _ _ _ _ _ _ _ _ _ (fresh d) (fun _ => fresh d) (fun _ => free self d)).
    + apply triple_act; [done|]. intros v0 v x v' [Hi1 HP] E. injection E as _ <-.
      split; [exact Hi1|exact (alone_reset d v0 v _ (INITED v) HP)].
    + intros ?. eapply triple_bind; [by apply triple_register_main|intros ?].
      eapply triple_install; [|done]. intros. apply triple_real_call.
    + split; [done|]. apply calm_alone in HC as (C1 & C2 & C3 & C4 & C5 & C6 & [F1 F2 F3 F4 F5]).
      by repeat (split; [done|]).
Qed.

(** A step that leaves the worlds alike. *)
Lemma triple_alike A (f : World -> result (A * World)) d :
  (forall w a w', f w = Ok (a, w') -> alike w w' /\ CALL_DEPTH w' = CALL_DEPTH w) ->
  T self (entry d) (Act f) (fun _ => entry d).
Proof.
  intros Hf. apply triple_act; [done|]. intros w0 w a w' HP E. destruct (Hf w a w' E) as [Ha Ed].
  assert (Hfl := fun u => alike_flagged w w' u Ha). assert (Ha' := Ha).
  destruct Ha' as (A1 & A2 & A3 & A4 & A5 & A6 & A7). destruct HP as [HF|(C0 & C1 & C2 & C3 & C4 & C5 & C6)].
  - left. eapply mon_same, HF; done.
  - right. split; [congruence|]. split; [by eapply alike_trans|]. split; [congruence|].
    split; [congruence|]. split; [unfold parked_ok; by rewrite A3|].
    split; [unfold depth in *; congruence|]. intros u. by rewrite Hfl.
Qed.

(** Entering and leaving an interceptor. *)
Lemma entry_depth_set d d' w0 w :
  entry d w0 w -> entry d' w0 (set_CALL_DEPTH (<[self := d']> (CALL_DEPTH w)) w).
Proof.
  intros [HF|(C0 & C1 & C2 & C3 & C4 & C5 & C6)]; [left; by eapply mon_depth_set|right].
  repeat (split; [done|]). split.
  - eapply alike_trans; [exact C1|]. repeat (split; [done|]). intros u Hu. simpl.
    by rewrite lookup_insert_ne.
  - repeat (split; [done|]). split; [|done]. unfold depth. simpl. by rewrite lookup_insert_eq.
Qed.

Lemma entry_depth d w0 w : entry d w0 w -> depth w self = d.
Proof. intros [HF|(_ & _ & _ & _ & _ & Hd & _)]; [by destruct HF|done]. Qed.
End Runtime.

(** * The exported functions *)

(** A [State] update that is quiet for one of the usual reasons. *)
Ltac solve_quiet :=
  intros; unfold set_event, clear_event in *;
  first [ solve [eauto with rsched]
        | solve [simplify_eq; by apply quiet_info]
        | solve [simplify_eq; eauto with rsched]
        | solve [eapply quiet_modify; [|eassumption]; done] ].

(** The triple of one step. *)
Ltac solve_step :=
  lazymatch goal with
  | |- triple _ _ _ _ (Ret _) _ => apply triple_ret_any
  | |- triple _ _ _ _ (read_state _) _ => apply triple_read_state
  | |- triple _ _ _ _ (thread_at _) _ => apply triple_read_state
  | |- triple _ _ _ _ (caller_tid _) _ => apply triple_read_state
  | |- triple _ _ _ _ (read_world _) _ => apply triple_read_world
  | |- triple _ _ _ _ (read_box _ _) _ => apply triple_read_box
  | |- triple _ _ _ _ (update_state _) _ => apply triple_update; solve_quiet
  | |- triple _ _ _ _ (with_state _) _ => apply triple_quiet; solve_quiet
  | |- triple _ _ _ _ (real_call _ _ _) _ => apply triple_real_call
  | |- triple _ _ _ _ (box_new _) _ => apply triple_box_new
  | |- triple _ _ _ _ (box_free _) _ => apply triple_box_free
  | |- triple _ _ _ _ (tsan_call _ _ _ _) _ => by apply triple_tsan_call
  | |- triple _ _ _ _ (tsan_user_acquire _ _ _ _) _ => eapply triple_bind; [by apply triple_tsan_call|intros ?]; eapply triple_bind; [by apply triple_tsan_call|intros ?]; by apply triple_tsan_call
  | |- triple _ _ _ _ (tsan_user_release _ _ _ _) _ => eapply triple_bind; [by apply triple_tsan_call|intros ?]; eapply triple_bind; [by apply triple_tsan_call|intros ?]; by apply triple_tsan_call
  | |- triple _ _ _ _ (ensure_init _ _ _ _) _ => by apply triple_ensure_init
  | |- triple _ _ _ _ (rsched_glock _ _ _) _ => by apply triple_rsched_glock
  | |- triple _ _ _ _ (rsched_gunlock _ _ _) _ => by apply triple_rsched_gunlock
  | |- triple _ _ _ _ (drain_pending_child _ _ _) _ => by apply triple_drain
  | |- triple _ _ _ _ (context_switch _ _ _ _) _ => by apply triple_context_switch
  | |- triple _ _ _ _ (wait_while_blocking _ _ _ _) _ => by apply triple_wait_while_blocking
  | |- triple _ _ _ _ (mutex_lock _ _ _ _ _) _ => by apply triple_mutex_lock
  | |- triple _ _ _ _ (with_internal_depth _ _) _ =>
      apply triple_internal; [assumption|intros ? ?; solve_step]
  | _ => fail "no triple for this step"
  end.

Section Api.
Context (cfg : Cfg) (L : Libc) (env : string -> option string).
Context (code_bytes : Z -> nat -> list Z) (gate_address : Z).
Context (self : PthreadT).
Hypothesis no_tsan : tsan cfg = false.
Context (d : Z) (Hd : in_u32 d).

Lemma bind_my_pt A (k : PthreadT -> P A) g pk ex d' Q :
  T self (mon self g pk ex d') (k self) Q ->
  T self (mon self g pk ex d') (Bind (my_pt self) k) Q.
Proof.
  intros Hk. eapply triple_bind; [apply triple_my_pt|]. intros c w0 w [-> HP]. by apply Hk.
Qed.

(** Run through a program: bind steps, branch on conditions. *)
Ltac run :=
  cbv zeta;
  lazymatch goal with
  | |- triple _ _ _ _ (Bind (Bind _ _) _) _ => eapply triple_bind; [run|intros ?; run]
  | |- triple _ _ _ _ (Bind (my_pt _) _) _ => apply bind_my_pt; run
  | |- triple _ _ _ _ (Bind (when _ _) _) _ => eapply triple_bind; [run|intros ?; run]
  | |- triple _ _ _ _ (Bind (if ?b then _ else _) _) _ => eapply triple_bind; [run|intros ?; run]
  | |- triple _ _ _ _ (Bind (match ?b with Some _ => _ | None => _ end) _) _ =>
      eapply triple_bind; [run|intros ?; run]
  | |- triple _ _ _ _ (Bind _ _) _ => eapply triple_bind; [solve_step|intros ?; run]
  | |- triple _ _ _ _ (when ?b _) _ => unfold when; destruct b; run
  | |- triple _ _ _ _ (if ?b then _ else _) _ => destruct b; run
  | |- triple _ _ _ _ (match ?o with Some _ => _ | None => _ end) _ => destruct o; run
  | |- triple _ _ _ _ (let (_, _) := ?x in _) _ => destruct x; run
  | |- _ => try solve_step
  end.

Lemma triple_note f :
  (forall s, quiet s (f s)) ->
  T self (entry self d) (note cfg L env self f) (fun _ => free self d).
Proof. intros Hf. unfold note. run. Qed.

Lemma triple_finish caller r :
  T self (held self d) (finish cfg L self caller r) (fun _ => free self d).
Proof. unfold finish. run. Qed.

Lemma triple_lock_real lock caller :
  T self (held self d) (lock_real cfg L self lock caller) (fun _ => free self d).
Proof.
  unfold lock_real. eapply triple_bind; [solve_step|intros r]. destruct (negb (r =? 0)).
  - apply triple_finish.
  - eapply triple_bind; [solve_step|intros ?]. apply triple_finish.
Qed.

Ltac run_api :=
  run;
  lazymatch goal with
  | |- triple _ _ _ _ (finish _ _ _ _ _) _ => apply triple_finish
  | |- triple _ _ _ _ (lock_real _ _ _ _ _) _ => apply triple_lock_real
  | |- _ => idtac
  end.

Lemma triple_join thread :
  T self (entry self d) (rsched_pthread_join cfg L env self thread) (fun _ => free self d).
Proof.
  unfold rsched_pthread_join. run. apply triple_internal; [done|]. intros d' _.
  eapply triple_bind; [apply (triple_suspend self _ nobody d'); [|done]|].
  - intros w0 w H. split; [by exists d'|]. by destruct H.
  - intros ?. apply triple_real_call.
Qed.

Lemma triple_api_mutex_lock ra lock :
  T self (entry self d) (rsched_pthread_mutex_lock cfg L env self ra lock) (fun _ => free self d).
Proof. unfold rsched_pthread_mutex_lock. run_api. Qed.

Lemma triple_trylock ra lock :
  T self (entry self d) (rsched_pthread_mutex_trylock cfg L env self ra lock) (fun _ => free self d).
Proof. unfold rsched_pthread_mutex_trylock. run_api. Qed.

Lemma triple_unlock ra lock :
  T self (entry self d) (rsched_pthread_mutex_unlock cfg L env self ra lock) (fun _ => free self d).
Proof. unfold rsched_pthread_mutex_unlock. run_api. Qed.

Lemma triple_cond_wait cond lock :
  T self (entry self d) (rsched_pthread_cond_wait cfg L env self cond lock) (fun _ => free self d).
Proof. unfold rsched_pthread_cond_wait. run_api. Qed.

Lemma triple_cond_signal cond :
  T self (entry self d) (rsched_pthread_cond_signal cfg L env self cond) (fun _ => free self d).
Proof. unfold rsched_pthread_cond_signal. run_api. Qed.

Lemma triple_cond_broadcast cond :
  T self (entry self d) (rsched_pthread_cond_broadcast cfg L env self cond) (fun _ => free self d).
Proof. unfold rsched_pthread_cond_broadcast. run_api. Qed.

Lemma triple_barrier_init barrier attr count :
  T self (entry self d) (rsched_pthread_barrier_init cfg L env self barrier attr count)
    (fun _ => free self d).
Proof. unfold rsched_pthread_barrier_init. run_api. Qed.

Lemma triple_barrier_wait barrier :
  T self (entry self d) (rsched_pthread_barrier_wait cfg L env self barrier) (fun _ => free self d).
Proof.
  unfold rsched_pthread_barrier_wait. do 4 (apply bind_my_pt || (eapply triple_bind; [solve_step|intros ?])).
  eapply triple_bind; [apply triple_quiet|intros arrived; run_api].
  intros s x s' E. apply rbind_Ok in E as ([[b s1]|] & E & E1); simplify_eq; eauto with rsched.
Qed.

Lemma triple_yield ra :
  T self (entry self d) (rsched_sched_yield cfg L env self ra) (fun _ => free self d).
Proof. unfold rsched_sched_yield. run_api. Qed.

(** * Creation and exit *)

Lemma triple_real_create via attr sa d' :
  T self (held self d') (real_create L self via attr sa)
    (fun rc w0 w => held self d' w0 w /\ (fst rc = 0 -> spawned_in w (snd rc))).
Proof.
  apply triple_act; [done|]. intros w0 w x w' HP E. cbv zeta in E.
  destruct HP as [H1 H2 H3 H4 H5 H6 Hin [F1 F2 F3 F4 F5]].
  case_match eqn:Hr; [case_match; [done|]|]; injection E as <- <-; (split; [|simpl]).
  - split; try done. split; try done.
    + intros u Hu Hs Hf. apply (F2 u Hu); [|done]. intros [b Hb]. apply Hs.
      exists b. simpl. set_solver.
    + intros u Hu. destruct (F4 u Hu) as [b Hb]. exists b. simpl. set_solver.
  - intros _. exists sa. simpl. set_solver.
  - by split.
  - intros E0. rewrite E0 in Hr. done.
Qed.

(** The id of a new thread is recorded while the world remembers that it was
    spawned. *)
Lemma triple_create ra attr start a :
  T self (entry self d)
    (rsched_pthread_create cfg L env code_bytes gate_address self ra attr start a)
    (fun _ => free self d).
Proof.
  unfold rsched_pthread_create. rewrite no_tsan. simpl andb.
  eapply triple_bind; [solve_step|intros ?].
  eapply triple_bind with (M := fun g w0 w => g = None /\ free self d w0 w).
  { by intros w0 w HP. }
  intros g. apply triple_pure. intros ->.
  do 3 (eapply triple_bind; [solve_step|intros ?]).
  eapply triple_bind with (M := fun rc w0 w => held self d w0 w /\ (fst rc = 0 -> spawned_in w (snd rc))).
  { unfold with_internal_depth. eapply triple_bind; [apply triple_depth_enter|intros ?].
    eapply triple_bind; [apply triple_real_create|intros rc].
    eapply triple_bind with (M := fun _ w0 w => held self d w0 w /\ (fst rc = 0 -> spawned_in w (snd rc))).
    - apply triple_act; [done|]. intros w0 w x w' [HP Hs] E. injection E as _ <-. split; [|done].
      rewrite (mon_depth _ _ _ _ _ _ _ HP), wrap32_depth by done. by eapply mon_depth_set.
    - intros ?. by intros w0 w HP. }
  intros [r child]. destruct (negb (r =? 0)) eqn:Hr; simpl.
  - eapply triple_pre with (P := held self d); [run_api|by intros w0 w [HP _]].
  - eapply triple_bind.
    + eapply triple_pre; [apply (triple_add self (Thread.new_with_tid child 0) d); done|].
      intros w0 w [HP Hs]. split; [done|]. right. apply Hs. simpl.
      apply negb_false_iff, Z.eqb_eq in Hr. done.
    + intros ?. run_api.
Qed.

(** After an exit, the one thread that was chosen may be awake. *)
Definition exited w0 w : Prop :=
  ~ flagged w self /\ exists next, mon self None None (eq next) d w0 w.

Lemma held_unflagged d' w0 w : held self d' w0 w -> ~ flagged w self.
Proof.
  intros HP Hf. destruct (mon_flags _ _ _ _ _ _ _ HP self Hf) as [[]|E].
  by rewrite (mon_self _ _ _ _ _ _ _ HP) in E.
Qed.

Lemma triple_exit_tail next d1 :
  in_u32 d1 -> wrap32 (d1 - 1) = d ->
  T self (fun w0 w => ~ flagged w self /\ mon self (Some self) None (eq next) d1 w0 w)
    (rsched_gunlock cfg L self ;; depth_exit self) (fun _ => exited).
Proof.
  intros Hd1 Ed.
  eapply triple_weaken with
    (P := fun w0 w => ~ flagged w self /\ mon self (Some self) None (eq next) d1 w0 w)
    (Q := fun _ w0 w => ~ flagged w self /\ mon self None None (eq next) d w0 w);
    [done|by intros ? w0 w [Hf HM]; split; [|exists next]|].
  apply (triple_keeps _ _ _ _ _ _ _ (fun w => ~ flagged w self)).
  - unfold rsched_gunlock, sync_release, tsan_ignore_end, tsan_call. rewrite no_tsan. by repeat split.
  - unfold rsched_gunlock, sync_release, tsan_ignore_end, tsan_call. rewrite no_tsan. simpl.
    repeat split; intros; simplify_eq; try (case_bool_decide; simplify_eq); done.
  - eapply triple_bind; [by apply triple_rsched_gunlock|intros ?]. rewrite <- Ed.
    apply triple_depth_exit.
Qed.

Lemma triple_do_thread_exit :
  T self (free self d) (do_thread_exit cfg L self self) (fun _ => exited).
Proof.
  unfold do_thread_exit. eapply triple_bind; [apply triple_depth_enter|intros ?].
  set (d1 := wrap32 (d + 1)). assert (Hd1 : in_u32 d1) by apply wrap32_range.
  eapply triple_bind; [by apply triple_rsched_glock|intros ?].
  eapply triple_bind; [apply triple_update; solve_quiet|intros ?].
  eapply triple_bind; [apply triple_read_state|intros idle].
  eapply triple_bind with (M := fun _ => held self d1).
  { destruct idle; [apply triple_ret_any|]. apply triple_quiet. solve_quiet. }
  intros o. eapply triple_bind with (M := fun _ w0 w =>
    exists next, ~ flagged w self /\ mon self (Some self) None (eq next) d1 w0 w).
  { destruct o as [idx|].
    - eapply triple_bind; [apply triple_read_state|intros next].
      eapply triple_bind; [apply triple_read_state|intros ?].
      eapply triple_weaken with (P := fun w0 w => ~ flagged w self /\ held self d1 w0 w)
        (Q := fun _ w0 w => ~ flagged w self /\ mon self (Some self) None (eq next) d1 w0 w).
      + intros w0 w HP. split; [by eapply held_unflagged|exact HP].
      + intros ? w0 w HP. by exists next.
      + apply (triple_keeps _ _ _ _ _ _ _ (fun w => ~ flagged w self)); [done| |].
        * simpl. repeat split; intros; simplify_eq; done.
        * by apply triple_signal_suspend.
    - intros w0 w HP. exists self. split; [by eapply held_unflagged|by apply held_awake]. }
  intros ?. apply triple_ex. intros next. apply triple_exit_tail; [done|].
  unfold d1. by apply wrap32_depth.
Qed.

Lemma triple_exit :
  T self (entry self d) (rsched_pthread_exit cfg L env self) (fun _ => exited).
Proof.
  unfold rsched_pthread_exit. eapply triple_bind; [solve_step|intros ?].
  apply bind_my_pt. apply triple_do_thread_exit.
Qed.

(** * Atomics

    Called from user code, at depth 0. *)
Lemma triple_schedule_memop i a n k :
  d = 0 -> T self (entry self d) (schedule_memop cfg L env self i a n k) (fun _ => free self d).
Proof.
  intros Hz. unfold schedule_memop.
  eapply triple_bind with (M := fun b w0 w => b = false /\ entry self d w0 w).
  { apply triple_act; [done|]. intros w0 w x w' HP E. injection E as <- <-. split; [|done].
    by rewrite (entry_depth _ _ _ _ HP), Hz. }
  intros b. apply triple_pure. intros ->. run_api.
Qed.

Lemma triple_load n a : T self (free self d) (load n a) (fun _ => free self d).
Proof.
  apply triple_act; [done|]. intros w0 w x w' HP E. apply rbind_Ok in E as (v & _ & E).
  by simplify_eq.
Qed.

Lemma triple_store n a v : T self (free self d) (store n a v) (fun _ => free self d).
Proof.
  apply triple_act; [done|]. intros w0 w x w' HP E. apply rbind_Ok in E as (y & _ & E).
  simplify_eq. by eapply mon_same, HP.
Qed.

Lemma triple_rmw A n a (f : Z -> A * option Z) :
  T self (free self d) (rmw n a f) (fun _ => free self d).
Proof.
  apply triple_act; [done|]. intros w0 w x w' HP E. apply rbind_Ok in E as (v & _ & E).
  destruct (f v) as [r [v'|]]; simplify_eq; [|done]. by eapply mon_same, HP.
Qed.

Lemma triple_compare_exchange ptr expected desired :
  T self (free self d) (compare_exchange ptr expected desired) (fun _ => free self d).
Proof.
  eapply triple_bind; [apply triple_load|intros e].
  eapply triple_bind; [apply triple_rmw|intros [c|]]; [|apply triple_ret_any].
  eapply triple_bind; [apply triple_store|intros ?]. apply triple_ret_any.
Qed.

Lemma triple_atomic op ra ptr :
  d = 0 -> T self (entry self d) (run_atomic cfg L env self op ra ptr) (fun _ => free self d).
Proof.
  intros Hz. destruct op; unfold run_atomic, rsched_atomic_instrument_ra, rsched_atomic_instrument,
    rsched_atomic_load_i32, rsched_atomic_load_u32, rsched_atomic_load_ptr, rsched_atomic_store_i32,
    rsched_atomic_store_u32, rsched_atomic_store_ptr, rsched_atomic_compare_exchange_i32,
    rsched_atomic_compare_exchange_u32, rsched_atomic_fetch_add_i32, rsched_atomic_fetch_add_u32,
    rsched_atomic_fetch_xor_i32, rsched_atomic_fetch_xor_u32;
    try lazymatch goal with |- triple _ _ _ _ (Bind (Bind _ _) _) _ => apply triple_assoc end;
    (eapply triple_bind; [by apply triple_schedule_memop|intros ?]);
    try (eapply triple_bind; [first [apply triple_load | apply triple_store | apply triple_compare_exchange]|intros ?]);
    first [apply triple_ret_any | apply triple_load | apply triple_rmw].
Qed.
End Api.
