(* ===== verification/Conduct.v ===== *)
(** What a thread does to the state of the process, function by function.

    A second set of triples, beside those of Discipline.v: while [self] runs library
    code the state stays [sane], the other threads keep their places, and no panic
    happens but the expected ones.  They hold for a build without the
    thread-sanitizer feature; Safety.v puts the two sets together. *)
From S2P Require Import Prelude Event Scheduler Machine State WellFormed StateSpecs Integrity Runtime Memory Api Atomics Discipline.
Import StateOps.

(** * Assertions *)

(** The part of [moves] that also holds when a thread is registered. *)
Record respects {Sch} (self : PthreadT) (s s' : State Sch) : Prop := mkRespects {
  respects_queue v p : v ∈ queue s' p -> v ∈ queue s p \/ v = self;
  respects_joiner pt v : joined_by s' pt v -> joined_by s pt v \/ v = self;
  respects_live v : v <> self -> live s v -> live s' v;
  respects_block v : v <> self -> live s v -> blocked_in s' v = true -> blocked_in s v = true;
  respects_started v : v = self \/ live s v -> started s v = true -> started s' v = true
}.

(** What POSIX asks of the call that is made, of the state in which a segment of it
    begins: a mutex that is destroyed or a barrier that is initialised has no waiters, a
    thread is joined by one thread. *)
Class Contract : Type := contract : State BoxScheduler -> Prop.

Section Assertions.
Context {X : Contract}.
Implicit Types (w : World) (s : State BoxScheduler).

#[local] Arguments queue : simpl never.

#[export] Instance respects_preorder self : PreOrder (@respects BoxScheduler self).
Proof.
  split; [intros s; split; eauto|]. intros s1 s2 s3 [Q1 J1 L1 B1 S1] [Q2 J2 L2 B2 S2]. split.
  - intros v p Hv. destruct (Q2 v p Hv); [by apply Q1|by right].
  - intros pt v Hv. destruct (J2 pt v Hv); [by apply J1|by right].
  - eauto.
  - intros v Hne Hl Hb. auto.
  - intros v Hv Hs. apply S2; [|by apply S1]. destruct (decide (v = self)) as [|Hne]; [by left|right].
    destruct Hv as [|Hl]; [done|auto].
Qed.

Lemma moves_respects self s s' : moves self s s' -> respects self s s'.
Proof.
  intros M. split.
  - apply M.
  - apply M.
  - intros v Hne. by apply (moves_live self s s').
  - intros v Hne Hl Hb. apply (moves_live self s s') in Hl as (th' & Hth' & _); [|done|done].
    destruct (moves_info _ _ _ M v th' Hne Hth') as (th & Hth & _ & Hbl).
    unfold blocked_in in *. rewrite Hth' in Hb. rewrite Hth. auto.
  - intros v _. apply M.
Qed.

(** A third thread keeps its place. *)
Lemma respects_place self v q j s s' :
  respects self s s' -> v <> self -> at_place v true q j s -> at_place v true q j s'.
Proof.
  intros [Q J L B _] Hne [H1 H2 H3]. split.
  - split; [done|]. intros _. apply L; [done|]. by apply H1.
  - intros p Hp. destruct (Q v p Hp); [by apply H2|done].
  - intros pt Hp. destruct (J pt v Hp); [by apply H3|done].
Qed.

(** Whoever wakes [v] found it free to go on. *)
Definition may_go s (v : PthreadT) : Prop := blocked_in s v = false /\ started s v = true.

Lemma respects_may_go self v s s' :
  respects self s s' -> v <> self -> live s v -> may_go s v -> may_go s' v.
Proof.
  intros R Hne Hl [Hb Hs]. split; [|by apply (respects_started _ _ _ R); [right|]].
  destruct (blocked_in s' v) eqn:Hb'; [|done]. apply (respects_block _ _ _ R v Hne Hl) in Hb'. congruence.
Qed.

(** No thread is live: before the initialisation, and while it registers the
    first one. *)
Definition blank w : Prop := forall s v, STATE w = Some s -> ~ live s v.

(** The segment that begins in [w0] obeys the contract of its call, and nobody was
    forgotten before. *)
Definition kept w0 : Prop :=
  (blank w0 -> spawned w0 = []) /\ forall s0, STATE w0 = Some s0 -> contract s0 /\ tidy s0.

(** What a segment of [self] that began in [w0] leaves to the others.  A thread it
    creates has an id that no live thread has. *)
Record passes (self : PthreadT) w0 w : Prop := mkPasses {
  passes_state : blank w0 \/ exists s0 s, STATE w0 = Some s0 /\ STATE w = Some s /\ respects self s0 s;
  passes_new v s : STATE w = Some s -> live s v ->
    v = self \/ spawned_in w v \/ exists s0, STATE w0 = Some s0 /\ live s0 v;
  passes_spawned v : spawned_in w v ->
    spawned_in w0 v \/
    v <> self /\ (forall s0, STATE w0 = Some s0 -> ~ live s0 v) /\
      exists s, STATE w = Some s /\ at_place v true None None s;
  passes_nodup : NoDup (fst <$> spawned w0) -> NoDup (fst <$> spawned w);
  passes_started s : STATE w = Some s -> live s self ->
    (forall s0, STATE w0 = Some s0 -> live s0 self -> started s0 self = true) -> started s self = true;
  passes_kept v : spawned_in w0 v -> spawned_in w v;
  passes_parked v : v <> self -> parked w !! v = parked w0 !! v \/ parked w !! v = None;
  passes_woken v s0 s : v <> self -> STATE w0 = Some s0 -> live s0 v -> parked w0 !! v = Some (SuspendCond v) -> parked w !! v = None ->
    STATE w = Some s -> live s v -> may_go s v;
  passes_tidy s : kept w0 -> STATE w = Some s -> tidy s
}.

(** The assertion of the triples: [φ] of the state. *)
Record good (self : PthreadT) (φ : State BoxScheduler -> Prop) w0 w : Prop := mkGood {
  good_state : exists s, STATE w = Some s /\ sane s /\ φ s;
  good_inited : INITED w = true;
  good_my : MY_PT w !! self = Some self;
  good_parked : parked_ok w;
  good_passes : passes self w0 w
}.

(** Initialised, but [self] is not registered yet. *)
Record unregistered (self : PthreadT) w0 w : Prop := mkUnregistered {
  unreg_start : blank w0;
  unreg_blank : blank w;
  unreg_state : exists s, STATE w = Some s /\ sane s;
  unreg_inited : INITED w = true;
  unreg_my : MY_PT w !! self = Some self;
  unreg_parked_ok : parked_ok w;
  unreg_spawned : spawned w = spawned w0;
  unreg_parked v : v <> self -> parked w !! v = parked w0 !! v
}.

(** Nobody else can be picked. *)
Definition no_other (self : PthreadT) s : Prop := forall v, v <> self -> ~ runnable s v.

(** The processor is handed over: to a thread that waits for its turn and has been
    signalled, or nobody is left that can be picked. *)
Definition handed (self : PthreadT) w : Prop :=
  (exists next, next <> self /\ flagged w next /\ parked w !! next <> Some (SuspendCond next)) \/
  exists s, STATE w = Some s /\ forall v, ~ runnable s v.

(** The processor is kept. *)
Definition keeps (self : PthreadT) w : Prop :=
  forall s, STATE w = Some s -> blocked_in s self = true -> no_other self s.

(** The guarantee at a suspension.  If [h] holds a thread that gives up its turn hands
    it over: for a running thread [h] is the law of [pthread_cond_signal]; one that is
    being started has no turn.  A blocked thread keeps its turn in [pthread_join] only
    when nobody else can be picked. *)
Definition Guar2 (h : Prop) (self : PthreadT) (b : Blocker) w0 w : Prop :=
  ((exists q j, good self (at_place self true q j) w0 w) /\
   (forall c, b = OnCond c -> parked w !! self = Some c) /\
   (forall c, b = OnCond (SuspendCond c) -> h -> handed self w) /\
   (forall t, b = OnJoin t -> keeps self w)) \/
  b = OnGmtx /\ unregistered self w0 w.

(** Since [w], the others may have released [self], and not touched it otherwise. *)
Definition later (self : PthreadT) s s' : Prop :=
  live s' self /\ (forall p, self ∈ queue s' p -> self ∈ queue s p) /\
  (forall pt, joined_by s' pt self -> joined_by s pt self).

Definition since (self : PthreadT) w w' : Prop :=
  (blank w -> STATE w' = STATE w) /\
  forall s, STATE w = Some s -> live s self ->
    exists s', STATE w' = Some s' /\ later self s s'.

(** What it relies on: whoever wakes [self] found it runnable, and whoever it joins
    has exited. *)
Definition Rely2 (self : PthreadT) (b : Blocker) w w' : Prop :=
  INITED w' = true /\ MY_PT w' !! self = Some self /\ parked_ok w' /\ since self w w' /\
  forall s', STATE w' = Some s' -> sane s' /\
    match b with
    | OnCond (SuspendCond _) => may_go s' self
    | OnJoin t => ~ joined_by s' t self
    | _ => True
    end.

(** The segment that ends in [w] is followed by another. *)
Lemma passes_refl self w : (forall s, STATE w = Some s -> sane s) -> is_Some (STATE w) -> passes self w w.
Proof.
  intros Hs [s E]. split.
  - right. exists s, s. by split; [|split].
  - intros v s' E' Hl. right. right. by exists s'.
  - by left.
  - done.
  - auto.
  - done.
  - by left.
  - intros v s0 s' _ _ _ Hp Hp'. congruence.
  - intros s' [_ Hk] E'. by apply Hk.
Qed.

Lemma good_restart self φ w0 w : good self φ w0 w -> good self φ w w.
Proof.
  intros [(s & E & Hs & Hφ) Hi Hm Hp _]. split; [by exists s|done|done|done|].
  apply passes_refl; [|by eexists]. intros s' E'. by simplify_eq.
Qed.

Lemma good_weaken self (φ ψ : State BoxScheduler -> Prop) w0 w :
  (forall s, sane s -> φ s -> ψ s) -> good self φ w0 w -> good self ψ w0 w.
Proof. intros H [(s & E & Hs & Hφ) Hi Hm Hp HP]. split; try done. exists s. auto. Qed.

Lemma later_place self q j s s' : later self s s' -> at_place self true q j s -> at_place self true q j s'.
Proof. intros (H1 & H2 & H3) [A1 A2 A3]. split; [done|auto|auto]. Qed.

(** A step that does not touch what the assertion speaks of. *)
Lemma passes_same self w0 w w' :
  STATE w' = STATE w -> spawned w' = spawned w -> parked w' = parked w ->
  passes self w0 w -> passes self w0 w'.
Proof.
  intros Es Ep Ek [P1 P2 P3 P4 P8 P5 P6 P7 P9]. unfold spawned_in in *.
  split; unfold spawned_in; rewrite ?Es, ?Ek, ?Ep; done.
Qed.

Lemma good_same self φ w0 w w' :
  STATE w' = STATE w -> spawned w' = spawned w -> parked w' = parked w -> MY_PT w' = MY_PT w ->
  INITED w' = INITED w -> good self φ w0 w -> good self φ w0 w'.
Proof.
  intros Es Ep Ek Em Ei [H1 H2 H3 H4 H5]. split; unfold parked_ok; rewrite ?Es, ?Em, ?Ei, ?Ek; try done.
  by eapply passes_same, H5.
Qed.

Lemma unregistered_same self w0 w w' :
  STATE w' = STATE w -> spawned w' = spawned w -> parked w' = parked w -> MY_PT w' = MY_PT w ->
  INITED w' = INITED w -> unregistered self w0 w -> unregistered self w0 w'.
Proof.
  intros Es Ep Ek Em Ei [H1 H2 H3 H4 H5 H6 H7 H8].
  split; unfold blank, parked_ok in *; rewrite ?Es, ?Em, ?Ei, ?Ep, ?Ek; auto.
Qed.

(** The state changes by an operation of [self]. *)
Lemma passes_fair self w0 w s s' :
  STATE w = Some s -> fair self s s' -> (kept w0 -> tidies s s') -> passes self w0 w ->
  passes self w0 (set_STATE (Some s') w).
Proof.
  intros E [Hs M] HT [P1 P2 P3 P4 P8 P5 P6 P7 P9]. assert (R := moves_respects _ _ _ M). split; simpl; try done.
  - destruct P1 as [|(s0 & s1 & E0 & E1 & R1)]; [by left|right]. exists s0, s'. simplify_eq.
    split; [done|]. split; [done|]. etrans; [exact R1|exact R].
  - intros v s1 [= <-] Hl. destruct (decide (v = self)) as [->|Hne]; [by left|].
    apply (P2 v s E). by apply (moves_live self s s').
  - intros v Hv. destruct (P3 v Hv) as [|(Hne & Hnl & s1 & E1 & Ha)]; [by left|right]. simplify_eq.
    split; [done|]. split; [done|]. exists s'. split; [done|]. by eapply respects_place.
  - intros s1 [= <-] Hl H0. apply (moves_started _ _ _ M). by apply (P8 s); [|apply (moves_born _ _ _ M)|].
  - intros v s0 s1 Hne E0 Hl0 Hp Hp' [= <-] Hl. apply (moves_live self s s') in Hl; [|done|done].
    eapply respects_may_go; [exact R|done|done|]. by apply (P7 v s0 s).
  - intros s1 Hk [= <-]. apply HT; [done|]. by apply P9.
Qed.

Lemma good_fair self (φ ψ : State BoxScheduler -> Prop) w0 w s s' :
  STATE w = Some s -> fair self s s' -> (kept w0 -> tidies s s') -> ψ s' -> good self φ w0 w ->
  good self ψ w0 (set_STATE (Some s') w).
Proof.
  intros E Hl HT Hψ [(s1 & E1 & Hs & Hφ) Hi Hm Hp HP]. split; try done.
  - exists s'. split; [done|]. split; [apply Hl|done].
  - exact (passes_fair self w0 w s s' E Hl HT HP).
Qed.

Lemma good_lawful self (φ ψ : State BoxScheduler -> Prop) w0 w s s' :
  STATE w = Some s -> lawful self s s' -> ψ s' -> good self φ w0 w -> good self ψ w0 (set_STATE (Some s') w).
Proof. intros E [Hl HT] Hψ HG. by eapply good_fair, HG. Qed.

(** The contract holds until the thread acts: the others are where they were. *)
Lemma kept_queue self p q w0 w s :
  kept w0 -> (forall s0, contract s0 -> queue s0 p = []) -> good self (at_place self true q None) w0 w ->
  STATE w = Some s -> q <> Some p -> queue s p = [].
Proof.
  intros [Hb Hk] Hc [(s1 & E1 & Hs & Ha) _ _ _ HP] E Hq. assert (s1 = s) as -> by congruence.
  apply elem_of_nil_inv. intros v Hv. assert (Hself : v <> self) by (intros ->; by apply Ha in Hv).
  destruct (passes_state _ _ _ HP) as [Hbl|(s0 & s2 & E0 & E2 & R)].
  - destruct (passes_new _ _ _ HP v s E) as [|[Hsp|(s0 & E0 & Hl)]]; [by eapply sane_queue|done| |by apply (Hbl s0 v)].
    destruct (passes_spawned _ _ _ HP v Hsp) as [[sa Hsa]|(_ & _ & s2 & E2 & Hat)].
    + rewrite Hb in Hsa by done. by apply elem_of_nil in Hsa.
    + assert (s2 = s) as -> by congruence. by apply Hat in Hv.
  - assert (s2 = s) as -> by congruence. destruct (respects_queue _ _ _ R v p Hv) as [Hv0|]; [|done].
    rewrite Hc in Hv0 by by apply Hk. by apply elem_of_nil in Hv0.
Qed.

Lemma kept_joiner self t q w0 w s v :
  kept w0 -> (forall s0, contract s0 -> forall x, joined_by s0 t x -> x = self) ->
  good self (at_place self true q None) w0 w -> STATE w = Some s -> joined_by s t v -> v = self.
Proof.
  intros [Hb Hk] Hc [(s1 & E1 & Hs & Ha) _ _ _ HP] E Hv. assert (s1 = s) as -> by congruence.
  destruct (passes_state _ _ _ HP) as [Hbl|(s0 & s2 & E0 & E2 & R)].
  - destruct (passes_new _ _ _ HP v s E) as [|[Hsp|(s0 & E0 & Hl)]]; [by eapply sane_joiner|done| |by destruct (Hbl s0 v)].
    destruct (passes_spawned _ _ _ HP v Hsp) as [[sa Hsa]|(_ & _ & s2 & E2 & Hat)].
    + rewrite Hb in Hsa by done. by apply elem_of_nil in Hsa.
    + assert (s2 = s) as -> by congruence. by apply (at_join _ _ _ _ _ Hat) in Hv.
  - assert (s2 = s) as -> by congruence. destruct (respects_joiner _ _ _ R t v Hv) as [Hv0|]; [|done].
    eapply Hc, Hv0. by apply Hk.
Qed.

(** [self] becomes the first live thread. *)
Lemma good_register self w0 w s th :
  STATE w = Some s -> pthread th = self -> is_exited th = false -> joiner th = None ->
  startup_done th = true -> is_blocking th = false -> unregistered self w0 w -> good self (idle self) w0 (set_STATE (Some (add th s)) w).
Proof.
  intros E <- He Hj Hst Hbk [U1 U2 (s1 & E1 & Hs) U4 U5 U8 U6 U7]. rewrite E in E1. injection E1 as <-.
  assert (Hn : forall v, ~ live s v) by (intros v; by apply U2).
  assert (Hs' : sane (add th s)) by by apply add_sane.
  assert (Hlive : forall v, live (add th s) v -> v = pthread th).
  { intros v (t0 & H0 & E0). simpl in H0. rewrite lookup_insert in H0. case_decide; [done|].
    destruct (Hn v). by exists t0. }
  assert (Hsp : forall v, spawned_in (set_STATE (Some (add th s)) w) v <-> spawned_in w0 v).
  { intros v. unfold spawned_in. simpl. by rewrite U6. }
  split; try done.
  - exists (add th s). split; [done|]. split; [done|]. split.
    + split; [done|]. intros _. exists th. simpl. by rewrite lookup_insert_eq.
    + intros p Hp. assert (Hq : pthread th ∈ queue s p) by (by destruct p).
      apply (sane_queue _ Hs) in Hq. by destruct (Hn (pthread th)).
    + intros pt (t0 & H0 & E0 & E2). simpl in H0. rewrite lookup_insert in H0. case_decide.
      * by simplify_eq.
      * destruct (Hn pt). by exists t0.
  - split; simpl.
    + by left.
    + intros v s2 [= <-] Hl. left. by apply Hlive.
    + intros v Hv. left. by apply Hsp.
    + by rewrite U6.
    + intros s2 [= <-] _ _. unfold started. simpl. by rewrite lookup_insert_eq.
    + intros v Hv. by apply Hsp.
    + intros v Hv. left. by apply U7.
    + intros v s0 s2 Hv E0 Hl0. by destruct (U1 s0 v E0).
    + intros s2 _ [= <-]. apply add_tidies; [by apply Hn|done|done|]. by apply tidy_blank.
Qed.
End Assertions.

Abbreviation TH h self P p Q := (triple (Guar2 h self) (Rely2 self) (fun e => expected_panic e = true) P p Q).

Section Runtime.
Context {X : Contract}.
Context (cfg : Cfg) (L : Libc) (env : string -> option string).
Context (h : Prop) (law : h -> SignalLaw L) (self : PthreadT).
Hypothesis no_tsan : tsan cfg = false.

Implicit Types (φ ψ : State BoxScheduler -> Prop) (s : State BoxScheduler).

(** * Primitive steps *)
Lemma act2 A (f : World -> result (A * World)) (Pre : World -> World -> Prop) (Q : A -> World -> World -> Prop) :
  (forall w0 w, Pre w0 w -> outcome_ok (f w) (fun p => Q (fst p) w0 (snd p))) -> TH h self Pre (Act f) Q.
Proof. intros H w0 w HP. specialize (H w0 w HP). simpl. destruct (f w) as [[a w']|e]; exact H. Qed.

Lemma ret2 A (a : A) Pre : TH h self Pre (Ret a) (fun _ => Pre).
Proof. by intros w0 w H. Qed.

Lemma weaken2 A (p : P A) (Pre Pre' : World -> World -> Prop) (Q Q' : A -> World -> World -> Prop) :
  TH h self Pre p Q -> (forall w0 w, Pre' w0 w -> Pre w0 w) -> (forall a w0 w, Q a w0 w -> Q' a w0 w) ->
  TH h self Pre' p Q'.
Proof. intros H HP HQ. by eapply triple_weaken. Qed.

Lemma pure2 A (C : Prop) (Pre : World -> World -> Prop) (p : P A) Q :
  (C -> TH h self Pre p Q) -> TH h self (fun w0 w => C /\ Pre w0 w) p Q.
Proof. intros H w0 w [HC HP]. by apply (H HC). Qed.

Lemma read2 A (f : State BoxScheduler -> result A) φ (ψ : A -> State BoxScheduler -> Prop) :
  (forall s, sane s -> φ s -> outcome_ok (f s) (fun a => ψ a s)) ->
  TH h self (good self φ) (read_state f) (fun a => good self (ψ a)).
Proof.
  intros Hf. apply act2. intros w0 w [(s & E & Hs & Hφ) Hi Hm HP]. rewrite E. simpl.
  apply outcome_bind. eapply outcome_mono; [by apply Hf|]. intros a _ Ha. simpl.
  split; try done. by exists s.
Qed.

(** A reader that cannot fail. *)
Lemma look2 A (f : State BoxScheduler -> A) φ :
  TH h self (good self φ) (read_state (fun s => Ok (f s))) (fun _ => good self φ).
Proof. by apply read2. Qed.

Lemma with2 A (f : State BoxScheduler -> result (A * State BoxScheduler)) φ (ψ : A -> State BoxScheduler -> Prop) :
  (forall s, sane s -> φ s -> does self s (f s) ψ) ->
  TH h self (good self φ) (with_state f) (fun a => good self (ψ a)).
Proof.
  intros Hf. apply act2. intros w0 w HG. destruct (good_state _ _ _ _ HG) as (s & E & Hs & Hφ).
  rewrite E. simpl. apply outcome_bind. eapply outcome_mono; [by apply Hf|].
  intros [a s'] _ [Hl Ha]. simpl. by eapply good_lawful.
Qed.

Lemma update2 (f : State BoxScheduler -> result (State BoxScheduler)) φ ψ :
  (forall s, sane s -> φ s -> updates self s (f s) ψ) ->
  TH h self (good self φ) (update_state f) (fun _ => good self ψ).
Proof.
  intros Hf. apply with2. intros s Hs Hφ. apply outcome_bind.
  eapply outcome_mono; [by apply Hf|]. intros s' _ [Hl Ha]. by split.
Qed.

(** An operation that needs the contract of the call. *)
Lemma fair2 (f : State BoxScheduler -> result (State BoxScheduler)) (C : State BoxScheduler -> Prop) φ ψ :
  (forall w0 w s, good self φ w0 w -> kept w0 -> STATE w = Some s -> C s) ->
  (forall s, sane s -> φ s -> outcome_ok (f s) (fun s' => (fair self s s' /\ ψ s') /\ (C s -> tidies s s'))) ->
  TH h self (good self φ) (update_state f) (fun _ => good self ψ).
Proof.
  intros HC Hf. apply act2. intros w0 w HG. destruct (good_state _ _ _ _ HG) as (s & E & Hs & Hφ).
  rewrite E. simpl. apply outcome_bind, outcome_bind. eapply outcome_mono; [by apply Hf|].
  intros s' _ [[Hl Ha] HT]. simpl. eapply good_fair; [done|done| |done|exact HG]. intros Hk. by eapply HT, HC.
Qed.

Lemma world2 (f : World -> World) φ :
  (forall w, STATE (f w) = STATE w /\ spawned (f w) = spawned w /\ parked (f w) = parked w /\
             MY_PT (f w) = MY_PT w /\ INITED (f w) = INITED w) ->
  TH h self (good self φ) (modify_world f) (fun _ => good self φ).
Proof.
  intros Hf. apply act2. intros w0 w HG. destruct (Hf w) as (? & ? & ? & ? & ?). simpl.
  by eapply good_same.
Qed.

Lemma real_call2 c φ : TH h self (good self φ) (real_call L self c) (fun _ => good self φ).
Proof. apply act2. intros w0 w HG. simpl. by eapply good_same, HG. Qed.

Lemma box_new2 b φ : TH h self (good self φ) (box_new b) (fun _ => good self φ).
Proof. apply act2. intros w0 w HG. simpl. by eapply good_same, HG. Qed.

Lemma box_free2 sa φ : TH h self (good self φ) (box_free sa) (fun _ => good self φ).
Proof.
  apply act2. intros w0 w HG. destruct (boxes w !! sa); simpl; [|done]. by eapply good_same, HG.
Qed.

Lemma box_set_ready2 sa φ : TH h self (good self φ) (box_set_ready sa) (fun _ => good self φ).
Proof.
  apply act2. intros w0 w HG. destruct (boxes w !! sa); simpl; [|done]. by eapply good_same, HG.
Qed.

Lemma read_box2 A sa (f : StartArg -> A) φ : TH h self (good self φ) (read_box sa f) (fun _ => good self φ).
Proof. apply act2. intros w0 w HG. by destruct (boxes w !! sa). Qed.

Lemma my_pt2 φ : TH h self (good self φ) (my_pt self) (fun c w0 w => c = self /\ good self φ w0 w).
Proof. apply act2. intros w0 w HG. simpl. split; [|done]. by rewrite (good_my _ _ _ _ HG). Qed.

Lemma bind_my_pt2 A (k : PthreadT -> P A) φ Q :
  TH h self (good self φ) (k self) Q -> TH h self (good self φ) (Bind (my_pt self) k) Q.
Proof. intros Hk. eapply triple_bind; [apply my_pt2|]. intros c. by apply pure2; intros ->. Qed.

Lemma tsan_call2 c Pre : TH h self Pre (tsan_call cfg L self c) (fun _ => Pre).
Proof. unfold tsan_call. rewrite no_tsan. apply ret2. Qed.

(** Assertions that do not speak of the call depth. *)
Definition undepth (Pre : World -> World -> Prop) : Prop :=
  forall w0 w x, Pre w0 w -> Pre w0 (set_CALL_DEPTH x w).

Lemma undepth_good φ : undepth (good self φ).
Proof. intros w0 w x HG. by eapply good_same, HG. Qed.
Lemma undepth_unregistered : undepth (unregistered self).
Proof. intros w0 w x HG. by eapply unregistered_same, HG. Qed.
#[local] Hint Resolve undepth_good undepth_unregistered : core.

Lemma depth_enter2 Pre : undepth Pre -> TH h self Pre (depth_enter self) (fun _ => Pre).
Proof. intros Hu. apply act2. intros w0 w HP. by apply Hu. Qed.
Lemma depth_exit2 Pre : undepth Pre -> TH h self Pre (depth_exit self) (fun _ => Pre).
Proof. intros Hu. apply act2. intros w0 w HP. by apply Hu. Qed.

Lemma internal2 A (p : P A) (Pre : World -> World -> Prop) (Q : A -> World -> World -> Prop) :
  undepth Pre -> (forall a, undepth (Q a)) -> TH h self Pre p Q -> TH h self Pre (with_internal_depth self p) Q.
Proof.
  intros HP HQ Hp. eapply triple_bind; [by apply depth_enter2|intros ?].
  eapply triple_bind; [exact Hp|intros r].
  eapply triple_bind; [by apply depth_exit2|intros ?]. intros w0 w HG; exact HG.
Qed.

Lemma internal_good A (p : P A) φ ψ :
  TH h self (good self φ) p (fun _ => good self ψ) ->
  TH h self (good self φ) (with_internal_depth self p) (fun _ => good self ψ).
Proof. by apply internal2. Qed.

(** * Suspending *)

(** The place of [self] when it goes on. *)
Definition place_after (b : Blocker) (q : option Place) (j : option PthreadT) : State BoxScheduler -> Prop :=
  match b with
  | OnCond (SuspendCond _) => fun s => at_place self true None j s /\ may_go s self
  | OnJoin t => at_place self true q (if decide (j = Some t) then None else j)
  | _ => at_place self true q j
  end.

Lemma blocked_place q j s :
  sane s -> at_place self true q j s -> blocked_in s self = false -> at_place self true None j s.
Proof.
  intros Hs [H1 H2 H3] Hb. split; [done| |done]. intros p Hp.
  destruct (wf_waiting _ (sane_wf _ Hs) p self Hp) as (th & Hth & Hbl).
  unfold blocked_in in Hb. rewrite Hth in Hb. congruence.
Qed.

(** What [self] knows after a scheduling point: it is free to go on, or nobody else
    is left to pick. *)
Definition yielded q j s : Prop :=
  at_place self true q j s /\ (blocked_in s self = true -> no_other self s).

Lemma suspend2 b q j :
  TH h self (fun w0 w => good self (at_place self true q j) w0 w /\
               (forall c, b = OnCond c -> parked w !! self = Some c) /\
               (forall c, b = OnCond (SuspendCond c) -> h -> handed self w) /\
               (forall t, b = OnJoin t -> keeps self w))
    (Suspend b) (fun _ => good self (place_after b q j)).
Proof.
  intros w0 w (HG & Hc & Hh & Hj). split; [left; split; [by exists q, j|done]|].
  intros w' (Hi & Hm & Hk & [_ Hsince] & Hst). simpl.
  destruct HG as [(s & E & Hs & Ha) _ _ _ _].
  destruct (Hsince s E) as (s' & E' & Hl); [by apply Ha|]. destruct (Hst s' E') as [Hs' Hb].
  apply (later_place _ _ _ _ _ Hl) in Ha. split; [|done|done|done|].
  - exists s'. split; [done|]. split; [done|]. destruct b as [|[c|sa]|t]; simpl; [done| |done|].
    + split; [|done]. eapply blocked_place; [done|done|apply Hb].
    + destruct Ha as [H1 H2 H3]. split; [done|done|]. intros pt Hp. specialize (H3 pt Hp).
      case_decide as Hd; [|done]. congruence.
  - apply passes_refl; [|by eexists]. intros s1 E1. by destruct (Hst s1 E1).
Qed.

Lemma suspend_mutex2 q j :
  TH h self (good self (at_place self true q j)) (Suspend OnGmtx) (fun _ => good self (at_place self true q j)).
Proof. eapply weaken2; [apply (suspend2 OnGmtx q j)|by intros|done]. Qed.

Lemma suspend_join2 t q :
  TH h self (good self (yielded q (Some t))) (Suspend (OnJoin t))
    (fun _ => good self (at_place self true q None)).
Proof.
  eapply weaken2; [apply (suspend2 (OnJoin t) q (Some t))| |].
  - intros w0 w HG. split; [eapply good_weaken, HG; by intros s _ [Ha _]|]. split; [done|]. split; [done|].
    intros _ _ s E. destruct HG as [(s1 & E1 & _ & _ & Hy) _ _ _ _]. by assert (s = s1) as -> by congruence.
  - intros []. simpl. by rewrite decide_True.
Qed.

Lemma suspend_unregistered :
  TH h self (unregistered self) (Suspend OnGmtx) (fun _ => unregistered self).
Proof.
  intros w0 w HU. split; [by right|]. intros w' (Hi & Hm & Hk & [Hsame _] & Hst).
  destruct HU as [U1 U2 (s & E & Hs) U4 U5 U8 U6 U7]. specialize (Hsame U2).
  assert (Hb : blank w') by (intros s1 v; rewrite Hsame; apply U2).
  split; try done. exists s. by rewrite Hsame.
Qed.

Lemma set_gmtx2 g φ : TH h self (good self φ) (modify_world (set_GMTX g)) (fun _ => good self φ).
Proof. by apply world2. Qed.

Lemma glock_with (Pre Post : World -> World -> Prop) :
  undepth Pre -> undepth Post -> TH h self Pre (gmtx_lock self) (fun _ => Post) ->
  TH h self Pre (rsched_glock cfg L self) (fun _ => Post).
Proof.
  intros H1 H2 Hp. eapply triple_bind; [apply internal2; [exact H1| |exact Hp]; intros ?; exact H2|intros ?].
  by apply tsan_call2.
Qed.

Lemma gmtx_lock2 q j :
  TH h self (good self (at_place self true q j)) (gmtx_lock self) (fun _ => good self (at_place self true q j)).
Proof. eapply triple_bind; [apply suspend_mutex2|intros ?]. apply set_gmtx2. Qed.

Lemma glock2 q j :
  TH h self (good self (at_place self true q j)) (glock self) (fun _ => good self (at_place self true q j)).
Proof. apply internal2; auto using gmtx_lock2. Qed.

Lemma rsched_glock2 q j :
  TH h self (good self (at_place self true q j)) (rsched_glock cfg L self)
    (fun _ => good self (at_place self true q j)).
Proof. apply glock_with; auto using gmtx_lock2. Qed.

Lemma rsched_glock_unregistered :
  TH h self (unregistered self) (rsched_glock cfg L self) (fun _ => unregistered self).
Proof.
  apply glock_with; auto. eapply triple_bind; [apply suspend_unregistered|intros ?].
  apply act2. intros w0 w HU. simpl. by eapply unregistered_same, HU.
Qed.

Lemma gunlock2 φ : TH h self (good self φ) (gunlock self) (fun _ => good self φ).
Proof.
  apply internal2; auto. apply act2. intros w0 w HG. case_bool_decide; simpl; [|done].
  by eapply good_same, HG.
Qed.

Lemma rsched_gunlock2 φ : TH h self (good self φ) (rsched_gunlock cfg L self) (fun _ => good self φ).
Proof. eapply triple_bind; [by apply tsan_call2|intros ?]. apply gunlock2. Qed.

(** * Sleeping and waking *)
Lemma good_park c φ w0 w :
  (forall x, c = SuspendCond x -> x = self) ->
  good self φ w0 w -> good self φ w0 (set_parked (<[self := c]> (parked w)) (set_GMTX None w)).
Proof.
  intros Hc [H1 H2 H3 H4 [P1 P2 P3 P4 P8 P5 P6 P7 P9]]. split; try done.
  - intros v x Hv. simpl in Hv. rewrite lookup_insert in Hv. case_decide; [|by apply H4].
    subst v. injection Hv as ->. by apply Hc.
  - split; try done; simpl.
    + intros v Hv. rewrite lookup_insert_ne by done. by apply P6.
    + intros v s0 s Hv. rewrite lookup_insert_ne by done. by apply P7.
Qed.

(** About to sleep on [c]; on its own condition after a hand-over. *)
Definition awaits c q j w0 w : Prop :=
  good self (at_place self true q j) w0 w /\
  forall x, c = SuspendCond x -> x = self /\ (h -> handed self w).

Lemma undepth_awaits c q j : undepth (awaits c q j).
Proof. intros w0 w x [HG Hc]. split; [by apply undepth_good|done]. Qed.

Lemma cond_wait2 c q j :
  TH h self (awaits c q j) (rsched_cond_wait cfg L self c)
    (fun _ => good self (place_after (OnCond c) q j)).
Proof.
  eapply triple_bind; [by apply tsan_call2|intros ?].
  eapply triple_bind; [|intros ?; by apply tsan_call2]. apply internal2; auto using undepth_awaits.
  eapply triple_bind with (M := fun _ w0 w => good self (at_place self true q j) w0 w /\
      (forall c', OnCond c = OnCond c' -> parked w !! self = Some c') /\
      (forall x, OnCond c = OnCond (SuspendCond x) -> h -> handed self w) /\
      (forall t, OnCond c = OnJoin t -> keeps self w)).
  - apply act2. intros w0 w [HG Hc]. case_bool_decide; simpl; [|done]. split; [|split; [|split; [|done]]].
    + apply good_park; [|done]. intros x Hx. by apply Hc.
    + intros c' [= <-]. simpl. apply lookup_insert_eq.
    + intros x [= Hx] Hh. destruct (Hc x Hx) as [_ Hd]. destruct (Hd Hh) as [(next & Hn & Hf & Hp)|Hd']; [left|by right].
      exists next. split; [done|]. split; [done|]. simpl. by rewrite lookup_insert_ne.
  - intros ?. eapply triple_bind; [apply suspend2|intros ?]. apply set_gmtx2.
Qed.

Lemma cond_wait_ready2 sa q j :
  TH h self (good self (at_place self true q j)) (rsched_cond_wait cfg L self (ReadyCond sa))
    (fun _ => good self (at_place self true q j)).
Proof. eapply weaken2; [exact (cond_wait2 (ReadyCond sa) q j)| |done]. by intros w0 w HG. Qed.

Lemma signal_step c φ :
  (forall s v, c = SuspendCond v -> φ s -> may_go s v) ->
  TH h self (good self φ) (pt_cond_signal L c) (fun _ => good self φ).
Proof.
  intros Hc. apply act2.
  intros w0 w [(s & E & Hs & Hφ) H2 H3 H4 [P1 P2 P3 P4 P8 P5 P6 P7 P9]]. simpl.
  assert (S := signal_parked L c w). cbv zeta in S. split; try done; [by exists s| |].
  - intros v x Hv. destruct (S v) as [Ev|[_ Ev]]; [|congruence]. rewrite Ev in Hv. by apply H4.
  - split; try done.
    + intros v Hv. destruct (S v) as [->|[_ ->]]; [auto|by right].
    + intros v s0 s' Hv E0 Hl0 Hp Hp' E' Hl. destruct (S v) as [Eq|[Eq _]].
      * apply (P7 v s0 s' Hv E0 Hl0 Hp); [congruence|done|done].
      * destruct (P6 v Hv) as [Eq'|Eq']; [|congruence]. simpl in E'.
        assert (s' = s) as -> by congruence. apply (Hc s v); congruence.
Qed.

Lemma signal_ready2 sa φ : TH h self (good self φ) (rpt_cond_signal L self (ReadyCond sa)) (fun _ => good self φ).
Proof. apply internal2; auto. by apply signal_step. Qed.

(** [next] may be woken. *)
Definition may_wake φ (next : PthreadT) s : Prop := φ s /\ runnable s next.

(** What a choice promises. *)
Definition chosen φ (o : option nat) s : Prop :=
  φ s /\ match o with
         | Some i => exists pt, threads s !! i = Some pt /\ runnable s pt
         | None => forall v, ~ runnable s v
         end.

Lemma runnable_may_go s v : runnable s v -> may_go s v.
Proof.
  intros [_ (th & Hth & He)]. unfold may_go, blocked_in, started. rewrite Hth. unfold Thread.eligible in He.
  by destruct (is_blocking th), (startup_done th).
Qed.

(** The signal reaches the one thread that sleeps on its own condition. *)
Lemma signal_reaches next w :
  SignalLaw L -> parked_ok w ->
  parked (set_parked (filter (fun p => ~ (snd p = SuspendCond next /\
    fst p ∈ signal_wakes L (history w) (SuspendCond next) (waiters_on (SuspendCond next) w))) (parked w)) w) !! next
    <> Some (SuspendCond next).
Proof.
  intros Hlaw Hok E. simpl in E. apply map_lookup_filter_Some in E as [E Hn]. apply Hn. split; [done|].
  assert (Hin : next ∈ waiters_on (SuspendCond next) w).
  { unfold waiters_on. apply list_elem_of_fmap. exists (next, SuspendCond next). split; [done|].
    apply list_elem_of_filter. split; [done|]. by apply elem_of_map_to_list. }
  destruct (signal_wakes_some (history w) (SuspendCond next) (waiters_on (SuspendCond next) w)) as (v & Hv & Hw).
  { intros E'. rewrite E' in Hin. by apply elem_of_nil in Hin. }
  unfold waiters_on in Hw. apply list_elem_of_fmap in Hw as ([v' c] & Ev & Hw).
  apply list_elem_of_filter in Hw as [Ec Hw]. simpl in Ev, Ec. subst v' c.
  apply elem_of_map_to_list in Hw. apply Hok in Hw. simpl in Hw. by subst next.
Qed.

(** [next] has been signalled. *)
Definition woken next w : Prop := h -> parked w !! next <> Some (SuspendCond next).

Lemma signal_wake2 next φ :
  TH h self (good self (may_wake φ next)) (rpt_cond_signal L self (SuspendCond next))
    (fun _ w0 w => good self (may_wake φ next) w0 w /\ woken next w).
Proof.
  eapply triple_bind; [by apply depth_enter2|intros ?].
  eapply triple_bind with (M := fun _ w0 w => good self (may_wake φ next) w0 w /\ woken next w).
  - intros w0 w HG. assert (Hw := signal_step (SuspendCond next) (may_wake φ next)). 
    specialize (Hw ltac:(intros s v [= <-] [_ Hr]; by apply runnable_may_go) w0 w HG). split; [exact Hw|].
    intros Hh. apply signal_reaches; [by apply law|apply HG].
  - intros ?. eapply triple_bind; [apply depth_exit2|intros ?; by intros w0 w HW].
    intros w0 w x [HG Hw]. split; [by apply undepth_good|done].
Qed.

Lemma thread_at2 idx φ :
  TH h self (good self (chosen φ (Some idx))) (thread_at idx) (fun next => good self (may_wake φ next)).
Proof. apply read2. intros s _ [Ha (pt & Hpt & Hr)]. rewrite Hpt. by split. Qed.

Lemma known_next2 A next φ (f : State BoxScheduler -> result A) :
  (forall s th, info s !! next = Some th -> exists a, f s = Ok a) ->
  TH h self (good self (may_wake φ next)) (read_state f) (fun _ => good self (may_wake φ next)).
Proof.
  intros Hf. apply read2. intros s _ [Ha Hr]. assert (Hr' := Hr). destruct Hr' as [_ (th & Hth & He)].
  destruct (Hf s th Hth) as [a ->]. by split.
Qed.

Lemma mark2 b q j :
  TH h self (good self (at_place self true q j)) (update_state (modify self (Thread.set_in_wait b)))
    (fun _ => good self (at_place self true q j)).
Proof.
  apply update2. intros s Hs Ha. apply neutral_updates; [done|done|done|].
  by apply live_known, Ha.
Qed.

Lemma wait_ready2 sa q j :
  TH h self (good self (at_place self true q j)) (wait_ready cfg L self sa)
    (fun _ => good self (at_place self true q j)).
Proof.
  apply (triple_iter _ _ _ _ _ _ _ _ tt (fun _ => good self (at_place self true q j))). intros [].
  eapply triple_bind; [apply read_box2|intros []]; [by intros w0 w H|].
  eapply triple_bind; [apply cond_wait_ready2|intros ?]. by intros w0 w H.
Qed.

Lemma drain2 q j :
  TH h self (good self (at_place self true q j)) (drain_pending_child cfg L self)
    (fun _ => good self (at_place self true q j)).
Proof.
  eapply triple_bind.
  { apply with2 with (ψ := fun _ => at_place self true q j). intros s Hs Ha.
    apply (same_updates self s (set_pending_child None s)); done. }
  intros [[sa child]|]; [|apply ret2].
  eapply triple_bind; [apply wait_ready2|intros ?].
  eapply triple_bind; [apply box_free2|intros ?].
  apply update2. intros s Hs Ha. case_bool_decide as Hk.
  - by apply neutral_updates.
  - apply same_updates; done.
Qed.

(** [self] marks itself as waiting. *)
Lemma in_wait_handed f s s' w :
  (forall th, f th = Thread.set_in_wait true th) -> sane s ->
  modify self f s = Ok s' -> (blocked_in s self = true /\ no_other self s) -> handed self (set_STATE (Some s') w).
Proof.
  intros Hf Hs E [Hb Hno]. right. exists s'. split; [done|].
  apply modify_self_Ok in E as (th & Hth & ->). rewrite Hf. intros v [Hv (tv & Htv & He)]. simpl in Hv, Htv.
  rewrite lookup_insert in Htv. case_decide as Hd.
  - subst v. injection Htv as <-. unfold blocked_in in Hb. rewrite Hth in Hb.
    unfold Thread.eligible in He. simpl in He. by rewrite Hb in He.
  - apply (Hno v); [congruence|]. split; [done|]. by exists tv.
Qed.

(** It signals [next], marks itself and sleeps. *)
Lemma give_way2 next q j :
  next <> self ->
  TH h self (fun w0 w => good self (may_wake (at_place self true q j) next) w0 w /\ woken next w)
    (update_state (modify_unwrap self (Thread.set_in_wait true))) (fun _ => awaits (SuspendCond self) q j).
Proof.
  intros Hne. apply act2. intros w0 w [HG Hw]. assert (HG' := HG).
  destruct HG' as [(s & E & Hs & Ha & Hr) _ _ _ _]. rewrite E. simpl.
  destruct (at_known _ _ _ _ Ha) as (th & Hth & _).
  rewrite (modify_unwrap_modify _ _ _ th) by done. apply outcome_bind, outcome_bind.
  eapply outcome_mono; [apply (neutral_updates self self (Thread.set_in_wait true) s true q j); [done|done|done|by eexists]|].
  intros s' Em [Hl Ha']. simpl. split; [by eapply good_lawful|]. intros x [= <-]. split; [done|]. intros Hh. left.
  exists next. split; [done|]. split; [|by apply Hw]. apply modify_self_Ok in Em as (t0 & Ht0 & ->).
  destruct Hr as [_ (tn & Htn & He)]. unfold flagged, flag_of. simpl. rewrite lookup_insert_ne by done.
  rewrite Htn. unfold Thread.eligible in He. by destruct (is_in_rsched_wait tn), (is_blocking tn), (startup_done tn).
Qed.

(** Back from its sleep. *)
Lemma awake2 f q j :
  (forall s, f s = modify self (Thread.set_in_wait false) s \/ f s = modify_unwrap self (Thread.set_in_wait false) s) ->
  TH h self (good self (place_after (OnCond (SuspendCond self)) q j)) (update_state f)
    (fun _ => good self (fun s => at_place self true None j s /\ may_go s self)).
Proof.
  intros Hf. apply update2. intros s Hs [Ha Hm]. destruct (at_known _ _ _ _ Ha) as (th & Hth & _).
  replace (f s) with (modify self (Thread.set_in_wait false) s).
  2: { destruct (Hf s) as [-> | ->]; [done|]. by rewrite (modify_unwrap_modify _ _ _ th). }
  apply updates_and; [apply neutral_updates; eauto; done|]. intros s' E _.
  apply modify_self_Ok in E as (t0 & Ht0 & ->). unfold may_go, blocked_in, started in *. simpl.
  rewrite lookup_insert_eq. by rewrite Ht0 in Hm.
Qed.

Lemma wake2 next q j :
  TH h self (good self (may_wake (at_place self true q j) next))
    (wake cfg L self next true self)
    (fun _ => good self (fun s => at_place self true q j s /\ may_go s self)).
Proof.
  unfold wake, when. destruct (Z.eqb_spec next self) as [->|Hne]; simpl negb; cbv iota.
  { intros w0 w HG. eapply good_weaken, HG. intros s _ [Ha Hr]. split; [done|by apply runnable_may_go]. }
  eapply triple_bind; [apply known_next2; intros s th Hth; rewrite Hth; by eexists|intros ?].
  eapply triple_bind; [apply signal_wake2|intros ?].
  eapply triple_bind; [by apply give_way2|intros ?].
  eapply triple_bind; [apply cond_wait2|intros ?].
  eapply weaken2; [apply awake2; by right|done|]. intros ? w0 w HG. eapply good_weaken, HG.
  intros s _ [Ha Hm]. split; [by eapply at_place_weaken, Ha|done].
Qed.

Lemma deliver_event2 ev q j :
  TH h self (good self (fun s => at_place self true q j s /\ may_go s self)) (deliver_event ev)
    (fun _ => good self (fun s => at_place self true q j s /\ may_go s self)).
Proof.
  eapply triple_bind.
  - apply with2 with (ψ := fun _ s => at_place self true q j s /\ may_go s self). intros s Hs [Ha Hm].
    destruct (on_event _ _) as [sch out].
    destruct (same_updates self s (set_scheduler sch s) true q j) as [Hl Ha']; done.
  - intros out. by apply world2.
Qed.

(** Nobody else is registered. *)
Lemma alone_yields q j s :
  sane s -> at_place self true q j s -> (length (threads s) <= 1)%nat -> yielded q j s.
Proof.
  intros Hs Ha Hlen. split; [done|]. intros _ v Hne [Hv _].
  assert (Hself : self ∈ threads s) by (apply (sane_listed _ Hs), Ha; done).
  destruct (threads s) as [|x [|y l]]; simpl in Hlen; [by apply elem_of_nil in Hv| |lia].
  apply list_elem_of_singleton in Hself, Hv. congruence.
Qed.

(** The scheduling point. *)
Lemma context_switch_yields q j :
  TH h self (good self (at_place self true q j)) (context_switch cfg L self self)
    (fun _ => good self (yielded q j)).
Proof.
  unfold context_switch. eapply triple_bind; [apply drain2|intros ?].
  eapply triple_bind.
  { apply read2 with (ψ := fun known s => at_place self true q j s /\ known = true). intros s Hs Ha. split; [done|].
    apply contains_spec, (sane_listed _ Hs), Ha. done. }
  intros []; [|intros w0 w HG; destruct HG as [(s & _ & _ & _ & Hk) _ _ _ _]; discriminate Hk].
  simpl negb. cbv iota.
  eapply triple_bind.
  { apply read2 with (ψ := fun n s => at_place self true q j s /\ n = length (threads s)). by intros s Hs [Ha _]. }
  intros n. destruct (Nat.leb_spec n 1) as [Hn|Hn].
  { intros w0 w HG. eapply good_weaken, HG. intros s Hs [Ha ->]. by apply alone_yields. }
  eapply triple_bind.
  { apply update2 with (ψ := at_place self true q j). intros s Hs [Ha _].
    destruct (at_known _ _ _ _ Ha) as (th & Hth & _). unfold index. rewrite Hth. simpl.
    case_match; [|by apply same_updates]. apply neutral_updates; eauto. done. }
  intros ?. eapply triple_bind with (M := fun o => good self (chosen (at_place self true q j) o)).
  { apply with2. intros s Hs Ha. by apply choose_does. }
  intros [idx|].
  2: { intros w0 w HG. eapply good_weaken, HG. intros s _ [Ha Hno]. split; [done|]. by intros _ v _. }
  eapply triple_bind; [apply thread_at2|intros next].
  eapply triple_bind; [apply wake2|intros ?].
  eapply triple_bind; [apply look2|intros ev].
  eapply weaken2; [apply deliver_event2|done|]. intros ? w0 w HG. eapply good_weaken, HG.
  intros s _ [Ha [Hb _]]. split; [done|]. congruence.
Qed.

Lemma context_switch2 q j :
  TH h self (good self (at_place self true q j)) (context_switch cfg L self self)
    (fun _ => good self (at_place self true q j)).
Proof.
  eapply weaken2; [apply context_switch_yields|done|]. intros ? w0 w HG. eapply good_weaken, HG. by intros s _ [Ha _].
Qed.

(** The sleep of a blocked thread comes after a scheduling point. *)
Lemma wait_while_blocking2 q j :
  TH h self (good self (yielded q j)) (wait_while_blocking cfg L self self)
    (fun _ => good self (at_place self true None j)).
Proof.
  eapply triple_bind.
  { apply read2 with (ψ := fun (b : bool) s => if b then at_place self true q j s /\ blocked_in s self = true /\ no_other self s
                                               else at_place self true None j s).
    intros s Hs [Ha Hy]. destruct (at_known _ _ _ _ Ha) as (th & Hth & _). unfold t. rewrite Hth. simpl.
    unfold blocked_in in *. rewrite Hth in *. destruct (is_blocking th) eqn:Hb; [auto|].
    eapply blocked_place; [done|done|]. unfold blocked_in. by rewrite Hth. }
  intros []; simpl; [|apply ret2].
  eapply triple_bind with (M := fun _ => awaits (SuspendCond self) q j).
  - apply act2. intros w0 w HG. assert (HG' := HG). destruct HG' as [(s & E & Hs & Ha & Hb) _ _ _ _]. rewrite E. simpl.
    destruct (at_known _ _ _ _ Ha) as (th & Hth & _). apply outcome_bind, outcome_bind.
    eapply outcome_mono; [apply (neutral_updates self self (Thread.set_in_wait true) s true q j); [done|done|done|by eexists]|].
    intros s' Em [Hl Ha']. simpl. split; [by eapply good_lawful|]. intros x [= <-]. split; [done|]. intros _.
    by eapply in_wait_handed.
  - intros ?. eapply triple_bind; [apply cond_wait2|intros ?].
    eapply weaken2; [apply awake2; by left|done|]. intros ? w0 w HG. eapply good_weaken, HG. by intros s _ [Ha _].
Qed.

Lemma mutex_lock2 key :
  TH h self (good self (idle self)) (mutex_lock cfg L self key self) (fun _ => good self (idle self)).
Proof.
  eapply triple_bind.
  { apply read2 with (ψ := fun _ => idle self). intros s Hs Ha.
    destruct (at_known _ _ _ _ Ha) as (th & Hth & _). unfold index. by rewrite Hth. }
  intros my_tid. apply (triple_iter _ _ _ _ _ _ _ _ tt (fun _ => good self (idle self))). intros [].
  eapply triple_bind; [apply with2; intros s Hs Ha; by apply mutex_acquire_does|].
  intros []; [by intros w0 w H|].
  eapply triple_bind; [apply context_switch_yields|intros ?].
  eapply triple_bind; [apply wait_while_blocking2|intros ?]. by intros w0 w H.
Qed.

(** * Initialisation *)

(** Nothing is registered, and nothing happened in the segment. *)
Definition before w0 w : Prop :=
  blank w0 /\ parked_ok w /\ spawned w = spawned w0 /\
  forall v, v <> self -> parked w !! v = parked w0 !! v.

(** A call begins. *)
Definition entry2 w0 w : Prop :=
  good self (idle self) w0 w \/ INITED w = false /\ STATE w = None /\ before w0 w.

Definition reset w0 w : Prop :=
  before w0 w /\ INITED w = true /\ exists sch, STATE w = Some (empty sch).

Lemma empty_sane (sch : BoxScheduler) : sane (empty sch).
Proof.
  split; [apply empty_wf| | |].
  - by intros v (th & Hth & _).
  - intros p v Hv. destruct p; by apply elem_of_nil in Hv.
  - by intros pt v (th & Hth & _).
Qed.

Lemma register_main2 : TH h self reset (register_main cfg L self) (fun _ => good self (idle self)).
Proof.
  eapply triple_bind with (M := fun _ => unregistered self).
  { apply act2. intros w0 w ((Hb & Hk & Hs & Hp) & Hi & sch & E). simpl. split; simpl; try done.
    - intros s v. simpl. rewrite E. intros [= <-] (th & Hth & _). done.
    - exists (empty sch). split; [done|apply empty_sane].
    - by rewrite lookup_insert_eq. }
  intros ?. eapply triple_bind; [by apply rsched_glock_unregistered|intros ?].
  eapply triple_bind; [apply triple_own_tid|intros my_tid].
  eapply triple_bind; [|intros ?; by apply rsched_gunlock2].
  apply act2. intros w0 w HU. destruct (unreg_state _ _ _ HU) as (s & E & Hs). rewrite E. simpl.
  by apply good_register.
Qed.

Lemma reinit2 seed : TH h self before (rsched_reinit cfg L env self seed) (fun _ => good self (idle self)).
Proof.
  eapply triple_bind with (M := fun _ w0 w => before w0 w /\ exists sch, STATE w = Some (empty sch)).
  { apply act2. intros w0 w HB. split; [exact HB|]. by eexists. }
  intros ?. eapply triple_bind with (M := fun _ => reset).
  { apply act2. intros w0 w [HB E]. by split. }
  intros ?. apply register_main2.
Qed.

Lemma asserted_call2 c msg φ :
  expected_panic msg = true ->
  TH h self (good self φ) (asserted_call L self c msg) (fun _ => good self φ).
Proof.
  intros Hm. eapply triple_bind; [apply real_call2|intros r]. apply act2. intros w0 w HG.
  by case_match.
Qed.

Lemma install2 φ :
  TH h self (good self φ) (install_seccomp_tripwire_if_requested L env self) (fun _ => good self φ).
Proof.
  unfold install_seccomp_tripwire_if_requested, install_sigsys_handler, install_seccomp_filter, when. case_bool_decide; [|apply ret2].
  eapply triple_bind; [by apply asserted_call2|intros ?].
  eapply triple_bind; [by apply asserted_call2|intros ?]. by apply asserted_call2.
Qed.

Lemma ensure_init2 : TH h self entry2 (ensure_init cfg L env self) (fun _ => good self (idle self)).
Proof.
  intros w0 w [HG|(Hi & _ & HB)]; simpl; [by rewrite (good_inited _ _ _ _ HG)|].
  rewrite Hi. simpl. rewrite Hi.
  assert (Ht : TH h self before (modify_world (set_STATE (Some (State_new env (seed_from_env env)))) ;;
      modify_world (set_INITED true) ;; register_main cfg L self ;;
      install_seccomp_tripwire_if_requested L env self) (fun _ => good self (idle self))).
  { eapply triple_bind with (M := fun _ w0 w => before w0 w /\ exists sch, STATE w = Some (empty sch)).
    { apply act2. intros v0 v HB'. split; [exact HB'|]. by eexists. }
    intros ?. eapply triple_bind with (M := fun _ => reset).
    { apply act2. intros v0 v [HB' E]. by split. }
    intros ?. eapply triple_bind; [apply register_main2|intros ?]. apply install2. }
  exact (Ht w0 w HB).
Qed.

(** A step that does not touch what the assertions speak of. *)
Lemma entry_same w0 w w' :
  STATE w' = STATE w -> spawned w' = spawned w -> parked w' = parked w -> MY_PT w' = MY_PT w ->
  INITED w' = INITED w -> entry2 w0 w -> entry2 w0 w'.
Proof.
  intros Es Ep Ek Em Ei [HG|(Hi & Hb & H1 & H0 & H2 & H3)]; [left; by eapply good_same, HG|right].
  split; [congruence|]. split; [congruence|]. split; [done|].
  split; [unfold parked_ok; by rewrite Ek|]. split; [congruence|]. intros v Hv. rewrite Ek. auto.
Qed.

Lemma undepth_entry : undepth entry2.
Proof. intros w0 w x HE. by eapply entry_same, HE. Qed.
End Runtime.

(** * The exported functions *)

(** Updates of the state by the exported functions, from any place. *)
Section Updates.
Context (self : PthreadT).
Implicit Types s : State BoxScheduler.

Lemma set_event_updates ev s q j :
  sane s -> at_place self true q j s -> updates self s (set_event self ev s) (at_place self true q j).
Proof. intros Hs Ha. apply neutral_updates; [done..|]. by apply live_known, Ha. Qed.

Lemma clear_event_updates s q j :
  sane s -> at_place self true q j s -> updates self s (clear_event self s) (at_place self true q j).
Proof. intros Hs Ha. apply neutral_updates; [done..|]. by apply live_known, Ha. Qed.

Lemma set_tid_updates tid s q j :
  sane s -> at_place self true q j s ->
  updates self s (modify self (Thread.set_tid tid) s) (at_place self true q j).
Proof. intros Hs Ha. apply neutral_updates; [done..|]. by apply live_known, Ha. Qed.

Lemma set_pending_updates p s q j :
  sane s -> at_place self true q j s -> updates self s (Ok (set_pending_child p s)) (at_place self true q j).
Proof. by apply same_updates; [| |intros []|]. Qed.

Lemma barrier_new_fair key count s q j :
  sane s -> at_place self true q j s ->
  outcome_ok (Ok (set_barriers (<[key := SBarrier.mk count []]> (barriers s)) s)) (fun s' =>
    (fair self s s' /\ at_place self true q j s') /\ (queue s (AtBarrier key) = [] -> tidies s s')).
Proof.
  apply drop_fair; [done|done|by rewrite queue_set_barriers_eq| |].
  - intros p Hne. by rewrite queue_set_barriers_ne.
  - intros Ho k b. simpl. rewrite lookup_insert. case_decide; [intros [= <-]; by left|apply Ho].
Qed.

Lemma note_mutex_destroy_fair lock s q j :
  sane s -> at_place self true q j s ->
  outcome_ok (Ok (note_mutex_destroy lock s)) (fun s' =>
    (fair self s s' /\ at_place self true q j s') /\ (queue s (AtMutex lock) = [] -> tidies s s')).
Proof.
  apply drop_fair; [done|done| | |done].
  - unfold queue. simpl. by rewrite lookup_delete_eq.
  - intros [k|k|k] Hne; try done. unfold queue. simpl. rewrite lookup_delete_ne; [done|congruence].
Qed.

Lemma note_mutexattr_settype_updates attr kind s q j :
  sane s -> at_place self true q j s ->
  updates self s (Ok (note_mutexattr_settype attr kind s)) (at_place self true q j).
Proof. unfold note_mutexattr_settype. case_match; by apply same_updates; [| |intros []|]. Qed.

Lemma note_mutex_init_updates lock attr s q j :
  sane s -> at_place self true q j s ->
  updates self s (Ok (note_mutex_init lock attr s)) (at_place self true q j).
Proof. unfold note_mutex_init. case_match; by apply same_updates; [| |intros []|]. Qed.
Lemma caller_tid2 {X : Contract} (h : Prop) : TH h self (good self (idle self)) (caller_tid self) (fun _ => good self (idle self)).
Proof.
  apply read2. intros s _ Ha. destruct (at_known _ _ _ _ Ha) as (th & Hth & _).
  unfold index. by rewrite Hth.
Qed.

End Updates.

Create HintDb conduct.
#[export] Hint Resolve set_event_updates clear_event_updates set_tid_updates set_pending_updates
  cond_enqueue_updates : conduct.
#[export] Hint Extern 1 (updates _ _ (cond_release_one _ _) _) => by apply cond_release_one_updates : conduct.
#[export] Hint Extern 1 (updates _ _ (cond_release_all _ _) _) => by apply cond_release_all_updates : conduct.

(** The triple of one step. *)
Ltac conduct_step :=
  lazymatch goal with
  | |- triple _ _ _ _ (Ret _) _ => apply ret2
  | |- triple _ _ _ _ (read_state (fun _ => Ok _)) _ => apply look2
  | |- triple _ _ _ _ (update_state _) _ => apply update2; intros; solve [eauto with conduct]
  | |- triple _ _ _ _ (with_state (mutex_unlock _ _ _)) _ => apply with2; intros; by apply mutex_unlock_does
  | |- triple _ _ _ _ (caller_tid _) _ => apply caller_tid2
  | |- triple _ _ _ _ (real_call _ _ _) _ => apply real_call2
  | |- triple _ _ _ _ (box_new _) _ => apply box_new2
  | |- triple _ _ _ _ (box_free _) _ => apply box_free2
  | |- triple _ _ _ _ (tsan_call _ _ _ _) _ => by apply tsan_call2
  | |- triple _ _ _ _ (tsan_user_acquire _ _ _ _) _ => eapply triple_bind; [by apply tsan_call2|intros ?]; eapply triple_bind; [by apply tsan_call2|intros ?]; by apply tsan_call2
  | |- triple _ _ _ _ (tsan_user_release _ _ _ _) _ => eapply triple_bind; [by apply tsan_call2|intros ?]; eapply triple_bind; [by apply tsan_call2|intros ?]; by apply tsan_call2
  | |- triple _ _ _ _ (ensure_init _ _ _ _) _ => by apply ensure_init2
  | |- triple _ _ _ _ (rsched_glock _ _ _) _ => by apply rsched_glock2
  | |- triple _ _ _ _ (rsched_gunlock _ _ _) _ => by apply rsched_gunlock2
  | |- triple _ _ _ _ (drain_pending_child _ _ _) _ => by apply drain2
  | |- triple _ _ _ _ (context_switch _ _ _ _) _ => by apply context_switch2
  | |- triple _ _ _ _ (wait_while_blocking _ _ _ _) _ => by apply wait_while_blocking2
  | |- triple _ _ _ _ (mutex_lock _ _ _ _ _) _ => by apply mutex_lock2
  | |- triple _ _ _ _ (with_internal_depth _ _) _ =>
      apply internal_good; conduct_step
  | _ => fail "no triple for this step"
  end.

(** Run through a program: bind steps, branch on conditions. *)
Ltac conduct :=
  cbv zeta;
  lazymatch goal with
  | |- triple _ _ _ _ (Bind (Bind _ _) _) _ => eapply triple_bind; [conduct|intros ?; conduct]
  | |- triple _ _ _ _ (Bind (my_pt _) _) _ => apply bind_my_pt2; conduct
  | |- triple _ _ _ _ (Bind (context_switch _ _ _ _) (fun _ => Bind (wait_while_blocking _ _ _ _) _)) _ =>
      eapply triple_bind; [by apply context_switch_yields|intros ?; conduct]
  | |- triple _ _ _ _ (Bind (when _ _) _) _ => eapply triple_bind; [conduct|intros ?; conduct]
  | |- triple _ _ _ _ (Bind (if ?b then _ else _) _) _ => eapply triple_bind; [conduct|intros ?; conduct]
  | |- triple _ _ _ _ (Bind (match ?b with Some _ => _ | None => _ end) _) _ =>
      eapply triple_bind; [conduct|intros ?; conduct]
  | |- triple _ _ _ _ (Bind _ _) _ => eapply triple_bind; [conduct_step|intros ?; conduct]
  | |- triple _ _ _ _ (when ?b _) _ => unfold when; destruct b; conduct
  | |- triple _ _ _ _ (if ?b then _ else _) _ => destruct b; conduct
  | |- triple _ _ _ _ (match ?o with Some _ => _ | None => _ end) _ => destruct o; conduct
  | |- triple _ _ _ _ (let (_, _) := ?x in _) _ => destruct x; conduct
  | |- _ => try conduct_step
  end.

Section Api.
Context {X : Contract}.
Context (cfg : Cfg) (L : Libc) (env : string -> option string).
Context (code_bytes : Z -> nat -> list Z) (gate_address : Z).
Context (self : PthreadT).
Hypothesis no_tsan : tsan cfg = false.

Implicit Types s : State BoxScheduler.

Abbreviation T2 self P p Q := (TH (SignalLaw L) self P p Q).
Abbreviation idle2 := (good self (idle self)).
Abbreviation entry2 := (entry2 self).

Lemma note2 f :
  T2 self idle2 (update_state (fun s => Ok (f s))) (fun _ => idle2) ->
  T2 self entry2 (note cfg L env self f) (fun _ => idle2).
Proof.
  intros Hf. unfold note. do 2 (eapply triple_bind; [conduct_step|intros ?]).
  eapply triple_bind; [exact Hf|intros ?]. conduct.
Qed.

(** The notes of a thread that has nothing else to do with the state. *)
Lemma note_updates2 f :
  (forall s, sane s -> idle self s -> updates self s (Ok (f s)) (idle self)) ->
  T2 self idle2 (update_state (fun s => Ok (f s))) (fun _ => idle2).
Proof. intros Hf. by apply update2. Qed.

Lemma note_mutex_destroy2 lock :
  (forall s, contract s -> queue s (AtMutex lock) = []) ->
  T2 self idle2 (update_state (fun s => Ok (note_mutex_destroy lock s))) (fun _ => idle2).
Proof.
  intros HC. apply fair2 with (C := fun s => queue s (AtMutex lock) = []).
  - intros w0 w s HG Hk E. by eapply kept_queue.
  - intros s. apply note_mutex_destroy_fair.
Qed.

Lemma finish2 r : T2 self idle2 (finish cfg L self self r) (fun _ => idle2).
Proof. unfold finish. conduct. Qed.

Lemma lock_real2 lock : T2 self idle2 (lock_real cfg L self lock self) (fun _ => idle2).
Proof.
  unfold lock_real. eapply triple_bind; [conduct_step|intros r]. destruct (negb (r =? 0)).
  - apply finish2.
  - eapply triple_bind; [conduct_step|intros ?]. apply finish2.
Qed.

Ltac conduct_api :=
  conduct;
  lazymatch goal with
  | |- triple _ _ _ _ (finish _ _ _ _ _) _ => apply finish2
  | |- triple _ _ _ _ (lock_real _ _ _ _ _) _ => apply lock_real2
  | |- _ => idtac
  end.

Lemma api_mutex_lock2 ra lock :
  T2 self entry2 (rsched_pthread_mutex_lock cfg L env self ra lock) (fun _ => idle2).
Proof. unfold rsched_pthread_mutex_lock. conduct_api. Qed.

Lemma trylock2 ra lock :
  T2 self entry2 (rsched_pthread_mutex_trylock cfg L env self ra lock) (fun _ => idle2).
Proof. unfold rsched_pthread_mutex_trylock. conduct_api. Qed.

Lemma unlock2 ra lock :
  T2 self entry2 (rsched_pthread_mutex_unlock cfg L env self ra lock) (fun _ => idle2).
Proof. unfold rsched_pthread_mutex_unlock. conduct_api. Qed.

Lemma api_cond_wait2 cond lock :
  T2 self entry2 (rsched_pthread_cond_wait cfg L env self cond lock) (fun _ => idle2).
Proof. unfold rsched_pthread_cond_wait. conduct_api. Qed.

Lemma cond_signal2 cond :
  T2 self entry2 (rsched_pthread_cond_signal cfg L env self cond) (fun _ => idle2).
Proof. unfold rsched_pthread_cond_signal. conduct_api. Qed.

Lemma cond_broadcast2 cond :
  T2 self entry2 (rsched_pthread_cond_broadcast cfg L env self cond) (fun _ => idle2).
Proof. unfold rsched_pthread_cond_broadcast. conduct_api. Qed.

Lemma barrier_init2 barrier attr count :
  (forall s, contract s -> queue s (AtBarrier barrier) = []) ->
  T2 self entry2 (rsched_pthread_barrier_init cfg L env self barrier attr count) (fun _ => idle2).
Proof.
  intros HC. unfold rsched_pthread_barrier_init. do 2 (eapply triple_bind; [conduct_step|intros ?]).
  apply bind_my_pt2. do 2 (eapply triple_bind; [conduct_step|intros ?]).
  eapply triple_bind with (M := fun _ => idle2); [|intros ?; conduct]. unfold when. case_match; [|apply ret2].
  apply fair2 with (C := fun s => queue s (AtBarrier barrier) = []).
  - intros w0 w s HG Hk E. by eapply kept_queue.
  - intros s. apply barrier_new_fair.
Qed.

Lemma yield2 ra : T2 self entry2 (rsched_sched_yield cfg L env self ra) (fun _ => idle2).
Proof. unfold rsched_sched_yield. conduct_api. Qed.

Lemma barrier_wait2 barrier :
  T2 self entry2 (rsched_pthread_barrier_wait cfg L env self barrier) (fun _ => idle2).
Proof.
  unfold rsched_pthread_barrier_wait. do 2 (eapply triple_bind; [conduct_step|intros ?]).
  apply bind_my_pt2. eapply triple_bind; [conduct_step|intros ?].
  eapply triple_bind with (M := fun arrived => good self
    (at_place self true (match arrived with Some false => Some (AtBarrier barrier) | _ => None end) None)).
  - apply with2. intros s Hs Ha. apply outcome_bind.
    eapply outcome_mono; [by apply (barrier_arrive_outcome barrier self), Ha|].
    intros [[b s']|] E _; simpl; [|by split; [split|]].
    apply barrier_arrive_lawful in E as [Hl Hp]; [|done|done]. by destruct b.
  - intros [released|]; conduct.
Qed.

Lemma join2 thread :
  (forall s, contract s -> forall v, joined_by s thread v -> v = self) ->
  T2 self entry2 (rsched_pthread_join cfg L env self thread) (fun _ => idle2).
Proof.
  intros HC. unfold rsched_pthread_join. do 2 (eapply triple_bind; [conduct_step|intros ?]).
  apply bind_my_pt2. eapply triple_bind; [by apply context_switch_yields|intros ?].
  eapply triple_bind.
  { apply read2 with (ψ := fun live s => yielded self None None s /\ (live = true -> thread ∈ threads s)).
    intros s _ Ha. simpl. split; [done|]. apply contains_spec. }
  intros live.
  eapply triple_bind with (M := fun _ => good self (yielded self None (Some thread))).
  { destruct live; simpl.
    - eapply triple_bind; [|intros ?; by apply context_switch_yields].
      apply fair2 with (C := fun s => forall v, joined_by s thread v -> v = self).
      + intros w0 w s HG Hk E v Hv. eapply kept_joiner; [done|exact HC| |done|done].
        eapply good_weaken, HG. by intros s1 _ [[Ha _] _].
      + intros s Hs [[Ha _] Ht]. apply join_mark_fair; auto.
    - intros w0 w HG. eapply good_weaken, HG. intros s _ [[Ha Hy] _]. split; [by eapply at_place_weaken, Ha|done]. }
  intros ?. eapply triple_bind; [conduct_step|intros ?]. apply internal_good.
  eapply triple_bind; [apply suspend_join2|intros ?]. conduct_step.
Qed.

(** ** Creation *)

(** The new thread exists and is not registered yet. *)
Definition hiring (child : PthreadT) w0 w : Prop :=
  exists sp sa, spawned w = sp ++ [(child, sa)] /\ child ∉ sp.*1 /\
    good self (fun s => idle self s /\ ~ live s child) w0 (set_spawned sp w).

Lemma undepth_hiring child : undepth (hiring child).
Proof.
  intros w0 w x (sp & sa & E & Hn & HG). exists sp, sa. split; [done|]. split; [done|]. by eapply good_same, HG.
Qed.

Lemma real_create2 via attr sa :
  T2 self idle2 (real_create L self via attr sa)
    (fun rc w0 w => if fst rc =? 0 then hiring (snd rc) w0 w else idle2 w0 w).
Proof.
  apply act2. intros w0 w HG. cbv zeta. set (r := ret _ _ _ _). set (child := new_pthread _ _).
  case_match eqn:Hr; [|simpl; rewrite Hr; by eapply good_same, HG].
  case_match eqn:Hu; [done|]. simpl. rewrite Hr. exists (spawned w), sa. split; [done|].
  destruct HG as [(s & E & Hs & Ha) H2 H3 H4 H5]. unfold id_in_use in Hu. rewrite E in Hu.
  apply orb_false_iff in Hu as [Hin Hu]. apply bool_decide_eq_false in Hin. split; [done|]. split; try done.
  - exists s. repeat (split; [done|]). intros (th & Hth & He). by rewrite Hth, He in Hu.
  - by eapply passes_same, H5.
Qed.

Lemma respects_add th s :
  ~ live s (pthread th) -> pthread th <> self -> joiner th = None -> respects self s (add th s).
Proof.
  intros Hn Hself Hj. split.
  - intros v p Hv. left. by destruct p.
  - intros pt v (t0 & Ht & Ej & Ee). left. simpl in Ht. rewrite lookup_insert in Ht.
    case_decide; [simplify_eq; congruence|]. by exists t0.
  - intros v Hne (t0 & Ht & Ee). exists t0. split; [|done]. simpl.
    rewrite lookup_insert_ne; [done|]. intros <-. destruct Hn. by exists t0.
  - intros v Hne (t0 & Ht & Ee). unfold blocked_in. simpl. rewrite lookup_insert_ne; [done|].
    intros <-. destruct Hn. by exists t0.
  - intros v Hv. unfold started. simpl. rewrite lookup_insert_ne; [done|]. intros <-. by destruct Hv.
Qed.

Lemma good_hire child tid w0 w s :
  STATE w = Some s -> hiring child w0 w ->
  idle2 w0 (set_STATE (Some (add (Thread.new_with_tid child tid) s)) w).
Proof.
  intros E (sp & sa & Esp & Hsp0 & [(s1 & E1 & Hs & Ha & Hn) H2 H3 H4 [P1 P2 P3 P7 P8 P4 P5 P6 P9]]).
  simpl in *. assert (s1 = s) as -> by congruence. set (th := Thread.new_with_tid child tid).
  assert (Hne : child <> self) by (intros ->; by apply Hn, Ha).
  assert (R : respects self s (add th s)) by by apply respects_add.
  assert (Hold : forall s0, STATE w0 = Some s0 -> ~ live s0 child).
  { intros s0 E0 Hl. destruct P1 as [Hb|(s2 & s3 & E2 & E3 & R0)]; [by apply (Hb s0 child)|].
    simpl in E3. assert (s2 = s0) as -> by congruence. assert (s3 = s) as -> by congruence.
    by apply Hn, (respects_live _ _ _ R0). }
  assert (Hlive : forall v, live (add th s) v -> v = child \/ live s v).
  { intros v (t0 & H0 & E0). simpl in H0. rewrite lookup_insert in H0.
    case_decide; [by left|right; by exists t0]. }
  assert (Hq : forall p, child ∉ queue (add th s) p).
  { intros p Hp. apply Hn, (sane_queue _ Hs p). by destruct p. }
  assert (Hj : forall pt v, joined_by (add th s) pt v -> joined_by s pt v).
  { intros pt v (t0 & H0 & E0 & E2). simpl in H0. rewrite lookup_insert in H0.
    case_decide; [by injection H0 as <-|by exists t0]. }
  assert (Hself : idle self (add th s)).
  { destruct Ha as [A1 A2 A3]. split.
    - split; [done|]. intros _. destruct (proj2 A1 eq_refl) as (t0 & H0 & E0). exists t0.
      split; [|done]. simpl. by rewrite lookup_insert_ne.
    - intros p Hp. apply A2. by destruct p.
    - intros pt Hp. by apply A3, Hj. }
  assert (Hkid : at_place child true None None (add th s)).
  { split.
    - split; [done|]. intros _. exists th. simpl. by rewrite lookup_insert_eq.
    - intros p Hp. by destruct (Hq p).
    - intros pt Hp. apply Hj in Hp. by destruct Hn; eapply sane_joiner. }
  assert (Hsp : forall v, spawned_in w v <-> v = child \/ spawned_in (set_spawned sp w) v).
  { intros v. unfold spawned_in. rewrite Esp. simpl. setoid_rewrite elem_of_app.
    setoid_rewrite list_elem_of_singleton. split.
    - intros [b [Hb|Hb]]; [right; by exists b|left; congruence].
    - intros [->|[b Hb]]; [exists sa; by right|exists b; by left]. }
  split; try done; [exists (add th s); split; [done|]; split; [by apply add_sane|done]|].
  split; simpl; try done.
  - destruct P1 as [|(s0 & s2 & E0 & E2 & R0)]; [by left|right]. exists s0, (add th s).
    simpl in E2. assert (s2 = s) as -> by congruence. split; [done|]. split; [done|]. by etrans.
  - intros v s2 [= <-] [->|Hl]%Hlive; [right; left; by apply Hsp; left|].
    destruct (P2 v s E Hl) as [|[Hv|?]]; [by left| |by right; right].
    right. left. apply Hsp. by right.
  - intros v [->|Hv]%Hsp; [right; split; [done|]; split; [done|]; by exists (add th s)|].
    destruct (P3 v Hv) as [|(Hv' & Hnl & s2 & E2 & Hp)]; [by left|]. right. split; [done|]. split; [done|].
    exists (add th s). split; [done|]. simpl in E2. assert (s2 = s) as -> by congruence.
    by eapply respects_place.
  - intros Hnd. rewrite Esp, fmap_app. apply NoDup_app. split; [by apply P7|].
    split; [|apply NoDup_singleton]. intros x Hx ->%list_elem_of_singleton. done.
  - intros s2 [= <-] Hl H0. apply (respects_started _ _ _ R); [by left|]. apply (P8 s E); [apply Ha; done|done].
  - intros v Hv. apply Hsp. right. by apply P4.
  - intros v s0 s2 Hv E0 Hl0 Hp Hp' [= <-] Hl. destruct (Hlive v Hl) as [->|Hl']; [by destruct (Hold s0 E0)|].
    eapply respects_may_go; [exact R|done|done|]. by apply (P6 v s0 s).
  - intros s2 Hk [= <-]. apply add_tidies; [done|done|done|]. by apply P9.
Qed.

Lemma create2 ra attr start a :
  T2 self entry2 (rsched_pthread_create cfg L env code_bytes gate_address self ra attr start a)
    (fun _ => idle2).
Proof.
  unfold rsched_pthread_create. rewrite no_tsan. simpl andb.
  eapply triple_bind; [conduct_step|intros ?].
  eapply triple_bind with (M := fun g w0 w => g = None /\ idle2 w0 w); [by intros w0 w HP|].
  intros g. apply pure2. intros ->.
  do 3 (eapply triple_bind; [conduct_step|intros ?]).
  eapply triple_bind.
  { apply internal2; [apply undepth_good| |apply real_create2].
    intros rc w0 w x. case_match; [apply undepth_hiring|apply undepth_good]. }
  intros [r child]. simpl. destruct (r =? 0); simpl; [|conduct_api].
  eapply triple_bind with (M := fun _ => idle2).
  - apply act2. intros w0 w HH. assert (HH' := HH).
    destruct HH' as (sp & sa & _ & _ & [(s & E & _) _ _ _ _]). simpl in E. rewrite E. simpl.
    by apply good_hire.
  - intros ?. conduct_api.
Qed.

(** ** Exit *)

(** The thread has left, and the processor is handed over. *)
Definition left2 w0 w : Prop :=
  good self (at_place self false None None) w0 w /\ (SignalLaw L -> handed self w).

Lemma undepth_left2 : undepth left2.
Proof. intros w0 w x [HG Hh]. split; [by apply undepth_good|done]. Qed.

Lemma gone_not_runnable s v : sane s -> at_place self false None None s -> runnable s v -> v <> self.
Proof.
  intros Hs Ha [Hv (th & Hth & _)] ->. destruct (is_exited th) eqn:He.
  - by apply (wf_exited _ (sane_wf _ Hs) _ _ Hth).
  - assert (Hl : live s self) by by exists th. by apply Ha in Hl.
Qed.

Lemma do_thread_exit2 : T2 self idle2 (do_thread_exit cfg L self self) (fun _ => left2).
Proof.
  unfold do_thread_exit. eapply triple_bind; [apply depth_enter2, undepth_good|intros ?].
  eapply triple_bind; [conduct_step|intros ?].
  eapply triple_bind.
  { apply update2. intros s Hs Ha. by apply exit_thread_updates. }
  set (gone := at_place self false None None).
  intros ?. eapply triple_bind.
  { apply read2 with (ψ := fun idle s => gone s /\ (idle = true -> threads s = [])).
    intros s _ Ha. split; [done|]. intros Hb. by apply bool_decide_eq_true in Hb. }
  intros idle.
  eapply triple_bind with (M := fun o => good self (chosen gone o)).
  { destruct idle.
    - intros w0 w HG. eapply good_weaken, HG. intros s _ [Ha Ht]. split; [done|]. intros v [Hv _].
      rewrite Ht in Hv by done. by apply elem_of_nil in Hv.
    - apply with2. intros s Hs [Ha _]. by apply choose_does. }
  intros o. eapply triple_bind with (M := fun _ => left2).
  { destruct o as [idx|].
    2: { intros w0 w HG. split; [eapply good_weaken, HG; by intros s _ [Ha _]|]. intros _. right.
         destruct HG as [(s & E & _ & _ & Hno) _ _ _ _]. by exists s. }
    eapply triple_bind; [apply thread_at2|intros next].
    eapply triple_bind; [apply known_next2; intros s th Hth; unfold t; rewrite Hth; by eexists|intros ?].
    eapply triple_weaken; [| |by apply (signal_wake2 L (SignalLaw L))]; [done|].
    intros ? w0 w [HG Hw]. split; [eapply good_weaken, HG; by intros s _ [Ha _]|]. intros Hlaw. left.
    destruct HG as [(s & E & Hs & Ha & Hr) _ _ _ _]. exists next.
    split; [by eapply gone_not_runnable|]. split; [|by apply Hw].
    destruct Hr as [_ (tn & Htn & He)]. unfold flagged, flag_of. rewrite E, Htn. unfold Thread.eligible in He.
    by destruct (is_in_rsched_wait tn), (is_blocking tn), (startup_done tn). }
  intros ?. eapply triple_bind with (M := fun _ => left2).
  - eapply triple_bind; [by apply tsan_call2|intros ?].
    apply internal2; [apply undepth_left2|intros ?; apply undepth_left2|].
    apply act2. intros w0 w [HG Hh]. case_bool_decide; simpl; [|done]. split; [by eapply good_same, HG|done].
  - intros ?. apply depth_exit2, undepth_left2.
Qed.

Lemma exit2 : T2 self entry2 (rsched_pthread_exit cfg L env self) (fun _ => left2).
Proof.
  unfold rsched_pthread_exit. eapply triple_bind; [conduct_step|intros ?].
  apply bind_my_pt2. apply do_thread_exit2.
Qed.

(** ** The start of a thread *)

(** Registered by its creator, its thread-locals fresh. *)
Definition newborn2 w0 w : Prop :=
  (exists s, STATE w = Some s /\ sane s /\ idle self s) /\ INITED w = true /\ parked_ok w /\ passes self w0 w.

Lemma trampoline_start2 sa :
  TH False self newborn2 (trampoline_start cfg L self sa)
    (fun _ => good self (fun s => idle self s /\ may_go s self)).
Proof.
  unfold trampoline_start.
  eapply triple_bind with (M := fun _ => newborn2).
  { apply act2. intros w0 w HN. by destruct (boxes w !! sa). }
  intros start. eapply triple_bind with (M := fun _ => idle2).
  { apply act2. intros w0 w (Hs & Hi & Hk & HP). simpl. split; simpl; [done|done|by rewrite lookup_insert_eq|done|].
    by eapply passes_same, HP. }
  intros ?. eapply triple_bind; [apply depth_enter2, undepth_good|intros ?].
  eapply triple_bind; [apply glock2|intros ?].
  eapply triple_bind; [apply triple_own_tid|intros my_tid].
  eapply triple_bind; [conduct_step|intros ?].
  eapply triple_bind; [apply box_set_ready2|intros ?].
  eapply triple_bind; [apply signal_ready2|intros ?].
  rewrite no_tsan. simpl when.
  eapply triple_bind.
  - eapply triple_bind; [apply mark2|intros ?].
    eapply triple_bind.
    { eapply triple_pre; [by apply (cond_wait2 cfg L False self no_tsan (SuspendCond self) None None)|].
      intros w0 w HG. split; [exact HG|]. by intros x [= <-]. }
    intros ?. apply awake2. by left.
  - intros ?. eapply triple_bind; [apply gunlock2|intros ?].
    eapply triple_bind; [apply depth_exit2, undepth_good|intros ?]. apply ret2.
Qed.

(** ** Atomics

    Called from user code, at depth 0. *)
Definition outermost w0 w : Prop := depth w self = 0 /\ entry2 w0 w.

Lemma schedule_memop2 i a n k : T2 self outermost (schedule_memop cfg L env self i a n k) (fun _ => idle2).
Proof.
  unfold schedule_memop.
  eapply triple_bind with (M := fun b w0 w => b = false /\ entry2 w0 w).
  { apply act2. intros w0 w [Hd HP]. simpl. split; [by rewrite Hd|done]. }
  intros b. apply pure2. intros ->. conduct_api.
Qed.

Lemma load2 n a φ : T2 self (good self φ) (load n a) (fun _ => good self φ).
Proof. apply act2. intros w0 w HG. by destruct (read_word a n (mem w)). Qed.

Lemma store2 n a v φ : T2 self (good self φ) (store n a v) (fun _ => good self φ).
Proof.
  apply act2. intros w0 w HG. destruct (read_word a n (mem w)); simpl; [|done]. by eapply good_same, HG.
Qed.

Lemma rmw2 A n a (f : Z -> A * option Z) φ : T2 self (good self φ) (rmw n a f) (fun _ => good self φ).
Proof.
  apply act2. intros w0 w HG. destruct (read_word a n (mem w)) as [v|]; simpl; [|done].
  destruct (f v) as [r [v'|]]; simpl; [|done]. by eapply good_same, HG.
Qed.

Lemma compare_exchange2 ptr expected desired φ :
  T2 self (good self φ) (compare_exchange ptr expected desired) (fun _ => good self φ).
Proof.
  eapply triple_bind; [apply load2|intros e].
  eapply triple_bind; [apply rmw2|intros [c|]]; [|apply ret2].
  eapply triple_bind; [apply store2|intros ?]. apply ret2.
Qed.

Lemma atomic2 op ra ptr : T2 self outermost (run_atomic cfg L env self op ra ptr) (fun _ => idle2).
Proof.
  destruct op; unfold run_atomic, rsched_atomic_instrument_ra, rsched_atomic_instrument,
    rsched_atomic_load_i32, rsched_atomic_load_u32, rsched_atomic_load_ptr, rsched_atomic_store_i32,
    rsched_atomic_store_u32, rsched_atomic_store_ptr, rsched_atomic_compare_exchange_i32,
    rsched_atomic_compare_exchange_u32, rsched_atomic_fetch_add_i32, rsched_atomic_fetch_add_u32,
    rsched_atomic_fetch_xor_i32, rsched_atomic_fetch_xor_u32;
    try lazymatch goal with |- triple _ _ _ _ (Bind (Bind _ _) _) _ => apply triple_assoc end;
    (eapply triple_bind; [by apply schedule_memop2|intros ?]);
    try (eapply triple_bind; [first [apply load2 | apply store2 | apply compare_exchange2]|intros ?]);
    first [apply ret2 | apply load2 | apply rmw2].
Qed.
End Api.
