(* ===== verification/Interposition.v ===== *)
(** The interceptors of the preload library obey both sets of triples: a call that
    comes from user code enters the library at depth 1, runs the library's function
    and comes back to depth 0. *)
From S2P Require Import Prelude Event Scheduler Machine State WellFormed StateSpecs Integrity Runtime Memory Api Atomics Elf Preload Discipline Conduct.
Import StateOps.

(** * The discipline *)
Section Discipline.
Context (cfg : Cfg) (L : Libc) (env : string -> option string).
Context (code_bytes : Z -> nat -> list Z) (gate_address : Z) (D : Linker).
Context (self : PthreadT).
Hypothesis no_tsan : tsan cfg = false.

Lemma one_u32 : in_u32 1.
Proof. done. Qed.
#[local] Hint Resolve one_u32 : core.

(** What a function promises from the start of a call it promises later, too. *)
Lemma free_entry A d (p : P A) Q : T self (entry self d) p Q -> T self (free self d) p Q.
Proof. intros H. eapply triple_pre; [exact H|]. intros w0 w HF. by left. Qed.

Lemma entry_of_free A d (p : P A) Pre :
  T self Pre p (fun _ => free self d) -> T self Pre p (fun _ => entry self d).
Proof. intros H. eapply triple_weaken, H; [done|]. intros a w0 w HF. by left. Qed.

Lemma triple_try_enter :
  T self (entry self 0) (rsched_try_enter self) (fun b w0 w => b = true /\ entry self 1 w0 w).
Proof.
  apply triple_act; [done|]. intros w0 w b w' HE E. injection E as <- <-.
  rewrite (entry_depth _ _ _ _ HE). split; [done|]. by eapply entry_depth_set.
Qed.

Lemma triple_rsched_exit :
  T self (entry self 1) (rsched_exit self) (fun _ => entry self 0).
Proof.
  apply triple_act; [done|]. intros w0 w b w' HE E. injection E as _ <-.
  rewrite (entry_depth _ _ _ _ HE). by eapply entry_depth_set.
Qed.

Lemma triple_intercept name args ours :
  T self (entry self 1) ours (fun _ => entry self 1) ->
  T self (entry self 0) (intercept L D self name args ours) (fun _ => entry self 0).
Proof.
  intros Ho. eapply triple_bind; [apply triple_try_enter|intros outermost].
  apply triple_pure. intros ->. eapply triple_bind; [exact Ho|intros r].
  eapply triple_bind; [apply triple_rsched_exit|intros ?]. apply triple_ret_any.
Qed.

Lemma triple_forward name args :
  T self (entry self 1) (forward L D self name args) (fun _ => entry self 1).
Proof.
  eapply triple_bind.
  - apply triple_alike. intros w a w' E. cbv zeta in E.
    repeat (case_match; simplify_eq); by split; [repeat split|].
  - intros f. apply triple_alike. intros w a w' E. simplify_eq. by split; [repeat split|].
Qed.

Lemma triple_intercept_note name args f :
  (forall s, quiet s (f s)) ->
  T self (entry self 0) (intercept_note L D self name args (note cfg L env self f)) (fun _ => entry self 0).
Proof.
  intros Hf. eapply triple_bind; [apply triple_try_enter|intros outermost].
  apply triple_pure. intros ->. eapply triple_bind; [apply triple_forward|intros r].
  eapply triple_bind with (M := fun _ => entry self 1).
  - unfold when. case_match; [|apply triple_ret_any]. apply entry_of_free. by apply triple_note.
  - intros ?. eapply triple_bind; [apply triple_rsched_exit|intros ?]. apply triple_ret_any.
Qed.

Lemma triple_entry_load n a : T self (entry self 1) (load n a) (fun _ => entry self 1).
Proof.
  apply triple_alike. intros w x w' E. apply rbind_Ok in E as (v & _ & E). simplify_eq.
  by split; [repeat split|].
Qed.

Lemma triple_timespec_at req : T self (entry self 1) (timespec_at req) (fun _ => entry self 1).
Proof.
  unfold timespec_at. destruct (req =? 0); [apply triple_ret_any|].
  do 2 (eapply triple_bind; [apply triple_entry_load|intros ?]). apply triple_ret_any.
Qed.

Lemma triple_times n (p : P unit) Pre : T self Pre p (fun _ => Pre) -> T self Pre (times n p) (fun _ => Pre).
Proof.
  intros Hp. induction n as [|n IH]; [apply triple_ret_any|].
  eapply triple_bind; [exact Hp|intros ?]. exact IH.
Qed.

Lemma triple_virtual_sleep ra n :
  T self (entry self 1) (virtual_sleep_yields cfg L env self ra n) (fun _ => entry self 1).
Proof.
  apply triple_times. eapply triple_bind; [|intros ?; apply triple_ret_any].
  apply entry_of_free. by apply triple_yield.
Qed.

Lemma triple_create_ours ra thread attr start a :
  T self (entry self 1)
    (let! (r, child) := rsched_pthread_create cfg L env code_bytes gate_address self ra attr start a in
     match child with Some c => store 8 thread c | None => Ret tt end ;;
     Ret r) (fun _ => entry self 1).
Proof.
  apply entry_of_free. eapply triple_bind; [by apply triple_create|intros [r child]].
  eapply triple_bind with (M := fun _ => free self 1); [|intros ?; apply triple_ret_any].
  destruct child; [apply triple_store|apply triple_ret_any].
Qed.

(** Every interceptor but [pthread_exit]. *)
Lemma triple_intercepted i :
  T self (entry self 0) (run_intercepted cfg L env code_bytes gate_address D self i) (fun _ => entry self 0).
Proof.
  destruct i; simpl.
  - apply triple_intercept. rewrite no_tsan. apply triple_create_ours.
  - apply triple_intercept, entry_of_free. by apply triple_join.
  - apply triple_intercept_note. intros s. by apply quiet_info.
  - apply triple_intercept_note. intros s. unfold note_mutexattr_settype. case_match; by apply quiet_info.
  - apply triple_intercept_note. intros s. by apply quiet_info.
  - apply triple_intercept_note. intros s. unfold note_mutex_init. case_match; by apply quiet_info.
  - apply triple_intercept_note. intros s. by apply quiet_info.
  - apply triple_intercept, entry_of_free. by apply triple_api_mutex_lock.
  - apply triple_intercept, entry_of_free. by apply triple_trylock.
  - apply triple_intercept, entry_of_free. by apply triple_unlock.
  - apply triple_intercept, entry_of_free. by apply triple_cond_wait.
  - apply triple_intercept, entry_of_free. by apply triple_cond_signal.
  - apply triple_intercept, entry_of_free. by apply triple_cond_broadcast.
  - apply triple_intercept, entry_of_free. by apply triple_barrier_init.
  - apply triple_intercept, entry_of_free. by apply triple_barrier_wait.
  - apply triple_intercept, entry_of_free. by apply triple_yield.
  - apply triple_intercept. eapply triple_bind; [apply triple_timespec_at|intros ?].
    eapply triple_bind; [apply triple_virtual_sleep|intros ?]. apply triple_ret_any.
  - apply triple_intercept. eapply triple_bind; [apply triple_timespec_at|intros ?].
    eapply triple_bind; [apply triple_virtual_sleep|intros ?]. apply triple_ret_any.
  - apply triple_intercept. eapply triple_bind; [apply triple_virtual_sleep|intros ?]. apply triple_ret_any.
  - apply triple_intercept. eapply triple_bind; [apply triple_virtual_sleep|intros ?]. apply triple_ret_any.
Qed.

Lemma triple_intercepted_exit :
  T self (entry self 0) (pthread_exit cfg L env self) (fun _ => exited self 1).
Proof.
  eapply triple_bind; [apply triple_try_enter|intros outermost].
  apply triple_pure. intros ->. by apply triple_exit.
Qed.
End Discipline.

(** * The conduct *)

(** What POSIX asks of the caller: the mutex that is destroyed and the barrier that is
    initialised have no waiters; nobody else joins the thread. *)
Definition unused_mutex (lock : Z) (s : State BoxScheduler) : Prop := queue s (AtMutex lock) = [].
Definition unused_barrier (barrier : Z) (s : State BoxScheduler) : Prop := queue s (AtBarrier barrier) = [].
Definition sole_joiner (self thread : PthreadT) (s : State BoxScheduler) : Prop :=
  forall v, joined_by s thread v -> v = self.

Definition intercepted_contract (self : PthreadT) (i : Intercepted) : State BoxScheduler -> Prop :=
  match i with
  | IJoin thread _ => sole_joiner self thread
  | IMutexDestroy m => unused_mutex m
  | IBarrierInit barrier _ _ => unused_barrier barrier
  | _ => fun _ => True
  end.

Section Conduct.
Context {X : Contract}.
Context (cfg : Cfg) (L : Libc) (env : string -> option string).
Context (code_bytes : Z -> nat -> list Z) (gate_address : Z) (D : Linker).
Context (self : PthreadT).
Hypothesis no_tsan : tsan cfg = false.
Implicit Types s : State BoxScheduler.

Abbreviation T2 self P p Q := (TH (SignalLaw L) self P p Q).
Abbreviation entry2 := (entry2 self).
Abbreviation idle2 := (good self (idle self)).

Lemma entry_of_idle A (p : P A) Pre : T2 self Pre p (fun _ => idle2) -> T2 self Pre p (fun _ => entry2).
Proof. intros H. eapply triple_weaken, H; [done|]. intros a w0 w HF. by left. Qed.

Lemma try_enter2 : T2 self (outermost self) (rsched_try_enter self) (fun b w0 w => b = true /\ entry2 w0 w).
Proof.
  apply act2. intros w0 w [Hd HE]. simpl. split; [by rewrite Hd|]. by apply undepth_entry.
Qed.

Lemma rsched_exit2 : T2 self entry2 (rsched_exit self) (fun _ => entry2).
Proof. apply depth_exit2. intros w0 w x. apply undepth_entry. Qed.

Lemma intercept2 name args ours :
  T2 self entry2 ours (fun _ => entry2) ->
  T2 self (outermost self) (intercept L D self name args ours) (fun _ => entry2).
Proof.
  intros Ho. eapply triple_bind; [apply try_enter2|intros outermost].
  apply pure2. intros ->. eapply triple_bind; [exact Ho|intros r].
  eapply triple_bind; [apply rsched_exit2|intros ?]. apply ret2.
Qed.

Lemma forward2 name args : T2 self entry2 (forward L D self name args) (fun _ => entry2).
Proof.
  eapply triple_bind with (M := fun _ => entry2).
  - apply act2. intros w0 w HE. cbv zeta. repeat (case_match; simpl); try done; by apply (entry_same self w0 w).
  - intros f. apply act2. intros w0 w HE. by apply (entry_same self w0 w).
Qed.

Lemma intercept_note2 name args f :
  T2 self idle2 (update_state (fun s => Ok (f s))) (fun _ => idle2) ->
  T2 self (outermost self) (intercept_note L D self name args (note cfg L env self f)) (fun _ => entry2).
Proof.
  intros Hf. eapply triple_bind; [apply try_enter2|intros outermost].
  apply pure2. intros ->. eapply triple_bind; [apply forward2|intros r].
  eapply triple_bind with (M := fun _ => entry2).
  - unfold when. case_match; [|apply ret2]. apply entry_of_idle. by apply note2.
  - intros ?. eapply triple_bind; [apply rsched_exit2|intros ?]. apply ret2.
Qed.

Lemma entry_load2 n a : T2 self entry2 (load n a) (fun _ => entry2).
Proof. apply act2. intros w0 w HE. by destruct (read_word a n (mem w)). Qed.

Lemma timespec_at2 req : T2 self entry2 (timespec_at req) (fun _ => entry2).
Proof.
  unfold timespec_at. destruct (req =? 0); [apply ret2|].
  do 2 (eapply triple_bind; [apply entry_load2|intros ?]). apply ret2.
Qed.

Lemma times2 n (p : P unit) Pre : T2 self Pre p (fun _ => Pre) -> T2 self Pre (times n p) (fun _ => Pre).
Proof.
  intros Hp. induction n as [|n IH]; [apply ret2|].
  eapply triple_bind; [exact Hp|intros ?]. exact IH.
Qed.

Lemma virtual_sleep2 ra n : T2 self entry2 (virtual_sleep_yields cfg L env self ra n) (fun _ => entry2).
Proof.
  apply times2. eapply triple_bind; [|intros ?; apply ret2]. apply entry_of_idle. by apply yield2.
Qed.

Lemma create_ours2 ra thread attr start a :
  T2 self entry2
    (let! (r, child) := rsched_pthread_create cfg L env code_bytes gate_address self ra attr start a in
     match child with Some c => store 8 thread c | None => Ret tt end ;;
     Ret r) (fun _ => entry2).
Proof.
  apply entry_of_idle. eapply triple_bind; [by apply create2|intros [r child]].
  eapply triple_bind with (M := fun _ => idle2); [|intros ?; apply ret2].
  destruct child; [apply store2|apply ret2].
Qed.

Lemma intercepted2 i :
  (forall s, contract s -> intercepted_contract self i s) ->
  T2 self (outermost self) (run_intercepted cfg L env code_bytes gate_address D self i) (fun _ => entry2).
Proof.
  intros HC. destruct i; simpl.
  - apply intercept2. rewrite no_tsan. apply create_ours2.
  - apply intercept2, entry_of_idle. by apply join2.
  - apply intercept_note2, note_updates2. intros s. by apply same_updates; [| |intros []|].
  - apply intercept_note2, note_updates2. intros s. apply note_mutexattr_settype_updates.
  - apply intercept_note2, note_updates2. intros s. by apply same_updates; [| |intros []|].
  - apply intercept_note2, note_updates2. intros s. apply note_mutex_init_updates.
  - apply intercept_note2. by apply note_mutex_destroy2.
  - apply intercept2, entry_of_idle. by apply api_mutex_lock2.
  - apply intercept2, entry_of_idle. by apply trylock2.
  - apply intercept2, entry_of_idle. by apply unlock2.
  - apply intercept2, entry_of_idle. by apply api_cond_wait2.
  - apply intercept2, entry_of_idle. by apply cond_signal2.
  - apply intercept2, entry_of_idle. by apply cond_broadcast2.
  - apply intercept2, entry_of_idle. by apply barrier_init2.
  - apply intercept2, entry_of_idle. by apply barrier_wait2.
  - apply intercept2, entry_of_idle. by apply yield2.
  - apply intercept2. eapply triple_bind; [apply timespec_at2|intros ?].
    eapply triple_bind; [apply virtual_sleep2|intros ?]. apply ret2.
  - apply intercept2. eapply triple_bind; [apply timespec_at2|intros ?].
    eapply triple_bind; [apply virtual_sleep2|intros ?]. apply ret2.
  - apply intercept2. eapply triple_bind; [apply virtual_sleep2|intros ?]. apply ret2.
  - apply intercept2. eapply triple_bind; [apply virtual_sleep2|intros ?]. apply ret2.
Qed.

Lemma intercepted_exit2 :
  T2 self (outermost self) (pthread_exit cfg L env self)
    (fun _ => left2 L self).
Proof.
  eapply triple_bind; [apply try_enter2|intros outermost].
  apply pure2. intros ->. by apply exit2.
Qed.
End Conduct.
