(* ===== verification/Starting.v ===== *)
(** The start of a new thread: the first part of [trampoline], before the new
    thread has registered.  It runs while another thread may be awake, so it obeys
    a discipline of its own: it wakes nobody but a creator that waits for it, marks
    itself, and sleeps. *)
From S2P Require Import Prelude Event Scheduler Machine State WellFormed StateSpecs Integrity Runtime Memory Api Discipline.
Import StateOps.

(** [u] may be picked. *)
Definition runnable_in (w : World) (u : PthreadT) : Prop := exists s, STATE w = Some s /\ runnable s u.

Lemma runnable_modify v f u (s s' : State BoxScheduler) :
  modify v f s = Ok s' -> u <> v -> runnable s' u -> runnable s u.
Proof.
  intros E Hne [Hu (th & Hth & He)]. apply modify_self_Ok in E as (t0 & Ht0 & ->). simpl in *.
  rewrite lookup_insert_ne in Hth by done. split; [done|]. by exists th.
Qed.

(** What the others see of a starting thread's segment that began in [w0]. *)
Record sframe (self : PthreadT) (w0 w : World) : Prop := mkSframe {
  sframe_unmarked : ~ flagged w0 self;
  sframe_tls u : u <> self ->
    MY_PT w !! u = MY_PT w0 !! u /\ CALL_DEPTH w !! u = CALL_DEPTH w0 !! u;
  sframe_flag u : u <> self -> flagged w u <-> flagged w0 u;
  sframe_parked u : u <> self ->
    parked w !! u = parked w0 !! u \/
    exists sa, parked w0 !! u = Some (ReadyCond sa) /\ parked w !! u = None;
  sframe_spawned : spawned w = spawned w0;
  sframe_inited : INITED w = INITED w0;
  sframe_runnable u : u <> self -> runnable_in w u -> runnable_in w0 u
}.

(** Who holds the global mutex, whether [self] is parked and marked, its depth. *)
Record smon (self : PthreadT) (g : option PthreadT) (pk : option CondId) (marked : bool)
    (d : Z) (w0 w : World) : Prop := mkSmon {
  smon_gmtx : GMTX w = g;
  smon_self : parked w !! self = pk;
  smon_marked : if marked then flagged w self else ~ flagged w self;
  smon_depth : depth w self = d;
  smon_my : MY_PT w !! self = Some self;
  smon_frame : sframe self w0 w
}.

Definition StartGuar (self : PthreadT) (b : Blocker) (w0 w : World) : Prop :=
  match b with
  | OnGmtx => exists d, smon self None None false d w0 w
  | OnCond (SuspendCond c) => c = self /\ exists d, smon self None (Some (SuspendCond self)) true d w0 w
  | _ => False
  end.

Definition StartRely (self : PthreadT) (b : Blocker) (w w' : World) : Prop :=
  match b with
  | OnGmtx => smon self None None false (depth w self) w' w'
  | _ => flagged w' self /\ Rely self b w w'
  end.

Abbreviation TS self P p Q := (triple (StartGuar self) (StartRely self) (fun _ => True) P p Q).

Section Starting.
Context (cfg : Cfg) (L : Libc) (env : string -> option string).
Context (self : PthreadT).
Hypothesis no_tsan : tsan cfg = false.

(** A step that writes nothing the discipline speaks of. *)
Lemma smon_same g pk m d w0 w w' :
  GMTX w' = GMTX w -> parked w' = parked w -> CALL_DEPTH w' = CALL_DEPTH w ->
  MY_PT w' = MY_PT w -> spawned w' = spawned w -> INITED w' = INITED w ->
  (forall u, flagged w' u <-> flagged w u) ->
  (forall u, u <> self -> runnable_in w' u -> runnable_in w u) ->
  smon self g pk m d w0 w -> smon self g pk m d w0 w'.
Proof.
  intros Eg Ep Ed Em Es Ei Ef Er [H1 H2 H3 H4 H5 [F0 F1 F2 F3 F4 F5 F6]].
  split; try congruence; [by destruct m; rewrite Ef| |].
  - unfold depth in *. by rewrite Ed.
  - split; try congruence; intros u Hu; rewrite ?Em, ?Ed, ?Ep, ?Ef; auto.
Qed.

Lemma smon_depth_set g pk m d d' w0 w :
  smon self g pk m d w0 w ->
  smon self g pk m d' w0 (set_CALL_DEPTH (<[self := d']> (CALL_DEPTH w)) w).
Proof.
  intros [H1 H2 H3 H4 H5 [F0 F1 F2 F3 F4 F5 F6]]. split; try done.
  - unfold depth. simpl. by rewrite lookup_insert_eq.
  - split; try done. intros u Hu. simpl. rewrite lookup_insert_ne by done. auto.
Qed.

Lemma ts_depth_enter g pk m d :
  TS self (smon self g pk m d) (depth_enter self) (fun _ => smon self g pk m (wrap32 (d + 1))).
Proof.
  apply triple_act; [done|]. intros w0 w x w' HP E. simplify_eq.
  rewrite (smon_depth _ _ _ _ _ _ _ HP). by eapply smon_depth_set.
Qed.

Lemma ts_depth_exit g pk m d :
  TS self (smon self g pk m d) (depth_exit self) (fun _ => smon self g pk m (wrap32 (d - 1))).
Proof.
  apply triple_act; [done|]. intros w0 w x w' HP E. simplify_eq.
  rewrite (smon_depth _ _ _ _ _ _ _ HP). by eapply smon_depth_set.
Qed.

Lemma ts_internal A (p : P A) g pk m g' pk' m' d :
  in_u32 d ->
  (forall d', TS self (smon self g pk m d') p (fun _ => smon self g' pk' m' d')) ->
  TS self (smon self g pk m d) (with_internal_depth self p) (fun _ => smon self g' pk' m' d).
Proof.
  intros Hd Hp. unfold with_internal_depth.
  eapply triple_bind; [apply ts_depth_enter|intros ?].
  eapply triple_bind; [apply Hp|intros ?].
  eapply triple_bind; [apply ts_depth_exit|intros ?].
  rewrite wrap32_depth by done. by intros w0 w H.
Qed.

Lemma smon_set_gmtx g g' pk m d w0 w :
  smon self g pk m d w0 w -> smon self g' pk m d w0 (set_GMTX g' w).
Proof. intros [H1 H2 H3 H4 H5 [F0 F1 F2 F3 F4 F5 F6]]. split; done || by split. Qed.

Lemma ts_glock d :
  in_u32 d ->
  TS self (smon self None None false d) (glock self) (fun _ => smon self (Some self) None false d).
Proof.
  intros Hd. apply ts_internal; [done|]. intros d'.
  eapply triple_bind with (M := fun _ => smon self None None false d').
  - intros w0 w HP. split; [by exists d'|]. intros w' HR. simpl in HR.
    by rewrite (smon_depth _ _ _ _ _ _ _ HP) in HR.
  - intros ?. apply triple_act; [done|]. intros w0 w x w' HP E. simplify_eq.
    by eapply smon_set_gmtx.
Qed.

Lemma ts_update f g pk m d :
  (forall s s', f s = Ok s' -> quiet s s' /\ forall u, u <> self -> runnable s' u -> runnable s u) ->
  TS self (smon self g pk m d) (update_state f) (fun _ => smon self g pk m d).
Proof.
  intros Hq. apply triple_act; [done|]. intros w0 w x w' HP E.
  apply rbind_Ok in E as (s & Hs & E). apply expect_Ok in Hs.
  apply rbind_Ok in E as ([y s'] & Hf & E). apply rbind_Ok in Hf as (s1 & Hf & E1).
  simplify_eq. destruct (Hq _ _ Hf) as [Hq1 Hq2]. eapply smon_same, HP; try done.
  - intros u. unfold flagged. simpl. rewrite Hs. by rewrite (Hq1 u).
  - intros u Hu (s2 & [= <-] & Hr). exists s. auto.
Qed.

Lemma ts_box_set_ready sa g pk m d :
  TS self (smon self g pk m d) (box_set_ready sa) (fun _ => smon self g pk m d).
Proof.
  apply triple_act; [done|]. intros w0 w x w' HP E. apply rbind_Ok in E as (b & _ & E).
  simplify_eq. by eapply smon_same, HP.
Qed.

(** Announcing the registration wakes at most the creator. *)
Lemma ts_signal_ready sa g m d :
  in_u32 d ->
  TS self (smon self g None m d) (rpt_cond_signal L self (ReadyCond sa))
    (fun _ => smon self g None m d).
Proof.
  intros Hd. apply ts_internal; [done|]. intros d'. apply triple_act; [done|].
  intros w0 w x w' [H1 H2 H3 H4 H5 [F0 F1 F2 F3 F4 F5 F6]] E. injection E as _ <-.
  assert (S := signal_parked L (ReadyCond sa) w). cbv zeta in S.
  split; try done.
  - by destruct (S self) as [->|[_ ->]].
  - split; try done. intros u Hu. destruct (S u) as [->|[Hp ->]]; [auto|].
    destruct (F3 u Hu) as [E|(y & E & E')]; [|congruence]. right. exists sa. by rewrite <- E.
Qed.

Lemma ts_mark g d :
  TS self (smon self g None false d) (update_state (modify self (Thread.set_in_wait true)))
    (fun _ => smon self g None true d).
Proof.
  apply triple_act; [done|]. intros w0 w x w' [H1 H2 H3 H4 H5 [F0 F1 F2 F3 F4 F5 F6]] E.
  assert (Hrun : forall u, u <> self -> runnable_in w' u -> runnable_in w u).
  { apply rbind_Ok in E as (s & Hs & E). apply expect_Ok in Hs. apply rbind_Ok in E as ([y s'] & E & E1).
    apply rbind_Ok in E as (s1 & E & E2). simplify_eq. intros u Hu (s2 & [= <-] & Hr). exists s. split; [done|].
    by eapply runnable_modify. }
  apply (mark_world self true) in E as (s & s' & Hs & -> & Hf); [|by apply marks_modify].
  assert (Hn : forall u, u <> self -> flagged (set_STATE (Some s') w) u <-> flagged w u).
  { intros u Hu. unfold flagged. simpl. by rewrite Hs, Hf, decide_False. }
  split; try done; [unfold flagged; simpl; by rewrite Hf, decide_True|].
  split; try done; [|by eauto]. intros u Hu. rewrite Hn by done. auto.
Qed.

(** Asleep for the first time, [self] is an ordinary thread. *)
Lemma ts_sleep d :
  in_u32 d ->
  TS self (smon self (Some self) None true d)
    (rsched_cond_wait cfg L self (SuspendCond self)) (fun _ w0 w => flagged w0 self /\ mon self (Some self) None (eq self) d w0 w).
Proof.
  intros Hd. unfold rsched_cond_wait, sync_release, sync_acquire, tsan_ignore_end,
    tsan_ignore_begin, tsan_call. rewrite no_tsan. simpl.
  eapply triple_bind with (M := fun _ => smon self (Some self) None true d); [by intros w0 w H|intros ?].
  eapply triple_bind with (M := fun _ w0 w => flagged w0 self /\ mon self (Some self) None (eq self) d w0 w); [|by intros ? w0 w H].
  unfold with_internal_depth.
  eapply triple_bind; [apply ts_depth_enter|intros ?].
  eapply triple_bind with (M := fun _ w0 w =>
    flagged w0 self /\ mon self (Some self) None (eq self) (wrap32 (d + 1)) w0 w).
  - unfold pt_cond_wait.
    eapply triple_bind with (M := fun _ => smon self None (Some (SuspendCond self)) true (wrap32 (d + 1))).
    { apply triple_act; [done|]. intros w0 w x w' [H1 H2 H3 H4 H5 [F0 F1 F2 F3 F4 F5 F6]] E.
      case_bool_decide; simplify_eq. split; try done; [simpl; by rewrite lookup_insert_eq|].
      split; try done. intros u Hu. simpl. rewrite lookup_insert_ne by done. auto. }
    intros ?. eapply triple_bind with (M := fun _ w0 w =>
      flagged w0 self /\ mon self None None (eq self) (wrap32 (d + 1)) w0 w).
    { intros w0 w HP. split; [exact (conj eq_refl (ex_intro _ _ HP))|]. intros w' [Hf HR].
      split; [exact Hf|]. unfold Rely in HR. by rewrite (smon_depth _ _ _ _ _ _ _ HP) in HR. }
    intros ?. apply (triple_start _ _ _ _ _ _ _ (fun w0 => flagged w0 self)); [done|].
    eapply triple_no_suspend; [done|apply triple_set_gmtx].
  - intros ?. apply (triple_start _ _ _ _ _ _ _ (fun w0 => flagged w0 self)); [done|].
    eapply triple_no_suspend; [done|].
    eapply triple_bind; [apply triple_depth_exit|intros ?].
    rewrite wrap32_depth by done. apply triple_ret_any.
Qed.

(** A thread that was just created: its thread-locals are reset, it is not
    marked. *)
Definition newborn (w0 w : World) : Prop :=
  w0 = w /\ GMTX w = None /\ parked w !! self = None /\ ~ flagged w self /\ depth w self = 0.

Lemma ts_set_my_pt :
  TS self newborn (set_my_pt self self) (fun _ => smon self None None false 0).
Proof.
  apply triple_act; [done|]. intros w0 w x w' (-> & H1 & H2 & H3 & H4) E. simplify_eq.
  split; try done; [simpl; by rewrite lookup_insert_eq|].
  split; try done; [|by auto]. intros u Hu. simpl. by rewrite lookup_insert_ne.
Qed.

Lemma ts_trampoline_start sa :
  TS self newborn (trampoline_start cfg L self sa)
    (fun _ w0 w => flagged w0 self /\ free self 0 w0 w).
Proof.
  unfold trampoline_start.
  eapply triple_bind with (M := fun _ => newborn).
  { apply triple_act; [done|]. intros w0 w x w' HP E. apply rbind_Ok in E as (b & _ & E).
    by simplify_eq. }
  intros start.
  eapply triple_bind; [apply ts_set_my_pt|intros ?].
  eapply triple_bind; [apply ts_depth_enter|intros ?]. change (wrap32 (0 + 1)) with 1.
  eapply triple_bind; [by apply ts_glock|intros ?].
  eapply triple_bind; [apply triple_own_tid|intros my_tid].
  eapply triple_bind.
  { apply ts_update. intros s s' E. split; [by eapply quiet_modify, E|]. intros u Hu. by eapply runnable_modify. }
  intros ?.
  eapply triple_bind; [apply ts_box_set_ready|intros ?].
  eapply triple_bind; [by apply ts_signal_ready|intros ?].
  rewrite no_tsan. simpl when.
  eapply triple_bind.
  - eapply triple_bind; [apply ts_mark|intros ?].
    eapply triple_bind; [by apply ts_sleep|intros ?].
    apply (triple_start _ _ _ _ _ _ _ (fun w0 => flagged w0 self)); [done|].
    eapply triple_no_suspend; [done|]. apply triple_unmark, marks_modify.
  - intros ?. apply (triple_start _ _ _ _ _ _ _ (fun w0 => flagged w0 self)); [by repeat split|].
    eapply triple_no_suspend; [by repeat split|].
    eapply triple_bind; [by apply triple_gunlock|intros ?].
    eapply triple_bind; [apply triple_depth_exit|intros ?]. apply triple_ret_any.
Qed.
End Starting.
