(* ===== verification/System.v ===== *)
(** The process: its threads, and how their segments interleave.

    A thread is in its own code, or inside the library at a suspension, or dead.
    An event lets one thread make a call or go on after its suspension; the
    segment it runs is atomic (it holds the global mutex, or runs before it takes
    it).  What a thread does in its own code is an arbitrary write to memory. *)
From S2P Require Import Prelude Event Scheduler Machine State Runtime Memory Api Atomics Elf Preload Discipline Starting.
Import StateOps.

(** What follows a call: the thread goes on with its own code, or it ends. *)
Inductive After : Set := Return | Terminate.

(** The calls of a program. *)
Inductive Call : Set :=
| NoteMutexattrInit (attr : Z)
| NoteMutexattrSettype (attr kind : Z)
| NoteMutexattrDestroy (attr : Z)
| NoteMutexInit (lock attr : Z)
| NoteMutexDestroy (lock : Z)
| PthreadCreate (ra attr start arg : Z)
| PthreadJoin (thread : PthreadT)
| PthreadExit
| MutexLock (ra lock : Z)
| MutexTrylock (ra lock : Z)
| MutexUnlock (ra lock : Z)
| CondWait (cond lock : Z)
| CondSignal (cond : Z)
| CondBroadcast (cond : Z)
| BarrierInit (barrier attr count : Z)
| BarrierWait (barrier : Z)
| Yield (ra : Z)
| Atomic (op : AtomicOp) (ra ptr : Z)
| Reinit (seed : Z)
(** the start routine of a gated thread of the sanitizer build *)
| UserStartGate (raw : Z)
(** The same functions through the preloaded interceptors, and the sleeps. *)
| Intercept (i : Intercepted)
| InterceptExit
(** The start routine of the thread returns to [trampoline]. *)
| RoutineReturns.

(** * Threads *)
Inductive Ctl : Type :=
| User
(** inside the library, in the call [k] *)
| InLib (k : Call) (b : Blocker) (rest : P After)
(** in [trampoline], before the start routine *)
| Starting (b : Blocker) (rest : P After)
| Dead.

(** The control states of the threads: the first entry for a thread counts. *)
Abbreviation Ctls := (list (PthreadT * Ctl)) (only parsing).

Fixpoint get (u : PthreadT) (c : Ctls) : option Ctl :=
  match c with
  | [] => None
  | (v, x) :: c' => if decide (v = u) then Some x else get u c'
  end.
Definition put (u : PthreadT) (x : Ctl) (c : Ctls) : Ctls := (u, x) :: c.

Record Sys : Type := mkSys { world : World; ctl : Ctls }.

Inductive Happens : Type :=
| Calls (u : PthreadT) (c : Call)
| Writes (u : PthreadT) (m : gmap Z Z)
| Begins (u : PthreadT) (sa : Z)
| Resumes (u : PthreadT)
(** [pthread_cond_wait] returns without a signal, as POSIX allows. *)
| SpuriousWake (u : PthreadT).

Definition alive (c : Ctls) (u : PthreadT) : bool :=
  match get u c with Some Dead | None => false | Some _ => true end.

Section System.
Context (cfg : Cfg) (L : Libc) (env : string -> option string).
Context (code_bytes : Z -> nat -> list Z) (gate_address : Z) (D : Linker).

Definition returns {A} (p : P A) : P After := p ;; Ret Return.

Definition run_call (u : PthreadT) (c : Call) : P After :=
  match c with
  | NoteMutexattrInit attr => returns (rsched_note_pthread_mutexattr_init cfg L env u attr)
  | NoteMutexattrSettype attr kind => returns (rsched_note_pthread_mutexattr_settype cfg L env u attr kind)
  | NoteMutexattrDestroy attr => returns (rsched_note_pthread_mutexattr_destroy cfg L env u attr)
  | NoteMutexInit lock attr => returns (rsched_note_pthread_mutex_init cfg L env u lock attr)
  | NoteMutexDestroy lock => returns (rsched_note_pthread_mutex_destroy cfg L env u lock)
  | PthreadCreate ra attr start a =>
      returns (rsched_pthread_create cfg L env code_bytes gate_address u ra attr start a)
  | PthreadJoin thread => returns (rsched_pthread_join cfg L env u thread)
  | PthreadExit => rsched_pthread_exit cfg L env u ;; Ret Terminate
  | MutexLock ra lock => returns (rsched_pthread_mutex_lock cfg L env u ra lock)
  | MutexTrylock ra lock => returns (rsched_pthread_mutex_trylock cfg L env u ra lock)
  | MutexUnlock ra lock => returns (rsched_pthread_mutex_unlock cfg L env u ra lock)
  | CondWait cond lock => returns (rsched_pthread_cond_wait cfg L env u cond lock)
  | CondSignal cond => returns (rsched_pthread_cond_signal cfg L env u cond)
  | CondBroadcast cond => returns (rsched_pthread_cond_broadcast cfg L env u cond)
  | BarrierInit barrier attr count => returns (rsched_pthread_barrier_init cfg L env u barrier attr count)
  | BarrierWait barrier => returns (rsched_pthread_barrier_wait cfg L env u barrier)
  | Yield ra => returns (rsched_sched_yield cfg L env u ra)
  | Atomic op ra ptr => returns (run_atomic cfg L env u op ra ptr)
  | UserStartGate raw => returns (tsan_user_start_gate cfg L u raw)
  | Reinit seed => returns (rsched_reinit cfg L env u seed)
  | Intercept i => returns (run_intercepted cfg L env code_bytes gate_address D u i)
  | InterceptExit => pthread_exit cfg L env u ;; Ret Terminate
  | RoutineReturns => trampoline_end cfg L u ;; Ret Terminate
  end.

(** The contract of [rsched_reinit]: every other thread was joined.  A start
    routine returns only in a thread that [rsched_pthread_create] made.  The start gate
    is a function of the sanitizer build. *)
Definition call_allowed (σ : Sys) (u : PthreadT) (c : Call) : bool :=
  match c with
  | Reinit _ =>
      forallb (fun p => bool_decide (fst p = u) || negb (alive (ctl σ) (fst p))) (ctl σ) &&
      bool_decide (spawned (world σ) = [])
  | RoutineReturns => INITED (world σ)
  | UserStartGate _ => tsan cfg
  | _ => true
  end.

(** The ids the C library gives to new threads differ from those of live ones. *)
Definition children_fresh (w : World) (c : Ctls) : bool :=
  bool_decide (NoDup (fst <$> spawned w)) &&
  forallb (fun p => negb (alive c (fst p))) (spawned w).

(** The thread [u] has run a segment; [asleep] is the form of its suspension. *)
Definition settle (asleep : Blocker -> P After -> Ctl) (u : PthreadT) (c : Ctls)
    (o : outcome World Blocker After) : option Sys :=
  match o with
  | Done a w =>
      if children_fresh w (put u User c)
      then Some (mkSys w (put u (match a with Return => User | Terminate => Dead end) c)) else None
  | Blocked w b rest =>
      if children_fresh w (put u User c) then Some (mkSys w (put u (asleep b rest) c)) else None
  | Panicked _ | OutOfFuel => None
  end.

(** When a suspended thread may go on. *)
Definition resumable (σ : Sys) (u : PthreadT) (b : Blocker) : bool :=
  match b with
  | OnGmtx => bool_decide (GMTX (world σ) = None)
  | OnCond _ => bool_decide (GMTX (world σ) = None) && bool_decide (parked (world σ) !! u = None)
  | OnJoin t => bool_decide (is_Some (get t (ctl σ))) && negb (alive (ctl σ) t) &&
                bool_decide (t ∉ fst <$> spawned (world σ))
  end.

(** The thread-locals of a new OS thread. *)
Definition new_thread (u : PthreadT) (sa : Z) (w : World) : World :=
  set_MY_PT (delete u (MY_PT w)) (set_CALL_DEPTH (delete u (CALL_DEPTH w))
    (set_spawned (filter (fun p => p <> (u, sa)) (spawned w)) w)).

Definition happens (fuel : nat) (e : Happens) (σ : Sys) : option Sys :=
  let w := world σ in
  match e with
  | Calls u c =>
      match get u (ctl σ) with
      | Some User => if call_allowed σ u c
                     then settle (InLib c) u (ctl σ) (eval fuel (run_call u c) w) else None
      | _ => None
      end
  | Writes u m =>
      match get u (ctl σ) with Some User => Some (mkSys (set_mem m w) (ctl σ)) | _ => None end
  | Begins u sa =>
      if bool_decide ((u, sa) ∈ spawned w)
      then settle Starting u (ctl σ) (eval fuel (returns (trampoline_start cfg L u sa)) (new_thread u sa w))
      else None
  | Resumes u =>
      match get u (ctl σ) with
      | Some (InLib k b rest) =>
          if resumable σ u b then settle (InLib k) u (ctl σ) (eval fuel rest w) else None
      | Some (Starting b rest) =>
          if resumable σ u b then settle Starting u (ctl σ) (eval fuel rest w) else None
      | _ => None
      end
  | SpuriousWake u =>
      match parked w !! u with
      | Some _ => Some (mkSys (set_parked (delete u (parked w)) w) (ctl σ))
      | None => None
      end
  end.

(** A sequence of events. *)
Fixpoint runs (fuel : nat) (es : list Happens) (σ : Sys) : option Sys :=
  match es with
  | [] => Some σ
  | e :: es' => match happens fuel e σ with Some σ' => runs fuel es' σ' | None => None end
  end.

(** One step, with as much fuel as the segment needs, without spurious wake-ups. *)
Definition spurious (e : Happens) : bool :=
  match e with SpuriousWake _ => true | _ => false end.
Definition step (σ σ' : Sys) : Prop :=
  exists fuel e, spurious e = false /\ happens fuel e σ = Some σ'.

(** The process starts with its main thread, before the library is initialised. *)
Definition sys0 (main : PthreadT) (m : gmap Z Z) : Sys := mkSys (set_mem m world0) [(main, User)].
Inductive reachable (main : PthreadT) (m : gmap Z Z) : Sys -> Prop :=
| reachable_start : reachable main m (sys0 main m)
| reachable_step σ σ' : reachable main m σ -> step σ σ' -> reachable main m σ'.

(** The threads that have the processor, or will get it without being woken by
    another thread of the program.  A thread that waits for its first turn and
    one that sleeps on its [suspend_cond] have not. *)
Definition active (σ : Sys) (u : PthreadT) : bool :=
  match get u (ctl σ) with
  | Some User => true
  | Some (InLib _ (OnCond (SuspendCond _)) _)
  | Some (Starting (OnCond (SuspendCond _)) _) => bool_decide (parked (world σ) !! u = None)
  | Some (InLib _ _ _) => true
  | Some (Starting _ _) | Some Dead | None => false
  end.
End System.
