(* ===== verification/Exclusion.v ===== *)
(** Cooperative exclusion: in every reachable state of a process built without the
    thread-sanitizer feature, at most one thread is active.

    The invariant names the thread whose turn it is.  Every other thread that
    entered the library is marked and really asleep on its own condition, or has
    not registered yet. *)
From S2P Require Import Prelude Event Scheduler Machine State Runtime Sample Memory Api Atomics Elf Preload Discipline Conduct Interposition Starting System.
Import StateOps.

Lemma get_put_eq u x c : get u (put u x c) = Some x.
Proof. simpl. by rewrite decide_True. Qed.
Lemma get_put_ne u v x c : v <> u -> get v (put u x c) = get v c.
Proof. intros H. simpl. by rewrite decide_False. Qed.
Lemma alive_put_ne u v x c : v <> u -> alive (put u x c) v = alive c v.
Proof. intros H. unfold alive. by rewrite get_put_ne. Qed.

#[export] Instance flagged_dec w u : Decision (flagged w u).
Proof. unfold flagged. destruct (STATE w); apply _. Defined.

(** What holds when a call ends. *)
Definition ends (u : PthreadT) (a : After) (w0 w : World) : Prop :=
  match a with Return => entry u 0 w0 w | Terminate => exists d, exited u d w0 w end.

(** What holds when [trampoline] is about to run the start routine. *)
Definition set_off (u : PthreadT) (a : After) (w0 w : World) : Prop :=
  a = Return /\ flagged w0 u /\ free u 0 w0 w.

(** * The invariant *)

(** The thread sleeps on its [suspend_cond], or it was woken and it is its turn. *)
Definition sleeping (h : option PthreadT) (w : World) (u c : PthreadT) : Prop :=
  c = u /\ flagged w u /\
  (parked w !! u = Some (SuspendCond u) \/ parked w !! u = None /\ h = Some u).

Definition lib_turn (h : option PthreadT) (w : World) (u : PthreadT) (b : Blocker) : Prop :=
  match b with
  | OnCond (SuspendCond c) => sleeping h w u c
  | OnCond (ReadyCond sa) => h = Some u /\ forall c, parked w !! u = Some c -> c = ReadyCond sa
  | OnGmtx | OnJoin _ => h = Some u /\ parked w !! u = None
  end.

Definition lib_rest (w : World) (u : PthreadT) (b : Blocker) (rest : P After) : Prop :=
  forall v, mon u None None (match b with OnCond (SuspendCond _) => eq u | _ => nobody end) (depth w u) v v ->
    wp (Guar u) (Rely u) (fun _ => True) rest (ends u) v v.

Definition start_turn (h : option PthreadT) (w : World) (u : PthreadT) (b : Blocker) (rest : P After) : Prop :=
  match b with
  | OnGmtx =>
      ~ flagged w u /\ parked w !! u = None /\ h <> Some u /\
      forall v, smon u None None false (depth w u) v v ->
        wp (StartGuar u) (StartRely u) (fun _ => True) rest (set_off u) v v
  | OnCond (SuspendCond c) =>
      sleeping h w u c /\
      forall v, flagged v u -> mon u None None (eq u) (depth w u) v v ->
        wp (StartGuar u) (StartRely u) (fun _ => True) rest (set_off u) v v
  | _ => False
  end.

Definition thread_ok (h : option PthreadT) (w : World) (u : PthreadT) (x : Ctl) : Prop :=
  match x with
  | Dead => True
  | User => h = Some u /\ parked w !! u = None /\ depth w u = 0 /\
            (INITED w = true -> MY_PT w !! u = Some u)
  | InLib k b rest => (MY_PT w !! u = Some u /\ INITED w = true) /\ lib_turn h w u b /\ lib_rest w u b rest
  | Starting b rest => (MY_PT w !! u = Some u /\ INITED w = true) /\ start_turn h w u b rest
  end.

Definition on_suspend (o : option Ctl) : Prop :=
  match o with
  | Some (InLib _ (OnCond (SuspendCond _)) _) | Some (Starting (OnCond (SuspendCond _)) _) => True
  | _ => False
  end.

(** The invariant, the thread [s] aside: it is about to run its first segments. *)
Record inv_but (s : option PthreadT) (w : World) (c : list (PthreadT * Ctl)) (h : option PthreadT) : Prop := mkInv {
  inv_gmtx : GMTX w = None;
  inv_parked_ok : parked_ok w;
  inv_flags u : flagged w u ->
    parked w !! u = Some (SuspendCond u) \/ h = Some u /\ on_suspend (get u c);
  inv_alive u x : parked w !! u = Some x -> alive c u = true;
  inv_threads u x : s <> Some u -> get u c = Some x -> thread_ok h w u x;
  inv_fresh : NoDup (fst <$> spawned w) /\ forall u, spawned_in w u -> alive c u = false;
  inv_init : INITED w = false -> (forall u, ~ flagged w u) /\ spawned w = [];
  inv_turn u : h = Some u -> alive c u = true
}.

Abbreviation inv σ h := (inv_but None (world σ) (ctl σ) h).

Lemma children_fresh_spec w c :
  children_fresh w c = true <->
  NoDup (fst <$> spawned w) /\ forall u, spawned_in w u -> alive c u = false.
Proof.
  unfold children_fresh. rewrite andb_true_iff, bool_decide_eq_true, forallb_forall.
  split; intros [H1 H2]; (split; [done|]).
  - intros u [sa Hu]. apply negb_true_iff. apply (H2 (u, sa)). by apply list_elem_of_In.
  - intros [u sa] Hu. apply negb_true_iff, H2. exists sa. by apply list_elem_of_In.
Qed.

(** * A segment of the thread whose turn it is *)

(** Whose turn it is next: [u] itself, or one thread it woke, or nobody. *)
Definition next_turn (u : PthreadT) (ex : PthreadT -> Prop) (w' : World) (c : list (PthreadT * Ctl))
    (h' : option PthreadT) : Prop :=
  (forall v, v <> u -> ex v -> flagged w' v -> parked w' !! v = None -> h' = Some v) /\
  (forall v, h' = Some v -> v <> u -> alive c v = true /\ flagged w' v).

Section Segment.
Context (u : PthreadT) (w w' : World) (c : list (PthreadT * Ctl)).
Context (pk : option CondId) (ex : PthreadT -> Prop) (d : Z) (h' : option PthreadT).
Hypothesis (I : inv_but None w c (Some u)).
Hypothesis (M : mon u None pk ex d w w').
Hypothesis (F : children_fresh w' (put u User c) = true).
Hypothesis (N : next_turn u ex w' c h').

Lemma not_spawned v : alive c v = true -> ~ spawned_in w' v.
Proof.
  apply children_fresh_spec in F as [_ F']. intros Ha Hs. apply F' in Hs.
  destruct (decide (v = u)) as [->|Hne]; [by unfold alive in Hs; rewrite get_put_eq in Hs|].
  rewrite alive_put_ne in Hs by done. congruence.
Qed.

Lemma others_depth v : v <> u -> depth w' v = depth w v.
Proof. intros Hv. unfold depth. by rewrite (proj2 (frame_tls _ _ _ (mon_frame _ _ _ _ _ _ _ M) v Hv)). Qed.

Lemma others_my v : v <> u -> MY_PT w' !! v = MY_PT w !! v.
Proof. intros Hv. apply (frame_tls _ _ _ (mon_frame _ _ _ _ _ _ _ M) v Hv). Qed.

(** A sleeper stays asleep, or was woken and it is its turn. *)
Lemma others_sleeping v x :
  v <> u -> alive c v = true -> sleeping (Some u) w v x -> sleeping h' w' v x.
Proof.
  intros Hv Ha (-> & Hf & Hs). split; [done|].
  assert (Hf' : flagged w' v).
  { apply (frame_flag _ _ _ (mon_frame _ _ _ _ _ _ _ M) v Hv); [|done]. by apply not_spawned. }
  split; [done|]. destruct Hs as [Hp|[_ E]]; [|congruence].
  destruct (frame_parked _ _ _ (mon_frame _ _ _ _ _ _ _ M) v Hv) as [E|E]; [left; congruence|].
  destruct (mon_flags _ _ _ _ _ _ _ M v Hf') as [Hx|Hx]; [|by left].
  right. split; [done|]. by apply N.
Qed.

Lemma others_thread_ok v x : v <> u -> get v c = Some x -> thread_ok h' w' v x.
Proof.
  intros Hv Hg. pose proof (inv_threads _ _ _ _ I v x ltac:(done) Hg) as Ht.
  assert (Hi := mon_inited _ _ _ _ _ _ _ M).
  destruct x as [|k b rest|b rest|]; simpl in *; [destruct Ht; congruence| | |done].
  - destruct Ht as ([Hm _] & Hturn & Hrest). rewrite others_my by done.
    unfold lib_rest. rewrite others_depth by done. repeat (split; [done|]). split; [|done].
    destruct b as [|[x|sa]|t]; simpl in *; try (destruct Hturn; congruence).
    apply others_sleeping; [done| |done]. unfold alive. by rewrite Hg.
  - destruct Ht as ([Hm _] & Hturn). rewrite others_my by done. split; [done|].
    destruct b as [|[x|sa]|t]; simpl in *; rewrite ?others_depth by done; try done.
    + destruct Hturn as (Hf & Hp & Hh & Hrest).
      assert (~ flagged w' v).
      { intros Hf'. by apply Hf, (frame_unflag _ _ _ (mon_frame _ _ _ _ _ _ _ M) v Hv). }
      split; [done|]. split; [|split; [|done]].
      * destruct (frame_parked _ _ _ (mon_frame _ _ _ _ _ _ _ M) v Hv); congruence.
      * intros E. by apply N in E as [_ E].
    + destruct Hturn as [Hs Hrest]. split; [|done]. apply others_sleeping; [done| |done].
      unfold alive. by rewrite Hg.
Qed.

(** The invariant after the segment, once [u]'s own part is known. *)
Lemma segment_inv x :
  thread_ok h' w' u x ->
  (pk <> None -> alive (put u x c) u = true) ->
  (flagged w' u -> parked w' !! u = Some (SuspendCond u)) ->
  (h' = Some u -> alive (put u x c) u = true) ->
  inv_but None w' (put u x c) h'.
Proof.
  intros Hu Hpk Hfl Hh. split.
  - apply M.
  - apply M.
  - intros v Hf. destruct (decide (v = u)) as [->|Hne]; [left; auto|].
    assert (Hw : flagged w v) by by apply (frame_unflag _ _ _ (mon_frame _ _ _ _ _ _ _ M) v Hne).
    destruct (mon_flags _ _ _ _ _ _ _ M v Hf) as [Hx|Hx]; [|by left].
    destruct (inv_flags _ _ _ _ I v Hw) as [Hp|[E _]]; [|congruence].
    destruct (frame_parked _ _ _ (mon_frame _ _ _ _ _ _ _ M) v Hne) as [E|E]; [left; congruence|].
    right. split; [by apply N|]. rewrite get_put_ne by done.
    pose proof (inv_alive _ _ _ _ I v _ Hp) as Ha. unfold alive in Ha.
    destruct (get v c) as [y|] eqn:Hg; [|done].
    pose proof (inv_threads _ _ _ _ I v y ltac:(done) Hg) as Ht.
    destruct y as [|k b rest|b rest|]; simpl in *; [destruct Ht; congruence| | |done].
    + destruct Ht as (_ & Ht & _). destruct b as [|[z|sa]|t]; simpl in *; try done; destruct Ht; congruence.
    + destruct Ht as (_ & Ht). destruct b as [|[z|sa]|t]; simpl in *; try done.
      destruct Ht as (_ & Ht & _). congruence.
  - intros v y Hp. destruct (decide (v = u)) as [->|Hne].
    + apply Hpk. rewrite (mon_self _ _ _ _ _ _ _ M) in Hp. congruence.
    + rewrite alive_put_ne by done.
      destruct (frame_parked _ _ _ (mon_frame _ _ _ _ _ _ _ M) v Hne) as [E|E]; [|congruence].
      rewrite E in Hp. by apply (inv_alive _ _ _ _ I v y).
  - intros v y _ Hg. destruct (decide (v = u)) as [->|Hne].
    + rewrite get_put_eq in Hg. by simplify_eq.
    + rewrite get_put_ne in Hg by done. by apply others_thread_ok.
  - apply children_fresh_spec in F as [F1 F2]. split; [done|]. intros v Hs.
    specialize (F2 v Hs). destruct (decide (v = u)) as [->|Hne].
    + unfold alive in F2. by rewrite get_put_eq in F2.
    + by rewrite alive_put_ne in * by done.
  - by rewrite (mon_inited _ _ _ _ _ _ _ M).
  - intros v E. destruct (decide (v = u)) as [->|Hne]; [auto|].
    rewrite alive_put_ne by done. by apply N.
Qed.
End Segment.

(** The next turn exists. *)
Lemma next_turn_self u w' c : next_turn u nobody w' c (Some u).
Proof. split; [by intros v _ []|]. intros v [= ->] Hv. done. Qed.

Lemma next_turn_woken u w w' c pk d next :
  inv_but None w c (Some u) -> mon u None pk (eq next) d w w' ->
  exists h', next_turn u (eq next) w' c h' /\ h' <> Some u.
Proof.
  intros I M.
  destruct (decide (next <> u /\ flagged w' next /\ parked w' !! next = None)) as [(Hn & Hf & Hp)|Hno].
  - exists (Some next). split; [|congruence]. split; [by intros v _ <-|].
    intros v [= <-] _. split; [|done].
    assert (Hw : flagged w next) by by apply (frame_unflag _ _ _ (mon_frame _ _ _ _ _ _ _ M) next Hn).
    destruct (inv_flags _ _ _ _ I next Hw) as [Hp'|[E _]]; [|congruence].
    by apply (inv_alive _ _ _ _ I next _ Hp').
  - exists None. split; [|done]. split; [|done]. intros v Hv <- Hf Hp. by destruct Hno.
Qed.

(** * Every event keeps the invariant *)
Section Preservation.
Context (cfg : Cfg) (L : Libc) (env : string -> option string).
Context (code_bytes : Z -> nat -> list Z) (gate_address : Z) (D : Linker).
Hypothesis no_tsan : tsan cfg = false.

(** A call that ends before the library is initialised changed nothing of this. *)
Lemma calm_inv u w w' c :
  inv_but None w c (Some u) -> calm u 0 w w' -> inv_but None w' (put u User c) (Some u).
Proof.
  intros [I1 I2 I3 I4 I5 I6 I7 I8] (Hi & Ha & C1 & C2 & C3 & C4 & C5).
  destruct Ha as (_ & _ & A3 & A4 & A5 & A6 & A7).
  assert (Hg : get u c = Some User).
  { specialize (I8 u eq_refl). unfold alive in I8. destruct (get u c) as [x|] eqn:Hg; [|done].
    specialize (I5 u x ltac:(done) Hg). destruct x as [|k b rest|b rest|]; simpl in I5; try done;
      destruct I5 as [[_ ?] _]; congruence. }
  assert (Hal : forall v, alive (put u User c) v = alive c v).
  { intros v. destruct (decide (v = u)) as [->|Hne]; [|by apply alive_put_ne].
    unfold alive. by rewrite get_put_eq, Hg. }
  split; try done.
  - intros v Hf. by destruct (C5 v).
  - intros v x. rewrite A3, Hal. apply I4.
  - intros v x _ Hv. destruct (decide (v = u)) as [->|Hne].
    + rewrite get_put_eq in Hv. simplify_eq. repeat (split; [done|]). congruence.
    + rewrite get_put_ne in Hv by done. specialize (I5 v x ltac:(done) Hv).
      destruct x as [|k b rest|b rest|]; simpl in *; [destruct I5; congruence| | |done];
        destruct I5 as [[_ ?] _]; congruence.
  - unfold spawned_in. rewrite A4. split; [apply I6|]. intros v Hv. rewrite Hal. by apply I6.
  - intros _. split; [done|]. rewrite A4. apply I7. congruence.
  - intros v. rewrite Hal. apply I8.
Qed.

(** The end of a segment of an ordinary thread. *)
Lemma settle_inv u k w c o σ' :
  inv_but None w c (Some u) ->
  promised (Guar u) (Rely u) (fun _ => True) (ends u) w o ->
  settle (InLib k) u c o = Some σ' -> exists h', inv σ' h'.
Proof.
  intros I HP E. destruct o as [a w'|w' b rest|e|]; simpl in E; try done.
  - destruct (children_fresh w' (put u User c)) eqn:F; simplify_eq. simpl.
    destruct a; simpl in HP; [destruct HP as [HP|HC]|destruct HP as [d HP]].
    + exists (Some u). eapply segment_inv; try done.
      * apply next_turn_self.
      * simpl. destruct HP. by repeat split.
      * intros Hf. destruct (mon_flags _ _ _ _ _ _ _ HP u Hf) as [[]|]; done.
      * intros _. unfold alive. by rewrite get_put_eq.
    + exists (Some u). by apply (calm_inv u w).
    + destruct HP as (Hf & next & HM).
      destruct (next_turn_woken _ _ _ _ _ _ _ I HM) as (h' & HN & Hh').
      exists h'. by eapply segment_inv.
  - destruct (children_fresh w' (put u User c)) eqn:F; simplify_eq. simpl.
    destruct HP as [[d HG] HR].
    assert (Ha : alive (put u (InLib k b rest) c) u = true) by (unfold alive; by rewrite get_put_eq).
    assert (Hturn : forall pk, match b with OnCond (SuspendCond _) => False | _ => True end ->
      mon u None pk nobody d w w' ->
      (flagged w' u -> parked w' !! u = Some (SuspendCond u)) ->
      thread_ok (Some u) w' u (InLib k b rest) -> exists h', inv_but None w' (put u (InLib k b rest) c) h').
    { intros pk Hb HM Hfl Ht. exists (Some u). eapply segment_inv; try done. apply next_turn_self. }
    assert (Hrest : lib_rest w' u b rest) by (intros v Hv; by apply HR).
    destruct b as [|[x|sa]|t]; simpl in HG.
    + eapply Hturn; [done|exact HG| |].
      * intros Hf. destruct (mon_flags _ _ _ _ _ _ _ HG u Hf) as [[]|]; done.
      * simpl. split; [split; apply HG|]. split; [split; [done|apply HG]|]. exact Hrest.
    + destruct HG as (-> & Hf & next & HM).
      destruct (next_turn_woken _ _ _ _ _ _ _ I HM) as (h' & HN & Hh').
      exists h'. eapply segment_inv; try done.
      * simpl. split; [split; apply HM|]. split; [|exact Hrest].
        split; [done|]. split; [done|]. left. apply HM.
      * intros _. apply HM.
    + eapply Hturn; [done|exact HG| |].
      * intros Hf. destruct (mon_flags _ _ _ _ _ _ _ HG u Hf) as [[]|]; done.
      * simpl. split; [split; apply HG|]. split; [|exact Hrest]. split; [done|].
        intros y. rewrite (mon_self _ _ _ _ _ _ _ HG). congruence.
    + eapply Hturn; [done|exact HG| |].
      * intros Hf. destruct (mon_flags _ _ _ _ _ _ _ HG u Hf) as [[]|]; done.
      * simpl. split; [split; apply HG|]. split; [split; [done|apply HG]|]. exact Hrest.
Qed.

(** The end of a segment of a thread in [trampoline]: before it has slept for the
    first time ([~ flagged w u]), and after. *)
Lemma start_settle_inv u w c h o σ' :
  inv_but (Some u) w c h -> ~ flagged w u -> h <> Some u -> INITED w = true ->
  parked w !! u = None ->
  promised (StartGuar u) (StartRely u) (fun _ => True) (set_off u) w o ->
  settle Starting u c o = Some σ' -> exists h', inv σ' h'.
Proof.
  intros [I1 I2 I3 I4 I5 I6 I7 I8] Hnf Hh Hi Hpu HP E.
  destruct o as [a w'|w' b rest|e|]; simpl in E; try done.
  { by destruct HP as (_ & Hf & _). }
  destruct (children_fresh w' (put u User c)) eqn:F; simplify_eq. simpl.
  destruct HP as [HG HR].
  assert (exists pk m d, smon u None pk m d w w' /\
    (pk = None /\ m = false /\ b = OnGmtx \/
     pk = Some (SuspendCond u) /\ m = true /\ b = OnCond (SuspendCond u))) as (pk & m & d & HM & Hpk).
  { destruct b as [|[x|sa]|t]; simpl in HG; try done.
    - destruct HG as [d HM]. exists None, false, d. auto.
    - destruct HG as (-> & d & HM). exists (Some (SuspendCond u)), true, d. auto. }
  destruct HM as [M1 M2 M3 M4 M5 [S1 S2 S3 S4 S5 S6]].
  assert (Hsusp : forall v y, parked w' !! v = Some (SuspendCond y) -> v <> u ->
            parked w !! v = Some (SuspendCond y)).
  { intros v y Hp Hv. destruct (S4 v Hv) as [<-|(sa & _ & E)]; [done|congruence]. }
  assert (Hsusp' : forall v y, parked w !! v = Some (SuspendCond y) -> v <> u ->
            parked w' !! v = Some (SuspendCond y)).
  { intros v y Hp Hv. destruct (S4 v Hv) as [->|(sa & E & _)]; [done|congruence]. }
  assert (Hnone : forall v, v <> u -> parked w !! v = None -> parked w' !! v = None).
  { intros v Hv Hp. destruct (S4 v Hv) as [->|(sa & _ & E)]; done. }
  assert (Hsleep : forall v y, v <> u -> sleeping h w v y -> sleeping h w' v y).
  { intros v y Hv (-> & Hf & Hs). split; [done|]. rewrite S3 by done. split; [done|].
    destruct Hs as [Hs|[Hs ?]]; [left|right]; auto. }
  exists h. split.
  - done.
  - intros v y Hp. destruct (decide (v = u)) as [->|Hne]; [|by apply Hsusp, I2 in Hp].
    rewrite M2 in Hp. destruct Hpk as [(-> & _)|(-> & _)]; congruence.
  - intros v Hf. destruct (decide (v = u)) as [->|Hne].
    + left. destruct Hpk as [(-> & -> & _)|(-> & _)]; [done|congruence].
    + rewrite S3 in Hf by done. rewrite get_put_ne by done.
      destruct (I3 v Hf) as [Hp|[Hh' Ho]]; [left; auto|by right].
  - intros v y Hp. destruct (decide (v = u)) as [->|Hne]; [unfold alive; by rewrite get_put_eq|].
    rewrite alive_put_ne by done. destruct (S4 v Hne) as [E|(sa & _ & E)]; [|congruence].
    rewrite E in Hp. by eapply I4.
  - intros v y _ Hg. destruct (decide (v = u)) as [->|Hne].
    + rewrite get_put_eq in Hg. injection Hg as <-. simpl. rewrite S6.
      destruct Hpk as [(-> & -> & ->)|(-> & -> & ->)]; simpl.
      * repeat (split; [done|]). by intros v Hv; apply HR.
      * split; [done|]. split; [by split; [|split; [|left]]|]. intros v Hf Hv. by apply HR.
    + rewrite get_put_ne in Hg by done. assert (Ht := I5 v y ltac:(congruence) Hg).
      destruct (S2 v Hne) as [Em Ed].
      assert (Edp : depth w' v = depth w v) by (unfold depth; by rewrite Ed).
      destruct y as [|k' b' rest'|b' rest'|]; simpl in *; [| | |done].
      * destruct Ht as (H1 & H2 & H3 & H4). rewrite Em, Edp, S6. auto.
      * destruct Ht as ((H1 & H2) & H3 & H4). unfold lib_rest. rewrite Em, Edp, S6.
        split; [done|]. split; [|done]. destruct b' as [|[z|sa]|t]; simpl in *; auto.
        -- destruct H3; auto.
        -- destruct H3 as [H3 H3']. split; [done|]. intros z Hp. apply H3'.
           destruct (S4 v Hne) as [<-|(? & _ & E)]; congruence.
        -- destruct H3; auto.
      * destruct Ht as ((H1 & H2) & H3). rewrite Em, S6. split; [done|].
        destruct b' as [|[z|sa]|t]; simpl in *; rewrite ?Edp, ?S3 by done; try done.
        -- destruct H3 as (? & ? & ? & ?). auto.
        -- destruct H3 as (? & ?). auto.
  - apply children_fresh_spec in F as [F1 F2]. split; [done|]. intros v Hs.
    specialize (F2 v Hs). destruct (decide (v = u)) as [->|Hne].
    + unfold alive in F2. by rewrite get_put_eq in F2.
    + by rewrite alive_put_ne in * by done.
  - rewrite S6, Hi. done.
  - intros v Hv. destruct (decide (v = u)) as [->|Hne]; [done|]. rewrite alive_put_ne by done. auto.
Qed.

(** Every call obeys the discipline. *)
Lemma triple_returns A u (p : P A) Pre :
  T u Pre p (fun _ => entry u 0) -> T u Pre (returns p) (ends u).
Proof. intros H. eapply triple_bind; [exact H|]. by intros ? w0 w HP. Qed.

(** A call that does not return. *)
Lemma triple_leaves A u d (p : P A) Pre :
  T u Pre p (fun _ => exited u d) -> T u Pre (p ;; Ret Terminate) (ends u).
Proof. intros H. eapply triple_bind; [exact H|]. intros ? w0 w HP. by exists d. Qed.

Lemma quiet_note_mutexattr_settype attr kind (s : State BoxScheduler) :
  quiet s (note_mutexattr_settype attr kind s).
Proof. unfold note_mutexattr_settype. case_match; by apply quiet_info. Qed.

Lemma quiet_note_mutex_init lock attr (s : State BoxScheduler) :
  quiet s (note_mutex_init lock attr s).
Proof. unfold note_mutex_init. case_match; by apply quiet_info. Qed.

Lemma triple_call u c :
  match c with UserStartGate _ | Reinit _ | RoutineReturns => False | _ => True end ->
  T u (entry u 0) (run_call cfg L env code_bytes gate_address D u c) (ends u).
Proof.
  intros Hc. destruct c; simpl; try done;
    try (apply triple_returns; first [by apply triple_intercepted | apply entry_of_free]);
    try (apply triple_note; [done|done|]; intros s; by apply quiet_info).
  - apply triple_note; [done|done|]. apply quiet_note_mutexattr_settype.
  - apply triple_note; [done|done|]. apply quiet_note_mutex_init.
  - by apply triple_create.
  - by apply triple_join.
  - eapply triple_leaves. by apply triple_exit.
  - by apply triple_api_mutex_lock.
  - by apply triple_trylock.
  - by apply triple_unlock.
  - by apply triple_cond_wait.
  - by apply triple_cond_signal.
  - by apply triple_cond_broadcast.
  - by apply triple_barrier_init.
  - by apply triple_barrier_wait.
  - by apply triple_yield.
  - by apply triple_atomic.
  - eapply triple_leaves. by apply triple_intercepted_exit.
Qed.

Lemma get_elem u x c : get u c = Some x -> exists y, (u, y) ∈ c.
Proof.
  induction c as [|[v y] c IH]; simpl; [done|]. case_decide; subst.
  - intros _. exists y. by left.
  - intros [z Hz]%IH. exists z. by right.
Qed.

Lemma call_wp u c σ h :
  inv σ h -> get u (ctl σ) = Some User -> call_allowed cfg σ u c = true ->
  wp (Guar u) (Rely u) (fun _ => True) (run_call cfg L env code_bytes gate_address D u c) (ends u)
    (world σ) (world σ).
Proof.
  intros I Hg Hall. destruct σ as [w c0]. simpl in *.
  destruct (inv_threads _ _ _ _ I u User ltac:(done) Hg) as (-> & Hp & Hd & Hm).
  assert (Hnf : flags_ok nobody w).
  { intros v Hf. destruct (inv_flags _ _ _ _ I v Hf) as [|[E Ho]]; [by right|].
    simplify_eq. by rewrite Hg in Ho. }
  assert (He : INITED w = true -> free u 0 w w).
  { intros Hi. destruct I as [I1 I2 _ _ _ _ I7 _]. split; auto using frame_refl. }
  assert (Hen : entry u 0 w w).
  { destruct (INITED w) eqn:Hi; [left; auto|right]. destruct I as [I1 I2 _ _ _ _ I7 _].
    split; [done|]. split; [apply alike_refl|]. repeat (split; [done|]). by apply I7. }
  destruct c; try (by apply triple_call).
  - (* Reinit *)
    apply andb_true_iff in Hall as [Hall _]. rewrite forallb_forall in Hall.
    assert (Hun : forall v, ~ flagged w v).
    { intros v Hf. destruct (Hnf v Hf) as [[]|Hpv].
      assert (Ha := inv_alive _ _ _ _ I v _ Hpv). unfold alive in Ha.
      destruct (get v c0) as [x|] eqn:Hgv; [|done].
      apply get_elem in Hgv as Hin. destruct Hin as [y Hin].
      apply list_elem_of_In, Hall in Hin. simpl in Hin. unfold alive in Hin. rewrite Hgv in Hin.
      apply orb_true_iff in Hin as [E|E]; [|by destruct x].
      apply bool_decide_eq_true in E. congruence. }
    apply (triple_returns _ u _ (alone u 0)); [by apply entry_of_free, triple_reinit|].
    destruct I as [I1 I2 _ _ _ _ _ _]. repeat (split; [done|]). apply frame_refl.
  - simpl in Hall. congruence.
  - (* RoutineReturns *)
    assert (Hexit : T u (free u 0) (run_call cfg L env code_bytes gate_address D u RoutineReturns) (ends u)).
    { eapply triple_bind; [by apply triple_do_thread_exit|]. intros ? v0 v HP. by exists 0. }
    by apply Hexit, He.
Qed.

(** A thread that is let go on finds what it relies on. *)
Lemma resume_lib u k b rest w c h :
  inv_but None w c h -> get u c = Some (InLib k b rest) -> resumable (mkSys w c) u b = true ->
  h = Some u /\ wp (Guar u) (Rely u) (fun _ => True) rest (ends u) w w.
Proof.
  intros I Hg Hr. destruct (inv_threads _ _ _ _ I u _ ltac:(done) Hg) as ((Hm & Hi) & Ht & Hrest).
  assert (Hturn : h = Some u /\ parked w !! u = None).
  { destruct b as [|[x|sa]|t]; simpl in Ht, Hr; try done.
    - apply andb_true_iff in Hr as [_ Hr]. apply bool_decide_eq_true in Hr.
      destruct Ht as (_ & _ & [Hp|[? ?]]); [congruence|done].
    - apply andb_true_iff in Hr as [_ Hr]. apply bool_decide_eq_true in Hr. by destruct Ht. }
  destruct Hturn as [-> Hp]. split; [done|]. apply Hrest.
  destruct I as [I1 I2 I3 _ _ _ _ _]. split; auto using frame_refl.
  intros v Hf. destruct (I3 v Hf) as [Hpv|[E Ho]]; [by right|]. simplify_eq. rewrite Hg in Ho.
  left. by destruct b as [|[x|sa]|t].
Qed.

Lemma starting_wp u b rest w c h :
  inv_but None w c h -> get u c = Some (Starting b rest) -> resumable (mkSys w c) u b = true ->
  wp (StartGuar u) (StartRely u) (fun _ => True) rest (set_off u) w w.
Proof.
  intros I Hg Hr. destruct (inv_threads _ _ _ _ I u _ ltac:(done) Hg) as ((Hm & Hi) & Ht).
  destruct b as [|[x|sa]|t]; simpl in Ht; try done.
  - destruct Ht as (Hf & Hp & Hh & Hw). apply Hw. destruct I as [I1 _ _ _ _ _ _ _]. split; try done. by split; auto.
  - simpl in Hr. apply andb_true_iff in Hr as [_ Hr]. apply bool_decide_eq_true in Hr.
    destruct Ht as ((-> & Hf & Hs) & Hw). destruct Hs as [Hs|[_ ->]]; [congruence|].
    apply Hw; [done|]. destruct I as [I1 I2 I3 _ _ _ _ _]. split; auto using frame_refl.
    intros v Hv. destruct (I3 v Hv) as [Hpv|[[= <-] _]]; [by right|by left].
Qed.

(** Only a thread that has slept gets to its start routine, and one that has does. *)
Lemma young_outcome u w (o : outcome World Blocker After) :
  promised (StartGuar u) (StartRely u) (fun _ => True) (set_off u) w o ->
  match o with
  | Done a _ => a = Return /\ flagged w u
  | Blocked _ _ _ => ~ flagged w u
  | _ => True
  end.
Proof.
  destruct o as [a w'|w' b rest|e|]; simpl; [by intros (? & ? & _)| |done|done].
  intros [HG _]. destruct b as [|[x|sa]|t]; simpl in HG; try done.
  - destruct HG as [d HM]. apply (sframe_unmarked _ _ _ (smon_frame _ _ _ _ _ _ _ HM)).
  - destruct HG as (_ & d & HM). apply (sframe_unmarked _ _ _ (smon_frame _ _ _ _ _ _ _ HM)).
Qed.

Lemma resume_starting n u b rest w c h σ' :
  inv_but None w c h -> get u c = Some (Starting b rest) -> resumable (mkSys w c) u b = true ->
  settle Starting u c (eval n rest w) = Some σ' -> exists h', inv σ' h'.
Proof.
  intros I Hg Hr E. assert (Hw := starting_wp u b rest w c h I Hg Hr).
  apply (wp_sound _ _ _ _ _ n) in Hw. assert (Ho := young_outcome u w _ Hw).
  destruct (inv_threads _ _ _ _ I u _ ltac:(done) Hg) as ((Hm & Hi) & Ht).
  destruct b as [|[x|sa]|t]; simpl in Ht; try done.
  - destruct Ht as (Hf & Hp & Hh & _). eapply (start_settle_inv u w c h); [|done..|exact Hw|exact E].
    destruct I. split; auto.
  - simpl in Hr. apply andb_true_iff in Hr as [_ Hr]. apply bool_decide_eq_true in Hr.
    destruct Ht as ((-> & Hf & Hs) & _). destruct Hs as [Hs|[_ ->]]; [congruence|].
    destruct (eval n rest w) as [a w'|w' b rest'|e|]; try done.
    destruct Hw as (-> & _ & HP). apply (settle_inv u PthreadExit w c (Done Return w')); [done| |done]. by left.
Qed.

(** A thread that begins is not known to anybody. *)
Lemma unborn u sa w c h :
  inv_but None w c h -> (u, sa) ∈ spawned w ->
  alive c u = false /\ parked w !! u = None /\ h <> Some u /\ ~ flagged w u /\ INITED w = true.
Proof.
  intros I Hin. assert (Hna : alive c u = false) by (apply (inv_fresh _ _ _ _ I); by exists sa).
  assert (Hp : parked w !! u = None).
  { destruct (parked w !! u) eqn:Hp; [|done]. apply (inv_alive _ _ _ _ I) in Hp. congruence. }
  assert (Hh : h <> Some u) by (intros Eh; apply (inv_turn _ _ _ _ I) in Eh; congruence).
  split; [done|]. split; [done|]. split; [done|]. split.
  - intros Hf. destruct (inv_flags _ _ _ _ I u Hf) as [?|[? _]]; congruence.
  - destruct (INITED w) eqn:Hi; [done|]. apply (inv_init _ _ _ _ I) in Hi as [_ Hi].
    rewrite Hi in Hin. by apply elem_of_nil in Hin.
Qed.

Lemma begin_wp u sa w c h :
  inv_but None w c h -> (u, sa) ∈ spawned w ->
  wp (StartGuar u) (StartRely u) (fun _ => True) (returns (trampoline_start cfg L u sa)) (set_off u)
    (new_thread u sa w) (new_thread u sa w).
Proof.
  intros I Hin. destruct (unborn u sa w c h I Hin) as (_ & Hp & _ & Hnf & _).
  assert (Hst : TS u (newborn u) (returns (trampoline_start cfg L u sa)) (set_off u)).
  { eapply triple_bind; [by apply ts_trampoline_start|]. by intros ? w0 v [? ?]. }
  apply Hst. repeat split; try done; [apply I|]. unfold depth. simpl. by rewrite lookup_delete_eq.
Qed.

Lemma step_inv σ σ' h : inv σ h -> step cfg L env code_bytes gate_address D σ σ' -> exists h', inv σ' h'.
Proof.
  intros I (n & e & Hs & E). destruct σ as [w c]. destruct e as [u k|u m|u sa|u|u]; simpl in *; try done.
  - destruct (get u c) as [[| | |]|] eqn:Hg; try done.
    destruct (call_allowed cfg (mkSys w c) u k) eqn:Hk; [|done].
    assert (Hh : h = Some u) by apply (inv_threads _ _ _ _ I u User ltac:(done) Hg).
    subst h. eapply settle_inv; [exact I| |exact E]. apply wp_sound.
    by apply (call_wp u k (mkSys w c) (Some u)).
  - destruct (get u c) as [[| | |]|] eqn:Hg; try done. simplify_eq. exists h. by destruct I.
  - case_bool_decide as Hin; [|done].
    destruct (unborn u sa w c h I Hin) as (Hna & Hp & Hh & Hnf & Hi).
    eapply (start_settle_inv u (new_thread u sa w) c h); [|done..| |exact E].
    + destruct I as [I1 I2 I3 I4 I5 [I6 I6'] I7 I8].
      assert (Hsp : forall v, spawned_in (new_thread u sa w) v -> spawned_in w v).
      { intros v [b Hb]. simpl in Hb. apply list_elem_of_filter in Hb as [_ Hb]. by exists b. }
      split; try done.
      * intros v x Hv Hg. assert (Hne : v <> u) by congruence. specialize (I5 v x ltac:(done) Hg).
        assert (E1 : depth (new_thread u sa w) v = depth w v).
        { unfold depth. simpl. by rewrite lookup_delete_ne. }
        assert (E2 : MY_PT (new_thread u sa w) !! v = MY_PT w !! v) by (simpl; by rewrite lookup_delete_ne).
        destruct x as [|k b rest|b rest|]; unfold thread_ok in *; rewrite ?E1.
        -- destruct I5 as (? & ? & ? & Hm). repeat (split; [done|]). by rewrite E2.
        -- rewrite E2. unfold lib_rest in *. by rewrite E1.
        -- rewrite E2. destruct I5 as [? I5]. split; [done|].
           destruct b as [|[x|s1]|t]; simpl in *; rewrite ?E1; done.
        -- done.
      * split; [|intros v Hv; by apply I6', Hsp]. simpl.
        eapply sublist_NoDup; [exact I6|]. apply fmap_sublist, sublist_filter.
      * simpl. congruence.
    + apply wp_sound. by eapply begin_wp.
  - destruct (get u c) as [[|k b rest|b rest|]|] eqn:Hg; try done.
    + destruct (resumable (mkSys w c) u b) eqn:Hr; [|done].
      destruct (resume_lib _ _ _ _ _ _ _ I Hg Hr) as [-> Hw].
      eapply settle_inv; [exact I| |exact E]. by apply wp_sound.
    + destruct (resumable (mkSys w c) u b) eqn:Hr; [|done].
      by eapply resume_starting.
Qed.
End Preservation.

(** * The theorems *)
Section Theorems.
Context (cfg : Cfg) (L : Libc) (env : string -> option string).
Context (code_bytes : Z -> nat -> list Z) (gate_address : Z) (D : Linker).

Lemma sys0_inv main m : inv (sys0 main m) (Some main).
Proof.
  split; simpl.
  - done.
  - intros u x Hp. done.
  - intros u [].
  - intros u x Hp. done.
  - intros u x _. case_decide; [|done]. intros [= <-]. subst. repeat split; done.
  - split; [constructor|]. intros u [sa Hu]. by apply elem_of_nil in Hu.
  - intros _. split; [by intros u []|done].
  - intros u [= ->]. unfold alive. simpl. by rewrite decide_True.
Qed.

Lemma reachable_inv main m σ :
  tsan cfg = false -> reachable cfg L env code_bytes gate_address D main m σ -> exists h, inv σ h.
Proof.
  intros Hc. induction 1 as [|σ σ' _ [h I] Hs].
  - eexists. apply sys0_inv.
  - by eapply step_inv.
Qed.

Lemma active_turn σ h u : inv σ h -> active σ u = true -> h = Some u.
Proof.
  intros I Ha. unfold active in Ha. destruct (get u (ctl σ)) as [x|] eqn:Hg; [|done].
  pose proof (inv_threads _ _ _ _ I u x ltac:(done) Hg) as Ht.
  destruct x as [|k [|[c|sa]|t] rest|[|[c|sa]|t] rest|]; simpl in *; try done; try apply Ht.
  - apply bool_decide_eq_true in Ha. destruct Ht as (_ & (_ & _ & [Hp|[_ ?]]) & _); [congruence|done].
  - apply bool_decide_eq_true in Ha. destruct Ht as (_ & (_ & _ & [Hp|[_ ?]]) & _); [congruence|done].
Qed.

(** C1. Without the sanitizer feature and without spurious wake-ups, at most one
    thread is active, whatever the threads call and however they are scheduled. *)
Theorem cooperative_exclusion main m σ u v :
  tsan cfg = false -> reachable cfg L env code_bytes gate_address D main m σ ->
  active σ u = true -> active σ v = true -> u = v.
Proof.
  intros Hc Hr Hu Hv. destruct (reachable_inv main m σ Hc Hr) as [h I].
  apply (active_turn σ h) in Hu, Hv; [|done..]. congruence.
Qed.

(** C10. A thread in its own code does not hold the global mutex (nobody does), its
    call depth is 0, and its thread-local names it once the library is
    initialised. *)
Theorem user_code_is_outside main m σ u :
  tsan cfg = false -> reachable cfg L env code_bytes gate_address D main m σ ->
  get u (ctl σ) = Some User ->
  GMTX (world σ) = None /\ depth (world σ) u = 0 /\ parked (world σ) !! u = None /\
  (INITED (world σ) = true -> MY_PT (world σ) !! u = Some u).
Proof.
  intros Hc Hr Hg. destruct (reachable_inv main m σ Hc Hr) as [h I].
  destruct (inv_threads _ _ _ _ I u User ltac:(done) Hg) as (_ & ? & ? & ?).
  split; [apply I|done].
Qed.

(** C7. The marks [State::choose] trusts are right: a thread marked as waiting is
    asleep on its own condition, or it was woken and has the turn. *)
Theorem marks_are_right main m σ u :
  tsan cfg = false -> reachable cfg L env code_bytes gate_address D main m σ ->
  flagged (world σ) u ->
  parked (world σ) !! u = Some (SuspendCond u) \/ active σ u = true.
Proof.
  intros Hc Hr Hf. destruct (reachable_inv main m σ Hc Hr) as [h I].
  destruct (inv_flags _ _ _ _ I u Hf) as [|[-> Ho]]; [by left|].
  destruct (parked (world σ) !! u) as [c|] eqn:Hp.
  - left. unfold on_suspend in Ho. destruct (get u (ctl σ)) as [x|] eqn:Hg; [|done].
    pose proof (inv_threads _ _ _ _ I u x ltac:(done) Hg) as Ht.
    destruct x as [|k [|[y|sa]|t] rest|[|[y|sa]|t] rest|]; simpl in *; try done.
    + destruct Ht as (_ & (_ & _ & [E|[E _]]) & _); congruence.
    + destruct Ht as (_ & (_ & _ & [E|[E _]]) & _); congruence.
  - right. unfold active. destruct (get u (ctl σ)) as [[|k [|[y|sa]|t] rest|[|[y|sa]|t] rest|]|]; try done.
    + by apply bool_decide_eq_true.
    + by apply bool_decide_eq_true.
Qed.

Lemma runs_reachable n es main m σ σ0 :
  reachable cfg L env code_bytes gate_address D main m σ0 ->
  runs cfg L env code_bytes gate_address D n es σ0 = Some σ ->
  forallb (fun e => negb (spurious e)) es = true ->
  reachable cfg L env code_bytes gate_address D main m σ.
Proof.
  revert σ0. induction es as [|e es IH]; intros σ0 Hr E Hs; simpl in *.
  - by simplify_eq.
  - apply andb_true_iff in Hs as [He Hs].
    destruct (happens _ _ _ _ _ _ n e σ0) as [σ1|] eqn:E1; [|done].
    eapply IH; [|exact E|exact Hs]. eapply reachable_step; [exact Hr|]. exists n, e.
    split; [by apply negb_true_iff|done].
Qed.
End Theorems.

(** * A concrete process

    The surroundings are those of Sample.v. *)

(** The main thread (1) creates a thread (100), yields to it. *)
Definition handover : list Happens :=
  [Calls 1 (PthreadCreate 0 0 7 8); Resumes 1; Resumes 1; Begins 100 1; Resumes 100;
   Calls 1 (Yield 5); Resumes 1; Resumes 100].
Abbreviation after_handover := (runs plain_cfg plain_libc no_env no_code 0 plain_linker 60 handover (sys0 1 ∅)).

Lemma after_handover_reachable σ :
  after_handover = Some σ -> reachable plain_cfg plain_libc no_env no_code 0 plain_linker 1 ∅ σ.
Proof. intros E. apply (runs_reachable _ _ _ _ _ _ 60 handover 1 ∅ σ (sys0 1 ∅) (reachable_start _ _ _ _ _ _ 1 ∅) E eq_refl). Qed.

Lemma cooperative_exclusion_witness :
  match after_handover with
  | Some σ => active σ 100 = true /\ forall v, active σ v = true -> 100 = v
  | None => False
  end.
Proof.
  assert (H : match after_handover with Some σ => active σ 100 | None => false end = true)
    by (vm_compute; reflexivity).
  destruct after_handover as [σ|] eqn:E; [|discriminate H]. split; [exact H|]. intros v Hv.
  eapply (cooperative_exclusion plain_cfg plain_libc no_env no_code 0 plain_linker 1 ∅ σ);
    [reflexivity|by apply after_handover_reachable|exact H|exact Hv].
Defined.

Lemma user_code_is_outside_witness :
  match after_handover with
  | Some σ => get 100 (ctl σ) = Some User /\ depth (world σ) 100 = 0
  | None => False
  end.
Proof.
  assert (H : match after_handover with
              | Some σ => match get 100 (ctl σ) with Some User => true | _ => false end
              | None => false end = true) by (vm_compute; reflexivity).
  destruct after_handover as [σ|] eqn:E; [|discriminate H].
  destruct (get 100 (ctl σ)) as [[| | |]|] eqn:Hg; [|discriminate H..]. split; [reflexivity|].
  apply (user_code_is_outside plain_cfg plain_libc no_env no_code 0 plain_linker 1 ∅ σ);
    [reflexivity|by apply after_handover_reachable|exact Hg].
Defined.

Lemma marks_are_right_witness :
  match after_handover with
  | Some σ => flagged (world σ) 1 /\ (parked (world σ) !! 1 = Some (SuspendCond 1) \/ active σ 1 = true)
  | None => False
  end.
Proof.
  assert (H : match after_handover with
              | Some σ => bool_decide (flagged (world σ) 1) | None => false end = true)
    by (vm_compute; reflexivity).
  destruct after_handover as [σ|] eqn:E; [|discriminate H]. apply bool_decide_eq_true in H. split; [exact H|].
  apply (marks_are_right plain_cfg plain_libc no_env no_code 0 plain_linker 1 ∅ σ);
    [reflexivity|by apply after_handover_reachable|exact H].
Defined.

(** The exclusion needs wake-ups to be caused by signals: [wake] waits once, not in a
    loop, so that after the spurious wake-up of this run two threads run their own code. *)
Example spurious_wakeup_breaks_exclusion :
  match runs plain_cfg plain_libc no_env no_code 0 plain_linker 60
          (handover ++ [SpuriousWake 1; Resumes 1]) (sys0 1 ∅) with
  | Some σ => match get 1 (ctl σ), get 100 (ctl σ) with Some User, Some User => True | _, _ => False end
  | None => False
  end.
Proof. vm_compute. exact I. Qed.
