(* ===== verification/Safety.v ===== *)
(** The state invariant of the whole process, and the absence of panics.

    In every reachable state the scheduler state is [sane], the live threads are
    those of the process, and a thread in its own code waits in no queue.  From it:
    a segment of a call that panics does so for one of the reasons of
    [expected_panic]. *)
From S2P Require Import Prelude Event Scheduler Machine State WellFormed StateSpecs Integrity Runtime Sample Memory Api Atomics Elf Preload Discipline Conduct Interposition Starting System Exclusion.
Import StateOps.

(** * Segments *)

(** The program a thread is about to run, in which world, and the control state of
    its suspensions. *)
Inductive segment (cfg : Cfg) (L : Libc) (env : string -> option string)
    (code_bytes : Z -> nat -> list Z) (gate_address : Z) (D : Linker) (σ : Sys) (u : PthreadT)
  : World -> P After -> (Blocker -> P After -> Ctl) -> Prop :=
| segment_call c :
    get u (ctl σ) = Some User -> call_allowed cfg σ u c = true ->
    segment cfg L env code_bytes gate_address D σ u (world σ)
      (run_call cfg L env code_bytes gate_address D u c) (InLib c)
| segment_begin sa :
    (u, sa) ∈ spawned (world σ) ->
    segment cfg L env code_bytes gate_address D σ u (new_thread u sa (world σ))
      (returns (trampoline_start cfg L u sa)) Starting
| segment_lib c b rest :
    get u (ctl σ) = Some (InLib c b rest) -> resumable σ u b = true ->
    segment cfg L env code_bytes gate_address D σ u (world σ) rest (InLib c)
| segment_starting b rest :
    get u (ctl σ) = Some (Starting b rest) -> resumable σ u b = true ->
    segment cfg L env code_bytes gate_address D σ u (world σ) rest Starting.

(** A thread that is in a call, and one that is being started. *)
Inductive Kind : Set := Running (c : Call) | Young.

Definition is_running (k : Kind) : Prop := match k with Running _ => True | Young => False end.

Definition sleeps (k : Kind) : Blocker -> P After -> Ctl :=
  match k with Running c => InLib c | Young => Starting end.

Lemma sleeps_inj k k' : sleeps k = sleeps k' -> k = k'.
Proof. intros E. apply (f_equal (fun f => f OnGmtx (Ret Return))) in E. destruct k, k'; simpl in E; congruence. Qed.

(** What POSIX asks of the caller, besides what it takes for granted. *)
Definition kind_contract (u : PthreadT) (k : Kind) : Contract :=
  match k with
  | Running (NoteMutexDestroy lock) => unused_mutex lock
  | Running (BarrierInit barrier _ _) => unused_barrier barrier
  | Running (PthreadJoin thread) => sole_joiner u thread
  | Running (Intercept i) => intercepted_contract u i
  | _ => fun _ => True
  end.

(** The thread that runs a segment at the event keeps the contract of its call. *)
Definition well_used (σ : Sys) (e : Happens) : Prop :=
  let obeys u c := forall s, STATE (world σ) = Some s -> kind_contract u (Running c) s in
  match e with
  | Calls u c => obeys u c
  | Resumes u => match get u (ctl σ) with Some (InLib c _ _) => obeys u c | _ => True end
  | _ => True
  end.

(** * The invariant *)
Section Invariant.
Context (L : Libc).

Definition call_ends {X : Contract} (u : PthreadT) (a : After) (w0 w : World) : Prop :=
  match a with Return => entry2 u w0 w | Terminate => left2 L u w0 w end.

Definition ends2 (k : Kind) (u : PthreadT) (a : After) (w0 w : World) : Prop :=
  let X := kind_contract u k in
  match k, a with
  | Running _, _ => call_ends u a w0 w
  | Young, Return => good u (fun s => idle u s /\ may_go s u) w0 w
  | Young, Terminate => left2 L u w0 w
  end.

(** Who gives up a turn hands it over, if signals work; a young thread has none. *)
Definition hands (k : Kind) : Prop := match k with Running _ => SignalLaw L | Young => False end.

Abbreviation Guard k u := (Guar2 (X := kind_contract u k) (hands k) u).
Abbreviation wp2 k u p := (wp (Guard k u) (Rely2 u) (fun e => expected_panic e = true) p (ends2 k u)).

(** A suspended thread: what it was promised when it suspended still holds. *)
Definition lib_safe (k : Kind) (w : World) (u : PthreadT) (b : Blocker) (rest : P After) : Prop :=
  exists ws, since u ws w /\ (b = OnGmtx /\ blank ws \/ exists s, STATE ws = Some s /\ live s u) /\
    (forall c s, b = OnCond (SuspendCond c) -> parked w !! u = None -> STATE w = Some s ->
       may_go s u) /\
    forall w', Rely2 u b ws w' -> wp2 k u rest w' w'.

Definition thread_safe (w : World) (u : PthreadT) (x : Ctl) : Prop :=
  match x with
  | User => INITED w = false \/ exists s, STATE w = Some s /\ idle u s
  | InLib k b rest => lib_safe (Running k) w u b rest
  | Starting b rest => lib_safe Young w u b rest
  | Dead => True
  end.

(** It makes calls, so its start-up is over. *)
Definition started_at (u : PthreadT) (w : World) : Prop :=
  forall s, STATE w = Some s -> live s u -> started s u = true.
Definition running (x : Ctl) : Prop :=
  match x with User | InLib _ _ _ => True | Starting _ _ | Dead => False end.

Record safe (w : World) (c : list (PthreadT * Ctl)) : Prop := mkSafe {
  safe_state : INITED w = true -> exists s, STATE w = Some s /\ sane s;
  safe_init : INITED w = false -> STATE w = None;
  safe_blank : blank w -> (forall u v, alive c u = true -> alive c v = true -> u = v) /\ spawned w = [];
  safe_live s v : STATE w = Some s -> live s v -> alive c v = true \/ spawned_in w v;
  safe_spawned v : spawned_in w v -> exists s, STATE w = Some s /\ idle v s;
  safe_thread u x : get u c = Some x -> thread_safe w u x;
  safe_started u x : get u c = Some x -> running x -> started_at u w
}.

Lemma stateless_blank w : STATE w = None -> blank w.
Proof. intros E s v. by rewrite E. Qed.

(** What a segment of [u] that begins in [w0] finds of the other threads. *)
Record ready (u : PthreadT) (w0 : World) (c : list (PthreadT * Ctl)) : Prop := mkReady {
  ready_blank : blank w0 -> (forall v, alive c v = true -> v = u) /\ spawned w0 = [];
  ready_live s v : v <> u -> STATE w0 = Some s -> live s v -> alive c v = true \/ spawned_in w0 v;
  ready_spawned v : v <> u -> spawned_in w0 v -> exists s, STATE w0 = Some s /\ idle v s;
  ready_thread v x : v <> u -> get v c = Some x -> thread_safe w0 v x;
  ready_started v x : v <> u -> get v c = Some x -> running x -> started_at v w0;
  ready_init : INITED w0 = false -> blank w0;
  ready_fresh : children_fresh w0 (put u User c) = true;
  ready_parked v : v <> u -> on_suspend (get v c) ->
    parked w0 !! v = None \/ parked w0 !! v = Some (SuspendCond v)
}.

Lemma get_alive u c x : get u c = Some x -> x <> Dead -> alive c u = true.
Proof. unfold alive. intros ->. by destruct x. Qed.

Lemma thread_safe_live w u x c :
  (INITED w = false -> blank w) -> get u c = Some x -> alive c u = true -> thread_safe w u x ->
  blank w \/ exists s, STATE w = Some s /\ live s u.
Proof.
  intros Hi Hg Ha Ht. unfold alive in Ha. rewrite Hg in Ha.
  assert (Hlib : forall k b rest, lib_safe k w u b rest -> blank w \/ exists s, STATE w = Some s /\ live s u).
  { intros k b rest (ws & [S1 S2] & [[_ Hb]|(s & E & Hl)] & _).
    - left. intros s v. rewrite (S1 Hb). apply Hb.
    - right. destruct (S2 s E Hl) as (s' & E' & Hl' & _). by exists s'. }
  destruct x as [|k b rest|b rest|]; simpl in Ht; eauto; [|done].
  destruct Ht as [Ht|(s & E & Hp)]; [by left; apply Hi|]. right. exists s. split; [done|]. by apply Hp.
Qed.

(** * A segment keeps the invariant *)
Section Segment.
Context {X : Contract}.
Context (u : PthreadT) (w0 w' : World) (c : list (PthreadT * Ctl)).
Hypothesis (R : ready u w0 c).
Hypothesis (F : children_fresh w' (put u User c) = true).

Lemma fresh_not_u v : spawned_in w' v -> v <> u /\ alive c v = false.
Proof.
  intros Hs. apply children_fresh_spec in F as [_ F']. specialize (F' v Hs).
  destruct (decide (v = u)) as [->|Hne]; [unfold alive in F'; by rewrite get_put_eq in F'|].
  by rewrite alive_put_ne in F' by done.
Qed.

(** Another thread that is alive was live when the segment began. *)
Lemma other_live v : v <> u -> alive c v = true -> exists s, STATE w0 = Some s /\ live s v.
Proof.
  intros Hne Ha. assert (Ha' := Ha). unfold alive in Ha'. destruct (get v c) as [x|] eqn:Hg; [|done].
  destruct (thread_safe_live w0 v x c (ready_init _ _ _ R) Hg Ha) as [Hb|]; [by eapply ready_thread| |done].
  destruct (ready_blank _ _ _ R Hb) as [Ho _]. by apply Ho in Ha.
Qed.

Lemma other_respects v s' :
  passes u w0 w' -> STATE w' = Some s' -> v <> u -> alive c v = true ->
  exists s, STATE w0 = Some s /\ live s v /\ respects u s s'.
Proof.
  intros P E' Hne Ha. destruct (other_live v Hne Ha) as (s & E & Hl).
  destruct (passes_state _ _ _ P) as [Hb|(s0 & s1 & E0 & E1 & HR)].
  - by destruct (Hb s v E).
  - exists s. split; [done|]. split; [done|]. congruence.
Qed.

Lemma other_lib_safe k v b rest s' :
  passes u w0 w' -> STATE w' = Some s' -> v <> u -> alive c v = true ->
  (forall y, b = OnCond (SuspendCond y) -> parked w0 !! v = None \/ parked w0 !! v = Some (SuspendCond v)) ->
  lib_safe k w0 v b rest -> lib_safe k w' v b rest.
Proof.
  intros P E' Hne Ha Hpk (ws & [S1 S2] & Hst & Hblk & Hw).
  destruct (other_respects v s' P E' Hne Ha) as (s & E & Hl & HR).
  destruct Hst as [[_ Hb]|(s0 & E0 & Hl0)].
  { exfalso. rewrite (S1 Hb) in E. by destruct (Hb s v E). }
  exists ws. split; [split|split; [right; by exists s0|split]].
  - intros Hb. by destruct (Hb s0 v E0).
  - intros s1 E1 Hl1. destruct (S2 s1 E1 Hl1) as (s2 & E2 & L1 & L2 & L3).
    exists s'. split; [done|]. assert (s2 = s) as -> by congruence. split.
    + by eapply respects_live.
    + split.
      * intros p Hp. apply L2. by destruct (respects_queue _ _ _ HR v p Hp).
      * intros pt Hp. apply L3. by destruct (respects_joiner _ _ _ HR pt v Hp).
  - intros y s1 -> Hp E1. assert (s1 = s') as -> by congruence.
    assert (Hl' : live s' v) by by eapply respects_live.
    destruct (Hpk y eq_refl) as [Hp0|Hp0].
    + eapply respects_may_go; [exact HR|done|done|]. by apply (Hblk y s).
    + by apply (passes_woken _ _ _ P v s s').
  - exact Hw.
Qed.

Lemma segment_safe x a q j s' :
  passes u w0 w' -> INITED w' = true -> STATE w' = Some s' -> sane s' -> at_place u a q j s' ->
  thread_safe w' u x -> (running x -> started_at u w') -> alive (put u x c) u = a -> safe w' (put u x c).
Proof.
  intros P Hi E' Hs Hat Hx Hrun Hau.
  assert (Hother : forall v, v <> u -> alive c v = true -> live s' v).
  { intros v Hne Ha. destruct (other_respects v s' P E' Hne Ha) as (s & E & Hl & HR).
    by eapply respects_live. }
  assert (Hspawn : forall v, spawned_in w' v -> exists s, STATE w' = Some s /\ idle v s).
  { intros v Hv. destruct (fresh_not_u v Hv) as [Hne _].
    destruct (passes_spawned _ _ _ P v Hv) as [Hv0|(_ & _ & ?)]; [|done].
    destruct (ready_spawned _ _ _ R v Hne Hv0) as (s & E & Hid).
    exists s'. split; [done|]. destruct (passes_state _ _ _ P) as [Hb|(s0 & s1 & E0 & E1 & HR)].
    - destruct (Hb s v E). by apply Hid.
    - assert (s0 = s) as -> by congruence. assert (s1 = s') as -> by congruence.
      by eapply respects_place. }
  split.
  - intros _. by exists s'.
  - congruence.
  - intros Hb. split.
    + assert (Hno : forall v, alive (put u x c) v = true -> v = u /\ a = true).
      { intros v Hv. destruct (decide (v = u)) as [->|Hne]; [split; congruence|].
        rewrite alive_put_ne in Hv by done. destruct (Hb s' v E'); by apply Hother. }
      intros v1 v2 [-> _]%Hno [-> _]%Hno. done.
    + destruct (spawned w') as [|[v sa] l] eqn:El; [done|].
      destruct (Hspawn v) as (s & E & Hid); [exists sa; rewrite El; by left|].
      destruct (Hb s v E). by apply Hid.
  - intros s v E Hl. assert (s = s') as -> by congruence. destruct (decide (v = u)) as [->|Hne].
    + left. rewrite Hau. by apply Hat.
    + rewrite alive_put_ne by done.
      destruct (passes_new _ _ _ P v s' E' Hl) as [|[?|(s0 & E0 & Hl0)]]; [done|by right|].
      destruct (ready_live _ _ _ R s0 v Hne E0 Hl0) as [|Hv]; [by left|right].
      by apply (passes_kept _ _ _ P).
  - exact Hspawn.
  - intros v y Hg. destruct (decide (v = u)) as [->|Hne]; [rewrite get_put_eq in Hg; by simplify_eq|].
    rewrite get_put_ne in Hg by done. assert (Ht := ready_thread _ _ _ R v y Hne Hg).
    destruct y as [|k b rest|b rest|]; simpl in *; [| | |done].
    + assert (Ha : alive c v = true) by by eapply get_alive.
      destruct (other_respects v s' P E' Hne Ha) as (s & E & Hl & HR). right.
      destruct Ht as [Hf|(s1 & E1 & Hid)].
      * by destruct (ready_init _ _ _ R Hf s v E).
      * assert (s1 = s) as -> by congruence. exists s'. split; [done|]. by eapply respects_place.
    + eapply other_lib_safe; try done; [by eapply get_alive|].
      intros z ->. eapply ready_parked; [done|done|by rewrite Hg].
    + eapply other_lib_safe; try done; [by eapply get_alive|].
      intros z ->. eapply ready_parked; [done|done|by rewrite Hg].
  - intros v y Hg Hy. destruct (decide (v = u)) as [->|Hne]; [rewrite get_put_eq in Hg; simplify_eq; auto|].
    rewrite get_put_ne in Hg by done. intros s1 E1 Hl1. assert (s1 = s') as -> by congruence.
    assert (Ha : alive c v = true) by (eapply get_alive; [done|by intros ->]).
    destruct (other_respects v s' P E' Hne Ha) as (s & E & Hl & HR).
    apply (respects_started _ _ _ HR); [by right|]. by eapply (ready_started _ _ _ R v y).
Qed.

(** Before the first registration, when the initialisation waits for the global mutex
    and earlier: there is no other thread. *)
Lemma lonely_safe x :
  blank w0 -> blank w' -> spawned w' = spawned w0 ->
  (INITED w' = true -> exists s, STATE w' = Some s /\ sane s) -> (INITED w' = false -> STATE w' = None) ->
  thread_safe w' u x -> safe w' (put u x c).
Proof.
  intros U1 U2 U6 Hs Hn Hx.
  destruct (ready_blank _ _ _ R U1) as [Ho Hsp]. rewrite Hsp in U6.
  assert (Hone : forall v, alive (put u x c) v = true -> v = u).
  { intros v Hv. destruct (decide (v = u)); [done|]. rewrite alive_put_ne in Hv by done. auto. }
  split.
  - done.
  - done.
  - intros _. split; [|done]. intros v1 v2 Hv1%Hone Hv2%Hone. congruence.
  - intros s1 v E1 Hl. by destruct (U2 s1 v E1).
  - intros v [sa Hv]. rewrite U6 in Hv. by apply elem_of_nil in Hv.
  - intros v y Hg. destruct (decide (v = u)) as [->|Hne]; [rewrite get_put_eq in Hg; by simplify_eq|].
    rewrite get_put_ne in Hg by done. destruct (decide (alive c v = true)) as [Ha|Ha].
    + by destruct Hne; apply Ho.
    + unfold alive in Ha. rewrite Hg in Ha. by destruct y.
  - intros v y Hg _ s1 E1 Hl1. by destruct (U2 s1 v E1).
Qed.
End Segment.

(** The ids of the threads a segment creates are those of no other thread: the check of
    [settle] never fails. *)
Lemma passes_fresh {X : Contract} u w0 w' c :
  ready u w0 c -> passes u w0 w' -> children_fresh w' (put u User c) = true.
Proof.
  intros R P. destruct (proj1 (children_fresh_spec _ _) (ready_fresh _ _ _ R)) as [Hnd Hna].
  apply children_fresh_spec. split; [by apply (passes_nodup _ _ _ P)|]. intros v Hv.
  destruct (passes_spawned _ _ _ P v Hv) as [Hv0|(Hne & Hnl & _)]; [by apply Hna|].
  rewrite alive_put_ne by done. destruct (alive c v) eqn:Ha; [|done].
  destruct (other_live u w0 c R v Hne Ha) as (s & E & Hl). by destruct (Hnl s E).
Qed.

Lemma lonely_fresh u w0 w' c :
  ready u w0 c -> blank w0 -> spawned w' = spawned w0 -> children_fresh w' (put u User c) = true.
Proof.
  intros R Hb E. destruct (ready_blank _ _ _ R Hb) as [_ Hsp]. unfold children_fresh. by rewrite E, Hsp.
Qed.

Lemma since_refl u w q j s :
  STATE w = Some s -> at_place u true q j s -> since u w w.
Proof.
  intros E Ha. split; [done|]. intros s1 E1 Hl. exists s1. by repeat split.
Qed.

Lemma since_blank u w : blank w -> since u w w.
Proof. intros Hb. split; [done|]. intros s E Hl. by destruct (Hb s u E). Qed.

(** The end of a segment. *)
Lemma settle_safe k u w0 c o σ' :
  ready u w0 c -> (is_running k -> started_at u w0) ->
  promised (Guard k u) (Rely2 u) (fun e => expected_panic e = true) (ends2 k u) w0 o ->
  settle (sleeps k) u c o = Some σ' -> safe (world σ') (ctl σ').
Proof.
  intros R Hst HP E.
  assert (Hrun : forall w', passes (X := kind_contract u k) u w0 w' -> is_running k -> started_at u w').
  { intros w' P Hk s Es Hl. apply (passes_started _ _ _ P); [done|done|]. by apply Hst. }
  destruct o as [a w'|w' b rest|e|]; simpl in E; try done.
  - destruct (children_fresh w' (put u User c)) eqn:F; simplify_eq. simpl.
    assert (Hgood : good (X := kind_contract u k) u (idle u) w0 w' -> started_at u w' -> safe w' (put u User c)).
    { intros [(s & Es & Hs & Ha) Hi Hm _ P] Hs'. eapply (segment_safe u w0 w' c R F); try done.
      - right. by exists s.
      - unfold alive. by rewrite get_put_eq. }
    destruct a; [destruct k; [destruct HP as [HP|(Hi & Hb & H0 & _ & Hsp & _)]|]|].
    + apply Hgood; [done|]. apply Hrun; [apply HP|done].
    + apply (lonely_safe u w0 w' c R); try done; [by apply stateless_blank|congruence|by left].
    + apply Hgood; [eapply good_weaken, HP; by intros s _ [Ha _]|].
      intros s Es _. destruct HP as [(s1 & E1 & _ & _ & Hm) _ _ _ _]. assert (s1 = s) as -> by congruence. apply Hm.
    + assert (HP' : left2 (X := kind_contract u k) L u w0 w') by by destruct k. destruct HP' as [[(s & Es & Hs & Ha) Hi Hm _ P] _].
      eapply (segment_safe u w0 w' c R F); try done. unfold alive. by rewrite get_put_eq.
  - destruct (children_fresh w' (put u User c)) eqn:F; simplify_eq. simpl.
    destruct HP as [HG HR].
    assert (Hlib : (forall w1, thread_safe w1 u (sleeps k b rest) = lib_safe k w1 u b rest) /\
                   alive (put u (sleeps k b rest) c) u = true /\ (running (sleeps k b rest) -> is_running k)).
    { unfold alive. rewrite get_put_eq. by destruct k. }
    destruct Hlib as (Hlib & Hal & Hk).
    destruct HG as [[(q & j & [(s & Es & Hs & Ha) Hi Hm _ P]) [Hpk _]]|[-> HU]].
    + eapply (segment_safe u w0 w' c R F); try done; [|auto]. rewrite Hlib.
      exists w'. split; [by eapply since_refl|]. split; [right; exists s; split; [done|by apply Ha]|].
      split; [|done]. intros x s1 -> Hp. by rewrite (Hpk _ eq_refl) in Hp.
    + apply (lonely_safe u w0 w' c R); try apply HU;
        [intros _; apply HU|rewrite (unreg_inited _ _ _ HU); congruence|]. rewrite Hlib. exists w'.
      split; [apply since_blank, HU|]. split; [left; split; [done|apply HU]|]. split; [|done]. by intros x s1.
Qed.
End Invariant.

(** The world a segment leaves. *)
Definition left_world (o : outcome World Blocker After) : option World :=
  match o with Done _ w | Blocked w _ _ => Some w | Panicked _ | OutOfFuel => None end.

Lemma outcome_fresh L k u w0 c (o : outcome World Blocker After) w' :
  ready L u w0 c ->
  promised (Guar2 (X := kind_contract u k) (hands L k) u) (Rely2 u) (fun e => expected_panic e = true) (ends2 L k u) w0 o ->
  left_world o = Some w' -> children_fresh w' (put u User c) = true.
Proof.
  intros R HP E. destruct o as [a w1|w1 b rest|e|]; simpl in E; simplify_eq; simpl in HP.
  - assert (Hg : forall φ, good (X := kind_contract u k) u φ w0 w' -> children_fresh w' (put u User c) = true).
    { intros φ HG. eapply passes_fresh; [done|apply HG]. }
    destruct a; [destruct k; [destruct HP as [HP|(_ & _ & Hb & _ & Hsp & _)]|]|]; eauto; [by eapply lonely_fresh|].
    destruct k; destruct HP as [HP _]; eauto.
  - destruct HP as [[[(q & j & HG) _]|[_ HU]] _]; [eapply passes_fresh; [done|apply HG]|].
    eapply lonely_fresh; [done|apply HU|apply HU].
Qed.

(** * Every segment *)
Section Segments.
Context (cfg : Cfg) (L : Libc) (env : string -> option string).
Context (code_bytes : Z -> nat -> list Z) (gate_address : Z) (D : Linker).
Hypothesis no_tsan : tsan cfg = false.

Abbreviation T2 self P p Q := (TH (SignalLaw L) self P p Q).
Abbreviation wp2 k u p := (wp (Guar2 (X := kind_contract u k) (hands L k) u) (Rely2 u) (fun e => expected_panic e = true) p (ends2 L k u)).
Abbreviation safe := (safe L).
Abbreviation ready := (ready L).

Lemma returns2 {X : Contract} A u (p : P A) Pre :
  T2 u Pre p (fun _ => entry2 u) -> T2 u Pre (returns p) (call_ends L u).
Proof. intros H. eapply triple_bind; [exact H|]. by intros ? w0 w HP. Qed.

(** Every call, but those with a contract of their own. *)
Lemma call2 {X : Contract} u c :
  match c with UserStartGate _ | Reinit _ | RoutineReturns => False | _ => True end ->
  (forall s, contract s -> kind_contract u (Running c) s) ->
  T2 u (outermost u) (run_call cfg L env code_bytes gate_address D u c) (call_ends L u).
Proof.
  intros Hc HC. assert (Hin : forall A (p : P A) Q, T2 u (entry2 u) p Q -> T2 u (outermost u) p Q).
  { intros A p Q Hp. eapply triple_pre; [exact Hp|]. by intros w0 w [_ HE]. }
  destruct c; simpl; try done;
    try (apply returns2; first [by apply intercepted2 | apply entry_of_idle; by apply atomic2
                               | apply Hin, entry_of_idle]).
  - apply note2, note_updates2; [done|]. intros s. by apply same_updates; [| |intros []|].
  - apply note2, note_updates2; [done|]. intros s. apply note_mutexattr_settype_updates.
  - apply note2, note_updates2; [done|]. intros s. by apply same_updates; [| |intros []|].
  - apply note2, note_updates2; [done|]. intros s. apply note_mutex_init_updates.
  - apply note2; [done|]. by apply note_mutex_destroy2.
  - by apply create2.
  - by apply join2.
  - apply Hin. eapply triple_bind; [by apply exit2|]. by intros ? w0 w HP.
  - by apply api_mutex_lock2.
  - by apply trylock2.
  - by apply unlock2.
  - by apply api_cond_wait2.
  - by apply cond_signal2.
  - by apply cond_broadcast2.
  - by apply barrier_init2.
  - by apply barrier_wait2.
  - by apply yield2.
  - eapply triple_bind; [by apply intercepted_exit2|]. by intros ? w0 w HP.
Qed.

Lemma parked_sleeper h w c v :
  inv_but None w c h -> on_suspend (get v c) -> parked w !! v = None \/ parked w !! v = Some (SuspendCond v).
Proof.
  intros I Hg. assert (Hs : exists y, sleeping h w v y).
  { destruct (get v c) as [x|] eqn:E; [|done]. assert (Ht := inv_threads _ _ _ _ I v _ ltac:(done) E).
    destruct x as [|k [|[y|sa]|t] rest|[|[y|sa]|t] rest|]; simpl in *; try done; exists y; apply Ht. }
  destruct Hs as (y & _ & _ & [Hp|[Hp _]]); auto.
Qed.

(** The pairs of a list with distinct keys. *)
Lemma NoDup_fst_inj (l : list (PthreadT * Z)) u a b : NoDup l.*1 -> (u, a) ∈ l -> (u, b) ∈ l -> a = b.
Proof.
  induction l as [|[x y] l IH]; simpl; [intros _ H; by apply elem_of_nil in H|].
  intros [Hx Hl]%NoDup_cons Ha Hb. apply elem_of_cons in Ha, Hb.
  destruct Ha as [Ha|Ha], Hb as [Hb|Hb]; simplify_eq; [done| | |by apply IH].
  - destruct Hx. apply list_elem_of_fmap. by exists (x, b).
  - destruct Hx. apply list_elem_of_fmap. by exists (x, a).
Qed.

(** A thread that is alive finds the others as the invariant says. *)
Lemma alive_ready u w c h : safe w c -> inv_but None w c h -> alive c u = true -> ready u w c.
Proof.
  intros [S1 S2 S3 S4 S5 S6 S7] I Ha. split; eauto.
  - intros Hb. destruct (S3 Hb) as [Ho Hsp]. split; [|done]. intros v Hv. by apply Ho.
  - intros Hi. by apply stateless_blank, S2.
  - apply children_fresh_spec. split; [apply I|]. intros v Hv. apply (inv_fresh _ _ _ _ I) in Hv.
    rewrite alive_put_ne; [done|]. congruence.
  - intros v _ Hg. by eapply parked_sleeper.
Qed.

(** The world in which [rsched_reinit] is analysed: the old state is dropped. *)
Lemma reinit_ready u w c h :
  safe w c -> inv_but None w c h -> (forall v, alive c v = true -> v = u) -> spawned w = [] ->
  ready u (set_STATE None w) c.
Proof.
  intros [S1 S2 S3 S4 S5 S6 S7] I Ho Hsp. split; try done.
  - intros v _ [sa Hv]. simpl in Hv. rewrite Hsp in Hv. by apply elem_of_nil in Hv.
  - intros v x Hne Hg. destruct x; try done; by destruct Hne; apply Ho; eapply get_alive.
  - unfold children_fresh. simpl. by rewrite Hsp.
  - intros v _ Hg. exact (parked_sleeper h w c v I Hg).
Qed.

Lemma call_wp2 u k w c h :
  safe w c -> inv_but None w c h -> get u c = Some User -> call_allowed cfg (mkSys w c) u k = true ->
  exists w0, ready u w0 c /\ started_at u w0 /\
    (forall s0, STATE w0 = Some s0 -> STATE w = Some s0) /\
    wp2 (Running k) u (run_call cfg L env code_bytes gate_address D u k) w0 w.
Proof.
  intros S I Hg Hall.
  destruct (inv_threads _ _ _ _ I u User ltac:(done) Hg) as (-> & Hp & Hd & Hm).
  assert (Ha : alive c u = true) by by eapply get_alive.
  assert (Hgood : INITED w = true -> good (X := kind_contract u (Running k)) u (idle u) w w).
  { intros Hi. destruct (safe_thread _ _ _ S u User Hg) as [?|(s & E & Hid)]; [congruence|].
    destruct (safe_state _ _ _ S Hi) as (s1 & E1 & Hs). assert (s1 = s) as -> by congruence.
    split; [by exists s|done|by apply Hm|apply I|]. apply passes_refl; [|by eexists]. intros s2 E2. congruence. }
  assert (He : outermost (X := kind_contract u (Running k)) u w w).
  { split; [done|]. destruct (INITED w) eqn:Hi; [left; auto|right]. split; [done|].
    assert (Hb := safe_init _ _ _ S Hi). split; [done|].
    split; [by eapply stateless_blank|]. split; [apply I|done]. }
  assert (Hst : started_at u w) by by eapply safe_started.
  assert (Hr : ready u w c) by by eapply alive_ready.
  destruct k; try (exists w; split; [done|split; [done|split; [done|by apply (call2 (X := kind_contract u (Running _)))]]]).
  - simpl in Hall. apply andb_true_iff in Hall as [Hall Hsp]. apply bool_decide_eq_true in Hsp.
    rewrite forallb_forall in Hall. exists (set_STATE None w). split.
    + eapply reinit_ready; try done. intros v Hv. unfold alive in Hv.
      destruct (get v c) as [x|] eqn:Hgv; [|done]. assert (Hin := Hgv).
      apply get_elem in Hin as [y Hin]. apply list_elem_of_In, Hall in Hin. simpl in Hin.
      unfold alive in Hin. rewrite Hgv in Hin. apply orb_true_iff in Hin as [E|E]; [|by destruct x].
      by apply bool_decide_eq_true in E.
    + split; [by intros s|]. split; [done|].
      apply (returns2 (X := kind_contract u (Running (Reinit seed))) _ u _ (before u)); [by apply entry_of_idle, reinit2|]. split; [by intros s v|].
      split; [apply I|done].
  - simpl in Hall. congruence.
  - exists w. split; [done|]. split; [done|]. split; [done|].
    assert (Ht : forall X : Contract, T2 u (good u (idle u))
                    (run_call cfg L env code_bytes gate_address D u RoutineReturns) (call_ends L u)).
    { intros X. eapply triple_bind; [by apply do_thread_exit2|]. by intros ? v0 v HP. }
    by apply Ht, Hgood.
Qed.

(** A suspended thread that may go on finds what it relies on. *)
Lemma resume_wp2 k u b rest w c h :
  safe w c -> inv_but None w c h -> get u c = Some (sleeps k b rest) ->
  resumable (mkSys w c) u b = true -> wp2 k u rest w w.
Proof.
  intros S I Hg Hr.
  assert (Hl : lib_safe L k w u b rest) by (assert (Ht := safe_thread _ _ _ S u _ Hg); by destruct k).
  destruct Hl as (ws & Hsince & Hst & Hblk & Hw). apply Hw.
  assert (Hloc : INITED w = true /\ MY_PT w !! u = Some u).
  { assert (Ht := inv_threads _ _ _ _ I u _ ltac:(done) Hg). destruct k; destruct Ht as ([? ?] & _); done. }
  destruct Hloc as [Hi Hm]. split; [done|]. split; [done|]. split; [apply I|]. split; [done|]. intros s E.
  destruct (safe_state _ _ _ S Hi) as (s1 & E1 & Hs). assert (s1 = s) as -> by congruence.
  split; [done|]. destruct b as [|[y|sa]|t]; try done.
  - simpl in Hr. apply andb_true_iff in Hr as [_ Hr]. apply bool_decide_eq_true in Hr. by eapply Hblk.
  - simpl in Hr. apply andb_true_iff in Hr as [Hr Hnsp]. apply andb_true_iff in Hr as [_ Hr].
    apply bool_decide_eq_true in Hnsp. apply negb_true_iff in Hr. intros (th & Hth & _ & He).
    destruct (safe_live _ _ _ S s t E) as [Ha|[sa Hsa]]; [by exists th|congruence|].
    apply Hnsp. apply list_elem_of_fmap. by exists (t, sa).
Qed.

Lemma begin_ready u sa w c h :
  safe w c -> inv_but None w c h -> (u, sa) ∈ spawned w -> ready u (new_thread u sa w) c.
Proof.
  intros S I Hin. assert (Hsp : spawned_in w u) by by exists sa.
  destruct (safe_spawned _ _ _ S u Hsp) as (s & E & Hid).
  assert (Hsub : forall v, spawned_in (new_thread u sa w) v -> spawned_in w v).
  { intros v [b Hb]. simpl in Hb. apply list_elem_of_filter in Hb as [_ Hb]. by exists b. }
  assert (Hsame : forall v x, thread_safe L w v x -> thread_safe L (new_thread u sa w) v x).
  { intros v x. by destruct x. }
  assert (Hsi := fun Hi => stateless_blank _ (safe_init _ _ _ S Hi)). split.
  - intros Hb. destruct (Hb s u E). by apply Hid.
  - intros s1 v Hne E1 Hl. destruct (safe_live _ _ _ S s1 v E1 Hl) as [|[b Hb]]; [by left|right].
    exists b. simpl. apply list_elem_of_filter. split; [|done]. congruence.
  - intros v _ Hv. by apply (safe_spawned _ _ _ S), Hsub.
  - intros v x _ Hg. by apply Hsame, (safe_thread _ _ _ S).
  - intros v x _ Hg Hx. by apply (safe_started _ _ _ S v x).
  - exact Hsi.
  - apply children_fresh_spec. destruct (inv_fresh _ _ _ _ I) as [Hnd Hna]. split.
    + simpl. eapply sublist_NoDup; [exact Hnd|]. apply fmap_sublist, sublist_filter.
    + intros v Hv. assert (Hvu : v <> u).
      { intros ->. destruct Hv as [sa' Hv]. simpl in Hv. apply list_elem_of_filter in Hv as [Hne Hv].
        apply Hne. f_equal. by eapply (NoDup_fst_inj (spawned w)). }
      rewrite alive_put_ne by done. by apply Hna, Hsub.
  - intros v _ Hg. by eapply (parked_sleeper h w).
Qed.

Lemma begin_wp2 u sa w c h :
  safe w c -> inv_but None w c h -> (u, sa) ∈ spawned w ->
  wp2 Young u (returns (trampoline_start cfg L u sa)) (new_thread u sa w) (new_thread u sa w).
Proof.
  intros S I Hin. assert (Hsp : spawned_in w u) by by exists sa.
  destruct (safe_spawned _ _ _ S u Hsp) as (s & E & Hid).
  assert (Hi : INITED w = true).
  { destruct (INITED w) eqn:Hi; [done|]. apply (inv_init _ _ _ _ I) in Hi as [_ Hi].
    rewrite Hi in Hin. by apply elem_of_nil in Hin. }
  destruct (safe_state _ _ _ S Hi) as (s1 & E1 & Hs). assert (s1 = s) as -> by congruence.
  assert (Ht : let X := kind_contract u Young in
    TH False u (newborn2 u) (returns (trampoline_start cfg L u sa)) (ends2 L Young u)).
  { intros X. eapply triple_bind; [by apply trampoline_start2|]. by intros ? w0 v HP. }
  apply Ht. split; [by exists s|]. split; [done|]. split; [apply I|]. apply passes_refl; [|by eexists]. intros s2 E2. simpl in E2. congruence.
Qed.

(** Every segment obeys the triples, from a world that differs from the actual one
    at most in a state that is about to be replaced. *)
Lemma segment_wp2 σ h u w p asleep :
  safe (world σ) (ctl σ) -> inv σ h ->
  segment cfg L env code_bytes gate_address D σ u w p asleep ->
  exists k w0, asleep = sleeps k /\ ready u w0 (ctl σ) /\ (is_running k -> started_at u w0) /\
    (forall s0, STATE w0 = Some s0 -> STATE (world σ) = Some s0) /\ wp2 k u p w0 w.
Proof.
  intros S I Hseg. destruct σ as [w1 c].
  destruct Hseg as [k Hg Hk|sa Hin|k b rest Hg Hr|b rest Hg Hr]; simpl in *.
  - destruct (call_wp2 u k w1 c h S I Hg Hk) as (w0 & ? & ? & ? & ?). by exists (Running k), w0.
  - exists Young, (new_thread u sa w1). split; [done|]. split; [by eapply begin_ready|].
    split; [done|]. split; [done|]. by eapply begin_wp2.
  - exists (Running k), w1. split; [done|]. split; [eapply alive_ready; [done..|by eapply get_alive]|].
    split; [intros _; by eapply safe_started|]. split; [done|]. by eapply (resume_wp2 (Running k)).
  - exists Young, w1. split; [done|]. split; [eapply alive_ready; [done..|by eapply get_alive]|].
    split; [done|]. split; [done|]. by eapply (resume_wp2 Young).
Qed.

(** An event is a segment, or it does not concern the library. *)
Lemma happens_segment n e σ σ' :
  spurious e = false -> happens cfg L env code_bytes gate_address D n e σ = Some σ' ->
  (exists u w p asleep, segment cfg L env code_bytes gate_address D σ u w p asleep /\
     settle asleep u (ctl σ) (eval n p w) = Some σ' /\
     (well_used σ e -> forall k s, asleep = sleeps k -> STATE (world σ) = Some s -> kind_contract u k s)) \/
  exists m, σ' = mkSys (set_mem m (world σ)) (ctl σ).
Proof.
  intros Hs E. destruct e as [u k|u m|u sa|u|u]; simpl in E; try done.
  - destruct (get u (ctl σ)) as [[| | |]|] eqn:Hg; try done.
    destruct (call_allowed cfg σ u k) eqn:Hk; [|done]. left. exists u. eexists _, _, _.
    split; [by apply segment_call|]. split; [done|]. intros Hu k' s Ek Es.
    apply (sleeps_inj (Running k)) in Ek as <-. by apply Hu.
  - destruct (get u (ctl σ)) as [[| | |]|] eqn:Hg; try done. simplify_eq. right. by exists m.
  - case_bool_decide as Hin; [|done]. left. exists u. eexists _, _, _. split; [by apply segment_begin|].
    split; [done|]. intros _ k s Ek _. by apply (sleeps_inj Young) in Ek as <-.
  - destruct (get u (ctl σ)) as [[|k b rest|b rest|]|] eqn:Hg; try done;
      (destruct (resumable σ u b) eqn:Hr; [|done]); left; exists u; eexists _, _, _.
    + split; [by eapply segment_lib|]. split; [done|]. simpl. rewrite Hg. intros Hu k' s Ek Es.
      apply (sleeps_inj (Running k)) in Ek as <-. by apply Hu.
    + split; [by eapply segment_starting|]. split; [done|]. intros _ k s Ek _.
      by apply (sleeps_inj Young) in Ek as <-.
Qed.

Lemma step_safe σ σ' h :
  safe (world σ) (ctl σ) -> inv σ h -> step cfg L env code_bytes gate_address D σ σ' ->
  safe (world σ') (ctl σ').
Proof.
  intros S I (n & e & Hs & E).
  destruct (happens_segment n e σ σ' Hs E) as [(u & w & p & asleep & Hseg & Hset & _)|[m ->]].
  - destruct (segment_wp2 _ _ _ _ _ _ S I Hseg) as (k & w0 & -> & R & Hst & _ & Hw).
    eapply settle_safe; [exact R|exact Hst| |exact Hset]. by apply wp_sound.
  - simpl. destruct S as [S1 S2 S3 S4 S5 S6 S7]. by split.
Qed.

Lemma sys0_safe main m : safe (world (sys0 main m)) (ctl (sys0 main m)).
Proof.
  split; simpl; try done.
  - intros _. split; [|done]. intros u v. unfold alive. simpl.
    do 2 case_decide; by subst.
  - intros v [sa Hv]. by apply elem_of_nil in Hv.
  - intros u x. case_decide; [|done]. intros [= <-]. by left.
Qed.

Lemma reachable_safe main m σ :
  reachable cfg L env code_bytes gate_address D main m σ ->
  safe (world σ) (ctl σ) /\ exists h, inv σ h.
Proof.
  induction 1 as [|σ σ' Hr [S [h I]] Hs].
  - split; [apply sys0_safe|eexists; apply sys0_inv].
  - split; [by eapply step_safe|by eapply step_inv].
Qed.
End Segments.

(** * The theorems *)
Section Theorems.
Context (cfg : Cfg) (L : Libc) (env : string -> option string).
Context (code_bytes : Z -> nat -> list Z) (gate_address : Z) (D : Linker).

(** C3. Once the library is initialised, in every reachable state: the registered
    threads are distinct and known, a waiter waits in one queue, once, and is marked
    blocking, waiters and joiners are live; every thread the scheduler takes for live
    exists; a thread in its own code is registered, in no queue and not joining. *)
Theorem reachable_sane main m σ :
  tsan cfg = false -> reachable cfg L env code_bytes gate_address D main m σ ->
  INITED (world σ) = true ->
  exists s, STATE (world σ) = Some s /\ sane s /\
    (forall v, live s v -> alive (ctl σ) v = true \/ spawned_in (world σ) v) /\
    (forall u, get u (ctl σ) = Some User -> idle u s).
Proof.
  intros Hc Hr Hi. destruct (reachable_safe _ _ _ _ _ _ Hc main m σ Hr) as [S _].
  destruct (safe_state _ _ _ S Hi) as (s & E & Hs). exists s. split; [done|]. split; [done|]. split.
  - intros v. by apply (safe_live _ _ _ S).
  - intros u Hg. destruct (safe_thread _ _ _ S u User Hg) as [?|(s1 & E1 & Hid)]; [congruence|].
    by assert (s1 = s) as -> by congruence.
Qed.

End Theorems.

(** * Witnesses *)

(** The main thread and the thread it created are in their own code or asleep. *)
Lemma reachable_sane_witness :
  match after_handover with
  | Some σ => match STATE (world σ) with
              | Some s => sane s /\ idle 100 s
              | None => False end
  | None => False
  end.
Proof.
  assert (H : match after_handover with
              | Some σ => match get 100 (ctl σ) with Some User => INITED (world σ) | _ => false end
              | None => false end = true) by (vm_compute; reflexivity).
  destruct after_handover as [σ|] eqn:E; [|discriminate H].
  destruct (get 100 (ctl σ)) as [[| | |]|] eqn:Hg; [|discriminate H..].
  destruct (reachable_sane plain_cfg plain_libc no_env no_code 0 plain_linker 1 ∅ σ) as (s & Es & Hs & _ & Hu);
    [reflexivity|by apply after_handover_reachable|exact H|].
  rewrite Es. split; [exact Hs|]. by apply Hu.
Defined.


