(* ===== verification/Termination.v ===== *)
(** Every segment ends: whatever a thread calls and whatever it finds, it returns,
    panics or gives the processor away after finitely many steps.  The loops of the
    library are [while !ready] in [drain_pending_child] and [loop] in
    [State::mutex_lock]; an iteration of either that does not leave the loop
    suspends. *)
From S2P Require Import Prelude Event Scheduler Machine State Runtime Sample Memory Api Atomics Elf Preload Discipline Starting System Exclusion.
Import StateOps.

(** The thread [u] is marked blocking. *)
Definition marked_blocking (s : State BoxScheduler) (u : PthreadT) : Prop :=
  exists th, info s !! u = Some th /\ is_blocking th = true.
Definition blocked (u : PthreadT) (w : World) : Prop :=
  match STATE w with Some s => marked_blocking s u | None => False end.

Section Runtime.
Context (cfg : Cfg) (L : Libc) (env : string -> option string).
(** The OS thread, and the name it goes by ([MY_PT]). *)
Context (self caller : PthreadT).

(** * The loops *)
Lemma never_returns_pt_cond_wait P c : never_returns P (pt_cond_wait self c).
Proof.
  apply never_returns_bind_r. intros ?. apply never_returns_bind_l, never_returns_suspend.
Qed.

Lemma never_returns_cond_wait P c : never_returns P (rsched_cond_wait cfg L self c).
Proof.
  apply never_returns_bind_r. intros ?. apply never_returns_bind_l.
  apply never_returns_bind_r. intros ?. apply never_returns_bind_l, never_returns_pt_cond_wait.
Qed.

Lemma wait_ready_no_spin sa :
  no_spin (let! r := read_box sa ready in
           if r then Ret (inr tt : unit + unit)
           else rsched_cond_wait cfg L self (ReadyCond sa) ;; Ret (inl tt)).
Proof.
  assert (Hn : never_returns (fun _ => True) (rsched_cond_wait cfg L self (ReadyCond sa) ;;
                 Ret (inl tt : unit + unit))).
  { apply never_returns_bind_l, never_returns_cond_wait. }
  intros w. unfold read_box. cbn [wp].
  destruct (boxes w !! sa) as [b|]; cbn [expect rbind]; [|exact I].
  destruct (ready b); [exact I|]. eapply wp_mono; [|exact (Hn w w I)]. by intros.
Qed.

(** Nothing in a scheduling point unblocks the caller, as long as the caller is
    not suspended. *)
Lemma blocked_update u pt f s s' :
  (forall th, is_blocking th = true -> is_blocking (f th) = true) ->
  modify pt f s = Ok s' -> marked_blocking s u -> marked_blocking s' u.
Proof.
  intros Hf E (th & Hth & Hb). unfold modify, t in E. invert_ok. unfold marked_blocking. simpl.
  rewrite lookup_insert. case_decide as Hu; [|by exists th]. subst u.
  eexists. split; [done|]. apply Hf. congruence.
Qed.

Lemma blocked_modify_unwrap u pt f s s' :
  (forall th, is_blocking th = true -> is_blocking (f th) = true) ->
  modify_unwrap pt f s = Ok s' -> marked_blocking s u -> marked_blocking s' u.
Proof.
  intros Hf E. unfold modify_unwrap in E. invert_ok. apply (blocked_update u pt f); [done|].
  unfold modify, t. rewrite H. done.
Qed.

Lemma blocked_info u s s' : info s' = info s -> marked_blocking s u -> marked_blocking s' u.
Proof. unfold marked_blocking. by intros ->. Qed.

Abbreviation keeps p := (acts (fun w w' => blocked caller w -> blocked caller w') p).

Lemma stays_with_state A (f : State BoxScheduler -> result (A * State BoxScheduler)) :
  (forall s a s', f s = Ok (a, s') -> marked_blocking s caller -> marked_blocking s' caller) ->
  keeps (with_state f : P A).
Proof.
  intros Hf w x w' E. apply rbind_Ok in E as (s & Hs & E). apply expect_Ok in Hs.
  apply rbind_Ok in E as ([y s'] & Hy & E). simplify_eq. unfold blocked. simpl. rewrite Hs. eauto.
Qed.
Lemma stays_update_state f :
  (forall s s', f s = Ok s' -> marked_blocking s caller -> marked_blocking s' caller) -> keeps (update_state f).
Proof.
  intros Hf. apply stays_with_state. intros s [] s' E. apply rbind_Ok in E as (s1 & E & E1).
  simplify_eq. eauto.
Qed.
Lemma stays_read_state A (f : State BoxScheduler -> result A) : keeps (read_state f : P A).
Proof.
  intros w x w' E. apply rbind_Ok in E as (s & _ & E). apply rbind_Ok in E as (y & _ & E).
  by simplify_eq.
Qed.
Lemma stays_modify_world f : (forall w, STATE (f w) = STATE w) -> keeps (modify_world f).
Proof. intros Hf w x w' E. injection E as _ <-. unfold blocked. by rewrite Hf. Qed.

(** Go through the steps of a program that does not write [STATE] itself. *)
Ltac keep := acts_walk ltac:(idtac; match goal with
  | |- acts _ (read_state _) => apply stays_read_state
  | |- acts _ (modify_world _) => apply stays_modify_world; reflexivity
  end).

Lemma keeps_wake next : keeps (wake cfg L self next true caller).
Proof.
  unfold wake. keep; apply stays_update_state; intros s s' E;
    (eapply blocked_modify_unwrap; [|exact E]); done.
Qed.

Lemma stays_context_switch : keeps (context_switch cfg L self caller).
Proof.
  unfold context_switch. split.
  - unfold drain_pending_child. split.
    + apply stays_with_state. intros s a s' E. simplify_eq. by apply blocked_info.
    + intros [[sa child]|]; [|exact I]. keep. apply stays_update_state. intros s s' E.
      case_bool_decide; [|by simplify_eq]. by eapply blocked_update, E.
  - intros ?. keep.
    + apply stays_update_state. intros s s' E. apply rbind_Ok in E as (th & _ & E).
      case_match; [|by simplify_eq]. by eapply blocked_update, E.
    + apply stays_with_state. intros s o s' E. unfold choose in E.
      apply rbind_Ok in E as (bl & _ & E). apply rbind_Ok in E as ([o' sch] & _ & E).
      simplify_eq. by apply blocked_info.
    + apply keeps_wake.
    + unfold deliver_event. split; [|intros ?; keep].
      apply stays_with_state. intros s out s' E. destruct (on_event _ _) as [sch l]. simplify_eq.
      by apply blocked_info.
Qed.

(** A blocked thread suspends. *)
Lemma wait_while_blocking_suspends :
  never_returns (blocked caller) (wait_while_blocking cfg L self caller).
Proof.
  intros w0 w Hb. unfold wait_while_blocking. simpl. unfold blocked in Hb.
  destruct (STATE w) as [s|] eqn:Hs; [|done]. destruct Hb as (th & Hth & Hbl).
  simpl. unfold t. rewrite Hth. simpl. rewrite Hbl. unfold when.
  apply (never_returns_bind_r _ _ _ _ (fun _ => True)); [|done].
  intros ?. apply never_returns_bind_l, never_returns_cond_wait.
Qed.

Lemma mutex_lock_no_spin key my_tid :
  no_spin (let! taken := with_state (mutex_acquire (overflow_checks cfg) key caller my_tid) in
           if taken then Ret (inr tt : unit + unit)
           else
             context_switch cfg L self caller ;;
             wait_while_blocking cfg L self caller ;;
             Ret (inl tt)).
Proof.
  intros w. cbn [wp with_state].
  destruct (expect (STATE w) _) as [s|] eqn:Hs; [|done]. simpl.
  destruct (mutex_acquire _ _ _ _ s) as [[b s']|] eqn:Ha; [|done]. simpl. destruct b; [done|].
  assert (Hb : blocked caller (set_STATE (Some s') w)).
  { unfold mutex_acquire in Ha. case_match; invert_ok; [done|]. unfold modify, t in H0. invert_ok.
    unfold blocked, marked_blocking. simpl. rewrite lookup_insert_eq. by eexists. }
  pose proof (acts_keep _ _ _ _ _ stays_context_switch w _ Hb) as Hk.
  cbn [wp]. eapply wp_mono; [|exact Hk]. intros ? v0 v Hv.
  cbn [wp]. eapply wp_mono; [|exact (wait_while_blocking_suspends v0 v Hv)]. by intros.
Qed.
End Runtime.

(** * Productivity *)
Section Productive.
Context (cfg : Cfg) (L : Libc) (env : string -> option string).
Context (code_bytes : Z -> nat -> list Z) (gate_address : Z) (D : Linker).
Context (self : PthreadT).

(** Take a program apart; its two loops do not spin. *)
Ltac produce :=
  repeat match goal with
  | |- forall _, productive _ => intros
  | |- _ /\ _ => split
  | |- True => exact I
  | |- productive (Ret _) => exact I
  | |- productive (Act _) => exact I
  | |- productive (Suspend _) => exact I
  | |- productive (read_state _) => exact I
  | |- productive (with_state _) => exact I
  | |- productive (update_state _) => exact I
  | |- productive (modify_world _) => exact I
  | |- productive (read_world _) => exact I
  | |- productive (when ?b _) => unfold when; destruct b
  | |- productive (if ?b then _ else _) => destruct b
  | |- productive (match ?o with Some _ => _ | None => _ end) => destruct o
  | |- productive (let (_, _) := ?x in _) => destruct x
  | |- productive (Bind _ _) => split
  | |- productive (wait_ready _ _ _ _) =>
      split; [intros ?|intros ?; apply wait_ready_no_spin]
  | |- productive (Iter _ _) => split; [intros ?|intros ?; apply mutex_lock_no_spin]
  | |- productive ?p => progress unfold
      rsched_glock, rsched_gunlock, glock, gunlock, sync_acquire, sync_release, tsan_ignore_begin,
      tsan_ignore_end, tsan_call, tsan_user_acquire, tsan_user_release, real_call, with_internal_depth,
      depth_enter, depth_exit, is_in_rsched, gmtx_lock, gmtx_unlock, pt_cond_wait, pt_cond_signal, rsched_cond_wait,
      rpt_cond_signal, read_box, box_new, box_free, box_set_ready, own_tid, my_pt, set_my_pt, thread_at, wake,
      drain_pending_child, deliver_event, wait_while_blocking, register_main, asserted_call,
      install_seccomp_tripwire_if_requested, install_sigsys_handler, install_seccomp_filter, rsched_init, ensure_init, caller_tid, load, store, rmw
  | |- productive ?p => progress cbv zeta
  end.

Lemma productive_context_switch caller : productive (context_switch cfg L self caller).
Proof. unfold context_switch. produce. Qed.

Lemma productive_mutex_lock key caller : productive (mutex_lock cfg L self key caller).
Proof. unfold mutex_lock. produce; apply productive_context_switch. Qed.

Ltac produce_call :=
  produce;
  repeat (first [
      lazymatch goal with
      | |- productive (context_switch _ _ _ _) => apply productive_context_switch
      | |- productive (mutex_lock _ _ _ _ _) => apply productive_mutex_lock
      end
    | progress unfold note, finish, lock_real, real_create, real_join, do_thread_exit, prepare_tsan_start_gate,
        restore_tsan_start_gate, take_gate, compare_exchange]; produce).

Lemma productive_schedule_memop i a n k : productive (schedule_memop cfg L env self i a n k).
Proof. unfold schedule_memop. produce_call. Qed.

Lemma productive_atomic op ra ptr : productive (run_atomic cfg L env self op ra ptr).
Proof.
  destruct op; unfold run_atomic; repeat (split || intros); try exact I;
    try apply productive_schedule_memop; produce_call.
Qed.

(** The exported functions, and what surrounds them in an interceptor. *)
Ltac produce_exported :=
  unfold rsched_note_pthread_mutexattr_init, rsched_note_pthread_mutexattr_settype,
    rsched_note_pthread_mutexattr_destroy, rsched_note_pthread_mutex_init, rsched_note_pthread_mutex_destroy,
    rsched_pthread_create, rsched_pthread_join, rsched_pthread_exit, rsched_pthread_mutex_lock,
    rsched_pthread_mutex_trylock, rsched_pthread_mutex_unlock, rsched_pthread_cond_wait,
    rsched_pthread_cond_signal, rsched_pthread_cond_broadcast, rsched_pthread_barrier_init,
    rsched_pthread_barrier_wait, rsched_sched_yield, rsched_reinit, tsan_user_start_gate, trampoline_end;
  produce_call.

Lemma productive_yield ra : productive (rsched_sched_yield cfg L env self ra).
Proof. produce_exported. Qed.

Lemma productive_virtual_sleep ra n : productive (virtual_sleep_yields cfg L env self ra n).
Proof.
  unfold virtual_sleep_yields. induction (Z.to_nat (virtual_sleep_count n)) as [|k IH]; [exact I|].
  split; [|by intros _]. split; [apply productive_yield|by intros _].
Qed.

Lemma productive_intercepted i :
  productive (run_intercepted cfg L env code_bytes gate_address D self i).
Proof.
  destruct i; cbn [run_intercepted]; unfold pthread_create, pthread_join, pthread_mutexattr_init,
    pthread_mutexattr_settype, pthread_mutexattr_destroy, pthread_mutex_init, pthread_mutex_destroy,
    pthread_mutex_lock, pthread_mutex_trylock, pthread_mutex_unlock, pthread_cond_wait, pthread_cond_signal,
    pthread_cond_broadcast, pthread_barrier_init, pthread_barrier_wait, sched_yield, nanosleep,
    clock_nanosleep, usleep, sleep, intercept, intercept_note, forward, load_next, rsched_try_enter,
    rsched_exit, is_tsan_background_thread_create, tsan_background_mode, caller_is_tsan_internal_start_thread,
    next_ordinal, timespec_at.
  all: produce; try apply productive_virtual_sleep; produce_exported.
Qed.

(** Every call is productive: each of its segments ends. *)
Lemma productive_call c : productive (run_call cfg L env code_bytes gate_address D self c).
Proof.
  destruct c; unfold run_call, returns; (split; [|intros; exact I]).
  all: try exact (productive_atomic _ _ _). all: try exact (productive_intercepted _).
  all: unfold pthread_exit, rsched_try_enter; produce_exported.
Qed.

Lemma productive_trampoline_start sa : productive (trampoline_start cfg L self sa).
Proof. unfold trampoline_start. produce. Qed.
End Productive.

(** * The theorem *)

(** The code a thread runs inside the library: a call, or the start of a new thread. *)
Definition library_code (cfg : Cfg) (L : Libc) (env : string -> option string)
    (code_bytes : Z -> nat -> list Z) (gate_address : Z) (D : Linker) (u : PthreadT) (p : P After) : Prop :=
  (exists c, p = run_call cfg L env code_bytes gate_address D u c) \/
  (exists sa, p = returns (trampoline_start cfg L u sa)).

(** C11. Every segment of every call, and of the start of a thread, ends: after any number
    of suspensions, whatever the other threads did meanwhile and whatever the world
    looks like, the rest of the call returns, panics or gives the processor away in
    finitely many steps. *)
Theorem every_segment_ends cfg L env code_bytes gate_address D u p rest :
  library_code cfg L env code_bytes gate_address D u p -> residual p rest ->
  forall w, exists fuel, eval fuel rest w <> OutOfFuel.
Proof.
  intros Hp Hr w. apply productive_ends. eapply productive_residual, Hr.
  destruct Hp as [[c ->]|[sa ->]]; [apply productive_call|].
  split; [apply productive_trampoline_start|by intros].
Qed.

Lemma every_segment_ends_witness :
  match eval 60 (run_call plain_cfg plain_libc no_env no_code 0 plain_linker 1 (MutexLock 5 9)) world0 with
  | Blocked w OnGmtx rest => exists fuel, eval fuel rest w <> OutOfFuel
  | _ => False
  end.
Proof.
  assert (E : match eval 60 (run_call plain_cfg plain_libc no_env no_code 0 plain_linker 1 (MutexLock 5 9)) world0 with
              | Blocked w OnGmtx rest => True | _ => False end) by (vm_compute; exact I).
  destruct (eval 60 (run_call plain_cfg plain_libc no_env no_code 0 plain_linker 1 (MutexLock 5 9)) world0)
    as [a w|w b rest|e|] eqn:Ev; [destruct E| |destruct E|destruct E].
  destruct b as [|c|t]; [|destruct E|destruct E].
  eapply (every_segment_ends plain_cfg plain_libc no_env no_code 0 plain_linker 1); [left; by eexists|].
  eapply residual_next; [apply residual_start|exact Ev].
Defined.
