(* ===== verification/Progress.v ===== *)
(** The process goes on as long as it can.

    Whatever a thread may do it does: an enabled segment ends in a new state of the
    process, or panics as expected.  The thread that has the turn may go on, unless it
    waits for another to end or to begin.  When nobody has the turn, or a blocked thread
    keeps it in [pthread_join], every thread that waits in a call is blocked: no wake-up
    was lost. *)
From S2P Require Import Prelude Event Scheduler Machine State WellFormed StateSpecs Integrity Runtime Sample Memory Api Atomics Elf Preload Discipline Conduct Interposition Starting System Exclusion Safety Termination.
Import StateOps.

Section Progress.
Context (cfg : Cfg) (L : Libc) (env : string -> option string).
Context (code_bytes : Z -> nat -> list Z) (gate_address : Z) (D : Linker).
Hypothesis no_tsan : tsan cfg = false.

Abbreviation segment := (segment cfg L env code_bytes gate_address D).
Abbreviation happens := (happens cfg L env code_bytes gate_address D).
Abbreviation step := (step cfg L env code_bytes gate_address D).
Abbreviation reachable := (reachable cfg L env code_bytes gate_address D).

(** * Enabled segments run *)

(** What a suspended thread has left to do ends in segments. *)
Definition productive_ctl (x : Ctl) : Prop :=
  match x with InLib _ _ rest | Starting _ rest => productive rest | User | Dead => True end.

Lemma segment_productive σ u w p asleep :
  (forall v x, get v (ctl σ) = Some x -> productive_ctl x) -> segment σ u w p asleep -> productive p.
Proof.
  intros H Hs. destruct Hs as [k Hg Hk|sa Hin|k b rest Hg Hr|b rest Hg Hr].
  - apply productive_call.
  - split; [apply productive_trampoline_start|by intros].
  - exact (H u _ Hg).
  - exact (H u _ Hg).
Qed.

Lemma reachable_productive main m σ :
  reachable main m σ -> forall v x, get v (ctl σ) = Some x -> productive_ctl x.
Proof.
  induction 1 as [|σ σ' Hr IH (n & e & Hs & E)].
  - intros v x. simpl. case_decide; [|done]. by intros [= <-].
  - destruct (happens_segment _ _ _ _ _ _ n e σ σ' Hs E) as [(u & w & p & asleep & Hseg & Hset & _)|[m' ->]]; [|exact IH].
    assert (Hp := segment_productive _ _ _ _ _ IH Hseg).
    assert (Has : forall b rest, productive rest -> productive_ctl (asleep b rest)) by by destruct Hseg.
    assert (Hput : forall x, productive_ctl x ->
      forall v y, get v (put u x (ctl σ)) = Some y -> productive_ctl y).
    { intros x Hx v y Hg. destruct (decide (v = u)) as [->|Hne].
      - rewrite get_put_eq in Hg. by simplify_eq.
      - rewrite get_put_ne in Hg by done. eauto. }
    destruct (eval n p w) as [a w'|w' b rest|e'|] eqn:Ev; simpl in Hset; try done;
      (destruct (children_fresh w' _); [|done]); simplify_eq; simpl; apply Hput; [by destruct a|].
    apply Has. by eapply productive_rest, Ev.
Qed.

(** An enabled segment is an event. *)
Lemma segment_happens σ u w p asleep :
  segment σ u w p asleep ->
  exists e, spurious e = false /\ forall n, happens n e σ = settle asleep u (ctl σ) (eval n p w).
Proof.
  intros Hs. destruct Hs as [k Hg Hk|sa Hin|k b rest Hg Hr|b rest Hg Hr].
  - exists (Calls u k). split; [done|]. intros n. simpl. by rewrite Hg, Hk.
  - exists (Begins u sa). split; [done|]. intros n. simpl. by rewrite bool_decide_eq_true_2.
  - exists (Resumes u). split; [done|]. intros n. simpl. by rewrite Hg, Hr.
  - exists (Resumes u). split; [done|]. intros n. simpl. by rewrite Hg, Hr.
Qed.

(** The segment brings the process to another state, or panics as expected. *)
Definition runs_on σ (u : PthreadT) w p asleep : Prop :=
  exists n, (exists σ', settle asleep u (ctl σ) (eval n p w) = Some σ' /\ step σ σ') \/
            (exists e, eval n p w = Panicked e /\ expected_panic e = true).

Lemma segment_runs main m σ u w p asleep :
  reachable main m σ -> segment σ u w p asleep -> runs_on σ u w p asleep.
Proof.
  intros Hr Hseg. destruct (reachable_safe _ _ _ _ _ _ no_tsan main m σ Hr) as [S [h I]].
  destruct (segment_wp2 _ _ _ _ _ _ no_tsan _ _ _ _ _ _ S I Hseg) as (k & w0 & -> & R & _ & _ & Hw).
  destruct (productive_ends _ _ _ p w (segment_productive _ _ _ _ _ (reachable_productive _ _ _ Hr) Hseg)) as [n Hn].
  destruct (segment_happens _ _ _ _ _ Hseg) as (e & He & Hh). exists n.
  apply (wp_sound _ _ _ _ _ n) in Hw.
  assert (Hgo : forall w', left_world (eval n p w) = Some w' -> children_fresh w' (put u User (ctl σ)) = true).
  { intros w'. by apply (outcome_fresh L k u w0). }
  assert (Hstep : forall σ', settle (sleeps k) u (ctl σ) (eval n p w) = Some σ' -> step σ σ').
  { intros σ' E. exists n, e. by rewrite Hh. }
  destruct (eval n p w) as [a w'|w' b rest|msg|] eqn:Ev; simpl in *; [| |right; eauto|done]; left;
    rewrite (Hgo w') in * by done; eauto.
Qed.

(** The turn is there, but its holder waits: for a thread to end, or for the thread
    it created to register. *)
Definition waits_for σ (u : PthreadT) : Prop :=
  match get u (ctl σ) with
  | Some (InLib _ (OnJoin t) _) => resumable σ u (OnJoin t) = false
  | Some (InLib _ (OnCond (ReadyCond sa)) _) => parked (world σ) !! u <> None
  | _ => False
  end.

(** C5. In every reachable state, whatever a thread may do next (a call, its beginning, or
    what follows a suspension that is over) it does, with enough fuel: the process
    comes to a next state, or the segment panics with an expected panic.  The thread
    that has the turn may do something, unless it waits for a thread to end
    ([pthread_join]) or for the thread it created to register. *)
Theorem progress main m σ :
  reachable main m σ ->
  (forall u w p asleep, segment σ u w p asleep -> runs_on σ u w p asleep) /\
  (forall u, active σ u = true -> (exists w p asleep, segment σ u w p asleep) \/ waits_for σ u).
Proof.
  intros Hr. split; [intros u w p asleep; by eapply segment_runs|]. intros u Ha.
  destruct (reachable_inv _ _ _ _ _ _ main m σ no_tsan Hr) as [h I].
  assert (Hg := inv_gmtx _ _ _ _ I). unfold active, waits_for in *.
  destruct (get u (ctl σ)) as [[|k b rest|b rest|]|] eqn:E; try done.
  - left. exists (world σ), (run_call cfg L env code_bytes gate_address D u (Yield 0)), (InLib (Yield 0)). by apply segment_call.
  - assert (Hlib : resumable σ u b = true -> exists w p asleep, segment σ u w p asleep).
    { intros Hb. exists (world σ), rest, (InLib k). by eapply segment_lib. }
    destruct b as [|[c|sa]|t].
    + left. apply Hlib. simpl. by apply bool_decide_eq_true.
    + left. apply Hlib. simpl. rewrite Ha, andb_true_r. by apply bool_decide_eq_true.
    + destruct (decide (parked (world σ) !! u = None)) as [Hp|]; [|by right].
      left. apply Hlib. simpl. by rewrite !bool_decide_eq_true_2.
    + destruct (resumable σ u (OnJoin t)) eqn:Hj; [left; by apply Hlib|by right].
  - destruct b as [|[c|sa]|t]; try done. left. exists (world σ), rest, Starting.
    eapply segment_starting; [done|]. simpl. rewrite Ha, andb_true_r. by apply bool_decide_eq_true.
Qed.

(** * No lost wake-up *)

(** It waits in [pthread_join], and is marked blocking. *)
Definition joins_blocked σ (v : PthreadT) : bool :=
  match get v (ctl σ), STATE (world σ) with
  | Some (InLib _ (OnJoin _) _), Some s => blocked_in s v
  | _, _ => false
  end.

(** Somebody has the turn and does not just keep it in [pthread_join], or no thread
    that waits in a call may be picked. *)
Definition turn_kept σ : Prop :=
  (exists v, active σ v = true /\ joins_blocked σ v = false) \/
  forall v k b rest, get v (ctl σ) = Some (InLib k b rest) -> ~ runnable_in (world σ) v.

Lemma active_alive σ v : active σ v = true -> alive (ctl σ) v = true.
Proof. unfold active, alive. by destruct (get v (ctl σ)) as [[]|]. Qed.

(** A processor that was handed over has an owner. *)
Lemma handed_turn σ h u : inv σ h -> handed u (world σ) -> turn_kept σ.
Proof.
  intros I [(next & _ & Hf & Hp)|(s & E & Hno)].
  - left. exists next. destruct (inv_flags _ _ _ _ I next Hf) as [?|[-> Ho]]; [done|].
    unfold active, joins_blocked. destruct (get next (ctl σ)) as [x|] eqn:Hg; [|done].
    assert (Ht := inv_threads _ _ _ _ I next x ltac:(done) Hg).
    destruct x as [|k [|[y|sa]|t] rest|[|[y|sa]|t] rest|]; simpl in *; try done; split; try done;
      apply bool_decide_eq_true; destruct Ht as (_ & (_ & _ & [?|[? _]]) & _); done.
  - right. intros v k b rest _ (s1 & E1 & Hr). apply (Hno v). congruence.
Qed.

(** A thread that makes calls keeps the turn or hands it over. *)
Lemma running_turn σ σ' h' u k w0 (o : outcome World Blocker After) :
  SignalLaw L -> inv σ' h' ->
  promised (Guar2 (X := kind_contract u (Running k)) (hands L (Running k)) u) (Rely2 u)
    (fun e => expected_panic e = true) (ends2 L (Running k) u) w0 o ->
  settle (InLib k) u (ctl σ) o = Some σ' -> turn_kept σ'.
Proof.
  intros Hlaw I HP E. destruct o as [a w'|w' b rest|e|]; simpl in E; try done;
    (destruct (children_fresh _ _); [|done]); simplify_eq; simpl in *.
  - destruct a; [left; exists u; unfold active, joins_blocked; simpl; by rewrite decide_True|].
    eapply handed_turn; [exact I|]. by apply HP.
  - destruct HP as [HG _]. destruct b as [|[c|sa]|t];
      try (left; exists u; unfold active, joins_blocked; simpl; by rewrite decide_True).
    + destruct HG as [(_ & _ & Hh & _)|[? _]]; [|done]. eapply handed_turn; [exact I|]. by apply (Hh c).
    + destruct HG as [((q & j & HG) & _ & _ & Hk)|[? _]]; [|done].
      destruct (good_state _ _ _ _ HG) as (s & Es & _). destruct (blocked_in s u) eqn:Hb.
      * right. intros v k1 b rest' _ (s1 & E1 & Hr). simpl in E1. assert (s1 = s) as -> by congruence.
        destruct (decide (v = u)) as [->|Hne]; [|by apply (Hk t eq_refl s Es Hb v)].
        apply runnable_may_go in Hr as [Hr _]. congruence.
      * left. exists u. unfold active, joins_blocked. simpl. rewrite decide_True, Es by done. done.
Qed.

Lemma young_wp σ h u w p asleep :
  inv σ h -> segment σ u w p asleep -> asleep = Starting ->
  wp (StartGuar u) (StartRely u) (fun _ => True) p (set_off u) w w.
Proof.
  intros I Hs Has. destruct σ as [w1 c]. destruct Hs as [k Hg Hk|sa Hin|k b rest Hg Hr|b rest Hg Hr].
  - by apply (sleeps_inj (Running k) Young) in Has.
  - by eapply begin_wp.
  - by apply (sleeps_inj (Running k) Young) in Has.
  - by eapply starting_wp.
Qed.

Lemma young_wp2 σ h u w p asleep :
  safe L (world σ) (ctl σ) -> inv σ h -> segment σ u w p asleep -> asleep = Starting ->
  ready L u w (ctl σ) /\
  wp (Guar2 (X := kind_contract u Young) False u) (Rely2 u) (fun e => expected_panic e = true) p (ends2 L Young u) w w.
Proof.
  intros S I Hs Has. destruct σ as [w1 c]. destruct Hs as [k Hg Hk|sa Hin|k b rest Hg Hr|b rest Hg Hr].
  - by apply (sleeps_inj (Running k) Young) in Has.
  - split; [by eapply begin_ready|by eapply begin_wp2].
  - by apply (sleeps_inj (Running k) Young) in Has.
  - split; [eapply alive_ready; [done..|by eapply get_alive]|by apply (resume_wp2 L Young u b rest w1 c h)].
Qed.

(** It makes nobody blocking. *)
Lemma young_blocked σ u w0 w' x v :
  ready L u w0 (ctl σ) -> STATE w0 = STATE (world σ) -> passes (X := kind_contract u Young) u w0 w' -> v <> u ->
  joins_blocked σ v = false -> joins_blocked (mkSys w' (put u x (ctl σ))) v = false.
Proof.
  intros R Es P Hne. unfold joins_blocked. simpl. rewrite decide_False by done.
  destruct (get v (ctl σ)) as [[|k [| |t] rest| |]|] eqn:Hg; try done.
  destruct (STATE w') as [s'|] eqn:E'; [|done].
  destruct (other_respects L u w0 w' (ctl σ) R v s' P E' Hne) as (s & E & Hl & HR); [by eapply get_alive|].
  rewrite Es in E. rewrite E. intros Hb. destruct (blocked_in s' v) eqn:Hb'; [|done].
  apply (respects_block _ _ _ HR) in Hb'; [congruence|done|done].
Qed.

(** What a thread that is being started finds of the others. *)
Lemma young_world σ u w p asleep :
  segment σ u w p asleep -> STATE w = STATE (world σ) /\ parked w = parked (world σ).
Proof. by destruct 1. Qed.

Lemma young_inactive σ h u w p asleep :
  inv σ h -> segment σ u w p asleep -> asleep = Starting -> ~ flagged w u -> active σ u = false.
Proof.
  intros I Hs Has Hf. destruct σ as [w1 c]. unfold active.
  destruct Hs as [k Hg Hk|sa Hin|k b rest Hg Hr|b rest Hg Hr]; simpl in *.
  - by apply (sleeps_inj (Running k) Young) in Has.
  - destruct (unborn u sa w1 c h I Hin) as (Ha & _). unfold alive in Ha. by destruct (get u c) as [[]|].
  - by apply (sleeps_inj (Running k) Young) in Has.
  - assert (Ht := inv_threads _ _ _ _ I u _ ltac:(done) Hg). rewrite Hg.
    destruct b as [|[y|sa]|t]; try done. by destruct Ht as (_ & (_ & ? & _) & _).
Qed.

(** A thread that is being started takes the turn from nobody, and makes nobody
    eligible but itself. *)
Lemma young_turn σ σ' h u w p asleep n :
  safe L (world σ) (ctl σ) -> inv σ h -> segment σ u w p asleep -> asleep = Starting -> turn_kept σ ->
  settle asleep u (ctl σ) (eval n p w) = Some σ' -> turn_kept σ'.
Proof.
  intros S I Hseg Has HN E. assert (Hw := young_wp _ _ _ _ _ _ I Hseg Has).
  destruct (young_wp2 _ _ _ _ _ _ S I Hseg Has) as [R Hw2].
  apply (wp_sound _ _ _ _ _ n) in Hw. apply (wp_sound _ _ _ _ _ n) in Hw2. assert (Ho := young_outcome u w _ Hw). subst asleep.
  destruct (young_world _ _ _ _ _ Hseg) as [Es Ep].
  destruct (eval n p w) as [a w'|w' b rest|e|] eqn:Ev; simpl in E; try done;
    (destruct (children_fresh _ _); [|done]); simplify_eq; simpl in *.
  { destruct Ho as [-> _]. left. exists u. unfold active, joins_blocked. simpl. by rewrite decide_True. }
  destruct Hw as [HG _].
  assert (HF : sframe u w w').
  { destruct b as [|[c|sa]|t]; simpl in HG; try done; [destruct HG as [d HM]|destruct HG as (_ & d & HM)]; apply HM. }
  destruct HN as [[v Hv]|Hno].
  - left. exists v. destruct Hv as [Hv Hj]. assert (Hne : v <> u).
    { intros ->. rewrite (young_inactive _ _ _ _ _ _ I Hseg eq_refl Ho) in Hv. done. }
    split.
    2: { destruct Hw2 as [[[(q & j & HG2) _]|[_ HU]] _].
         - eapply young_blocked; [exact R|done|apply HG2|done|done].
         - destruct Hne. apply (ready_blank _ _ _ _ R); [apply HU|]. by apply active_alive. }
    unfold active in *. simpl. rewrite decide_False by done.
    assert (Hpk : parked (world σ) !! v = None -> parked w' !! v = None).
    { intros Hp. rewrite <- Ep in Hp. destruct (sframe_parked _ _ _ HF v Hne) as [->|(sa & _ & ->)]; done. }
    destruct (get v (ctl σ)) as [[|k [|[c|sa]|t] r|[|[c|sa]|t] r|]|]; try done;
      apply bool_decide_eq_true; apply bool_decide_eq_true in Hv; auto.
  - right. intros v k' b' rest' Hg Hr. simpl in Hg. case_decide as Hd; [done|].
    apply (Hno v k' b' rest' Hg). apply (sframe_runnable _ _ _ HF) in Hr; [|congruence].
    destruct Hr as (s & E & Hr). exists s. by rewrite <- Es.
Qed.

Lemma reachable_turn main m σ : SignalLaw L -> reachable main m σ -> turn_kept σ.
Proof.
  intros Hlaw. induction 1 as [|σ σ' Hr IH Hst].
  { left. exists main. unfold active, joins_blocked. simpl. by rewrite decide_True. }
  destruct (reachable_safe _ _ _ _ _ _ no_tsan main m σ Hr) as [S [h I]].
  destruct (step_inv _ _ _ _ _ _ no_tsan _ _ _ I Hst) as [h' I'].
  destruct Hst as (n & e & Hs & E).
  destruct (happens_segment _ _ _ _ _ _ n e σ σ' Hs E) as [(u & w & p & asleep & Hseg & Hset & _)|[m' ->]]; [|exact IH].
  destruct (segment_wp2 _ _ _ _ _ _ no_tsan _ _ _ _ _ _ S I Hseg) as (k & w0 & -> & R & _ & _ & Hw).
  destruct k; [|exact (young_turn _ _ h u w p Starting n S I Hseg eq_refl IH Hset)].
  eapply running_turn; [done|exact I'| |exact Hset]. apply wp_sound. exact Hw.
Qed.

(** ** Nobody is forgotten

    The processes whose threads keep the contracts of POSIX: none destroys a mutex that
    others wait for, initialises a barrier that is in use, or joins a thread that another
    thread joins. *)
Inductive orderly (main : PthreadT) (m : gmap Z Z) : Sys -> Prop :=
| orderly_start : orderly main m (sys0 main m)
| orderly_step n e σ σ' :
    orderly main m σ -> spurious e = false -> well_used σ e -> happens n e σ = Some σ' -> orderly main m σ'.

Lemma orderly_reachable main m σ : orderly main m σ -> reachable main m σ.
Proof.
  induction 1 as [|n e σ σ' _ IH Hs _ E]; [apply reachable_start|].
  eapply reachable_step; [exact IH|]. by exists n, e.
Qed.

Definition all_tidy σ : Prop := forall s, STATE (world σ) = Some s -> tidy s.

Lemma outcome_tidy k u w0 c (o : outcome World Blocker After) σ' :
  promised (Guar2 (X := kind_contract u k) (hands L k) u) (Rely2 u) (fun e => expected_panic e = true)
    (ends2 L k u) w0 o ->
  kept (X := kind_contract u k) w0 -> settle (sleeps k) u c o = Some σ' -> all_tidy σ'.
Proof.
  intros HP Hk E. assert (Hgood : forall φ w, good (X := kind_contract u k) u φ w0 w -> forall s, STATE w = Some s -> tidy s).
  { intros φ w HG s Es. by eapply (passes_tidy _ _ _ (good_passes _ _ _ _ HG)). }
  destruct o as [a w'|w' b rest|e|]; simpl in E; try done;
    (destruct (children_fresh _ _); [|done]); simplify_eq; intros s Es; simpl in *.
  - destruct k, a; simpl in HP; [destruct HP as [HP|(_ & Hn & _)]|destruct HP as [HP _]| |destruct HP as [HP _]];
      [by eapply Hgood| |by eapply Hgood..]. congruence.
  - destruct HP as [[[(q & j & HG) _]|[_ HU]] _]; [by eapply Hgood|].
    destruct (unreg_state _ _ _ HU) as (s1 & E1 & Hs). assert (s1 = s) as -> by congruence.
    apply tidy_blank; [done|]. intros v. by apply (unreg_blank _ _ _ HU).
Qed.

Lemma orderly_tidy main m σ : orderly main m σ -> all_tidy σ.
Proof.
  induction 1 as [|n e σ σ' Hr IH Hs Hu E]; [by intros s|]. apply orderly_reachable in Hr.
  destruct (reachable_safe _ _ _ _ _ _ no_tsan main m σ Hr) as [S [h I]].
  destruct (happens_segment _ _ _ _ _ _ n e σ σ' Hs E) as [(u & w & p & asleep & Hseg & Hset & Hc)|[m' ->]]; [|exact IH].
  destruct (segment_wp2 _ _ _ _ _ _ no_tsan _ _ _ _ _ _ S I Hseg) as (k & w0 & -> & R & _ & Hst & Hw).
  eapply outcome_tidy; [apply wp_sound, Hw| |exact Hset]. split; [intros Hb; by apply (ready_blank _ _ _ _ R)|].
  intros s0 E0. apply Hst in E0. split; [by apply (Hc Hu k)|by apply IH].
Qed.

Lemma lib_live main m σ u k b rest s :
  reachable main m σ -> get u (ctl σ) = Some (InLib k b rest) -> STATE (world σ) = Some s -> b <> OnGmtx -> live s u.
Proof.
  intros Hr Hg E Hb. destruct (reachable_safe _ _ _ _ _ _ no_tsan main m σ Hr) as [S _].
  destruct (safe_thread _ _ _ S u _ Hg) as (ws & [_ Hsince] & [[? _]|(s0 & E0 & Hl0)] & _); [done|].
  destruct (Hsince s0 E0 Hl0) as (s1 & E1 & Hl1 & _). assert (s1 = s) as -> by congruence. exact Hl1.
Qed.

(** When nobody has the turn, or a blocked thread keeps it, who waits is blocked. *)
Lemma waiting_blocked main m σ u k b rest :
  SignalLaw L -> reachable main m σ -> (forall v, active σ v = true -> joins_blocked σ v = true) ->
  get u (ctl σ) = Some (InLib k b rest) ->
  (active σ u = false -> parked (world σ) !! u = Some (SuspendCond u)) /\
  exists s, STATE (world σ) = Some s /\ blocked_in s u = true /\ live s u.
Proof.
  intros Hlaw Hr Hno Hg. assert (Hlive := fun s => lib_live main m σ u k b rest s Hr Hg).
  destruct (active σ u) eqn:Ha.
  { split; [done|]. specialize (Hno u Ha). unfold joins_blocked in Hno. rewrite Hg in Hno.
    destruct b; try done. destruct (STATE (world σ)) as [s|]; [|done]. exists s. auto. }
  destruct (reachable_safe _ _ _ _ _ _ no_tsan main m σ Hr) as [S [h I]].
  destruct (reachable_turn main m σ Hlaw Hr) as [(v & Hv & Hj)|Hnr]; [by rewrite (Hno v Hv) in Hj|].
  specialize (Hnr u k b rest Hg). unfold active in Ha. rewrite Hg in Ha.
  destruct (inv_threads _ _ _ _ I u _ ltac:(done) Hg) as ((_ & Hi) & Ht & _).
  destruct b as [|[c|sa]|t]; try done. destruct Ht as (-> & Hf & Hs). apply bool_decide_eq_false in Ha.
  destruct Hs as [Hp|[? _]]; [|done]. split; [done|].
  destruct (safe_state _ _ _ S Hi) as (s & E & Hsane). exists s. split; [done|].
  assert (Hl : live s u) by by apply Hlive. split; [|done].
  destruct (blocked_in s u) eqn:Hb; [done|]. exfalso. apply Hnr. exists s. split; [done|].
  assert (Hst : started s u = true) by by eapply (safe_started _ _ _ S u).
  split; [by apply sane_listed|]. destruct Hl as (th & Hth & _). exists th. split; [done|].
  unfold flagged, flag_of, blocked_in, started in *. rewrite E in Hf. rewrite Hth in *.
  unfold Thread.eligible. by rewrite Hb, Hst, Hf.
Qed.

(** C4. No wake-up is lost (in a build without the sanitizer feature, if signals wake who
    waits and the threads keep the contracts of POSIX): in every state such a process
    reaches where nobody has the turn, or a thread that is marked blocking keeps it in
    [pthread_join], every thread that waits in a call is marked blocking, sleeps on its
    own condition if it has not the turn, and is one that somebody has yet to release:
    it is in the queue of a mutex that is locked, of a condition variable, or of a
    barrier that is not complete, or it is the recorded joiner of a live thread. *)
Theorem no_lost_wakeup main m σ :
  SignalLaw L -> orderly main m σ ->
  (forall v, active σ v = true -> joins_blocked σ v = true) ->
  forall u k b rest, get u (ctl σ) = Some (InLib k b rest) ->
    (active σ u = false -> parked (world σ) !! u = Some (SuspendCond u)) /\
    exists s, STATE (world σ) = Some s /\ blocked_in s u = true /\
      ((exists lock mu, mutexes s !! lock = Some mu /\ u ∈ SMutex.waiters mu) \/
       (exists cond c, conds s !! cond = Some c /\ u ∈ SCond.waiters c) \/
       (exists barrier r, barriers s !! barrier = Some r /\ u ∈ SBarrier.waiters r /\
          Z.of_nat (length (SBarrier.waiters r)) < SBarrier.count r) \/
       (exists t th, info s !! t = Some th /\ is_exited th = false /\ joiner th = Some u)).
Proof.
  intros Hlaw Ho Hno u k b rest Hg. assert (Hr := orderly_reachable _ _ _ Ho).
  destruct (waiting_blocked main m σ u k b rest Hlaw Hr Hno Hg) as [Hp (s & E & Hb & Hl)].
  split; [exact Hp|]. exists s. split; [exact E|]. split; [exact Hb|].
  destruct (orderly_tidy _ _ _ Ho s E) as [Ht Hopen].
  destruct (Ht u Hl Hb) as [[[key|key|key] Hq]|[pt (th & Hth & Hj & He)]]; unfold queue in *.
  - left. destruct (mutexes s !! key) as [mu|] eqn:Hm; [by exists key, mu|by apply elem_of_nil in Hq].
  - right. left. destruct (conds s !! key) as [c|] eqn:Hc; [by exists key, c|by apply elem_of_nil in Hq].
  - right. right. left. destruct (barriers s !! key) as [r|] eqn:Hr'; [|by apply elem_of_nil in Hq].
    exists key, r. simpl in Hq. split; [done|]. split; [done|]. destruct (Hopen key r Hr') as [En|]; [|done].
    rewrite En in Hq. by apply elem_of_nil in Hq.
  - right. right. right. by exists pt, th.
Qed.
End Progress.

(** * Processes that stand still *)

(** No thread of the process may do anything. *)
Definition at_rest σ : bool :=
  forallb (fun p => match get (fst p) (ctl σ) with
                    | Some User => false
                    | Some (InLib _ b _) | Some (Starting b _) => negb (resumable σ (fst p) b)
                    | Some Dead | None => true
                    end) (ctl σ) && bool_decide (spawned (world σ) = []).

Lemma at_rest_stuck cfg L env code_bytes gate_address D σ n e :
  at_rest σ = true -> spurious e = false -> happens cfg L env code_bytes gate_address D n e σ = None.
Proof.
  intros H Hs. apply andb_true_iff in H as [H Hsp]. apply bool_decide_eq_true in Hsp. rewrite forallb_forall in H.
  assert (Hu : forall u x, get u (ctl σ) = Some x ->
    match x with User => false | InLib _ b _ | Starting b _ => negb (resumable σ u b) | Dead => true end = true).
  { intros u x Hg. assert (Hin := Hg). apply get_elem in Hin as [y Hin]. apply list_elem_of_In, H in Hin.
    simpl in Hin. by rewrite Hg in Hin. }
  destruct e as [u k|u m|u sa|u|u]; simpl; try done.
  - destruct (get u (ctl σ)) as [[| | |]|] eqn:Hg; try done. by apply Hu in Hg.
  - destruct (get u (ctl σ)) as [[| | |]|] eqn:Hg; try done. by apply Hu in Hg.
  - rewrite bool_decide_eq_false_2; [done|]. rewrite Hsp. apply not_elem_of_nil.
  - destruct (get u (ctl σ)) as [[|k b rest|b rest|]|] eqn:Hg; try done;
      apply Hu, negb_true_iff in Hg; by rewrite Hg.
Qed.

Lemma joins_everywhere σ :
  forallb (fun p => implb (active σ (fst p)) (joins_blocked σ (fst p))) (ctl σ) = true ->
  forall v, active σ v = true -> joins_blocked σ v = true.
Proof.
  intros H v Ha. rewrite forallb_forall in H. destruct (get v (ctl σ)) as [x|] eqn:Hg.
  - assert (Hin := Hg). apply get_elem in Hin as [y Hin]. apply list_elem_of_In, H in Hin.
    simpl in Hin. by rewrite Ha in Hin.
  - unfold active in Ha. by rewrite Hg in Ha.
Qed.

(** The main thread creates a thread and exits. *)
Definition orphan : list Happens :=
  [Calls 1 (PthreadCreate 0 0 7 8); Resumes 1; Resumes 1; Calls 1 PthreadExit; Resumes 1; Begins 100 1; Resumes 100].

(** [do_thread_exit] does not wait for the new thread to register.  In this run, where
    nobody else is at a scheduling point, its start-up is never over and nothing wakes
    it: it is alive and not blocked, and no thread of the process can do anything. *)
Example exit_after_create_hangs :
  match runs plain_cfg plain_libc no_env no_code 0 plain_linker 60 orphan (sys0 1 ∅) with
  | Some σ =>
      alive (ctl σ) 100 = true /\
      match STATE (world σ) with Some s => blocked_in s 100 = false /\ threads s = [100] | None => False end /\
      forall n e, spurious e = false -> happens plain_cfg plain_libc no_env no_code 0 plain_linker n e σ = None
  | None => False
  end.
Proof.
  assert (H : match runs plain_cfg plain_libc no_env no_code 0 plain_linker 60 orphan (sys0 1 ∅) with
              | Some σ => alive (ctl σ) 100 &&
                  match STATE (world σ) with
                  | Some s => negb (blocked_in s 100) && bool_decide (threads s = [100]) | None => false end &&
                  at_rest σ
              | None => false end = true) by (vm_compute; reflexivity).
  destruct (runs _ _ _ _ _ _ _ _ _) as [σ|]; [|discriminate H].
  apply andb_true_iff in H as [H Hrest]. apply andb_true_iff in H as [Ha Hs]. split; [done|]. split.
  - destruct (STATE (world σ)) as [s|]; [|done]. apply andb_true_iff in Hs as [Hb Ht].
    apply bool_decide_eq_true in Ht. by apply negb_true_iff in Hb.
  - intros n e He. by apply at_rest_stuck.
Qed.

(** * Witnesses *)

(** The thread that got the turn may go on. *)
Lemma progress_witness :
  match after_handover with
  | Some σ => active σ 100 = true /\
      ((exists w p asleep, segment plain_cfg plain_libc no_env no_code 0 plain_linker σ 100 w p asleep) \/ waits_for σ 100)
  | None => False
  end.
Proof.
  assert (H : match after_handover with Some σ => active σ 100 | None => false end = true)
    by (vm_compute; reflexivity).
  destruct after_handover as [σ|] eqn:E; [|discriminate H]. split; [exact H|].
  apply (progress plain_cfg plain_libc no_env no_code 0 plain_linker eq_refl 1 ∅ σ);
    [by apply after_handover_reachable|exact H].
Defined.

(** The contracts can be decided. *)
Definition sole_joinerb (u t : PthreadT) (s : State BoxScheduler) : bool :=
  match info s !! t with
  | Some th => is_exited th || match joiner th with Some v => v =? u | None => true end
  | None => true
  end.
Definition contractb (u : PthreadT) (c : Call) (s : State BoxScheduler) : bool :=
  match c with
  | NoteMutexDestroy lock | Intercept (IMutexDestroy lock) => bool_decide (queue s (AtMutex lock) = [])
  | BarrierInit barrier _ _ | Intercept (IBarrierInit barrier _ _) => bool_decide (queue s (AtBarrier barrier) = [])
  | PthreadJoin t | Intercept (IJoin t _) => sole_joinerb u t s
  | _ => true
  end.

Lemma sole_joinerb_spec u t s : sole_joinerb u t s = true -> sole_joiner u t s.
Proof.
  unfold sole_joinerb. intros H v (th & Hth & Hj & He). rewrite Hth, He, Hj in H.
  by apply Z.eqb_eq in H.
Qed.

Lemma contractb_spec u c s : contractb u c s = true -> kind_contract u (Running c) s.
Proof.
  intros H. destruct c as [| | | | | | | | | | | | | | | | | | | |[]| |]; simpl in *; try done;
    first [by apply bool_decide_eq_true in H | by apply sole_joinerb_spec].
Qed.

Definition well_usedb σ (e : Happens) : bool :=
  let obeys u c := match STATE (world σ) with Some s => contractb u c s | None => true end in
  match e with
  | Calls u c => obeys u c
  | Resumes u => match get u (ctl σ) with Some (InLib c _ _) => obeys u c | _ => true end
  | _ => true
  end.

Lemma well_usedb_spec σ e : well_usedb σ e = true -> well_used σ e.
Proof.
  destruct e as [u c|u m|u sa|u|u]; simpl; try done.
  - intros H s E. rewrite E in H. by apply contractb_spec.
  - destruct (get u (ctl σ)) as [[|c b rest| |]|]; try done. intros H s E. rewrite E in H. by apply contractb_spec.
Qed.

(** A run of the sample process that keeps them. *)
Fixpoint orderly_run (es : list Happens) (σ : Sys) : option Sys :=
  match es with
  | [] => Some σ
  | e :: es' =>
      if negb (spurious e) && well_usedb σ e
      then match happens plain_cfg plain_libc no_env no_code 0 plain_linker 60 e σ with
           | Some σ' => orderly_run es' σ' | None => None end
      else None
  end.

Abbreviation plain_orderly := (orderly plain_cfg plain_libc no_env no_code 0 plain_linker 1 ∅).

Lemma orderly_run_spec es σ0 σ : plain_orderly σ0 -> orderly_run es σ0 = Some σ -> plain_orderly σ.
Proof.
  revert σ0. induction es as [|e es IH]; intros σ0 Ho E; simpl in E; [by simplify_eq|].
  destruct (negb (spurious e) && well_usedb σ0 e) eqn:Hb; [|done]. apply andb_true_iff in Hb as [Hs Hu].
  destruct (happens _ _ _ _ _ _ 60 e σ0) as [σ1|] eqn:E1; [|done].
  eapply IH; [|exact E]. eapply orderly_step; [exact Ho|by apply negb_true_iff|by apply well_usedb_spec|exact E1].
Qed.

(** The thread that was created waits for a condition nobody signals, and the main
    thread joins it. *)
Definition deadlock : list Happens :=
  handover ++
  [Calls 100 (MutexLock 5 9); Resumes 100; Resumes 1; Calls 1 (Yield 5); Resumes 1; Resumes 100;
   Calls 100 (CondWait 7 9); Resumes 100; Resumes 1; Calls 1 (PthreadJoin 100); Resumes 1; Resumes 100; Resumes 1].

Lemma no_lost_wakeup_witness :
  match orderly_run deadlock (sys0 1 ∅) with
  | Some σ => active σ 1 = true /\ parked (world σ) !! 100 = Some (SuspendCond 100) /\
                exists s, STATE (world σ) = Some s /\ blocked_in s 100 = true
  | None => False
  end.
Proof.
  assert (H : match orderly_run deadlock (sys0 1 ∅) with
    | Some σ => match get 100 (ctl σ) with Some (InLib _ _ _) => true | _ => false end &&
                (active σ 1 && negb (active σ 100)) &&
                forallb (fun p => implb (active σ (fst p)) (joins_blocked σ (fst p))) (ctl σ)
    | None => false end = true) by (vm_compute; reflexivity).
  destruct (orderly_run deadlock (sys0 1 ∅)) as [σ|] eqn:E; [|discriminate H].
  apply andb_true_iff in H as [Hc Hj]. apply andb_true_iff in Hc as [Hc Ha]. apply andb_true_iff in Ha as [Ha Hb].
  destruct (get 100 (ctl σ)) as [[|k b rest| |]|] eqn:Hg; try discriminate Hc. split; [exact Ha|].
  assert (Ho := orderly_run_spec _ _ _ (orderly_start _ _ _ _ _ _ 1 ∅) E).
  destruct (no_lost_wakeup plain_cfg plain_libc no_env no_code 0 plain_linker eq_refl 1 ∅ σ plain_signal_law Ho
    (joins_everywhere σ Hj) 100 k b rest Hg) as [Hp (s & Es & Hs & _)].
  split; [|exists s; split; [exact Es|exact Hs]]. apply Hp. apply negb_true_iff. exact Hb.
Defined.
