(* ===== verification/Typed.v ===== *)
(** Every field keeps its type.

    The model writes the machine integers of the source as [Z], and the words of the
    library's tables as plain values.  Here is what their types promise: a [u32] stays
    below 2^32, the generator's state is a non-zero [u64], memory holds bytes, a
    resolved symbol is not null, a barrier with its last thread is empty, a fresh box
    is not a live one.  A program is typed when it keeps a typed world typed, whatever
    typed world it finds after a suspension, and returns a value of its type.  This
    holds in every build, with or without spurious wake-ups. *)
From S2P Require Import Prelude Event Scheduler Machine State Runtime Sample Memory Api Atomics Contracts Elf Preload Discipline Starting System.
Import StateOps.

(** * The types of the data *)

(** A [pid_t] of a thread, or 0. *)
Definition in_pid (x : Z) : Prop := 0 <= x < 2 ^ 31.

Definition rng_typed (r : Rng.t) : Prop := in_u64 (Rng.state r) /\ Rng.state r <> 0.
Definition scheduler_typed (b : BoxScheduler) : Prop :=
  match b with
  | BoxRandomWalk s => rng_typed (RandomWalk.rng s)
  | BoxLogging s => rng_typed (RandomWalk.rng (LoggingScheduler.inner s))
  end.
Definition thread_typed (pt : PthreadT) (th : Thread) : Prop := pthread th = pt /\ in_pid (tid th).
Definition mutex_typed (m : SMutex.t) : Prop :=
  in_pid (SMutex.owner_tid m) /\ in_u32 (SMutex.recursive_count m).
(** Fewer threads wait than the barrier is for; nobody waits at one for 0. *)
Definition barrier_typed (b : SBarrier.t) : Prop :=
  in_u32 (SBarrier.count b) /\ Z.of_nat (length (SBarrier.waiters b)) < Z.max 1 (SBarrier.count b).

Record typed_state (s : State BoxScheduler) : Prop := mkTypedState {
  typed_scheduler : scheduler_typed (scheduler s);
  typed_info : map_Forall thread_typed (info s);
  typed_mutexes : map_Forall (fun _ => mutex_typed) (mutexes s);
  typed_barriers : map_Forall (fun _ => barrier_typed) (barriers s)
}.

(** The cached mode is one of the three bits' unions, or not known yet. *)
Definition mode_typed (m : Z) : Prop := 0 <= m < 8 \/ m = U64_MAX.
Record typed_statics (x : Statics) : Prop := mkTypedStatics {
  typed_next : map_Forall (fun _ p => p <> 0) (NEXT x);
  typed_creations : in_u64 (TSAN_PTHREAD_CREATE_COUNT x);
  typed_mode : mode_typed (TSAN_BACKGROUND_MODE x)
}.

Record typed (w : World) : Prop := mkTyped {
  typed_STATE : forall s, STATE w = Some s -> typed_state s;
  typed_MY_PT : map_Forall (fun u v => v = u) (MY_PT w);
  typed_depth : map_Forall (fun _ d => in_u32 d) (CALL_DEPTH w);
  typed_boxes : map_Forall (fun x _ => 0 < x < next_box w /\ gates w !! x = None) (boxes w);
  typed_gates : map_Forall (fun x _ => 0 < x < next_box w) (gates w);
  typed_next_box : 0 < next_box w;
  typed_mem : bytes_ok (mem w);
  typed_shim : typed_statics (statics w)
}.

(** * The operations of the state *)
Section StateTyping.
Implicit Types s : State BoxScheduler.

Lemma rng_typed_new seed : in_u64 seed -> rng_typed (Rng.new seed).
Proof.
  intros H. unfold Rng.new, rng_typed. simpl. destruct (Z.eqb_spec seed 0); [|done]. split; [|done].
  unfold in_u64, u64_mod. lia.
Qed.

Lemma rng_typed_next r : rng_typed r -> rng_typed (snd (Rng.next r)).
Proof.
  intros [Hr Hn]. split; simpl; [by apply Rng.step_range|]. intros E. apply Hn.
  apply Rng.step_inj; [done|by split; vm_compute|]. by rewrite E.
Qed.

Lemma walk_typed (s s' : RandomWalk.t) bl o :
  RandomWalk.choose s bl = Ok (o, s') -> rng_typed (RandomWalk.rng s) -> rng_typed (RandomWalk.rng s').
Proof.
  rewrite RandomWalk.choose_pick. intros [= _ <-] H. destruct (_ =? _)%nat; [done|]. by apply rng_typed_next.
Qed.

Lemma box_typed b bl o b' : Scheduler.choose b bl = Ok (o, b') -> scheduler_typed b -> scheduler_typed b'.
Proof.
  destruct b as [s|[s]]; simpl; intros E H.
  - apply rbind_Ok in E as ([o' s'] & E & E'). simplify_eq. by eapply walk_typed.
  - unfold LoggingScheduler.choose in E. simpl in E. apply rbind_Ok in E as ([o' s'] & E & E').
    apply rbind_Ok in E as ([o2 s2] & E & E2). simplify_eq. by eapply walk_typed.
Qed.

Lemma on_event_typed b ev b' out : on_event b ev = (b', out) -> scheduler_typed b -> scheduler_typed b'.
Proof. destruct b as [s|[s]]; simpl; intros E H; by simplify_eq. Qed.

Lemma typed_modify pt f s s' :
  (forall th, thread_typed pt th -> thread_typed pt (f th)) ->
  modify pt f s = Ok s' -> typed_state s -> typed_state s'.
Proof.
  intros Hf E [H1 H2 H3 H4]. unfold modify, t in E. invert_ok. split; simpl; [done| |done|done].
  apply map_Forall_insert_2; [|done]. apply Hf. by eapply H2.
Qed.

Lemma typed_modify_unwrap pt f s s' :
  (forall th, thread_typed pt th -> thread_typed pt (f th)) ->
  modify_unwrap pt f s = Ok s' -> typed_state s -> typed_state s'.
Proof.
  intros Hf E. unfold modify_unwrap in E. invert_ok. apply (typed_modify pt f); [done|].
  unfold modify, t. by rewrite H.
Qed.

Lemma typed_choose s o s' : choose s = Ok (o, s') -> typed_state s -> typed_state s'.
Proof.
  unfold choose. intros E [H1 H2 H3 H4]. apply rbind_Ok in E as (bl & _ & E).
  apply rbind_Ok in E as ([o' sch] & Ec & E). simplify_eq. split; simpl; [by eapply box_typed|done..].
Qed.

Lemma typed_pick_waiter msg ws s x ws' s' :
  pick_waiter msg ws s = Ok (x, ws', s') -> typed_state s -> typed_state s'.
Proof.
  unfold pick_waiter. intros E [H1 H2 H3 H4]. apply rbind_Ok in E as ([o sch] & Ec & E).
  apply rbind_Ok in E as (idx & _ & E). apply rbind_Ok in E as ([y l] & _ & E). simplify_eq.
  split; simpl; [by eapply box_typed|done..].
Qed.

Lemma typed_set_mutexes m s :
  map_Forall (fun _ => mutex_typed) m -> typed_state s -> typed_state (set_mutexes m s).
Proof. intros Hm [H1 H2 H3 H4]. by split. Qed.
Lemma typed_set_barriers b s :
  map_Forall (fun _ => barrier_typed) b -> typed_state s -> typed_state (set_barriers b s).
Proof. intros Hb [H1 H2 H3 H4]. by split. Qed.
Lemma typed_set_conds c s : typed_state s -> typed_state (set_conds c s).
Proof. intros [H1 H2 H3 H4]. by split. Qed.

Lemma add_u32_typed checks a b c : in_u32 a -> 0 <= b -> add_u32 checks a b = Ok c -> in_u32 c.
Proof.
  unfold add_u32, in_u32. intros Ha Hb. destruct (Z.ltb_spec (a + b) u32_mod).
  - intros [= <-]. lia.
  - destruct checks; [done|]. intros [= <-]. apply wrap32_range.
Qed.
Lemma sub_u32_typed checks a b c : in_u32 a -> 0 <= b -> sub_u32 checks a b = Ok c -> in_u32 c.
Proof.
  unfold sub_u32, in_u32. intros Ha Hb. destruct (Z.leb_spec b a).
  - intros [= <-]. lia.
  - destruct checks; [done|]. intros [= <-]. apply wrap32_range.
Qed.

Lemma blocking_typed pt b th : thread_typed pt th -> thread_typed pt (Thread.set_blocking b th).
Proof. done. Qed.

Lemma entry_typed s key tid :
  in_pid tid -> typed_state s -> mutex_typed (default (SMutex.mk tid 0 []) (mutexes s !! key)).
Proof.
  intros Ht [_ _ H _]. destruct (mutexes s !! key) as [m|] eqn:E; simpl; [by eapply H|].
  split; simpl; [done|]. unfold in_u32, u32_mod. lia.
Qed.

Lemma typed_mutex_acquire checks key caller tid s b s' :
  in_pid tid -> mutex_acquire checks key caller tid s = Ok (b, s') -> typed_state s -> typed_state s'.
Proof.
  intros Ht E Hs. unfold mutex_acquire in E. assert (He := entry_typed s key tid Ht Hs). case_match.
  - apply rbind_Ok in E as (c & Ec & E). simplify_eq. apply typed_set_mutexes; [|done].
    apply map_Forall_insert_2; [|apply Hs]. split; [apply He|]. eapply add_u32_typed, Ec; [apply He|lia].
  - apply rbind_Ok in E as (s1 & Em & E). simplify_eq. eapply typed_modify; [|exact Em|]; [apply blocking_typed|].
    apply typed_set_mutexes; [|done]. apply map_Forall_insert_2; [|apply Hs]. by case_match.
Qed.

Lemma typed_mutex_unlock checks key caller s r s' :
  mutex_unlock checks key caller s = Ok (r, s') -> typed_state s -> typed_state s'.
Proof.
  unfold mutex_unlock. intros E Hs. apply rbind_Ok in E as (th & _ & E).
  destruct (mutexes s !! key) as [m|] eqn:Hm; [|by simplify_eq]. case_match; [by simplify_eq|].
  assert (Hmt : mutex_typed m) by (by eapply (typed_mutexes s Hs)).
  apply rbind_Ok in E as (c & Ec & E).
  assert (Hc : mutex_typed (SMutex.set_count c m)).
  { split; [apply Hmt|]. eapply sub_u32_typed, Ec; [apply Hmt|lia]. }
  assert (Hs1 : typed_state (set_mutexes (<[key := SMutex.set_count c m]> (mutexes s)) s)).
  { apply typed_set_mutexes; [|done]. apply map_Forall_insert_2; [done|apply Hs]. }
  case_match; [by simplify_eq|]. case_match.
  - simplify_eq. apply typed_set_mutexes; [|done]. apply map_Forall_delete, Hs1.
  - apply rbind_Ok in E as ([[x ws] s2] & Ep & E). apply rbind_Ok in E as (wt & Ew & E).
    apply rbind_Ok in E as (s3 & Em & E). simplify_eq.
    assert (Hs2 := typed_pick_waiter _ _ _ _ _ _ Ep Hs1). eapply typed_modify; [|exact Em|]; [apply blocking_typed|].
    apply typed_set_mutexes; [|done]. apply map_Forall_insert_2; [|apply Hs2]. split; [|apply Hc].
    apply expect_Ok in Ew. by apply (typed_info s2 Hs2) in Ew as [_ ?].
Qed.

Lemma typed_unblock_all ws s s' : unblock_all ws s = Ok s' -> typed_state s -> typed_state s'.
Proof.
  unfold unblock_all. revert s. induction ws as [|x ws IH]; intros s E Hs; simpl in E; [by simplify_eq|].
  apply rbind_Ok in E as (s1 & Em & E). eapply IH; [exact E|]. eapply typed_modify, Hs; [|exact Em]. apply blocking_typed.
Qed.

Lemma typed_cond_enqueue c caller s s' : cond_enqueue c caller s = Ok s' -> typed_state s -> typed_state s'.
Proof.
  unfold cond_enqueue. intros E Hs. eapply typed_modify; [|exact E|]; [apply blocking_typed|]. by apply typed_set_conds.
Qed.

Lemma typed_cond_release_one c s s' : cond_release_one c s = Ok s' -> typed_state s -> typed_state s'.
Proof.
  unfold cond_release_one. intros E Hs. destruct (conds s !! c) as [q|]; [|by simplify_eq].
  case_match; [|by simplify_eq]. apply rbind_Ok in E as ([[x ws] s1] & Ep & E).
  eapply typed_modify; [|exact E|]; [apply blocking_typed|]. apply typed_set_conds. by eapply typed_pick_waiter.
Qed.

Lemma typed_cond_release_all c s s' : cond_release_all c s = Ok s' -> typed_state s -> typed_state s'.
Proof.
  unfold cond_release_all. intros E Hs. destruct (conds s !! c) as [q|]; [|by simplify_eq].
  eapply typed_unblock_all; [exact E|]. by apply typed_set_conds.
Qed.

Lemma typed_barrier_arrive key caller s o s' :
  barrier_arrive key caller s = Ok (Some (o, s')) -> typed_state s -> typed_state s'.
Proof.
  unfold barrier_arrive, barrier_register, barrier_release. intros E Hs.
  apply rbind_Ok in E as (r & Er & E). destruct (barriers s !! key) as [b|] eqn:Hb; [|by simplify_eq].
  destruct (typed_barriers s Hs key b Hb) as [Hc Hl]. cbn zeta in Er.
  set (ws := if contains caller (SBarrier.waiters b) then _ else _) in Er.
  destruct (Z.ltb_spec (Z.of_nat (length ws)) (SBarrier.count b)) as [Hlt|Hge].
  - apply rbind_Ok in Er as (s2 & Em & Er). simplify_eq. apply rbind_Ok in E as ([x s3] & E & Ex). simplify_eq.
    assert (Hs2 : typed_state s2).
    { eapply typed_modify; [|exact Em|]; [apply blocking_typed|]. apply typed_set_barriers; [|done].
      apply map_Forall_insert_2; [|apply Hs]. split; simpl; [done|lia]. }
    assert (Eb : barriers s2 !! key = Some (SBarrier.set_waiters ws b)).
    { unfold modify, t in Em. invert_ok. simpl. by rewrite lookup_insert_eq. }
    rewrite Eb in E. simpl in E. destruct (Z.leb_spec (SBarrier.count b) (Z.of_nat (length ws))); [lia|]. by simplify_eq.
  - simplify_eq. apply rbind_Ok in E as ([x s3] & E & Ex). simplify_eq. simpl in E. rewrite lookup_insert_eq in E.
    simpl in E. destruct (Z.leb_spec (SBarrier.count b) (Z.of_nat (length ws))); [|lia].
    apply rbind_Ok in E as (s4 & Eu & E). simplify_eq. eapply typed_unblock_all; [exact Eu|].
    refine (typed_set_barriers _ s _ Hs). simpl. rewrite insert_insert_eq.
    apply map_Forall_insert_2; [|apply Hs]. split; simpl; [done|lia].
Qed.

Lemma typed_add th s : thread_typed (pthread th) th -> typed_state s -> typed_state (add th s).
Proof. intros Ht [H1 H2 H3 H4]. split; simpl; [done|by apply map_Forall_insert_2|done|done]. Qed.

Lemma typed_remove pt s : typed_state s -> typed_state (remove pt s).
Proof.
  intros [H1 H2 H3 H4]. unfold remove. simpl. destruct (info s !! pt) as [th|] eqn:E; [|by split].
  split; simpl; [done| |done|done]. apply map_Forall_insert_2; [|done]. by apply (H2 pt th).
Qed.

Lemma typed_exit_thread pt s s' : exit_thread pt s = Ok s' -> typed_state s -> typed_state s'.
Proof.
  unfold exit_thread. intros E Hs. apply rbind_Ok in E as (s1 & E1 & E). simplify_eq. apply typed_remove.
  destruct (info s !! pt ≫= joiner); [|by simplify_eq]. eapply typed_modify; [|exact E1|done]. apply blocking_typed.
Qed.

Lemma typed_join_mark target caller s s' : join_mark target caller s = Ok s' -> typed_state s -> typed_state s'.
Proof.
  unfold join_mark. intros E Hs. apply rbind_Ok in E as (s1 & E1 & E). eapply typed_modify; [|exact E|]; [apply blocking_typed|].
  by eapply typed_modify; [|exact E1|].
Qed.

(** The other setters touch nothing that is typed. *)
Lemma typed_untouched s s' :
  scheduler s' = scheduler s -> info s' = info s -> map_Forall (fun _ => mutex_typed) (mutexes s') ->
  barriers s' = barriers s -> typed_state s -> typed_state s'.
Proof. intros E1 E2 Hm E4 [H1 H2 H3 H4]. split; [by rewrite E1|by rewrite E2|done|by rewrite E4]. Qed.
End StateTyping.

Create HintDb typed.
#[export] Hint Resolve typed_choose typed_mutex_acquire typed_mutex_unlock typed_cond_enqueue
  typed_cond_release_one typed_cond_release_all typed_barrier_arrive typed_exit_thread typed_join_mark : typed.

(** * Typed programs *)

(** From a typed world, and from any typed world found after a suspension, the program
    stays in typed worlds; what it returns satisfies [Q]. *)
Definition has_type {A} (p : P A) (Q : A -> Prop) : Prop :=
  triple (fun _ _ w => typed w) (fun _ _ w => typed w) (fun _ => True)
    (fun _ w => typed w) p (fun a _ w => typed w /\ Q a).
Definition any {A} (_ : A) : Prop := True.

Lemma type_ret A (a : A) (Q : A -> Prop) : Q a -> has_type (Ret a) Q.
Proof. by intros Ha w0 w Hw. Qed.

Lemma type_bind A B (m : P A) (k : A -> P B) M Q :
  has_type m M -> (forall a, M a -> has_type (k a) Q) -> has_type (Bind m k) Q.
Proof. intros Hm Hk. eapply triple_bind; [exact Hm|]. intros a w0 w [Hw Ha]. by apply (Hk a Ha). Qed.

Lemma type_seq A B (m : P A) (k : A -> P B) Q :
  has_type m any -> (forall a, has_type (k a) Q) -> has_type (Bind m k) Q.
Proof. intros Hm Hk. eapply type_bind; [exact Hm|]. intros a _. apply Hk. Qed.

Lemma type_weaken A (p : P A) (Q Q' : A -> Prop) : (forall a, Q a -> Q' a) -> has_type p Q -> has_type p Q'.
Proof. intros HQ Hp. eapply triple_weaken; [| |exact Hp]; [done|]. intros a w0 w [Hw Ha]. split; [done|]. by apply HQ. Qed.

Lemma type_any A (p : P A) Q : has_type p Q -> has_type p any.
Proof. by apply type_weaken. Qed.

Lemma type_act A (f : World -> result (A * World)) (Q : A -> Prop) :
  (forall w a w', typed w -> f w = Ok (a, w') -> typed w' /\ Q a) -> has_type (Act f) Q.
Proof. intros H. apply triple_act; [done|]. intros w0 w a w'. apply H. Qed.

Lemma type_suspend b : has_type (Suspend b) any.
Proof. intros w0 w Hw. split; [exact Hw|]. intros w' Hw'. split; [exact Hw'|exact I]. Qed.

Lemma type_iter X A (body : X -> P (X + A)) i (Q : A -> Prop) :
  (forall j, has_type (body j) (fun r => match r with inl _ => True | inr a => Q a end)) ->
  has_type (Iter body i) Q.
Proof.
  intros H. apply triple_iter with (Inv := fun _ _ w => typed w). intros j.
  eapply triple_weaken; [| |exact (H j)]; [done|]. intros [j'|a] w0 w [Hw Ha]; [done|by split].
Qed.

Lemma type_read_state A (f : State BoxScheduler -> result A) (Q : A -> Prop) :
  (forall s a, typed_state s -> f s = Ok a -> Q a) -> has_type (read_state f) Q.
Proof.
  intros Hf. apply type_act. intros w a w' Hw E. apply rbind_Ok in E as (s & Es & E).
  apply rbind_Ok in E as (y & Ey & E). simplify_eq. apply expect_Ok in Es. split; [done|].
  eapply Hf, Ey. by eapply typed_STATE.
Qed.

Lemma typed_set_STATE s w : typed_state s -> typed w -> typed (set_STATE (Some s) w).
Proof. intros Hs [H1 H2 H3 H4 H5 H6 H7 H8]. split; simpl; try done. by intros s' [= <-]. Qed.

Lemma type_with_state A (f : State BoxScheduler -> result (A * State BoxScheduler)) :
  (forall s a s', f s = Ok (a, s') -> typed_state s -> typed_state s') -> has_type (with_state f) any.
Proof.
  intros Hf. apply type_act. intros w a w' Hw E. apply rbind_Ok in E as (s & Es & E).
  apply rbind_Ok in E as ([y s'] & Ey & E). simplify_eq. apply expect_Ok in Es. split; [|done].
  apply typed_set_STATE; [|done]. eapply Hf; [exact Ey|]. by eapply typed_STATE.
Qed.

Lemma type_update f :
  (forall s s', f s = Ok s' -> typed_state s -> typed_state s') -> has_type (update_state f) any.
Proof.
  intros Hf. apply type_with_state. intros s a s' E. apply rbind_Ok in E as (s1 & E & E1). simplify_eq. by apply Hf.
Qed.

Lemma type_modify pt f :
  (forall th, thread_typed pt th -> thread_typed pt (f th)) -> has_type (update_state (modify pt f)) any.
Proof. intros Hf. apply type_update. intros s s' E. by eapply typed_modify. Qed.
Lemma type_modify_unwrap pt f :
  (forall th, thread_typed pt th -> thread_typed pt (f th)) -> has_type (update_state (modify_unwrap pt f)) any.
Proof. intros Hf. apply type_update. intros s s' E. by eapply typed_modify_unwrap. Qed.

Lemma type_modify_world f : (forall w, typed w -> typed (f w)) -> has_type (modify_world f) any.
Proof. intros Hf. apply type_act. intros w a w' Hw [= _ <-]. split; [by apply Hf|done]. Qed.

Lemma type_read_world A (f : World -> A) : has_type (read_world f) any.
Proof. apply type_act. intros w a w' Hw [= _ <-]. by split. Qed.

(** A write to a field that is not typed, or that stays typed. *)
Ltac field :=
  lazymatch goal with
  | |- typed _ -> _ => intros [? ? ? ? ? ? ? ?]; split; simpl; try assumption
  end.

Lemma typed_set_depth t d w : typed w -> typed (set_CALL_DEPTH (<[t := wrap32 d]> (CALL_DEPTH w)) w).
Proof. field. apply map_Forall_insert_2; [apply wrap32_range|done]. Qed.
Lemma typed_set_GMTX x w : typed w -> typed (set_GMTX x w).
Proof. field. Qed.
Lemma typed_set_INITED x w : typed w -> typed (set_INITED x w).
Proof. field. Qed.
Lemma typed_set_history x w : typed w -> typed (set_history x w).
Proof. field. Qed.
Lemma typed_set_stderr x w : typed w -> typed (set_stderr x w).
Proof. field. Qed.
Lemma typed_set_parked x w : typed w -> typed (set_parked x w).
Proof. field. Qed.
Lemma typed_set_spawned x w : typed w -> typed (set_spawned x w).
Proof. field. Qed.
Lemma typed_set_MY_PT u w : typed w -> typed (set_MY_PT (<[u := u]> (MY_PT w)) w).
Proof. field. by apply map_Forall_insert_2. Qed.
Lemma typed_set_mem m w : bytes_ok m -> typed w -> typed (set_mem m w).
Proof. intros Hm. field. Qed.
Lemma typed_set_statics x w : typed_statics x -> typed w -> typed (set_statics x w).
Proof. intros Hx. field. Qed.

#[export] Hint Resolve typed_set_depth typed_set_GMTX typed_set_INITED typed_set_history typed_set_stderr
  typed_set_parked typed_set_spawned typed_set_MY_PT : typed.

(** Go through the steps of a program; the functions of Runtime.v that are left alone have
    their own lemma in the base. *)
Ltac typing :=
  repeat match goal with
  | |- forall _, has_type _ _ => intros ?
  | |- has_type _ _ => solve [auto with typed]
  | |- has_type (Ret _) _ => apply type_ret
  | |- any _ => exact I
  | |- True => exact I
  | |- has_type (Suspend _) any => apply type_suspend
  | |- has_type (read_world _) any => apply type_read_world
  | |- has_type (read_state _) any => apply type_read_state; intros; exact I
  | |- has_type (modify_world _) any => apply type_modify_world; intros ? ?; auto with typed
  | |- has_type (update_state (modify _ _)) any => apply type_modify; intros ? ?; assumption
  | |- has_type (update_state (modify_unwrap _ _)) any => apply type_modify_unwrap; intros ? ?; assumption
  | |- has_type (update_state _) any => apply type_update; eauto with typed
  | |- has_type (with_state _) any => apply type_with_state; eauto with typed
  | |- has_type (with_internal_depth _ _) _ => unfold with_internal_depth
  | |- has_type (when ?b _) _ => unfold when; destruct b
  | |- has_type (if ?b then _ else _) _ => destruct b
  | |- has_type (match ?o with Some _ => _ | None => _ end) _ => destruct o
  | |- has_type (let (_, _) := ?x in _) _ => destruct x
  | |- has_type (Bind _ _) _ => apply type_seq
  | |- has_type (Iter _ _) _ => apply type_iter
  end.

(** ** The runtime *)
Section Runtime.
Context (cfg : Cfg) (L : Libc) (env : string -> option string) (self : PthreadT).
Hypothesis gettid_pid : forall h u, in_pid (gettid L h u).

Lemma type_real_call c : has_type (real_call L self c) any.
Proof. apply type_act. intros w a w' Hw [= _ <-]. split; [by apply typed_set_history|done]. Qed.

Lemma type_depth_enter : has_type (depth_enter self) any.
Proof. unfold depth_enter. typing. Qed.
Lemma type_depth_exit : has_type (depth_exit self) any.
Proof. unfold depth_exit. typing. Qed.
#[local] Hint Resolve type_real_call type_depth_enter type_depth_exit : typed.

Lemma type_internal A (p : P A) : has_type p any -> has_type (with_internal_depth self p) any.
Proof. intros Hp. unfold with_internal_depth. typing. Qed.

Lemma type_tsan_call c : has_type (tsan_call cfg L self c) any.
Proof. unfold tsan_call. typing. Qed.
#[local] Hint Resolve type_internal type_tsan_call : typed.

Lemma type_tsan_user_acquire a : has_type (tsan_user_acquire cfg L self a) any.
Proof. unfold tsan_user_acquire, tsan_ignore_begin, tsan_ignore_end. typing. Qed.
Lemma type_tsan_user_release a : has_type (tsan_user_release cfg L self a) any.
Proof. unfold tsan_user_release, tsan_ignore_begin, tsan_ignore_end. typing. Qed.

Lemma type_gmtx_lock : has_type (gmtx_lock self) any.
Proof. unfold gmtx_lock. typing. Qed.
Lemma type_gmtx_unlock : has_type (gmtx_unlock self) any.
Proof. apply type_act. intros w a w' Hw E. case_bool_decide; [|done]. simplify_eq. split; [by apply typed_set_GMTX|done]. Qed.
#[local] Hint Resolve type_gmtx_lock type_gmtx_unlock : typed.

Lemma type_glock : has_type (glock self) any.
Proof. unfold glock. typing. Qed.
Lemma type_gunlock : has_type (gunlock self) any.
Proof. unfold gunlock. typing. Qed.
#[local] Hint Resolve type_glock type_gunlock : typed.

Lemma type_rsched_glock : has_type (rsched_glock cfg L self) any.
Proof. unfold rsched_glock, sync_acquire, tsan_ignore_begin. typing. Qed.
Lemma type_rsched_gunlock : has_type (rsched_gunlock cfg L self) any.
Proof. unfold rsched_gunlock, sync_release, tsan_ignore_end. typing. Qed.

Lemma type_pt_cond_wait c : has_type (pt_cond_wait self c) any.
Proof.
  unfold pt_cond_wait. apply type_seq; [|typing]. apply type_act. intros w a w' Hw E.
  case_bool_decide; [|done]. simplify_eq. split; [|done]. by apply typed_set_parked, typed_set_GMTX.
Qed.
#[local] Hint Resolve type_pt_cond_wait type_rsched_glock type_rsched_gunlock : typed.

Lemma type_rsched_cond_wait c : has_type (rsched_cond_wait cfg L self c) any.
Proof. unfold rsched_cond_wait, sync_release, sync_acquire, tsan_ignore_begin, tsan_ignore_end. typing. Qed.
Lemma type_rpt_cond_signal c : has_type (rpt_cond_signal L self c) any.
Proof. apply type_internal. unfold pt_cond_signal. typing. Qed.
#[local] Hint Resolve type_rsched_cond_wait type_rpt_cond_signal : typed.

Lemma type_read_box A sa (f : StartArg -> A) : has_type (read_box sa f) any.
Proof. apply type_act. intros w a w' Hw E. apply rbind_Ok in E as (b & _ & E). by simplify_eq. Qed.

Lemma type_box_new b : has_type (box_new b) any.
Proof.
  apply type_act. intros w a w' [H1 H2 H3 H4 H5 H6 H7 H8] [= <- <-]. split; [|done]. split; simpl; try done; try lia.
  - apply map_Forall_insert_2.
    + split; [lia|]. destruct (gates w !! next_box w) as [g|] eqn:E; [|done]. apply H5 in E. lia.
    + intros x y E. apply H4 in E as [? ?]. split; [lia|done].
  - intros x y E. apply H5 in E. lia.
Qed.

Lemma type_box_free sa : has_type (box_free sa) any.
Proof.
  apply type_act. intros w a w' [H1 H2 H3 H4 H5 H6 H7 H8] E. apply rbind_Ok in E as (b & _ & E). simplify_eq.
  split; [|done]. split; simpl; try done. by apply map_Forall_delete.
Qed.

Lemma type_box_set_ready sa : has_type (box_set_ready sa) any.
Proof.
  apply type_act. intros w a w' [H1 H2 H3 H4 H5 H6 H7 H8] E. apply rbind_Ok in E as (b & Eb & E). simplify_eq.
  apply expect_Ok in Eb. split; [|done]. split; simpl; try done. apply map_Forall_insert_2; [|done]. by apply (H4 _ _ Eb).
Qed.

Lemma type_own_tid : has_type (own_tid L self) in_pid.
Proof. apply type_act. intros w a w' Hw [= <- <-]. split; [done|apply gettid_pid]. Qed.

Lemma type_my_pt : has_type (my_pt self) any.
Proof. unfold my_pt. typing. Qed.
Lemma type_set_my_pt : has_type (set_my_pt self self) any.
Proof. unfold set_my_pt. typing. Qed.
#[local] Hint Resolve type_read_box type_box_new type_box_free type_box_set_ready type_my_pt type_set_my_pt : typed.

Lemma type_drain : has_type (drain_pending_child cfg L self) any.
Proof.
  unfold drain_pending_child, wait_ready. typing.
  - intros s a s' [= <- <-] Hs. by eapply typed_untouched; [..|exact Hs]; [| |apply Hs|].
  - intros s s' E Hs. case_bool_decide; [|by simplify_eq]. by eapply typed_modify; [|exact E|].
Qed.

Lemma type_thread_at idx : has_type (thread_at idx) any.
Proof. unfold thread_at. typing. Qed.
Lemma type_wake next b caller : has_type (wake cfg L self next b caller) any.
Proof. unfold wake. typing. Qed.
Lemma type_deliver_event ev : has_type (deliver_event ev) any.
Proof.
  unfold deliver_event. typing. intros s out s' E Hs. destruct (on_event (scheduler s) ev) as [b' l] eqn:Eb. simplify_eq.
  split; simpl; [|apply Hs..]. eapply on_event_typed; [exact Eb|apply Hs].
Qed.
#[local] Hint Resolve type_drain type_thread_at type_wake type_deliver_event : typed.

Lemma type_context_switch caller : has_type (context_switch cfg L self caller) any.
Proof.
  unfold context_switch. typing. intros s s' E Hs. apply rbind_Ok in E as (th & _ & E). case_match; [|by simplify_eq].
  by eapply typed_modify; [|exact E|].
Qed.

Lemma type_wait_while_blocking caller : has_type (wait_while_blocking cfg L self caller) any.
Proof. unfold wait_while_blocking. typing. Qed.
#[local] Hint Resolve type_context_switch type_wait_while_blocking : typed.

Lemma type_mutex_lock key caller : has_type (mutex_lock cfg L self key caller) any.
Proof.
  unfold mutex_lock. eapply type_bind with (M := in_pid).
  - apply type_read_state. intros s a Hs E. apply rbind_Ok in E as (th & Eth & E). simplify_eq.
    apply expect_Ok in Eth. by apply (typed_info s Hs) in Eth as [_ ?].
  - intros my_tid Ht. typing.
Qed.

Lemma State_new_typed seed : in_u64 seed -> typed_state (State_new env seed).
Proof.
  intros H. apply rng_typed_new in H. split; simpl; try apply map_Forall_empty. by case_bool_decide.
Qed.

Lemma type_register_main : has_type (register_main cfg L self) any.
Proof.
  unfold register_main. do 2 (apply type_seq; [typing|intros ?]).
  eapply type_bind; [apply type_own_tid|intros my_tid Hp].
  typing. intros s s' [= <-] Hs. apply typed_add; [|done]. by split; simpl.
Qed.

Lemma type_asserted_call c msg : has_type (asserted_call L self c msg) any.
Proof.
  unfold asserted_call. typing. apply type_act. intros w x w' Hw E. by destruct (_ =? 0); simplify_eq.
Qed.
#[local] Hint Resolve type_register_main type_asserted_call : typed.

Lemma seed_from_env_range : in_u64 (seed_from_env env).
Proof.
  assert (Hd : in_u64 default_seed) by done. unfold seed_from_env. destruct (env "RANDOM_SEED") as [v|]; [|done].
  destruct (ParseU64.parse v) as [n|] eqn:E; simpl; [|done]. by eapply ParseU64.parse_range.
Qed.

Lemma type_set_state seed : in_u64 seed -> has_type (modify_world (set_STATE (Some (State_new env seed)))) any.
Proof. intros Hs. apply type_modify_world. intros w Hw. by apply typed_set_STATE; [apply State_new_typed|]. Qed.

Lemma type_ensure_init : has_type (ensure_init cfg L env self) any.
Proof.
  assert (Hs := type_set_state _ seed_from_env_range). assert (Hi : has_type (rsched_init cfg L env self) any).
  { unfold rsched_init, install_seccomp_tripwire_if_requested, install_sigsys_handler, install_seccomp_filter. apply type_seq; [|typing].
    apply type_act. intros w a w' Hw [= _ <-]. split; [by apply typed_set_INITED|done]. }
  unfold ensure_init. typing.
Qed.

Lemma type_reinit seed : in_u64 seed -> has_type (rsched_reinit cfg L env self seed) any.
Proof. intros H. assert (Hs := type_set_state seed H). unfold rsched_reinit. typing. Qed.
End Runtime.

#[export] Hint Resolve type_real_call type_depth_enter type_depth_exit type_internal type_tsan_call
  type_tsan_user_acquire type_tsan_user_release type_glock type_gunlock type_rsched_glock type_rsched_gunlock
  type_rsched_cond_wait type_rpt_cond_signal type_read_box type_box_new type_box_free type_box_set_ready
  type_my_pt type_set_my_pt type_drain type_thread_at type_context_switch type_wait_while_blocking
  type_mutex_lock type_asserted_call type_ensure_init type_reinit : typed.

(** ** Memory *)
Lemma write_word_bytes a n v m : bytes_ok m -> bytes_ok (write_word a n v m).
Proof.
  unfold write_word. revert a v. induction n as [|n IH]; intros a v Hm; simpl; [done|].
  apply map_Forall_insert_2; [|by apply IH]. apply Z.mod_pos_bound. lia.
Qed.

(** The word of [n] bytes. *)
Definition word (n : nat) (v : Z) : Prop := 0 <= v < 2 ^ (8 * Z.of_nat n).

Lemma type_load n a : has_type (load n a) (word n).
Proof.
  apply type_act. intros w v w' Hw E. apply rbind_Ok in E as (x & Ex & E). simplify_eq. apply expect_Ok in Ex.
  split; [done|]. eapply read_word_range, Ex. by apply typed_mem.
Qed.

Lemma type_store n a v : has_type (store n a v) any.
Proof.
  apply type_act. intros w x w' Hw E. apply rbind_Ok in E as (y & _ & E). simplify_eq. split; [|done].
  apply typed_set_mem; [|done]. by apply write_word_bytes, typed_mem.
Qed.

Lemma type_rmw A n a (f : Z -> A * option Z) (Q : A -> Prop) :
  (forall v, word n v -> Q (fst (f v))) -> has_type (rmw n a f) Q.
Proof.
  intros Hf. apply type_act. intros w x w' Hw E. apply rbind_Ok in E as (v & Ev & E). apply expect_Ok in Ev.
  assert (Hv : word n v) by (eapply read_word_range, Ev; by apply typed_mem). specialize (Hf v Hv).
  destruct (f v) as [r [v'|]]; simplify_eq; (split; [|done]); [|done]. apply typed_set_mem; [|done].
  by apply write_word_bytes, typed_mem.
Qed.

Lemma type_load_any n a : has_type (load n a) any.
Proof. eapply type_any, type_load. Qed.
#[export] Hint Resolve type_load_any type_store : typed.

(** ** The exported functions *)
Section Api.
Context (cfg : Cfg) (L : Libc) (env : string -> option string).
Context (code_bytes : Z -> nat -> list Z) (gate_address : Z) (self : PthreadT).
Hypothesis gettid_pid : forall h u, in_pid (gettid L h u).

Lemma type_note f :
  (forall s, typed_state s -> typed_state (f s)) -> has_type (note cfg L env self f) any.
Proof. intros Hf. unfold note. typing. intros s s' [= <-]. apply Hf. Qed.

Lemma type_mutexattr_init a : has_type (rsched_note_pthread_mutexattr_init cfg L env self a) any.
Proof. apply type_note. by intros s []. Qed.
Lemma type_mutexattr_settype a kind : has_type (rsched_note_pthread_mutexattr_settype cfg L env self a kind) any.
Proof. apply type_note. intros s []. unfold note_mutexattr_settype. by case_match. Qed.
Lemma type_mutexattr_destroy a : has_type (rsched_note_pthread_mutexattr_destroy cfg L env self a) any.
Proof. apply type_note. by intros s []. Qed.
Lemma type_mutex_init lock a : has_type (rsched_note_pthread_mutex_init cfg L env self lock a) any.
Proof. apply type_note. intros s []. unfold note_mutex_init. by case_match. Qed.
Lemma type_mutex_destroy lock : has_type (rsched_note_pthread_mutex_destroy cfg L env self lock) any.
Proof. apply type_note. intros s []. split; simpl; try done. by apply map_Forall_delete. Qed.

Lemma type_finish caller r : has_type (finish cfg L self caller r) any.
Proof. unfold finish. typing. intros s s' E. eapply typed_modify; [|exact E]. done. Qed.
#[local] Hint Resolve type_finish : typed.

Lemma type_lock_real lock caller : has_type (lock_real cfg L self lock caller) any.
Proof. unfold lock_real. typing. Qed.
Lemma type_caller_tid caller : has_type (caller_tid caller) any.
Proof. unfold caller_tid. typing. Qed.
Lemma type_set_event pt ev : has_type (update_state (set_event pt ev)) any.
Proof. apply type_modify. by intros th. Qed.
#[local] Hint Resolve type_lock_real type_caller_tid type_set_event : typed.

Lemma type_do_thread_exit caller : has_type (do_thread_exit cfg L self caller) any.
Proof. unfold do_thread_exit. typing. Qed.

Lemma type_trampoline_start sa : has_type (trampoline_start cfg L self sa) any.
Proof.
  unfold trampoline_start. do 4 (apply type_seq; [typing|intros ?]).
  eapply type_bind; [by apply type_own_tid|intros my_tid Hpid].
  typing. intros s s' E. eapply typed_modify, E. intros th [Hp _]. by split; simpl.
Qed.

Lemma type_gate_new g :
  has_type (Act (fun w => Ok (next_box w, set_next_box (next_box w + 1) (set_gates (<[next_box w := g]> (gates w)) w)))) any.
Proof.
  apply type_act. intros w a w' [H1 H2 H3 H4 H5 H6 H7 H8] [= <- <-]. split; [|done]. split; simpl; try done; try lia.
  - intros x b E. assert (Hx := E). apply H4 in Hx as [? Hg]. split; [lia|]. rewrite lookup_insert_ne by lia. done.
  - apply map_Forall_insert_2; [lia|]. intros x b E. apply H5 in E. lia.
Qed.

Lemma type_take_gate gate : has_type (take_gate gate) any.
Proof.
  apply type_act. intros w a w' [H1 H2 H3 H4 H5 H6 H7 H8] E. apply rbind_Ok in E as (g & _ & E). simplify_eq.
  split; [|done]. split; simpl; try done; [|by apply map_Forall_delete].
  intros x b Hb. destruct (H4 x b Hb) as [? Hg]. split; [done|]. by rewrite lookup_delete_None; right.
Qed.
#[local] Hint Resolve type_gate_new type_take_gate : typed.

Lemma type_user_start_gate raw : has_type (tsan_user_start_gate cfg L self raw) any.
Proof. unfold tsan_user_start_gate. typing. Qed.

Lemma type_real_create via attr sa : has_type (real_create L self via attr sa) any.
Proof.
  apply type_act. intros w a w' Hw E. simpl in E.
  destruct (ret L _ _ _ =? 0); [destruct (id_in_use _ _); [done|]|]; injection E as _ <-; (split; [|done]).
  - by apply typed_set_spawned, typed_set_history.
  - by apply typed_set_history.
Qed.
#[local] Hint Resolve type_real_create : typed.

Lemma type_create ra attr start a :
  has_type (rsched_pthread_create cfg L env code_bytes gate_address self ra attr start a) any.
Proof.
  unfold rsched_pthread_create, prepare_tsan_start_gate, restore_tsan_start_gate. typing.
  - intros s s' [= <-] Hs. apply typed_add; [|done]. by split; simpl.
  - intros s s' [= <-] Hs. by eapply typed_untouched; [..|exact Hs]; [| |apply Hs|].
Qed.

Lemma type_join thread : has_type (rsched_pthread_join cfg L env self thread) any.
Proof. unfold rsched_pthread_join, real_join. typing. Qed.

Lemma type_exit : has_type (rsched_pthread_exit cfg L env self) any.
Proof. unfold rsched_pthread_exit, do_thread_exit. typing. Qed.

Lemma type_api_mutex_lock ra lock : has_type (rsched_pthread_mutex_lock cfg L env self ra lock) any.
Proof. unfold rsched_pthread_mutex_lock. typing. Qed.
Lemma type_trylock ra lock : has_type (rsched_pthread_mutex_trylock cfg L env self ra lock) any.
Proof. unfold rsched_pthread_mutex_trylock. typing. Qed.
Lemma type_unlock ra lock : has_type (rsched_pthread_mutex_unlock cfg L env self ra lock) any.
Proof. unfold rsched_pthread_mutex_unlock. typing. Qed.
Lemma type_cond_wait cond lock : has_type (rsched_pthread_cond_wait cfg L env self cond lock) any.
Proof. unfold rsched_pthread_cond_wait. typing. Qed.
Lemma type_cond_signal cond : has_type (rsched_pthread_cond_signal cfg L env self cond) any.
Proof. unfold rsched_pthread_cond_signal. typing. Qed.
Lemma type_cond_broadcast cond : has_type (rsched_pthread_cond_broadcast cfg L env self cond) any.
Proof. unfold rsched_pthread_cond_broadcast. typing. Qed.
Lemma type_barrier_init barrier attr count :
  in_u32 count -> has_type (rsched_pthread_barrier_init cfg L env self barrier attr count) any.
Proof.
  intros Hc. unfold rsched_pthread_barrier_init. typing. intros s s' [= <-] Hs. apply typed_set_barriers; [|done].
  apply map_Forall_insert_2; [|apply Hs]. split; simpl; [done|lia].
Qed.
Lemma type_barrier_wait barrier : has_type (rsched_pthread_barrier_wait cfg L env self barrier) any.
Proof.
  unfold rsched_pthread_barrier_wait. typing. intros s x s1 E Hs. apply rbind_Ok in E as ([[r s2]|] & E & E1); [|by simplify_eq].
  simplify_eq. by eapply typed_barrier_arrive.
Qed.
Lemma type_yield ra : has_type (rsched_sched_yield cfg L env self ra) any.
Proof. unfold rsched_sched_yield. typing. Qed.
Lemma type_schedule_memop i a n k : has_type (schedule_memop cfg L env self i a n k) any.
Proof. unfold schedule_memop, is_in_rsched. typing. intros s s' E. eapply typed_modify; [|exact E]. done. Qed.
End Api.

#[export] Hint Resolve type_mutexattr_init type_mutexattr_settype type_mutexattr_destroy type_mutex_init
  type_mutex_destroy type_do_thread_exit type_trampoline_start type_create type_join type_exit
  type_api_mutex_lock type_trylock type_unlock type_cond_wait type_cond_signal type_cond_broadcast
  type_barrier_init type_barrier_wait type_yield type_schedule_memop type_user_start_gate : typed.

(** ** Atomics: the results are values of their C types *)
Definition result_typed (op : AtomicOp) (r : Z) : Prop :=
  match op with
  | InstrumentRa _ _ _ | Instrument _ _ | StoreI32 _ | StoreU32 _ | StorePtr _ => r = 0
  | LoadI32 | FetchAddI32 _ | FetchXorI32 _ => in_i32 r
  | LoadU32 | FetchAddU32 _ | FetchXorU32 _ => in_u32 r
  | LoadPtr => in_u64 r
  | CompareExchangeI32 _ _ | CompareExchangeU32 _ _ => r = 0 \/ r = 1
  end.

Section Atomics.
Context (cfg : Cfg) (L : Libc) (env : string -> option string) (self : PthreadT).
Hypothesis gettid_pid : forall h u, in_pid (gettid L h u).

Lemma type_exchange ptr expected desired :
  has_type (let! b := compare_exchange ptr expected desired in Ret (Z.b2z b)) (fun r => r = 0 \/ r = 1).
Proof.
  unfold compare_exchange. apply type_seq.
  - typing. apply type_rmw. by intros.
  - intros []; apply type_ret; auto.
Qed.

Lemma type_atomic op ra ptr : has_type (run_atomic cfg L env self op ra ptr) (result_typed op).
Proof.
  destruct op; unfold run_atomic, rsched_atomic_instrument_ra, rsched_atomic_instrument, rsched_atomic_load_i32,
    rsched_atomic_load_u32, rsched_atomic_load_ptr, rsched_atomic_store_i32, rsched_atomic_store_u32,
    rsched_atomic_store_ptr, rsched_atomic_compare_exchange_i32, rsched_atomic_compare_exchange_u32,
    rsched_atomic_fetch_add_i32, rsched_atomic_fetch_add_u32, rsched_atomic_fetch_xor_i32, rsched_atomic_fetch_xor_u32;
    simpl result_typed.
  all: try (typing; reflexivity).
  all: try (apply type_seq; [solve [auto with typed]|intros ?]).
  all: try (apply type_rmw; intros v Hv; simpl; (exact Hv || by apply as_i32_range)).
  all: try exact (type_load _ ptr).
  { eapply type_bind; [apply type_load|]. intros v Hv. apply type_ret. by apply as_i32_range. }
  all: apply triple_assoc, type_seq; [auto with typed|intros ?]; apply type_exchange.
Qed.
End Atomics.

Lemma type_atomic_any cfg L env self op ra ptr :
  (forall h u, in_pid (gettid L h u)) -> has_type (run_atomic cfg L env self op ra ptr) any.
Proof. intros HL. eapply type_any, type_atomic, HL. Qed.
#[export] Hint Resolve type_atomic_any : typed.

(** ** The interceptors *)
Section Shim.
Context (cfg : Cfg) (L : Libc) (env : string -> option string).
Context (code_bytes : Z -> nat -> list Z) (gate_address : Z) (D : Linker) (self : PthreadT).
Hypothesis gettid_pid : forall h u, in_pid (gettid L h u).

Lemma type_try_enter : has_type (rsched_try_enter self) any.
Proof. apply type_act. intros w a w' Hw [= _ <-]. split; [by apply typed_set_depth|done]. Qed.

(** A slot that is filled is not null. *)
Lemma type_load_next name : has_type (load_next D name) (fun p => p <> 0).
Proof.
  apply type_act. intros w p w' Hw E. cbv beta zeta in E. destruct (Z.eqb_spec (NEXT_slot name w) 0) as [|Hp]; simpl in E; [|by simplify_eq].
  destruct (Z.eqb_spec (dlsym_next D name) 0) as [|Hn]; [done|]. simplify_eq. split; [|done].
  destruct (typed_shim w Hw) as [H1 H2 H3]. apply typed_set_statics; [|done]. split; simpl; [|done..].
  by apply map_Forall_insert_2.
Qed.

Lemma type_forward name args : has_type (forward L D self name args) any.
Proof. eapply type_bind; [apply type_load_next|]. intros p _. auto with typed. Qed.
#[local] Hint Resolve type_try_enter type_forward : typed.

Lemma type_intercept name args p : has_type p any -> has_type (intercept L D self name args p) any.
Proof. intros Hp. unfold intercept, rsched_exit. typing. Qed.
Lemma type_intercept_note name args p : has_type p any -> has_type (intercept_note L D self name args p) any.
Proof. intros Hp. unfold intercept_note, rsched_exit. typing. Qed.
#[local] Hint Resolve type_intercept type_intercept_note : typed.

Lemma parse_tokens_range tokens mode m : 0 <= mode < 8 -> parse_tokens tokens mode = Ok m -> 0 <= m < 8.
Proof.
  revert mode. induction tokens as [|token tokens IH]; intros mode Hm E; simpl in E.
  - destruct (mode =? 0); simplify_eq; [by vm_compute|done].
  - case_bool_decide; [by eapply IH, E|]. case_bool_decide.
    + destruct (mode =? 0); simpl in E; by simplify_eq.
    + destruct (criterion token) as [b|] eqn:Hc; [|done]. apply criterion_bits in Hc as [Hb _].
      eapply IH, E. assert (mode = 0 \/ mode = 1 \/ mode = 2 \/ mode = 3 \/ mode = 4 \/ mode = 5 \/ mode = 6 \/ mode = 7)
        as Hmode by lia. destruct Hb as [->|[->| ->]], Hmode as [->|[->|[->|[->|[->|[->|[->| ->]]]]]]]; by vm_compute.
Qed.

Lemma type_background_mode : has_type (tsan_background_mode env) any.
Proof.
  unfold tsan_background_mode. typing. apply type_act. intros w m w' Hw E. apply rbind_Ok in E as (x & Ex & E). simplify_eq.
  split; [|done]. destruct (typed_shim w Hw) as [H1 H2 H3]. apply typed_set_statics; [|done]. split; simpl; [done..|].
  left. eapply parse_tokens_range, Ex. lia.
Qed.

Lemma type_next_ordinal : has_type (next_ordinal cfg) any.
Proof.
  apply type_act. intros w m w' Hw E. apply rbind_Ok in E as (x & Ex & E). simplify_eq.
  split; [|done]. destruct (typed_shim w Hw) as [H1 H2 H3]. apply typed_set_statics; [|done].
  split; simpl; [done|apply wrap64_range|done].
Qed.

Lemma type_pure A (f : World -> result A) : has_type (Act (fun w => let? a := f w in Ok (a, w))) any.
Proof. apply type_act. intros w a w' Hw E. apply rbind_Ok in E as (x & _ & E). by simplify_eq. Qed.
#[local] Hint Resolve type_background_mode type_next_ordinal : typed.

Lemma type_recognise start a : has_type (is_tsan_background_thread_create cfg env code_bytes D start a) any.
Proof. unfold is_tsan_background_thread_create, caller_is_tsan_internal_start_thread. typing; apply type_pure. Qed.
#[local] Hint Resolve type_recognise : typed.

Lemma type_times n p : has_type p any -> has_type (times n p) any.
Proof. intros Hp. induction n; simpl; typing. Qed.
#[local] Hint Resolve type_times : typed.

Lemma type_virtual_sleep ra n : has_type (virtual_sleep_yields cfg L env self ra n) any.
Proof. unfold virtual_sleep_yields. apply type_times. typing. Qed.
Lemma type_timespec_at req : has_type (timespec_at req) any.
Proof. unfold timespec_at. typing. Qed.
#[local] Hint Resolve type_virtual_sleep type_timespec_at : typed.

(** The argument that the state keeps. *)
Definition request_typed (i : Intercepted) : Prop :=
  match i with IBarrierInit _ _ count => in_u32 count | _ => True end.

Lemma type_intercepted i :
  request_typed i -> has_type (run_intercepted cfg L env code_bytes gate_address D self i) any.
Proof.
  intros Hi. destruct i; simpl in *;
    unfold pthread_create, pthread_join, pthread_mutexattr_init, pthread_mutexattr_settype, pthread_mutexattr_destroy,
      pthread_mutex_init, pthread_mutex_destroy, pthread_mutex_lock, pthread_mutex_trylock, pthread_mutex_unlock,
      pthread_cond_wait, pthread_cond_signal, pthread_cond_broadcast, pthread_barrier_init, pthread_barrier_wait,
      sched_yield, nanosleep, clock_nanosleep, usleep, sleep.
  all: first [apply type_intercept | apply type_intercept_note].
  all: typing.
Qed.
End Shim.

#[export] Hint Resolve type_intercepted type_try_enter : typed.

(** * The process *)
Section Process.
Context (cfg : Cfg) (L : Libc) (env : string -> option string).
Context (code_bytes : Z -> nat -> list Z) (gate_address : Z) (D : Linker).
Hypothesis gettid_pid : forall h u, in_pid (gettid L h u).

Abbreviation happens := (happens cfg L env code_bytes gate_address D).
Abbreviation runs := (runs cfg L env code_bytes gate_address D).

(** The arguments that the state keeps are of their types, and a program writes bytes. *)
Definition call_typed (c : Call) : Prop :=
  match c with
  | BarrierInit _ _ count => in_u32 count
  | Reinit seed => in_u64 seed
  | Intercept i => request_typed i
  | _ => True
  end.
Definition event_typed (e : Happens) : Prop :=
  match e with Calls _ c => call_typed c | Writes _ m => bytes_ok m | _ => True end.

Lemma type_call u c : call_typed c -> has_type (run_call cfg L env code_bytes gate_address D u c) any.
Proof.
  intros Hc. destruct c; simpl in *; unfold returns, trampoline_end, pthread_exit; typing.
Qed.

(** What a suspended thread has left to do keeps a typed world typed. *)
Definition goes_on_typed (p : P After) : Prop :=
  forall w, typed w ->
    wp (fun _ _ w => typed w) (fun _ _ w => typed w) (fun _ => True) p (fun _ _ w => typed w /\ True) w w.
Definition ctl_typed (x : Ctl) : Prop :=
  match x with InLib _ _ rest | Starting _ rest => goes_on_typed rest | User | Dead => True end.
Definition sys_typed (σ : Sys) : Prop :=
  typed (world σ) /\ forall u x, get u (ctl σ) = Some x -> ctl_typed x.

Lemma put_typed u x c :
  ctl_typed x -> (forall v y, get v c = Some y -> ctl_typed y) -> forall v y, get v (put u x c) = Some y -> ctl_typed y.
Proof. intros Hx Hc v y. simpl. case_decide; [by intros [= <-]|apply Hc]. Qed.

Lemma settle_typed asleep u c n p w σ :
  (forall b rest, goes_on_typed rest -> ctl_typed (asleep b rest)) ->
  goes_on_typed p -> typed w -> (forall v y, get v c = Some y -> ctl_typed y) ->
  settle asleep u c (eval n p w) = Some σ -> sys_typed σ.
Proof.
  intros Ha Hp Hw Hc E. assert (Hs := Hp w Hw). apply (wp_sound _ _ _ _ _ n) in Hs.
  destruct (eval n p w) as [a w'|w' b rest|e|]; simpl in *; try done; destruct (children_fresh _ _); try done; simplify_eq.
  - split; [apply Hs|]. apply put_typed; [by destruct a|done].
  - destruct Hs as [Hw' Hr]. split; [exact Hw'|]. apply put_typed; [|done]. by apply Ha.
Qed.

Lemma happens_typed n e σ σ' : event_typed e -> sys_typed σ -> happens n e σ = Some σ' -> sys_typed σ'.
Proof.
  intros He [Hw Hc] E. destruct e as [u c|u m|u sa|u|u]; simpl in E, He.
  - destruct (get u (ctl σ)) as [[]|]; try done. destruct (call_allowed cfg σ u c); [|done].
    eapply settle_typed, E; try done. intros w' Hw'. by apply (type_call u c He).
  - destruct (get u (ctl σ)) as [[]|]; try done. simplify_eq. split; [by apply typed_set_mem|done].
  - case_bool_decide; [|done]. eapply settle_typed, E; try done.
    + intros w' Hw'. unfold returns. refine (type_seq _ _ _ _ any _ _ w' w' Hw'); [auto with typed|]. intros ?. by apply type_ret.
    + destruct Hw as [H1 H2 H3 H4 H5 H6 H7 H8]. split; simpl; try done; by apply map_Forall_delete.
  - destruct (get u (ctl σ)) as [[|k b rest|b rest|]|] eqn:Hg; try done; (destruct (resumable σ u b); [|done]);
      (eapply settle_typed, E; [done|exact (Hc u _ Hg)|done..]).
  - destruct (parked (world σ) !! u); [|done]. simplify_eq. split; [by apply typed_set_parked|done].
Qed.

Lemma sys0_typed main m : bytes_ok m -> sys_typed (sys0 main m).
Proof.
  intros Hm. split.
  - split; simpl; try done; try apply map_Forall_empty; try lia. split; simpl; [apply map_Forall_empty|done|by right].
  - intros u x. simpl. case_decide; [by intros [= <-]|done].
Qed.

(** C12. Every field keeps its type, in every build and whatever happens, spurious wake-ups
    included: call depths, recursion counts and barrier counts are u32 values, the
    generator's state is a u64 and never 0, thread ids are pid_t values and a
    descriptor names its own thread, fewer threads wait at a barrier than it is for,
    the thread-local of a thread names that thread, a new box is not a live one,
    resolved symbols are not null, the background mode is one of the eight or unset,
    memory holds bytes.  What an atomic called there returns, after any suspensions,
    is a value of its C type. *)
Theorem well_typed n es main m σ :
  bytes_ok m -> Forall event_typed es -> runs n es (sys0 main m) = Some σ ->
  typed (world σ) /\
  forall u op ra ptr k found r w', Forall typed found ->
    replay k (run_atomic cfg L env u op ra ptr) (world σ) found = Done r w' -> result_typed op r.
Proof.
  intros Hm He E. assert (H : sys_typed σ).
  - revert E. generalize (sys0_typed main m Hm). generalize (sys0 main m).
    induction He as [|e es Hev _ IH]; intros σ0 H0 E; simpl in E; [by simplify_eq|].
    destruct (happens n e σ0) as [σ1|] eqn:E1; [|done]. eapply IH, E. by eapply happens_typed.
  - split; [apply H|]. intros u op ra ptr k found r w' Hf Er.
    assert (Ha := type_atomic cfg L env u gettid_pid op ra ptr (world σ) (world σ) (proj1 H)).
    by apply (replay_sound _ typed k _ _ _ _ _ _ _ _ Ha Hf Er).
Qed.
End Process.

(** * Witness

    A C library whose thread ids are those of the kernel; the main thread makes a
    barrier for two and a recursive lock, and adds to a word in memory. *)
Definition narrow_libc : Libc :=
  mkLibc (ret plain_libc) (new_pthread plain_libc) (signal_wakes plain_libc) (fun _ pt => pt mod 2 ^ 31) false.
Definition four_bytes : gmap Z Z := {[64 := 255; 65 := 255; 66 := 255; 67 := 127]}.
Definition some_work : list Happens :=
  [Calls 1 (BarrierInit 3 0 2); Resumes 1; Resumes 1; Calls 1 (MutexLock 0 9); Resumes 1].
Abbreviation narrow_runs es := (runs plain_cfg narrow_libc no_env no_code 0 plain_linker 60 es (sys0 1 four_bytes)).
Abbreviation adding := (FetchAddI32 1) (only parsing).

Lemma narrow_pid h u : in_pid (gettid narrow_libc h u).
Proof. apply Z.mod_pos_bound. lia. Qed.

Lemma well_typed_witness :
  match narrow_runs some_work, narrow_runs (some_work ++ [Calls 1 (Atomic adding 0 64)]) with
  | Some σ, Some σ1 =>
      typed (world σ) /\
      match replay 60 (run_atomic plain_cfg narrow_libc no_env 1 adding 0 64) (world σ) [world σ1] with
      | Done r _ => r = 2147483647 /\ in_i32 r
      | _ => False
      end
  | _, _ => False
  end.
Proof.
  assert (Hm : bytes_ok four_bytes).
  { unfold bytes_ok, four_bytes. repeat (apply map_Forall_insert_2; [lia|]). apply map_Forall_empty. }
  assert (He : Forall event_typed some_work) by (repeat constructor; unfold u32_mod; simpl; lia).
  assert (H : match narrow_runs some_work, narrow_runs (some_work ++ [Calls 1 (Atomic adding 0 64)]) with
    | Some σ, Some σ1 =>
        match replay 60 (run_atomic plain_cfg narrow_libc no_env 1 adding 0 64) (world σ) [world σ1] with
        | Done r _ => r =? 2147483647 | _ => false end
    | _, _ => false end = true) by (vm_compute; reflexivity).
  destruct (narrow_runs some_work) as [σ|] eqn:E; [|discriminate H].
  destruct (narrow_runs (some_work ++ _)) as [σ1|] eqn:E1; [|discriminate H].
  destruct (well_typed plain_cfg narrow_libc no_env no_code 0 plain_linker narrow_pid 60 some_work 1 four_bytes σ Hm He E)
    as [Ht Ha].
  destruct (well_typed plain_cfg narrow_libc no_env no_code 0 plain_linker narrow_pid 60
    (some_work ++ [Calls 1 (Atomic adding 0 64)]) 1 four_bytes σ1 Hm) as [Ht1 _];
    [apply Forall_app; split; [exact He|repeat constructor]|exact E1|].
  split; [exact Ht|].
  destruct (replay 60 _ (world σ) [world σ1]) as [r w'|w' b rest|e|] eqn:Er; try discriminate H.
  split; [by apply Z.eqb_eq|]. eapply (Ha 1 adding 0 64 60%nat [world σ1] r w'); [|exact Er].
  by apply Forall_singleton.
Defined.
